(* ===== verification/_CoqProject ===== *)
-Q . S2P
Prelude.v
Intrusive.v
Utils.v
Channel.v
ChannelSpec.v
ChannelProps.v
Coro.v
Futex.v
WorkType.v
Ring.v
Runtime.v
OpStates.v
OpStatesProps.v
OpCancel.v
OpShape.v
Options.v
ThreadRing.v
System.v
SystemInv.v
SystemProps.v
SystemOps.v
SystemRun.v
Execution.v
ExecutionProps.v
Buffers.v
BufferSetup.v
RingSettings.v
AsyncOps.v
AsyncOpsProps.v
Zcrx.v
KernelQueue.v
CondyQueue.v
PrimeFs.v
Servers.v
