(* ===== verification/Prelude.v ===== *)
(** * Condy: a verification development

    Condy is a header-only C++20 library for asynchronous I/O with coroutines on
    io_uring (include/condy).  A [Runtime] owns a ring and two queues of works; a
    coroutine awaits an operation, whose entry goes into the submission queue with
    the address of its finish handle as user data; the loop of the runtime reaps
    completions, finds the handle and calls its receiver, which resumes the
    coroutine.  Channels and futexes wake their waiters by scheduling works on
    the runtimes these belong to.

    ** Files, parts of the program, state and operations

    - [Prelude.v] (this file): results of C++ code ([Done], [Thrown], [Crashed]),
      the state monad [ST], machine integers at their width, tactics, the hint
      database [condy] and lemmas the components share.
    - [Intrusive.v]: detail/intrusive.hpp.  A list is a pair of pointers into a
      heap of link entries; [Single] and [Double] are the two implementations,
      pointer by pointer; the class [HandleList] is what a waiter list promises
      channels.
    - [Utils.v]: detail/utils.hpp.  [defer], [IdPool], raw storage and
      [SmallArray], [tuple_at], [align_up].
    - [Channel.v], [ChannelSpec.v], [ChannelProps.v]: channel.hpp.  The members
      of [Channel] and of its push and pop handles; the bounded-queue
      specification [AChannel] with the refinement of each operation; whole
      executions.
    - [Futex.v]: futex.hpp, with [notify_all_] split where it drops the lock.
    - [Coro.v]: detail/coro.hpp, detail/task.hpp, task.hpp.  [Lifecycle] is the
      lock-free protocol between a finishing coroutine and the owner of its task
      as a step relation; [Await], [SenderAwaiter], [BindAllocator] and
      [TaskObject] are the awaiters, frame allocation and the task object.
    - [WorkType.v]: detail/work_type.hpp, tagged user data.
    - [Ring.v]: detail/ring.hpp over the class [Uring] (liburing, a parameter).
    - [Runtime.v]: runtime.hpp, detail/context.hpp.  [World] is the runtimes of a
      process; scheduling, cancelling, the loop and the handling of completions;
      [Enable] and [ExitRace] are the races of other threads with the start of
      the loop.
    - [Options.v]: runtime_options.hpp and [Runtime::create_ring_].
    - [ThreadRing.v]: detail/runtime.hpp, detail/singleton.hpp, detail/invoker.hpp:
      the ring of a thread without a runtime and calls through stored functions.
    - [OpStates.v], [OpStatesProps.v]: detail/op_states.hpp,
      detail/finish_handles.hpp, detail/senders.hpp, sender_operations.hpp.
      Senders, the tree of operation states they connect to, starting,
      completion, cancellation and links; the tree runs on the [Runtime.v] and
      [Ring.v] models.  [OpCancel.v]: the requests that cancellation puts into the
      rings, as a log of whole runs.
    - [System.v]: sync_wait.hpp, and coro.hpp, task.hpp, detail/coro.hpp and
      detail/task.hpp put together with the loop of [Runtime.v] and the operations
      of [OpStates.v].  [Sys] is a process: runtimes and coroutine frames; [exec]
      runs a coroutine to its next suspension point, [sync_wait] is the whole
      program.  [SystemInv.v]: the invariant of the frames and the transitions of
      the system; [SystemProps.v]: what [sync_wait] computes on programs without
      operations; [SystemOps.v], [SystemRun.v]: programs that await operations, and
      the loop of [run] on them.
    - [OpShape.v]: the shape and the values of operation states;
      [Execution.v], [ExecutionProps.v]: execution.hpp, detail/execution.hpp, the
      bridge to std::execution (whose library is a parameter).
    - [Buffers.v]: provided_buffers.hpp, detail/buffers.hpp, over the class
      [BufRing]; [BufferSetup.v]: construction and cleanup of the queue and the
      pool, over [IdPool].
    - [RingSettings.v]: ring_settings.hpp.
    - [AsyncOps.v], [AsyncOpsProps.v]: async_operations.hpp,
      detail/async_operations.hpp, awaiter_operations.hpp, cqe_handler.hpp,
      buffers.hpp, helpers.hpp.  Every [async_*] function as the writes it makes
      to an entry, over the class [Liburing]; [to_sender] makes a sender of
      [OpStates.v] of it.
    - [Zcrx.v]: zcrx.hpp.  The refill queue and the construction of the pool.
    - Programs on the library, under examples/: [KernelQueue.v]
      (queue-kernel-futex.cpp: producers and consumers as actors that interleave,
      over the class [KernelFutex]); [CondyQueue.v] (queue-condy-futex.cpp: the same
      with a mutex and condition variables on [Futex.v], through the class
      [CondyFutex]); [PrimeFs.v] (fuse-prime-fs.cpp: handlers,
      replies and the loop of a queue); [Servers.v] (echo-server.cpp,
      file-server.cpp, link-cp.cpp, ublk-loop.cpp: coroutines that await one
      operation after the other, run against a script of completions).

    ** What the theorems show

    - Lists and queues: the intrusive lists implement sequences; the channel
      implements a bounded queue with blocked operations and keeps first-in
      first-out order; the provided-buffer queue and the zero-copy refill queue
      are FIFOs; every buffer of a pool is in the ring or owned by exactly one
      managed buffer.
    - Exactly-once completion: each channel operation, futex wait and operation
      tree completes once, with the specified value; counters of pending works
      follow; a close, or the completion of all leaves, completes everything.
    - Concurrency: no interleaving of the task protocol accesses a destroyed
      frame or leaks one, and it terminates; no work is stranded when the runtime
      starts; [allow_exit] is not lost under sequential consistency (and can be
      lost with store buffers).
    - The loop: [run] executes what was scheduled and what that schedules;
      scheduling and cancelling reach the right runtime from any thread; completions
      are accounted once; when an operation of [when_any] is done the others get a
      cancel request in the ring, once.
    - Programs: [sync_wait] of a program of coroutines that call, spawn, await,
      detach and switch returns what a direct evaluation of the program returns,
      within a computed number of steps, and leaves no frame and no work behind.
      With asynchronous operations, completed in any order by a kernel that
      completes only what is outstanding: the loop sleeps only while an operation is
      outstanding and leaves only when all coroutines have ended, and then
      [sync_wait] has its result.
    - std::execution: a condy sender completes once with the completion that
      reports its result; waiting for a sender resumes the coroutine once; what is
      scheduled on a runtime completes there.
    - Preparation: each asynchronous operation queues the entry its arguments ask
      for, with the finish handle whose completions the kernel will post; reads
      and writes stay within their buffers.
    - Construction and errors: options stay consistent, the ring is created with
      the flags they mean, buffer queues and pools give back what they acquired on
      every error path.
    - Example programs: producers and consumers, on kernel futexes and on condy
      futexes, never overfill the queue, do not deadlock and print what was produced; the prime
      file system lists and finds every number once, as a file if and only if it is
      prime, and commits one reply for each request; sessions of the servers close
      their sockets and files (not the pipe of [sendfile]); the chunks of a copy cover the file; the block device performs
      and commits one request after the other in the buffer of its tag.
    - Defects found are stated as theorems too: a race of [Futex] cancellation
      with [notify_all], the lost exit, a wait that leaks its frame, an exception
      of [run] that ends the program in [sync_wait],
      [reserve_space] that never returns when the queue is too small or the kernel
      takes no entry, the pipe that the file server leaves open, empty links, links cut by the
      submission threshold, the end of a zero-copy stream, a failed mapping of a
      zero-copy area.

    ** Conventions, bounds and fuel

    Integers are [Z] with [u8], [u16], [u32], [u64] written where the code's type
    wraps.  A critical section is one step; where a lock is dropped or an
    algorithm is lock-free the model has a step relation.  Memory is sequentially
    consistent except in [Runtime.ExitRace].  Loops without a structural bound
    take fuel and end in [Crashed OutOfFuel] without enough of it; theorems give
    the fuel that suffices: the number of entries of a list or buffer, the
    bytes of a completion plus one, [reserve_turns] for waiting on the submission queue
    (one more turn than the submissions that make room, with [uring_retries] that
    the kernel may refuse before each), one more than the works served for [run], the height of an operation tree
    for [start], one more than the steps that [eval] counts for [sync_wait], one
    more than the results of the script for sessions, the square root of the number
    for the test of primality, the entries that fit into the buffer for a directory.
    [Class]es stand for liburing and the kernel; their laws are documented behaviour,
    and each has a simulated instance that the concrete examples run on.  [UringDocs]
    are the laws of liburing; [UringLaws] adds that the kernel takes an entry within
    [uring_retries] refused submissions, which [get_sqe] and [reserve_space] rely on.  All versioned features are taken as available.

    ** Not modelled

    - The theorems on whole programs are about one runtime ([System.v] runs programs
      on several too).  With operations, that the loop ends is not shown: it depends
      on when the kernel completes them.
    - The deprecated overloads of [async_uring_cmd].
    - Senders of other libraries: [wait_sender_resumes] is about condy senders, for
      which [affine] is the identity.
    - A 128-byte entry is an entry: only the guard of [get_sqe128] is modelled.
    - Of the examples: custom-allocator.cpp and module-hello.cpp; the parsing of options; sockets, mounts, devices and
      threads as they are set up before the loops run.  Waits on a kernel futex that
      return without a wake-up or with an error are not modelled.
    - concepts, type traits, aliases, version macros and pmr.hpp have no run-time
      behaviour. *)

From stdpp Require Import base numbers list list_numbers gmap.

(** ** Results of C++ code

    A C++ function body returns normally, throws an exception, or ends the
    program.  [Crash] collects what the code must never reach: a failed
    [assert], a call of [panic_on] and an access that is undefined behaviour
    (a null pointer, an index outside an array, a read of raw storage in which
    no object has been constructed).  [OutOfFuel] is no C++ behaviour: a loop
    of the model that has not ended within its fuel.  A thrown exception carries the state at
    the throw, because destructors and [defer] blocks still run on it. *)
Inductive exn : Type :=
  | RuntimeError
  | LogicError
  | InvalidArgument
  | SystemError (ec : Z)
  | UserException (id : nat).

Inductive crash : Type :=
  | AssertFailed
  | Panic
  | BadAccess
  | OutOfFuel.

#[export] Instance exn_eq_dec : EqDecision exn.
Proof. solve_decision. Defined.

#[export] Instance crash_eq_dec : EqDecision crash.
Proof. solve_decision. Defined.

Inductive result (S A : Type) : Type :=
  | Done (a : A) (s : S)
  | Thrown (e : exn) (s : S)
  | Crashed (c : crash).
Arguments Done {S A} a s.
Arguments Thrown {S A} e s.
Arguments Crashed {S A} c.

(** Stateful code over a state [S]. *)
Definition ST (S A : Type) : Type := S → result S A.

#[export] Instance st_ret S : MRet (ST S) := λ A a s, Done a s.
#[export] Instance st_bind S : MBind (ST S) := λ A B k m s,
  match m s with
  | Done a s' => k a s'
  | Thrown e s' => Thrown e s'
  | Crashed c => Crashed c
  end.
Definition get {S} : ST S S := λ s, Done s s.
Definition put {S} (s : S) : ST S unit := λ _, Done tt s.
Definition gets {S A} (f : S → A) : ST S A := λ s, Done (f s) s.
Definition modify {S} (f : S → S) : ST S unit := λ s, Done tt (f s).
Definition throw {S A} (e : exn) : ST S A := λ s, Thrown e s.
Definition crashed {S A} (c : crash) : ST S A := λ _, Crashed c.

(** Run code on a part of the state. *)
Definition zoom {S V A} (g : S → V) (p : V → S → S) (m : ST V A) : ST S A := λ s,
  match m (g s) with
  | Done a v => Done a (p v s)
  | Thrown e v => Thrown e (p v s)
  | Crashed c => Crashed c
  end.

(** [assert(b)] of <cassert>. *)
Definition assert_ {S} (b : bool) : ST S unit :=
  if b then mret tt else crashed AssertFailed.

(** The state with which a computation leaves, normally or by an exception. *)
Definition exit_state {S A} (r : result S A) : option S :=
  match r with
  | Done _ s => Some s
  | Thrown _ s => Some s
  | Crashed _ => None
  end.

Open Scope Z_scope.

(** ** Machine integers *)

(** Unsigned arithmetic at a width of [w] bits. *)
Definition wrap (w z : Z) : Z := z mod 2 ^ w.
Abbreviation u8 := (wrap 8).
Abbreviation u16 := (wrap 16).
Abbreviation u32 := (wrap 32).
Abbreviation u64 := (wrap 64).

(** Conversion to a signed integer of [w] bits (two's complement). *)
Definition swrap (w z : Z) : Z := (z + 2 ^ (w - 1)) mod 2 ^ w - 2 ^ (w - 1).
Abbreviation s32 := (swrap 32).

(** [std::bit_ceil] of <bit>: the least power of two that is not below the
    argument (1 for the argument 0). *)
Definition bit_ceil (z : Z) : Z := 2 ^ Z.log2_up z.

Definition is_pow2 (z : Z) : Prop := ∃ k, 0 ≤ k ∧ z = 2 ^ k.

(** The values <cerrno> has on Linux of the error numbers the code uses. *)
Definition EINTR : Z := 4.
Definition EAGAIN : Z := 11.
Definition EINVAL : Z := 22.
Definition EPIPE : Z := 32.
Definition EIDRM : Z := 43.
Definition ECANCELED : Z := 125.
Definition ENOTRECOVERABLE : Z := 131.

(** ** Automation *)

Create HintDb condy discriminated.

(** Turn boolean comparisons of [Z] and boolean connectives into propositions. *)
Ltac bool_to_prop :=
  repeat match goal with
  | H : _ && _ = true |- _ => apply andb_true_iff in H as [? ?]
  | H : _ || _ = false |- _ => apply orb_false_iff in H as [? ?]
  | H : negb _ = true |- _ => apply negb_true_iff in H
  | H : negb _ = false |- _ => apply negb_false_iff in H
  | H : (_ =? _) = true |- _ => apply Z.eqb_eq in H
  | H : (_ =? _) = false |- _ => apply Z.eqb_neq in H
  | H : (_ <? _) = true |- _ => apply Z.ltb_lt in H
  | H : (_ <? _) = false |- _ => apply Z.ltb_ge in H
  | H : (_ <=? _) = true |- _ => apply Z.leb_le in H
  | H : (_ <=? _) = false |- _ => apply Z.leb_gt in H
  | H : bool_decide _ = true |- _ => apply bool_decide_eq_true in H
  | H : bool_decide _ = false |- _ => apply bool_decide_eq_false in H
  end.

(** Run the state monad one layer: unfold its combinators in the goal. *)
Ltac run_st :=
  unfold mret, st_ret, mbind, st_bind, get, put, gets, modify, throw, crashed, assert_, zoom; simpl.
Ltac run_st_in H :=
  unfold mret, st_ret, mbind, st_bind, get, put, gets, modify, throw, crashed, assert_, zoom in H; simpl in H.

(** Sequencing after a computation that returns. *)
Lemma bind_done {S A B} (m : ST S A) (k : A → ST S B) s a s' :
  m s = Done a s' → (x ← m; k x) s = k a s'.
Proof. intros E. unfold mbind, st_bind. by rewrite E. Qed.

Lemma bind_inv {S A B} (m : ST S A) (k : A → ST S B) s b s' :
  (x ← m; k x) s = Done b s' → ∃ a s1, m s = Done a s1 ∧ k a s1 = Done b s'.
Proof. unfold mbind, st_bind. destruct (m s) as [a s1 | |]; [eauto | done | done]. Qed.

Lemma bind_get {S B} (k : S → ST S B) s : (x ← get; k x) s = k s s.
Proof. done. Qed.

Lemma bind_gets {S A B} (f : S → A) (k : A → ST S B) s : (x ← gets f; k x) s = k (f s) s.
Proof. done. Qed.

Lemma bind_assert {S B} b (k : unit → ST S B) s :
  b = true → (x ← assert_ b; k x) s = k tt s.
Proof. by intros ->. Qed.

Lemma zoom_done {S V A} (g : S → V) (p : V → S → S) (m : ST V A) s a v :
  m (g s) = Done a v → zoom g p m s = Done a (p v s).
Proof. intros E. unfold zoom. by rewrite E. Qed.

(** ** Lemmas on machine integers *)

Lemma wrap_range w z : 0 ≤ w → 0 ≤ wrap w z < 2 ^ w.
Proof. intros. apply Z.mod_pos_bound, Z.pow_pos_nonneg; lia. Qed.

Lemma wrap_small w z : 0 ≤ z < 2 ^ w → wrap w z = z.
Proof. apply Z.mod_small. Qed.

Lemma wrap_add_l w a b : wrap w (wrap w a + b) = wrap w (a + b).
Proof. apply Zplus_mod_idemp_l. Qed.

Lemma wrap_sub_l w a b : wrap w (wrap w a - b) = wrap w (a - b).
Proof. apply Zminus_mod_idemp_l. Qed.

Lemma wrap_sub_r w a b : wrap w (a - wrap w b) = wrap w (a - b).
Proof. apply Zminus_mod_idemp_r. Qed.

Lemma wrap_wrap w z : wrap w (wrap w z) = wrap w z.
Proof. apply Zmod_mod. Qed.

(** Masking with [2^k - 1] is the remainder modulo [2^k]. *)
Lemma land_mask x k : 0 ≤ k → Z.land x (2 ^ k - 1) = x mod 2 ^ k.
Proof. intros. rewrite <- Z.land_ones by done. by rewrite Z.ones_equiv, Z.sub_1_r. Qed.

(** Reducing modulo a smaller power of two forgets an outer wrap-around. *)
Lemma wrap_mod_pow2 w k z : 0 ≤ k ≤ w → wrap w z mod 2 ^ k = z mod 2 ^ k.
Proof.
  intros. unfold wrap. rewrite <- !Z.land_ones by lia.
  rewrite <- Z.land_assoc, (Z.land_comm (Z.ones w)), Z.land_ones by lia.
  f_equal. apply Z.mod_small. rewrite !Z.ones_equiv.
  pose proof (Z.pow_pos_nonneg 2 k). pose proof (Z.pow_le_mono_r 2 k w). lia.
Qed.

Lemma bit_ceil_pow2 z : is_pow2 (bit_ceil z).
Proof. exists (Z.log2_up z). split; [apply Z.log2_up_nonneg | done]. Qed.

Lemma bit_ceil_ge z : 0 < z → z ≤ bit_ceil z.
Proof.
  intros. unfold bit_ceil. destruct (decide (z = 1)) as [-> | ]; [done |].
  apply Z.log2_up_spec. lia.
Qed.

Lemma bit_ceil_least z p : 0 < z → is_pow2 p → z ≤ p → bit_ceil z ≤ p.
Proof.
  intros Hz [k [Hk ->]] Hle. apply Z.pow_le_mono_r; [lia |].
  rewrite <- (Z.log2_up_pow2 k) by done. by apply Z.log2_up_le_mono.
Qed.

Lemma is_pow2_pos p : is_pow2 p → 0 < p.
Proof. intros [k [? ->]]. by apply Z.pow_pos_nonneg. Qed.

#[export] Hint Resolve bit_ceil_pow2 is_pow2_pos : condy.

(** ** Lemmas on lists *)

Lemma head_snoc {A} (l : list A) x : head (l ++ [x]) = Some (default x (head l)).
Proof. by destruct l. Qed.

Lemma NoDup_snoc {A} (l : list A) x : NoDup (l ++ [x]) ↔ NoDup l ∧ x ∉ l.
Proof. rewrite NoDup_app. set_unfold. naive_solver (auto using NoDup_singleton). Qed.

Lemma omap_nil {A B} (f : A → option B) l : (∀ x, x ∈ l → f x = None) → omap f l = [].
Proof.
  intros E. destruct (omap f l) as [|y ys] eqn:Ef; [done |].
  assert (y ∈ omap f l) as (x & Hx & Ex)%list_elem_of_omap by (rewrite Ef; set_solver).
  by rewrite E in Ex.
Qed.

(** Distinct keys of a map are no more than its entries. *)
Lemma nodup_keys_size `{Countable K} {A} (l : list K) (m : gmap K A) :
  NoDup l → (∀ k, k ∈ l → is_Some (m !! k)) → (length l ≤ size m)%nat.
Proof.
  intros Hnd Hl. rewrite <- size_dom, <- (size_list_to_set (C := gset K)) by done.
  apply subseteq_size. intros k. rewrite elem_of_list_to_set, elem_of_dom. auto.
Qed.

(** ** Sums over a list

    Invariants of programs with many actors count what each of them contributes. *)

Abbreviation total f l := (sum_list_with f l).

Section sums.
Context {A : Type}.
Implicit Types (f g : A → nat) (l : list A).

Lemma total_update f l i a b : l !! i = Some a → (total f (<[i := b]> l) + f a = total f l + f b)%nat.
Proof.
  intros Hi. rewrite (insert_take_drop l i b) by (by eapply lookup_lt_Some).
  rewrite <- (take_drop_middle l i a Hi) at 3. rewrite !sum_list_with_app. simpl. lia.
Qed.

Lemma total_fmap f (h : A → A) l : (∀ a, f (h a) = f a) → ∀ i, total f (alter h i l) = total f l.
Proof. intros E. induction l as [|a l IH]; intros [|i]; simpl; [done.. | by rewrite E | f_equal; apply IH]. Qed.

Lemma total_zero f l : (∀ i a, l !! i = Some a → f a = 0%nat) → total f l = 0%nat.
Proof.
  induction l as [|a l IH]; intros E; simpl; [done |]. rewrite (E 0%nat a eq_refl), IH; [done |].
  intros i b Hi. by apply (E (S i)).
Qed.

Lemma total_le f g l : (∀ i a, l !! i = Some a → (f a ≤ g a)%nat) → (total f l ≤ total g l)%nat.
Proof.
  induction l as [|a l IH]; intros E; simpl; [done |]. pose proof (E 0%nat a eq_refl).
  specialize (IH (λ i, E (S i))). lia.
Qed.

Lemma total_ge f l i a : l !! i = Some a → (f a ≤ total f l)%nat.
Proof. intros Hi. apply sum_list_with_in. by eapply list_elem_of_lookup_2. Qed.

Lemma total_replicate f n a : total f (replicate n a) = (n * f a)%nat.
Proof. induction n as [|n IH]; simpl; [done |]. by rewrite IH. Qed.

Lemma total_map {B} f (h : B → A) (l : list B) c : (∀ x, f (h x) = c) → total f (map h l) = (length l * c)%nat.
Proof. intros E. induction l as [|x l IH]; simpl; [done |]. by rewrite E, IH. Qed.

Lemma alter_lookup (h : A → A) l i a : l !! i = Some a → alter h i l = <[i := h a]> l.
Proof. revert i. induction l as [|b l IH]; intros [|i] E; simplify_eq/=; [done |]. f_equal. by apply IH. Qed.
End sums.

(** The occurrences of a number. *)
Definition occ (z : Z) (l : list Z) : nat := count_occ Z.eq_dec l z.
Lemma occ_app z l k : occ z (l ++ k) = (occ z l + occ z k)%nat.
Proof. apply count_occ_app. Qed.
