(* ===== verification/Intrusive.v ===== *)
(** * Intrusive linked lists (include/condy/detail/intrusive.hpp)

    The link fields live inside the queued objects, so a list is a pair of
    pointers into a heap of link entries.  An entry is named by the object it
    is a member of ([addr]); an address that the heap does not mention holds an
    entry with its default member initialisers, i.e. null links.

    - [Single]: [SingleLinkListImpl], the work queues of a runtime;
    - [Double]: [DoubleLinkListImpl], the waiter lists of channels and futexes;
    - [HandleList]: what a waiter list promises its clients, with the pointer
      implementation as an instance.

    The operations are the C++ ones, pointer by pointer.  The theorems show
    that they implement a first-in first-out sequence without duplicates, that
    none of their assertions fires and no null pointer is followed. *)

From stdpp Require Import base numbers list gmap.
From S2P Require Import Prelude.

Abbreviation addr := nat.

(** Following a pointer. *)
Definition deref {S} (p : option addr) : ST S addr :=
  match p with
  | Some a => mret a
  | None => crashed BadAccess
  end.

(** [&(item->*Member)] and [container_of(Member, ptr)] on 64-bit addresses,
    with the offset [offset_of] computes for the member. *)
Definition member_addr (offset item : Z) : Z := u64 (item + offset).
Definition container_of (offset ptr : Z) : Z := u64 (ptr - offset).

(** The successor of the last element of a segment, resp. the predecessor of
    its first one, when the segment is followed by [n] (preceded by [p]). *)
Definition next_of (ys : list addr) (n : option addr) : option addr :=
  match ys with [] => n | y :: _ => Some y end.
Definition last_of (xs : list addr) (p : option addr) : option addr :=
  match last xs with Some x => Some x | None => p end.

Module Single.

Record SingleLinkEntry := mkSingleLinkEntry { next : option addr }.

Abbreviation heap := (gmap addr SingleLinkEntry).

Definition single_entry (h : heap) (e : addr) : SingleLinkEntry :=
  default (mkSingleLinkEntry None) (h !! e).

Record SingleLinkListImpl := mkSingleLinkListImpl {
  head_ : option addr;
  tail_ : option addr
}.

Definition single_new : SingleLinkListImpl := mkSingleLinkListImpl None None.

Definition single_empty (l : SingleLinkListImpl) : bool :=
  bool_decide (head_ l = None).

Definition set_next (e : addr) (p : option addr) (h : heap) : heap :=
  <[e := mkSingleLinkEntry p]> h.

(** [operator=(SingleLinkListImpl &&)]: the moved-to list must be empty, the
    moved-from list becomes empty. *)
Definition single_move (l other : SingleLinkListImpl)
    : ST heap (SingleLinkListImpl * SingleLinkListImpl) :=
  assert_ (single_empty l);;
  mret (mkSingleLinkListImpl (head_ other) (tail_ other), single_new).

Definition single_push_back (l : SingleLinkListImpl) (entry : option addr)
    : ST heap SingleLinkListImpl :=
  assert_ (bool_decide (entry ≠ None));;
  e ← deref entry;
  h ← get;
  assert_ (bool_decide (next (single_entry h e) = None));;
  if single_empty l then
    mret (mkSingleLinkListImpl entry entry)
  else
    t ← deref (tail_ l);
    modify (set_next t entry);;
    mret (mkSingleLinkListImpl (head_ l) entry).

(** [push_back(SingleLinkListImpl &other)]: splice [other] at the end. *)
Definition single_push_back_list (l other : SingleLinkListImpl)
    : ST heap (SingleLinkListImpl * SingleLinkListImpl) :=
  if single_empty other then
    mret (l, other)
  else if single_empty l then
    mret (mkSingleLinkListImpl (head_ other) (tail_ other), single_new)
  else
    t ← deref (tail_ l);
    modify (set_next t (head_ other));;
    mret (mkSingleLinkListImpl (head_ l) (tail_ other), single_new).

Definition single_pop_front (l : SingleLinkListImpl)
    : ST heap (option addr * SingleLinkListImpl) :=
  if single_empty l then
    mret (None, l)
  else
    e ← deref (head_ l);
    h ← get;
    let head' := next (single_entry h e) in
    let tail' := if bool_decide (head' = None) then None else tail_ l in
    modify (set_next e None);;
    mret (Some e, mkSingleLinkListImpl head' tail').

(** ** The abstract sequence a list stands for *)

(** [seg h xs n]: the [next] fields of [xs] lead from each element to the
    following one, and from the last one to [n]. *)
Fixpoint seg (h : heap) (xs : list addr) (n : option addr) : Prop :=
  match xs with
  | [] => True
  | x :: xs' => next (single_entry h x) = next_of xs' n ∧ seg h xs' n
  end.

Record single_rep (h : heap) (l : SingleLinkListImpl) (xs : list addr) : Prop := {
  single_nodup : NoDup xs;
  single_head : head_ l = head xs;
  single_tail : tail_ l = last xs;
  single_seg : seg h xs None
}.

Lemma single_entry_set_eq h e p : single_entry (set_next e p h) e = mkSingleLinkEntry p.
Proof. unfold single_entry, set_next. by rewrite lookup_insert_eq. Qed.

Lemma single_entry_set_ne h e e' p :
  e ≠ e' → single_entry (set_next e p h) e' = single_entry h e'.
Proof. intros. unfold single_entry, set_next. by rewrite lookup_insert_ne. Qed.

Lemma seg_frame h e p xs n : e ∉ xs → seg (set_next e p h) xs n ↔ seg h xs n.
Proof.
  induction xs as [|x xs IH]; simpl; [done |].
  intros [? ?]%not_elem_of_cons. by rewrite single_entry_set_ne, IH.
Qed.

Lemma single_seg_app h xs ys n : seg h (xs ++ ys) n ↔ seg h xs (next_of ys n) ∧ seg h ys n.
Proof.
  induction xs as [|x xs IH]; simpl; [tauto |]. rewrite IH.
  destruct xs; simpl; tauto.
Qed.

Lemma seg_link h xs t n :
  t ∉ xs → seg h (xs ++ [t]) None → seg (set_next t n h) (xs ++ [t]) n.
Proof.
  intros Ht. rewrite !single_seg_app; simpl. intros [Hxs _].
  split; [by apply seg_frame |]. by rewrite single_entry_set_eq.
Qed.

Lemma single_empty_rep h l xs :
  single_rep h l xs → single_empty l = bool_decide (xs = []).
Proof. intros [? Hh ? ?]. unfold single_empty. rewrite Hh. by destruct xs. Qed.

Lemma single_new_rep h : single_rep h single_new [].
Proof. split; try done. constructor. Qed.

(** Appending a detached entry. *)
Lemma single_push_back_ok h l xs e :
  single_rep h l xs → e ∉ xs → next (single_entry h e) = None →
  ∃ h' l', single_push_back l (Some e) h = Done l' h' ∧
    single_rep h' l' (xs ++ [e]) ∧
    (∀ x, x ∉ xs → single_entry h' x = single_entry h x).
Proof.
  intros Hr He Hn. unfold single_push_back.
  rewrite (single_empty_rep _ _ _ Hr). run_st. rewrite Hn, bool_decide_eq_true_2 by done.
  destruct Hr as [Hnd Hh Ht Hs]. run_st.
  destruct xs as [|x xs _] using rev_ind; run_st.
  - eexists h, _; split_and!; [done | | done].
    split; try done. apply NoDup_singleton.
  - apply NoDup_snoc in Hnd as [Hnd Hx].
    rewrite bool_decide_eq_false_2 by (by destruct xs). run_st.
    rewrite Ht, last_snoc. run_st. eexists _, _; split_and!; [done | |].
    + assert (x ≠ e) by set_solver. split; simpl.
      * rewrite !NoDup_snoc. set_solver.
      * rewrite Hh, !head_snoc. by destruct xs.
      * by rewrite last_snoc.
      * rewrite single_seg_app; simpl. rewrite single_entry_set_ne by done.
        split; [by apply seg_link | done].
    + intros y Hy. rewrite single_entry_set_ne; set_solver.
Qed.

(** Splicing a second list of other objects. *)
Lemma single_push_back_list_ok h l1 l2 xs ys :
  single_rep h l1 xs → single_rep h l2 ys → xs ## ys →
  ∃ h' l', single_push_back_list l1 l2 h = Done (l', single_new) h' ∧
    single_rep h' l' (xs ++ ys) ∧
    (∀ x, x ∉ xs → single_entry h' x = single_entry h x).
Proof.
  intros H1 H2 Hd. unfold single_push_back_list.
  rewrite (single_empty_rep _ _ _ H1), (single_empty_rep _ _ _ H2).
  destruct ys as [|y ys].
  { rewrite app_nil_r. destruct H2 as [_ Hh2 Ht2 _]. run_st.
    exists h, l1. destruct l2; simpl in *; by subst. }
  destruct H1 as [Hnd Hh Ht Hs], H2 as [Hnd2 Hh2 Ht2 Hs2].
  destruct xs as [|x xs _] using rev_ind; run_st.
  - exists h, l2. destruct l2; simpl in *; subst. split_and!; done.
  - rewrite bool_decide_eq_false_2 by (by destruct xs). run_st.
    rewrite Ht, last_snoc. run_st. eexists _, _; split_and!; [done | |].
    + split; simpl.
      * apply NoDup_app; split_and!; [done | set_solver | done].
      * rewrite Hh. by destruct xs.
      * rewrite Ht2. by rewrite last_app_cons.
      * apply NoDup_snoc in Hnd as [Hnd Hx]. rewrite single_seg_app. split.
        { rewrite Hh2. by apply seg_link. }
        apply seg_frame; [set_solver | done].
    + intros z Hz. rewrite single_entry_set_ne; set_solver.
Qed.

(** Removing the first element, which is left detached. *)
Lemma single_pop_front_ok h l x xs :
  single_rep h l (x :: xs) →
  ∃ h' l', single_pop_front l h = Done (Some x, l') h' ∧ single_rep h' l' xs ∧
    next (single_entry h' x) = None ∧
    (∀ y, y ≠ x → single_entry h' y = single_entry h y).
Proof.
  intros Hr. unfold single_pop_front. rewrite (single_empty_rep _ _ _ Hr).
  destruct Hr as [Hnd Hh Ht [Hn Hs]]. run_st. rewrite Hh. run_st.
  apply NoDup_cons in Hnd as [Hx Hnd].
  eexists _, _; split_and!; [done | | |].
  - split; simpl; [done | | |].
    + rewrite Hn. by destruct xs.
    + rewrite Hn, Ht. by destruct xs.
    + by apply seg_frame.
  - by rewrite single_entry_set_eq.
  - intros y ?. by rewrite single_entry_set_ne.
Qed.

Lemma single_pop_front_nil h l :
  single_rep h l [] → single_pop_front l h = Done (None, l) h.
Proof.
  intros Hr. unfold single_pop_front. by rewrite (single_empty_rep _ _ _ Hr).
Qed.

End Single.

Module Double.

Record DoubleLinkEntry := mkDoubleLinkEntry {
  next : option addr;
  prev : option addr
}.

Abbreviation heap := (gmap addr DoubleLinkEntry).

Definition null_links : DoubleLinkEntry := mkDoubleLinkEntry None None.

Definition double_entry (h : heap) (e : addr) : DoubleLinkEntry :=
  default null_links (h !! e).

Record DoubleLinkListImpl := mkDoubleLinkListImpl {
  head_ : option addr;
  tail_ : option addr
}.

Definition double_new : DoubleLinkListImpl := mkDoubleLinkListImpl None None.

Definition double_empty (l : DoubleLinkListImpl) : bool :=
  bool_decide (head_ l = None).

Definition set_next (e : addr) (p : option addr) (h : heap) : heap :=
  <[e := mkDoubleLinkEntry p (prev (double_entry h e))]> h.
Definition set_prev (e : addr) (p : option addr) (h : heap) : heap :=
  <[e := mkDoubleLinkEntry (next (double_entry h e)) p]> h.

(** [operator=(DoubleLinkListImpl &&)]. *)
Definition double_move (l other : DoubleLinkListImpl)
    : ST heap (DoubleLinkListImpl * DoubleLinkListImpl) :=
  assert_ (double_empty l);;
  mret (mkDoubleLinkListImpl (head_ other) (tail_ other), double_new).

Definition double_push_back (l : DoubleLinkListImpl) (entry : option addr)
    : ST heap DoubleLinkListImpl :=
  assert_ (bool_decide (entry ≠ None));;
  e ← deref entry;
  d ← gets (λ h, double_entry h e);
  assert_ (bool_decide (next d = None) && bool_decide (prev d = None));;
  modify (set_next e None);;
  modify (set_prev e (tail_ l));;
  if double_empty l then
    mret (mkDoubleLinkListImpl entry entry)
  else
    t ← deref (tail_ l);
    modify (set_next t entry);;
    mret (mkDoubleLinkListImpl (head_ l) entry).

Definition double_pop_front (l : DoubleLinkListImpl)
    : ST heap (option addr * DoubleLinkListImpl) :=
  if double_empty l then
    mret (None, l)
  else
    e ← deref (head_ l);
    head' ← gets (λ h, next (double_entry h e));
    tail' ← match head' with
            | Some n => modify (set_prev n None);; mret (tail_ l)
            | None => mret None
            end;
    modify (set_next e None);;
    modify (set_prev e None);;
    mret (Some e, mkDoubleLinkListImpl head' tail').

Definition double_remove (l : DoubleLinkListImpl) (entry : option addr)
    : ST heap (bool * DoubleLinkListImpl) :=
  assert_ (bool_decide (entry ≠ None));;
  e ← deref entry;
  d ← gets (λ h, double_entry h e);
  if bool_decide (prev d = None) && bool_decide (next d = None)
     && bool_decide (head_ l ≠ Some e)
  then mret (false, l)
  else
    head' ← match prev d with
            | Some p => modify (set_next p (next d));; mret (head_ l)
            | None => assert_ (bool_decide (head_ l = Some e));; mret (next d)
            end;
    d ← gets (λ h, double_entry h e);
    tail' ← match next d with
            | Some n => modify (set_prev n (prev d));; mret (tail_ l)
            | None => assert_ (bool_decide (tail_ l = Some e));; mret (prev d)
            end;
    modify (set_next e None);;
    modify (set_prev e None);;
    mret (true, mkDoubleLinkListImpl head' tail').

(** ** The abstract sequence a list stands for *)

(** [seg h p xs n]: the links of [xs] form a doubly linked segment between the
    predecessor [p] and the successor [n]. *)
Fixpoint seg (h : heap) (p : option addr) (xs : list addr) (n : option addr) : Prop :=
  match xs with
  | [] => True
  | x :: xs' =>
      double_entry h x = mkDoubleLinkEntry (next_of xs' n) p ∧ seg h (Some x) xs' n
  end.

Record double_rep (h : heap) (l : DoubleLinkListImpl) (xs : list addr) : Prop := {
  double_nodup : NoDup xs;
  double_head : head_ l = head xs;
  double_tail : tail_ l = last xs;
  double_seg : seg h None xs None
}.

(** Objects outside the list have null links. *)
Definition detached (h : heap) (xs : list addr) : Prop :=
  ∀ e, e ∉ xs → double_entry h e = null_links.

Lemma double_entry_insert h e e' d :
  double_entry (<[e := d]> h) e' = if decide (e = e') then d else double_entry h e'.
Proof. unfold double_entry. rewrite lookup_insert. by case_decide. Qed.

Lemma double_entry_next h e e' p :
  double_entry (set_next e p h) e' =
    if decide (e = e') then mkDoubleLinkEntry p (prev (double_entry h e))
    else double_entry h e'.
Proof. apply double_entry_insert. Qed.

Lemma double_entry_prev h e e' p :
  double_entry (set_prev e p h) e' =
    if decide (e = e') then mkDoubleLinkEntry (next (double_entry h e)) p
    else double_entry h e'.
Proof. apply double_entry_insert. Qed.

Lemma seg_ext h h' p xs n :
  (∀ x, x ∈ xs → double_entry h' x = double_entry h x) →
  seg h p xs n → seg h' p xs n.
Proof.
  revert p. induction xs as [|x xs IH]; simpl; [done |]. intros p He [Hx Hs].
  rewrite He by set_solver. split; [done |]. apply IH; [set_solver | done].
Qed.

Lemma double_seg_app h p xs ys n :
  seg h p (xs ++ ys) n ↔ seg h p xs (next_of ys n) ∧ seg h (last_of xs p) ys n.
Proof.
  revert p. induction xs as [|x xs IH]; simpl; intros p.
  { unfold last_of; simpl. tauto. }
  rewrite IH. unfold last_of. rewrite last_cons.
  destruct (last xs) eqn:E; [destruct xs; [done | simpl; tauto] |].
  apply last_None in E as ->. simpl. tauto.
Qed.

(** Redirecting the forward link out of a segment. *)
Lemma seg_set_next h p xs t n n' :
  t ∉ xs → seg h p (xs ++ [t]) n → seg (set_next t n' h) p (xs ++ [t]) n'.
Proof.
  intros Ht. rewrite !double_seg_app; simpl. intros (Hxs & Hd & _). split_and!; [| | done].
  - eapply seg_ext, Hxs. intros x Hx. rewrite double_entry_next, decide_False; set_solver.
  - by rewrite double_entry_next, decide_True, Hd.
Qed.

(** Redirecting the backward link into a segment. *)
Lemma seg_set_prev h p p' x xs n :
  x ∉ xs → seg h p (x :: xs) n → seg (set_prev x p' h) p' (x :: xs) n.
Proof.
  intros Hx [Hd Hs]. split.
  - by rewrite double_entry_prev, decide_True, Hd.
  - eapply seg_ext, Hs. intros y Hy. rewrite double_entry_prev, decide_False; set_solver.
Qed.

(** Updates of an entry outside the segment do not matter. *)
Lemma seg_insert h p e d xs n : e ∉ xs → seg h p xs n → seg (<[e := d]> h) p xs n.
Proof.
  intros He. apply seg_ext. intros x Hx. rewrite double_entry_insert, decide_False; set_solver.
Qed.

Lemma double_empty_rep h l xs :
  double_rep h l xs → double_empty l = bool_decide (xs = []).
Proof. intros [? Hh ? ?]. unfold double_empty. rewrite Hh. by destruct xs. Qed.

Lemma double_new_rep h : double_rep h double_new [].
Proof. split; try done. constructor. Qed.

Ltac solve_entries :=
  intros; unfold set_next, set_prev; rewrite ?double_entry_insert;
  repeat case_decide; subst; simpl; eauto; try set_solver; try congruence.

Lemma double_push_back_ok h l xs e :
  double_rep h l xs → e ∉ xs → double_entry h e = null_links →
  ∃ h' l', double_push_back l (Some e) h = Done l' h' ∧
    double_rep h' l' (xs ++ [e]) ∧
    (∀ x, x ∉ xs ++ [e] → double_entry h' x = double_entry h x).
Proof.
  intros Hr He Hd. unfold double_push_back.
  rewrite (double_empty_rep _ _ _ Hr). destruct Hr as [Hnd Hh Ht Hs]. run_st.
  rewrite Hd. run_st.
  destruct xs as [|x xs _] using rev_ind; run_st.
  - rewrite Ht; simpl. eexists _, _; split_and!; [done | | solve_entries].
    split; try done; [apply NoDup_singleton |]. simpl. split; [solve_entries | done].
  - apply NoDup_snoc in Hnd as [Hnd Hx].
    rewrite bool_decide_eq_false_2 by (by destruct xs). run_st.
    rewrite Ht, last_snoc. run_st. eexists _, _; split_and!; [done | | solve_entries].
    assert (x ≠ e) by set_solver. split; simpl.
    + rewrite !NoDup_snoc. set_solver.
    + rewrite Hh. by destruct xs.
    + by rewrite last_snoc.
    + rewrite double_seg_app; simpl. unfold last_of; rewrite last_snoc.
      split_and!; [| solve_entries | done].
      eapply seg_set_next; [done |]. do 2 (apply seg_insert; [done |]). done.
Qed.

Lemma double_pop_front_nil h l :
  double_rep h l [] → double_pop_front l h = Done (None, l) h.
Proof. intros Hr. unfold double_pop_front. by rewrite (double_empty_rep _ _ _ Hr). Qed.

Lemma double_pop_front_ok h l x xs :
  double_rep h l (x :: xs) →
  ∃ h' l', double_pop_front l h = Done (Some x, l') h' ∧ double_rep h' l' xs ∧
    double_entry h' x = null_links ∧
    (∀ y, y ∉ x :: xs → double_entry h' y = double_entry h y).
Proof.
  intros Hr. unfold double_pop_front. rewrite (double_empty_rep _ _ _ Hr).
  destruct Hr as [Hnd Hh Ht [Hd Hs]]. apply NoDup_cons in Hnd as [Hx Hnd].
  run_st. rewrite Hh. run_st. rewrite Hd. destruct xs as [|y xs]; run_st.
  - eexists _, _; split_and!; [done | | solve_entries..].
    by split.
  - eexists _, _; split_and!; [done | | solve_entries..].
    split; [done | done | by rewrite Ht |].
    apply (seg_set_prev _ _ None) in Hs; [| by apply NoDup_cons in Hnd as [? _]].
    do 2 (apply seg_insert; [done |]). done.
Qed.

Lemma double_remove_absent h l xs e :
  double_rep h l xs → e ∉ xs → double_entry h e = null_links →
  double_remove l (Some e) h = Done (false, l) h.
Proof.
  intros [_ Hh _ _] He Hd. unfold double_remove. run_st. rewrite Hd. simpl.
  rewrite bool_decide_eq_true_2; [done |]. rewrite Hh. destruct xs; set_solver.
Qed.

Lemma double_remove_ok h l xs e ys :
  double_rep h l (xs ++ e :: ys) →
  ∃ h' l', double_remove l (Some e) h = Done (true, l') h' ∧
    double_rep h' l' (xs ++ ys) ∧ double_entry h' e = null_links ∧
    (∀ y, y ∉ xs ++ e :: ys → double_entry h' y = double_entry h y).
Proof.
  intros [Hnd Hh Ht Hs].
  apply double_seg_app in Hs as [Hxs [Hd Hys]]; simpl in Hxs.
  unfold double_remove. run_st. rewrite Hd; simpl.
  destruct xs as [|x xs _] using rev_ind; simpl in *.
  - rewrite Hh. rewrite (bool_decide_eq_false_2 (Some e ≠ Some e)) by naive_solver.
    rewrite andb_false_r. run_st. rewrite bool_decide_eq_true_2 by done. run_st.
    apply NoDup_cons in Hnd as [He Hnd]. rewrite Hd.
    destruct ys as [|y ys]; simpl in *; run_st.
    + rewrite Ht, bool_decide_eq_true_2 by done. run_st.
      eexists _, _; split_and!; [done | by split | solve_entries..].
    + eexists _, _; split_and!; [done | | solve_entries..].
      split; [done | done | by rewrite Ht |].
      apply (seg_set_prev _ _ None) in Hys; [| by apply NoDup_cons in Hnd as [? _]].
      do 2 (apply seg_insert; [done |]). done.
  - unfold last_of in *. rewrite last_snoc in *. simpl.
    apply NoDup_app in Hnd as (Hnd1 & Hdis & Hnd2).
    apply NoDup_snoc in Hnd1 as [Hnd1 Hx]. apply NoDup_cons in Hnd2 as [He Hnd2].
    pose proof (seg_set_next _ _ _ _ _ (next_of ys None) Hx Hxs) as Hxs'.
    assert (x ≠ e) by set_solver. assert (e ∉ xs) by set_solver.
    rewrite (double_entry_next _ x e), decide_False, Hd by done; simpl.
    destruct ys as [|y ys]; run_st.
    + rewrite Ht, last_snoc, bool_decide_eq_true_2 by done. run_st.
      rewrite app_nil_r in *. eexists _, _; split_and!; [done | | solve_entries..].
      split; simpl; [by apply NoDup_snoc | | by rewrite last_snoc |].
      * rewrite Hh. by destruct xs.
      * do 2 (apply seg_insert; [set_solver |]). done.
    + eexists _, _; split_and!; [done | | solve_entries..].
      split; simpl.
      * apply NoDup_app; split_and!; [by apply NoDup_snoc | set_solver | done].
      * rewrite Hh. by destruct xs.
      * rewrite Ht, !last_app_cons. done.
      * rewrite double_seg_app. unfold last_of. rewrite last_snoc. split.
        { do 3 (apply seg_insert; [set_solver |]). done. }
        apply NoDup_cons in Hnd2 as [Hy _].
        do 2 (apply seg_insert; [done |]).
        eapply seg_set_prev; [done |]. apply seg_insert; [set_solver | done].
Qed.

(** [remove] called on [l'] for an object of another list [l]: it does nothing for the
    only object of [l]; for the first or the last of several one of the assertions
    fails; an object in the middle is taken out of [l]. *)
Lemma double_remove_foreign h l l' xs e ys :
  double_rep h l (xs ++ e :: ys) → head_ l' ≠ Some e → tail_ l' ≠ Some e →
  match xs, ys with
  | [], [] => double_remove l' (Some e) h = Done (false, l') h
  | [], _ :: _ | _ :: _, [] => double_remove l' (Some e) h = Crashed AssertFailed
  | _ :: _, _ :: _ =>
      ∃ h', double_remove l' (Some e) h = Done (true, l') h' ∧ double_remove l (Some e) h = Done (true, l) h'
  end.
Proof.
  intros [Hnd Hh Ht Hs] Hh' Ht'. apply double_seg_app in Hs as [Hxs [Hd Hys]]; simpl in Hxs.
  destruct xs as [|x xs _] using rev_ind.
  - unfold last_of in Hd. simpl in Hd. destruct ys as [|y ys]; simpl in Hd; unfold double_remove; run_st; rewrite Hd; simpl.
    + by rewrite bool_decide_eq_true_2.
    + by rewrite bool_decide_eq_false_2.
  - unfold last_of in Hd. rewrite last_snoc in Hd.
    assert (x ≠ e) as Hne by (apply NoDup_app in Hnd as (_ & Hdis & _); set_solver).
    assert (∀ l0, double_remove l0 (Some e) h =
      (tail' ← match next_of ys None with
               | Some n => modify (set_prev n (Some x));; mret (tail_ l0)
               | None => assert_ (bool_decide (tail_ l0 = Some e));; mret (Some x)
               end;
       modify (set_next e None);; modify (set_prev e None);;
       mret (true, mkDoubleLinkListImpl (head_ l0) tail')) (set_next x (next_of ys None) h)) as Eany.
    { intros l0. unfold double_remove. run_st. rewrite Hd. simpl. run_st.
      by rewrite (double_entry_next _ x e), decide_False, Hd by done. }
    destruct (xs ++ [x]) as [|x0 xs0] eqn:Ex; [by destruct xs |].
    destruct ys as [|y ys]; setoid_rewrite Eany; simpl.
    + run_st. by rewrite bool_decide_eq_false_2.
    + eexists. split; run_st; [by destruct l' | by destruct l].
Qed.

End Double.

(** ** The interface of a waiter list

    Channels and futexes use an [IntrusiveDoubleList] through these operations
    only.  [hl_rep l xs]: the list [l] stands for the sequence [xs] of waiting
    handles, in the order in which they were queued. *)
Class HandleList (L : Type) := {
  hl_new : L;
  hl_empty : L → bool;
  hl_push_back : addr → ST L unit;
  hl_pop_front : ST L (option addr);
  hl_remove : addr → ST L bool;
  hl_rep : L → list addr → Prop
}.

Definition without (e : addr) (xs : list addr) : list addr := filter (λ x, x ≠ e) xs.

Class HandleListLaws (L : Type) `{HandleList L} := {
  hl_rep_nodup l xs : hl_rep l xs → NoDup xs;
  hl_new_rep : hl_rep hl_new [];
  hl_empty_ok l xs : hl_rep l xs → hl_empty l = bool_decide (xs = []);
  hl_push_back_ok l xs e :
    hl_rep l xs → e ∉ xs →
    ∃ l', hl_push_back e l = Done tt l' ∧ hl_rep l' (xs ++ [e]);
  hl_pop_front_nil l : hl_rep l [] → hl_pop_front l = Done None l;
  hl_pop_front_cons l x xs :
    hl_rep l (x :: xs) → ∃ l', hl_pop_front l = Done (Some x) l' ∧ hl_rep l' xs;
  hl_remove_ok l xs e :
    hl_rep l xs →
    ∃ l', hl_remove e l = Done (bool_decide (e ∈ xs)) l' ∧ hl_rep l' (without e xs)
}.

Lemma without_notin e xs : e ∉ xs → without e xs = xs.
Proof.
  unfold without. induction xs as [|x xs IH]; [done |]. intros [? ?]%not_elem_of_cons.
  rewrite filter_cons_True by done. by rewrite IH.
Qed.

Lemma without_middle e xs ys : NoDup (xs ++ e :: ys) → without e (xs ++ e :: ys) = xs ++ ys.
Proof.
  intros (_ & Hd & [He _]%NoDup_cons)%NoDup_app. unfold without.
  rewrite filter_app, filter_cons_False by naive_solver.
  fold (without e xs) (without e ys). by rewrite !without_notin by set_solver.
Qed.

Lemma elem_of_without x e xs : x ∈ without e xs ↔ x ∈ xs ∧ x ≠ e.
Proof. unfold without. rewrite list_elem_of_filter. tauto. Qed.

(** [IntrusiveDoubleList] with the link entries of its objects. *)
Record IntrusiveDoubleList := mkIntrusiveDoubleList {
  entries : Double.heap;
  impl_ : Double.DoubleLinkListImpl
}.

(** Run an operation of the pointer implementation. *)
Definition on_impl {A} (f : Double.DoubleLinkListImpl → ST Double.heap (A * Double.DoubleLinkListImpl))
    : ST IntrusiveDoubleList A := λ l,
  match f (impl_ l) (entries l) with
  | Done (a, i) h => Done a (mkIntrusiveDoubleList h i)
  | Thrown e h => Thrown e (mkIntrusiveDoubleList h (impl_ l))
  | Crashed c => Crashed c
  end.

Definition intrusive_push_back (e : addr) : ST IntrusiveDoubleList unit :=
  on_impl (λ i, i' ← Double.double_push_back i (Some e); mret (tt, i')).
Definition intrusive_pop_front : ST IntrusiveDoubleList (option addr) :=
  on_impl Double.double_pop_front.
Definition intrusive_remove (e : addr) : ST IntrusiveDoubleList bool :=
  on_impl (λ i, Double.double_remove i (Some e)).

Record intrusive_rep (l : IntrusiveDoubleList) (xs : list addr) : Prop := {
  intrusive_list : Double.double_rep (entries l) (impl_ l) xs;
  intrusive_detached : Double.detached (entries l) xs
}.

#[export] Instance intrusive_handle_list : HandleList IntrusiveDoubleList := {
  hl_new := mkIntrusiveDoubleList ∅ Double.double_new;
  hl_empty := λ l, Double.double_empty (impl_ l);
  hl_push_back := intrusive_push_back;
  hl_pop_front := intrusive_pop_front;
  hl_remove := intrusive_remove;
  hl_rep := intrusive_rep
}.

Lemma intrusive_push_back_ok l xs e :
  intrusive_rep l xs → e ∉ xs →
  ∃ l', intrusive_push_back e l = Done tt l' ∧ intrusive_rep l' (xs ++ [e]).
Proof.
  intros [Hr Hd] He.
  destruct (Double.double_push_back_ok _ _ _ _ Hr He (Hd _ He)) as (h' & i' & E & Hr' & Hf).
  unfold intrusive_push_back, on_impl. run_st. rewrite E.
  eexists; split; [done |]. split; simpl; [done |].
  intros x Hx. rewrite Hf by done. apply Hd. set_solver.
Qed.

Lemma intrusive_pop_front_cons l x xs :
  intrusive_rep l (x :: xs) →
  ∃ l', intrusive_pop_front l = Done (Some x) l' ∧ intrusive_rep l' xs.
Proof.
  intros [Hr Hd].
  destruct (Double.double_pop_front_ok _ _ _ _ Hr) as (h' & i' & E & Hr' & Hx & Hf).
  unfold intrusive_pop_front, on_impl. rewrite E.
  eexists; split; [done |]. split; simpl; [done |].
  intros y Hy. destruct (decide (y = x)) as [-> | ]; [done |].
  rewrite Hf by set_solver. apply Hd. set_solver.
Qed.

Lemma intrusive_remove_ok l xs e :
  intrusive_rep l xs →
  ∃ l', intrusive_remove e l = Done (bool_decide (e ∈ xs)) l' ∧
    intrusive_rep l' (without e xs).
Proof.
  intros [Hr Hd]. unfold intrusive_remove, on_impl.
  destruct (decide (e ∈ xs)) as [He | He].
  - apply list_elem_of_split in He as (l1 & l2 & ->).
    rewrite without_middle by apply Hr.
    destruct (Double.double_remove_ok _ _ _ _ _ Hr) as (h' & i' & E & Hr' & Hx & Hf).
    rewrite E, bool_decide_eq_true_2 by set_solver.
    eexists; split; [done |]. split; simpl; [done |].
    intros y Hy. destruct (decide (y = e)) as [-> | ]; [done |].
    rewrite Hf by set_solver. apply Hd. set_solver.
  - rewrite (Double.double_remove_absent _ _ _ _ Hr He (Hd _ He)).
    rewrite bool_decide_eq_false_2, without_notin by done.
    eexists; split; [done |]. split; done.
Qed.

(** The pointer implementation keeps the interface's promises. *)
#[export] Instance intrusive_handle_list_laws : HandleListLaws IntrusiveDoubleList.
Proof.
  split; simpl.
  - intros l xs [[] _]. done.
  - split; simpl; [apply Double.double_new_rep |].
    intros e _. unfold Double.double_entry. by rewrite lookup_empty.
  - intros l xs [Hr _]. by apply Double.double_empty_rep in Hr.
  - apply intrusive_push_back_ok.
  - intros l [Hr _]. unfold intrusive_pop_front, on_impl.
    rewrite (Double.double_pop_front_nil _ _ Hr). by destruct l.
  - apply intrusive_pop_front_cons.
  - apply intrusive_remove_ok.
Qed.

(** ** Properties *)

Inductive list_op : Type :=
  | OpPushBack (e : addr)
  | OpPopFront
  | OpRemove (e : addr).

Inductive list_res : Type :=
  | ResUnit
  | ResHandle (o : option addr)
  | ResBool (b : bool).

(** The operations on a waiter list and on the sequence it stands for. *)
Definition run_op {L} `{HandleList L} (o : list_op) : ST L list_res :=
  match o with
  | OpPushBack e => hl_push_back e;; mret ResUnit
  | OpPopFront => r ← hl_pop_front; mret (ResHandle r)
  | OpRemove e => r ← hl_remove e; mret (ResBool r)
  end.

Definition spec_op (o : list_op) (xs : list addr) : list_res * list addr :=
  match o with
  | OpPushBack e => (ResUnit, xs ++ [e])
  | OpPopFront => (ResHandle (head xs), tail xs)
  | OpRemove e => (ResBool (bool_decide (e ∈ xs)), without e xs)
  end.

Fixpoint run_ops {L} `{HandleList L} (os : list list_op) : ST L (list list_res) :=
  match os with
  | [] => mret []
  | o :: os' => r ← run_op o; rs ← run_ops os'; mret (r :: rs)
  end.

Fixpoint spec_ops (os : list list_op) (xs : list addr) : list list_res * list addr :=
  match os with
  | [] => ([], xs)
  | o :: os' =>
      let '(r, xs') := spec_op o xs in
      let '(rs, xs'') := spec_ops os' xs' in (r :: rs, xs'')
  end.

(** A handle is queued again only after it has left the list. *)
Fixpoint valid_ops (os : list list_op) (xs : list addr) : Prop :=
  match os with
  | [] => True
  | o :: os' =>
      match o with OpPushBack e => e ∉ xs | _ => True end ∧
      valid_ops os' (spec_op o xs).2
  end.

Lemma run_op_refines {L} `{HandleListLaws L} o (l : L) xs :
  hl_rep l xs → match o with OpPushBack e => e ∉ xs | _ => True end →
  ∃ l', run_op o l = Done (spec_op o xs).1 l' ∧ hl_rep l' (spec_op o xs).2.
Proof.
  intros Hr Hv. destruct o as [e | | e]; simpl; run_st.
  - destruct (hl_push_back_ok _ _ _ Hr Hv) as (l' & -> & ?). eauto.
  - destruct xs as [|x xs].
    + rewrite hl_pop_front_nil by done. eauto.
    + destruct (hl_pop_front_cons _ _ _ Hr) as (l' & -> & ?). eauto.
  - destruct (hl_remove_ok _ _ e Hr) as (l' & -> & ?). eauto.
Qed.

Lemma run_ops_refines {L} `{HandleListLaws L} os (l : L) xs :
  hl_rep l xs → valid_ops os xs →
  ∃ l', run_ops os l = Done (spec_ops os xs).1 l' ∧ hl_rep l' (spec_ops os xs).2.
Proof.
  revert l xs. induction os as [|o os IH]; intros l xs Hr Hv; [by exists l |].
  destruct Hv as [Hv1 Hv2]. destruct (run_op_refines o l xs Hr Hv1) as (l' & E & Hr').
  simpl. run_st. rewrite E. destruct (spec_op o xs) as [r xs'].
  destruct (IH _ _ Hr' Hv2) as (l'' & E' & Hr''). simpl in *. rewrite E'.
  destruct (spec_ops os xs') as [rs xs'']. simpl. eauto.
Qed.

(** C19. [DoubleLinkListImpl] refines a FIFO sequence: whatever series of
    [push_back], [pop_front] and [remove] calls is made on a new list, as long
    as no handle is queued while it is queued already, the pointer code returns
    what the sequence of waiting handles prescribes, ends in a well-linked list
    that represents that sequence, and neither fails an assertion nor follows a
    null pointer. *)
Theorem intrusive_list_refines_sequence (os : list list_op) (Hv : valid_ops os []) :
  ∃ l' : IntrusiveDoubleList,
    run_ops os (hl_new (L := IntrusiveDoubleList)) = Done (spec_ops os []).1 l' ∧
    intrusive_rep l' (spec_ops os []).2.
Proof. exact (run_ops_refines os _ [] hl_new_rep Hv). Qed.

Lemma intrusive_list_refines_sequence_witness :
  ∃ l' : IntrusiveDoubleList,
    run_ops [OpPushBack 1%nat; OpPushBack 2%nat; OpPushBack 3%nat; OpRemove 2%nat;
             OpRemove 2%nat; OpPopFront; OpPopFront; OpPopFront]
      (hl_new (L := IntrusiveDoubleList))
    = Done [ResUnit; ResUnit; ResUnit; ResBool true; ResBool false;
            ResHandle (Some 1%nat); ResHandle (Some 3%nat); ResHandle None] l' ∧
    intrusive_rep l' [].
Proof.
  apply (intrusive_list_refines_sequence
    [OpPushBack 1%nat; OpPushBack 2%nat; OpPushBack 3%nat; OpRemove 2%nat;
     OpRemove 2%nat; OpPopFront; OpPopFront; OpPopFront]).
  vm_compute. set_solver.
Defined.

(** Splicing ([SingleLinkListImpl::push_back(other)], by which a runtime
    takes over its global queue): for two lists of different objects the result
    is the first sequence followed by the second one, the second list is left
    empty, and popping the result yields the elements in exactly that order. *)
Theorem single_splice_then_drain h l1 l2 xs ys
    (H1 : Single.single_rep h l1 xs) (H2 : Single.single_rep h l2 ys) (Hd : xs ## ys) :
  ∃ h' l', Single.single_push_back_list l1 l2 h = Done (l', Single.single_new) h' ∧
    ∀ x zs, xs ++ ys = x :: zs →
      ∃ h'' l'', Single.single_pop_front l' h' = Done (Some x, l'') h'' ∧
        Single.single_rep h'' l'' zs.
Proof.
  destruct (Single.single_push_back_list_ok _ _ _ _ _ H1 H2 Hd) as (h' & l' & E & Hr & _).
  exists h', l'. split; [done |]. intros x zs Hxs. rewrite Hxs in Hr.
  destruct (Single.single_pop_front_ok _ _ _ _ Hr) as (h'' & l'' & ? & ? & _). eauto.
Qed.

Lemma single_splice_then_drain_witness :
  ∃ h' l',
    Single.single_push_back_list
      (Single.mkSingleLinkListImpl (Some 1%nat) (Some 1%nat))
      (Single.mkSingleLinkListImpl (Some 2%nat) (Some 2%nat)) ∅
    = Done (l', Single.single_new) h' ∧
    ∀ x zs, [1%nat; 2%nat] = x :: zs →
      ∃ h'' l'', Single.single_pop_front l' h' = Done (Some x, l'') h'' ∧
        Single.single_rep h'' l'' zs.
Proof.
  apply (single_splice_then_drain _ _ _ [1%nat] [2%nat]).
  - split; simpl; auto using NoDup_singleton.
  - split; simpl; auto using NoDup_singleton.
  - set_solver.
Defined.

(** [container_of] inverts taking the address of a member: for an object
    and a member offset that fit in a 64-bit address space, the object is
    recovered from the address of its link entry. *)
Theorem container_of_member_addr (offset item : Z) (Hi : 0 ≤ item < 2 ^ 64) :
  container_of offset (member_addr offset item) = item.
Proof.
  unfold container_of, member_addr. rewrite wrap_sub_l.
  replace (item + offset - offset) with item by lia. by apply wrap_small.
Qed.

Lemma container_of_member_addr_witness :
  container_of 24 (member_addr 24 140737488347136) = 140737488347136.
Proof. apply container_of_member_addr. lia. Defined.
