(* ===== verification/Utils.v ===== *)
(** * Utility classes (include/condy/detail/utils.hpp)

    - [defer_run]: the scope guard [defer];
    - [IdPool]: the pool of buffer-group ids of a runtime;
    - [RawStorage] and [SmallArray]: the storage behind a channel's ring buffer;
    - [tuple_at] and [align_up]. *)

From stdpp Require Import base numbers list sets.
From S2P Require Import Prelude.

(** [auto d = defer(func)]: [func] runs when the scope is left, normally or by
    an exception. *)
Definition defer_run {S A} (func : S → S) (body : ST S A) : ST S A := λ s,
  match body s with
  | Done a s' => Done a (func s')
  | Thrown e s' => Thrown e (func s')
  | Crashed c => Crashed c
  end.

(** ** [IdPool<T, From, To>] *)

Module IdPool.

Record IdPool := mkIdPool {
  next_id_ : Z;
  recycled_ids_ : list Z
}.

Section id_pool.
Context (From To : Z).

Definition id_pool_new : IdPool := mkIdPool From [].

Definition allocate : ST IdPool Z :=
  p ← get;
  match recycled_ids_ p with
  | id :: rest => put (mkIdPool (next_id_ p) rest);; mret id
  | [] =>
      if next_id_ p <? To then
        put (mkIdPool (next_id_ p + 1) (recycled_ids_ p));; mret (next_id_ p)
      else throw RuntimeError
  end.

Definition recycle (id : Z) : ST IdPool unit :=
  p ← get;
  assert_ ((From <=? id) && (id <? next_id_ p) && (id <? To));;
  put (mkIdPool (next_id_ p) (id :: recycled_ids_ p)).

Definition reset : ST IdPool unit := put (mkIdPool From []).

(** The ids that have been handed out and not been given back. *)
Record pool_inv (p : IdPool) (live : list Z) : Prop := {
  pool_next : From ≤ next_id_ p ≤ To;
  pool_nodup : NoDup (recycled_ids_ p ++ live);
  pool_cover : ∀ id, (From ≤ id < next_id_ p) ↔ id ∈ recycled_ids_ p ++ live
}.

Lemma pool_inv_new : From ≤ To → pool_inv id_pool_new [].
Proof.
  intros. split; simpl; [lia | constructor |].
  intros id. rewrite elem_of_nil. lia.
Qed.

Lemma allocate_inv p live :
  pool_inv p live →
  match allocate p with
  | Done id p' => pool_inv p' (id :: live) ∧ (id ∉ live) ∧ From ≤ id < To
  | Thrown e p' => e = RuntimeError ∧ p' = p ∧ ∀ id, From ≤ id < To → id ∈ live
  | Crashed _ => False
  end.
Proof.
  intros [Hn Hnd Hc]. unfold allocate. run_st.
  destruct p as [next [|id rest]]; simpl in *.
  - destruct (Z.ltb_spec next To).
    + assert (next ∉ live) by (rewrite <- Hc; lia).
      split_and!; [| done | lia..]. split; simpl; [lia | by apply NoDup_cons |].
      intros id. rewrite elem_of_cons, <- Hc. lia.
    + split_and!; [done | done |]. intros id. rewrite <- Hc. lia.
  - split_and!.
    + split; simpl; [lia | by rewrite <- Permutation_middle |].
      intros id'. rewrite Hc. set_solver.
    + apply NoDup_cons in Hnd. set_solver.
    + apply (Hc id). set_solver.
    + assert (From ≤ id < next) by (apply Hc; set_solver). lia.
Qed.

Lemma recycle_inv p live id :
  pool_inv p live → id ∈ live →
  ∃ p' live', recycle id p = Done tt p' ∧ live ≡ₚ id :: live' ∧ pool_inv p' live'.
Proof.
  intros [Hn Hnd Hc] Hid.
  apply list_elem_of_split in Hid as (l1 & l2 & ->).
  assert (From ≤ id < next_id_ p) by (apply Hc; set_solver).
  unfold recycle. run_st.
  rewrite (proj2 (Z.leb_le _ _)), !(proj2 (Z.ltb_lt _ _)) by lia. run_st.
  eexists _, (l1 ++ l2). split_and!; [done | by rewrite Permutation_middle |].
  split; simpl; [lia | |].
  - revert Hnd. by rewrite <- !Permutation_middle, app_assoc.
  - intros id'. rewrite Hc. set_solver.
Qed.

End id_pool.

(** A history of calls; [recycle] is only called for ids that are in use. *)
Inductive pool_op : Type := Allocate | Recycle (id : Z).

Inductive pool_reach (From To : Z) : IdPool → list Z → Prop :=
  | reach_new : pool_reach From To (id_pool_new From) []
  | reach_allocate p live id p' :
      pool_reach From To p live → allocate To p = Done id p' →
      pool_reach From To p' (id :: live)
  | reach_recycle p l1 l2 id p' :
      pool_reach From To p (l1 ++ id :: l2) → recycle From To id p = Done tt p' →
      pool_reach From To p' (l1 ++ l2).

Lemma pool_inv_perm From To p l l' : l ≡ₚ l' → pool_inv From To p l → pool_inv From To p l'.
Proof.
  intros Hp [? Hnd Hc]. split; [done | by rewrite <- Hp |].
  intros id. by rewrite Hc, Hp.
Qed.

Lemma pool_reach_inv From To p live :
  From ≤ To → pool_reach From To p live → pool_inv From To p live.
Proof.
  intros Hle. induction 1 as [|p live id p' _ IH E | p l1 l2 id p' _ IH E].
  - by apply pool_inv_new.
  - pose proof (allocate_inv From To _ _ IH) as Ha. rewrite E in Ha. apply Ha.
  - destruct (recycle_inv From To _ _ id IH) as (p'' & live' & E' & Hp & Hi); [set_solver |].
    rewrite E in E'. simplify_eq. eapply pool_inv_perm, Hi.
    eapply Permutation_cons_inv. by rewrite <- Hp, Permutation_middle.
Qed.

(** Ids are unique and the pool is exhausted only when it has to be: after
    any history of [allocate] and [recycle] calls, [allocate] either returns an
    id in the range [From, To) that is not in use, or throws because every id
    of the range is in use; [recycle] of an id in use never fails its
    assertion. *)
Theorem id_pool_correct (From To : Z) (p : IdPool) (live : list Z)
    (Hr : From < To) (H : pool_reach From To p live) :
  NoDup live ∧
  match allocate To p with
  | Done id _ => (id ∉ live) ∧ From ≤ id < To
  | Thrown e _ => e = RuntimeError ∧ ∀ id, From ≤ id < To → id ∈ live
  | Crashed _ => False
  end ∧
  ∀ id, id ∈ live → ∃ p', recycle From To id p = Done tt p'.
Proof.
  apply pool_reach_inv in H; [| lia].
  pose proof (allocate_inv From To _ _ H) as Ha. split_and!.
  - destruct H as [_ Hnd _]. by apply NoDup_app in Hnd as (_ & _ & ?).
  - destruct (allocate To p); naive_solver.
  - intros id Hid. destruct (recycle_inv From To _ _ id H Hid) as (p' & _ & ? & _). eauto.
Qed.

Lemma id_pool_correct_witness :
  let p := mkIdPool 2 [0] in
  NoDup [1] ∧
  match allocate 65535 p with
  | Done id _ => (id ∉ [1]) ∧ 0 ≤ id < 65535
  | Thrown e _ => e = RuntimeError ∧ ∀ id, 0 ≤ id < 65535 → id ∈ [1]
  | Crashed _ => False
  end ∧
  ∀ id, id ∈ [1] → ∃ p', recycle 0 65535 id p = Done tt p'.
Proof.
  apply (id_pool_correct 0 65535 (mkIdPool 2 [0]) [1]); [lia |].
  eapply (reach_recycle _ _ (mkIdPool 2 []) [1] [] 0); [| reflexivity].
  eapply (reach_allocate _ _ (mkIdPool 1 []) [0]); [| reflexivity].
  eapply reach_allocate; [apply reach_new | reflexivity].
Defined.

End IdPool.

(** ** [RawStorage<T>] and [SmallArray<RawStorage<T>, N>] *)

(** [None]: raw bytes in which no object has been constructed. *)
Abbreviation RawStorage T := (option T) (only parsing).

Record SmallArray (T : Type) := mkSmallArray {
  capacity_ : Z;
  storage_ : list (RawStorage T)   (** [small_] or [large_], see [is_small_] *)
}.
Arguments mkSmallArray {T} capacity_ storage_.
Arguments capacity_ {T} s.
Arguments storage_ {T} s.

Definition is_small_ (N capacity : Z) : bool := capacity <=? N.

(** [small_] has [N] elements; [large_ = new T[capacity]]. *)
Definition small_array_new {T} (N capacity : Z) : SmallArray T :=
  mkSmallArray capacity
    (replicate (Z.to_nat (if is_small_ N capacity then N else capacity)) None).

(** [buffer_[index].construct(item)] *)
Definition slot_construct {T} (index : Z) (item : T) : ST (SmallArray T) unit :=
  a ← get;
  if bool_decide (0 ≤ index < Z.of_nat (length (storage_ a))) then
    put (mkSmallArray (capacity_ a) (<[Z.to_nat index := Some item]> (storage_ a)))
  else crashed BadAccess.

(** [buffer_[index].get()] *)
Definition slot_get {T} (index : Z) : ST (SmallArray T) T :=
  a ← get;
  match storage_ a !! Z.to_nat index with
  | Some (Some item) => if 0 <=? index then mret item else crashed BadAccess
  | _ => crashed BadAccess
  end.

(** [buffer_[index].destroy()] *)
Definition slot_destroy {T} (index : Z) : ST (SmallArray T) unit :=
  slot_get index;;
  modify (λ a, mkSmallArray (capacity_ a) (<[Z.to_nat index := None]> (storage_ a))).

Lemma slot_construct_ok {T} (a : SmallArray T) i x :
  0 ≤ i < Z.of_nat (length (storage_ a)) →
  slot_construct i x a =
    Done tt (mkSmallArray (capacity_ a) (<[Z.to_nat i := Some x]> (storage_ a))).
Proof. intros. unfold slot_construct. run_st. by rewrite bool_decide_eq_true_2. Qed.

Lemma slot_get_ok {T} (a : SmallArray T) i x :
  0 ≤ i → storage_ a !! Z.to_nat i = Some (Some x) → slot_get i a = Done x a.
Proof. intros ? E. unfold slot_get. run_st. rewrite E. by rewrite (proj2 (Z.leb_le _ _)). Qed.

Lemma slot_destroy_ok {T} (a : SmallArray T) i x :
  0 ≤ i → storage_ a !! Z.to_nat i = Some (Some x) →
  slot_destroy i a =
    Done tt (mkSmallArray (capacity_ a) (<[Z.to_nat i := None]> (storage_ a))).
Proof. intros ? E. unfold slot_destroy. run_st. by erewrite slot_get_ok. Qed.

(** ** [tuple_at] and [align_up] *)

(** The variant is the alternative's index with its value; an index past the
    tuple is the code's [panic_on] branch. *)
Fixpoint tuple_at {R S} (Idx : nat) (results : list R) (idx : nat) : ST S (nat * R) :=
  match results with
  | r :: results' => if bool_decide (idx = Idx) then mret (Idx, r)
                     else tuple_at (1 + Idx) results' idx
  | [] => crashed Panic
  end.

Definition align_up {S} (w value alignment : Z) : ST S Z :=
  assert_ ((0 <? alignment) && (Z.land alignment (alignment - 1) =? 0));;
  mret (Z.land (wrap w (value + alignment - 1)) (wrap w (Z.lnot (alignment - 1)))).

Lemma tuple_at_ok {R S} Idx (rs : list R) i r (s : S) :
  rs !! i = Some r → tuple_at Idx rs (Idx + i)%nat s = Done ((Idx + i)%nat, r) s.
Proof.
  revert Idx i. induction rs as [|r' rs IH]; intros Idx [|i] E; simplify_eq/=.
  - by rewrite Nat.add_0_r, bool_decide_eq_true_2.
  - rewrite bool_decide_eq_false_2 by lia. rewrite Nat.add_succ_r. by apply (IH (1 + Idx)%nat).
Qed.

Lemma land_lnot_mask w z k :
  0 ≤ k ≤ w → 0 ≤ z < 2 ^ w →
  Z.land z (wrap w (Z.lnot (2 ^ k - 1))) = 2 ^ k * (z / 2 ^ k).
Proof.
  intros Hk Hz. unfold wrap. rewrite <- Z.land_ones by lia.
  rewrite (Z.land_comm (Z.lnot _)), Z.land_assoc, Z.land_ones, Z.mod_small by lia.
  replace (2 ^ k - 1) with (Z.ones k) by (by rewrite Z.ones_equiv, Z.sub_1_r).
  rewrite <- Z.ldiff_land, Z.ldiff_ones_r, Z.shiftl_mul_pow2, Z.shiftr_div_pow2 by lia.
  lia.
Qed.

Lemma align_up_ok {S} (w value alignment : Z)
    (Hw : 0 ≤ w) (Ha : is_pow2 alignment) (Hv : 0 ≤ value)
    (Hov : value + alignment - 1 < 2 ^ w) :
  ∃ r, (∀ s : S, align_up w value alignment s = Done r s) ∧ (alignment | r) ∧ value ≤ r < value + alignment.
Proof.
  destruct Ha as [k [Hk ->]]. assert (0 < 2 ^ k) by (by apply Z.pow_pos_nonneg).
  assert (k ≤ w) by (apply (Z.pow_le_mono_r_iff 2); lia).
  exists (2 ^ k * ((value + 2 ^ k - 1) / 2 ^ k)). split.
  { intros s. unfold align_up. run_st.
    rewrite (proj2 (Z.ltb_lt _ _)) by done.
    rewrite land_mask, Z.mod_same by lia. run_st.
    by rewrite wrap_small, land_lnot_mask by lia. }
  split; [apply Z.divide_factor_l |].
  pose proof (Z.mod_pos_bound (value + 2 ^ k - 1) (2 ^ k)).
  pose proof (Z.div_mod (value + 2 ^ k - 1) (2 ^ k)). lia.
Qed.

(** [align_up] on [w]-bit unsigned integers: for a power-of-two alignment
    and no overflow in [value + alignment - 1], the assertion holds and the
    result is the least multiple of the alignment that is not below the
    value. *)
Theorem align_up_least {S} (w value alignment : Z) (s : S)
    (Hw : 0 ≤ w) (Ha : is_pow2 alignment) (Hv : 0 ≤ value)
    (Hov : value + alignment - 1 < 2 ^ w) :
  ∃ r, align_up w value alignment s = Done r s ∧
    (alignment | r) ∧ value ≤ r < value + alignment ∧
    ∀ m, (alignment | m) → value ≤ m → r ≤ m.
Proof.
  destruct (align_up_ok (S := S) w value alignment Hw Ha Hv Hov) as (r & E & [a ->] & Hr).
  eexists. split; [done |]. split; [apply Z.divide_factor_r | split; [done |]].
  intros m [b ->] Hm. pose proof (is_pow2_pos _ Ha).
  apply Z.mul_le_mono_nonneg_r; [lia |]. apply Z.lt_succ_r, (Z.mul_lt_mono_pos_r alignment); lia.
Qed.

Lemma align_up_least_witness :
  ∃ r, align_up 64 4097 4096 tt = Done r tt ∧
    (4096 | r) ∧ 4097 ≤ r < 4097 + 4096 ∧ ∀ m, (4096 | m) → 4097 ≤ m → r ≤ m.
Proof. apply align_up_least; try lia. exists 12. split; [lia | done]. Defined.
