(* ===== verification/Channel.v ===== *)
(** * Channels (include/condy/channel.hpp)

    [Channel<T, N>] with its ring buffer, its two lists of waiting operations
    and the handles of those operations.  Every member function locks [mutex_]
    for its whole body, so calls from several threads are sequences of the
    operations below.

    - [Channel] has the fields of the class; [Env] holds the objects a channel
      works on: the finish handles of the push and pop operations, the calls of
      [Runtime::schedule_internal], the [pending_works_] counters of the
      runtimes and the completions passed to receivers;
    - the operations are the member functions, including the handles' [start],
      [cancel_] and [invoke];
    - the specification is [AChannel] of [ChannelSpec.v]: a bounded queue with a
      sequence of blocked pushers (with their items) and a sequence of blocked
      poppers, without ring indices, pointers or assertions. *)

From stdpp Require Import base numbers list gmap sets.
From S2P Require Import Prelude Intrusive Utils.

Abbreviation RuntimeId := nat.

(** What [schedule_internal] is given: the finish handle of a push or a pop. *)
Inductive Work : Type :=
  | PushWork (h : addr)
  | PopWork (h : addr).

#[export] Instance Work_eq_dec : EqDecision Work.
Proof. solve_decision. Defined.

(** The stop token of a receiver when the operation is started. *)
Inductive stop_state : Type :=
  | StopImpossible
  | StopPossible
  | StopRequested.

(** What an operation passes to its receiver: [int32_t] for a push, a pair of
    [int32_t] and an item for a pop. *)
Inductive Completion (T : Type) : Type :=
  | PushDone (res : Z)
  | PopDone (res : Z) (item : T).
Arguments PushDone {T} res.
Arguments PopDone {T} res item.

(** [PushFinishHandleBase]: [runtime_ = nullptr] marks a [FakePushFinishHandle];
    [push_item] is the referenced item, [None] once it has been moved from;
    [push_stop] tells whether [stop_callback_] is engaged. *)
Record PushHandle (T : Type) := mkPushHandle {
  push_runtime : option RuntimeId;
  push_item : option T;
  push_result : Z;
  push_stop : bool
}.
Arguments mkPushHandle {T} push_runtime push_item push_result push_stop.
Arguments push_runtime {T} p.
Arguments push_item {T} p.
Arguments push_result {T} p.
Arguments push_stop {T} p.

(** [PopFinishHandleBase]. *)
Record PopHandle (T : Type) := mkPopHandle {
  pop_runtime : option RuntimeId;
  pop_result : Z * T;
  pop_stop : bool
}.
Arguments mkPopHandle {T} pop_runtime pop_result pop_stop.
Arguments pop_runtime {T} p.
Arguments pop_result {T} p.
Arguments pop_stop {T} p.

Record Env (T : Type) := mkEnv {
  push_handles : gmap addr (PushHandle T);
  pop_handles : gmap addr (PopHandle T);
  scheduled : list (RuntimeId * Work);
  pending_works : gmap RuntimeId Z;
  received : list (Work * Completion T)
}.
Arguments mkEnv {T} push_handles pop_handles scheduled pending_works received.
Arguments push_handles {T} e.
Arguments pop_handles {T} e.
Arguments scheduled {T} e.
Arguments pending_works {T} e.
Arguments received {T} e.

Definition env_new {T} : Env T := mkEnv ∅ ∅ [] ∅ [].

Definition set_push_handle {T} (h : addr) (p : PushHandle T) (e : Env T) : Env T :=
  mkEnv (<[h := p]> (push_handles e)) (pop_handles e) (scheduled e) (pending_works e) (received e).
Definition delete_push_handle {T} (h : addr) (e : Env T) : Env T :=
  mkEnv (delete h (push_handles e)) (pop_handles e) (scheduled e) (pending_works e) (received e).
Definition set_pop_handle {T} (h : addr) (p : PopHandle T) (e : Env T) : Env T :=
  mkEnv (push_handles e) (<[h := p]> (pop_handles e)) (scheduled e) (pending_works e) (received e).

(** [runtime->schedule_internal(work)]. *)
Definition schedule_internal {T} (rt : RuntimeId) (w : Work) (e : Env T) : Env T :=
  mkEnv (push_handles e) (pop_handles e) (scheduled e ++ [(rt, w)]) (pending_works e) (received e).

Definition pending {T} (e : Env T) (rt : RuntimeId) : Z := default 0 (pending_works e !! rt).

(** [runtime->pend_work_internal()] and [runtime->resume_work_internal()]. *)
Definition pend_work_internal {T} (rt : RuntimeId) (e : Env T) : Env T :=
  mkEnv (push_handles e) (pop_handles e) (scheduled e)
    (<[rt := u64 (pending e rt + 1)]> (pending_works e)) (received e).
Definition resume_work_internal {T} (rt : RuntimeId) (e : Env T) : Env T :=
  mkEnv (push_handles e) (pop_handles e) (scheduled e)
    (<[rt := u64 (pending e rt - 1)]> (pending_works e)) (received e).

(** [std::move(receiver_)(result)]. *)
Definition receive {T} (w : Work) (r : Completion T) (e : Env T) : Env T :=
  mkEnv (push_handles e) (pop_handles e) (scheduled e) (pending_works e) (received e ++ [(w, r)]).

Definition remove_scheduled {T} (i : nat) (e : Env T) : Env T :=
  mkEnv (push_handles e) (pop_handles e) (delete i (scheduled e)) (pending_works e) (received e).

Record Channel (T L : Type) := mkChannel {
  push_awaiters_ : L;
  pop_awaiters_ : L;
  head_ : Z;
  tail_ : Z;
  buffer_ : SmallArray T;
  closed_ : bool
}.
Arguments mkChannel {T L} push_awaiters_ pop_awaiters_ head_ tail_ buffer_ closed_.
Arguments push_awaiters_ {T L} c.
Arguments pop_awaiters_ {T L} c.
Arguments head_ {T L} c.
Arguments tail_ {T L} c.
Arguments buffer_ {T L} c.
Arguments closed_ {T L} c.

Record Sys (T L : Type) := mkSys { chan : Channel T L; env : Env T }.
Arguments mkSys {T L} chan env.
Arguments chan {T L} s.
Arguments env {T L} s.

Section channel.
Context {T : Type} (T0 : T).   (** [T()] *)
Context {L : Type} `{HandleList L}.

Abbreviation Sys := (Sys T L).

(** ** The parts of the state *)

Definition on_push_awaiters {A} : ST L A → ST Sys A :=
  zoom (λ s, push_awaiters_ (chan s)) (λ l s,
    let c := chan s in
    mkSys (mkChannel l (pop_awaiters_ c) (head_ c) (tail_ c) (buffer_ c) (closed_ c)) (env s)).
Definition on_pop_awaiters {A} : ST L A → ST Sys A :=
  zoom (λ s, pop_awaiters_ (chan s)) (λ l s,
    let c := chan s in
    mkSys (mkChannel (push_awaiters_ c) l (head_ c) (tail_ c) (buffer_ c) (closed_ c)) (env s)).
Definition on_buffer {A} : ST (SmallArray T) A → ST Sys A :=
  zoom (λ s, buffer_ (chan s)) (λ b s,
    let c := chan s in
    mkSys (mkChannel (push_awaiters_ c) (pop_awaiters_ c) (head_ c) (tail_ c) b (closed_ c)) (env s)).
Definition set_head (v : Z) : ST Sys unit := modify (λ s,
  let c := chan s in
  mkSys (mkChannel (push_awaiters_ c) (pop_awaiters_ c) v (tail_ c) (buffer_ c) (closed_ c)) (env s)).
Definition set_tail (v : Z) : ST Sys unit := modify (λ s,
  let c := chan s in
  mkSys (mkChannel (push_awaiters_ c) (pop_awaiters_ c) (head_ c) v (buffer_ c) (closed_ c)) (env s)).
Definition set_closed : ST Sys unit := modify (λ s,
  let c := chan s in
  mkSys (mkChannel (push_awaiters_ c) (pop_awaiters_ c) (head_ c) (tail_ c) (buffer_ c) true) (env s)).
Definition on_env (f : Env T → Env T) : ST Sys unit := modify (λ s, mkSys (chan s) (f (env s))).

(** Reading a handle through a pointer to it. *)
Definition get_push_handle (h : addr) : ST Sys (PushHandle T) :=
  s ← get;
  match push_handles (env s) !! h with Some p => mret p | None => crashed BadAccess end.
Definition get_pop_handle (h : addr) : ST Sys (PopHandle T) :=
  s ← get;
  match pop_handles (env s) !! h with Some p => mret p | None => crashed BadAccess end.

(** ** Construction and sizes *)

(** [Channel(size_t capacity)] *)
Definition channel_new (N capacity : Z) : Channel T L :=
  mkChannel hl_new hl_new 0 0
    (small_array_new N (if capacity =? 0 then 0 else bit_ceil capacity)) false.

Definition capacity (c : Channel T L) : Z := capacity_ (buffer_ c).
Definition size_inner_ (c : Channel T L) : Z := u64 (tail_ c - head_ c).
Definition no_buffer_ (c : Channel T L) : bool := capacity c =? 0.
Definition empty_inner_ (c : Channel T L) : bool := size_inner_ c =? 0.
Definition full_inner_ (c : Channel T L) : bool := size_inner_ c =? capacity c.

(** [size()], [empty()], [is_closed()] *)
Definition size (c : Channel T L) : Z := size_inner_ c.
Definition empty (c : Channel T L) : bool := empty_inner_ c.
Definition is_closed (c : Channel T L) : bool := closed_ c.

(** ** The ring buffer *)

Definition push_inner_ (item : T) : ST Sys unit :=
  c ← gets chan;
  assert_ (negb (full_inner_ c));;
  let mask := u64 (capacity c - 1) in
  on_buffer (slot_construct (Z.land (tail_ c) mask) item);;
  set_tail (u64 (tail_ c + 1)).

Definition pop_inner_ : ST Sys T :=
  c ← gets chan;
  assert_ (negb (empty_inner_ c));;
  let mask := u64 (capacity c - 1) in
  item ← on_buffer (slot_get (Z.land (head_ c) mask));
  on_buffer (slot_destroy (Z.land (head_ c) mask));;
  set_head (u64 (head_ c + 1));;
  mret item.

Definition pop_and_push_ (item : T) : ST Sys T :=
  c ← gets chan;
  if no_buffer_ c then mret item
  else
    result ← pop_inner_;
    push_inner_ item;;
    mret result.

(** ** Handles *)

(** [PushFinishHandleBase::get_item], moved from by the caller. *)
Definition move_push_item (h : addr) : ST Sys T :=
  p ← get_push_handle h;
  match push_item p with
  | Some item =>
      on_env (set_push_handle h (mkPushHandle (push_runtime p) None (push_result p) (push_stop p)));;
      mret item
  | None => crashed BadAccess
  end.

Definition push_set_result (h : addr) (result : Z) : ST Sys unit :=
  p ← get_push_handle h;
  on_env (set_push_handle h (mkPushHandle (push_runtime p) (push_item p) result (push_stop p))).

(** [PushFinishHandleBase::schedule]: a fake handle is deleted instead. *)
Definition push_schedule (h : addr) : ST Sys unit :=
  p ← get_push_handle h;
  match push_runtime p with
  | None => on_env (delete_push_handle h)
  | Some rt => on_env (schedule_internal rt (PushWork h))
  end.

Definition pop_set_result (h : addr) (result : Z * T) : ST Sys unit :=
  p ← get_pop_handle h;
  on_env (set_pop_handle h (mkPopHandle (pop_runtime p) result (pop_stop p))).

(** [PopFinishHandleBase::schedule] *)
Definition pop_schedule (h : addr) : ST Sys unit :=
  p ← get_pop_handle h;
  assert_ (bool_decide (pop_runtime p ≠ None));;
  match pop_runtime p with
  | Some rt => on_env (schedule_internal rt (PopWork h))
  | None => crashed BadAccess
  end.

(** ** Pushing and popping under the lock *)

Definition try_push_inner_ (item : T) : ST Sys bool :=
  c ← gets chan;
  if negb (hl_empty (pop_awaiters_ c)) then
    assert_ (empty_inner_ c);;
    p ← on_pop_awaiters hl_pop_front;
    pop_handle ← deref p;
    pop_set_result pop_handle (0, item);;
    pop_schedule pop_handle;;
    mret true
  else if negb (full_inner_ c) then
    push_inner_ item;;
    mret true
  else mret false.

Definition try_pop_inner_ : ST Sys (option T) :=
  c ← gets chan;
  if negb (hl_empty (push_awaiters_ c)) then
    assert_ (full_inner_ c);;
    p ← on_push_awaiters hl_pop_front;
    push_handle ← deref p;
    item ← move_push_item push_handle;
    push_set_result push_handle 0;;
    push_schedule push_handle;;
    result ← pop_and_push_ item;
    mret (Some result)
  else if negb (empty_inner_ c) then
    result ← pop_inner_;
    mret (Some result)
  else mret None.

Definition try_push (item : T) : ST Sys Z :=
  c ← gets chan;
  if closed_ c then mret (- EPIPE)
  else
    ok ← try_push_inner_ item;
    if ok : bool then mret 0 else mret (- EAGAIN).

Definition try_pop : ST Sys (Z * T) :=
  item ← try_pop_inner_;
  c ← gets chan;
  match item with
  | Some item => mret (0, item)
  | None => if closed_ c then mret (- EPIPE, T0) else mret (- EAGAIN, T0)
  end.

(** [alloc] is what [new (std::nothrow) FakePushFinishHandle] returns. *)
Definition force_push (item : T) (alloc : option addr) : ST Sys unit :=
  c ← gets chan;
  if closed_ c then crashed Panic
  else
    ok ← try_push_inner_ item;
    if ok : bool then mret tt
    else
      match alloc with
      | None => crashed Panic
      | Some fake =>
          on_env (set_push_handle fake (mkPushHandle None (Some item) (- ENOTRECOVERABLE) false));;
          c ← gets chan;
          assert_ (hl_empty (pop_awaiters_ c));;
          on_push_awaiters (hl_push_back fake)
      end.

(** [will_push(channel)], called with a result. *)
Definition push_helper (res : T) (alloc : option addr) : ST Sys unit := force_push res alloc.

(** The item is forwarded as [std::move(finish_handle->get_item())]: it is
    moved from only when [try_push_inner_] takes it. *)
Definition request_push_ (h : addr) : ST Sys Z :=
  c ← gets chan;
  if closed_ c then mret (- EPIPE)
  else
    p ← get_push_handle h;
    match push_item p with
    | None => crashed BadAccess
    | Some item =>
        ok ← try_push_inner_ item;
        if ok : bool then
          move_push_item h;;
          mret 0
        else
          c ← gets chan;
          assert_ (hl_empty (pop_awaiters_ c));;
          on_push_awaiters (hl_push_back h);;
          mret (- EAGAIN)
    end.

Definition cancel_push_ (h : addr) : ST Sys bool := on_push_awaiters (hl_remove h).

Definition request_pop_ (h : addr) : ST Sys (Z * T) :=
  result ← try_pop_inner_;
  match result with
  | Some item => mret (0, item)
  | None =>
      c ← gets chan;
      assert_ (hl_empty (push_awaiters_ c));;
      if closed_ c then mret (- EPIPE, T0)
      else
        on_pop_awaiters (hl_push_back h);;
        mret (- EAGAIN, T0)
  end.

Definition cancel_pop_ (h : addr) : ST Sys bool := on_pop_awaiters (hl_remove h).

(** ** Closing *)

(** [while ((pop_handle = pop_awaiters_.pop_front()) != nullptr) ...] *)
Fixpoint cancel_pop_awaiters (fuel : nat) : ST Sys unit :=
  match fuel with
  | O => crashed OutOfFuel
  | S fuel =>
      p ← on_pop_awaiters hl_pop_front;
      match p with
      | None => mret tt
      | Some h =>
          c ← gets chan;
          assert_ (empty_inner_ c);;
          pop_set_result h (- EPIPE, T0);;
          pop_schedule h;;
          cancel_pop_awaiters fuel
      end
  end.

Fixpoint cancel_push_awaiters (fuel : nat) : ST Sys unit :=
  match fuel with
  | O => crashed OutOfFuel
  | S fuel =>
      p ← on_push_awaiters hl_pop_front;
      match p with
      | None => mret tt
      | Some h =>
          c ← gets chan;
          assert_ (full_inner_ c);;
          push_set_result h (- EPIPE);;
          push_schedule h;;
          cancel_push_awaiters fuel
      end
  end.

(** One more iteration than there are handles of the kind. *)
Definition push_close_inner_ : ST Sys unit :=
  s ← get;
  if closed_ (chan s) then mret tt
  else
    set_closed;;
    cancel_pop_awaiters (S (base.size (pop_handles (env s))));;
    cancel_push_awaiters (S (base.size (push_handles (env s)))).

Definition push_close : ST Sys unit := push_close_inner_.

Fixpoint destruct_loop (fuel : nat) : ST Sys unit :=
  match fuel with
  | O => crashed OutOfFuel
  | S fuel =>
      c ← gets chan;
      if negb (empty_inner_ c) then pop_inner_;; destruct_loop fuel else mret tt
  end.

Definition destruct_all_ : ST Sys unit :=
  c ← gets chan;
  destruct_loop (S (Z.to_nat (size_inner_ c)));;
  c ← gets chan;
  assert_ (head_ c =? tail_ c).

(** [~Channel()] *)
Definition channel_destroy : ST Sys unit :=
  push_close_inner_;;
  destruct_all_.

(** ** The operation states [PushFinishHandle] and [PopFinishHandle] *)

(** [PushFinishHandle::cancel_] *)
Definition push_cancel (h : addr) : ST Sys unit :=
  ok ← cancel_push_ h;
  if ok : bool then
    p ← get_push_handle h;
    assert_ (push_result p =? - ENOTRECOVERABLE);;
    push_set_result h (- ECANCELED);;
    assert_ (bool_decide (push_runtime p ≠ None));;
    match push_runtime p with
    | Some rt => on_env (schedule_internal rt (PushWork h))
    | None => crashed BadAccess
    end
  else mret tt.

Definition push_engage_stop (h : addr) : ST Sys unit :=
  p ← get_push_handle h;
  on_env (set_push_handle h (mkPushHandle (push_runtime p) (push_item p) (push_result p) true)).

(** [PushFinishHandle(channel, item, receiver)] followed by [start(runtime)];
    engaging the callback on a token whose stop was requested runs it. *)
Definition push_start (h : addr) (runtime : RuntimeId) (item : T) (stop : stop_state) : ST Sys unit :=
  on_env (set_push_handle h (mkPushHandle (Some runtime) (Some item) (- ENOTRECOVERABLE) false));;
  r ← request_push_ h;
  if negb (r =? - EAGAIN) then on_env (receive (PushWork h) (PushDone r))
  else
    on_env (pend_work_internal runtime);;
    match stop with
    | StopImpossible => mret tt
    | StopPossible => push_engage_stop h
    | StopRequested => push_engage_stop h;; push_cancel h
    end.

(** [PushFinishHandle::invoke] *)
Definition push_invoke (h : addr) : ST Sys unit :=
  p ← get_push_handle h;
  on_env (set_push_handle h (mkPushHandle (push_runtime p) (push_item p) (push_result p) false));;
  assert_ (bool_decide (push_runtime p ≠ None));;
  match push_runtime p with
  | Some rt => on_env (resume_work_internal rt)
  | None => crashed BadAccess
  end;;
  on_env (receive (PushWork h) (PushDone (push_result p))).

(** [PopFinishHandle::cancel_] *)
Definition pop_cancel (h : addr) : ST Sys unit :=
  ok ← cancel_pop_ h;
  if ok : bool then
    p ← get_pop_handle h;
    assert_ ((pop_result p).1 =? - ENOTRECOVERABLE);;
    pop_set_result h (- ECANCELED, (pop_result p).2);;
    assert_ (bool_decide (pop_runtime p ≠ None));;
    match pop_runtime p with
    | Some rt => on_env (schedule_internal rt (PopWork h))
    | None => crashed BadAccess
    end
  else mret tt.

Definition pop_engage_stop (h : addr) : ST Sys unit :=
  p ← get_pop_handle h;
  on_env (set_pop_handle h (mkPopHandle (pop_runtime p) (pop_result p) true)).

(** [PopFinishHandle(channel, receiver)] followed by [start(runtime)] *)
Definition pop_start (h : addr) (runtime : RuntimeId) (stop : stop_state) : ST Sys unit :=
  on_env (set_pop_handle h (mkPopHandle (Some runtime) (- ENOTRECOVERABLE, T0) false));;
  item ← request_pop_ h;
  if negb (item.1 =? - EAGAIN) then on_env (receive (PopWork h) (PopDone item.1 item.2))
  else
    on_env (pend_work_internal runtime);;
    match stop with
    | StopImpossible => mret tt
    | StopPossible => pop_engage_stop h
    | StopRequested => pop_engage_stop h;; pop_cancel h
    end.

(** [PopFinishHandle::invoke] *)
Definition pop_invoke (h : addr) : ST Sys unit :=
  p ← get_pop_handle h;
  on_env (set_pop_handle h (mkPopHandle (pop_runtime p) (pop_result p) false));;
  assert_ (bool_decide (pop_runtime p ≠ None));;
  match pop_runtime p with
  | Some rt => on_env (resume_work_internal rt)
  | None => crashed BadAccess
  end;;
  on_env (receive (PopWork h) (PopDone (pop_result p).1 (pop_result p).2)).

(** A runtime takes the [i]-th scheduled work and invokes it. *)
Definition run_scheduled (i : nat) : ST Sys unit :=
  s ← get;
  match scheduled (env s) !! i with
  | None => mret tt
  | Some (_, w) =>
      on_env (remove_scheduled i);;
      match w with PushWork h => push_invoke h | PopWork h => pop_invoke h end
  end.

End channel.
