(* ===== verification/ChannelSpec.v ===== *)
(** * The channel specification and its implementation by the code

    [AChannel] is a bounded queue with blocked pushers and blocked poppers; the
    [spec_*] functions say what each operation returns and does.  [chan_rep]
    relates a state of the code (ring buffer with wrap-around indices, pointer
    lists) to it.  Each [*_refines] lemma runs the code from a related state:
    it returns normally, i.e. no assertion fails and no invalid access happens,
    with the specified result, in a state related to the specified one. *)

From stdpp Require Import base numbers list gmap sets.
From S2P Require Import Prelude Intrusive Utils Channel.

Record AChannel (T : Type) := mkAChannel {
  a_cap : Z;
  a_buf : list T;
  a_pushq : list (addr * T);
  a_popq : list addr;
  a_closed : bool
}.
Arguments mkAChannel {T} a_cap a_buf a_pushq a_popq a_closed.
Arguments a_cap {T} a.
Arguments a_buf {T} a.
Arguments a_pushq {T} a.
Arguments a_popq {T} a.
Arguments a_closed {T} a.

(** ** The ring buffer as a sequence *)

(** Slot [(head + i) mod capacity] holds the [i]-th item; the other slots are
    raw storage. *)
Record ring_rep {T} (b : SmallArray T) (head tail : Z) (xs : list T) : Prop := {
  ring_cap : capacity_ b = 0 ∨ (is_pow2 (capacity_ b) ∧ capacity_ b ≤ 2 ^ 63);
  ring_storage : capacity_ b ≤ Z.of_nat (length (storage_ b));
  ring_head : 0 ≤ head < 2 ^ 64;
  ring_tail : tail = u64 (head + Z.of_nat (length xs));
  ring_size : Z.of_nat (length xs) ≤ capacity_ b;
  ring_slots i : 0 ≤ i < capacity_ b →
    storage_ b !! Z.to_nat ((head + i) mod capacity_ b) = Some (xs !! Z.to_nat i)
}.

Section ring.
Context {T : Type}.
Implicit Types (b : SmallArray T) (xs : list T).

Lemma ring_new N (cap : Z) :
  0 ≤ cap ≤ 2 ^ 63 →
  ring_rep (small_array_new (T := T) N (if cap =? 0 then 0 else bit_ceil cap)) 0 0 [].
Proof.
  intros Hc. unfold small_array_new. set (c := if cap =? 0 then 0 else bit_ceil cap).
  assert (c = 0 ∨ (is_pow2 c ∧ c ≤ 2 ^ 63)) as Hcap.
  { subst c. destruct (Z.eqb_spec cap 0); [by left | right]. split; [apply bit_ceil_pow2 |].
    apply bit_ceil_least; [lia | | lia]. by exists 63. }
  assert (0 ≤ c) by (destruct Hcap as [-> | [?%is_pow2_pos ?]]; lia).
  assert (c ≤ Z.of_nat (Z.to_nat (if is_small_ N c then N else c))).
  { unfold is_small_. destruct (Z.leb_spec c N); lia. }
  split; simpl; try done.
  - by rewrite length_replicate.
  - intros i Hi. rewrite lookup_replicate_2; [by destruct (Z.to_nat i) |].
    rewrite Z.add_0_l. pose proof (Z.mod_pos_bound i c). lia.
Qed.

Lemma ring_size_ok b head tail xs :
  ring_rep b head tail xs → u64 (tail - head) = Z.of_nat (length xs).
Proof.
  intros [Hc _ Hh Ht Hs _]. subst tail. rewrite wrap_sub_l.
  replace (head + Z.of_nat (length xs) - head) with (Z.of_nat (length xs)) by lia.
  apply wrap_small. destruct Hc as [Hc | [_ Hc]]; lia.
Qed.

(** Masking an index with [capacity - 1] is the remainder modulo the capacity,
    also for an index that has wrapped around. *)
Lemma ring_index b (z : Z) :
  is_pow2 (capacity_ b) → capacity_ b ≤ 2 ^ 63 →
  Z.land (u64 z) (u64 (capacity_ b - 1)) = z mod capacity_ b.
Proof.
  intros [k [Hk ->]] Hle.
  assert (k ≤ 63) by (apply (Z.pow_le_mono_r_iff 2); lia).
  pose proof (Z.pow_pos_nonneg 2 k).
  rewrite (wrap_small 64 (2 ^ k - 1)), land_mask, wrap_mod_pow2 by lia. done.
Qed.

Lemma mod_distinct h i j c :
  0 ≤ i < c → 0 ≤ j < c → (h + i) mod c = (h + j) mod c → i = j.
Proof.
  intros Hi Hj E. pose proof (Z.div_mod (h + i) c). pose proof (Z.div_mod (h + j) c).
  assert (c * ((h + i) / c - (h + j) / c) = i - j) by lia.
  assert ((h + i) / c - (h + j) / c = 0) by nia. nia.
Qed.

Lemma ring_push b head tail xs x :
  ring_rep b head tail xs → Z.of_nat (length xs) ≠ capacity_ b →
  ∃ b', slot_construct (Z.land tail (u64 (capacity_ b - 1))) x b = Done tt b' ∧
    capacity_ b' = capacity_ b ∧
    ring_rep b' head (u64 (tail + 1)) (xs ++ [x]).
Proof.
  intros [Hc Hst Hh Ht Hs Hsl] Hnf.
  destruct Hc as [Hc | [Hp Hle]]; [lia |]. pose proof (is_pow2_pos _ Hp).
  rewrite Ht, ring_index by done.
  pose proof (Z.mod_pos_bound (head + Z.of_nat (length xs)) (capacity_ b)).
  rewrite slot_construct_ok by lia. eexists; split; [done |]. split; [done |].
  split; simpl; [tauto | by rewrite length_insert | done | | rewrite length_app; simpl; lia |].
  - rewrite wrap_add_l, length_app; simpl. f_equal. lia.
  - intros i Hi. destruct (decide (i = Z.of_nat (length xs))) as [-> | Hne].
    + rewrite list_lookup_insert_eq by lia. rewrite Nat2Z.id.
      by rewrite list_lookup_middle.
    + rewrite list_lookup_insert_ne.
      2: { intros E. apply Hne. eapply (mod_distinct head _ _ (capacity_ b)); [done | lia |].
           pose proof (Z.mod_pos_bound (head + i) (capacity_ b)). lia. }
      rewrite Hsl by done. f_equal.
      destruct (decide (i < Z.of_nat (length xs))).
      * rewrite lookup_app_l by lia. done.
      * rewrite !lookup_ge_None_2; [done | rewrite length_app; simpl; lia | lia].
Qed.

Lemma ring_pop b head tail x xs :
  ring_rep b head tail (x :: xs) →
  let i := Z.land head (u64 (capacity_ b - 1)) in
  slot_get i b = Done x b ∧
  ∃ b', slot_destroy i b = Done tt b' ∧ capacity_ b' = capacity_ b ∧
    ring_rep b' (u64 (head + 1)) tail xs.
Proof.
  intros [Hc Hst Hh Ht Hs Hsl]. simpl in *.
  destruct Hc as [Hc | [Hp Hle]]; [lia |]. pose proof (is_pow2_pos _ Hp).
  assert (Z.land head (u64 (capacity_ b - 1)) = head mod capacity_ b) as ->.
  { rewrite <- (wrap_small 64 head) at 1 by lia. by apply ring_index. }
  pose proof (Z.mod_pos_bound head (capacity_ b)).
  assert (storage_ b !! Z.to_nat (head mod capacity_ b) = Some (Some x)) as Hx.
  { specialize (Hsl 0). rewrite Z.add_0_r in Hsl. rewrite Hsl by lia. done. }
  split; [apply slot_get_ok; [lia | done] |].
  erewrite slot_destroy_ok by (done || lia). eexists; split; [done |]. split; [done |].
  split; simpl; [tauto | by rewrite length_insert | by apply wrap_range | | lia |].
  - rewrite Ht, wrap_add_l. f_equal. lia.
  - intros i Hi. rewrite <- Zplus_mod_idemp_l. unfold wrap at 1.
    assert ((head + 1) mod 2 ^ 64 mod capacity_ b = (head + 1) mod capacity_ b) as ->.
    { destruct Hp as [k [Hk Ek]]. rewrite Ek. apply wrap_mod_pow2. split; [done |].
      apply (Z.pow_le_mono_r_iff 2); lia. }
    rewrite Zplus_mod_idemp_l.
    destruct (decide (i = capacity_ b - 1)) as [-> | Hne].
    + replace (head + 1 + (capacity_ b - 1)) with (head + 1 * capacity_ b) by lia.
      rewrite Z_mod_plus_full, list_lookup_insert_eq by lia.
      rewrite lookup_ge_None_2 by lia. done.
    + rewrite list_lookup_insert_ne.
      2: { intros E. assert (0 = i + 1); [| lia].
           eapply (mod_distinct head _ _ (capacity_ b)); [lia | lia |]. rewrite Z.add_0_r.
           pose proof (Z.mod_pos_bound (head + 1 + i) (capacity_ b)).
           replace (head + (i + 1)) with (head + 1 + i) by lia. lia. }
      replace (head + 1 + i) with (head + (i + 1)) by lia. rewrite Hsl by lia.
      f_equal. by replace (Z.to_nat (i + 1)) with (S (Z.to_nat i)) by lia.
Qed.

End ring.

(** ** The specification *)

Section spec.
Context {T : Type} (T0 : T).
Implicit Types (a : AChannel T) (e : Env T).

(** A blocked push gets its result: its handle is scheduled, or deleted when it
    belongs to [force_push].  [moved]: the item was taken. *)
Definition complete_push (moved : bool) (h : addr) (r : Z) (e : Env T) : Env T :=
  match push_handles e !! h with
  | None => e
  | Some p =>
      match push_runtime p with
      | None => delete_push_handle h e
      | Some rt =>
          schedule_internal rt (PushWork h)
            (set_push_handle h
               (mkPushHandle (Some rt) (if moved then None else push_item p) r (push_stop p)) e)
      end
  end.

Definition complete_pop (h : addr) (r : Z * T) (e : Env T) : Env T :=
  match pop_handles e !! h with
  | None => e
  | Some p =>
      match pop_runtime p with
      | None => e
      | Some rt =>
          schedule_internal rt (PopWork h)
            (set_pop_handle h (mkPopHandle (Some rt) r (pop_stop p)) e)
      end
  end.

(** Hand an item to the longest-waiting popper, or buffer it, or refuse it. *)
Definition spec_offer (item : T) (a : AChannel T) (e : Env T) : bool * AChannel T * Env T :=
  match a_popq a with
  | h :: hs =>
      (true, mkAChannel (a_cap a) (a_buf a) (a_pushq a) hs (a_closed a),
       complete_pop h (0, item) e)
  | [] =>
      if Z.of_nat (length (a_buf a)) <? a_cap a then
        (true, mkAChannel (a_cap a) (a_buf a ++ [item]) (a_pushq a) [] (a_closed a), e)
      else (false, a, e)
  end.

(** Take the oldest item; a blocked pusher's item then takes the free place. *)
Definition spec_take (a : AChannel T) (e : Env T) : option T * AChannel T * Env T :=
  match a_pushq a with
  | (h, item) :: hs =>
      let e' := complete_push true h 0 e in
      match a_buf a with
      | [] => (Some item, mkAChannel (a_cap a) [] hs (a_popq a) (a_closed a), e')
      | x :: xs =>
          (Some x, mkAChannel (a_cap a) (xs ++ [item]) hs (a_popq a) (a_closed a), e')
      end
  | [] =>
      match a_buf a with
      | [] => (None, a, e)
      | x :: xs => (Some x, mkAChannel (a_cap a) xs [] (a_popq a) (a_closed a), e)
      end
  end.

Definition set_pushq (q : list (addr * T)) (a : AChannel T) : AChannel T :=
  mkAChannel (a_cap a) (a_buf a) q (a_popq a) (a_closed a).
Definition set_popq (q : list addr) (a : AChannel T) : AChannel T :=
  mkAChannel (a_cap a) (a_buf a) (a_pushq a) q (a_closed a).

Definition spec_try_push (item : T) (a : AChannel T) (e : Env T) : Z * AChannel T * Env T :=
  if a_closed a then (- EPIPE, a, e)
  else
    let '(ok, a', e') := spec_offer item a e in
    (if ok : bool then 0 else - EAGAIN, a', e').

Definition spec_try_pop (a : AChannel T) (e : Env T) : (Z * T) * AChannel T * Env T :=
  let '(r, a', e') := spec_take a e in
  (match r with
   | Some item => (0, item)
   | None => (if a_closed a then - EPIPE else - EAGAIN, T0)
   end, a', e').

Definition spec_force_push (item : T) (fake : addr) (a : AChannel T) (e : Env T)
    : AChannel T * Env T :=
  let '(ok, a', e') := spec_offer item a e in
  if ok : bool then (a', e')
  else (set_pushq (a_pushq a' ++ [(fake, item)]) a',
        set_push_handle fake (mkPushHandle None (Some item) (- ENOTRECOVERABLE) false) e').

Definition spec_push_cancel (h : addr) (a : AChannel T) (e : Env T) : AChannel T * Env T :=
  if bool_decide (h ∈ (a_pushq a).*1) then
    (set_pushq (filter (λ hx, hx.1 ≠ h) (a_pushq a)) a, complete_push false h (- ECANCELED) e)
  else (a, e).

Definition spec_pop_cancel (h : addr) (a : AChannel T) (e : Env T) : AChannel T * Env T :=
  if bool_decide (h ∈ a_popq a) then
    (set_popq (without h (a_popq a)) a, complete_pop h (- ECANCELED, T0) e)
  else (a, e).

(** A push operation that is started: it completes at once, or it blocks, with
    its stop callback engaged and, if stop was requested already, cancelled. *)
Definition spec_push_start (h : addr) (rt : RuntimeId) (item : T) (stop : stop_state)
    (a : AChannel T) (e : Env T) : AChannel T * Env T :=
  let handle it st := mkPushHandle (Some rt) it (- ENOTRECOVERABLE) st in
  if a_closed a then
    (a, receive (PushWork h) (PushDone (- EPIPE)) (set_push_handle h (handle (Some item) false) e))
  else
    let '(ok, a', e') := spec_offer item a (set_push_handle h (handle (Some item) false) e) in
    if ok : bool then
      (a', receive (PushWork h) (PushDone 0) (set_push_handle h (handle None false) e'))
    else
      let a'' := set_pushq (a_pushq a' ++ [(h, item)]) a' in
      let e'' := pend_work_internal rt e' in
      match stop with
      | StopImpossible => (a'', e'')
      | StopPossible => (a'', set_push_handle h (handle (Some item) true) e'')
      | StopRequested => spec_push_cancel h a'' (set_push_handle h (handle (Some item) true) e'')
      end.

Definition spec_pop_start (h : addr) (rt : RuntimeId) (stop : stop_state)
    (a : AChannel T) (e : Env T) : AChannel T * Env T :=
  let handle st := mkPopHandle (Some rt) (- ENOTRECOVERABLE, T0) st in
  let '(r, a', e') := spec_take a (set_pop_handle h (handle false) e) in
  match r with
  | Some item => (a', receive (PopWork h) (PopDone 0 item) e')
  | None =>
      if a_closed a then (a', receive (PopWork h) (PopDone (- EPIPE) T0) e')
      else
        let a'' := set_popq (a_popq a' ++ [h]) a' in
        let e'' := pend_work_internal rt e' in
        match stop with
        | StopImpossible => (a'', e'')
        | StopPossible => (a'', set_pop_handle h (handle true) e'')
        | StopRequested => spec_pop_cancel h a'' (set_pop_handle h (handle true) e'')
        end
  end.

(** Closing fails every blocked operation with [-EPIPE]; buffered items stay. *)
Definition spec_close (a : AChannel T) (e : Env T) : AChannel T * Env T :=
  if a_closed a then (a, e)
  else
    (mkAChannel (a_cap a) (a_buf a) [] [] true,
     foldl (λ e hx, complete_push false hx.1 (- EPIPE) e)
       (foldl (λ e h, complete_pop h (- EPIPE, T0) e) e (a_popq a)) (a_pushq a)).

(** A scheduled operation is resumed on its runtime: its receiver gets the
    result. *)
Definition spec_invoke (w : Work) (e : Env T) : Env T :=
  match w with
  | PushWork h =>
      match push_handles e !! h with
      | Some (mkPushHandle (Some rt) item r _) =>
          receive w (PushDone r)
            (resume_work_internal rt
               (set_push_handle h (mkPushHandle (Some rt) item r false) e))
      | _ => e
      end
  | PopWork h =>
      match pop_handles e !! h with
      | Some (mkPopHandle (Some rt) r _) =>
          receive w (PopDone r.1 r.2)
            (resume_work_internal rt (set_pop_handle h (mkPopHandle (Some rt) r false) e))
      | _ => e
      end
  end.

Definition spec_run (i : nat) (e : Env T) : Env T :=
  match scheduled e !! i with
  | None => e
  | Some (_, w) => spec_invoke w (remove_scheduled i e)
  end.

(** The invariant of a channel together with the handles it points to. *)
Record spec_inv (a : AChannel T) (e : Env T) : Prop := {
  inv_push_handles h x : (h, x) ∈ a_pushq a →
    ∃ p, push_handles e !! h = Some p ∧ push_item p = Some x ∧
      push_result p = - ENOTRECOVERABLE;
  inv_pop_handles h : h ∈ a_popq a →
    ∃ p, pop_handles e !! h = Some p ∧ pop_runtime p ≠ None ∧
      pop_result p = (- ENOTRECOVERABLE, T0);
  inv_push_nodup : NoDup (a_pushq a).*1;
  inv_pop_nodup : NoDup (a_popq a);
  inv_pop_wait : a_popq a ≠ [] → a_buf a = [] ∧ a_pushq a = [];
  inv_push_wait : a_pushq a ≠ [] → Z.of_nat (length (a_buf a)) = a_cap a;
  inv_size : Z.of_nat (length (a_buf a)) ≤ a_cap a;
  inv_closed : a_closed a = true → a_pushq a = [] ∧ a_popq a = []
}.

Lemma spec_inv_new (cap : Z) (e : Env T) : 0 ≤ cap → spec_inv (mkAChannel cap [] [] [] false) e.
Proof. intros. split; simpl; try done; try constructor; set_solver. Qed.

Lemma complete_push_pops b h r e : pop_handles (complete_push b h r e) = pop_handles e.
Proof. unfold complete_push. by repeat case_match. Qed.

Lemma complete_pop_pushes h r e : push_handles (complete_pop h r e) = push_handles e.
Proof. unfold complete_pop. by repeat case_match. Qed.

Lemma complete_push_ne b h h' r e :
  h' ≠ h → push_handles (complete_push b h r e) !! h' = push_handles e !! h'.
Proof.
  intros. unfold complete_push.
  repeat case_match; simpl; rewrite ?lookup_insert_ne, ?lookup_delete_ne by done; done.
Qed.

Lemma complete_pop_ne h h' r e :
  h' ≠ h → pop_handles (complete_pop h r e) !! h' = pop_handles e !! h'.
Proof.
  intros. unfold complete_pop.
  repeat case_match; simpl; rewrite ?lookup_insert_ne by done; done.
Qed.

(** The invariant only speaks about the handles of blocked operations. *)
Lemma spec_inv_frame a e e' :
  spec_inv a e →
  (∀ h, h ∈ (a_pushq a).*1 → push_handles e' !! h = push_handles e !! h) →
  (∀ h, h ∈ a_popq a → pop_handles e' !! h = pop_handles e !! h) →
  spec_inv a e'.
Proof.
  intros [Hpu Hpo ? ? ? ? ? ?] H1 H2. split; try done.
  - intros h x Hin. rewrite H1 by (apply list_elem_of_fmap; by exists (h, x)). by apply Hpu.
  - intros h Hin. rewrite H2 by done. by apply Hpo.
Qed.

Lemma spec_inv_popq_tail a e h hs r :
  spec_inv a e → a_popq a = h :: hs →
  spec_inv (set_popq hs a) (complete_pop h r e).
Proof.
  intros Hi Eq. pose proof (inv_pop_wait _ _ Hi ltac:(by rewrite Eq)) as [Eb Ep].
  destruct Hi as [Hpu Hpo Hn1 Hn2 Hw1 Hw2 Hs Hc]. rewrite Eq in *. apply NoDup_cons in Hn2 as [Hh Hn2].
  split; simpl; try done.
  - intros h' x. rewrite complete_pop_pushes. apply Hpu.
  - intros h' Hh'. rewrite complete_pop_ne by set_solver. apply Hpo. set_solver.
  - intros. split; naive_solver.
Qed.

Lemma spec_offer_inv item a e ok a' e' :
  spec_inv a e → a_closed a = false → spec_offer item a e = (ok, a', e') →
  spec_inv a' e' ∧ a_closed a' = false ∧
  (ok = false → a' = a ∧ e' = e ∧ a_popq a = [] ∧ Z.of_nat (length (a_buf a)) = a_cap a).
Proof.
  intros Hi Hcl E. unfold spec_offer in E. destruct (a_popq a) as [|h hs] eqn:Eq.
  - pose proof (inv_size _ _ Hi). case_match; simplify_eq; bool_to_prop.
    + split_and!; [| done | done]. destruct Hi as [Hpu Hpo Hn1 Hn2 Hw1 Hw2 Hs Hc].
      rewrite Eq in *. split; simpl; try done.
      * intros Hne. specialize (Hw2 Hne). lia.
      * rewrite length_app; simpl. lia.
    + split_and!; try done. intros _. split_and!; [done | done | done | lia].
  - simplify_eq. split_and!; [| done | done]. by apply spec_inv_popq_tail.
Qed.

Lemma spec_take_inv a e r a' e' :
  spec_inv a e → spec_take a e = (r, a', e') →
  spec_inv a' e' ∧ a_closed a' = a_closed a ∧
  (r = None → a' = a ∧ e' = e ∧ a_pushq a = [] ∧ a_buf a = []).
Proof.
  intros Hi E. unfold spec_take in E. destruct (a_pushq a) as [|[h x] hs] eqn:Eq.
  - destruct (a_buf a) as [|y ys] eqn:Eb; simplify_eq; [done |].
    split_and!; [| done | done]. destruct Hi as [Hpu Hpo Hn1 Hn2 Hw1 Hw2 Hs Hc].
    rewrite Eq, Eb in *. split; simpl in *; try done; try lia. naive_solver.
  - assert (spec_inv a' e' ∧ a_closed a' = a_closed a ∧ r ≠ None) as (?&?&?); [| done].
    assert (a_popq a = []) as Epop.
    { destruct (a_popq a) eqn:E'; [done |].
      pose proof (inv_pop_wait _ _ Hi) as Hw. rewrite E', Eq in Hw. naive_solver. }
    pose proof (inv_closed _ _ Hi) as Hc. rewrite Eq in Hc.
    pose proof (inv_push_wait _ _ Hi) as Hw. rewrite Eq in Hw. specialize (Hw ltac:(done)).
    pose proof (inv_push_nodup _ _ Hi) as Hnd. rewrite Eq in Hnd.
    apply NoDup_cons in Hnd as [Hh Hnd].
    assert (∀ h' x', (h', x') ∈ hs →
      ∃ p, push_handles (complete_push true h 0 e) !! h' = Some p ∧ push_item p = Some x' ∧
        push_result p = - ENOTRECOVERABLE) as Hpu.
    { intros h' x' Hin. rewrite complete_push_ne.
      - apply (inv_push_handles _ _ Hi). rewrite Eq. set_solver.
      - intros ->. apply Hh, list_elem_of_fmap. by exists (h, x'). }
    destruct (a_buf a) as [|y ys] eqn:Eb; simplify_eq; split_and!; try done;
      split; simpl in *; try done; rewrite ?Epop, ?length_app in *; simpl in *;
      try done; try lia; try constructor; try set_solver; naive_solver.
Qed.

Lemma spec_push_cancel_inv h a e a' e' :
  spec_inv a e → spec_push_cancel h a e = (a', e') →
  spec_inv a' e' ∧ a_closed a' = a_closed a.
Proof.
  intros Hi E. unfold spec_push_cancel in E. case_bool_decide as Hin; simplify_eq; [| done].
  split; [| done]. destruct Hi as [Hpu Hpo Hn1 Hn2 Hw1 Hw2 Hs Hc].
  assert (a_pushq a ≠ []) as Hne by (intros E; rewrite E in Hin; set_solver).
  split; simpl; try done.
  - intros h' x [? Hx]%list_elem_of_filter. rewrite complete_push_ne by done. by apply Hpu.
  - intros h' Hx. rewrite complete_push_pops. by apply Hpo.
  - eapply sublist_NoDup; [exact Hn1 |]. apply fmap_sublist, sublist_filter.
  - intros [? ->]%Hw1. done.
  - auto.
  - intros [-> ->]%Hc. done.
Qed.

Lemma spec_pop_cancel_inv h a e a' e' :
  spec_inv a e → spec_pop_cancel h a e = (a', e') →
  spec_inv a' e' ∧ a_closed a' = a_closed a.
Proof.
  intros Hi E. unfold spec_pop_cancel in E. case_bool_decide as Hin; simplify_eq; [| done].
  split; [| done]. destruct Hi as [Hpu Hpo Hn1 Hn2 Hw1 Hw2 Hs Hc].
  assert (a_popq a ≠ []) as Hne by (intros E; rewrite E in Hin; set_solver).
  split; simpl; try done.
  - intros h' x Hx. rewrite complete_pop_pushes. by apply Hpu.
  - intros h' [Hx ?]%elem_of_without. rewrite complete_pop_ne by done. by apply Hpo.
  - unfold without. by apply NoDup_filter.
  - auto.
  - intros [-> ->]%Hc. done.
Qed.

Lemma spec_offer_pushes item a e ok a' e' :
  spec_offer item a e = (ok, a', e') → push_handles e' = push_handles e.
Proof.
  unfold spec_offer. intros E. repeat case_match; simplify_eq; [done | done |].
  by rewrite complete_pop_pushes.
Qed.

Lemma spec_take_pops a e r a' e' :
  spec_take a e = (r, a', e') → pop_handles e' = pop_handles e.
Proof.
  unfold spec_take. intros E. repeat case_match; simplify_eq; by rewrite ?complete_push_pops.
Qed.

Lemma pushq_notin a e h : spec_inv a e → push_handles e !! h = None → h ∉ (a_pushq a).*1.
Proof.
  intros Hi Hn ([? ?] & -> & Hin)%list_elem_of_fmap.
  destruct (inv_push_handles _ _ Hi _ _ Hin) as (p & Ep & _). simpl in *. congruence.
Qed.

Lemma popq_notin a e h : spec_inv a e → pop_handles e !! h = None → h ∉ a_popq a.
Proof.
  intros Hi Hn Hin. destruct (inv_pop_handles _ _ Hi _ Hin) as (p & Ep & _). congruence.
Qed.

(** Creating or updating a handle that is not queued. *)
Lemma spec_inv_set_push a e h p :
  spec_inv a e → h ∉ (a_pushq a).*1 → spec_inv a (set_push_handle h p e).
Proof.
  intros Hi Hh. eapply spec_inv_frame; [done | | done]. intros h' Hin. simpl.
  apply lookup_insert_ne. set_solver.
Qed.

Lemma spec_inv_set_pop a e h p :
  spec_inv a e → h ∉ a_popq a → spec_inv a (set_pop_handle h p e).
Proof.
  intros Hi Hh. eapply spec_inv_frame; [done | done |]. intros h' Hin. simpl.
  apply lookup_insert_ne. set_solver.
Qed.

(** An operation blocks. *)
Lemma spec_inv_block_push a e h x p :
  spec_inv a e → a_closed a = false → a_popq a = [] →
  Z.of_nat (length (a_buf a)) = a_cap a → h ∉ (a_pushq a).*1 →
  push_handles e !! h = Some p → push_item p = Some x → push_result p = - ENOTRECOVERABLE →
  spec_inv (set_pushq (a_pushq a ++ [(h, x)]) a) e.
Proof.
  intros [Hpu Hpo Hn1 Hn2 Hw1 Hw2 Hs Hc] Hcl Hp Hf Hh Ep Ex Er.
  split; simpl; rewrite ?Hp, ?Hcl in *; try done.
  - intros h' x' [Hin | Hin]%elem_of_app; [by apply Hpu |].
    apply list_elem_of_singleton in Hin. simplify_eq. eauto.
  - rewrite fmap_app. by apply NoDup_snoc.
Qed.

Lemma spec_inv_block_pop a e h p :
  spec_inv a e → a_closed a = false → a_pushq a = [] → a_buf a = [] → h ∉ a_popq a →
  pop_handles e !! h = Some p → pop_runtime p ≠ None → pop_result p = (- ENOTRECOVERABLE, T0) →
  spec_inv (set_popq (a_popq a ++ [h]) a) e.
Proof.
  intros [Hpu Hpo Hn1 Hn2 Hw1 Hw2 Hs Hc] Hcl Hp Hb Hh Ep Ex Er.
  split; simpl; rewrite ?Hp, ?Hcl, ?Hb in *; try done.
  - intros h' [Hin | Hin]%elem_of_app; [by apply Hpo |].
    apply list_elem_of_singleton in Hin. subst. eauto.
  - by apply NoDup_snoc.
Qed.

End spec.

(** ** The code implements the specification *)

Section refinement.
Context {T : Type} (T0 : T) {L : Type} `{HandleListLaws L}.
Implicit Types (c : Channel T L) (a : AChannel T) (e : Env T).

Record chan_rep (c : Channel T L) (a : AChannel T) : Prop := {
  rep_push : hl_rep (push_awaiters_ c) (a_pushq a).*1;
  rep_pop : hl_rep (pop_awaiters_ c) (a_popq a);
  rep_ring : ring_rep (buffer_ c) (head_ c) (tail_ c) (a_buf a);
  rep_cap : capacity c = a_cap a;
  rep_closed : closed_ c = a_closed a
}.

Lemma chan_rep_new N (cap : Z) :
  0 ≤ cap ≤ 2 ^ 63 →
  chan_rep (channel_new (L := L) N cap)
    (mkAChannel (if cap =? 0 then 0 else bit_ceil cap) [] [] [] false).
Proof. intros. split; simpl; auto using hl_new_rep, ring_new. Qed.

Lemma size_rep c a : chan_rep c a → size_inner_ c = Z.of_nat (length (a_buf a)).
Proof. intros Hr. eapply ring_size_ok, Hr. Qed.

Lemma empty_rep c a : chan_rep c a → empty_inner_ c = bool_decide (a_buf a = []).
Proof.
  intros Hr. unfold empty_inner_. rewrite (size_rep _ _ Hr). by destruct (a_buf a).
Qed.

Lemma full_rep c a : chan_rep c a →
  full_inner_ c = bool_decide (Z.of_nat (length (a_buf a)) = a_cap a).
Proof.
  intros Hr. unfold full_inner_. rewrite (size_rep _ _ Hr), (rep_cap _ _ Hr).
  case_bool_decide; [by apply Z.eqb_eq | by apply Z.eqb_neq].
Qed.

Lemma push_empty_rep c a : chan_rep c a →
  hl_empty (push_awaiters_ c) = bool_decide (a_pushq a = []).
Proof.
  intros [Hr _ _ _ _]. rewrite (hl_empty_ok _ _ Hr). by destruct (a_pushq a).
Qed.

Lemma pop_empty_rep c a : chan_rep c a →
  hl_empty (pop_awaiters_ c) = bool_decide (a_popq a = []).
Proof. intros [_ Hr _ _ _]. by rewrite (hl_empty_ok _ _ Hr). Qed.

Lemma push_inner_refines c a e item :
  chan_rep c a → Z.of_nat (length (a_buf a)) < a_cap a →
  ∃ c', push_inner_ item (mkSys c e) = Done tt (mkSys c' e) ∧
    chan_rep c' (mkAChannel (a_cap a) (a_buf a ++ [item]) (a_pushq a) (a_popq a) (a_closed a)).
Proof.
  intros Hr Hlt. unfold push_inner_. run_st. rewrite (full_rep _ _ Hr).
  rewrite bool_decide_eq_false_2 by lia. destruct Hr as [Hp Hq Hring Hcap Hcl]. run_st.
  unfold capacity in *.
  destruct (ring_push _ _ _ _ item Hring) as (b' & E & Hcap' & Hring'); [lia |].
  unfold on_buffer. run_st. rewrite E. run_st. eexists; split; [done |].
  split; simpl; try done. unfold capacity; simpl. congruence.
Qed.

Lemma pop_inner_refines c a e x xs :
  chan_rep c a → a_buf a = x :: xs →
  ∃ c', pop_inner_ (mkSys c e) = Done x (mkSys c' e) ∧
    chan_rep c' (mkAChannel (a_cap a) xs (a_pushq a) (a_popq a) (a_closed a)).
Proof.
  intros Hr Hb. unfold pop_inner_. run_st. rewrite (empty_rep _ _ Hr), Hb.
  destruct Hr as [Hp Hq Hring Hcap Hcl]. rewrite Hb in Hring. run_st.
  unfold capacity in *.
  destruct (ring_pop _ _ _ _ _ Hring) as (E1 & b' & E2 & Hcap' & Hring').
  unfold on_buffer. run_st. rewrite E1. run_st. rewrite E2. run_st. eexists; split; [done |].
  split; simpl; try done. unfold capacity; simpl. congruence.
Qed.

(** Completing the handle at the front of a waiter list, before a continuation. *)
Lemma push_complete_run {A} (k : ST (Sys T L) A) c e h p r :
  push_handles e !! h = Some p →
  (push_set_result h r;; push_schedule h;; k) (mkSys c e)
  = k (mkSys c (complete_push false h r e)).
Proof.
  intros E. unfold complete_push. rewrite E. unfold push_set_result, push_schedule, get_push_handle.
  run_st. rewrite E. unfold on_env. run_st. rewrite lookup_insert_eq. run_st.
  destruct (push_runtime p) as [rt |]; run_st; [done |].
  do 2 f_equal. unfold delete_push_handle, set_push_handle. simpl. by rewrite delete_insert_eq.
Qed.

Lemma move_push_item_run c e h p x :
  push_handles e !! h = Some p → push_item p = Some x →
  move_push_item h (mkSys c e) =
    Done x (mkSys c (set_push_handle h
      (mkPushHandle (push_runtime p) None (push_result p) (push_stop p)) e)).
Proof.
  intros E Ex. unfold move_push_item, get_push_handle. run_st. rewrite E. run_st.
  rewrite Ex. done.
Qed.

Lemma push_move_complete_run {A} (k : T → ST (Sys T L) A) c e h p x r :
  push_handles e !! h = Some p → push_item p = Some x →
  (item ← move_push_item h; push_set_result h r;; push_schedule h;; k item) (mkSys c e)
  = k x (mkSys c (complete_push true h r e)).
Proof.
  intros E Ex. erewrite bind_done by (by eapply move_push_item_run).
  erewrite push_complete_run by (simpl; apply lookup_insert_eq).
  do 2 f_equal. unfold complete_push. simpl. rewrite lookup_insert_eq, E. simpl.
  destruct (push_runtime p); unfold set_push_handle, delete_push_handle, schedule_internal; simpl.
  - by rewrite insert_insert_eq.
  - by rewrite delete_insert_eq.
Qed.

Lemma pop_complete_run {A} (k : ST (Sys T L) A) c e h p r :
  pop_handles e !! h = Some p → pop_runtime p ≠ None →
  (pop_set_result h r;; pop_schedule h;; k) (mkSys c e)
  = k (mkSys c (complete_pop h r e)).
Proof.
  intros E Hrt. unfold complete_pop. rewrite E. unfold pop_set_result, pop_schedule, get_pop_handle.
  run_st. rewrite E. unfold on_env. run_st. rewrite lookup_insert_eq. run_st.
  destruct (pop_runtime p) as [rt |]; run_st; done.
Qed.

(** Taking the first handle off a waiter list. *)
Lemma pop_front_pop c a e h hs :
  chan_rep c a → a_popq a = h :: hs →
  ∃ c', on_pop_awaiters hl_pop_front (mkSys c e) = Done (Some h) (mkSys c' e) ∧
    chan_rep c' (mkAChannel (a_cap a) (a_buf a) (a_pushq a) hs (a_closed a)).
Proof.
  intros [Hp Hq Hring Hcap Hcl] E. rewrite E in Hq.
  destruct (hl_pop_front_cons _ _ _ Hq) as (l' & El & Hl'). unfold on_pop_awaiters.
  eexists; split; [by erewrite zoom_done by exact El |]. by split.
Qed.

Lemma pop_front_push c a e h x hs :
  chan_rep c a → a_pushq a = (h, x) :: hs →
  ∃ c', on_push_awaiters hl_pop_front (mkSys c e) = Done (Some h) (mkSys c' e) ∧
    chan_rep c' (mkAChannel (a_cap a) (a_buf a) hs (a_popq a) (a_closed a)).
Proof.
  intros [Hp Hq Hring Hcap Hcl] E. rewrite E in Hp.
  destruct (hl_pop_front_cons _ _ _ Hp) as (l' & El & Hl'). unfold on_push_awaiters.
  eexists; split; [by erewrite zoom_done by exact El |]. by split.
Qed.

Lemma try_push_inner_refines c a e item ok a' e' :
  chan_rep c a → spec_inv T0 a e → spec_offer item a e = (ok, a', e') →
  ∃ c', try_push_inner_ item (mkSys c e) = Done ok (mkSys c' e') ∧ chan_rep c' a'.
Proof.
  intros Hr Hi Es. unfold spec_offer in Es. unfold try_push_inner_. rewrite bind_gets.
  cbn [chan]. rewrite (pop_empty_rep _ _ Hr).
  destruct (a_popq a) as [|h hs] eqn:Eq; simpl.
  - rewrite (full_rep _ _ Hr). pose proof (inv_size _ _ _ Hi).
    destruct (Z.ltb_spec (Z.of_nat (length (a_buf a))) (a_cap a)); simplify_eq.
    + rewrite bool_decide_eq_false_2 by lia. simpl.
      destruct (push_inner_refines c a e' item Hr) as (c' & E & Hr'); [lia |].
      erewrite bind_done by exact E. rewrite Eq in Hr'. by eexists.
    + rewrite bool_decide_eq_true_2 by lia. by eexists.
  - simplify_eq. destruct (inv_pop_wait _ _ _ Hi) as [Hb _]; [by rewrite Eq |].
    rewrite bind_assert by (by rewrite (empty_rep _ _ Hr), Hb).
    destruct (pop_front_pop c a e h hs Hr Eq) as (c' & E & Hr').
    erewrite bind_done by exact E. erewrite bind_done by done.
    destruct (inv_pop_handles _ _ _ Hi h) as (p & Ep & Hrt & _); [rewrite Eq; set_solver |].
    erewrite pop_complete_run by done. by eexists.
Qed.

Lemma try_pop_inner_refines c a e r a' e' :
  chan_rep c a → spec_inv T0 a e → spec_take a e = (r, a', e') →
  ∃ c', try_pop_inner_ (mkSys c e) = Done r (mkSys c' e') ∧ chan_rep c' a'.
Proof.
  intros Hr Hi Es. unfold spec_take in Es. unfold try_pop_inner_. rewrite bind_gets.
  cbn [chan]. rewrite (push_empty_rep _ _ Hr).
  destruct (a_pushq a) as [|[h x] hs] eqn:Eq; simpl.
  - rewrite (empty_rep _ _ Hr). destruct (a_buf a) as [|y ys] eqn:Eb; simplify_eq/=; [by eexists |].
    destruct (pop_inner_refines c a e' y ys Hr Eb) as (c' & E & Hr').
    erewrite bind_done by exact E. rewrite Eq in Hr'. by eexists.
  - pose proof (inv_push_wait _ _ _ Hi) as Hw. rewrite Eq in Hw. specialize (Hw ltac:(done)).
    rewrite bind_assert by (rewrite (full_rep _ _ Hr); by apply bool_decide_eq_true_2).
    destruct (pop_front_push c a e h x hs Hr Eq) as (c' & E & Hr').
    erewrite bind_done by exact E. erewrite bind_done by done.
    destruct (inv_push_handles _ _ _ Hi h x) as (p & Ep & Ex & _); [rewrite Eq; set_solver |].
    erewrite push_move_complete_run by done.
    unfold pop_and_push_. destruct (a_buf a) as [|y ys] eqn:Eb; simplify_eq/=.
    + erewrite bind_done; [by eexists |]. rewrite bind_gets. unfold no_buffer_. cbn [chan].
      rewrite (rep_cap _ _ Hr'). simpl. rewrite <- Hw. done.
    + destruct (pop_inner_refines c' _ (complete_push true h 0 e) y ys Hr' eq_refl) as (c1 & E1 & Hr1).
      destruct (push_inner_refines c1 _ (complete_push true h 0 e) x Hr1) as (c2 & E2 & Hr2); [simpl in *; lia |].
      erewrite bind_done; [by eexists |]. rewrite bind_gets. unfold no_buffer_. cbn [chan].
      rewrite (rep_cap _ _ Hr'). simpl. rewrite (proj2 (Z.eqb_neq _ _)) by lia.
      erewrite bind_done by exact E1. by erewrite bind_done by exact E2.
Qed.

(** Queueing and dequeuing a handle. *)
Lemma push_back_push c a e h x :
  chan_rep c a → h ∉ (a_pushq a).*1 →
  ∃ c', on_push_awaiters (hl_push_back h) (mkSys c e) = Done tt (mkSys c' e) ∧
    chan_rep c' (set_pushq (a_pushq a ++ [(h, x)]) a).
Proof.
  intros [Hp Hq Hring Hcap Hcl] Hh. destruct (hl_push_back_ok _ _ _ Hp Hh) as (l' & El & Hl').
  unfold on_push_awaiters. eexists; split; [by erewrite zoom_done by exact El |].
  split; simpl; try done. by rewrite fmap_app.
Qed.

Lemma push_back_pop c a e h :
  chan_rep c a → h ∉ a_popq a →
  ∃ c', on_pop_awaiters (hl_push_back h) (mkSys c e) = Done tt (mkSys c' e) ∧
    chan_rep c' (set_popq (a_popq a ++ [h]) a).
Proof.
  intros [Hp Hq Hring Hcap Hcl] Hh. destruct (hl_push_back_ok _ _ _ Hq Hh) as (l' & El & Hl').
  unfold on_pop_awaiters. eexists; split; [by erewrite zoom_done by exact El |]. by split.
Qed.

Lemma without_fst h (q : list (addr * T)) : without h q.*1 = (filter (λ hx, hx.1 ≠ h) q).*1.
Proof.
  unfold without. induction q as [|[h' x] q IH]; [done |]. cbn [fmap list_fmap fst].
  destruct (decide (h' = h)).
  - by rewrite !filter_cons_False by (simpl; tauto).
  - rewrite !filter_cons_True by done. simpl. by f_equal.
Qed.

Lemma cancel_push_run c a e h :
  chan_rep c a →
  ∃ c', cancel_push_ h (mkSys c e) = Done (bool_decide (h ∈ (a_pushq a).*1)) (mkSys c' e) ∧
    chan_rep c' (set_pushq (filter (λ hx, hx.1 ≠ h) (a_pushq a)) a).
Proof.
  intros [Hp Hq Hring Hcap Hcl]. destruct (hl_remove_ok _ _ h Hp) as (l' & El & Hl').
  rewrite without_fst in Hl'. unfold cancel_push_, on_push_awaiters.
  eexists; split; [by erewrite zoom_done by exact El |]. by split.
Qed.

Lemma cancel_pop_run c a e h :
  chan_rep c a →
  ∃ c', cancel_pop_ h (mkSys c e) = Done (bool_decide (h ∈ a_popq a)) (mkSys c' e) ∧
    chan_rep c' (set_popq (without h (a_popq a)) a).
Proof.
  intros [Hp Hq Hring Hcap Hcl]. destruct (hl_remove_ok _ _ h Hq) as (l' & El & Hl').
  unfold cancel_pop_, on_pop_awaiters.
  eexists; split; [by erewrite zoom_done by exact El |]. by split.
Qed.

Lemma filter_notin_fst h (q : list (addr * T)) :
  h ∉ q.*1 → filter (λ hx, hx.1 ≠ h) q = q.
Proof.
  induction q as [|[h' x] q IH]; [done |]. simpl. intros [? ?]%not_elem_of_cons.
  rewrite filter_cons_True by (simpl; congruence). by rewrite IH.
Qed.

Lemma set_pushq_id a : set_pushq (a_pushq a) a = a.
Proof. by destruct a. Qed.
Lemma set_popq_id a : set_popq (a_popq a) a = a.
Proof. by destruct a. Qed.

Lemma push_cancel_refines c a e h a' e' :
  chan_rep c a → spec_inv T0 a e →
  (∃ p, push_handles e !! h = Some p ∧ push_runtime p ≠ None) →
  spec_push_cancel h a e = (a', e') →
  ∃ c', push_cancel h (mkSys c e) = Done tt (mkSys c' e') ∧ chan_rep c' a'.
Proof.
  intros Hr Hi (p & Ep & Hrt) Es. unfold push_cancel, spec_push_cancel in *.
  destruct (cancel_push_run c a e h Hr) as (c' & E & Hr').
  erewrite bind_done by exact E. case_bool_decide as Hin; simplify_eq.
  - apply list_elem_of_fmap in Hin as ([h' x] & -> & Hin). simpl in *.
    destruct (inv_push_handles _ _ _ Hi h' x Hin) as (p' & Ep' & Ex & Er). simplify_eq.
    exists c'. split; [| done]. unfold push_set_result, get_push_handle, complete_push, on_env.
    run_st. rewrite Ep. run_st. rewrite Er. run_st. rewrite Ep. run_st.
    by destruct (push_runtime p).
  - rewrite filter_notin_fst, set_pushq_id in Hr' by done. by eexists.
Qed.

Lemma pop_cancel_refines c a e h a' e' :
  chan_rep c a → spec_inv T0 a e → spec_pop_cancel T0 h a e = (a', e') →
  ∃ c', pop_cancel h (mkSys c e) = Done tt (mkSys c' e') ∧ chan_rep c' a'.
Proof.
  intros Hr Hi Es. unfold pop_cancel, spec_pop_cancel in *.
  destruct (cancel_pop_run c a e h Hr) as (c' & E & Hr').
  erewrite bind_done by exact E. case_bool_decide as Hin; simplify_eq.
  - destruct (inv_pop_handles _ _ _ Hi h Hin) as (p & Ep & Hrt & Er).
    exists c'. split; [| done]. unfold pop_set_result, get_pop_handle, complete_pop, on_env.
    run_st. rewrite Ep. run_st. rewrite Er. run_st. rewrite Ep. run_st.
    by destruct (pop_runtime p).
  - rewrite without_notin, set_popq_id in Hr' by done. by eexists.
Qed.

Lemma try_push_refines c a e item r a' e' :
  chan_rep c a → spec_inv T0 a e → spec_try_push item a e = (r, a', e') →
  ∃ c', try_push item (mkSys c e) = Done r (mkSys c' e') ∧ chan_rep c' a'.
Proof.
  intros Hr Hi Es. unfold try_push, spec_try_push in *. rewrite bind_gets. cbn [chan].
  rewrite (rep_closed _ _ Hr). destruct (a_closed a); simplify_eq; [by eexists |].
  destruct (spec_offer item a e) as [[ok a1] e1] eqn:Eo. simplify_eq.
  destruct (try_push_inner_refines c a e item ok a' e' Hr Hi Eo) as (c' & E & Hr').
  erewrite bind_done by exact E. by destruct ok; eexists.
Qed.

Lemma try_pop_refines c a e r a' e' :
  chan_rep c a → spec_inv T0 a e → spec_try_pop T0 a e = (r, a', e') →
  ∃ c', try_pop T0 (mkSys c e) = Done r (mkSys c' e') ∧ chan_rep c' a'.
Proof.
  intros Hr Hi Es. unfold try_pop, spec_try_pop in *.
  destruct (spec_take a e) as [[o a1] e1] eqn:Et. simplify_eq.
  destruct (try_pop_inner_refines c a e o a' e' Hr Hi Et) as (c' & E & Hr').
  destruct (spec_take_inv T0 a e o a' e' Hi Et) as (_ & Hcl & _).
  erewrite bind_done by exact E. rewrite bind_gets. exists c'. split; [| done].
  destruct o; [done |]. cbn [chan]. rewrite (rep_closed _ _ Hr'), Hcl. by destruct (a_closed a).
Qed.

Lemma force_push_refines c a e item fake a' e' :
  chan_rep c a → spec_inv T0 a e → a_closed a = false → push_handles e !! fake = None →
  spec_force_push item fake a e = (a', e') →
  ∃ c', force_push item (Some fake) (mkSys c e) = Done tt (mkSys c' e') ∧ chan_rep c' a'.
Proof.
  intros Hr Hi Hcl Hf Es. unfold force_push, spec_force_push in *. rewrite bind_gets. cbn [chan].
  rewrite (rep_closed _ _ Hr), Hcl.
  destruct (spec_offer item a e) as [[ok a1] e1] eqn:Eo.
  destruct (try_push_inner_refines c a e item ok a1 e1 Hr Hi Eo) as (c1 & E & Hr1).
  destruct (spec_offer_inv T0 item a e ok a1 e1 Hi Hcl Eo) as (Hi1 & _ & Hno).
  erewrite bind_done by exact E. destruct ok; simplify_eq; [by eexists |].
  destruct Hno as (-> & -> & Hpop & _); [done |].
  erewrite bind_done by done. rewrite bind_gets.
  rewrite bind_assert by (cbn [chan]; by rewrite (pop_empty_rep _ _ Hr1), Hpop).
  apply push_back_push; [done |].
  intros ([? ?] & -> & Hin)%list_elem_of_fmap.
  destruct (inv_push_handles _ _ _ Hi _ _ Hin) as (p & Ep & _). simpl in *. congruence.
Qed.

Lemma get_push_handle_run c e h p :
  push_handles e !! h = Some p → get_push_handle h (mkSys (L := L) c e) = Done p (mkSys c e).
Proof. intros E. unfold get_push_handle. run_st. by rewrite E. Qed.

Lemma get_pop_handle_run c e h p :
  pop_handles e !! h = Some p → get_pop_handle h (mkSys (L := L) c e) = Done p (mkSys c e).
Proof. intros E. unfold get_pop_handle. run_st. by rewrite E. Qed.

Lemma push_engage_run c e h p :
  push_handles e !! h = Some p →
  push_engage_stop h (mkSys c e) =
    Done tt (mkSys c (set_push_handle h
      (mkPushHandle (push_runtime p) (push_item p) (push_result p) true) e)).
Proof. intros E. unfold push_engage_stop, get_push_handle. run_st. by rewrite E. Qed.

Lemma pop_engage_run c e h p :
  pop_handles e !! h = Some p →
  pop_engage_stop h (mkSys c e) =
    Done tt (mkSys c (set_pop_handle h (mkPopHandle (pop_runtime p) (pop_result p) true) e)).
Proof. intros E. unfold pop_engage_stop, get_pop_handle. run_st. by rewrite E. Qed.

Lemma push_start_refines c a e h rt item stop a' e' :
  chan_rep c a → spec_inv T0 a e → push_handles e !! h = None →
  spec_push_start h rt item stop a e = (a', e') →
  ∃ c', push_start h rt item stop (mkSys c e) = Done tt (mkSys c' e') ∧ chan_rep c' a'.
Proof.
  intros Hr Hi Hh Es. pose proof (pushq_notin _ _ _ _ Hi Hh) as Hq.
  unfold push_start, spec_push_start in *. erewrite bind_done by done. cbn [chan env].
  set (p0 := mkPushHandle (Some rt) (Some item) (- ENOTRECOVERABLE) false) in *.
  set (e0 := set_push_handle h p0 e) in *.
  assert (spec_inv T0 a e0) as Hi0 by (by apply spec_inv_set_push).
  assert (push_handles e0 !! h = Some p0) as Ep0 by apply lookup_insert_eq.
  unfold request_push_. destruct (a_closed a) eqn:Hcl.
  { simplify_eq. erewrite bind_done by (rewrite bind_gets; cbn [chan]; by rewrite (rep_closed _ _ Hr), Hcl).
    by eexists. }
  destruct (spec_offer item a e0) as [[ok a1] e1] eqn:Eo.
  destruct (try_push_inner_refines c a e0 item ok a1 e1 Hr Hi0 Eo) as (c1 & E1 & Hr1).
  pose proof (spec_offer_pushes _ _ _ _ _ _ Eo) as Hpe.
  destruct (spec_offer_inv T0 item a e0 ok a1 e1 Hi0 Hcl Eo) as (Hi1 & _ & Hno).
  assert (get_push_handle h (mkSys c e0) = Done p0 (mkSys c e0)) as Eg.
  { by apply get_push_handle_run. }
  destruct ok.
  - simplify_eq. assert (push_handles e1 !! h = Some p0) as Ep1 by (by rewrite Hpe).
    erewrite bind_done.
    2: { rewrite bind_gets. cbn [chan]. rewrite (rep_closed _ _ Hr), Hcl.
         erewrite bind_done by exact Eg. cbn [push_item p0]. erewrite bind_done by exact E1. cbv beta iota.
         by erewrite bind_done by (eapply move_push_item_run; [exact Ep1 | done]). }
    by eexists.
  - destruct Hno as (-> & -> & Hpop & Hful); [done |].
    destruct (push_back_push c1 a e0 h item Hr1 Hq) as (c2 & E2 & Hr2).
    erewrite bind_done.
    2: { rewrite bind_gets. cbn [chan]. rewrite (rep_closed _ _ Hr), Hcl.
         erewrite bind_done by exact Eg. cbn [push_item p0]. erewrite bind_done by exact E1.
         cbv beta iota. rewrite bind_gets.
         rewrite bind_assert by (cbn [chan]; by rewrite (pop_empty_rep _ _ Hr1), Hpop).
         by erewrite bind_done by exact E2. }
    simpl. erewrite bind_done by done. cbn [chan env].
    destruct stop; simplify_eq; [by eexists | |].
    + exists c2. split; [| done]. by erewrite push_engage_run by exact Ep0.
    + erewrite bind_done by (eapply push_engage_run, Ep0).
      eapply push_cancel_refines; [exact Hr2 | | | exact Es].
      * eapply spec_inv_block_push; try done; simpl; [| apply lookup_insert_eq | done | done].
        apply spec_inv_set_push; [| done].
        eapply spec_inv_frame; done.
      * eexists. split; [apply lookup_insert_eq | done].
Qed.

Lemma pop_start_refines c a e h rt stop a' e' :
  chan_rep c a → spec_inv T0 a e → pop_handles e !! h = None →
  spec_pop_start T0 h rt stop a e = (a', e') →
  ∃ c', pop_start T0 h rt stop (mkSys c e) = Done tt (mkSys c' e') ∧ chan_rep c' a'.
Proof.
  intros Hr Hi Hh Es. pose proof (popq_notin _ _ _ _ Hi Hh) as Hq.
  unfold pop_start, spec_pop_start in *. erewrite bind_done by done. cbn [chan env].
  set (p0 := mkPopHandle (Some rt) (- ENOTRECOVERABLE, T0) false) in *.
  set (e0 := set_pop_handle h p0 e) in *.
  assert (spec_inv T0 a e0) as Hi0 by (by apply spec_inv_set_pop).
  assert (pop_handles e0 !! h = Some p0) as Ep0 by apply lookup_insert_eq.
  unfold request_pop_.
  destruct (spec_take a e0) as [[r a1] e1] eqn:Et.
  destruct (try_pop_inner_refines c a e0 r a1 e1 Hr Hi0 Et) as (c1 & E1 & Hr1).
  destruct (spec_take_inv T0 a e0 r a1 e1 Hi0 Et) as (Hi1 & Hcl1 & Hno).
  destruct r as [item |].
  { simplify_eq. erewrite bind_done by (by erewrite bind_done by exact E1). by eexists. }
  destruct Hno as (-> & -> & Hpush & Hb); [done |].
  destruct (a_closed a) eqn:Hcl.
  { simplify_eq. erewrite bind_done.
    2: { erewrite bind_done by exact E1. cbv beta iota. rewrite bind_gets.
         rewrite bind_assert by (cbn [chan]; by rewrite (push_empty_rep _ _ Hr1), Hpush).
         cbn [chan]. by rewrite (rep_closed _ _ Hr1), Hcl. }
    by eexists. }
  destruct (push_back_pop c1 a e0 h Hr1 Hq) as (c2 & E2 & Hr2).
  erewrite bind_done.
  2: { erewrite bind_done by exact E1. cbv beta iota. rewrite bind_gets.
       rewrite bind_assert by (cbn [chan]; by rewrite (push_empty_rep _ _ Hr1), Hpush).
       cbn [chan]. rewrite (rep_closed _ _ Hr1), Hcl. by erewrite bind_done by exact E2. }
  simpl. erewrite bind_done by done. cbn [chan env].
  destruct stop; simplify_eq; [by eexists | |].
  - exists c2. split; [| done]. by erewrite pop_engage_run by exact Ep0.
  - erewrite bind_done by (eapply pop_engage_run, Ep0).
    eapply pop_cancel_refines; [exact Hr2 | | exact Es].
    eapply spec_inv_block_pop; try done; simpl; [| apply lookup_insert_eq | done | done].
    apply spec_inv_set_pop; [| done]. eapply spec_inv_frame; done.
Qed.

End refinement.
