(* ===== verification/ChannelProps.v ===== *)
(** * Channels over whole executions

    [ChannelSpec.v] relates single operations to the specification.  This file
    adds closing, resumption and destruction, runs any sequence of operations
    on a channel ([chan_run]), and proves what a user of channels relies on:
    no assertion fails, items come out in the order they went in, every
    operation completes exactly once, closing and destruction leave nothing
    behind. *)

From stdpp Require Import base numbers list gmap sets.
From S2P Require Import Prelude Intrusive Utils Channel ChannelSpec.

Lemma spec_close_inv {T} (T0 : T) (a : AChannel T) e a' e' :
  spec_inv T0 a e → spec_close T0 a e = (a', e') → spec_inv T0 a' e' ∧ a_closed a' = true.
Proof.
  intros Hi Es. unfold spec_close in Es. destruct (a_closed a) eqn:Hcl; simplify_eq; [done |].
  split; [| done]. split; simpl; try done; try constructor; try set_solver. apply Hi.
Qed.

Section close.
Context {T : Type} (T0 : T) {L : Type} `{HandleListLaws L}.
Implicit Types (c : Channel T L) (a : AChannel T) (e : Env T).

Abbreviation fail_pops := (foldl (λ e h, complete_pop h (- EPIPE, T0) e)).
Abbreviation fail_pushes :=
  (foldl (λ e (hx : addr * T), complete_push false hx.1 (- EPIPE) e)).

Lemma fail_pops_pushes q e : push_handles (fail_pops e q) = push_handles e.
Proof. revert e. induction q as [|h q IH]; intros e; [done |]. simpl. by rewrite IH, complete_pop_pushes. Qed.

Lemma cancel_pop_awaiters_run q : ∀ c a e fuel,
  chan_rep c a → a_popq a = q → NoDup q → (q ≠ [] → a_buf a = []) → (length q < fuel)%nat →
  (∀ h, h ∈ q → ∃ p, pop_handles e !! h = Some p ∧ pop_runtime p ≠ None) →
  ∃ c', cancel_pop_awaiters T0 fuel (mkSys c e) = Done tt (mkSys c' (fail_pops e q)) ∧
    chan_rep c' (set_popq [] a).
Proof.
  induction q as [|h q IH]; intros c a e [|fuel] Hr Eq Hnd Hb Hf Hh; simpl in Hf; try lia.
  - exists c. split; [| by rewrite <- Eq, set_popq_id]. simpl.
    destruct Hr as [? Hq ? ? ?]. rewrite Eq in Hq.
    unfold on_pop_awaiters. erewrite bind_done; [| by erewrite zoom_done by (by apply hl_pop_front_nil)].
    by destruct c.
  - apply NoDup_cons in Hnd as [Hn Hnd]. specialize (Hb ltac:(done)).
    destruct (Hh h) as (p & Ep & Hrt); [set_solver |].
    destruct (pop_front_pop c a e h q Hr Eq) as (c1 & E1 & Hr1).
    destruct (IH c1 _ (complete_pop h (- EPIPE, T0) e) fuel Hr1 eq_refl Hnd) as (c2 & E2 & Hr2).
    { done. } { lia. }
    { intros h' Hh'. rewrite complete_pop_ne by set_solver. apply Hh. set_solver. }
    exists c2. split; [| exact Hr2]. simpl. erewrite bind_done by exact E1. cbv beta iota. rewrite bind_gets.
    rewrite bind_assert by (cbn [chan]; by rewrite (empty_rep _ _ Hr1), bool_decide_eq_true_2).
    by erewrite pop_complete_run.
Qed.

Lemma cancel_push_awaiters_run q : ∀ c a e fuel,
  chan_rep c a → a_pushq a = q → NoDup q.*1 →
  (q ≠ [] → Z.of_nat (length (a_buf a)) = a_cap a) → (length q < fuel)%nat →
  (∀ h, h ∈ q.*1 → is_Some (push_handles e !! h)) →
  ∃ c', cancel_push_awaiters fuel (mkSys c e) = Done tt (mkSys c' (fail_pushes e q)) ∧
    chan_rep c' (set_pushq [] a).
Proof.
  induction q as [|[h x] q IH]; intros c a e [|fuel] Hr Eq Hnd Hb Hf Hh; simpl in Hf; try lia.
  - exists c. split; [| by rewrite <- Eq, set_pushq_id]. simpl.
    destruct Hr as [Hq ? ? ? ?]. rewrite Eq in Hq.
    unfold on_push_awaiters. erewrite bind_done; [| by erewrite zoom_done by (by apply hl_pop_front_nil)].
    by destruct c.
  - apply NoDup_cons in Hnd as [Hn Hnd]. specialize (Hb ltac:(done)).
    destruct (Hh h) as (p & Ep); [set_solver |].
    destruct (pop_front_push c a e h x q Hr Eq) as (c1 & E1 & Hr1).
    destruct (IH c1 _ (complete_push false h (- EPIPE) e) fuel Hr1 eq_refl Hnd) as (c2 & E2 & Hr2).
    { done. } { lia. }
    { intros h' Hh'. rewrite complete_push_ne by set_solver. apply Hh. set_solver. }
    exists c2. split; [| exact Hr2]. simpl. erewrite bind_done by exact E1. cbv beta iota. rewrite bind_gets.
    rewrite bind_assert by (cbn [chan]; by rewrite (full_rep _ _ Hr1), bool_decide_eq_true_2).
    by erewrite push_complete_run.
Qed.

Lemma close_refines c a e a' e' :
  chan_rep c a → spec_inv T0 a e → spec_close T0 a e = (a', e') →
  ∃ c', push_close T0 (mkSys c e) = Done tt (mkSys c' e') ∧ chan_rep c' a'.
Proof.
  intros Hr Hi Es. unfold push_close, push_close_inner_, spec_close in *. rewrite bind_get.
  cbn [chan env]. rewrite (rep_closed _ _ Hr). destruct (a_closed a) eqn:Hcl; simplify_eq; [by eexists |].
  set (a1 := mkAChannel (a_cap a) (a_buf a) (a_pushq a) (a_popq a) true).
  set (c1 := mkChannel (push_awaiters_ c) (pop_awaiters_ c) (head_ c) (tail_ c) (buffer_ c) true).
  assert (chan_rep c1 a1) as Hr1 by (destruct Hr; by split).
  erewrite bind_done by done. cbn [chan env].
  destruct (cancel_pop_awaiters_run (a_popq a) c1 a1 e (S (base.size (pop_handles e))) Hr1 eq_refl)
    as (c2 & E2 & Hr2).
  { apply Hi. } { intros Hq. apply (inv_pop_wait _ _ _ Hi Hq). }
  { apply Nat.lt_succ_r, nodup_keys_size; [apply Hi |].
    intros h (p & Ep & _)%(inv_pop_handles _ _ _ Hi). by exists p. }
  { intros h (p & Ep & Hrt & _)%(inv_pop_handles _ _ _ Hi). eauto. }
  assert (∀ h, h ∈ (a_pushq a).*1 → is_Some (push_handles e !! h)) as Hpush.
  { intros h ([h' x] & -> & (p & Ep & _)%(inv_push_handles _ _ _ Hi))%list_elem_of_fmap. by exists p. }
  destruct (cancel_push_awaiters_run (a_pushq a) c2 _ (fail_pops e (a_popq a))
    (S (base.size (push_handles e))) Hr2 eq_refl) as (c3 & E3 & Hr3).
  { apply Hi. } { intros Hq. apply (inv_push_wait _ _ _ Hi Hq). }
  { apply Nat.lt_succ_r. rewrite <- (length_fmap fst). apply nodup_keys_size; [apply Hi | done]. }
  { by rewrite fail_pops_pushes. }
  exists c3. split; [| exact Hr3]. by erewrite bind_done by exact E2.
Qed.

(** A scheduled handle is resumed. *)
Lemma push_invoke_run c e h p rt :
  push_handles e !! h = Some p → push_runtime p = Some rt →
  push_invoke h (mkSys (L := L) c e) = Done tt (mkSys c (spec_invoke (PushWork h) e)).
Proof.
  intros E Ert. unfold push_invoke, get_push_handle, spec_invoke, on_env. run_st. rewrite E. run_st.
  destruct p; simpl in *. by rewrite Ert.
Qed.

Lemma pop_invoke_run c e h p rt :
  pop_handles e !! h = Some p → pop_runtime p = Some rt →
  pop_invoke h (mkSys (L := L) c e) = Done tt (mkSys c (spec_invoke (PopWork h) e)).
Proof.
  intros E Ert. unfold pop_invoke, get_pop_handle, spec_invoke, on_env. run_st. rewrite E. run_st.
  destruct p; simpl in *. by rewrite Ert.
Qed.

(** The destructor empties the ring: every slot is raw storage again. *)
Lemma destruct_loop_run xs : ∀ c a e fuel,
  chan_rep c a → a_buf a = xs → (length xs < fuel)%nat →
  ∃ c', destruct_loop fuel (mkSys c e) = Done tt (mkSys c' e) ∧
    chan_rep c' (mkAChannel (a_cap a) [] (a_pushq a) (a_popq a) (a_closed a)).
Proof.
  induction xs as [|x xs IH]; intros c a e [|fuel] Hr Eb Hf; simpl in Hf; try lia;
    simpl; rewrite bind_gets; cbn [chan]; rewrite (empty_rep _ _ Hr), Eb; simpl.
  - exists c. split; [done |]. rewrite <- Eb. by destruct a.
  - destruct (pop_inner_refines c a e x xs Hr Eb) as (c1 & E1 & Hr1).
    erewrite bind_done by exact E1. apply (IH c1 _ e fuel Hr1 eq_refl). lia.
Qed.

Lemma channel_destroy_refines c a e :
  chan_rep c a → spec_inv T0 a e →
  ∃ c', channel_destroy T0 (mkSys c e) = Done tt (mkSys c' (spec_close T0 a e).2) ∧
    chan_rep c' (mkAChannel (a_cap a) [] [] [] true).
Proof.
  intros Hr Hi. destruct (spec_close T0 a e) as [a1 e1] eqn:Es.
  destruct (close_refines c a e a1 e1 Hr Hi Es) as (c1 & E1 & Hr1).
  destruct (spec_close_inv _ _ _ _ _ Hi Es) as [Hi1 Hcl1].
  destruct (inv_closed _ _ _ Hi1 Hcl1) as [Hpu Hpo].
  unfold channel_destroy, destruct_all_. erewrite bind_done by exact E1. rewrite bind_gets. cbn [chan].
  destruct (destruct_loop_run (a_buf a1) c1 a1 e1 (S (Z.to_nat (size_inner_ c1))) Hr1 eq_refl)
    as (c2 & E2 & Hr2).
  { rewrite (size_rep _ _ Hr1). lia. }
  erewrite bind_done by exact E2. rewrite bind_gets. cbn [chan snd]. exists c2. split.
  - pose proof (rep_ring _ _ Hr2) as [_ _ Hh Ht _ _]. simpl in Ht.
    rewrite Z.add_0_r, wrap_small in Ht by done. unfold assert_. by rewrite Ht, Z.eqb_refl.
  - rewrite Hpu, Hpo, Hcl1 in Hr2. unfold spec_close in Es. by destruct (a_closed a); simplify_eq.
Qed.

End close.

(** ** Executions *)

(** What threads do with a channel; [OpRun i] lets a runtime invoke the [i]-th
    handle scheduled on it, [OpCancelPush]/[OpCancelPop] is the stop callback. *)
Inductive chan_op (T : Type) : Type :=
  | OpTryPush (item : T)
  | OpTryPop
  | OpForcePush (item : T) (fake : addr)
  | OpPush (h : addr) (rt : RuntimeId) (item : T) (stop : stop_state)
  | OpPop (h : addr) (rt : RuntimeId) (stop : stop_state)
  | OpCancelPush (h : addr)
  | OpCancelPop (h : addr)
  | OpClose
  | OpRun (i : nat).
Arguments OpTryPush {T} item.
Arguments OpTryPop {T}.
Arguments OpForcePush {T} item fake.
Arguments OpPush {T} h rt item stop.
Arguments OpPop {T} h rt stop.
Arguments OpCancelPush {T} h.
Arguments OpCancelPop {T} h.
Arguments OpClose {T}.
Arguments OpRun {T} i.

Inductive chan_out (T : Type) : Type :=
  | OutUnit
  | OutPush (r : Z)
  | OutPop (r : Z * T).
Arguments OutUnit {T}.
Arguments OutPush {T} r.
Arguments OutPop {T} r.

Section exec.
Context {T : Type} (T0 : T) {L : Type} `{HandleList L}.
Implicit Types (c : Channel T L) (a : AChannel T) (e : Env T) (s : Sys T L).

Definition exec (op : chan_op T) : ST (Sys T L) (chan_out T) :=
  match op with
  | OpTryPush item => r ← try_push item; mret (OutPush r)
  | OpTryPop => r ← try_pop T0; mret (OutPop r)
  | OpForcePush item fake => force_push item (Some fake);; mret OutUnit
  | OpPush h rt item stop => push_start h rt item stop;; mret OutUnit
  | OpPop h rt stop => pop_start T0 h rt stop;; mret OutUnit
  | OpCancelPush h => push_cancel h;; mret OutUnit
  | OpCancelPop h => pop_cancel h;; mret OutUnit
  | OpClose => push_close T0;; mret OutUnit
  | OpRun i => run_scheduled i;; mret OutUnit
  end.

(** When an operation may be called: [force_push] panics on a closed channel;
    operation states are new objects; a stop callback runs only while it is
    engaged, and only the handle of a [push] has one. *)
Definition op_pre (op : chan_op T) (closed : bool) (e : Env T) : Prop :=
  match op with
  | OpForcePush _ fake => closed = false ∧ push_handles e !! fake = None
  | OpPush h _ _ _ => push_handles e !! h = None
  | OpPop h _ _ => pop_handles e !! h = None
  | OpCancelPush h =>
      ∃ p, push_handles e !! h = Some p ∧ push_stop p = true ∧ push_runtime p ≠ None
  | OpCancelPop h => ∃ p, pop_handles e !! h = Some p ∧ pop_stop p = true
  | OpTryPush _ | OpTryPop | OpClose | OpRun _ => True
  end.

Definition spec_exec (op : chan_op T) (a : AChannel T) (e : Env T)
    : chan_out T * (AChannel T * Env T) :=
  match op with
  | OpTryPush item => let '(r, a', e') := spec_try_push item a e in (OutPush r, (a', e'))
  | OpTryPop => let '(r, a', e') := spec_try_pop T0 a e in (OutPop r, (a', e'))
  | OpForcePush item fake => (OutUnit, spec_force_push item fake a e)
  | OpPush h rt item stop => (OutUnit, spec_push_start h rt item stop a e)
  | OpPop h rt stop => (OutUnit, spec_pop_start T0 h rt stop a e)
  | OpCancelPush h => (OutUnit, spec_push_cancel h a e)
  | OpCancelPop h => (OutUnit, spec_pop_cancel T0 h a e)
  | OpClose => (OutUnit, spec_close T0 a e)
  | OpRun i => (OutUnit, (a, spec_run i e))
  end.

(** Items that join the line of a channel, and items handed to poppers, by one
    operation: the result of a pop that completed at once, or the results of
    the blocked poppers it scheduled. *)
Definition entered (op : chan_op T) (closed : bool) (o : chan_out T) : list T :=
  match op, o with
  | OpTryPush item, OutPush r => if r =? 0 then [item] else []
  | OpForcePush item _, _ => [item]
  | OpPush _ _ item _, _ => if closed then [] else [item]
  | _, _ => []
  end.

Definition handed_now (e e' : Env T) : list T :=
  omap (λ wr, match wr.2 with PopDone r x => if r =? 0 then Some x else None | PushDone _ => None end)
    (drop (length (received e)) (received e')).
Definition handed_blocked (e e' : Env T) : list T :=
  omap (λ rw : RuntimeId * Work,
    match rw.2 with
    | PopWork h =>
        match pop_handles e' !! h with
        | Some p => if (pop_result p).1 =? 0 then Some (pop_result p).2 else None
        | None => None
        end
    | PushWork _ => None
    end) (drop (length (scheduled e)) (scheduled e')).

Definition handed (op : chan_op T) (o : chan_out T) (e e' : Env T) : list T :=
  match op, o with
  | OpTryPop, OutPop (r, x) => if r =? 0 then [x] else []
  | OpPop _ _ _, _ => handed_now e e'
  | OpRun _, _ => []
  | _, _ => handed_blocked e e'
  end.

(** [chan_run allowed N cap ins outs s]: some sequence of allowed operations, each
    called when it may be, leads from a new channel to [s]; [ins] and [outs] are
    the items that entered and that were handed out. *)
Inductive chan_run (allowed : chan_op T → bool) (N cap : Z) : list T → list T → Sys T L → Prop :=
  | chan_run_new : chan_run allowed N cap [] [] (mkSys (channel_new N cap) env_new)
  | chan_run_step ins outs s op o s' :
      chan_run allowed N cap ins outs s →
      allowed op = true →
      op_pre op (closed_ (chan s)) (env s) →
      exec op s = Done o s' →
      chan_run allowed N cap (ins ++ entered op (closed_ (chan s)) o)
        (outs ++ handed op o (env s) (env s')) s'.

(** ** The life of an operation *)

Definition push_rt (e : Env T) (h : addr) : option RuntimeId := push_handles e !! h ≫= push_runtime.
Definition pop_rt (e : Env T) (h : addr) : option RuntimeId := pop_handles e !! h ≫= pop_runtime.

Definition work_rt (e : Env T) (w : Work) : option RuntimeId :=
  match w with PushWork h => push_rt e h | PopWork h => pop_rt e h end.

(** Operations that are blocked or scheduled, each with its runtime. *)
Definition push_tickets (e : Env T) (q : list addr) : list (RuntimeId * Work) :=
  omap (λ h, (λ rt, (rt, PushWork h)) <$> push_rt e h) q.
Definition pop_tickets (e : Env T) (q : list addr) : list (RuntimeId * Work) :=
  omap (λ h, (λ rt, (rt, PopWork h)) <$> pop_rt e h) q.
Definition tickets (pushq popq : list addr) (e : Env T) : list (RuntimeId * Work) :=
  push_tickets e pushq ++ pop_tickets e popq ++ scheduled e.

(** [X]: operations that are being started or resumed right now. *)
Record life (X : list Work) (pushq popq : list addr) (e : Env T) : Prop := {
  life_nodup : NoDup (X ++ (tickets pushq popq e).*2 ++ (received e).*1);
  life_started w : w ∈ X ++ (tickets pushq popq e).*2 ++ (received e).*1 ↔ is_Some (work_rt e w);
  life_sched rt w : (rt, w) ∈ scheduled e → work_rt e w = Some rt;
  life_pending rt :
    pending e rt = u64 (Z.of_nat (length (filter (λ t, t.1 = rt) (tickets pushq popq e))))
}.

End exec.

Section life.
Context {T : Type} (T0 : T).
Implicit Types (a : AChannel T) (e : Env T).

(** A step that only moves operations between the queues and the schedule. *)
Record neutral (q1 q2 : list addr) e (q1' q2' : list addr) e' : Prop := {
  neutral_tickets : tickets q1' q2' e' ≡ₚ tickets q1 q2 e;
  neutral_rt w : work_rt e' w = work_rt e w;
  neutral_sched : Forall (λ t, work_rt e t.2 = Some t.1 ∨ t ∈ scheduled e) (scheduled e');
  neutral_pending : pending_works e' = pending_works e;
  neutral_received : received e' = received e
}.

Lemma neutral_refl q1 q2 e : neutral q1 q2 e q1 q2 e.
Proof. split; try done. apply Forall_forall. auto. Qed.

Lemma neutral_trans q1 q2 e q1' q2' e' q1'' q2'' e'' :
  neutral q1 q2 e q1' q2' e' → neutral q1' q2' e' q1'' q2'' e'' →
  neutral q1 q2 e q1'' q2'' e''.
Proof.
  intros [A1 A2 A3 A4 A5] [B1 B2 B3 B4 B5]. split; try congruence.
  - by rewrite B1.
  - rewrite Forall_forall in *. intros t Ht.
    destruct (B3 t Ht) as [E | Hin]; [left; congruence | by apply A3].
Qed.

Lemma neutral_life X q1 q2 e q1' q2' e' :
  neutral q1 q2 e q1' q2' e' → life X q1 q2 e → life X q1' q2' e'.
Proof.
  intros [A1 A2 A3 A4 A5] [B1 B2 B3 B4]. split.
  - by rewrite A1, A5.
  - intros w. by rewrite A1, A5, A2.
  - intros rt w Hin. rewrite Forall_forall in A3. rewrite A2.
    destruct (A3 _ Hin) as [E | ?]; [done | by apply B3].
  - intros rt. unfold pending. rewrite A4, A1. apply B4.
Qed.

Lemma push_tickets_ext q e e' :
  (∀ h, h ∈ q → push_rt e' h = push_rt e h) → push_tickets e' q = push_tickets e q.
Proof.
  intros E. apply list_omap_ext, Forall_Forall2_diag, Forall_forall. intros h Hh. by rewrite E.
Qed.

Lemma pop_tickets_ext q e e' :
  (∀ h, h ∈ q → pop_rt e' h = pop_rt e h) → pop_tickets e' q = pop_tickets e q.
Proof.
  intros E. apply list_omap_ext, Forall_Forall2_diag, Forall_forall. intros h Hh. by rewrite E.
Qed.

Lemma tickets_ext q1 q2 e e' :
  (∀ w, work_rt e' w = work_rt e w) → scheduled e' = scheduled e →
  tickets q1 q2 e' = tickets q1 q2 e.
Proof.
  intros E Es. unfold tickets. rewrite Es. f_equal; [| f_equal].
  - apply push_tickets_ext. intros h _. apply (E (PushWork h)).
  - apply pop_tickets_ext. intros h _. apply (E (PopWork h)).
Qed.

Lemma push_tickets_app e q q' : push_tickets e (q ++ q') = push_tickets e q ++ push_tickets e q'.
Proof. apply omap_app. Qed.
Lemma pop_tickets_app e q q' : pop_tickets e (q ++ q') = pop_tickets e q ++ pop_tickets e q'.
Proof. apply omap_app. Qed.

Lemma neutral_perm q1 q2 e q1' q2' : q1 ≡ₚ q1' → q2 ≡ₚ q2' → neutral q1 q2 e q1' q2' e.
Proof.
  intros E1 E2. split; try done; [| apply Forall_forall; auto].
  unfold tickets, push_tickets, pop_tickets. by rewrite E1, E2.
Qed.

(** Updating a handle without changing its runtime. *)
Lemma neutral_env q1 q2 e e' :
  (∀ w, work_rt e' w = work_rt e w) → scheduled e' = scheduled e →
  pending_works e' = pending_works e → received e' = received e →
  neutral q1 q2 e q1 q2 e'.
Proof.
  intros Hrt Hs Hp Hr. split; try done; [by rewrite (tickets_ext q1 q2 e e') |].
  rewrite Hs. apply Forall_forall. auto.
Qed.

Lemma complete_push_rt b h r e w : work_rt (complete_push b h r e) w = work_rt e w.
Proof.
  unfold complete_push. destruct (push_handles e !! h) as [p|] eqn:E; [| done].
  destruct w as [h' | h']; [| by destruct (push_runtime p)].
  destruct (push_runtime p) as [rt|] eqn:Er; simpl; unfold push_rt; simpl;
    destruct (decide (h' = h)) as [-> | ?];
    rewrite ?lookup_insert_eq, ?lookup_delete_eq, ?lookup_insert_ne, ?lookup_delete_ne, ?E by done;
    simpl; done.
Qed.

Lemma complete_pop_rt h r e w : work_rt (complete_pop h r e) w = work_rt e w.
Proof.
  unfold complete_pop. destruct (pop_handles e !! h) as [p|] eqn:E; [| done].
  destruct (pop_runtime p) as [rt|] eqn:Er; [| done].
  destruct w as [h' | h']; [done |]. simpl. unfold pop_rt. simpl.
  destruct (decide (h' = h)) as [-> | ?];
    rewrite ?lookup_insert_eq, ?lookup_insert_ne, ?E by done; simpl; done.
Qed.

Lemma complete_push_sched b h r e :
  scheduled (complete_push b h r e) = scheduled e ++ push_tickets e [h].
Proof.
  unfold complete_push, push_tickets, push_rt. simpl.
  destruct (push_handles e !! h) as [p|]; simpl; [| by rewrite app_nil_r].
  destruct (push_runtime p); simpl; [done | by rewrite app_nil_r].
Qed.

Lemma complete_pop_sched h r e :
  scheduled (complete_pop h r e) = scheduled e ++ pop_tickets e [h].
Proof.
  unfold complete_pop, pop_tickets, pop_rt. simpl.
  destruct (pop_handles e !! h) as [p|]; simpl; [| by rewrite app_nil_r].
  destruct (pop_runtime p); simpl; [done | by rewrite app_nil_r].
Qed.

Lemma complete_push_frame b h r e :
  pending_works (complete_push b h r e) = pending_works e ∧
  received (complete_push b h r e) = received e.
Proof. unfold complete_push. by repeat case_match. Qed.
Lemma complete_pop_frame h r e :
  pending_works (complete_pop h r e) = pending_works e ∧
  received (complete_pop h r e) = received e.
Proof. unfold complete_pop. by repeat case_match. Qed.

Lemma push_tickets_rt e q t : t ∈ push_tickets e q → work_rt e t.2 = Some t.1.
Proof.
  intros (h & _ & E)%list_elem_of_omap. destruct (push_rt e h) eqn:Er; simplify_eq/=. done.
Qed.
Lemma pop_tickets_rt e q t : t ∈ pop_tickets e q → work_rt e t.2 = Some t.1.
Proof.
  intros (h & _ & E)%list_elem_of_omap. destruct (pop_rt e h) eqn:Er; simplify_eq/=. done.
Qed.

Lemma complete_push_neutral b h r q1 q2 e :
  neutral (h :: q1) q2 e q1 q2 (complete_push b h r e).
Proof.
  split; try apply complete_push_frame.
  - unfold tickets. rewrite complete_push_sched.
    rewrite (push_tickets_ext _ e), (pop_tickets_ext _ e).
    2: { intros h' _. apply (complete_push_rt b h r e (PopWork h')). }
    2: { intros h' _. apply (complete_push_rt b h r e (PushWork h')). }
    change (h :: q1) with ([h] ++ q1). rewrite push_tickets_app. solve_Permutation.
  - apply complete_push_rt.
  - rewrite complete_push_sched. apply Forall_app. split; apply Forall_forall; [auto |].
    intros t Ht. left. by eapply push_tickets_rt.
Qed.

Lemma complete_pop_neutral h r q1 q2 e :
  neutral q1 (h :: q2) e q1 q2 (complete_pop h r e).
Proof.
  split; try apply complete_pop_frame.
  - unfold tickets. rewrite complete_pop_sched.
    rewrite (push_tickets_ext _ e), (pop_tickets_ext _ e).
    2: { intros h' _. apply (complete_pop_rt h r e (PopWork h')). }
    2: { intros h' _. apply (complete_pop_rt h r e (PushWork h')). }
    change (h :: q2) with ([h] ++ q2). rewrite pop_tickets_app. solve_Permutation.
  - apply complete_pop_rt.
  - rewrite complete_pop_sched. apply Forall_app. split; apply Forall_forall; [auto |].
    intros t Ht. left. by eapply pop_tickets_rt.
Qed.

Lemma without_perm h q : h ∈ q → NoDup q → q ≡ₚ h :: without h q.
Proof.
  intros Hin Hnd. apply NoDup_Permutation; [done | |].
  - apply NoDup_cons. split; [| by apply NoDup_filter]. by intros [_ ?]%elem_of_without.
  - intros h'. rewrite elem_of_cons, elem_of_without. destruct (decide (h' = h)); naive_solver.
Qed.

Abbreviation neut a e a' e' :=
  (neutral (a_pushq a).*1 (a_popq a) e (a_pushq a').*1 (a_popq a') e').
Abbreviation alive X a e := (life X (a_pushq a).*1 (a_popq a) e).

Lemma spec_offer_neutral item a e ok a' e' :
  spec_offer item a e = (ok, a', e') → neut a e a' e'.
Proof.
  unfold spec_offer. intros E. destruct (a_popq a) as [|h hs] eqn:Eq.
  - case_match; simplify_eq; rewrite ?Eq; apply neutral_refl.
  - simplify_eq. apply complete_pop_neutral.
Qed.

Lemma spec_take_neutral a e r a' e' :
  spec_take a e = (r, a', e') → neut a e a' e'.
Proof.
  unfold spec_take. intros E. destruct (a_pushq a) as [|[h x] hs] eqn:Eq;
    destruct (a_buf a); simplify_eq/=; rewrite ?Eq; apply neutral_refl || apply complete_push_neutral.
Qed.

Lemma spec_push_cancel_neutral h a e a' e' :
  NoDup (a_pushq a).*1 → spec_push_cancel h a e = (a', e') → neut a e a' e'.
Proof.
  unfold spec_push_cancel. intros Hnd E. case_bool_decide as Hin; simplify_eq; [| apply neutral_refl].
  simpl. rewrite <- without_fst.
  eapply neutral_trans; [| apply complete_push_neutral]. apply neutral_perm; [| done].
  by apply without_perm.
Qed.

Lemma spec_pop_cancel_neutral h a e a' e' :
  NoDup (a_popq a) → spec_pop_cancel T0 h a e = (a', e') → neut a e a' e'.
Proof.
  unfold spec_pop_cancel. intros Hnd E. case_bool_decide as Hin; simplify_eq; [| apply neutral_refl].
  simpl. eapply neutral_trans; [| apply complete_pop_neutral]. apply neutral_perm; [done |].
  by apply without_perm.
Qed.

Lemma fail_pops_neutral r q1 q2 e :
  neutral q1 q2 e q1 [] (foldl (λ e h, complete_pop h r e) e q2).
Proof.
  revert e. induction q2 as [|h q2 IH]; intros e; [apply neutral_refl |].
  eapply neutral_trans; [apply complete_pop_neutral | apply IH].
Qed.

Lemma fail_pushes_neutral r (q1 : list (addr * T)) q2 e :
  neutral q1.*1 q2 e [] q2 (foldl (λ e hx, complete_push false hx.1 r e) e q1).
Proof.
  revert e. induction q1 as [|[h x] q1 IH]; intros e; [apply neutral_refl |].
  eapply neutral_trans; [apply complete_push_neutral | apply IH].
Qed.

Lemma spec_close_neutral a e a' e' : spec_close T0 a e = (a', e') → neut a e a' e'.
Proof.
  unfold spec_close. intros E. case_match; simplify_eq; [apply neutral_refl |]. simpl.
  eapply neutral_trans; [apply fail_pops_neutral | apply fail_pushes_neutral].
Qed.

(** A new operation state. *)
Lemma life_new e' q1 q2 e w :
  life [] q1 q2 e → work_rt e w = None → is_Some (work_rt e' w) →
  (∀ w', w' ≠ w → work_rt e' w' = work_rt e w') →
  (∀ h, w = PushWork h → h ∉ q1) → (∀ h, w = PopWork h → h ∉ q2) →
  scheduled e' = scheduled e → pending_works e' = pending_works e → received e' = received e →
  life [w] q1 q2 e'.
Proof.
  intros [B1 B2 B3 B4] Hn Hs Hne H1 H2 Es Ep Er.
  assert (tickets q1 q2 e' = tickets q1 q2 e) as Et.
  { unfold tickets. rewrite Es. f_equal; [| f_equal].
    - apply push_tickets_ext. intros h Hh. apply (Hne (PushWork h)). intros <-. by apply (H1 h).
    - apply pop_tickets_ext. intros h Hh. apply (Hne (PopWork h)). intros <-. by apply (H2 h). }
  assert (w ∉ (tickets q1 q2 e).*2 ++ (received e).*1) as Hw.
  { rewrite (B2 w), Hn. by intros [? ?]. }
  split; rewrite ?Et, ?Er, ?Es.
  - by apply NoDup_cons.
  - intros w'. destruct (decide (w' = w)) as [-> | Hd]; [set_solver |].
    rewrite Hne by done. rewrite <- B2. set_solver.
  - intros rt w' Hin. rewrite Hne; [by apply B3 |]. intros ->. specialize (B3 _ _ Hin). congruence.
  - intros rt. unfold pending. rewrite Ep. apply B4.
Qed.

(** The receiver of the operation in flight gets its result. *)
Lemma life_receive q1 q2 e w r : life [w] q1 q2 e → life [] q1 q2 (receive w r e).
Proof.
  intros [B1 B2 B3 B4]. split; simpl; try done.
  - rewrite fmap_app, app_assoc, Permutation_app_comm. exact B1.
  - intros w'. change (work_rt (receive w r e) w') with (work_rt e w'). rewrite <- B2.
    rewrite fmap_app. set_solver.
Qed.

(** The operation in flight blocks. *)
Lemma life_block q1 q2 e w rt q1' q2' :
  life [w] q1 q2 e → work_rt e w = Some rt →
  tickets q1' q2' e ≡ₚ (rt, w) :: tickets q1 q2 e →
  life [] q1' q2' (pend_work_internal rt e).
Proof.
  intros [B1 B2 B3 B4] Hrt Ht.
  assert (tickets q1' q2' (pend_work_internal rt e) = tickets q1' q2' e) as Et by done.
  split; simpl; rewrite ?Et.
  - rewrite Ht. done.
  - intros w'. change (work_rt (pend_work_internal rt e) w') with (work_rt e w').
    rewrite <- B2, Ht. done.
  - done.
  - intros rt'. unfold pending. simpl. rewrite Ht.
    destruct (decide (rt' = rt)) as [-> | Hne].
    + rewrite lookup_insert_eq, filter_cons_True by done. simpl. rewrite B4, wrap_add_l. f_equal. lia.
    + rewrite lookup_insert_ne, filter_cons_False by (simpl; congruence). apply B4.
Qed.

(** A runtime resumes the [i]-th scheduled operation. *)
Lemma life_run q1 q2 e i rt w e' r :
  life [] q1 q2 e → scheduled e !! i = Some (rt, w) →
  (∀ w', work_rt e' w' = work_rt e w') → scheduled e' = delete i (scheduled e) →
  pending_works e' = pending_works e → received e' = received e →
  life [] q1 q2 (receive w r (resume_work_internal rt e')).
Proof.
  intros [B1 B2 B3 B4] Hi Hrt Es Ep Er. apply life_receive.
  assert (tickets q1 q2 e ≡ₚ (rt, w) :: tickets q1 q2 e') as Ht.
  { unfold tickets. rewrite (push_tickets_ext q1 e e'), (pop_tickets_ext q2 e e').
    2: { intros h _. apply (Hrt (PopWork h)). } 2: { intros h _. apply (Hrt (PushWork h)). }
    rewrite Es, (delete_Permutation (scheduled e) i (rt, w) Hi) at 1. solve_Permutation. }
  assert (tickets q1 q2 (resume_work_internal rt e') = tickets q1 q2 e') as Et by done.
  split; simpl; rewrite ?Et, ?Er.
  - rewrite Ht in B1. done.
  - intros w'. change (work_rt (resume_work_internal rt e') w') with (work_rt e' w').
    rewrite Hrt, <- B2, Ht. done.
  - intros rt' w' Hin. change (work_rt (resume_work_internal rt e') w') with (work_rt e' w').
    rewrite Hrt. apply B3. rewrite Es in Hin.
    rewrite (delete_Permutation (scheduled e) i (rt, w) Hi). set_solver.
  - intros rt'. unfold pending. simpl. rewrite Ep. destruct (decide (rt' = rt)) as [-> | Hne].
    + rewrite lookup_insert_eq. simpl. unfold pending. rewrite Ep. fold (pending e rt).
      rewrite B4, Ht, filter_cons_True by done. simpl. rewrite wrap_sub_l. f_equal. lia.
    + rewrite lookup_insert_ne by done. fold (pending e rt').
      rewrite B4, Ht, filter_cons_False by (simpl; congruence). done.
Qed.

Lemma set_push_rt h p e w :
  work_rt (set_push_handle h p e) w = if bool_decide (w = PushWork h) then push_runtime p else work_rt e w.
Proof.
  case_bool_decide as E; [subst; simpl; unfold push_rt; simpl; by rewrite lookup_insert_eq |].
  destruct w as [h' | h']; [| done]. simpl. unfold push_rt. simpl. rewrite lookup_insert_ne; congruence.
Qed.

Lemma set_pop_rt h p e w :
  work_rt (set_pop_handle h p e) w = if bool_decide (w = PopWork h) then pop_runtime p else work_rt e w.
Proof.
  case_bool_decide as E; [subst; simpl; unfold pop_rt; simpl; by rewrite lookup_insert_eq |].
  destruct w as [h' | h']; [done |]. simpl. unfold pop_rt. simpl. rewrite lookup_insert_ne; congruence.
Qed.

Lemma neutral_set_push q1 q2 h p e :
  push_runtime p = push_rt e h → neutral q1 q2 e q1 q2 (set_push_handle h p e).
Proof.
  intros E. apply neutral_env; try done. intros w. rewrite set_push_rt.
  case_bool_decide; [by subst |]. done.
Qed.

Lemma neutral_set_pop q1 q2 h p e :
  pop_runtime p = pop_rt e h → neutral q1 q2 e q1 q2 (set_pop_handle h p e).
Proof.
  intros E. apply neutral_env; try done. intros w. rewrite set_pop_rt.
  case_bool_decide; [by subst |]. done.
Qed.

Lemma life_new_push q1 q2 e h p rt :
  life [] q1 q2 e → push_handles e !! h = None → h ∉ q1 → push_runtime p = Some rt →
  life [PushWork h] q1 q2 (set_push_handle h p e).
Proof.
  intros Hl Hh Hq Hp. eapply life_new; try done.
  - simpl. unfold push_rt. by rewrite Hh.
  - rewrite set_push_rt, bool_decide_eq_true_2 by done. by rewrite Hp.
  - intros w Hw. by rewrite set_push_rt, bool_decide_eq_false_2.
  - by intros ? [= <-].
Qed.

Lemma life_new_pop q1 q2 e h p rt :
  life [] q1 q2 e → pop_handles e !! h = None → h ∉ q2 → pop_runtime p = Some rt →
  life [PopWork h] q1 q2 (set_pop_handle h p e).
Proof.
  intros Hl Hh Hq Hp. eapply life_new; try done.
  - simpl. unfold pop_rt. by rewrite Hh.
  - rewrite set_pop_rt, bool_decide_eq_true_2 by done. by rewrite Hp.
  - intros w Hw. by rewrite set_pop_rt, bool_decide_eq_false_2.
  - by intros ? [= <-].
Qed.

Lemma life_block_push q1 q2 e h rt :
  life [PushWork h] q1 q2 e → push_rt e h = Some rt →
  life [] (q1 ++ [h]) q2 (pend_work_internal rt e).
Proof.
  intros Hl Hrt. eapply life_block; [done | done |]. unfold tickets. rewrite push_tickets_app.
  unfold push_tickets at 2. simpl. rewrite Hrt. simpl. solve_Permutation.
Qed.

Lemma life_block_pop q1 q2 e h rt :
  life [PopWork h] q1 q2 e → pop_rt e h = Some rt →
  life [] q1 (q2 ++ [h]) (pend_work_internal rt e).
Proof.
  intros Hl Hrt. eapply life_block; [done | done |]. unfold tickets. rewrite pop_tickets_app.
  unfold pop_tickets at 2. simpl. rewrite Hrt. simpl. solve_Permutation.
Qed.

(** *** Every operation preserves the two invariants *)

Definition good (a : AChannel T) (e : Env T) : Prop := spec_inv T0 a e ∧ alive [] a e.

Lemma good_neut a e a' e' : good a e → neut a e a' e' → spec_inv T0 a' e' → good a' e'.
Proof. intros [_ Hl] Hn Hi. split; [done |]. by eapply neutral_life. Qed.

Lemma spec_inv_blocked_push a e e' h x p :
  spec_inv T0 a e → a_closed a = false → a_popq a = [] →
  Z.of_nat (length (a_buf a)) = a_cap a → h ∉ (a_pushq a).*1 →
  push_handles e' = <[h := p]> (push_handles e) → pop_handles e' = pop_handles e →
  push_item p = Some x → push_result p = - ENOTRECOVERABLE →
  spec_inv T0 (set_pushq (a_pushq a ++ [(h, x)]) a) e'.
Proof.
  intros Hi Hcl Hp Hf Hh E1 E2 Ex Er.
  eapply spec_inv_block_push; try done; [| by rewrite E1; apply lookup_insert_eq].
  eapply spec_inv_frame; [exact Hi | | by rewrite E2].
  intros h' Hh'. rewrite E1. apply lookup_insert_ne. by intros ->.
Qed.

Lemma spec_inv_blocked_pop a e e' h p :
  spec_inv T0 a e → a_closed a = false → a_pushq a = [] → a_buf a = [] → h ∉ a_popq a →
  pop_handles e' = <[h := p]> (pop_handles e) → push_handles e' = push_handles e →
  pop_runtime p ≠ None → pop_result p = (- ENOTRECOVERABLE, T0) →
  spec_inv T0 (set_popq (a_popq a ++ [h]) a) e'.
Proof.
  intros Hi Hcl Hp Hf Hh E1 E2 Ex Er.
  eapply spec_inv_block_pop; try done; [| by rewrite E1; apply lookup_insert_eq].
  eapply spec_inv_frame; [exact Hi | by rewrite E2 |].
  intros h' Hh'. rewrite E1. apply lookup_insert_ne. by intros ->.
Qed.

Lemma spec_push_start_good h rt item stop a e a' e' :
  good a e → push_handles e !! h = None → spec_push_start h rt item stop a e = (a', e') → good a' e'.
Proof.
  intros [Hi Hl] Hh Es. pose proof (pushq_notin _ _ _ _ Hi Hh) as Hq. unfold spec_push_start in Es.
  set (p0 := mkPushHandle (Some rt) (Some item) (- ENOTRECOVERABLE) false) in *.
  assert (spec_inv T0 a (set_push_handle h p0 e)) as Hi0 by (by apply spec_inv_set_push).
  assert (alive [PushWork h] a (set_push_handle h p0 e)) as Hl0 by (by eapply life_new_push).
  destruct (a_closed a) eqn:Hcl.
  { simplify_eq. split; [eapply spec_inv_frame; done | by apply life_receive]. }
  destruct (spec_offer item a (set_push_handle h p0 e)) as [[ok a1] e1] eqn:Eo.
  pose proof (spec_offer_neutral _ _ _ _ _ _ Eo) as Hn.
  destruct (spec_offer_inv T0 _ _ _ _ _ _ Hi0 Hcl Eo) as (Hi1 & Hcl1 & Hno).
  assert (push_handles e1 !! h = Some p0) as Ep.
  { rewrite (spec_offer_pushes _ _ _ _ _ _ Eo). apply lookup_insert_eq. }
  assert (push_rt e1 h = Some rt) as Ert by (unfold push_rt; by rewrite Ep).
  pose proof (neutral_life _ _ _ _ _ _ _ Hn Hl0) as Hl1.
  destruct ok.
  - simplify_eq. split.
    + eapply (spec_inv_frame _ _ (set_push_handle h _ e1)); [| done | done]. apply spec_inv_set_push; [done |].
      unfold spec_offer in Eo. repeat case_match; simplify_eq/=; done.
    + apply life_receive. eapply neutral_life; [| exact Hl1]. by apply neutral_set_push.
  - destruct Hno as (-> & -> & Hpop & Hf); [done |].
    assert (alive [] (set_pushq (a_pushq a ++ [(h, item)]) a)
      (pend_work_internal rt (set_push_handle h p0 e))) as Hl2.
    { simpl. rewrite fmap_app. by apply life_block_push. }
    destruct stop; simplify_eq.
    + split; [| done]. by eapply (spec_inv_blocked_push a e).
    + split; [eapply (spec_inv_blocked_push a e); simpl; try apply insert_insert_eq; done |].
      eapply neutral_life; [by apply neutral_set_push | done].
    + set (e2 := set_push_handle h _ (pend_work_internal _ _)) in Es.
      assert (good (set_pushq (a_pushq a ++ [(h, item)]) a) e2) as Hg.
      { split; [eapply (spec_inv_blocked_push a e); simpl; try apply insert_insert_eq; done |].
        eapply neutral_life; [by apply neutral_set_push | done]. }
      destruct (spec_push_cancel_inv _ _ _ _ _ _ (proj1 Hg) Es) as [Hi3 _].
      eapply good_neut; [exact Hg | | done]. eapply spec_push_cancel_neutral; [apply Hg | done].
Qed.

Lemma spec_pop_start_good h rt stop a e a' e' :
  good a e → pop_handles e !! h = None → spec_pop_start T0 h rt stop a e = (a', e') → good a' e'.
Proof.
  intros [Hi Hl] Hh Es. pose proof (popq_notin _ _ _ _ Hi Hh) as Hq. unfold spec_pop_start in Es.
  set (p0 := mkPopHandle (Some rt) (- ENOTRECOVERABLE, T0) false) in *.
  assert (spec_inv T0 a (set_pop_handle h p0 e)) as Hi0 by (by apply spec_inv_set_pop).
  assert (alive [PopWork h] a (set_pop_handle h p0 e)) as Hl0 by (by eapply life_new_pop).
  destruct (spec_take a (set_pop_handle h p0 e)) as [[r a1] e1] eqn:Et.
  pose proof (spec_take_neutral _ _ _ _ _ Et) as Hn.
  destruct (spec_take_inv T0 _ _ _ _ _ Hi0 Et) as (Hi1 & Hcl1 & Hno).
  pose proof (neutral_life _ _ _ _ _ _ _ Hn Hl0) as Hl1.
  destruct r as [x |].
  { simplify_eq. split; [by eapply spec_inv_frame | by apply life_receive]. }
  destruct (a_closed a) eqn:Hcl.
  { simplify_eq. split; [by eapply spec_inv_frame | by apply life_receive]. }
  destruct Hno as (-> & -> & Hpush & Hb); [done |].
  assert (pop_rt (set_pop_handle h p0 e) h = Some rt) as Ert.
  { unfold pop_rt. simpl. by rewrite lookup_insert_eq. }
  assert (alive [] (set_popq (a_popq a ++ [h]) a)
    (pend_work_internal rt (set_pop_handle h p0 e))) as Hl2 by (by apply life_block_pop).
  destruct stop; simplify_eq.
  - split; [| done]. by eapply (spec_inv_blocked_pop a e).
  - split; [eapply (spec_inv_blocked_pop a e); simpl; try apply insert_insert_eq; done |].
    eapply neutral_life; [by apply neutral_set_pop | done].
  - set (e2 := set_pop_handle h _ (pend_work_internal _ _)) in Es.
    assert (good (set_popq (a_popq a ++ [h]) a) e2) as Hg.
    { split; [eapply (spec_inv_blocked_pop a e); simpl; try apply insert_insert_eq; done |].
      eapply neutral_life; [by apply neutral_set_pop | done]. }
    destruct (spec_pop_cancel_inv _ _ _ _ _ _ (proj1 Hg) Es) as [Hi3 _].
    eapply good_neut; [exact Hg | | done]. eapply spec_pop_cancel_neutral; [apply Hg | done].
Qed.

Lemma spec_force_push_good item fake a e a' e' :
  good a e → a_closed a = false → push_handles e !! fake = None →
  spec_force_push item fake a e = (a', e') → good a' e'.
Proof.
  intros [Hi Hl] Hcl Hf Es. pose proof (pushq_notin _ _ _ _ Hi Hf) as Hq. unfold spec_force_push in Es.
  destruct (spec_offer item a e) as [[ok a1] e1] eqn:Eo.
  destruct (spec_offer_inv T0 _ _ _ _ _ _ Hi Hcl Eo) as (Hi1 & Hcl1 & Hno).
  destruct ok; simplify_eq.
  { apply (good_neut a e); [by split | by eapply spec_offer_neutral | done]. }
  destruct Hno as (-> & -> & Hpop & Hfull); [done |]. split.
  { by eapply (spec_inv_blocked_push a e). }
  set (e' := set_push_handle _ _ e).
  assert (push_rt e fake = None) as Ern by (unfold push_rt; by rewrite Hf).
  assert (alive [] a e') as Hl'.
  { eapply neutral_life; [| exact Hl]. by apply neutral_set_push. }
  eapply neutral_life; [| exact Hl']. simpl.
  split; try done; [| apply Forall_forall; auto]. unfold tickets.
  rewrite fmap_app, push_tickets_app. unfold push_tickets at 2, push_rt. simpl.
  rewrite lookup_insert_eq. simpl. by rewrite app_nil_r.
Qed.

Lemma spec_run_good i a e : good a e → good a (spec_run i e).
Proof.
  intros [Hi Hl]. unfold spec_run. destruct (scheduled e !! i) as [[rt w]|] eqn:Es; [| by split].
  pose proof (life_sched _ _ _ _ Hl rt w (list_elem_of_lookup_2 _ _ _ Es)) as Hrt.
  destruct w as [h | h]; simpl in *; unfold push_rt, pop_rt in Hrt.
  - destruct (push_handles e !! h) as [[rt' x r st]|] eqn:Eh; simplify_eq/=. split.
    + destruct Hi as [Hpu ? ? ? ? ? ? ?]. split; try done. simpl. intros h' x' Hin.
      destruct (decide (h' = h)) as [-> | ?].
      * rewrite lookup_insert_eq. destruct (Hpu _ _ Hin) as (p & Ep & ? & ?).
        simplify_eq/=. by eexists.
      * rewrite lookup_insert_ne by done. by apply Hpu.
    + eapply life_run; try done. intros w'. rewrite set_push_rt. case_bool_decide; [| done].
      subst. simpl. unfold push_rt. by rewrite Eh.
  - destruct (pop_handles e !! h) as [[rt' r st]|] eqn:Eh; simplify_eq/=. split.
    + destruct Hi as [? Hpo ? ? ? ? ? ?]. split; try done. simpl. intros h' Hin.
      destruct (decide (h' = h)) as [-> | ?].
      * rewrite lookup_insert_eq. destruct (Hpo _ Hin) as (p & Ep & ? & ?).
        simplify_eq/=. by eexists.
      * rewrite lookup_insert_ne by done. by apply Hpo.
    + eapply life_run; try done. intros w'. rewrite set_pop_rt. case_bool_decide; [| done].
      subst. simpl. unfold pop_rt. by rewrite Eh.
Qed.

Lemma spec_exec_good op a e o a' e' :
  good a e → op_pre op (a_closed a) e → spec_exec T0 op a e = (o, (a', e')) → good a' e'.
Proof.
  intros Hg Hpre Es. pose proof Hg as [Hi Hl]. destruct op; simpl in *; simplify_eq.
  - unfold spec_try_push in Es. destruct (a_closed a) eqn:Hcl; simplify_eq/=; [done |].
    destruct (spec_offer item a e) as [[ok a1] e1] eqn:Eo. simplify_eq.
    eapply good_neut; [done | by eapply spec_offer_neutral | by eapply spec_offer_inv].
  - unfold spec_try_pop in Es. destruct (spec_take a e) as [[r a1] e1] eqn:Et. simplify_eq.
    eapply good_neut; [done | by eapply spec_take_neutral | by eapply spec_take_inv].
  - destruct Hpre. by eapply spec_force_push_good.
  - by eapply spec_push_start_good.
  - by eapply spec_pop_start_good.
  - eapply good_neut; [done | eapply spec_push_cancel_neutral; [apply Hi | done] | by eapply spec_push_cancel_inv].
  - eapply good_neut; [done | eapply spec_pop_cancel_neutral; [apply Hi | done] | by eapply spec_pop_cancel_inv].
  - eapply good_neut; [done | by eapply spec_close_neutral | by eapply spec_close_inv].
  - by apply spec_run_good.
Qed.

Lemma good_new (cap : Z) : 0 ≤ cap → good (mkAChannel cap [] [] [] false) env_new.
Proof.
  intros. split; [by apply spec_inv_new |]. split; simpl; try done; [constructor | | set_solver].
  intros [h | h]; split; try set_solver; intros [? E]; done.
Qed.

End life.

(** ** First in, first out *)

(** The line of a channel: buffered items, then the items of blocked pushers. *)
Definition line {T} (a : AChannel T) : list T := a_buf a ++ (a_pushq a).*2.

Section fifo.
Context {T : Type} (T0 : T).
Implicit Types (a : AChannel T) (e : Env T).

Abbreviation fail_pops := (foldl (λ e h, complete_pop h (- EPIPE, T0) e)).
Abbreviation fail_pushes :=
  (foldl (λ e (hx : addr * T), complete_push false hx.1 (- EPIPE) e)).

Lemma fail_pops_sched q e : scheduled (fail_pops e q) = scheduled e ++ pop_tickets e q.
Proof.
  revert e. induction q as [|h q IH]; intros e; [by rewrite app_nil_r |]. simpl.
  rewrite IH, complete_pop_sched, (pop_tickets_ext q e (complete_pop _ _ e)).
  2: { intros h' _. apply (complete_pop_rt h _ e (PopWork h')). }
  rewrite <- app_assoc, <- pop_tickets_app. done.
Qed.

Lemma fail_pushes_sched q e : scheduled (fail_pushes e q) = scheduled e ++ push_tickets e q.*1.
Proof.
  revert e. induction q as [|[h x] q IH]; intros e; [by rewrite app_nil_r |]. simpl.
  rewrite IH, complete_push_sched, (push_tickets_ext _ e (complete_push _ _ _ e)).
  2: { intros h' _. apply (complete_push_rt false h _ e (PushWork h')). }
  rewrite <- app_assoc, <- push_tickets_app. done.
Qed.

Lemma fail_pushes_pops q e : pop_handles (fail_pushes e q) = pop_handles e.
Proof.
  revert e. induction q as [|[h x] q IH]; intros e; [done |]. simpl. by rewrite IH, complete_push_pops.
Qed.

Lemma fail_pops_ne h q e : h ∉ q → pop_handles (fail_pops e q) !! h = pop_handles e !! h.
Proof.
  revert e. induction q as [|h' q IH]; intros e Hh; [done |]. simpl.
  rewrite IH by set_solver. apply complete_pop_ne. set_solver.
Qed.

Lemma fail_pushes_ne h q e : h ∉ q.*1 → push_handles (fail_pushes e q) !! h = push_handles e !! h.
Proof.
  revert e. induction q as [|[h' x] q IH]; intros e Hh; [done |]. simpl in *.
  rewrite IH by set_solver. apply complete_push_ne. set_solver.
Qed.

Lemma fail_pops_result h q e rt p :
  NoDup q → h ∈ q → pop_handles e !! h = Some p → pop_runtime p = Some rt →
  pop_handles (fail_pops e q) !! h = Some (mkPopHandle (Some rt) (- EPIPE, T0) (pop_stop p)).
Proof.
  revert e. induction q as [|h' q IH]; intros e Hnd Hin Hp Hrt; [set_solver |].
  apply NoDup_cons in Hnd as [Hn Hnd]. simpl. destruct (decide (h = h')) as [<- | Hne].
  - rewrite fail_pops_ne by done. unfold complete_pop. rewrite Hp, Hrt. simpl. apply lookup_insert_eq.
  - apply IH; [done | set_solver | by rewrite complete_pop_ne | done].
Qed.

Lemma fail_pushes_result h q e rt p :
  NoDup q.*1 → h ∈ q.*1 → push_handles e !! h = Some p → push_runtime p = Some rt →
  push_handles (fail_pushes e q) !! h
  = Some (mkPushHandle (Some rt) (push_item p) (- EPIPE) (push_stop p)).
Proof.
  revert e. induction q as [|[h' x] q IH]; intros e Hnd Hin Hp Hrt; simpl in *; [set_solver |].
  apply NoDup_cons in Hnd as [Hn Hnd]. simpl. destruct (decide (h = h')) as [<- | Hne].
  - rewrite fail_pushes_ne by done. unfold complete_push. rewrite Hp, Hrt. simpl. apply lookup_insert_eq.
  - apply IH; [done | set_solver | by rewrite complete_push_ne | done].
Qed.

(** What an operation hands to blocked poppers. *)
Lemma handed_none e : handed_blocked e e = [].
Proof. unfold handed_blocked. by rewrite drop_all. Qed.

Lemma handed_suffix e e' ts :
  scheduled e' = scheduled e ++ ts →
  (∀ t, t ∈ ts → match t.2 with
    | PushWork _ => True
    | PopWork h => ∀ p, pop_handles e' !! h = Some p → (pop_result p).1 ≠ 0
    end) →
  handed_blocked e e' = [].
Proof.
  intros Es Hts. unfold handed_blocked. rewrite Es, drop_app_length.
  apply omap_nil. intros [rt [h | h]] Hin; [done |]. specialize (Hts _ Hin). simpl in *.
  destruct (pop_handles e' !! h) as [p|] eqn:Ep; [| done].
  by rewrite (proj2 (Z.eqb_neq _ _)) by (by apply Hts).
Qed.

Lemma push_tickets_suffix e e' q :
  scheduled e' = scheduled e ++ push_tickets e q → handed_blocked e e' = [].
Proof.
  intros Es. eapply handed_suffix; [done |]. intros t (h & _ & E)%list_elem_of_omap.
  destruct (push_rt e h); by simplify_eq/=.
Qed.

Lemma handed_pop e h item p rt :
  pop_handles e !! h = Some p → pop_runtime p = Some rt →
  handed_blocked e (complete_pop h (0, item) e) = [item].
Proof.
  intros Ep Er. unfold handed_blocked. rewrite complete_pop_sched, drop_app_length.
  unfold pop_tickets, pop_rt, complete_pop. simpl. rewrite Ep. simpl. rewrite Er. simpl.
  by rewrite lookup_insert_eq.
Qed.

(** Offering an item: it is handed over, or it joins the buffer, or it stays. *)
Lemma spec_offer_line item a e ok a' e' :
  spec_inv T0 a e → spec_offer item a e = (ok, a', e') →
  handed_blocked e e' ++ line a' = line a ++ (if ok then [item] else []).
Proof.
  intros Hi E. unfold spec_offer in E. destruct (a_popq a) as [|h hs] eqn:Eq.
  - case_match; simplify_eq; rewrite handed_none; unfold line; simpl; [| by rewrite app_nil_r].
    bool_to_prop. assert (a_pushq a = []) as ->.
    { destruct (a_pushq a) eqn:Ep; [done |]. pose proof (inv_push_wait _ _ _ Hi) as Hw.
      rewrite Ep in Hw. specialize (Hw ltac:(done)). lia. }
    simpl. by rewrite !app_nil_r.
  - simplify_eq. destruct (inv_pop_wait _ _ _ Hi) as [Eb Ep]; [by rewrite Eq |].
    destruct (inv_pop_handles _ _ _ Hi h) as (p & Eh & Hrt & _); [rewrite Eq; set_solver |].
    destruct (pop_runtime p) as [rt|] eqn:Er; [| done].
    erewrite handed_pop by done. unfold line. simpl. by rewrite Eb, Ep.
Qed.

(** Taking an item: the head of the line. *)
Lemma spec_take_line a e r a' e' :
  spec_inv T0 a e → spec_take a e = (r, a', e') → line a = option_list r ++ line a'.
Proof.
  intros Hi E. unfold spec_take in E. unfold line.
  destruct (a_pushq a) as [|[h x] hs] eqn:Eq; destruct (a_buf a) as [|y ys] eqn:Eb;
    simplify_eq/=; rewrite ?Eq, ?Eb; try done. by rewrite <- app_assoc.
Qed.

Lemma filter_items_sublist h (q : list (addr * T)) : (filter (λ hx, hx.1 ≠ h) q).*2 `sublist_of` q.*2.
Proof. apply fmap_sublist, sublist_filter. Qed.

Lemma spec_push_cancel_line h a e a' e' :
  spec_push_cancel h a e = (a', e') → handed_blocked e e' = [] ∧ line a' `sublist_of` line a.
Proof.
  unfold spec_push_cancel. intros E. case_bool_decide; simplify_eq; [| by rewrite handed_none].
  split; [| unfold line; simpl; apply sublist_app; [done | apply filter_items_sublist]].
  eapply push_tickets_suffix, complete_push_sched.
Qed.

Lemma spec_pop_cancel_line h a e a' e' :
  spec_inv T0 a e → spec_pop_cancel T0 h a e = (a', e') →
  handed_blocked e e' = [] ∧ line a' = line a.
Proof.
  unfold spec_pop_cancel. intros Hi E. case_bool_decide as Hh; simplify_eq; [| by rewrite handed_none].
  split; [| done]. eapply handed_suffix; [apply complete_pop_sched |].
  intros t (h' & ->%list_elem_of_singleton & Et)%list_elem_of_omap.
  destruct (inv_pop_handles _ _ _ Hi h Hh) as (p & Ep & Hrt & _).
  unfold pop_rt, complete_pop in *. rewrite Ep in *. simpl in Et.
  destruct (pop_runtime p); simplify_eq/=. intros p'. rewrite lookup_insert_eq. by intros [= <-].
Qed.

Lemma spec_close_line a e a' e' :
  spec_inv T0 a e → spec_close T0 a e = (a', e') →
  handed_blocked e e' = [] ∧ line a' `sublist_of` line a.
Proof.
  unfold spec_close. intros Hi E. case_match; simplify_eq; [by rewrite handed_none |].
  split; [| unfold line; simpl; by apply sublist_app; [| apply sublist_nil_l]].
  eapply handed_suffix; [by rewrite fail_pushes_sched, fail_pops_sched, <- app_assoc |].
  intros t [(h & Hh & Et)%list_elem_of_omap | (h & _ & Et)%list_elem_of_omap]%elem_of_app.
  - destruct (inv_pop_handles _ _ _ Hi h Hh) as (p & Ep & Hrt & _).
    unfold pop_rt in Et. rewrite Ep in Et. simpl in Et.
    destruct (pop_runtime p) as [rt|] eqn:Er; simplify_eq/=. intros p'.
    rewrite fail_pushes_pops. erewrite fail_pops_result by (done || apply Hi). by intros [= <-].
  - destruct (push_rt _ h); by simplify_eq/=.
Qed.

Lemma handed_ext e1 e2 e1' e2' :
  scheduled e1 = scheduled e1' → scheduled e2 = scheduled e2' → pop_handles e2 = pop_handles e2' →
  handed_blocked e1 e2 = handed_blocked e1' e2'.
Proof. intros E1 E2 E3. unfold handed_blocked. by rewrite E1, E2, E3. Qed.

(** Without a cancellation or a close no item leaves the line but by a pop. *)
Definition keeps_items (op : chan_op T) : bool :=
  match op with
  | OpPush _ _ _ StopRequested | OpCancelPush _ | OpClose => false
  | _ => true
  end.

Definition line_rel (keeps : bool) (l l' : list T) : Prop :=
  if keeps then l = l' else l `sublist_of` l'.

Lemma spec_push_start_line h rt item stop a e a' e' :
  spec_inv T0 a e → push_handles e !! h = None → spec_push_start h rt item stop a e = (a', e') →
  line_rel (keeps_items (OpPush h rt item stop)) (handed_blocked e e' ++ line a')
    (line a ++ (if a_closed a then [] else [item])).
Proof.
  intros Hi Hh Es. unfold spec_push_start in Es. destruct (a_closed a) eqn:Hcl.
  { simplify_eq. rewrite (handed_ext e _ e e), handed_none, app_nil_r by done. by destruct stop. }
  set (e0 := set_push_handle h _ e) in *.
  destruct (spec_offer item a e0) as [[ok a1] e1] eqn:Eo.
  assert (spec_inv T0 a e0) as Hi0 by (apply spec_inv_set_push; [done | by eapply pushq_notin]).
  pose proof (spec_offer_line _ _ _ _ _ _ Hi0 Eo) as Hline.
  destruct (spec_offer_inv T0 _ _ _ _ _ _ Hi0 Hcl Eo) as (_ & _ & Hno).
  destruct ok; simplify_eq.
  { rewrite (handed_ext e _ e0 e1), Hline by done. by destruct stop. }
  destruct Hno as (-> & -> & _ & _); [done |].
  assert (line (set_pushq (a_pushq a ++ [(h, item)]) a) = line a ++ [item]) as El.
  { unfold line. simpl. by rewrite fmap_app, app_assoc. }
  destruct stop; simplify_eq.
  - rewrite El, (handed_ext e _ e e), handed_none by done. done.
  - rewrite El, (handed_ext e _ e e), handed_none by done. done.
  - destruct (spec_push_cancel_line _ _ _ _ _ Es) as [Hn Hs]. rewrite El in Hs.
    assert (handed_blocked e e' = []) as -> by exact Hn. done.
Qed.

Lemma handed_now_nil e e' : received e' = received e → handed_now e e' = [].
Proof. intros E. unfold handed_now. by rewrite E, drop_all. Qed.

Lemma handed_now_one e e' w r x :
  received e' = received e ++ [(w, PopDone r x)] → handed_now e e' = if r =? 0 then [x] else [].
Proof. intros E. unfold handed_now. rewrite E, drop_app_length. simpl. by destruct (r =? 0). Qed.

Lemma spec_pop_start_line h rt stop a e a' e' :
  spec_inv T0 a e → pop_handles e !! h = None → spec_pop_start T0 h rt stop a e = (a', e') →
  handed_now e e' ++ line a' = line a.
Proof.
  intros Hi Hh Es. unfold spec_pop_start in Es. set (e0 := set_pop_handle h _ e) in *.
  destruct (spec_take a e0) as [[r a1] e1] eqn:Et.
  assert (spec_inv T0 a e0) as Hi0 by (apply spec_inv_set_pop; [done | by eapply popq_notin]).
  pose proof (spec_take_line _ _ _ _ _ Hi0 Et) as Hline.
  pose proof (neutral_received _ _ _ _ _ _ (spec_take_neutral _ _ _ _ _ Et)) as Hrec.
  change (received e0) with (received e) in Hrec.
  destruct r as [x |]; simpl in Hline.
  { simplify_eq. erewrite handed_now_one by (simpl; by rewrite Hrec). done. }
  destruct (a_closed a).
  { simplify_eq. erewrite handed_now_one by (simpl; by rewrite Hrec). done. }
  destruct stop; simplify_eq; [by rewrite handed_now_nil | by rewrite handed_now_nil |].
  destruct (spec_take_inv T0 _ _ _ _ _ Hi0 Et) as (_ & _ & Hno).
  destruct Hno as (-> & -> & Hpush & Hb); [done |].
  unfold spec_pop_cancel in Es. rewrite bool_decide_eq_true_2 in Es by set_solver. simplify_eq.
  rewrite handed_now_nil; [done |].
  match goal with |- received (complete_pop ?h ?r ?e2) = _ => apply (proj2 (complete_pop_frame h r e2)) end.
Qed.

Lemma spec_force_push_line item fake a e a' e' :
  spec_inv T0 a e → a_closed a = false → spec_force_push item fake a e = (a', e') →
  handed_blocked e e' ++ line a' = line a ++ [item].
Proof.
  intros Hi Hcl Es. unfold spec_force_push in Es.
  destruct (spec_offer item a e) as [[ok a1] e1] eqn:Eo.
  pose proof (spec_offer_line _ _ _ _ _ _ Hi Eo) as Hline.
  destruct (spec_offer_inv T0 _ _ _ _ _ _ Hi Hcl Eo) as (_ & _ & Hno).
  destruct ok; simplify_eq; [done |]. destruct Hno as (-> & -> & _ & _); [done |].
  rewrite (handed_ext e _ e e), handed_none by done. unfold line. simpl.
  by rewrite fmap_app, app_assoc.
Qed.

Lemma spec_exec_cap op a e o a' e' :
  spec_exec T0 op a e = (o, (a', e')) → a_cap a' = a_cap a.
Proof.
  assert (∀ item a e ok a' e', spec_offer item a e = (ok, a', e') → a_cap a' = a_cap a) as Ho.
  { unfold spec_offer. intros ? ? ? ? ? ? ?. repeat case_match; by simplify_eq. }
  assert (∀ a e r a' e', spec_take a e = (r, a', e') → a_cap a' = a_cap a) as Ht.
  { unfold spec_take. intros ? ? ? ? ? ?. repeat case_match; by simplify_eq. }
  destruct op; simpl;
    unfold spec_try_push, spec_try_pop, spec_force_push, spec_push_start, spec_pop_start,
      spec_push_cancel, spec_pop_cancel, spec_close; intros E;
    repeat case_match; simplify_eq/=; eauto.
Qed.

Lemma spec_exec_line op a e o a' e' :
  spec_inv T0 a e → op_pre op (a_closed a) e → spec_exec T0 op a e = (o, (a', e')) →
  line_rel (keeps_items op) (handed op o e e' ++ line a') (line a ++ entered op (a_closed a) o).
Proof.
  intros Hi Hpre Es. destruct op; simpl in *; simplify_eq; rewrite ?app_nil_r.
  - unfold spec_try_push in Es. destruct (a_closed a) eqn:Hcl; simplify_eq/=.
    { by rewrite handed_none, app_nil_r. }
    destruct (spec_offer item a e) as [[ok a1] e1] eqn:Eo. simplify_eq/=.
    rewrite (spec_offer_line _ _ _ _ _ _ Hi Eo). by destruct ok.
  - unfold spec_try_pop in Es. destruct (spec_take a e) as [[r a1] e1] eqn:Et. simplify_eq/=.
    rewrite (spec_take_line _ _ _ _ _ Hi Et). destruct r; simpl; [done |].
    by destruct (a_closed a).
  - destruct Hpre. by rewrite (spec_force_push_line _ _ _ _ _ _ Hi) by done.
  - by eapply spec_push_start_line.
  - by erewrite spec_pop_start_line.
  - by edestruct (spec_push_cancel_line h a e) as [-> ?].
  - by edestruct (spec_pop_cancel_line h a e) as [-> ->].
  - by edestruct (spec_close_line a e) as [-> ?].
  - done.
Qed.

End fifo.

(** ** The theorems on executions *)

Section theorems.
Context {T : Type} (T0 : T) {L : Type} `{HandleListLaws L}.
Implicit Types (c : Channel T L) (a : AChannel T) (e : Env T) (s : Sys T L).

Lemma run_scheduled_run c e i q1 q2 :
  life [] q1 q2 e → run_scheduled i (mkSys c e) = Done tt (mkSys c (spec_run i e)).
Proof.
  intros Hl. unfold run_scheduled, spec_run. rewrite bind_get.
  cbn [env]. destruct (scheduled e !! i) as [[rt w]|] eqn:Ei; [| done].
  pose proof (life_sched _ _ _ _ Hl rt w (list_elem_of_lookup_2 _ _ _ Ei)) as Hrt.
  erewrite bind_done by done. destruct w as [h | h]; simpl in Hrt; unfold push_rt, pop_rt in Hrt.
  - destruct (push_handles e !! h) as [p|] eqn:Eh; [| done]. by eapply push_invoke_run.
  - destruct (pop_handles e !! h) as [p|] eqn:Eh; [| done]. by eapply pop_invoke_run.
Qed.

Lemma exec_refines op c a e o a' e' :
  chan_rep c a → good T0 a e → op_pre op (closed_ c) e → spec_exec T0 op a e = (o, (a', e')) →
  ∃ c', exec T0 op (mkSys c e) = Done o (mkSys c' e') ∧ chan_rep c' a'.
Proof.
  intros Hr [Hi Hl] Hpre Es. rewrite (rep_closed _ _ Hr) in Hpre.
  destruct op; simpl in Hpre, Es; unfold exec.
  - destruct (spec_try_push item a e) as [[r a1] e1] eqn:E. simplify_eq.
    destruct (try_push_refines T0 _ _ _ _ _ _ _ Hr Hi E) as (c' & Ec & ?).
    exists c'. by erewrite bind_done by exact Ec.
  - destruct (spec_try_pop T0 a e) as [[r a1] e1] eqn:E. simplify_eq.
    destruct (try_pop_refines T0 _ _ _ _ _ _ Hr Hi E) as (c' & Ec & ?).
    exists c'. by erewrite bind_done by exact Ec.
  - destruct Hpre as [Hcl Hf]. destruct (spec_force_push item fake a e) as [a1 e1] eqn:E. simplify_eq.
    destruct (force_push_refines T0 _ _ _ _ _ _ _ Hr Hi Hcl Hf E) as (c' & Ec & ?).
    exists c'. by erewrite bind_done by exact Ec.
  - destruct (spec_push_start h rt item stop a e) as [a1 e1] eqn:E. simplify_eq.
    destruct (push_start_refines T0 _ _ _ _ _ _ _ _ _ Hr Hi Hpre E) as (c' & Ec & ?).
    exists c'. by erewrite bind_done by exact Ec.
  - destruct (spec_pop_start T0 h rt stop a e) as [a1 e1] eqn:E. simplify_eq.
    destruct (pop_start_refines T0 _ _ _ _ _ _ _ _ Hr Hi Hpre E) as (c' & Ec & ?).
    exists c'. by erewrite bind_done by exact Ec.
  - destruct Hpre as (p & Ep & _ & Hrt). destruct (spec_push_cancel h a e) as [a1 e1] eqn:E. simplify_eq.
    destruct (push_cancel_refines T0 _ _ _ _ _ _ Hr Hi (ex_intro _ p (conj Ep Hrt)) E) as (c' & Ec & ?).
    exists c'. by erewrite bind_done by exact Ec.
  - destruct (spec_pop_cancel T0 h a e) as [a1 e1] eqn:E. simplify_eq.
    destruct (pop_cancel_refines T0 _ _ _ _ _ _ Hr Hi E) as (c' & Ec & ?).
    exists c'. by erewrite bind_done by exact Ec.
  - destruct (spec_close T0 a e) as [a1 e1] eqn:E. simplify_eq.
    destruct (close_refines T0 _ _ _ _ _ Hr Hi E) as (c' & Ec & ?).
    exists c'. by erewrite bind_done by exact Ec.
  - simplify_eq. exists c. split; [| done]. by erewrite bind_done by (by eapply run_scheduled_run).
Qed.

(** Every reached state represents a state of the specification that satisfies
    its invariants. *)
Lemma chan_run_good allowed N cap ins outs s :
  0 ≤ cap ≤ 2 ^ 63 → chan_run T0 allowed N cap ins outs s →
  ∃ a, chan_rep (chan s) a ∧ good T0 a (env s) ∧
    a_cap a = (if cap =? 0 then 0 else bit_ceil cap) ∧ outs ++ line a `sublist_of` ins ∧
    ((∀ op, allowed op = true → keeps_items op = true) → outs ++ line a = ins).
Proof.
  intros Hcap. induction 1 as [| ins outs s op o s' Hrun (a & Hr & Hg & Ecap & Hl & Hkl) Hall Hpre E].
  - eexists. split_and!; [by apply chan_rep_new | apply good_new | done | done | done].
    case_match; [done |]. bool_to_prop. pose proof (is_pow2_pos _ (bit_ceil_pow2 cap)). lia.
  - destruct s as [c e]. cbn [chan env] in *.
    destruct (spec_exec T0 op a e) as [o' [a' e']] eqn:Es.
    destruct (exec_refines op c a e o' a' e' Hr Hg Hpre Es) as (c' & E' & Hr').
    rewrite E in E'. simplify_eq. cbn [chan env]. rewrite (rep_closed _ _ Hr) in *.
    pose proof (spec_exec_line _ _ _ _ _ _ _ (proj1 Hg) Hpre Es) as Hline.
    exists a'. rewrite <- app_assoc. split_and!; [done | by eapply spec_exec_good | | |].
    + by rewrite (spec_exec_cap _ _ _ _ _ _ _ Es).
    + trans (outs ++ line a ++ entered op (a_closed a) o').
      { apply sublist_app; [done |]. unfold line_rel in Hline. case_match; [by rewrite Hline | done]. }
      rewrite app_assoc. by apply sublist_app.
    + intros Hk. rewrite (Hk _ Hall) in Hline. simpl in Hline. rewrite Hline, app_assoc. by rewrite Hkl.
Qed.

(** Invoke the [n] longest-scheduled handles. *)
Fixpoint drain_runs (n : nat) : ST (Sys T L) unit :=
  match n with
  | O => mret tt
  | S n => exec T0 (OpRun 0);; drain_runs n
  end.

Lemma spec_run_rt i e w q1 q2 : life [] q1 q2 e → work_rt (spec_run i e) w = work_rt e w.
Proof.
  intros Hl. unfold spec_run. destruct (scheduled e !! i) as [[rt w']|] eqn:Es; [| done].
  pose proof (life_sched _ _ _ _ Hl rt w' (list_elem_of_lookup_2 _ _ _ Es)) as Hrt.
  destruct w' as [h | h]; simpl in *; unfold push_rt, pop_rt in Hrt.
  - destruct (push_handles e !! h) as [[rt' x r st]|] eqn:Eh; simplify_eq/=.
    trans (work_rt (set_push_handle h (mkPushHandle (Some rt) x r false) e) w); [done |].
    rewrite set_push_rt. case_bool_decide; [| done]. subst. simpl. unfold push_rt. by rewrite Eh.
  - destruct (pop_handles e !! h) as [[rt' r st]|] eqn:Eh; simplify_eq/=.
    trans (work_rt (set_pop_handle h (mkPopHandle (Some rt) r false) e) w); [done |].
    rewrite set_pop_rt. case_bool_decide; [| done]. subst. simpl. unfold pop_rt. by rewrite Eh.
Qed.

Lemma spec_run_sched i e q1 q2 :
  life [] q1 q2 e → scheduled (spec_run i e) = delete i (scheduled e).
Proof.
  intros Hl. unfold spec_run. destruct (scheduled e !! i) as [[rt w']|] eqn:Es.
  - pose proof (life_sched _ _ _ _ Hl rt w' (list_elem_of_lookup_2 _ _ _ Es)) as Hrt.
    destruct w' as [h | h]; simpl in *; unfold push_rt, pop_rt in Hrt.
    + by destruct (push_handles e !! h) as [[rt' x r st]|] eqn:Eh; simplify_eq/=.
    + by destruct (pop_handles e !! h) as [[rt' r st]|] eqn:Eh; simplify_eq/=.
  - apply lookup_ge_None in Es. rewrite delete_take_drop, take_ge, drop_ge by lia. by rewrite app_nil_r.
Qed.

Lemma drain_runs_run n : ∀ c a e,
  good T0 a e → length (scheduled e) = n →
  ∃ e', drain_runs n (mkSys c e) = Done tt (mkSys c e') ∧ good T0 a e' ∧ scheduled e' = [] ∧
    ∀ w, work_rt e' w = work_rt e w.
Proof.
  induction n as [|n IH]; intros c a e Hg Hn.
  - exists e. split_and!; try done. by destruct (scheduled e).
  - pose proof Hg as [_ Hl]. pose proof (spec_run_sched 0 e _ _ Hl) as Es.
    destruct (IH c a (spec_run 0 e)) as (e' & E & Hg' & Hs & Hrt).
    { by apply spec_run_good. } { rewrite Es. destruct (scheduled e); simplify_eq/=. done. }
    exists e'. split_and!; [| done | done |].
    + simpl. erewrite bind_done; [exact E |]. by erewrite bind_done by (by eapply run_scheduled_run).
    + intros w. rewrite Hrt. by eapply spec_run_rt.
Qed.

(** C1. Refinement: from every state that some sequence of channel operations
    reaches, each further operation returns normally (no assertion fails, no
    null pointer or empty slot is accessed, no loop runs out of fuel) with the
    result, the scheduled handles, the pending-work counters and the completions
    the bounded-queue specification prescribes, in a state that again represents
    the specified one. *)
Theorem channel_refines_queue allowed N cap ins outs s :
  0 ≤ cap ≤ 2 ^ 63 → chan_run T0 allowed N cap ins outs s →
  ∃ a, chan_rep (chan s) a ∧ spec_inv T0 a (env s) ∧
    a_cap a = (if cap =? 0 then 0 else bit_ceil cap) ∧
    ∀ op, op_pre op (closed_ (chan s)) (env s) →
      ∃ c', exec T0 op s
            = Done (spec_exec T0 op a (env s)).1 (mkSys c' (spec_exec T0 op a (env s)).2.2) ∧
        chan_rep c' (spec_exec T0 op a (env s)).2.1.
Proof.
  intros Hcap Hrun. destruct (chan_run_good _ _ _ _ _ _ Hcap Hrun) as (a & Hr & Hg & Ecap & _).
  exists a. split_and!; [done | apply Hg | done |]. intros op Hpre. destruct s as [c e].
  cbn [chan env] in *. destruct (spec_exec T0 op a e) as [o [a' e']] eqn:Es.
  by eapply exec_refines.
Qed.

(** First in, first out: for every execution from a new channel, the items
    handed to poppers followed by the items still in the line (the buffer, then
    the blocked pushers) form a subsequence of the items that entered, in the
    order they entered; nothing is invented, duplicated or reordered.  When no
    push was cancelled and the channel was not closed, nothing is missing
    either. *)
Theorem channel_fifo allowed N cap ins outs s :
  0 ≤ cap ≤ 2 ^ 63 → chan_run T0 allowed N cap ins outs s →
  ∃ a, chan_rep (chan s) a ∧ outs ++ line a `sublist_of` ins ∧
    ((∀ op, allowed op = true → keeps_items op = true) → outs ++ line a = ins).
Proof.
  intros Hcap Hrun. destruct (chan_run_good _ _ _ _ _ _ Hcap Hrun) as (a & Hr & _ & _ & Hl & Hk).
  by exists a.
Qed.

(** C8. Exactly once: in every reached state each started push or pop is in
    exactly one place: blocked in its waiter list, scheduled on its runtime, or
    completed with its receiver called once; and the pending-work counter of
    each runtime is the number of its operations that are blocked or scheduled. *)
Theorem channel_exactly_once allowed N cap ins outs s :
  0 ≤ cap ≤ 2 ^ 63 → chan_run T0 allowed N cap ins outs s →
  ∃ q1 q2, hl_rep (push_awaiters_ (chan s)) q1 ∧ hl_rep (pop_awaiters_ (chan s)) q2 ∧
    life [] q1 q2 (env s).
Proof.
  intros Hcap Hrun. destruct (chan_run_good _ _ _ _ _ _ Hcap Hrun) as (a & Hr & [_ Hl] & _).
  exists (a_pushq a).*1, (a_popq a). split_and!; [apply Hr | apply Hr | done].
Qed.

(** Bounds and no lost wakeup: the buffer never holds more than its capacity;
    a pop is blocked only while no item is available, a push only while the
    buffer is full, and after a close nothing is blocked. *)
Theorem channel_waiting_justified allowed N cap ins outs s :
  0 ≤ cap ≤ 2 ^ 63 → chan_run T0 allowed N cap ins outs s →
  0 ≤ size (chan s) ≤ capacity (chan s) ∧
  capacity (chan s) = (if cap =? 0 then 0 else bit_ceil cap) ∧
  (hl_empty (pop_awaiters_ (chan s)) = false →
    size (chan s) = 0 ∧ hl_empty (push_awaiters_ (chan s)) = true) ∧
  (hl_empty (push_awaiters_ (chan s)) = false → size (chan s) = capacity (chan s)) ∧
  (is_closed (chan s) = true →
    hl_empty (push_awaiters_ (chan s)) = true ∧ hl_empty (pop_awaiters_ (chan s)) = true).
Proof.
  intros Hcap Hrun. destruct (chan_run_good _ _ _ _ _ _ Hcap Hrun) as (a & Hr & [Hi _] & Ecap & _).
  unfold size, is_closed. rewrite (size_rep _ _ Hr), (rep_cap _ _ Hr), (rep_closed _ _ Hr),
    (pop_empty_rep _ _ Hr), (push_empty_rep _ _ Hr).
  split_and!; [lia | apply Hi | done | | |].
  - intros Hq%bool_decide_eq_false. destruct (inv_pop_wait _ _ _ Hi Hq) as [-> Hp].
    by rewrite Hp.
  - intros Hq%bool_decide_eq_false. apply (inv_push_wait _ _ _ Hi Hq).
  - intros [-> ->]%(inv_closed _ _ _ Hi). done.
Qed.

(** Closing: [push_close] returns, empties both waiter lists and schedules
    the blocked poppers and then the blocked pushers, in waiting order; every
    one of them has the result [-EPIPE] and a blocked pusher keeps its item.
    The buffered items stay. *)
Theorem channel_close allowed N cap ins outs s :
  0 ≤ cap ≤ 2 ^ 63 → chan_run T0 allowed N cap ins outs s → is_closed (chan s) = false →
  ∃ q1 q2 s', hl_rep (push_awaiters_ (chan s)) q1 ∧ hl_rep (pop_awaiters_ (chan s)) q2 ∧
    push_close T0 s = Done tt s' ∧ is_closed (chan s') = true ∧ size (chan s') = size (chan s) ∧
    hl_rep (push_awaiters_ (chan s')) [] ∧ hl_rep (pop_awaiters_ (chan s')) [] ∧
    scheduled (env s') = scheduled (env s) ++ pop_tickets (env s) q2 ++ push_tickets (env s) q1 ∧
    (∀ h p, h ∈ q2 → pop_handles (env s) !! h = Some p →
       pop_result <$> pop_handles (env s') !! h = Some (- EPIPE, T0)) ∧
    (∀ h p, h ∈ q1 → push_handles (env s) !! h = Some p → push_runtime p ≠ None →
       (λ p', (push_result p', push_item p')) <$> push_handles (env s') !! h
       = Some (- EPIPE, push_item p)).
Proof.
  intros Hcap Hrun Hcl. destruct (chan_run_good _ _ _ _ _ _ Hcap Hrun) as (a & Hr & [Hi _] & _).
  unfold is_closed in Hcl. rewrite (rep_closed _ _ Hr) in Hcl. destruct s as [c e]. cbn [chan env] in *.
  destruct (spec_close T0 a e) as [a' e'] eqn:Es.
  destruct (close_refines T0 c a e a' e' Hr Hi Es) as (c' & Ec & Hr').
  unfold spec_close in Es. rewrite Hcl in Es. simplify_eq.
  exists (a_pushq a).*1, (a_popq a). eexists. cbn [chan env].
  split_and!; [apply Hr | apply Hr | exact Ec | apply Hr' | | apply Hr' | apply Hr' | | |]; cbn [chan env].
  - unfold size. by rewrite (size_rep _ _ Hr), (size_rep _ _ Hr').
  - rewrite fail_pushes_sched, fail_pops_sched, <- app_assoc. do 2 f_equal.
    apply push_tickets_ext. intros h _. unfold push_rt. by rewrite fail_pops_pushes.
  - intros h p Hh Ep. destruct (inv_pop_handles _ _ _ Hi h Hh) as (p' & Ep' & Hrt & _). simplify_eq.
    destruct (pop_runtime p) as [rt|] eqn:Er; [| done]. rewrite fail_pushes_pops.
    by erewrite fail_pops_result by (done || apply Hi).
  - intros h p Hh Ep Hrt. destruct (push_runtime p) as [rt|] eqn:Er; [| done].
    erewrite fail_pushes_result; [done | apply Hi | done | by rewrite fail_pops_pushes | done].
Qed.

(** C20. Completion of everything: closing the channel and then running the
    handles it scheduled gives every operation that was ever started exactly one
    completion and brings every pending-work counter back to zero. *)
Theorem channel_close_completes_all allowed N cap ins outs s :
  0 ≤ cap ≤ 2 ^ 63 → chan_run T0 allowed N cap ins outs s →
  ∃ s1 s2, push_close T0 s = Done tt s1 ∧
    drain_runs (length (scheduled (env s1))) s1 = Done tt s2 ∧
    NoDup (received (env s2)).*1 ∧
    (∀ w, w ∈ (received (env s2)).*1 ↔ is_Some (work_rt (env s) w)) ∧
    (∀ rt, pending (env s2) rt = 0).
Proof.
  intros Hcap Hrun. destruct (chan_run_good _ _ _ _ _ _ Hcap Hrun) as (a & Hr & Hg & _).
  destruct s as [c e]. cbn [chan env] in *. pose proof Hg as [Hi _].
  destruct (spec_close T0 a e) as [a1 e1] eqn:Es.
  destruct (close_refines T0 c a e a1 e1 Hr Hi Es) as (c1 & Ec & Hr1).
  destruct (spec_close_inv _ _ _ _ _ Hi Es) as [Hi1 Hcl1].
  pose proof (spec_close_neutral T0 _ _ _ _ Es) as Hn.
  assert (good T0 a1 e1) as Hg1 by (by eapply good_neut).
  destruct (inv_closed _ _ _ Hi1 Hcl1) as [Hq1 Hq2].
  destruct (drain_runs_run _ c1 a1 e1 Hg1 eq_refl) as (e2 & Ed & [_ [L1 L2 L3 L4]] & Hs2 & Hrt).
  rewrite Hq1, Hq2 in *. unfold tickets in *. rewrite Hs2 in *. simpl in *.
  eexists _, _. split_and!; [exact Ec | exact Ed | done | | done].
  intros w. cbn [env]. rewrite L2, Hrt. by rewrite (neutral_rt _ _ _ _ _ _ Hn).
Qed.

(** [n] calls of [try_pop]. *)
Fixpoint try_pops (n : nat) : ST (Sys T L) (list (Z * T)) :=
  match n with
  | O => mret []
  | S n => r ← try_pop T0; rs ← try_pops n; mret (r :: rs)
  end.

Lemma try_pops_closed xs : ∀ c a e,
  chan_rep c a → spec_inv T0 a e → a_closed a = true → a_buf a = xs →
  ∃ c', try_pops (length xs) (mkSys c e) = Done (pair 0 <$> xs) (mkSys c' e) ∧
    chan_rep c' (mkAChannel (a_cap a) [] [] [] true).
Proof.
  induction xs as [|x xs IH]; intros c a e Hr Hi Hcl Eb;
    destruct (inv_closed _ _ _ Hi Hcl) as [Hpu Hpo].
  - exists c. split; [done |]. destruct a; simpl in *. by subst.
  - destruct (spec_take a e) as [[r a1] e1] eqn:Et.
    assert (spec_try_pop T0 a e
      = ((0, x), mkAChannel (a_cap a) xs [] [] true, e)) as Es.
    { unfold spec_try_pop, spec_take. rewrite Hpu, Eb, Hpo, Hcl. done. }
    destruct (try_pop_refines T0 c a e _ _ _ Hr Hi Es) as (c1 & E1 & Hr1).
    destruct (IH c1 _ e Hr1) as (c2 & E2 & Hr2); [| done | done |].
    { destruct Hi as [? ? ? ? ? ? Hs ?]. rewrite Eb in Hs. simpl in Hs.
      split; simpl; try done; try constructor; try set_solver. lia. }
    exists c2. split; [| done]. simpl. erewrite bind_done by exact E1.
    by erewrite bind_done by exact E2.
Qed.

(** A closed channel drains: popping as many times as there are buffered
    items returns those items in order, each with 0; after that every pop gives
    [-EPIPE], as does every push. *)
Theorem channel_closed_drains allowed N cap ins outs s :
  0 ≤ cap ≤ 2 ^ 63 → chan_run T0 allowed N cap ins outs s → is_closed (chan s) = true →
  ∃ xs s', Z.of_nat (length xs) = size (chan s) ∧ outs ++ xs `sublist_of` ins ∧
    try_pops (length xs) s = Done (pair 0 <$> xs) s' ∧
    try_pop T0 s' = Done (- EPIPE, T0) s' ∧
    ∀ item, try_push item s' = Done (- EPIPE) s'.
Proof.
  intros Hcap Hrun Hcl. destruct (chan_run_good _ _ _ _ _ _ Hcap Hrun) as (a & Hr & [Hi _] & _ & Hl & _).
  unfold is_closed in Hcl. rewrite (rep_closed _ _ Hr) in Hcl. destruct s as [c e]. cbn [chan env] in *.
  destruct (try_pops_closed (a_buf a) c a e Hr Hi Hcl eq_refl) as (c1 & E1 & Hr1).
  destruct (inv_closed _ _ _ Hi Hcl) as [Hpu _].
  unfold line in Hl. rewrite Hpu, app_nil_r in Hl.
  exists (a_buf a), (mkSys c1 e). split_and!; [| done | exact E1 | |].
  - unfold size. by rewrite (size_rep _ _ Hr).
  - unfold try_pop, try_pop_inner_. run_st. rewrite (push_empty_rep _ _ Hr1), (empty_rep _ _ Hr1).
    simpl. by rewrite (rep_closed _ _ Hr1).
  - intros item. unfold try_push. run_st. by rewrite (rep_closed _ _ Hr1).
Qed.

(** C21. Destruction: [~Channel] returns from every reached state; it completes
    the blocked operations as a close does, and every slot of the buffer is raw
    storage afterwards, so each item that was constructed in the ring has been
    destroyed. *)
Theorem channel_destroy_releases allowed N cap ins outs s :
  0 ≤ cap ≤ 2 ^ 63 → chan_run T0 allowed N cap ins outs s →
  ∃ s1 s2, push_close T0 s = Done tt s1 ∧ channel_destroy T0 s = Done tt s2 ∧ env s2 = env s1 ∧
    hl_rep (push_awaiters_ (chan s2)) [] ∧ hl_rep (pop_awaiters_ (chan s2)) [] ∧
    ∀ i, 0 ≤ i < capacity (chan s2) → storage_ (buffer_ (chan s2)) !! Z.to_nat i = Some None.
Proof.
  intros Hcap Hrun. destruct (chan_run_good _ _ _ _ _ _ Hcap Hrun) as (a & Hr & [Hi _] & _).
  destruct s as [c e]. cbn [chan env] in *.
  destruct (spec_close T0 a e) as [a1 e1] eqn:Es.
  destruct (close_refines T0 c a e a1 e1 Hr Hi Es) as (c1 & Ec & Hr1).
  destruct (channel_destroy_refines T0 c a e Hr Hi) as (c2 & E2 & Hr2).
  exists (mkSys c1 e1), (mkSys c2 e1). rewrite Es in E2. cbn [chan env snd] in *.
  split_and!; [exact Ec | exact E2 | done | apply Hr2 | apply Hr2 |].
  intros i Hr'. pose proof (rep_ring _ _ Hr2) as Hring. simpl in Hring.
  unfold capacity in Hr'. set (cp := capacity_ (buffer_ c2)) in *.
  pose proof (ring_slots _ _ _ _ Hring ((i - head_ c2) mod cp)) as Hsl.
  rewrite Zplus_mod_idemp_r in Hsl. replace (head_ c2 + (i - head_ c2)) with i in Hsl by lia.
  rewrite (Z.mod_small i) in Hsl by done. rewrite Hsl; [by rewrite lookup_nil |].
  apply Z.mod_pos_bound. lia.
Qed.

(** Cancellation: the stop callback of a push that is still blocked takes it
    out of the line and schedules it once with [-ECANCELED]; its item has not
    been moved and the other waiters keep their order.  When the push is no
    longer blocked the callback changes nothing. *)
Theorem channel_cancel_push allowed N cap ins outs s h p rt :
  0 ≤ cap ≤ 2 ^ 63 → chan_run T0 allowed N cap ins outs s →
  push_handles (env s) !! h = Some p → push_runtime p = Some rt →
  ∃ q s', hl_rep (push_awaiters_ (chan s)) q ∧ push_cancel h s = Done tt s' ∧
    hl_rep (push_awaiters_ (chan s')) (without h q) ∧
    (h ∉ q → env s' = env s) ∧
    (h ∈ q →
      push_item p ≠ None ∧
      push_handles (env s') = <[h := mkPushHandle (Some rt) (push_item p) (- ECANCELED) (push_stop p)]>
        (push_handles (env s)) ∧
      scheduled (env s') = scheduled (env s) ++ [(rt, PushWork h)]).
Proof.
  intros Hcap Hrun Ep Er. destruct (chan_run_good _ _ _ _ _ _ Hcap Hrun) as (a & Hr & [Hi _] & _).
  destruct s as [c e]. cbn [chan env] in *. destruct (spec_push_cancel h a e) as [a' e'] eqn:Es.
  destruct (push_cancel_refines T0 c a e h a' e' Hr Hi) as (c' & Ec & Hr'); [| done |].
  { exists p. by rewrite Er. }
  exists (a_pushq a).*1, (mkSys c' e'). unfold spec_push_cancel in Es. cbn [chan env].
  case_bool_decide as Hin; simplify_eq.
  - split_and!; [apply Hr | done | | done |].
    + rewrite without_fst. apply Hr'.
    + intros _. unfold complete_push. rewrite Ep, Er. split_and!; [| done | done].
      apply list_elem_of_fmap in Hin as ([h' x] & -> & Hin).
      destruct (inv_push_handles _ _ _ Hi _ _ Hin) as (p' & Ep' & Ex & _). simplify_eq/=. by rewrite Ex.
  - split_and!; [apply Hr | done | | done | done]. rewrite without_notin by done. apply Hr'.
Qed.

End theorems.

(** ** Concrete executions *)

#[export] Instance op_pre_dec {T} (op : chan_op T) closed e : Decision (op_pre op closed e).
Proof.
  destruct op; simpl; try apply _.
  - destruct (push_handles e !! h) as [p|]; [| right; by intros (? & ? & _)].
    destruct (decide (push_stop p = true ∧ push_runtime p ≠ None)); [left; eauto | right].
    by intros (? & [= <-] & ?).
  - destruct (pop_handles e !! h) as [p|]; [| right; by intros (? & ? & _)].
    destruct (decide (pop_stop p = true)); [left; eauto | right].
    by intros (? & [= <-] & ?).
Defined.

Section concrete.
Context {T : Type} (T0 : T) {L : Type} `{HandleList L}.

Fixpoint run_from (allowed : chan_op T → bool) (ops : list (chan_op T)) (ins outs : list T)
    (s : Sys T L) : option (list T * list T * Sys T L) :=
  match ops with
  | [] => Some (ins, outs, s)
  | op :: ops =>
      if allowed op && bool_decide (op_pre op (closed_ (chan s)) (env s)) then
        match exec T0 op s with
        | Done o s' =>
            run_from allowed ops (ins ++ entered op (closed_ (chan s)) o)
              (outs ++ handed op o (env s) (env s')) s'
        | _ => None
        end
      else None
  end.

Lemma run_from_sound allowed N cap ops : ∀ ins outs s ins' outs' s',
  chan_run T0 allowed N cap ins outs s → run_from allowed ops ins outs s = Some (ins', outs', s') →
  chan_run T0 allowed N cap ins' outs' s'.
Proof.
  induction ops as [|op ops IH]; intros ins outs s ins' outs' s' Hr E; simpl in E; [by simplify_eq |].
  destruct (allowed op && _) eqn:Ep; [| done]. bool_to_prop.
  destruct (exec T0 op s) as [o s1 | |] eqn:Ex; [| done | done].
  eapply IH; [| exact E]. by eapply chan_run_step.
Qed.

Lemma run_new_sound allowed N cap ops ins outs s :
  run_from allowed ops [] [] (mkSys (channel_new N cap) env_new) = Some (ins, outs, s) →
  chan_run T0 allowed N cap ins outs s.
Proof. apply run_from_sound. apply chan_run_new. Qed.

End concrete.

(** A channel of capacity 1: two pushes fill it and block, a [force_push] blocks
    behind them, a second push is cancelled, an item is popped. *)
Definition demo_ops : list (chan_op Z) :=
  [OpTryPush 10; OpPush 1 7 11 StopPossible; OpForcePush 12 2; OpPush 3 8 13 StopPossible;
   OpCancelPush 3; OpTryPop; OpRun 0].

(** Poppers that block before the items arrive. *)
Definition demo_pops : list (chan_op Z) :=
  [OpPop 1 7 StopPossible; OpPop 2 8 StopImpossible; OpTryPush 10; OpPush 1 7 11 StopImpossible;
   OpTryPush 12].

Definition demo_state (ops : list (chan_op Z)) : Sys Z IntrusiveDoubleList :=
  let s0 := mkSys (channel_new 2 1) env_new in
  match run_from 0 (λ _, true) ops [] [] s0 with Some (_, _, s) => s | None => s0 end.

Ltac demo_reach ops := apply (run_new_sound 0 _ 2 1 ops); vm_compute; reflexivity.

Lemma channel_refines_queue_witness :
  let s := demo_state demo_ops in
  ∃ a, chan_rep (chan s) a ∧ spec_inv 0 a (env s) ∧ a_cap a = 1 ∧
    ∀ op, op_pre op (closed_ (chan s)) (env s) →
      ∃ c', exec 0 op s = Done (spec_exec 0 op a (env s)).1 (mkSys c' (spec_exec 0 op a (env s)).2.2) ∧
        chan_rep c' (spec_exec 0 op a (env s)).2.1.
Proof.
  apply (channel_refines_queue 0 (λ _, true) 2 1 [10; 11; 12; 13] [10]); [lia |].
  demo_reach demo_ops.
Defined.

Lemma channel_fifo_witness :
  ∃ a, chan_rep (chan (demo_state demo_pops)) a ∧ [10; 11] ++ line a `sublist_of` [10; 11; 12] ∧
    ((∀ op, keeps_items (T := Z) op = true → keeps_items op = true) → [10; 11] ++ line a = [10; 11; 12]).
Proof.
  apply (channel_fifo 0 keeps_items 2 1 [10; 11; 12] [10; 11]); [lia |].
  demo_reach demo_pops.
Defined.

Lemma channel_exactly_once_witness :
  let s := demo_state demo_ops in
  ∃ q1 q2, hl_rep (push_awaiters_ (chan s)) q1 ∧ hl_rep (pop_awaiters_ (chan s)) q2 ∧
    life [] q1 q2 (env s).
Proof.
  apply (channel_exactly_once 0 (λ _, true) 2 1 [10; 11; 12; 13] [10]); [lia |].
  demo_reach demo_ops.
Defined.

Lemma channel_waiting_justified_witness :
  let s := demo_state demo_ops in
  hl_empty (push_awaiters_ (chan s)) = false ∧ size (chan s) = capacity (chan s).
Proof.
  split; [by vm_compute |].
  apply (channel_waiting_justified 0 (λ _, true) 2 1 [10; 11; 12; 13] [10]); [lia | | by vm_compute].
  demo_reach demo_ops.
Defined.

Lemma channel_close_witness :
  let s := demo_state demo_ops in
  ∃ q1 q2 s', hl_rep (push_awaiters_ (chan s)) q1 ∧ hl_rep (pop_awaiters_ (chan s)) q2 ∧
    push_close 0 s = Done tt s' ∧ is_closed (chan s') = true ∧ size (chan s') = size (chan s) ∧
    hl_rep (push_awaiters_ (chan s')) [] ∧ hl_rep (pop_awaiters_ (chan s')) [] ∧
    scheduled (env s') = scheduled (env s) ++ pop_tickets (env s) q2 ++ push_tickets (env s) q1 ∧
    (∀ h p, h ∈ q2 → pop_handles (env s) !! h = Some p →
       pop_result <$> pop_handles (env s') !! h = Some (- EPIPE, 0)) ∧
    (∀ h p, h ∈ q1 → push_handles (env s) !! h = Some p → push_runtime p ≠ None →
       (λ p', (push_result p', push_item p')) <$> push_handles (env s') !! h
       = Some (- EPIPE, push_item p)).
Proof.
  apply (channel_close 0 (λ _, true) 2 1 [10; 11; 12; 13] [10]); [lia | | by vm_compute].
  demo_reach demo_ops.
Defined.

Lemma channel_close_completes_all_witness :
  let s := demo_state demo_pops in
  ∃ s1 s2, push_close 0 s = Done tt s1 ∧
    drain_runs 0 (length (scheduled (env s1))) s1 = Done tt s2 ∧
    NoDup (received (env s2)).*1 ∧
    (∀ w, w ∈ (received (env s2)).*1 ↔ is_Some (work_rt (env s) w)) ∧
    (∀ rt, pending (env s2) rt = 0).
Proof.
  apply (channel_close_completes_all 0 (λ _, true) 2 1 [10; 11; 12] [10; 11]); [lia |].
  demo_reach demo_pops.
Defined.

Lemma channel_closed_drains_witness :
  let s := demo_state (demo_ops ++ [OpClose]) in
  ∃ xs s', Z.of_nat (length xs) = size (chan s) ∧ [10] ++ xs `sublist_of` [10; 11; 12; 13] ∧
    try_pops 0 (length xs) s = Done (pair 0 <$> xs) s' ∧
    try_pop 0 s' = Done (- EPIPE, 0) s' ∧ ∀ item, try_push item s' = Done (- EPIPE) s'.
Proof.
  apply (channel_closed_drains 0 (λ _, true) 2 1 [10; 11; 12; 13] [10]); [lia | | by vm_compute].
  demo_reach (demo_ops ++ [OpClose]).
Defined.

Lemma channel_destroy_releases_witness :
  let s := demo_state demo_ops in
  ∃ s1 s2, push_close 0 s = Done tt s1 ∧ channel_destroy 0 s = Done tt s2 ∧ env s2 = env s1 ∧
    hl_rep (push_awaiters_ (chan s2)) [] ∧ hl_rep (pop_awaiters_ (chan s2)) [] ∧
    ∀ i, 0 ≤ i < capacity (chan s2) → storage_ (buffer_ (chan s2)) !! Z.to_nat i = Some None.
Proof.
  apply (channel_destroy_releases 0 (λ _, true) 2 1 [10; 11; 12; 13] [10]); [lia |].
  demo_reach demo_ops.
Defined.

Lemma channel_cancel_push_witness :
  let s := demo_state (take 4 demo_ops) in
  let p := mkPushHandle (Some 8%nat) (Some 13) (- ENOTRECOVERABLE) true in
  ∃ q s', hl_rep (push_awaiters_ (chan s)) q ∧ push_cancel 3 s = Done tt s' ∧
    hl_rep (push_awaiters_ (chan s')) (without 3%nat q) ∧
    (3%nat ∉ q → env s' = env s) ∧
    (3%nat ∈ q →
      push_item p ≠ None ∧
      push_handles (env s') = <[3%nat := mkPushHandle (Some 8%nat) (Some 13) (- ECANCELED) true]>
        (push_handles (env s)) ∧
      scheduled (env s') = scheduled (env s) ++ [(8%nat, PushWork 3)]).
Proof.
  apply (channel_cancel_push 0 (λ _, true) 2 1 [10; 11; 12; 13] []); [lia | | by vm_compute | done].
  demo_reach (take 4 demo_ops).
Defined.
