(* ===== verification/Coro.v ===== *)
(** * Coroutines and tasks (include/condy/detail/coro.hpp, coro.hpp,
      detail/task.hpp, task.hpp)

    - [Module Lifecycle]: the promise of a spawned coroutine as a concurrent
      state machine.  Two threads share it: the one that runs the coroutine
      ([FinalAwaiter::await_suspend]) and the one that owns its [Task]
      ([detach], [co_await], [wait]).  A step is one access to the shared
      promise; [compare_exchange_weak] may fail spuriously.  The coroutine frame
      is an object that can be destroyed: touching it afterwards is a
      [BadAccess].
    - [Module Await]: a coroutine awaited by another one ([CoroAwaiter]).
    - [Module SenderAwaiter]: awaiting an asynchronous operation.
    - [Module BindAllocator]: the allocation of coroutine frames with a custom
      allocator.
    - [Module TaskObject]: the [Task] object itself and its error paths. *)

From stdpp Require Import base numbers list gmap sets.
From S2P Require Import Prelude Utils.

(** [std::coroutine_handle<>]: [std::noop_coroutine()], null, or a coroutine. *)
Inductive cohandle : Type :=
  | NoopCoroutine
  | NullHandle
  | Handle (id : nat).

#[export] Instance cohandle_eq_dec : EqDecision cohandle.
Proof. solve_decision. Defined.

(** [PromiseBase::State] *)
Inductive State : Type :=
  | Idle
  | RunningJoinable
  | RunningDetached
  | RunningJoining
  | Zombie
  | Finished.

#[export] Instance State_eq_dec : EqDecision State.
Proof. solve_decision. Defined.

(** The anonymous union of [PromiseBase]. *)
Inductive promise_union : Type :=
  | CallerHandle (h : cohandle)
  | Callback (cb : nat).

(** [PromiseBase] and [Promise<T>] *)
Record Promise (T : Type) := mkPromise {
  state_ : State;
  union_ : promise_union;
  exception_ : option exn;
  value_ : option T
}.
Arguments mkPromise {T} state_ union_ exception_ value_.
Arguments state_ {T} p.
Arguments union_ {T} p.
Arguments exception_ {T} p.
Arguments value_ {T} p.

Definition promise_new {T} : Promise T := mkPromise Idle (CallerHandle NoopCoroutine) None None.

(** How the body of a coroutine ends: [return_value] or [unhandled_exception]. *)
Inductive outcome (T : Type) : Type :=
  | Returned (v : T)
  | Raised (e : exn).
Arguments Returned {T} v.
Arguments Raised {T} e.

Definition return_value {T} (v : T) (p : Promise T) : Promise T :=
  mkPromise (state_ p) (union_ p) (exception_ p) (Some v).
Definition unhandled_exception {T} (e : exn) (p : Promise T) : Promise T :=
  mkPromise (state_ p) (union_ p) (Some e) (value_ p).
Definition finish_body {T} (out : outcome T) : Promise T → Promise T :=
  match out with Returned v => return_value v | Raised e => unhandled_exception e end.

Definition mark_running {T} (p : Promise T) : Promise T :=
  mkPromise RunningJoinable (union_ p) (exception_ p) (value_ p).
Definition set_caller_handle {T} (h : cohandle) (p : Promise T) : Promise T :=
  mkPromise (state_ p) (CallerHandle h) (exception_ p) (value_ p).
Definition set_state {T} (st : State) (p : Promise T) : Promise T :=
  mkPromise st (union_ p) (exception_ p) (value_ p).
Definition set_callback {T} (cb : nat) (p : Promise T) : Promise T :=
  mkPromise (state_ p) (Callback cb) (exception_ p) (value_ p).
Definition take_exception {T} (p : Promise T) : Promise T :=
  mkPromise (state_ p) (union_ p) None (value_ p).

(** ** The frame: an object that is destroyed at most once *)

Abbreviation frame T := (option (Promise T)).

Definition promise {T} : ST (frame T) (Promise T) := λ f,
  match f with Some p => Done p f | None => Crashed BadAccess end.
Definition on_promise {T} (g : Promise T → Promise T) : ST (frame T) unit :=
  p ← promise; put (Some (g p)).

(** [handle.destroy()] runs [~PromiseBase], which panics when an exception has
    not been taken. *)
Definition destroy {T} : ST (frame T) unit :=
  p ← promise;
  match exception_ p with
  | Some _ => crashed Panic
  | None => put None
  end.

(** [self.caller_handle_] and [self.callback_]: reading the other member of the
    union is undefined behaviour. *)
Definition read_caller_handle {T} : ST (frame T) cohandle :=
  p ← promise;
  match union_ p with CallerHandle h => mret h | Callback _ => crashed BadAccess end.
Definition read_callback {T} : ST (frame T) nat :=
  p ← promise;
  match union_ p with Callback cb => mret cb | CallerHandle _ => crashed BadAccess end.

(** [promise.exception()] and [promise.value()] *)
Definition exception {T} : ST (frame T) (option exn) :=
  p ← promise;
  on_promise take_exception;;
  mret (exception_ p).
Definition value {T} : ST (frame T) T :=
  p ← promise;
  match value_ p with Some v => mret v | None => crashed BadAccess end.

(** [CoroAwaiter::await_resume], and the end of [TaskAwaiter::await_resume] and
    of [Task::wait]. *)
Definition take_result {T} : ST (frame T) (outcome T) :=
  ex ← exception;
  match ex with
  | Some e => destroy;; mret (Raised e)
  | None =>
      v ← value;
      destroy;;
      mret (Returned v)
  end.

(** [compare_exchange_weak(expected, desired)]: the flag and the value found. *)
Definition compare_exchange_weak {T} (spurious : bool) (expected desired : State)
    : ST (frame T) (bool * State) :=
  p ← promise;
  if bool_decide (state_ p = expected) && negb spurious then
    on_promise (set_state desired);; mret (true, expected)
  else mret (false, state_ p).

(** Leave the loop, or go round it with the value found. *)
Definition cas_next {A} (r : bool * State) (ok : A) (retry : State → A) : A :=
  if r.1 then ok else retry r.2.

Lemma take_result_spec {T} (p : Promise T) out :
  exception_ p = None → value_ p = None →
  take_result (Some (finish_body out p)) = Done out None.
Proof. destruct p, out; simpl; by intros -> ->. Qed.

Module Lifecycle.

(** *** The thread that runs the coroutine *)
Inductive fin_pc : Type :=
  | FinBody
  | FinLoad
  | FinCas (expected : State)
  | FinAfter (prev : State)
  | FinCall (cb : nat)
  | FinDone (next : cohandle).

(** *** The thread that owns the task *)
Inductive join_kind : Type := CoAwait | Wait.

Inductive own_pc (T : Type) : Type :=
  | OwnHold
  | DetLoad
  | DetCas (expected : State)
  | DetAfter (prev : State)
  | JoinLoad (k : join_kind) (cb : nat)
  | JoinLoop (k : join_kind) (cb : nat) (expected : State)
  | JoinCas (k : join_kind) (cb : nat) (expected desired : State)
  | JoinAfter (k : join_kind) (cb : nat) (prev : State)
  | JoinWait (k : join_kind) (cb : nat)
  | JoinReady (k : join_kind) (cb : nat)
  | OwnDetached
  | OwnJoined (r : outcome T).
Arguments OwnHold {T}.
Arguments DetLoad {T}.
Arguments DetCas {T} expected.
Arguments DetAfter {T} prev.
Arguments JoinLoad {T} k cb.
Arguments JoinLoop {T} k cb expected.
Arguments JoinCas {T} k cb expected desired.
Arguments JoinAfter {T} k cb prev.
Arguments JoinWait {T} k cb.
Arguments JoinReady {T} k cb.
Arguments OwnDetached {T}.
Arguments OwnJoined {T} r.

(** [invoked]: the callbacks called; [pending_works_] of the owner's runtime. *)
Record CoSys (T : Type) := mkCoSys {
  cframe : frame T;
  fin : fin_pc;
  own : own_pc T;
  invoked : list nat;
  pending_works_ : Z
}.
Arguments mkCoSys {T} cframe fin own invoked pending_works_.
Arguments cframe {T} c.
Arguments fin {T} c.
Arguments own {T} c.
Arguments invoked {T} c.
Arguments pending_works_ {T} c.

Section steps.
Context {T : Type} (out : outcome T).
Abbreviation M := (ST (CoSys T)).

Definition on_frame {A} : ST (frame T) A → M A :=
  zoom cframe (λ f s, mkCoSys f (fin s) (own s) (invoked s) (pending_works_ s)).
Definition set_fin (pc : fin_pc) : M unit :=
  modify (λ s, mkCoSys (cframe s) pc (own s) (invoked s) (pending_works_ s)).
Definition set_own (pc : own_pc T) : M unit :=
  modify (λ s, mkCoSys (cframe s) (fin s) pc (invoked s) (pending_works_ s)).
Definition invoke_callback (cb : nat) : M unit :=
  modify (λ s, mkCoSys (cframe s) (fin s) (own s) (invoked s ++ [cb]) (pending_works_ s)).
Definition add_pending (d : Z) : M unit :=
  modify (λ s, mkCoSys (cframe s) (fin s) (own s) (invoked s) (u64 (pending_works_ s + d))).

(** The choice of [desired] in [FinalAwaiter::await_suspend]. *)
Definition fin_desired (expected : State) : option State :=
  match expected with
  | RunningJoinable => Some Zombie
  | RunningDetached | RunningJoining => Some Finished
  | _ => None
  end.

Definition fin_step (spurious : bool) : M unit :=
  s ← get;
  match fin s with
  | FinBody =>
      on_frame (on_promise (finish_body out));;
      set_fin FinLoad
  | FinLoad =>
      p ← on_frame promise;
      set_fin (FinCas (state_ p))
  | FinCas Idle =>
      h ← on_frame read_caller_handle;
      set_fin (FinDone h)
  | FinCas expected =>
      match fin_desired expected with
      | None => crashed Panic
      | Some desired =>
          r ← on_frame (compare_exchange_weak spurious expected desired);
          set_fin (cas_next r (FinAfter expected) FinCas)
      end
  | FinAfter RunningDetached =>
      on_frame destroy;;
      set_fin (FinDone NoopCoroutine)
  | FinAfter RunningJoining =>
      cb ← on_frame read_callback;
      set_fin (FinCall cb)
  | FinAfter prev =>
      assert_ (bool_decide (prev = RunningJoinable));;
      set_fin (FinDone NoopCoroutine)
  | FinCall cb =>
      invoke_callback cb;;
      set_fin (FinDone NoopCoroutine)
  | FinDone _ => mret tt
  end.

(** The choice of [desired] in [request_detach] and in [request_join]. *)
Definition detach_desired (expected : State) : option State :=
  match expected with
  | RunningJoinable => Some RunningDetached
  | Zombie => Some Finished
  | _ => None
  end.
Definition join_desired (expected : State) : option State :=
  match expected with
  | RunningJoinable => Some RunningJoining
  | Zombie => Some Finished
  | _ => None
  end.

(** [TaskBase::detach], or [TaskAwaiterBase::await_suspend] ([CoAwait]) or
    [TaskBase::wait_inner_] ([Wait]) with the callback [cb]. *)
Definition own_detach : M unit := set_own DetLoad.
Definition own_join (k : join_kind) (cb : nat) : M unit :=
  match k with CoAwait => add_pending 1 | Wait => mret tt end;;
  set_own (JoinLoad k cb).

Definition own_step (spurious : bool) : M unit :=
  s ← get;
  match own s with
  | OwnHold => mret tt
  (* request_detach *)
  | DetLoad =>
      p ← on_frame promise;
      set_own (DetCas (state_ p))
  | DetCas expected =>
      match detach_desired expected with
      | None => crashed Panic
      | Some desired =>
          r ← on_frame (compare_exchange_weak spurious expected desired);
          set_own (cas_next r (DetAfter expected) DetCas)
      end
  | DetAfter prev =>
      (if bool_decide (prev = Zombie) then on_frame destroy else mret tt);;
      set_own OwnDetached
  (* request_join *)
  | JoinLoad k cb =>
      p ← on_frame promise;
      set_own (JoinLoop k cb (state_ p))
  | JoinLoop k cb expected =>
      match join_desired expected with
      | None => crashed Panic
      | Some desired =>
          (if bool_decide (expected = RunningJoinable)
           then on_frame (on_promise (set_callback cb)) else mret tt);;
          set_own (JoinCas k cb expected desired)
      end
  | JoinCas k cb expected desired =>
      r ← on_frame (compare_exchange_weak spurious expected desired);
      set_own (cas_next r (JoinAfter k cb expected) (JoinLoop k cb))
  | JoinAfter k cb prev =>
      if bool_decide (prev = Zombie) then set_own (JoinReady k cb)
      else
        assert_ (bool_decide (prev = RunningJoinable));;
        set_own (JoinWait k cb)
  (* suspended or blocked until the callback is called *)
  | JoinWait k cb =>
      if bool_decide (cb ∈ invoked s) then set_own (JoinReady k cb) else mret tt
  (* TaskAwaiter::await_resume, the end of Task::wait *)
  | JoinReady k cb =>
      match k with CoAwait => add_pending (- 1) | Wait => mret tt end;;
      r ← on_frame take_result;
      set_own (OwnJoined r)
  | OwnDetached | OwnJoined _ => mret tt
  end.

(** One step of either thread; the owner decides once what to do with its task. *)
Inductive label : Type :=
  | LFin (spurious : bool)
  | LOwn (spurious : bool)
  | LDetach
  | LJoin (k : join_kind) (cb : nat).

Definition step (l : label) : M unit :=
  s ← get;
  match l with
  | LFin spurious => fin_step spurious
  | LOwn spurious => own_step spurious
  | LDetach => match own s with OwnHold => own_detach | _ => mret tt end
  | LJoin k cb => match own s with OwnHold => own_join k cb | _ => mret tt end
  end.

(** [co_spawn]: the promise is marked running and the coroutine is scheduled. *)
Definition co_spawn (pending : Z) : CoSys T :=
  mkCoSys (Some (mark_running promise_new)) FinBody OwnHold [] pending.

Inductive reach (pending : Z) : CoSys T → Prop :=
  | reach_spawn : reach pending (co_spawn pending)
  | reach_step s l s' : reach pending s → step l s = Done tt s' → reach pending s'.

(** The state the promise has for each pair of program counters: [None] for a
    pair that is not reached, [Some None] when the frame is destroyed. *)
Definition expect (o : own_pc T) (f : fin_pc) : option (option State) :=
  match o with
  | OwnHold | DetLoad | DetCas RunningJoinable
  | JoinLoad _ _ | JoinLoop _ _ RunningJoinable | JoinCas _ _ RunningJoinable RunningJoining =>
      match f with
      | FinBody | FinLoad | FinCas RunningJoinable => Some (Some RunningJoinable)
      | FinAfter RunningJoinable | FinDone NoopCoroutine => Some (Some Zombie)
      | _ => None
      end
  | DetCas Zombie | JoinLoop _ _ Zombie | JoinCas _ _ Zombie Finished =>
      match f with
      | FinAfter RunningJoinable | FinDone NoopCoroutine => Some (Some Zombie)
      | _ => None
      end
  | DetAfter RunningJoinable | OwnDetached =>
      match f with
      | FinBody | FinLoad | FinCas RunningJoinable | FinCas RunningDetached =>
          Some (Some RunningDetached)
      | FinAfter RunningDetached => Some (Some Finished)
      | FinAfter RunningJoinable => match o with OwnDetached => Some None | _ => None end
      | FinDone NoopCoroutine => Some None
      | _ => None
      end
  | DetAfter Zombie | JoinAfter _ _ Zombie =>
      match f with
      | FinAfter RunningJoinable | FinDone NoopCoroutine => Some (Some Finished)
      | _ => None
      end
  | JoinAfter _ cb RunningJoinable | JoinWait _ cb =>
      match f with
      | FinBody | FinLoad | FinCas RunningJoinable | FinCas RunningJoining =>
          Some (Some RunningJoining)
      | FinAfter RunningJoining => Some (Some Finished)
      | FinCall cb' => if bool_decide (cb' = cb) then Some (Some Finished) else None
      | FinDone NoopCoroutine => Some (Some Finished)
      | _ => None
      end
  | JoinReady _ _ =>
      match f with
      | FinAfter RunningJoinable | FinDone NoopCoroutine => Some (Some Finished)
      | _ => None
      end
  | OwnJoined _ =>
      match f with
      | FinAfter RunningJoinable | FinDone NoopCoroutine => Some None
      | _ => None
      end
  | _ => None
  end.

(** The callback that a joiner has stored. *)
Definition stored (o : own_pc T) : option nat :=
  match o with
  | JoinCas _ cb RunningJoinable _ | JoinAfter _ cb RunningJoinable | JoinWait _ cb => Some cb
  | _ => None
  end.

(** The callbacks that may have been called. *)
Definition calls_ok (o : own_pc T) (f : fin_pc) (calls : list nat) : Prop :=
  match o with
  | JoinAfter _ cb RunningJoinable | JoinWait _ cb =>
      calls = match f with FinDone _ => [cb] | _ => [] end
  | JoinReady _ cb => calls = [] ∨ calls = [cb] ∧ f = FinDone NoopCoroutine
  | OwnJoined _ => length calls ≤ 1
  | _ => calls = []
  end%nat.

Definition awaiting (o : own_pc T) : Z :=
  match o with
  | JoinLoad CoAwait _ | JoinLoop CoAwait _ _ | JoinCas CoAwait _ _ _ | JoinAfter CoAwait _ _
  | JoinWait CoAwait _ | JoinReady CoAwait _ => 1
  | _ => 0
  end.

Definition content (f : fin_pc) (p0 : Promise T) : Promise T :=
  match f with FinBody => p0 | _ => finish_body out p0 end.

Record inv (pending : Z) (s : CoSys T) : Prop := {
  inv_frame : ∃ e, expect (own s) (fin s) = Some e ∧ state_ <$> cframe s = e;
  inv_content p : cframe s = Some p →
    ∃ p0, exception_ p0 = None ∧ value_ p0 = None ∧
      p = content (fin s) p0;
  inv_stored cb p : stored (own s) = Some cb → cframe s = Some p → union_ p = Callback cb;
  inv_calls : calls_ok (own s) (fin s) (invoked s);
  inv_pending : pending_works_ s = u64 (pending + awaiting (own s));
  inv_result r : own s = OwnJoined r → r = out
}.

(** A detached coroutine that ended with an exception. *)
Definition detached_failure (s : CoSys T) : Prop :=
  (∃ e, out = Raised e) ∧ (own s = DetAfter Zombie ∨ own s = DetAfter RunningJoinable ∨ own s = OwnDetached).

Lemma state_finish (p : Promise T) : state_ (finish_body out p) = state_ p.
Proof. by destruct out. Qed.
Lemma union_finish (p : Promise T) : union_ (finish_body out p) = union_ p.
Proof. by destruct out. Qed.
Lemma set_state_finish st (p : Promise T) :
  set_state st (finish_body out p) = finish_body out (set_state st p).
Proof. by destruct out. Qed.
Lemma set_callback_finish cb (p : Promise T) :
  set_callback cb (finish_body out p) = finish_body out (set_callback cb p).
Proof. by destruct out. Qed.

Lemma state_content f p : state_ (content f p) = state_ p.
Proof. unfold content. destruct f; by rewrite ?state_finish. Qed.
Lemma union_content f p : union_ (content f p) = union_ p.
Proof. unfold content. destruct f; by rewrite ?union_finish. Qed.
Lemma set_state_content f st p : set_state st (content f p) = content f (set_state st p).
Proof. unfold content. destruct f; by rewrite ?set_state_finish. Qed.
Lemma set_callback_content f cb p : set_callback cb (content f p) = content f (set_callback cb p).
Proof. unfold content. destruct f; by rewrite ?set_callback_finish. Qed.

(** What is known of the frame, by cases. *)
Lemma inv_alive pending s st :
  inv pending s → expect (own s) (fin s) = Some (Some st) →
  ∃ p0, exception_ p0 = None ∧ value_ p0 = None ∧ state_ p0 = st ∧
    cframe s = Some (content (fin s) p0) ∧
    ∀ cb, stored (own s) = Some cb → union_ p0 = Callback cb.
Proof.
  intros [(e & Ee & Ef) Hc Hs _ _ _] E. rewrite E in Ee. simplify_eq.
  destruct (cframe s) as [p|]; simplify_eq/=.
  destruct (Hc p eq_refl) as (p0 & E1 & E2 & ->). exists p0.
  split_and!; try done.
  - by rewrite state_content.
  - intros cb Hcb. rewrite <- (Hs cb _ Hcb eq_refl). by rewrite union_content.
Qed.

Lemma cas_run spurious p e d :
  compare_exchange_weak (T := T) spurious e d (Some p) =
    if bool_decide (state_ p = e) && negb spurious then Done (true, e) (Some (set_state d p))
    else Done (false, state_ p) (Some p).
Proof. unfold compare_exchange_weak. run_st. by destruct (bool_decide _ && _). Qed.

(** Build the invariant of a state whose frame is known. *)
Lemma inv_intro pending p0 fi o calls pd :
  expect o fi = Some (Some (state_ p0)) → exception_ p0 = None → value_ p0 = None →
  (∀ cb, stored o = Some cb → union_ p0 = Callback cb) →
  calls_ok o fi calls → pd = u64 (pending + awaiting o) → (∀ r, o = OwnJoined r → r = out) →
  inv pending (mkCoSys (Some (content fi p0)) fi o calls pd).
Proof.
  intros E1 E2 E3 E4 E5 E6 E7. split; simpl; try done.
  - eexists. split; [exact E1 |]. simpl. by rewrite state_content.
  - intros p [= <-]. eauto.
  - intros cb p Hcb [= <-]. rewrite <- (E4 cb Hcb). by rewrite union_content.
Qed.

Lemma inv_intro_none pending fi o calls pd :
  expect o fi = Some None → calls_ok o fi calls → pd = u64 (pending + awaiting o) →
  (∀ r, o = OwnJoined r → r = out) → inv pending (mkCoSys None fi o calls pd).
Proof. intros. split; simpl; try done. by eexists. Qed.

Ltac own_cases o :=
  destruct o as [| |[]|[]|[]|[] ? []|[] ? [] []|[] ? []|[]|[]| |]; simpl in *; try done.

(** The transitions of the running thread, on the table of program counters. *)
Lemma expect_body o e calls :
  expect o FinBody = Some e → calls_ok o FinBody calls →
  expect o FinLoad = Some e ∧ calls_ok o FinLoad calls ∧ ∃ st, e = Some st.
Proof. intros. own_cases o; simplify_eq; eauto. Qed.

Lemma expect_load o e calls :
  expect o FinLoad = Some e → calls_ok o FinLoad calls →
  ∃ st, e = Some st ∧ expect o (FinCas st) = Some (Some st) ∧ calls_ok o (FinCas st) calls.
Proof. intros. own_cases o; simplify_eq; eexists; split_and!; try done. Qed.

Lemma expect_cas o ex e calls :
  expect o (FinCas ex) = Some e → calls_ok o (FinCas ex) calls →
  ∃ st d, e = Some st ∧ ex ≠ Idle ∧ fin_desired ex = Some d ∧
    expect o (FinCas st) = Some (Some st) ∧ calls_ok o (FinCas st) calls ∧
    (st = ex → expect o (FinAfter ex) = Some (Some d) ∧ calls_ok o (FinAfter ex) calls).
Proof.
  intros. destruct ex; own_cases o; simplify_eq; eexists _, _; split_and!; try done.
Qed.

Lemma expect_after o prev e calls :
  expect o (FinAfter prev) = Some e → calls_ok o (FinAfter prev) calls →
  match prev with
  | RunningDetached =>
      e = Some Finished ∧ expect o (FinDone NoopCoroutine) = Some None ∧
      calls_ok o (FinDone NoopCoroutine) calls ∧ (o = DetAfter RunningJoinable ∨ o = OwnDetached)
  | RunningJoining =>
      ∃ cb, e = Some Finished ∧ stored o = Some cb ∧ expect o (FinCall cb) = Some (Some Finished) ∧
        calls_ok o (FinCall cb) calls
  | RunningJoinable =>
      expect o (FinDone NoopCoroutine) = Some e ∧ calls_ok o (FinDone NoopCoroutine) calls
  | _ => False
  end.
Proof.
  intros. destruct prev; own_cases o; simplify_eq; rewrite ?bool_decide_eq_true_2 by done;
    naive_solver (eauto; rewrite ?bool_decide_eq_true_2; done).
Qed.

Lemma expect_call o cb e calls :
  expect o (FinCall cb) = Some e → calls_ok o (FinCall cb) calls →
  e = Some Finished ∧ expect o (FinDone NoopCoroutine) = Some (Some Finished) ∧
  calls_ok o (FinDone NoopCoroutine) (calls ++ [cb]).
Proof. intros. own_cases o; case_bool_decide; simplify_eq; done. Qed.

Lemma destroy_cases fi o calls pd (p0 : Promise T) :
  exception_ p0 = None →
  on_frame destroy (mkCoSys (Some (finish_body out p0)) fi o calls pd)
    = Done tt (mkCoSys None fi o calls pd) ∨
  on_frame destroy (mkCoSys (Some (finish_body out p0)) fi o calls pd) = Crashed Panic ∧
    ∃ e, out = Raised e.
Proof.
  intros E. unfold on_frame, destroy. run_st. destruct out; simpl; [rewrite E; by left | right; eauto].
Qed.

Lemma cas_cases spurious ex d p0 fi o calls pd :
  let s := mkCoSys (Some (content fi p0)) fi o calls pd in
  (on_frame (compare_exchange_weak spurious ex d) s
     = Done (true, ex) (mkCoSys (Some (content fi (set_state d p0))) fi o calls pd) ∧
   state_ p0 = ex) ∨
  on_frame (compare_exchange_weak spurious ex d) s = Done (false, state_ p0) s.
Proof.
  intros s. unfold on_frame, zoom. simpl. rewrite cas_run, state_content.
  destruct (bool_decide (state_ p0 = ex)) eqn:Eb; destruct spurious; simpl; try (by right).
  left. rewrite set_state_content. by apply bool_decide_eq_true in Eb.
Qed.

Lemma fin_step_inv pending spurious s :
  inv pending s →
  (∃ s', fin_step spurious s = Done tt s' ∧ inv pending s') ∨
  (fin_step spurious s = Crashed Panic ∧ detached_failure s).
Proof.
  intros Hi. pose proof Hi as [(e & Ee & Ef) _ _ Hcalls Hp Hr].
  destruct s as [f fi o calls pd]. unfold fin_step. rewrite bind_get. simpl in *.
  destruct fi as [| |ex|prev|cb|nx].
  - destruct (expect_body _ _ _ Ee Hcalls) as (E' & Hc' & st & ->).
    destruct (inv_alive _ _ _ Hi Ee) as (p0 & E1 & E2 & E3 & Ef' & Hst). simpl in *. subst.
    left. eexists. split; [reflexivity |]. by apply (inv_intro pending p0 FinLoad).
  - destruct (expect_load _ _ _ Ee Hcalls) as (st & -> & E' & Hc').
    destruct (inv_alive _ _ _ Hi Ee) as (p0 & E1 & E2 & E3 & Ef' & Hst). simpl in *. subst.
    left. eexists. split; [reflexivity |]. rewrite state_finish.
    by apply (inv_intro pending p0 (FinCas _)).
  - destruct (expect_cas _ _ _ _ Ee Hcalls) as (st & d & -> & Hne & Hd & E' & Hc' & Hok).
    destruct (inv_alive _ _ _ Hi Ee) as (p0 & E1 & E2 & E3 & Ef' & Hst). simpl in Ef', Hst. subst.
    left. destruct (cas_cases spurious ex d p0 (FinCas ex) o calls (u64 (pending + awaiting o)))
      as [[Ec Est] | Ec].
    + destruct (Hok Est) as [Ea Hca]. eexists. split.
      { destruct ex; try done; rewrite Hd; by erewrite bind_done by exact Ec. }
      by apply (inv_intro pending (set_state d p0) (FinAfter ex)).
    + eexists. split.
      { destruct ex; try done; rewrite Hd; by erewrite bind_done by exact Ec. }
      by apply (inv_intro pending p0 (FinCas (state_ p0))).
  - pose proof (expect_after _ _ _ _ Ee Hcalls) as Ha. destruct prev; try done.
    + left. destruct Ha as [Ea Hca]. eexists. split; [reflexivity |]. destruct e as [st|].
      * destruct (inv_alive _ _ _ Hi Ee) as (p0 & E1 & E2 & E3 & Ef' & Hst). simpl in *. subst.
        by apply (inv_intro pending p0 (FinDone NoopCoroutine)).
      * destruct f; [done |]. by apply inv_intro_none.
    + destruct Ha as (-> & Ea & Hca & Ho).
      destruct (inv_alive _ _ _ Hi Ee) as (p0 & E1 & E2 & E3 & Ef' & Hst). simpl in Ef', Hst. subst.
      edestruct destroy_cases as [Ed | [Ed Hout]]; [exact E1 | left | right].
      * eexists. split; [by erewrite bind_done by exact Ed |]. by apply inv_intro_none.
      * split; [| split; simpl; [done | tauto]]. unfold mbind, st_bind. by rewrite Ed.
    + left. destruct Ha as (cb & -> & Hcb & Ea & Hca).
      destruct (inv_alive _ _ _ Hi Ee) as (p0 & E1 & E2 & E3 & Ef' & Hst). simpl in Ef', Hst. subst.
      assert (read_callback (Some (finish_body out p0)) = Done cb (Some (finish_body out p0))) as Er.
      { unfold read_callback. run_st. by rewrite union_finish, (Hst cb Hcb). }
      eexists. split; [by erewrite bind_done by (eapply zoom_done, Er) |].
      apply (inv_intro pending p0 (FinCall cb)); rewrite ?E3; done.
  - destruct (expect_call _ _ _ _ Ee Hcalls) as (-> & Ea & Hca).
    destruct (inv_alive _ _ _ Hi Ee) as (p0 & E1 & E2 & E3 & Ef' & Hst). simpl in Ef', Hst. subst.
    left. eexists. split; [reflexivity |].
    apply (inv_intro pending p0 (FinDone NoopCoroutine)); rewrite ?E3; done.
  - left. eexists. by split.
Qed.

Ltac fin_cases f := destruct f as [| |[]|[]|?|[]]; simpl in *; try done.

(** The transitions of the owner. *)
Lemma expect_unclaimed (o : own_pc T) f e :
  (o = DetLoad ∨ ∃ k cb, o = JoinLoad k cb) → expect o f = Some e →
  ∃ st, e = Some st ∧ (st = RunningJoinable ∨ st = Zombie) ∧
    expect (DetCas st) f = Some e ∧ ∀ k cb, expect (JoinLoop k cb st) f = Some e.
Proof.
  intros Ho E. assert (expect DetLoad f = Some e) as E' by (destruct Ho as [-> | (? & ? & ->)]; done).
  fin_cases f; simplify_eq; eauto 10.
Qed.

Lemma expect_det_cas ex f e :
  expect (DetCas ex) f = Some e →
  ∃ st d, e = Some st ∧ detach_desired ex = Some d ∧ expect (DetCas st) f = Some e ∧
    (st = ex → expect (DetAfter ex) f = Some (Some d)).
Proof. intros. destruct ex; fin_cases f; simplify_eq; eexists _, _; split_and!; done. Qed.

Lemma expect_det_after prev f e :
  expect (DetAfter prev) f = Some e →
  (prev = RunningJoinable ∧ expect OwnDetached f = Some e) ∨
  (prev = Zombie ∧ e = Some Finished ∧ expect OwnDetached f = Some None ∧ f ≠ FinBody).
Proof. intros. destruct prev; fin_cases f; simplify_eq; auto. Qed.

Lemma expect_join_loop k cb ex f e :
  expect (JoinLoop k cb ex) f = Some e →
  ∃ st d, e = Some st ∧ join_desired ex = Some d ∧ expect (JoinCas k cb ex d) f = Some e ∧
    (ex = RunningJoinable ∨ ex = Zombie).
Proof. intros. destruct ex; fin_cases f; simplify_eq; eexists _, _; split_and!; eauto. Qed.

Lemma expect_join_cas k cb ex d f e :
  expect (JoinCas k cb ex d) f = Some e →
  ∃ st, e = Some st ∧ expect (JoinLoop k cb st) f = Some e ∧
    (st = ex → expect (JoinAfter k cb ex) f = Some (Some d)) ∧
    (ex = RunningJoinable ∨ ex = Zombie) ∧ (st = ex → ex = RunningJoinable → ∀ n, f ≠ FinDone n).
Proof.
  intros. destruct ex, d; fin_cases f; simplify_eq; eexists; split_and!; eauto; done.
Qed.

Lemma expect_join_after k cb prev f e calls :
  expect (JoinAfter k cb prev) f = Some e → calls_ok (JoinAfter k cb prev) f calls →
  (prev = RunningJoinable ∧ expect (JoinWait k cb) f = Some e ∧ calls_ok (JoinWait k cb) f calls) ∨
  (prev = Zombie ∧ expect (JoinReady k cb) f = Some e ∧ calls_ok (JoinReady k cb) f calls).
Proof. intros. destruct prev; fin_cases f; simplify_eq; auto. Qed.

Lemma expect_join_wait k cb f e calls :
  expect (JoinWait k cb) f = Some e → calls_ok (JoinWait k cb) f calls → cb ∈ calls →
  expect (JoinReady k cb) f = Some e ∧ calls_ok (JoinReady k cb) f calls.
Proof. intros ? ? ?. fin_cases f; simplify_eq; (set_solver || auto). Qed.

Lemma expect_join_ready k cb f e calls :
  expect (JoinReady k cb) f = Some e → calls_ok (JoinReady k cb) f calls →
  e = Some Finished ∧ expect (OwnJoined out) f = Some None ∧ calls_ok (OwnJoined out) f calls ∧
  f ≠ FinBody.
Proof.
  intros ? Hc. fin_cases f; simplify_eq; split_and!; try done;
    destruct Hc as [-> | [-> _]]; simpl; lia.
Qed.

Lemma content_finish f p0 : f ≠ FinBody → content f p0 = finish_body out p0.
Proof. by destruct f. Qed.

(** [mkCoSys f fi o calls pd] satisfies the invariant after the owner moved on
    without touching the frame. *)
Lemma inv_own_move pending f fi o o' calls pd e :
  inv pending (mkCoSys f fi o calls pd) → expect o fi = Some e → expect o' fi = Some e →
  calls_ok o' fi calls → awaiting o' = awaiting o → (∀ cb, stored o' = Some cb → stored o = Some cb) →
  (∀ r, o' = OwnJoined r → r = out) → inv pending (mkCoSys f fi o' calls pd).
Proof.
  intros Hi Eo Eo' Hc Ha Hs Hr. pose proof Hi as [(e' & Ee & Ef) _ _ _ Hp _]. simpl in *.
  rewrite Eo in Ee. simplify_eq. destruct f as [p|]; simpl in *.
  - destruct (inv_alive _ _ _ Hi Eo) as (p0 & E1 & E2 & E3 & Ef' & Hst). simpl in Ef', Hst. simplify_eq.
    apply (inv_intro pending p0 fi); rewrite ?E3, ?Ha; auto.
  - apply inv_intro_none; rewrite ?Ha; done.
Qed.

Definition step_ok (pending : Z) (m : M unit) (s : CoSys T) : Prop :=
  (∃ s', m s = Done tt s' ∧ inv pending s') ∨ (m s = Crashed Panic ∧ detached_failure s).

Lemma own_step_detach pending spurious f fi o calls pd :
  inv pending (mkCoSys f fi o calls pd) →
  (o = DetLoad ∨ (∃ ex, o = DetCas ex) ∨ ∃ prev, o = DetAfter prev) →
  step_ok pending (own_step spurious) (mkCoSys f fi o calls pd).
Proof.
  intros Hi Ho. pose proof Hi as [(e & Ee & Ef) _ _ Hcalls Hp Hr].
  unfold step_ok, own_step. rewrite bind_get. simpl in Ee, Ef, Hcalls, Hp, Hr.
  destruct Ho as [-> | [[ex ->] | [prev ->]]]; cbn [own].
  - destruct (expect_unclaimed _ _ _ (or_introl eq_refl) Ee) as (st & -> & _ & E' & _).
    destruct (inv_alive _ _ _ Hi Ee) as (p0 & E1 & E2 & E3 & Ef' & Hst). simpl in Ef', Hst. subst f.
    left. eexists. split; [reflexivity |]. simpl. rewrite state_content, E3.
    by eapply inv_own_move.
  - destruct (expect_det_cas _ _ _ Ee) as (st & d & -> & Hd & E' & Hok). rewrite Hd.
    destruct (inv_alive _ _ _ Hi Ee) as (p0 & E1 & E2 & E3 & Ef' & Hst). simpl in Ef', Hst. subst f.
    left. destruct (cas_cases spurious ex d p0 fi (DetCas ex) calls pd) as [[Ec Est] | Ec];
      (eexists; split; [by erewrite bind_done by exact Ec |]); simpl; unfold cas_next; simpl.
    + apply (inv_intro pending (set_state d p0) fi); try done. apply Hok; congruence.
    + rewrite E3. by eapply inv_own_move.
  - destruct (expect_det_after _ _ _ Ee) as [(-> & E') | (-> & -> & E' & Hb)].
    + left. eexists. split; [reflexivity |]. by eapply inv_own_move.
    + destruct (inv_alive _ _ _ Hi Ee) as (p0 & E1 & E2 & E3 & Ef' & Hst). simpl in Ef', Hst. subst f.
      rewrite content_finish by done. rewrite bool_decide_eq_true_2 by done.
      destruct (destroy_cases fi (DetAfter Zombie) calls pd p0 E1) as [Ed | [Ed Hout]]; [left | right].
      * eexists. split; [by erewrite bind_done by exact Ed |]. by apply inv_intro_none.
      * split; [| split; simpl; [done | tauto]]. unfold mbind, st_bind. by rewrite Ed.
Qed.

Lemma own_step_request_join pending spurious f fi o calls pd :
  inv pending (mkCoSys f fi o calls pd) →
  ((∃ k cb, o = JoinLoad k cb) ∨ (∃ k cb ex, o = JoinLoop k cb ex) ∨ ∃ k cb ex d, o = JoinCas k cb ex d) →
  step_ok pending (own_step spurious) (mkCoSys f fi o calls pd).
Proof.
  intros Hi Ho. pose proof Hi as [(e & Ee & Ef) _ _ Hcalls Hp Hr].
  unfold step_ok, own_step. rewrite bind_get. simpl in Ee, Ef, Hcalls, Hp, Hr.
  destruct Ho as [(k & cb & ->) | [(k & cb & ex & ->) | (k & cb & ex & d & ->)]]; cbn [own]; left.
  - destruct (expect_unclaimed _ _ _ (or_intror (ex_intro _ k (ex_intro _ cb eq_refl))) Ee)
      as (st & -> & Hcase & _ & E').
    destruct (inv_alive _ _ _ Hi Ee) as (p0 & E1 & E2 & E3 & Ef' & Hst). simpl in Ef', Hst. subst f.
    eexists. split; [reflexivity |]. simpl. rewrite state_content, E3.
    by eapply inv_own_move.
  - destruct (expect_join_loop _ _ _ _ _ Ee) as (st & d & -> & Hd & E' & Hex). rewrite Hd.
    destruct (inv_alive _ _ _ Hi Ee) as (p0 & E1 & E2 & E3 & Ef' & Hst). simpl in Ef', Hst. subst f.
    destruct Hex as [-> | ->]; (eexists; split; [reflexivity |]); simpl.
    + rewrite set_callback_content. apply (inv_intro pending (set_callback cb p0) fi); simpl; try done.
      { by rewrite E3. } { naive_solver. }
    + by eapply inv_own_move.
  - destruct (expect_join_cas _ _ _ _ _ _ Ee) as (st & -> & E' & Hok & Hex & Hnd).
    destruct (inv_alive _ _ _ Hi Ee) as (p0 & E1 & E2 & E3 & Ef' & Hst). simpl in Ef', Hst. subst f.
    destruct (cas_cases spurious ex d p0 fi (JoinCas k cb ex d) calls pd) as [[Ec Est] | Ec];
      (eexists; split; [by erewrite bind_done by exact Ec |]); simpl; unfold cas_next; simpl.
    + assert (st = ex) as Hse by congruence. specialize (Hok Hse).
      apply (inv_intro pending (set_state d p0) fi); try done.
      destruct Hex as [-> | ->]; simpl; [| done]. specialize (Hnd Hse eq_refl).
      simpl in Hcalls. destruct fi as [| | | | |n]; try done. by destruct (Hnd n).
    + rewrite E3. by eapply inv_own_move.
Qed.

Lemma own_step_joined pending spurious f fi o calls pd :
  inv pending (mkCoSys f fi o calls pd) →
  ((∃ k cb prev, o = JoinAfter k cb prev) ∨ (∃ k cb, o = JoinWait k cb) ∨ ∃ k cb, o = JoinReady k cb) →
  step_ok pending (own_step spurious) (mkCoSys f fi o calls pd).
Proof.
  intros Hi Ho. pose proof Hi as [(e & Ee & Ef) _ _ Hcalls Hp Hr].
  unfold step_ok, own_step. rewrite bind_get. simpl in Ee, Ef, Hcalls, Hp, Hr.
  destruct Ho as [(k & cb & prev & ->) | [(k & cb & ->) | (k & cb & ->)]]; cbn [own]; left.
  - destruct (expect_join_after _ _ _ _ _ _ Ee Hcalls) as [(-> & E' & Hc') | (-> & E' & Hc')];
      (eexists; split; [reflexivity |]); by eapply inv_own_move.
  - cbn [invoked]. case_bool_decide as Hin; [| by eexists].
    destruct (expect_join_wait _ _ _ _ _ Ee Hcalls Hin) as [E' Hc'].
    eexists. split; [reflexivity |]. by eapply inv_own_move.
  - destruct (expect_join_ready _ _ _ _ _ Ee Hcalls) as (-> & E' & Hc' & Hb).
    destruct (inv_alive _ _ _ Hi Ee) as (p0 & E1 & E2 & E3 & Ef' & Hst). simpl in Ef', Hst. subst f.
    rewrite content_finish by done. pose proof (take_result_spec p0 out E1 E2) as Et.
    destruct k; simpl; erewrite bind_done by done;
      (eexists; split; [by erewrite bind_done by (eapply zoom_done, Et) |]); simpl;
      (apply inv_intro_none; [done | done | | by intros r [= <-]]); subst pd; simpl; [| done].
    rewrite wrap_add_l. f_equal. lia.
Qed.

Lemma own_step_inv pending spurious s :
  inv pending s → step_ok pending (own_step spurious) s.
Proof.
  destruct s as [f fi o calls pd]. intros Hi.
  destruct o; try (left; by eexists);
    eauto 8 using own_step_detach, own_step_request_join, own_step_joined.
Qed.

Lemma step_inv pending l s : inv pending s → step_ok pending (step l) s.
Proof.
  intros Hi. destruct l as [sp | sp | | k cb].
  - by apply fin_step_inv.
  - by apply own_step_inv.
  - destruct s as [f fi o calls pd]. left. destruct o; try (by eexists).
    eexists. split; [reflexivity |]. destruct (inv_frame _ _ Hi) as (e & Ee & _).
    by eapply inv_own_move; [| | | apply Hi | | |].
  - destruct s as [f fi o calls pd]. left. destruct o; try (by eexists).
    destruct Hi as [H1 H2 H3 H4 H5 H6]. simpl in *.
    destruct k; (eexists; split; [reflexivity |]); split; simpl; try done.
    rewrite H5, wrap_add_l. f_equal. lia.
Qed.

Lemma reach_inv pending s : 0 ≤ pending < 2 ^ 64 → reach pending s → inv pending s.
Proof.
  intros Hp. induction 1 as [| s l s' _ Hi E].
  - split; simpl; try done.
    + by eexists.
    + intros p [= <-]. by exists (mark_running promise_new).
    + rewrite Z.add_0_r. by rewrite wrap_small.
  - destruct (step_inv pending l s Hi) as [(s1 & E1 & Hi1) | [E1 _]]; congruence.
Qed.

(** *** Progress *)

(** A bound on the steps that remain, spurious failures apart: each phase of
    the two protocols, one more round for a loop whose [expected] is outdated. *)
Definition fin_rank (st : option State) (f : fin_pc) : nat :=
  match f with
  | FinBody => 8
  | FinLoad => 7
  | FinCas ex => if bool_decide (st = Some ex) then 5 else 6
  | FinAfter _ => 2
  | FinCall _ => 1
  | FinDone _ => 0
  end.
Definition own_rank (st : option State) (o : own_pc T) : nat :=
  match o with
  | OwnHold => 10
  | DetLoad => 5
  | DetCas ex => if bool_decide (st = Some ex) then 3 else 4
  | DetAfter _ => 1
  | JoinLoad _ _ => 9
  | JoinLoop _ _ ex => if bool_decide (st = Some ex) then 6 else 8
  | JoinCas _ _ ex _ => if bool_decide (st = Some ex) then 5 else 7
  | JoinAfter _ _ _ => 3
  | JoinWait _ _ => 2
  | JoinReady _ _ => 1
  | OwnDetached | OwnJoined _ => 0
  end.
Definition rank (s : CoSys T) : nat :=
  fin_rank (state_ <$> cframe s) (fin s) + own_rank (state_ <$> cframe s) (own s).

Definition spurious_label (l : label) : bool :=
  match l with LFin sp | LOwn sp => sp | _ => false end.

Definition finished (s : CoSys T) : Prop :=
  fin s = FinDone NoopCoroutine ∧ (own s = OwnDetached ∨ ∃ r, own s = OwnJoined r).

(** All pairs of program counters that are reached, with the state of the frame. *)
Ltac pc_cases f fi o Ee Ef :=
  destruct fi as [| |[]|[]|?|[]];
  destruct o as [| |[]|[]|[]|[] ? []|[] ? [] []|[] ? []|[]|[]| |];
  simpl in Ee; try discriminate Ee;
  try (case_bool_decide; try discriminate Ee);
  injection Ee as <-; destruct f as [[]|]; simpl in Ef; try discriminate Ef;
  try (injection Ef as ->).

Lemma fin_step_rank pending s s' :
  inv pending s → fin_step false s = Done tt s' →
  (s' = s ∧ ∃ n, fin s = FinDone n) ∨ (rank s' < rank s)%nat.
Proof.
  intros [(e & Ee & Ef) _ _ _ _ _] E. destruct s as [f fi o calls pd]. simpl in Ee, Ef.
  pc_cases f fi o Ee Ef.
  all: unfold fin_step, on_frame, on_promise, promise, compare_exchange_weak, destroy, read_callback,
    invoke_callback, set_fin in E; run_st_in E; simplify_eq; repeat (case_match; simplify_eq/=);
    try (left; bool_to_prop; by eauto 10); right; unfold rank; simpl; rewrite ?state_finish; simpl;
    repeat case_bool_decide; simplify_eq; lia.
Qed.

Lemma own_step_rank pending s s' :
  inv pending s → own_step false s = Done tt s' →
  (s' = s ∧ (own s = OwnHold ∨ own s = OwnDetached ∨ (∃ r, own s = OwnJoined r) ∨
             ∃ k cb, own s = JoinWait k cb ∧ cb ∉ invoked s)) ∨
  (rank s' < rank s)%nat.
Proof.
  intros [(e & Ee & Ef) _ _ _ _ _] E. destruct s as [f fi o calls pd]. simpl in Ee, Ef.
  pc_cases f fi o Ee Ef.
  all: unfold own_step, on_frame, on_promise, promise, compare_exchange_weak, destroy, take_result,
    exception, value, on_promise, promise, add_pending, set_own in E; run_st_in E; simplify_eq;
    repeat (case_match; simplify_eq/=);
    try (left; bool_to_prop; by eauto 10); right; unfold rank; simpl; rewrite ?state_finish; simpl;
    repeat case_bool_decide; simplify_eq; lia.
Qed.

Lemma step_rank pending l s s' :
  inv pending s → spurious_label l = false → step l s = Done tt s' → s' = s ∨ (rank s' < rank s)%nat.
Proof.
  intros Hi Hl E. destruct l as [sp | sp | | k cb]; simpl in Hl; subst;
    unfold step, own_detach, own_join, set_own, add_pending in E;
    rewrite bind_get in E.
  - destruct (fin_step_rank _ _ _ Hi E) as [[-> _] | ?]; auto.
  - destruct (own_step_rank _ _ _ Hi E) as [[-> _] | ?]; auto.
  - destruct s as [f fi []  calls pd]; run_st_in E; simplify_eq; auto. right. unfold rank. simpl. lia.
  - destruct s as [f fi []  calls pd]; run_st_in E; simplify_eq; auto. destruct k; simplify_eq/=;
      right; unfold rank; simpl; lia.
Qed.

(** A joiner that still waits when the coroutine is done has been called back. *)
Lemma wait_called pending s k cb n :
  inv pending s → own s = JoinWait k cb → fin s = FinDone n → cb ∈ invoked s.
Proof.
  intros Hi Eo Ef. pose proof (inv_calls _ _ Hi) as Hc. rewrite Eo, Ef in Hc. simpl in Hc.
  rewrite Hc. by apply list_elem_of_singleton.
Qed.

(** C6. Safety of the life cycle of a spawned coroutine: in every interleaving of
    the coroutine's end with a detach, a [co_await] or a [wait] of its task,
    spurious failures of the compare-exchange included, each step returns: no
    invalid state is met, no union member is misread, the frame is never touched
    or destroyed after it was destroyed.  The only panic is the documented one
    for a detached coroutine that ends with an exception. *)
Theorem task_steps_safe pending s l :
  0 ≤ pending < 2 ^ 64 → reach pending s →
  (∃ s', step l s = Done tt s') ∨ (step l s = Crashed Panic ∧ detached_failure s).
Proof.
  intros Hp Hr. destruct (step_inv pending l s (reach_inv _ _ Hp Hr)) as [(s' & E & _) | ?]; eauto.
Qed.

(** The end of the life cycle: when both threads are done the frame has been
    destroyed (exactly once, since a second destruction would be an error), the
    join callback was called at most once, a joiner has received exactly what
    the coroutine returned or raised, and the pending-work counter of its
    runtime is back where it was. *)
Theorem task_finished_clean pending s :
  0 ≤ pending < 2 ^ 64 → reach pending s → finished s →
  cframe s = None ∧ (length (invoked s) ≤ 1)%nat ∧ (∀ r, own s = OwnJoined r → r = out) ∧
  pending_works_ s = pending.
Proof.
  intros Hp Hr [Ef Eo]. pose proof (reach_inv _ _ Hp Hr) as [(e & Ee & Es) _ _ Hc Hpd Hres].
  rewrite Ef in Ee, Hc. destruct s as [f fi o calls pd]; simpl in *.
  rewrite <- (wrap_small 64 pending), Hpd by done.
  destruct Eo as [-> | [r ->]]; simpl in *; simplify_eq; destruct f; try done;
    rewrite Z.add_0_r; split_and!; try done; simpl; lia.
Qed.

(** C26. Termination: a step that is not a spurious failure leaves the state alone
    or decreases [rank], which is 18 when the task is spawned; and once the owner
    has decided, some thread can take a decreasing step (or the documented panic
    happens) until both are done.  So no retry loop of the three protocols
    livelocks and no joiner waits for ever. *)
Theorem task_terminates pending s :
  0 ≤ pending < 2 ^ 64 → reach pending s →
  (∀ l s', spurious_label l = false → step l s = Done tt s' → s' = s ∨ (rank s' < rank s)%nat) ∧
  (own s ≠ OwnHold →
     finished s ∨
     ∃ l, spurious_label l = false ∧
       ((∃ s', step l s = Done tt s' ∧ (rank s' < rank s)%nat) ∨
        (step l s = Crashed Panic ∧ detached_failure s))).
Proof.
  intros Hp Hr. pose proof (reach_inv _ _ Hp Hr) as Hi.
  split; [intros l s' Hl E; by eapply step_rank |]. intros Ho.
  destruct (step_inv pending (LFin false) s Hi) as [(s1 & E1 & _) | Hf]; [| right; by exists (LFin false); auto].
  destruct (fin_step_rank _ _ _ Hi E1) as [[_ [n En]] | ?]; [| right; exists (LFin false); eauto].
  destruct (step_inv pending (LOwn false) s Hi) as [(s2 & E2 & _) | Hf]; [| right; by exists (LOwn false); auto].
  destruct (own_step_rank _ _ _ Hi E2) as [[_ Hs] | ?]; [| right; exists (LOwn false); eauto].
  destruct Hs as [? | [Hd | [Hj | (k & cb & Ew & Hn)]]]; [done | | | by destruct Hn; eapply wait_called].
  - left. split; [| by left]. pose proof (inv_frame _ _ Hi) as (e & Ee & _). rewrite Hd, En in *.
    by destruct n.
  - left. split; [| by right]. pose proof (inv_frame _ _ Hi) as (e & Ee & _).
    destruct Hj as [r Er]. rewrite Er, En in *. by destruct n.
Qed.

End steps.

(** A run with a spurious failure in which the join is requested while the
    coroutine finishes. *)
Definition demo_labels : list label :=
  [LJoin CoAwait 5; LOwn false; LFin false; LFin false; LOwn false; LFin true; LFin false;
   LOwn false; LOwn false; LOwn false; LFin false; LOwn false; LOwn false; LOwn false].

Fixpoint run_labels {T} (out : outcome T) (ls : list label) : ST (CoSys T) unit :=
  match ls with
  | [] => mret tt
  | l :: ls => step out l;; run_labels out ls
  end.

Lemma run_labels_reach {T} (out : outcome T) pending ls : ∀ s s',
  reach out pending s → run_labels out ls s = Done tt s' → reach out pending s'.
Proof.
  induction ls as [|l ls IH]; intros s s' Hr E; simpl in E; [by injection E as <- |].
  unfold mbind, st_bind in E. destruct (step out l s) as [[] s1 | |] eqn:E1; [| done | done].
  eapply IH; [| exact E]. by eapply reach_step.
Qed.

(** The state in which a run of [demo_labels] stops after [n] labels. *)
Definition demo_state (n : nat) : CoSys Z :=
  match run_labels (Returned 42) (take n demo_labels) (co_spawn 3) with
  | Done _ s => s
  | _ => co_spawn 3
  end.

Lemma demo_reached n :
  run_labels (Returned 42) (take n demo_labels) (co_spawn 3) = Done tt (demo_state n) →
  reach (Returned 42) 3 (demo_state n).
Proof. apply run_labels_reach, reach_spawn. Qed.

Lemma task_steps_safe_witness :
  (∃ s', step (Returned 42) (LOwn false) (demo_state 7) = Done tt s') ∨
  (step (Returned 42) (LOwn false) (demo_state 7) = Crashed Panic ∧
   detached_failure (Returned 42) (demo_state 7)).
Proof.
  apply (task_steps_safe (Returned 42) 3); [lia |]. by apply demo_reached; vm_compute.
Defined.

Lemma task_finished_clean_witness :
  let s := demo_state 14 in
  cframe s = None ∧ (length (invoked s) ≤ 1)%nat ∧ (∀ r, own s = OwnJoined r → r = Returned 42) ∧
  pending_works_ s = 3.
Proof.
  apply (task_finished_clean (Returned 42) 3); [lia | by apply demo_reached; vm_compute |].
  split; [by vm_compute | right; eexists; by vm_compute].
Defined.

Lemma task_terminates_witness :
  (∀ l s', spurious_label l = false → step (Returned 42) l (demo_state 7) = Done tt s' →
     s' = demo_state 7 ∨ (rank s' < rank (demo_state 7))%nat) ∧
  (own (demo_state 7) ≠ OwnHold →
     finished (demo_state 7) ∨
     ∃ l, spurious_label l = false ∧
       ((∃ s', step (Returned 42) l (demo_state 7) = Done tt s' ∧ (rank s' < rank (demo_state 7))%nat) ∨
        (step (Returned 42) l (demo_state 7) = Crashed Panic ∧
         detached_failure (Returned 42) (demo_state 7)))).
Proof.
  apply (task_terminates (Returned 42) 3); [lia |]. by apply demo_reached; vm_compute.
Defined.

End Lifecycle.

(** ** Awaiting a coroutine *)
Module Await.

Section await.
Context {T : Type} (out : outcome T).

(** [FinalAwaiter::await_suspend] run without interference: for a coroutine
    that was not spawned it is a load of the state and a read of the caller. *)
Definition final_suspend : ST (frame T) cohandle := λ f,
  match (Lifecycle.fin_step out false;; Lifecycle.fin_step out false)
          (Lifecycle.mkCoSys f Lifecycle.FinLoad Lifecycle.OwnHold [] 0) with
  | Done _ s =>
      match Lifecycle.fin s with
      | Lifecycle.FinDone h => Done h (Lifecycle.cframe s)
      | _ => Crashed OutOfFuel
      end
  | Thrown e s => Thrown e (Lifecycle.cframe s)
  | Crashed c => Crashed c
  end.

(** [co_await coro]: [CoroAwaiterBase::await_suspend] stores the caller and
    transfers to the coroutine; its body runs to the end; [final_suspend]
    transfers to the handle it returns; the caller takes the result. *)
Definition co_await_coro (caller : cohandle) : ST (frame T) (cohandle * outcome T) :=
  on_promise (set_caller_handle caller);;
  on_promise (finish_body out);;
  next ← final_suspend;
  r ← take_result;
  mret (next, r).

End await.

(** Awaiting a coroutine behaves like a call: control returns to the awaiting
    coroutine, which gets the value returned or the exception raised by the
    body, and the frame is destroyed without a panic in both cases. *)
Theorem co_await_coro_returns {T} (out : outcome T) caller :
  co_await_coro out caller (Some promise_new) = Done (caller, out) None.
Proof. by destruct out. Qed.

End Await.

(** ** Awaiting an asynchronous operation *)
Module SenderAwaiter.

(** [resumed]: the coroutines resumed by the completion. *)
Record SenderAwaiter (R : Type) := mkSenderAwaiter {
  handle_ : cohandle;
  result_ : option R;
  resumed : list nat
}.
Arguments mkSenderAwaiter {R} handle_ result_ resumed.
Arguments handle_ {R} s.
Arguments result_ {R} s.
Arguments resumed {R} s.

Section awaiter.
Context {R : Type}.
Abbreviation M := (ST (SenderAwaiter R)).

Definition awaiter_new : SenderAwaiter R := mkSenderAwaiter NoopCoroutine None [].

Definition exchange_handle (h : cohandle) : M cohandle :=
  a ← get;
  put (mkSenderAwaiter h (result_ a) (resumed a));;
  mret (handle_ a).

(** [h.resume()] *)
Definition resume (h : cohandle) : M unit :=
  match h with
  | NoopCoroutine => mret tt
  | NullHandle => crashed BadAccess
  | Handle id => modify (λ a, mkSenderAwaiter (handle_ a) (result_ a) (resumed a ++ [id]))
  end.

Definition handle_result_ (r : R) : M unit :=
  modify (λ a, mkSenderAwaiter (handle_ a) (Some r) (resumed a));;
  h ← exchange_handle NullHandle;
  resume h.

(** [inline]: the result when [operation_state_.start(0)] completes before it
    returns.  [true] keeps the coroutine suspended. *)
Definition await_suspend (id : nat) (inline : option R) : M bool :=
  match inline with Some r => handle_result_ r | None => mret tt end;;
  h ← exchange_handle (Handle id);
  mret (bool_decide (h = NoopCoroutine)).

Definition await_resume : M R :=
  a ← get;
  match result_ a with Some r => mret r | None => crashed BadAccess end.

(** An awaited operation resumes its coroutine exactly once: when it completes
    inside [start], the coroutine continues without suspending and nobody else
    resumes it; otherwise it stays suspended until the completion, which resumes
    it once.  In both cases [await_resume] returns the result. *)
Theorem sender_awaiter_resumes_once (id : nat) (r : R) :
  (∃ a, await_suspend id (Some r) awaiter_new = Done false a ∧ resumed a = [] ∧
     await_resume a = Done r a) ∧
  (∃ a1 a2, await_suspend id None awaiter_new = Done true a1 ∧ resumed a1 = [] ∧
     handle_result_ r a1 = Done tt a2 ∧ resumed a2 = [id] ∧ await_resume a2 = Done r a2).
Proof. split; [by eexists | by eexists _, _]. Qed.

End awaiter.
End SenderAwaiter.

(** ** Coroutine frames with an allocator *)
Module BindAllocator.

(** The memory: the live blocks with their sizes, and the addresses at which a
    copy of the allocator lives.  [alloc.allocate] returns an address and the
    copy constructor may throw: both are inputs. *)
Record Memory := mkMemory {
  blocks : gmap Z Z;
  copies : gset Z
}.

Section bind.
(** [alignof(Allocator)] and [sizeof(Allocator)] *)
Context (align_alloc size_alloc : Z).

Definition allocate (mem : Z) (total_size : Z) : ST Memory Z :=
  m ← get;
  put (mkMemory (<[mem := total_size]> (blocks m)) (copies m));;
  mret mem.

(** Deallocating with another size than the block was allocated with is
    undefined. *)
Definition deallocate (mem total_size : Z) : ST Memory unit :=
  m ← get;
  if bool_decide (blocks m !! mem = Some total_size) then
    put (mkMemory (delete mem (blocks m)) (copies m))
  else crashed BadAccess.

Definition operator_new (size mem : Z) (copy_throws : option exn) : ST Memory Z :=
  allocator_offset ← align_up 64 size align_alloc;
  let total_size := u64 (allocator_offset + size_alloc) in
  mem ← allocate mem total_size;
  match copy_throws with
  | Some e =>
      deallocate mem total_size;;
      throw e
  | None =>
      modify (λ m, mkMemory (blocks m) ({[mem + allocator_offset]} ∪ copies m));;
      mret mem
  end.

Definition operator_delete (ptr size : Z) : ST Memory unit :=
  allocator_offset ← align_up 64 size align_alloc;
  let total_size := u64 (allocator_offset + size_alloc) in
  m ← get;
  if bool_decide (ptr + allocator_offset ∈ copies m) then
    put (mkMemory (blocks m) (copies m ∖ {[ptr + allocator_offset]}));;
    deallocate ptr total_size
  else crashed BadAccess.

(** Frames with an allocator: [operator new] puts the copy of the allocator
    behind the frame, aligned and inside the block it allocated; [operator
    delete] finds it there and returns the same block with the same size, after
    which the memory is as before.  When copying the allocator throws, the block
    is given back before the exception leaves. *)
Theorem bind_allocator_balanced size mem m :
  is_pow2 align_alloc → 0 ≤ size → 0 < size_alloc → size + align_alloc + size_alloc < 2 ^ 64 →
  (align_alloc | mem) → blocks m !! mem = None →
  (∀ a, mem ≤ a < mem + size + align_alloc → a ∉ copies m) →
  (∃ off m1, operator_new size mem None m = Done mem m1 ∧
     size ≤ off ∧ (align_alloc | mem + off) ∧
     blocks m1 = <[mem := off + size_alloc]> (blocks m) ∧ copies m1 = {[mem + off]} ∪ copies m ∧
     operator_delete mem size m1 = Done tt m) ∧
  (∀ e, operator_new size mem (Some e) m = Thrown e m).
Proof.
  intros Ha Hs Hsa Hov Hal Hm Hc. pose proof (is_pow2_pos _ Ha).
  destruct (align_up_ok (S := Memory) 64 size align_alloc ltac:(lia) Ha Hs ltac:(lia))
    as (off & E' & Hd & Hb).
  assert (u64 (off + size_alloc) = off + size_alloc) as Et by (apply wrap_small; lia).
  destruct m as [bl cp]. simpl in *. split.
  - exists off. eexists. unfold operator_new, operator_delete, allocate, deallocate.
    split; [erewrite bind_done by apply E'; run_st; reflexivity |]. rewrite Et.
    split_and!; [lia | by apply Z.divide_add_r | done | done |].
    erewrite bind_done by apply E'. run_st. rewrite bool_decide_eq_true_2 by set_solver.
    rewrite Et, bool_decide_eq_true_2 by apply lookup_insert_eq. f_equal. f_equal.
    + by rewrite delete_insert_id.
    + assert (mem + off ∉ cp) by (apply Hc; lia). set_solver.
  - intros e. unfold operator_new, allocate, deallocate. erewrite bind_done by apply E'. run_st.
    rewrite bool_decide_eq_true_2 by apply lookup_insert_eq. by rewrite delete_insert_id.
Qed.

End bind.

Lemma bind_allocator_balanced_witness :
  let m := mkMemory ∅ ∅ in
  (∃ off m1, operator_new 16 24 100 4096 None m = Done 4096 m1 ∧
     100 ≤ off ∧ (16 | 4096 + off) ∧
     blocks m1 = <[4096 := off + 24]> (blocks m) ∧ copies m1 = {[4096 + off]} ∪ copies m ∧
     operator_delete 16 24 4096 100 m1 = Done tt m) ∧
  (∀ e, operator_new 16 24 100 4096 (Some e) m = Thrown e m).
Proof.
  apply bind_allocator_balanced; try done; [by exists 4 | by exists 256].
Defined.

End BindAllocator.

(** ** The task object *)
Module TaskObject.

(** A [Task]: [handle_] is null or refers to the coroutine frame.  [in_runtime]
    tells whether the calling thread runs a runtime. *)
Record TaskWorld (T : Type) := mkTaskWorld {
  handle_ : bool;
  tframe : frame T;
  in_runtime : bool
}.
Arguments mkTaskWorld {T} handle_ tframe in_runtime.
Arguments handle_ {T} t.
Arguments tframe {T} t.
Arguments in_runtime {T} t.

Section task.
Context {T : Type}.
Abbreviation M := (ST (TaskWorld T)).

(** [std::exchange(handle_, nullptr)] *)
Definition release_handle : M bool :=
  t ← get;
  put (mkTaskWorld false (tframe t) (in_runtime t));;
  mret (handle_ t).

Definition joinable (t : TaskWorld T) : bool := handle_ t.

(** [~TaskBase()] *)
Definition task_destroy : M unit :=
  t ← get;
  if handle_ t then crashed Panic else mret tt.

(** [operator=(TaskBase &&other)], the other task given by its handle. *)
Definition task_move_assign (self_assign other : bool) : M unit :=
  if self_assign then mret tt
  else
    t ← get;
    if handle_ t then crashed Panic
    else put (mkTaskWorld other (tframe t) (in_runtime t)).

(** [TaskAwaiterBase::await_ready] of the awaiter that [co_await task] makes. *)
Definition await_ready : M bool :=
  h ← release_handle;
  if h : bool then mret false else throw InvalidArgument.

(** The checks of [wait_inner_]; the join protocol follows ([Lifecycle]). *)
Definition wait_inner_checks (h : bool) : M unit :=
  t ← get;
  if in_runtime t then throw LogicError
  else if negb h then throw InvalidArgument
  else mret tt.

(** [Task::wait] for a coroutine that has finished ([Zombie]). *)
Definition wait : M (outcome T) :=
  h ← release_handle;
  wait_inner_checks h;;
  zoom tframe (λ f t, mkTaskWorld (handle_ t) f (in_runtime t)) take_result.

End task.

(** [wait] on a finished task outside a runtime returns the coroutine's
    result and destroys its frame; on a task without a coroutine it throws
    [std::invalid_argument]; inside a runtime it throws [std::logic_error], but
    only after the task has given up its handle: the task is no longer joinable
    and the frame is still there. *)
Theorem task_wait_branches {T} (out : outcome T) (p : Promise T) (f : frame T) :
  exception_ p = None → value_ p = None →
  wait (mkTaskWorld true (Some (finish_body out p)) false) = Done out (mkTaskWorld false None false) ∧
  wait (mkTaskWorld false f false) = Thrown InvalidArgument (mkTaskWorld false f false) ∧
  (∀ h, wait (mkTaskWorld h f true) = Thrown LogicError (mkTaskWorld false f true)).
Proof.
  intros E1 E2. split_and!; [| done | done]. unfold wait, release_handle, wait_inner_checks. run_st.
  by rewrite take_result_spec.
Qed.

Lemma task_wait_branches_witness :
  let p := mkPromise Zombie (CallerHandle NoopCoroutine) None None in
  wait (mkTaskWorld true (Some (finish_body (Returned 7) p)) false)
    = Done (Returned 7) (mkTaskWorld false None false) ∧
  wait (mkTaskWorld false None false) = Thrown InvalidArgument (mkTaskWorld (T := Z) false None false) ∧
  (∀ h, wait (mkTaskWorld h (Some p) true) = Thrown LogicError (mkTaskWorld false (Some p) true)).
Proof.
  intros p. split; [| split; [| intros h]].
  - by apply (task_wait_branches (Returned 7) p None).
  - by apply (task_wait_branches (Returned 7) p None).
  - by apply (task_wait_branches (Returned 7) p (Some p)).
Defined.

End TaskObject.
