(* ===== verification/Futex.v ===== *)
(** * Futexes (include/condy/futex.hpp)

    [Futex<T>]: a value, a list of waiting operations and a lock.  [request_wait_],
    [cancel_wait_] and the removal of a waiter by [notify_one] happen under the
    lock.  [notify_all_] takes the whole list under the lock and then empties it
    without the lock, so it is modelled as a sequence of steps
    ([notify_all_begin], then [notify_all_next] until the list is empty) between
    which other threads may act.  The links of all waiters live in one heap,
    which the futex's list and the list being emptied share. *)

From stdpp Require Import base numbers list gmap sets.
From S2P Require Import Prelude Intrusive.
Import Double.

Abbreviation RuntimeId := nat.

(** The stop token of a receiver when the operation is started. *)
Inductive stop_state : Type :=
  | StopImpossible
  | StopPossible
  | StopRequested.

(** [WaitFinishHandle] *)
Record WaitHandle := mkWaitHandle {
  runtime_ : RuntimeId;
  result_ : Z;
  stop_callback_ : bool
}.

(** The objects a futex works on: the handles, the calls of
    [schedule_internal], the [pending_works_] counters and the completions. *)
Record FEnv := mkFEnv {
  handles : gmap addr WaitHandle;
  scheduled : list (RuntimeId * addr);
  pending_works : gmap RuntimeId Z;
  received : list (addr * Z)
}.

(** [draining]: the local list and the result of a [notify_all_] that is under
    way. *)
Record FutexSys (T : Type) := mkFutexSys {
  futex_ : T;
  links : heap;
  wait_awaiters_ : DoubleLinkListImpl;
  draining : option (DoubleLinkListImpl * Z);
  fenv : FEnv
}.
Arguments mkFutexSys {T} futex_ links wait_awaiters_ draining fenv.
Arguments futex_ {T} f.
Arguments links {T} f.
Arguments wait_awaiters_ {T} f.
Arguments draining {T} f.
Arguments fenv {T} f.

Definition fenv_new : FEnv := mkFEnv ∅ [] ∅ [].

Definition pending (e : FEnv) (rt : RuntimeId) : Z := default 0 (pending_works e !! rt).

Definition set_handle (h : addr) (w : WaitHandle) (e : FEnv) : FEnv :=
  mkFEnv (<[h := w]> (handles e)) (scheduled e) (pending_works e) (received e).
Definition schedule_internal (rt : RuntimeId) (h : addr) (e : FEnv) : FEnv :=
  mkFEnv (handles e) (scheduled e ++ [(rt, h)]) (pending_works e) (received e).
Definition pend_work (d : Z) (rt : RuntimeId) (e : FEnv) : FEnv :=
  mkFEnv (handles e) (scheduled e) (<[rt := u64 (pending e rt + d)]> (pending_works e)) (received e).
Definition receive (h : addr) (r : Z) (e : FEnv) : FEnv :=
  mkFEnv (handles e) (scheduled e) (pending_works e) (received e ++ [(h, r)]).
Definition remove_scheduled (i : nat) (e : FEnv) : FEnv :=
  mkFEnv (handles e) (delete i (scheduled e)) (pending_works e) (received e).

Section futex.
Context {T : Type} `{EqDecision T}.
Abbreviation M := (ST (FutexSys T)).

Definition futex_new (v : T) : FutexSys T := mkFutexSys v ∅ double_new None fenv_new.

Definition on_env (g : FEnv → FEnv) : M unit :=
  modify (λ s, mkFutexSys (futex_ s) (links s) (wait_awaiters_ s) (draining s) (g (fenv s))).
Definition get_handle (h : addr) : M WaitHandle :=
  s ← get;
  match handles (fenv s) !! h with Some w => mret w | None => crashed BadAccess end.

(** An operation on [wait_awaiters_]. *)
Definition on_waiters {A} (f : DoubleLinkListImpl → ST heap (A * DoubleLinkListImpl)) : M A := λ s,
  match f (wait_awaiters_ s) (links s) with
  | Done (a, l) h => Done a (mkFutexSys (futex_ s) h l (draining s) (fenv s))
  | Thrown e h => Thrown e (mkFutexSys (futex_ s) h (wait_awaiters_ s) (draining s) (fenv s))
  | Crashed c => Crashed c
  end.

(** [handle->set_result(result); handle->schedule()] *)
Definition set_result_schedule (h : addr) (result : Z) : M unit :=
  w ← get_handle h;
  on_env (set_handle h (mkWaitHandle (runtime_ w) result (stop_callback_ w)));;
  on_env (schedule_internal (runtime_ w) h).

Definition notify_one : M unit :=
  p ← on_waiters double_pop_front;
  match p with
  | None => mret tt
  | Some h => set_result_schedule h 0
  end.

Definition cancel_wait_ (h : addr) : M bool := on_waiters (λ l, double_remove l (Some h)).

Definition request_wait_ (h : addr) (old : T) : M Z :=
  s ← get;
  if bool_decide (futex_ s ≠ old) then mret 0
  else
    on_waiters (λ l, l' ← double_push_back l (Some h); mret (tt, l'));;
    mret (- EAGAIN).

(** [handles = std::move(wait_awaiters_)] under the lock. *)
Definition notify_all_begin (result : Z) : M unit :=
  s ← get;
  match double_move double_new (wait_awaiters_ s) (links s) with
  | Done (local, rest) h => put (mkFutexSys (futex_ s) h rest (Some (local, result)) (fenv s))
  | Thrown e h => throw e
  | Crashed c => crashed c
  end.

(** One evaluation of [while (auto *handle = handles.pop_front())]: [true] when
    the loop goes on. *)
Definition notify_all_next : M bool :=
  s ← get;
  match draining s with
  | None => mret false
  | Some (local, result) =>
      match double_pop_front local (links s) with
      | Done (None, _) h =>
          put (mkFutexSys (futex_ s) h (wait_awaiters_ s) None (fenv s));;
          mret false
      | Done (Some handle, local') h =>
          put (mkFutexSys (futex_ s) h (wait_awaiters_ s) (Some (local', result)) (fenv s));;
          set_result_schedule handle result;;
          mret true
      | Thrown e h => throw e
      | Crashed c => crashed c
      end
  end.

Fixpoint notify_all_loop (fuel : nat) : M unit :=
  match fuel with
  | O => crashed OutOfFuel
  | S fuel => more ← notify_all_next; if more : bool then notify_all_loop fuel else mret tt
  end.

(** [notify_all_] without interference; one more turn than there are handles. *)
Definition notify_all_ (result : Z) : M unit :=
  s ← get;
  notify_all_begin result;;
  notify_all_loop (S (base.size (handles (fenv s)))).

Definition notify_all : M unit := notify_all_ 0.

(** [~Futex()] *)
Definition futex_destroy : M unit := notify_all_ (- EIDRM).

(** [WaitFinishHandle::cancel_] *)
Definition wait_cancel (h : addr) : M unit :=
  ok ← cancel_wait_ h;
  if ok : bool then set_result_schedule h (- ECANCELED) else mret tt.

(** [WaitFinishHandle(futex, receiver)] followed by [start(runtime, old)] *)
Definition wait_start (h : addr) (rt : RuntimeId) (old : T) (stop : stop_state) : M unit :=
  on_env (set_handle h (mkWaitHandle rt (- ENOTRECOVERABLE) false));;
  r ← request_wait_ h old;
  if negb (r =? - EAGAIN) then on_env (receive h r)
  else
    on_env (pend_work 1 rt);;
    let engage := on_env (set_handle h (mkWaitHandle rt (- ENOTRECOVERABLE) true)) in
    match stop with
    | StopImpossible => mret tt
    | StopPossible => engage
    | StopRequested => engage;; wait_cancel h
    end.

(** [WaitFinishHandle::invoke] *)
Definition wait_invoke (h : addr) : M unit :=
  w ← get_handle h;
  on_env (set_handle h (mkWaitHandle (runtime_ w) (result_ w) false));;
  on_env (pend_work (- 1) (runtime_ w));;
  on_env (receive h (result_ w)).

(** A runtime takes the [i]-th scheduled handle and invokes it. *)
Definition run_scheduled (i : nat) : M unit :=
  s ← get;
  match scheduled (fenv s) !! i with
  | None => mret tt
  | Some (_, h) => on_env (remove_scheduled i);; wait_invoke h
  end.

(** A change of the futex value by the program. *)
Definition store (v : T) : M unit :=
  modify (λ s, mkFutexSys v (links s) (wait_awaiters_ s) (draining s) (fenv s)).

(** ** Executions *)

Inductive futex_op : Type :=
  | OpStore (v : T)
  | OpWait (h : addr) (rt : RuntimeId) (old : T) (stop : stop_state)
  | OpCancel (h : addr)
  | OpNotifyOne
  | OpNotifyAllBegin (result : Z)
  | OpNotifyAllNext
  | OpRun (i : nat).

Definition exec (op : futex_op) : M unit :=
  match op with
  | OpStore v => store v
  | OpWait h rt old stop => wait_start h rt old stop
  | OpCancel h => wait_cancel h
  | OpNotifyOne => notify_one
  | OpNotifyAllBegin result => notify_all_begin result
  | OpNotifyAllNext => notify_all_next;; mret tt
  | OpRun i => run_scheduled i
  end.

(** The operations of a program: handles are new objects, one [notify_all_] runs
    at a time (the code lets several threads empty lists of their own), a stop callback runs only while it is engaged. *)
Definition op_allowed (op : futex_op) (s : FutexSys T) : Prop :=
  match op with
  | OpWait h _ _ _ => handles (fenv s) !! h = None
  | OpCancel h => ∃ w, handles (fenv s) !! h = Some w ∧ stop_callback_ w = true
  | OpNotifyAllBegin _ => draining s = None
  | _ => True
  end.

(** The additional condition under which the code is right: no waiter is
    cancelled while a [notify_all_] empties its list (a wait that finds its stop
    requested already cancels itself). *)
Definition op_quiet (op : futex_op) (s : FutexSys T) : Prop :=
  match op with
  | OpCancel _ | OpWait _ _ _ StopRequested => draining s = None
  | _ => True
  end.

Inductive futex_run (v0 : T) : FutexSys T → Prop :=
  | futex_run_new : futex_run v0 (futex_new v0)
  | futex_run_step s op s' :
      futex_run v0 s → op_allowed op s → op_quiet op s → exec op s = Done tt s' → futex_run v0 s'.

End futex.
Arguments futex_op T : clear implicits.

(** ** The life of a waiter *)

Definition handle_rt (e : FEnv) (h : addr) : option RuntimeId := runtime_ <$> handles e !! h.

(** [q]: the handles in the futex's list and in the list being emptied. *)
Record flife (q : list addr) (e : FEnv) : Prop := {
  fl_nodup : NoDup (q ++ (scheduled e).*2 ++ (received e).*1);
  fl_started h : h ∈ q ++ (scheduled e).*2 ++ (received e).*1 ↔ is_Some (handle_rt e h);
  fl_sched rt h : (rt, h) ∈ scheduled e → handle_rt e h = Some rt;
  fl_pending rt :
    pending e rt
    = u64 (Z.of_nat (length (filter (λ h, handle_rt e h = Some rt) (q ++ (scheduled e).*2))))
}.

Lemma flife_perm q q' e : q ≡ₚ q' → flife q e → flife q' e.
Proof.
  intros Hq [L1 L2 L3 L4]. split; [| intros h | done | intros rt]; rewrite <- Hq; auto.
Qed.

Lemma filter_rt_ext e e' rt (l : list addr) :
  (∀ h, h ∈ l → handle_rt e' h = handle_rt e h) →
  filter (λ h, handle_rt e' h = Some rt) l = filter (λ h, handle_rt e h = Some rt) l.
Proof.
  induction l as [|h l IH]; intros E; [done |]. rewrite !filter_cons, IH by set_solver.
  by rewrite E by set_solver.
Qed.

(** Changes of the environment that keep runtimes, schedule and counters. *)
Lemma flife_ext q e e' :
  (∀ h, handle_rt e' h = handle_rt e h) → scheduled e' = scheduled e →
  pending_works e' = pending_works e → received e' = received e → flife q e → flife q e'.
Proof.
  intros Hrt Es Ep Er [L1 L2 L3 L4]. split; rewrite ?Es, ?Er; try done.
  - intros h. by rewrite Hrt.
  - intros rt h Hin. rewrite Hrt. by apply L3.
  - intros rt. unfold pending. rewrite Ep. fold (pending e rt). rewrite L4.
    do 3 f_equal. symmetry. apply filter_rt_ext. auto.
Qed.

Lemma set_handle_rt h w e h' :
  handle_rt (set_handle h w e) h' = if bool_decide (h' = h) then Some (runtime_ w) else handle_rt e h'.
Proof.
  unfold handle_rt. simpl. case_bool_decide as E; [subst; by rewrite lookup_insert_eq |].
  by rewrite lookup_insert_ne.
Qed.

Lemma flife_set q e h w :
  handle_rt e h = Some (runtime_ w) → flife q e → flife q (set_handle h w e).
Proof.
  intros Hh. apply flife_ext; try done. intros h'. rewrite set_handle_rt.
  case_bool_decide; by subst.
Qed.

Lemma flife_schedule q e h rt :
  handle_rt e h = Some rt → flife (h :: q) e → flife q (schedule_internal rt h e).
Proof.
  intros Hrt [L1 L2 L3 L4].
  assert (q ++ (scheduled e ++ [(rt, h)]).*2 ≡ₚ (h :: q) ++ (scheduled e).*2) as Hp.
  { rewrite fmap_app. simpl. solve_Permutation. }
  split; simpl.
  - rewrite (assoc_L (++)), Hp, <- (assoc_L (++)). done.
  - intros h'. change (handle_rt (schedule_internal rt h e) h') with (handle_rt e h').
    rewrite <- L2, (assoc_L (++)), Hp, <- (assoc_L (++)). done.
  - intros rt' h' [Hin | Hin]%elem_of_app; [by apply L3 |].
    apply list_elem_of_singleton in Hin. by simplify_eq.
  - intros rt'. rewrite Hp. apply L4.
Qed.

Lemma flife_complete q e h w r :
  handles e !! h = Some w → flife (h :: q) e →
  flife q (schedule_internal (runtime_ w) h
    (set_handle h (mkWaitHandle (runtime_ w) r (stop_callback_ w)) e)).
Proof.
  intros Hw Hl. apply flife_schedule.
  - by rewrite set_handle_rt, bool_decide_eq_true_2.
  - apply flife_set; [| done]. unfold handle_rt. by rewrite Hw.
Qed.

Lemma flife_fresh q e h :
  flife q e → handles e !! h = None → h ∉ q ++ (scheduled e).*2 ++ (received e).*1.
Proof. intros Hl Hn. rewrite (fl_started _ _ Hl). unfold handle_rt. rewrite Hn. by intros [? ?]. Qed.

Lemma flife_new_receive q e h w r :
  handles e !! h = None → flife q e → flife q (receive h r (set_handle h w e)).
Proof.
  intros Hn Hl. pose proof (flife_fresh _ _ _ Hl Hn) as Hf. destruct Hl as [L1 L2 L3 L4].
  assert (q ++ (scheduled e).*2 ++ (received e ++ [(h, r)]).*1
          ≡ₚ h :: (q ++ (scheduled e).*2 ++ (received e).*1)) as Hp.
  { rewrite fmap_app. simpl. solve_Permutation. }
  assert (∀ h', h' ≠ h → handle_rt (receive h r (set_handle h w e)) h' = handle_rt e h') as Hne.
  { intros h' Hne. change (handle_rt (set_handle h w e) h' = handle_rt e h').
    by rewrite set_handle_rt, bool_decide_eq_false_2. }
  split; simpl.
  - rewrite Hp. by apply NoDup_cons.
  - intros h'. rewrite Hp. destruct (decide (h' = h)) as [-> | Hd].
    + split; [intros _ | set_solver]. change (is_Some (handle_rt (set_handle h w e) h)).
      by rewrite set_handle_rt, bool_decide_eq_true_2.
    + rewrite Hne, <- L2 by done. set_solver.
  - intros rt h' Hin. rewrite Hne; [by apply L3 |]. intros ->. apply Hf.
    rewrite !elem_of_app, !list_elem_of_fmap. right; left. by exists (rt, h).
  - intros rt. rewrite (filter_rt_ext e); [apply L4 |]. intros h' Hh'. apply Hne. intros ->.
    apply Hf. set_solver.
Qed.

Lemma flife_new_block q e h w :
  handles e !! h = None → flife q e → flife (q ++ [h]) (pend_work 1 (runtime_ w) (set_handle h w e)).
Proof.
  intros Hn Hl. pose proof (flife_fresh _ _ _ Hl Hn) as Hf. destruct Hl as [L1 L2 L3 L4].
  set (e' := pend_work 1 (runtime_ w) (set_handle h w e)).
  assert (∀ h', h' ≠ h → handle_rt e' h' = handle_rt e h') as Hne.
  { intros h' Hne. change (handle_rt (set_handle h w e) h' = handle_rt e h').
    by rewrite set_handle_rt, bool_decide_eq_false_2. }
  assert (handle_rt e' h = Some (runtime_ w)) as Hh.
  { change (handle_rt (set_handle h w e) h = Some (runtime_ w)).
    by rewrite set_handle_rt, bool_decide_eq_true_2. }
  split; simpl.
  - rewrite <- (assoc_L (++)). simpl. rewrite <- Permutation_middle. by apply NoDup_cons.
  - intros h'. destruct (decide (h' = h)) as [-> | Hd]; [rewrite Hh; set_solver |].
    rewrite Hne, <- L2 by done. set_solver.
  - intros rt h' Hin. rewrite Hne; [by apply L3 |]. intros ->. apply Hf.
    rewrite !elem_of_app, !list_elem_of_fmap. right; left. by exists (rt, h).
  - intros rt. rewrite <- (assoc_L (++)). simpl. rewrite <- Permutation_middle.
    assert (filter (λ h0, handle_rt e' h0 = Some rt) (q ++ (scheduled e).*2)
            = filter (λ h0, handle_rt e h0 = Some rt) (q ++ (scheduled e).*2)) as Ef.
    { apply filter_rt_ext. intros h' Hh'. apply Hne. intros ->. apply Hf. set_solver. }
    unfold pending. subst e'. simpl. destruct (decide (rt = runtime_ w)) as [-> | Hd].
    + rewrite lookup_insert_eq, filter_cons_True by done. simpl. rewrite Ef.
      unfold pending at 1. simpl. fold (pending e (runtime_ w)). rewrite L4, wrap_add_l. f_equal. lia.
    + rewrite lookup_insert_ne, filter_cons_False by congruence. rewrite Ef. apply L4.
Qed.

Lemma flife_run q e i rt h w r :
  flife q e → scheduled e !! i = Some (rt, h) → runtime_ w = rt →
  flife q (receive h r (pend_work (- 1) rt (set_handle h w (remove_scheduled i e)))).
Proof.
  intros [L1 L2 L3 L4] Hi Hw. pose proof (delete_Permutation _ _ _ Hi) as Hp.
  assert (handle_rt e h = Some rt) as Hrt by (eapply L3, list_elem_of_lookup_2, Hi).
  set (e' := receive h r (pend_work (- 1) rt (set_handle h w (remove_scheduled i e)))).
  assert (∀ h', handle_rt e' h' = handle_rt e h') as Hsame.
  { intros h'. change (handle_rt (set_handle h w (remove_scheduled i e)) h' = handle_rt e h').
    rewrite set_handle_rt. case_bool_decide; [subst; by rewrite Hrt | done]. }
  assert (q ++ (delete i (scheduled e)).*2 ++ (received e ++ [(h, r)]).*1
          ≡ₚ q ++ (scheduled e).*2 ++ (received e).*1) as Hq.
  { rewrite Hp at 2. rewrite fmap_app. simpl. solve_Permutation. }
  split; simpl.
  - by rewrite Hq.
  - intros h'. by rewrite Hq, Hsame, L2.
  - intros rt' h' Hin. rewrite Hsame. apply L3. rewrite Hp. set_solver.
  - intros rt'. rewrite (filter_rt_ext e) by auto. unfold pending. subst e'. simpl.
    pose proof (L4 rt') as L4'. rewrite Hp in L4'. cbn [fmap list_fmap snd] in L4'.
    rewrite <- Permutation_middle in L4'.
    destruct (decide (rt' = rt)) as [-> | Hd].
    + rewrite lookup_insert_eq. simpl. rewrite filter_cons_True in L4' by done. simpl in L4'.
      change (pending (set_handle h w (remove_scheduled i e)) rt) with (pending e rt).
      rewrite L4', wrap_add_l. f_equal. lia.
    + rewrite lookup_insert_ne by done. rewrite filter_cons_False in L4' by congruence. exact L4'.
Qed.

(** ** Executions without a cancellation during [notify_all_] *)

Section theorems.
Context {T : Type} `{EqDecision T}.
Implicit Types (s : FutexSys T).

(** [xs]: the waiting handles; [ys]: those a [notify_all_] still has to wake. *)
Record finv (s : FutexSys T) (xs ys : list addr) : Prop := {
  fi_wait : double_rep (links s) (wait_awaiters_ s) xs;
  fi_drain : match draining s with
             | None => ys = []
             | Some (l, _) => double_rep (links s) l ys
             end;
  fi_detached : detached (links s) (xs ++ ys);
  fi_life : flife (xs ++ ys) (fenv s)
}.

Lemma finv_nodup s xs ys : finv s xs ys → NoDup (xs ++ ys).
Proof. intros [_ _ _ [Hn _ _ _]]. by apply NoDup_app in Hn as (? & _). Qed.

(** The other list is not touched by an operation on one of them. *)
Lemma double_rep_frame hp hp' l ys :
  (∀ y, y ∈ ys → double_entry hp' y = double_entry hp y) → double_rep hp l ys → double_rep hp' l ys.
Proof. intros E [? ? ? Hs]. split; try done. eapply seg_ext; [| exact Hs]. done. Qed.

Lemma drain_frame s ys hp' :
  (∀ y, y ∈ ys → double_entry hp' y = double_entry (links s) y) →
  match draining s with None => ys = [] | Some (l, _) => double_rep (links s) l ys end →
  match draining s with None => ys = [] | Some (l, _) => double_rep hp' l ys end.
Proof. intros E Hd. destruct (draining s) as [[l r]|]; [by eapply double_rep_frame | done]. Qed.

Lemma set_result_schedule_run s h w r :
  handles (fenv s) !! h = Some w →
  set_result_schedule h r s = Done tt (mkFutexSys (futex_ s) (links s) (wait_awaiters_ s) (draining s)
    (schedule_internal (runtime_ w) h
      (set_handle h (mkWaitHandle (runtime_ w) r (stop_callback_ w)) (fenv s)))).
Proof. intros E. unfold set_result_schedule, get_handle, on_env. run_st. by rewrite E. Qed.

Lemma queued_handle s xs ys h : finv s xs ys → h ∈ xs ++ ys → ∃ w, handles (fenv s) !! h = Some w.
Proof.
  intros Hi Hin. destruct (proj1 (fl_started _ _ (fi_life _ _ _ Hi) h)) as [rt E].
  { apply elem_of_app. by left. }
  unfold handle_rt in E. destruct (handles (fenv s) !! h); [by eexists | done].
Qed.

Lemma notify_one_run s xs ys :
  finv s xs ys →
  match xs with
  | [] => notify_one s = Done tt s
  | h :: xs' =>
      ∃ w s', handles (fenv s) !! h = Some w ∧ notify_one s = Done tt s' ∧ finv s' xs' ys ∧
        futex_ s' = futex_ s ∧
        fenv s' = schedule_internal (runtime_ w) h
                    (set_handle h (mkWaitHandle (runtime_ w) 0 (stop_callback_ w)) (fenv s))
  end.
Proof.
  intros Hi. pose proof (finv_nodup _ _ _ Hi) as Hnd. pose proof Hi as [Hw Hd Hdet Hl].
  unfold notify_one, on_waiters. destruct xs as [|h xs'].
  - erewrite bind_done by (by rewrite (double_pop_front_nil _ _ Hw)). by destruct s.
  - destruct (queued_handle _ _ _ h Hi) as [w Hh]; [set_solver |].
    destruct (double_pop_front_ok _ _ _ _ Hw) as (hp & l' & E & Hw' & Hnull & Hfr).
    exists w. eexists. split; [done |]. split.
    { erewrite bind_done by (by rewrite E). by apply set_result_schedule_run. }
    apply NoDup_cons in Hnd as [Hn Hnd]. split_and!; [| done | done]. split; simpl; [done | | |].
    + eapply drain_frame; [| exact Hd]. intros y Hy. apply Hfr.
      intros [-> | Hy']%elem_of_cons; [set_solver |].
      apply NoDup_app in Hnd as (_ & Hdis & _). by apply (Hdis y).
    + intros y Hy. destruct (decide (y = h)) as [-> | ?]; [done |]. rewrite Hfr by set_solver.
      apply Hdet. set_solver.
    + by apply flife_complete.
Qed.

Lemma notify_all_begin_run s xs r :
  finv s xs [] → draining s = None →
  ∃ s', notify_all_begin r s = Done tt s' ∧ finv s' [] xs ∧ futex_ s' = futex_ s ∧
    fenv s' = fenv s ∧ ∃ l, draining s' = Some (l, r).
Proof.
  intros [Hw _ Hdet Hl] Hd. eexists. split; [reflexivity |]. rewrite app_nil_r in *.
  split_and!; [| done | done | by eexists]. split; simpl; [apply double_new_rep | | done | done].
  by destruct Hw.
Qed.

Lemma notify_all_next_run s xs ys l r :
  finv s xs ys → draining s = Some (l, r) →
  match ys with
  | [] => ∃ s', notify_all_next s = Done false s' ∧ finv s' xs [] ∧ futex_ s' = futex_ s ∧
            fenv s' = fenv s ∧ draining s' = None
  | h :: ys' =>
      ∃ w s' l', handles (fenv s) !! h = Some w ∧ notify_all_next s = Done true s' ∧ finv s' xs ys' ∧
        futex_ s' = futex_ s ∧ draining s' = Some (l', r) ∧
        fenv s' = schedule_internal (runtime_ w) h
                    (set_handle h (mkWaitHandle (runtime_ w) r (stop_callback_ w)) (fenv s))
  end.
Proof.
  intros Hi Ed. pose proof (finv_nodup _ _ _ Hi) as Hnd. pose proof Hi as [Hw Hd Hdet Hl].
  rewrite Ed in Hd. unfold notify_all_next. destruct ys as [|h ys'].
  - eexists. split_and!; [rewrite bind_get, Ed, (double_pop_front_nil _ _ Hd); reflexivity | | done..].
    by split.
  - destruct (queued_handle _ _ _ h Hi) as [w Hh]; [set_solver |].
    destruct (double_pop_front_ok _ _ _ _ Hd) as (hp & l' & E & Hd' & Hnull & Hfr).
    exists w. eexists. exists l'. split; [done |]. split.
    { rewrite bind_get, Ed, E. erewrite bind_done by done.
      by erewrite bind_done by (by apply set_result_schedule_run). }
    apply NoDup_app in Hnd as (Hx & Hdis & Hy). apply NoDup_cons in Hy as [Hn Hy].
    split_and!; [| done | done | done]. split; simpl; [| done | |].
    + eapply double_rep_frame; [| exact Hw]. intros y Hyx. apply Hfr. by apply Hdis.
    + intros y Hy'. destruct (decide (y = h)) as [-> | ?]; [done |]. rewrite Hfr by set_solver.
      apply Hdet. set_solver.
    + apply flife_complete; [done |]. eapply flife_perm; [| exact Hl]. by rewrite Permutation_middle.
Qed.

Lemma wait_cancel_run s xs h w :
  finv s xs [] → draining s = None → handles (fenv s) !! h = Some w →
  ∃ s', wait_cancel h s = Done tt s' ∧ finv s' (without h xs) [] ∧ draining s' = None ∧
    futex_ s' = futex_ s ∧
    fenv s' = (if bool_decide (h ∈ xs) then
                 schedule_internal (runtime_ w) h
                   (set_handle h (mkWaitHandle (runtime_ w) (- ECANCELED) (stop_callback_ w)) (fenv s))
               else fenv s).
Proof.
  intros Hi Ed Hh. pose proof (finv_nodup _ _ _ Hi) as Hnd. destruct Hi as [Hw _ Hdet Hl].
  rewrite app_nil_r in *. unfold wait_cancel, cancel_wait_, on_waiters. case_bool_decide as Hin.
  - apply list_elem_of_split in Hin as (l1 & l2 & ->). rewrite without_middle by done.
    destruct (double_remove_ok _ _ _ _ _ Hw) as (hp & l' & E & Hw' & Hnull & Hfr).
    eexists. split.
    { erewrite bind_done by (by rewrite E). by apply set_result_schedule_run. }
    split_and!; [| done | done | done]. split; simpl; [done | by rewrite Ed | |].
    + rewrite app_nil_r. intros y Hy. destruct (decide (y = h)) as [-> | ?]; [done |].
      rewrite Hfr by set_solver. apply Hdet. set_solver.
    + rewrite app_nil_r. apply flife_complete; [done |]. eapply flife_perm; [| exact Hl].
      by rewrite Permutation_middle.
  - rewrite without_notin by done. eexists. split.
    { erewrite bind_done by (by rewrite (double_remove_absent _ _ _ _ Hw Hin (Hdet _ Hin))). done. }
    split_and!; [| done | done | by destruct s]. split; simpl; rewrite ?Ed, ?app_nil_r; done.
Qed.

(** A wait whose value has changed completes at once; otherwise it blocks. *)
Lemma request_wait_run s xs ys h old e' :
  finv s xs ys → handles (fenv s) !! h = None →
  let s0 := mkFutexSys (futex_ s) (links s) (wait_awaiters_ s) (draining s) e' in
  if bool_decide (futex_ s = old) then
    ∃ hp l, request_wait_ h old s0 = Done (- EAGAIN) (mkFutexSys (futex_ s) hp l (draining s) e') ∧
      double_rep hp l (xs ++ [h]) ∧ detached hp ((xs ++ [h]) ++ ys) ∧
      match draining s with None => ys = [] | Some (l, _) => double_rep hp l ys end
  else request_wait_ h old s0 = Done 0 s0.
Proof.
  intros Hi Hn s0. pose proof (finv_nodup _ _ _ Hi) as Hnd. pose proof Hi as [Hw Hd Hdet Hl].
  assert (h ∉ xs ++ ys) as Hh.
  { intros Hin. destruct (queued_handle _ _ _ _ Hi Hin) as [w Hw']. congruence. }
  unfold request_wait_. rewrite bind_get. subst s0. cbn [futex_]. case_bool_decide as Ev.
  - rewrite bool_decide_eq_false_2 by tauto.
    destruct (double_push_back_ok (links s) (wait_awaiters_ s) xs h Hw ltac:(set_solver) (Hdet h Hh))
      as (hp & l & E & Hw' & Hfr).
    assert (∀ y, y ∈ ys → y ∉ xs ++ [h]) as Hys.
    { intros y Hy [Hx | ->%list_elem_of_singleton]%elem_of_app; [| set_solver].
      apply NoDup_app in Hnd as (_ & Hdis & _). by apply (Hdis y). }
    exists hp, l. split_and!; [| done | |].
    + unfold on_waiters. run_st. rewrite E. done.
    + intros y Hy. rewrite Hfr by set_solver. apply Hdet. set_solver.
    + eapply drain_frame; [| exact Hd]. intros y Hy. apply Hfr. by apply Hys.
  - by rewrite bool_decide_eq_true_2.
Qed.

Lemma wait_start_run s xs ys h rt old stop :
  finv s xs ys → handles (fenv s) !! h = None → (stop = StopRequested → draining s = None) →
  ∃ s' xs', wait_start h rt old stop s = Done tt s' ∧ finv s' xs' ys ∧
    futex_ s' = futex_ s ∧ draining s' = draining s ∧
    (futex_ s ≠ old → xs' = xs ∧ received (fenv s') = received (fenv s) ++ [(h, 0)]) ∧
    (futex_ s = old → stop ≠ StopRequested →
       xs' = xs ++ [h] ∧ received (fenv s') = received (fenv s)) ∧
    (futex_ s = old → stop = StopRequested →
       xs' = xs ∧ scheduled (fenv s') = scheduled (fenv s) ++ [(rt, h)] ∧
       result_ <$> handles (fenv s') !! h = Some (- ECANCELED)).
Proof.
  intros Hi Hn Hst. pose proof Hi as [Hw Hd Hdet Hl]. unfold wait_start.
  erewrite bind_done by done. set (w := mkWaitHandle rt (- ENOTRECOVERABLE) false).
  pose proof (request_wait_run s xs ys h old (set_handle h w (fenv s)) Hi Hn) as Hreq. simpl in Hreq.
  case_bool_decide as Ev.
  - destruct Hreq as (hp & l & E & Hw' & Hdet' & Hd'). erewrite bind_done by exact E.
    rewrite Z.eqb_refl. simpl. erewrite bind_done by done. simpl.
    assert (h ∉ xs) as Hx.
    { intros Hin. destruct (queued_handle s xs ys h Hi) as [w' Hw'']; [set_solver | congruence]. }
    assert (flife ((xs ++ [h]) ++ ys) (pend_work 1 rt (set_handle h w (fenv s)))) as Hl'.
    { eapply flife_perm; [| by apply (flife_new_block (xs ++ ys) _ h w)]. solve_Permutation. }
    set (w' := mkWaitHandle rt (- ENOTRECOVERABLE) true).
    assert (flife ((xs ++ [h]) ++ ys) (set_handle h w' (pend_work 1 rt (set_handle h w (fenv s))))) as Hl2.
    { apply flife_set; [| done]. unfold handle_rt. simpl. by rewrite lookup_insert_eq. }
    destruct stop; [| | specialize (Hst eq_refl); rewrite Hst in Hd' |- *; subst ys].
    + eexists _, (xs ++ [h]). split; [done |]. split_and!; try done; by split.
    + eexists _, (xs ++ [h]). split; [done |]. split_and!; try done; by split.
    + set (s1 := mkFutexSys (futex_ s) hp l None (set_handle h w' (pend_work 1 rt (set_handle h w (fenv s))))).
      destruct (wait_cancel_run s1 (xs ++ [h]) h w') as (s' & Ec & Hi' & Ed' & Ef' & Ee').
      { by split. } { done. } { simpl. apply lookup_insert_eq. }
      exists s', xs. rewrite bool_decide_eq_true_2 in Ee' by set_solver.
      rewrite without_middle, app_nil_r in Hi' by (apply NoDup_snoc; split; [apply Hw | done]).
      split; [exact Ec |]. split_and!; try done. intros _ _. rewrite Ee'. simpl.
      split_and!; [done | done | by rewrite lookup_insert_eq].
  - erewrite bind_done by exact Hreq. simpl. eexists _, xs. split; [done |]. split_and!; try done.
    split; simpl; try done. by apply flife_new_receive.
Qed.

Lemma run_scheduled_futex s xs ys i :
  finv s xs ys →
  ∃ s', run_scheduled i s = Done tt s' ∧ finv s' xs ys ∧ futex_ s' = futex_ s ∧ draining s' = draining s.
Proof.
  intros Hi. pose proof Hi as [Hw Hd Hdet Hl]. unfold run_scheduled. rewrite bind_get.
  destruct (scheduled (fenv s) !! i) as [[rt h]|] eqn:Es; [| by eexists].
  pose proof (fl_sched _ _ Hl rt h (list_elem_of_lookup_2 _ _ _ Es)) as Hrt.
  unfold handle_rt in Hrt. destruct (handles (fenv s) !! h) as [w|] eqn:Ew; simplify_eq/=.
  eexists. split.
  { unfold wait_invoke, get_handle, on_env. run_st. by rewrite Ew. }
  split_and!; try done. split; simpl; try done. by eapply flife_run.
Qed.

Lemma exec_finv s xs ys op :
  finv s xs ys → op_allowed op s → op_quiet op s →
  ∃ s' xs' ys', exec op s = Done tt s' ∧ finv s' xs' ys'.
Proof.
  intros Hi Ha Hq. destruct op as [v | h rt old stop | h | | r | | i]; simpl in *.
  - eexists _, xs, ys. split; [done |]. by destruct Hi.
  - destruct (wait_start_run s xs ys h rt old stop Hi Ha) as (s' & xs' & E & Hi' & _); [by destruct stop |].
    eauto 6.
  - destruct Ha as (w & Hw & _). destruct Hi as [A B C D]. rewrite Hq in B. subst ys.
    destruct (wait_cancel_run s xs h w) as (s' & E & Hi' & _); [| done | done | eauto 6].
    split; [done | by rewrite Hq | done | done].
  - pose proof (notify_one_run _ _ _ Hi) as Hr. destruct xs as [|h xs].
    + eauto 6.
    + destruct Hr as (w & s' & _ & E & Hi' & _). eauto 6.
  - pose proof (fi_drain _ _ _ Hi) as Hd. rewrite Ha in Hd. subst ys.
    destruct (notify_all_begin_run s xs r Hi Ha) as (s' & E & Hi' & _). eauto 6.
  - destruct (draining s) as [[l r]|] eqn:Ed.
    + pose proof (notify_all_next_run _ _ _ _ _ Hi Ed) as Hr. destruct ys as [|h ys].
      * destruct Hr as (s' & E & Hi' & _). eexists s', _, _. by erewrite bind_done by exact E.
      * destruct Hr as (w & s' & l' & _ & E & Hi' & _). eexists s', _, _. by erewrite bind_done by exact E.
    + eexists s, _, _. split; [| exact Hi]. unfold notify_all_next. run_st. by rewrite Ed.
  - destruct (run_scheduled_futex s xs ys i Hi) as (s' & E & Hi' & _). eauto 6.
Qed.

Lemma finv_new (v : T) : finv (futex_new v) [] [].
Proof.
  split; simpl; [apply double_new_rep | done | |].
  - intros e _. unfold double_entry. by rewrite lookup_empty.
  - split; simpl; [constructor | | set_solver | done].
    intros h. unfold handle_rt. simpl. rewrite lookup_empty. split; [set_solver | by intros [? ?]].
Qed.

Lemma futex_run_inv v0 s : futex_run v0 s → ∃ xs ys, finv s xs ys.
Proof.
  induction 1 as [| s op s' _ (xs & ys & Hi) Ha Hq E].
  - exists [], []. apply finv_new.
  - destruct (exec_finv s xs ys op Hi Ha Hq) as (s1 & xs' & ys' & E1 & Hi'). rewrite E in E1.
    simplify_eq. eauto.
Qed.

(** C18. Futex operations are safe and complete exactly once: from every state
    reached without a cancellation during a [notify_all_], each permitted
    operation returns (no assertion of the waiter list fails), and every wait
    that was started is in exactly one place: in the futex's list, in the list a
    [notify_all_] is emptying, scheduled once, or completed once; the
    pending-work counters count the waits that are not yet completed.  Permitted
    are waits on new handles, cancellations of engaged callbacks, and one
    [notify_all_] at a time ([op_allowed]). *)
Theorem futex_exactly_once v0 s :
  futex_run v0 s →
  (∀ op, op_allowed op s → op_quiet op s → ∃ s', exec op s = Done tt s') ∧
  ∃ xs ys, double_rep (links s) (wait_awaiters_ s) xs ∧
    match draining s with None => ys = [] | Some (l, _) => double_rep (links s) l ys end ∧
    flife (xs ++ ys) (fenv s).
Proof.
  intros Hr. destruct (futex_run_inv _ _ Hr) as (xs & ys & Hi). split.
  - intros op Ha Hq. destruct (exec_finv _ _ _ _ Hi Ha Hq) as (s' & ? & ? & E & _). eauto.
  - destruct Hi. eauto 6.
Qed.

(** The schedule entries of a list of handles. *)
Definition wake_list (e : FEnv) (xs : list addr) : list (RuntimeId * addr) :=
  omap (λ h, (λ w, (runtime_ w, h)) <$> handles e !! h) xs.

Lemma notify_all_loop_run ys : ∀ s xs l r fuel,
  finv s xs ys → draining s = Some (l, r) → (length ys < fuel)%nat →
  ∃ s', notify_all_loop fuel s = Done tt s' ∧ finv s' xs [] ∧ draining s' = None ∧
    scheduled (fenv s') = scheduled (fenv s) ++ wake_list (fenv s) ys ∧
    (∀ h, handle_rt (fenv s') h = handle_rt (fenv s) h) ∧
    (∀ h, h ∈ ys → result_ <$> handles (fenv s') !! h = Some r) ∧
    (∀ h, h ∉ ys → handles (fenv s') !! h = handles (fenv s) !! h).
Proof.
  induction ys as [|h ys IH]; intros s xs l r [|fuel] Hi Ed Hf; simpl in Hf; try lia;
    pose proof (notify_all_next_run _ _ _ _ _ Hi Ed) as Hn; simpl in Hn.
  - destruct Hn as (s' & E & Hi' & _ & Ee & Ed'). exists s'. simpl. erewrite bind_done by exact E.
    rewrite Ee, app_nil_r. split_and!; try done. set_solver.
  - destruct Hn as (w & s1 & l' & Hw & E & Hi1 & _ & Ed1 & Ee).
    pose proof (finv_nodup _ _ _ Hi) as (_ & _ & [Hnot _]%NoDup_cons)%NoDup_app.
    assert (∀ h', handle_rt (fenv s1) h' = handle_rt (fenv s) h') as Hrt.
    { intros h'. rewrite Ee.
      change (handle_rt (set_handle h (mkWaitHandle (runtime_ w) r (stop_callback_ w)) (fenv s)) h'
              = handle_rt (fenv s) h').
      rewrite set_handle_rt. case_bool_decide; [subst | done]. unfold handle_rt. by rewrite Hw. }
    assert (∀ h', h' ≠ h → handles (fenv s1) !! h' = handles (fenv s) !! h') as Hne.
    { intros h' Hne. rewrite Ee. simpl. by rewrite lookup_insert_ne. }
    destruct (IH s1 xs l' r fuel Hi1 Ed1) as (s' & E' & Hi' & Ed' & Es' & Hrt' & Hres & Hoth); [lia |].
    exists s'. simpl. erewrite bind_done by exact E. split_and!; try done.
    + rewrite Es'. unfold wake_list. simpl. rewrite Hw. simpl. rewrite Ee at 1. simpl.
      rewrite <- (assoc_L (++)). simpl. do 2 f_equal. apply list_omap_ext, Forall_Forall2_diag, Forall_forall.
      intros h' Hh'. rewrite Hne by (by intros ->). done.
    + intros h'. by rewrite Hrt'.
    + intros h' [-> | Hh']%elem_of_cons; [| by apply Hres].
      rewrite Hoth by done. rewrite Ee. simpl. by rewrite lookup_insert_eq.
    + intros h' [? ?]%not_elem_of_cons. rewrite Hoth by done. by apply Hne.
Qed.

(** [notify_all_] without interference returns, wakes every waiting handle
    exactly once, in waiting order and with the given result ([0], or [-EIDRM]
    from the destructor), and leaves the list empty. *)
Theorem futex_notify_all_wakes v0 s r :
  futex_run v0 s → draining s = None →
  ∃ xs s', double_rep (links s) (wait_awaiters_ s) xs ∧ notify_all_ r s = Done tt s' ∧
    double_rep (links s') (wait_awaiters_ s') [] ∧
    scheduled (fenv s') = scheduled (fenv s) ++ wake_list (fenv s) xs ∧
    (wake_list (fenv s) xs).*2 = xs ∧
    (∀ h, h ∈ xs → result_ <$> handles (fenv s') !! h = Some r) ∧
    (∀ h, h ∉ xs → handles (fenv s') !! h = handles (fenv s) !! h).
Proof.
  intros Hr Ed. destruct (futex_run_inv _ _ Hr) as (xs & ys & Hi).
  pose proof (fi_drain _ _ _ Hi) as Hd. rewrite Ed in Hd. subst ys.
  destruct (notify_all_begin_run s xs r Hi Ed) as (s1 & E1 & Hi1 & _ & Ee1 & l & Ed1).
  assert (∀ h, h ∈ xs → is_Some (handles (fenv s) !! h)) as Hin.
  { intros h Hh. destruct (queued_handle _ _ _ h Hi) as [w ->]; [set_solver | by eexists]. }
  assert (length xs < S (base.size (handles (fenv s))))%nat as Hlen.
  { apply Nat.lt_succ_r, nodup_keys_size; [apply (fi_wait _ _ _ Hi) | done]. }
  destruct (notify_all_loop_run xs s1 [] l r _ Hi1 Ed1 Hlen)
    as (s' & E' & Hi' & _ & Es & _ & Hres & Hoth).
  rewrite Ee1 in *. exists xs, s'. split_and!; try done; [apply Hi | | apply Hi' |].
  - unfold notify_all_. rewrite bind_get. by erewrite bind_done by exact E1.
  - clear -Hin. unfold wake_list. induction xs as [|h xs IH]; [done |]. simpl.
    destruct (Hin h) as [w ->]; [set_solver |]. simpl. f_equal. apply IH. set_solver.
Qed.

(** Waiting and waking: a wait on a changed value completes at once with 0 and
    is never queued; a wait on the current value joins the end of the list; and
    [notify_one] wakes exactly the longest-waiting handle, with result 0, or
    does nothing when nobody waits. *)
Theorem futex_wait_notify_one v0 s h rt old stop :
  futex_run v0 s → handles (fenv s) !! h = None → stop ≠ StopRequested →
  ∃ xs s1, double_rep (links s) (wait_awaiters_ s) xs ∧ wait_start h rt old stop s = Done tt s1 ∧
    (futex_ s ≠ old → double_rep (links s1) (wait_awaiters_ s1) xs ∧
       received (fenv s1) = received (fenv s) ++ [(h, 0)]) ∧
    (futex_ s = old → double_rep (links s1) (wait_awaiters_ s1) (xs ++ [h]) ∧
       received (fenv s1) = received (fenv s)) ∧
    match xs with
    | [] => notify_one s = Done tt s
    | h1 :: xs' =>
        ∃ w s2, handles (fenv s) !! h1 = Some w ∧ notify_one s = Done tt s2 ∧
          double_rep (links s2) (wait_awaiters_ s2) xs' ∧
          scheduled (fenv s2) = scheduled (fenv s) ++ [(runtime_ w, h1)] ∧
          result_ <$> handles (fenv s2) !! h1 = Some 0
    end.
Proof.
  intros Hr Hn Hst. destruct (futex_run_inv _ _ Hr) as (xs & ys & Hi).
  destruct (wait_start_run s xs ys h rt old stop Hi Hn) as (s1 & xs' & E & Hi' & _ & _ & H1 & H2 & _); [done |].
  exists xs, s1. split_and!; [apply Hi | done | | |].
  - intros Hne. destruct (H1 Hne) as [-> ?]. split; [apply Hi' | done].
  - intros He. destruct (H2 He Hst) as [-> ?]. split; [apply Hi' | done].
  - pose proof (notify_one_run _ _ _ Hi) as Ho. destruct xs as [|h1 xs1]; [done |].
    destruct Ho as (w & s2 & Hw & E2 & Hi2 & _ & Ee). exists w, s2.
    split_and!; [done | done | apply Hi2 | by rewrite Ee | rewrite Ee; simpl; by rewrite lookup_insert_eq].
Qed.

(** C40. The race between a cancellation and [notify_all]: while another thread's
    [notify_all] empties the list it has taken, the stop callback of a waiter that it
    has not reached yet may run, but [remove] then works on the other list.  In
    every state the futex can be in, for such a waiter [h]: when it is the only one
    left, the callback finds nothing to do (and [notify_all] will wake it); when it
    is the first or the last of several, an assertion of [remove] fails; when it is
    in between, it is taken out of the list of [notify_all], without the lock of the
    futex protecting that list, and scheduled as cancelled. *)
Theorem futex_cancel_races_notify_all v0 s l r h :
  futex_run v0 s → draining s = Some (l, r) → op_allowed (OpCancel h) s →
  ∃ ys, double_rep (links s) l ys ∧
    ∀ ys1 ys2, ys = ys1 ++ h :: ys2 →
    match ys1, ys2 with
    | [], [] => exec (OpCancel h) s = Done tt s
    | [], _ :: _ | _ :: _, [] => exec (OpCancel h) s = Crashed AssertFailed
    | _ :: _, _ :: _ =>
        ∃ s' w, exec (OpCancel h) s = Done tt s' ∧ draining s' = Some (l, r) ∧ double_rep (links s') l (ys1 ++ ys2) ∧
          handles (fenv s) !! h = Some w ∧ scheduled (fenv s') = scheduled (fenv s) ++ [(runtime_ w, h)] ∧
          result_ <$> handles (fenv s') !! h = Some (- ECANCELED)
    end.
Proof.
  intros (xs & ys & Hi)%futex_run_inv Ed (w & Hw & _). pose proof (finv_nodup _ _ _ Hi) as Hnd.
  destruct Hi as [Hwait Hdr _ _]. rewrite Ed in Hdr. exists ys. split; [done |]. intros ys1 ys2 ->.
  assert (h ∉ xs) as Hx by (apply NoDup_app in Hnd as (_ & Hdis & _); set_solver).
  assert (head_ (wait_awaiters_ s) ≠ Some h ∧ tail_ (wait_awaiters_ s) ≠ Some h) as [Hh Ht].
  { destruct Hwait as [_ -> -> _]. split; intros E; apply Hx; [by apply head_Some_elem_of | by apply last_Some_elem_of]. }
  pose proof (double_remove_foreign _ _ _ _ _ _ Hdr Hh Ht) as Hr.
  unfold exec, wait_cancel, cancel_wait_, on_waiters.
  destruct ys1 as [|y1 ys1], ys2 as [|y2 ys2]; unfold mbind, st_bind.
  - rewrite Hr. by destruct s.
  - by rewrite Hr.
  - by rewrite Hr.
  - destruct Hr as (hp & -> & E2). destruct (double_remove_ok _ _ _ _ _ Hdr) as (hp' & l' & E' & Hrep & _).
    rewrite E2 in E'. injection E' as <- <-. eexists _, w.
    split; [by apply set_result_schedule_run |]. split_and!; [done | done | done | done |].
    simpl. by rewrite lookup_insert_eq.
Qed.

End theorems.

(** ** Concrete executions *)

Definition run_fops (ops : list (futex_op Z)) : ST (FutexSys Z) unit :=
  foldr (λ op k, exec op;; k) (mret tt) ops.

(** Two waiters on the value 0, then [notify_all_] takes the list. *)
Definition two_waiters : list (futex_op Z) :=
  [OpWait 1 7 0 StopPossible; OpWait 2 8 0 StopPossible].

Definition fstate (ops : list (futex_op Z)) : FutexSys Z :=
  match run_fops ops (futex_new 0) with Done _ s => s | _ => futex_new 0 end.

Lemma two_waiters_run : futex_run 0 (fstate two_waiters).
Proof.
  eapply (futex_run_step _ (fstate (take 1 two_waiters)) (OpWait 2 8 0 StopPossible));
    [| by vm_compute | done | by vm_compute].
  eapply (futex_run_step _ (futex_new 0) (OpWait 1 7 0 StopPossible));
    [apply futex_run_new | by vm_compute | done | by vm_compute].
Qed.

(** The cancellation of the first of the two waiters after [notify_all] has taken
    their list. *)
Lemma futex_cancel_races_notify_all_witness :
  exec (OpCancel 1) (fstate (two_waiters ++ [OpNotifyAllBegin 0])) = Crashed AssertFailed.
Proof.
  destruct (futex_cancel_races_notify_all 0 (fstate (two_waiters ++ [OpNotifyAllBegin 0]))
              (mkDoubleLinkListImpl (Some 1%nat) (Some 2%nat)) 0 1%nat) as (ys & Hrep & Hys).
  - eapply (futex_run_step _ (fstate two_waiters) (OpNotifyAllBegin 0)); [apply two_waiters_run | | done |]; by vm_compute.
  - by vm_compute.
  - eexists. split; [by vm_compute | reflexivity].
  - destruct Hrep as [_ Hh Ht _]. destruct ys as [|y [|y2 ys]]; [discriminate Hh | |].
    + injection Hh as <-. discriminate Ht.
    + injection Hh as <-. exact (Hys [] (y2 :: ys) eq_refl).
Defined.

Lemma futex_exactly_once_witness :
  let s := fstate two_waiters in
  (∀ op, op_allowed op s → op_quiet op s → ∃ s', exec op s = Done tt s') ∧
  ∃ xs ys, double_rep (links s) (wait_awaiters_ s) xs ∧
    match draining s with None => ys = [] | Some (l, _) => double_rep (links s) l ys end ∧
    flife (xs ++ ys) (fenv s).
Proof. apply (futex_exactly_once 0), two_waiters_run. Defined.

Lemma futex_notify_all_wakes_witness :
  let s := fstate two_waiters in
  ∃ xs s', double_rep (links s) (wait_awaiters_ s) xs ∧ notify_all_ 0 s = Done tt s' ∧
    double_rep (links s') (wait_awaiters_ s') [] ∧
    scheduled (fenv s') = scheduled (fenv s) ++ wake_list (fenv s) xs ∧
    (wake_list (fenv s) xs).*2 = xs ∧
    (∀ h, h ∈ xs → result_ <$> handles (fenv s') !! h = Some 0) ∧
    (∀ h, h ∉ xs → handles (fenv s') !! h = handles (fenv s) !! h).
Proof. apply (futex_notify_all_wakes 0); [apply two_waiters_run | by vm_compute]. Defined.

Lemma futex_wait_notify_one_witness :
  let s := fstate two_waiters in
  ∃ xs s1, double_rep (links s) (wait_awaiters_ s) xs ∧ wait_start 3 7 1 StopPossible s = Done tt s1 ∧
    (futex_ s ≠ 1 → double_rep (links s1) (wait_awaiters_ s1) xs ∧
       received (fenv s1) = received (fenv s) ++ [(3%nat, 0)]) ∧
    (futex_ s = 1 → double_rep (links s1) (wait_awaiters_ s1) (xs ++ [3%nat]) ∧
       received (fenv s1) = received (fenv s)) ∧
    match xs with
    | [] => notify_one s = Done tt s
    | h1 :: xs' =>
        ∃ w s2, handles (fenv s) !! h1 = Some w ∧ notify_one s = Done tt s2 ∧
          double_rep (links s2) (wait_awaiters_ s2) xs' ∧
          scheduled (fenv s2) = scheduled (fenv s) ++ [(runtime_ w, h1)] ∧
          result_ <$> handles (fenv s2) !! h1 = Some 0
    end.
Proof. apply (futex_wait_notify_one 0); [apply two_waiters_run | by vm_compute | done]. Defined.
