(* ===== verification/WorkType.v ===== *)
(** * Tagged user data (include/condy/detail/work_type.hpp)

    The 64-bit user data of a completion is a pointer whose three low bits hold
    the kind of work. *)

From stdpp Require Import base numbers list.
From S2P Require Import Prelude Utils.

Inductive WorkType : Type :=
  | Common
  | Ignore
  | Schedule
  | Cancel
  | WorkTypeMax.

#[export] Instance WorkType_eq_dec : EqDecision WorkType.
Proof. solve_decision. Defined.

(** [static_cast<uint8_t>(type)] *)
Definition work_type_code (t : WorkType) : Z :=
  match t with Common => 0 | Ignore => 1 | Schedule => 2 | Cancel => 3 | WorkTypeMax => 4 end.

(** [static_cast<WorkType>(code)]: a value that no enumerator has is [None]. *)
Definition work_type_of_code (code : Z) : option WorkType :=
  match code with
  | 0 => Some Common
  | 1 => Some Ignore
  | 2 => Some Schedule
  | 3 => Some Cancel
  | 4 => Some WorkTypeMax
  | _ => None
  end.

Definition encode_work_ptr {S} (ptr : Z) (type : WorkType) : ST S Z :=
  assert_ (ptr mod 8 =? 0);;
  mret (Z.lor ptr (work_type_code type)).

(** The pointer and the kind. *)
Definition decode_work (ptr : Z) : Z * option WorkType :=
  let mask := Z.shiftl 1 3 - 1 in
  (Z.land ptr (u64 (Z.lnot mask)), work_type_of_code (Z.land ptr mask)).

(** [encode_work(T *ptr, type)] and [encode_work(nullptr, type)] *)
Definition encode_work {S} (ptr : Z) (type : WorkType) : ST S Z := encode_work_ptr ptr type.

Lemma work_type_code_range t : 0 ≤ work_type_code t < 8.
Proof. by destruct t. Qed.

Lemma work_type_code_inv t : work_type_of_code (work_type_code t) = Some t.
Proof. by destruct t. Qed.

(** A multiple of 8 and a tag below 8 occupy different bits. *)
Lemma land_tag p t : p mod 8 = 0 → 0 ≤ t < 8 → Z.land p t = 0.
Proof.
  intros Hp Ht. apply Z.bits_inj'. intros n Hn. rewrite Z.land_spec, Z.bits_0.
  destruct (decide (n < 3)) as [Hlt | Hge].
  - rewrite <- (Z.mod_pow2_bits_low p 3) by lia. change (2 ^ 3) with 8. by rewrite Hp, Z.bits_0.
  - rewrite <- (Z.mod_small t (2 ^ 3)), Z.mod_pow2_bits_high by lia. apply andb_false_r.
Qed.

Lemma lor_tag p t : p mod 8 = 0 → 0 ≤ t < 8 → Z.lor p t = p + t.
Proof.
  intros Hp Ht. rewrite <- Z.lxor_lor by (by apply land_tag).
  by rewrite <- Z.add_nocarry_lxor by (by apply land_tag).
Qed.

Lemma encode_work_run {S} ptr t (s : S) :
  ptr mod 8 = 0 → encode_work ptr t s = Done (ptr + work_type_code t) s.
Proof.
  intros Hp. unfold encode_work, encode_work_ptr. run_st. rewrite Hp. simpl.
  by rewrite lor_tag by (done || apply work_type_code_range).
Qed.

Lemma aligned_room ptr : 0 ≤ ptr < 2 ^ 64 → ptr mod 8 = 0 → ptr + 8 ≤ 2 ^ 64.
Proof.
  intros Hr Hp. pose proof (Z.div_mod ptr 8 ltac:(lia)). change (2 ^ 64) with (8 * 2 ^ 61) in *. lia.
Qed.

Lemma decode_work_run ptr t :
  0 ≤ ptr < 2 ^ 64 → ptr mod 8 = 0 → decode_work (ptr + work_type_code t) = (ptr, Some t).
Proof.
  intros Hr Hp. pose proof (work_type_code_range t) as Ht. unfold decode_work.
  change (Z.shiftl 1 3 - 1) with (2 ^ 3 - 1).
  pose proof (Z.div_mod ptr 8 ltac:(lia)). pose proof (aligned_room _ Hr Hp).
  assert (0 ≤ ptr + work_type_code t < 2 ^ 64) by lia.
  rewrite (land_lnot_mask 64 _ 3) by (done || lia). rewrite land_mask by lia. change (2 ^ 3) with 8.
  f_equal.
  - replace (ptr + work_type_code t) with (ptr / 8 * 8 + work_type_code t) by lia.
    rewrite Z.div_add_l, (Z.div_small (work_type_code t)) by lia. lia.
  - rewrite <- Z.add_mod_idemp_l, Hp, Z.add_0_l, Z.mod_small by lia. apply work_type_code_inv.
Qed.

(** Tagging is lossless: for an 8-byte aligned 64-bit pointer and any kind of
    work, [encode_work] passes its assertion and yields a 64-bit value from
    which [decode_work] recovers the pointer and the kind; in particular two
    encodings are equal only for the same pointer and kind. *)
Theorem work_ptr_roundtrip {S} (s : S) ptr t :
  0 ≤ ptr < 2 ^ 64 → ptr mod 8 = 0 →
  ∃ data, encode_work ptr t s = Done data s ∧ 0 ≤ data < 2 ^ 64 ∧ decode_work data = (ptr, Some t).
Proof.
  intros Hr Hp. exists (ptr + work_type_code t).
  split_and!; [by apply encode_work_run | | | by apply decode_work_run].
  - pose proof (work_type_code_range t). lia.
  - pose proof (work_type_code_range t). pose proof (aligned_room _ Hr Hp). lia.
Qed.

Lemma work_ptr_roundtrip_witness :
  ∃ data, encode_work 4096 Cancel tt = Done data tt ∧ 0 ≤ data < 2 ^ 64 ∧
    decode_work data = (4096, Some Cancel).
Proof. by apply work_ptr_roundtrip. Defined.
