(* ===== verification/Ring.v ===== *)
(** * The ring wrapper (include/condy/detail/ring.hpp)

    liburing is a parameter: [Uring] lists the calls [Ring] makes, on an
    abstract ring state, [UringDocs] what its documentation says of them, and
    [UringLaws] adds the one thing the retry loops rely on beyond it: the kernel
    does not refuse submissions for ever.  [sim_uring] is a small queue pair that
    keeps these laws, [slow_uring] one that refuses every other submission and
    takes one entry at a time; the witnesses use them. *)

From stdpp Require Import base numbers list.
From S2P Require Import Prelude.

(** What the code reads of a completion entry. *)
Record cqe := mkCqe {
  cqe_user_data : Z;
  cqe_res : Z;
  cqe_flags : Z
}.

(** The submissions the runtime prepares itself; [SqeOther] is an operation
    prepared by user code. *)
Inductive sqe_op : Type :=
  | SqeMsgRing (ring_fd : nat) (data : Z)
  | SqeCancel64 (data : Z) (cqe_skip_success : bool)
  | SqeOther (opcode flags : Z).

Record sqe := mkSqe {
  sqe_prep : sqe_op;
  sqe_user_data : Z
}.

(** The liburing calls.  [uring_cqe_at i u] is the [i]-th completion that
    [io_uring_for_each_cqe] visits when it gets that far.  [uring_retries] is no
    call: it is the number of refusals in a row after which the retry loops of the
    model give up, the bound of [uring_submit_progress]. *)
Class Uring (U : Type) := {
  uring_submit : U → Z * U;
  uring_submit_and_wait : U → Z * U;
  uring_peek_cqe : U → Z;
  uring_cqe_at : nat → U → option cqe;
  uring_cq_advance : Z → U → U;
  uring_cq_entries : U → nat;
  uring_sq_space_left : U → Z;
  uring_sq_entries : U → Z;
  uring_get_sqe : U → option (nat * U);
  uring_prep : nat → sqe → U → U;
  uring_sqring_wait : U → Z * U;
  uring_sqpoll : U → bool;
  uring_enable_rings : U → Z * U;
  uring_retries : nat
}.
Arguments uring_retries U {_}.

(** Documented behaviour of liburing on which the wrapper relies: a submission
    entry is available unless the queue is full; without a polling thread
    [io_uring_submit] frees as many entries as it says it has submitted, and none
    when it fails; with one, [io_uring_sqring_wait] waits for a free entry; the
    kernel does not overfill the completion queue; the size of the queue and its
    mode are fixed when the ring is made. *)
Class UringDocs (U : Type) `{Uring U} := {
  uring_entries_pos u : 0 < uring_sq_entries u;
  uring_space_bound u : 0 ≤ uring_sq_space_left u ≤ uring_sq_entries u;
  uring_get_sqe_full u : uring_get_sqe u = None ↔ uring_sq_space_left u = 0;
  uring_submit_entries u : uring_sq_entries (uring_submit u).2 = uring_sq_entries u;
  uring_submit_sqpoll u : uring_sqpoll (uring_submit u).2 = uring_sqpoll u;
  uring_submit_space u :
    uring_sqpoll u = false →
    uring_sq_space_left (uring_submit u).2 = uring_sq_space_left u + Z.max 0 (uring_submit u).1;
  uring_sqring_wait_frees u :
    uring_sqpoll u = true →
    0 ≤ (uring_sqring_wait u).1 ∧ 0 < uring_sq_space_left (uring_sqring_wait u).2;
  uring_cq_bound u i c : uring_cqe_at i u = Some c → (i < uring_cq_entries u)%nat;
  uring_get_sqe_dims u slot u' :
    uring_get_sqe u = Some (slot, u') →
    uring_sq_entries u' = uring_sq_entries u ∧ uring_sqpoll u' = uring_sqpoll u;
  uring_get_sqe_space u slot u' :
    uring_get_sqe u = Some (slot, u') → uring_sq_space_left u - 1 ≤ uring_sq_space_left u';
  uring_prep_space u slot s : uring_sq_space_left (uring_prep slot s u) = uring_sq_space_left u;
  uring_prep_dims u slot s :
    uring_sq_entries (uring_prep slot s u) = uring_sq_entries u ∧
    uring_sqpoll (uring_prep slot s u) = uring_sqpoll u;
  uring_sqring_wait_dims u :
    uring_sq_entries (uring_sqring_wait u).2 = uring_sq_entries u ∧
    uring_sqpoll (uring_sqring_wait u).2 = uring_sqpoll u;
  uring_submit_and_wait_dims u :
    uring_sq_entries (uring_submit_and_wait u).2 = uring_sq_entries u ∧
    uring_sqpoll (uring_submit_and_wait u).2 = uring_sqpoll u;
  uring_cq_advance_dims u n :
    uring_sq_entries (uring_cq_advance n u) = uring_sq_entries u ∧
    uring_sqpoll (uring_cq_advance n u) = uring_sqpoll u;
  uring_enable_rings_dims u :
    uring_sq_entries (uring_enable_rings u).2 = uring_sq_entries u ∧
    uring_sqpoll (uring_enable_rings u).2 = uring_sqpoll u
}.

(** One of the next [k + 1] submissions takes an entry. *)
Fixpoint accepts_within {U} `{Uring U} (k : nat) (u : U) : Prop :=
  0 < (uring_submit u).1 ∨
  match k with
  | O => False
  | S k => accepts_within k (uring_submit u).2
  end.

(** The documentation, and progress: while entries wait, the kernel does not
    refuse more than [uring_retries] submissions in a row (with [EAGAIN] or
    [EBUSY], say).  Only theorems on code that retries need the second part. *)
Class UringLaws (U : Type) `{Uring U} := {
  uring_docs :: UringDocs U;
  uring_submit_progress u :
    uring_sqpoll u = false → uring_sq_space_left u < uring_sq_entries u →
    accepts_within (uring_retries U) u
}.

Record Ring (U : Type) := mkRing {
  ring_ : U;
  submit_batch_ : Z;
  maybe_submit_count_ : Z
}.
Arguments mkRing {U} ring_ submit_batch_ maybe_submit_count_.
Arguments ring_ {U} r.
Arguments submit_batch_ {U} r.
Arguments maybe_submit_count_ {U} r.

Section ring.
Context {U : Type} `{Uring U}.
Abbreviation M := (ST (Ring U)).

(** [Ring(entries, params, ...)]: [init] is what [io_uring_queue_init_params] or
    [io_uring_queue_init_mem] returns. *)
Definition ring_new {S} (init : Z + U) (submit_batch : Z) : ST S (Ring U) :=
  match init with
  | inl r => throw (SystemError (- r))
  | inr u => mret (mkRing u submit_batch 0)
  end.

Definition submit : M unit :=
  modify (λ r, mkRing (uring_submit (ring_ r)).2 (submit_batch_ r) 0).

Definition maybe_submit : M unit :=
  modify (λ r, mkRing (ring_ r) (submit_batch_ r) (u64 (maybe_submit_count_ r + 1)));;
  r ← get;
  if submit_batch_ r <=? maybe_submit_count_ r then submit else mret tt.

Fixpoint reserve_space (fuel : nat) (n : Z) : M unit :=
  match fuel with
  | O => crashed OutOfFuel
  | S fuel =>
      r ← get;
      if n <=? uring_sq_space_left (ring_ r) then mret tt
      else submit;; reserve_space fuel n
  end.

(** Enough turns for [reserve_space] on a ring of that many entries: one is freed within
    [uring_retries + 1] submissions, and there are not more to free than the queue has ([reserve_space_ok]). *)
Definition reserve_turns (entries : Z) : nat := Datatypes.S (Z.to_nat entries * Datatypes.S (uring_retries U)).

Definition sqring_wait : M unit :=
  r ← get;
  let '(res, u) := uring_sqring_wait (ring_ r) in
  put (mkRing u (submit_batch_ r) (maybe_submit_count_ r));;
  assert_ (0 <=? res).

Fixpoint get_sqe_ (fuel : nat) : M nat :=
  match fuel with
  | O => crashed OutOfFuel
  | S fuel =>
      r ← get;
      match uring_get_sqe (ring_ r) with
      | Some (slot, u) =>
          put (mkRing u (submit_batch_ r) (maybe_submit_count_ r));;
          mret slot
      | None =>
          submit;;
          r ← get;
          (if uring_sqpoll (ring_ r) then sqring_wait else mret tt);;
          get_sqe_ fuel
      end
  end.

(** The refusals, the submission that is taken, and the turn that finds the entry
    it freed ([get_sqe_returns]). *)
Definition get_sqe : M nat := get_sqe_ (Datatypes.S (Datatypes.S (uring_retries U))).

Definition prep (slot : nat) (s : sqe) : M unit :=
  modify (λ r, mkRing (uring_prep slot s (ring_ r)) (submit_batch_ r) (maybe_submit_count_ r)).

(** [submit_and_wait] until it is not interrupted; [inl] is an error. *)
Fixpoint submit_and_wait_loop (fuel : nat) : M (option Z) :=
  match fuel with
  | O => crashed OutOfFuel
  | S fuel =>
      r ← get;
      let '(res, u) := uring_submit_and_wait (ring_ r) in
      if 0 <=? res then
        put (mkRing u (submit_batch_ r) 0);;
        mret None
      else
        put (mkRing u (submit_batch_ r) (maybe_submit_count_ r));;
        if res =? - EINTR then submit_and_wait_loop fuel else mret (Some res)
  end.

(** *** Reaping, for a client whose state [S] contains the ring *)

Section reap.
Context {S : Type} (ring_of : S → Ring U) (put_ring : Ring U → S → S).
Context (cqe_nr : cqe → Z) (process_func : cqe → ST S unit).

Definition on_ring {A} : M A → ST S A := zoom ring_of put_ring.

(** [io_uring_for_each_cqe] from the [i]-th completion on; the number reaped. *)
Fixpoint for_each_cqe (fuel : nat) (i : nat) (reaped : Z) : ST S Z :=
  match fuel with
  | O => crashed OutOfFuel
  | Datatypes.S fuel =>
      s ← get;
      match uring_cqe_at i (ring_ (ring_of s)) with
      | None => mret reaped
      | Some c =>
          process_func c;;
          for_each_cqe fuel (Datatypes.S i) (reaped + cqe_nr c)
      end
  end.

Definition cq_advance (reaped : Z) : ST S unit :=
  on_ring (modify (λ r, mkRing (uring_cq_advance reaped (ring_ r)) (submit_batch_ r)
                          (maybe_submit_count_ r))).

(** One more turn than the completion queue has entries. *)
Definition reap_all : ST S Z :=
  s ← get;
  reaped ← for_each_cqe (Datatypes.S (uring_cq_entries (ring_ (ring_of s)))) 0 0;
  cq_advance reaped;;
  mret reaped.

Definition reap_completions_wait (fuel : nat) : ST S Z :=
  err ← on_ring (submit_and_wait_loop fuel);
  match err with
  | Some r => mret r
  | None => reap_all
  end.

Definition reap_completions : ST S Z :=
  s ← get;
  let r := uring_peek_cqe (ring_ (ring_of s)) in
  if r =? - EAGAIN then mret 0
  else if r <? 0 then mret r
  else reap_all.

End reap.
End ring.
Arguments reserve_turns U {_} entries.

(** ** Properties *)

Section reserve.
Context {U : Type} `{UringDocs U}.
Implicit Types (r : Ring U) (u : U).

Definition space r : Z := uring_sq_space_left (ring_ r).

(** The ring after [k] more submissions. *)
Definition submits (k : nat) u : U := Nat.iter k (λ u, (uring_submit u).2) u.

Lemma submits_S k u : submits (S k) u = submits k (uring_submit u).2.
Proof. exact (Nat.iter_succ_r k _ u). Qed.

Lemma submits_dims k : ∀ u,
  uring_sq_entries (submits k u) = uring_sq_entries u ∧ uring_sqpoll (submits k u) = uring_sqpoll u.
Proof.
  induction k as [|k IH]; intros u; [done |]. rewrite submits_S.
  by rewrite !(proj1 (IH _)), !(proj2 (IH _)), uring_submit_entries, uring_submit_sqpoll.
Qed.

(** The room only grows. *)
Lemma submits_space_mono j k u :
  uring_sqpoll u = false → (j ≤ k)%nat → uring_sq_space_left (submits j u) ≤ uring_sq_space_left (submits k u).
Proof.
  intros Hp. induction 1 as [|k Hle IH]; [done |]. unfold submits in *. simpl.
  rewrite uring_submit_space by (etrans; [apply submits_dims | done]). lia.
Qed.

(** The loop of [reserve_space] makes submissions until the room is there. *)
Lemma reserve_space_run n m : ∀ r fuel,
  (∀ j, (j < m)%nat → uring_sq_space_left (submits j (ring_ r)) < n) → n ≤ uring_sq_space_left (submits m (ring_ r)) →
  (m < fuel)%nat →
  reserve_space fuel n r
  = Done tt (mkRing (submits m (ring_ r)) (submit_batch_ r) (if decide (m = 0)%nat then maybe_submit_count_ r else 0)).
Proof.
  induction m as [|m IH]; intros r [|fuel] Hlt Hge Hf; try lia; cbn [reserve_space]; rewrite bind_get.
  - rewrite (proj2 (Z.leb_le _ _)) by done. by destruct r.
  - rewrite (proj2 (Z.leb_gt _ _)) by (apply (Hlt 0%nat); lia). erewrite bind_done by done.
    rewrite submits_S in Hge. rewrite IH; [| | done | lia].
    + cbn [ring_ submit_batch_ maybe_submit_count_]. rewrite submits_S. by destruct (decide (m = 0)%nat).
    + intros j Hj. cbn [ring_]. rewrite <- (submits_S j (ring_ r)). apply Hlt. lia.
Qed.

Lemma reserve_space_stuck n : ∀ fuel r,
  (∀ j, uring_sq_space_left (submits j (ring_ r)) < n) → reserve_space fuel n r = Crashed OutOfFuel.
Proof.
  induction fuel as [|fuel IH]; intros r Hn; [done |]. simpl. rewrite bind_get.
  rewrite (proj2 (Z.leb_gt _ _)) by (apply (Hn 0%nat)).
  erewrite bind_done by done. apply IH. intros j. simpl. rewrite <- submits_S. apply Hn.
Qed.

(** Within [k + 1] submissions there is more room. *)
Lemma accepts_grows k : ∀ u,
  uring_sqpoll u = false → accepts_within k u →
  ∃ m, (m ≤ S k)%nat ∧ uring_sq_space_left u < uring_sq_space_left (submits m u).
Proof.
  assert (∀ u, uring_sqpoll u = false → 0 < (uring_submit u).1 →
            uring_sq_space_left u < uring_sq_space_left (submits 1 u)) as H1.
  { intros u Hp Hpos. cbn. rewrite uring_submit_space by done. lia. }
  induction k as [|k IH]; intros u Hp [Ha | Ha]; [exists 1%nat; eauto with lia | done | exists 1%nat; eauto with lia |].
  destruct (IH _ ltac:(by rewrite uring_submit_sqpoll) Ha) as (m & Hm & Hs). exists (S m). split; [lia |].
  rewrite submits_S. rewrite uring_submit_space in Hs by done. lia.
Qed.

(** When every state on the way with less than [n] entries free has a submission
    taken within [R + 1] tries, [n] entries get free. *)
Lemma room_reached R n : ∀ w u,
  (Z.to_nat (n - uring_sq_space_left u) ≤ w)%nat →
  uring_sqpoll u = false →
  (∀ k, uring_sq_space_left (submits k u) < n → accepts_within R (submits k u)) →
  ∃ m, (m ≤ w * S R)%nat ∧ n ≤ uring_sq_space_left (submits m u).
Proof.
  induction w as [|w IH]; intros u Hw Hp Ha; [exists 0%nat; simpl; lia |].
  destruct (decide (n ≤ uring_sq_space_left u)); [exists 0%nat; simpl; lia |].
  destruct (accepts_grows R u Hp) as (m & Hm & Hs); [apply (Ha 0%nat); simpl; lia |].
  destruct (IH (submits m u)) as (m' & Hm' & Hs').
  - lia.
  - etrans; [apply submits_dims | done].
  - intros k. unfold submits. rewrite <- Nat.iter_add. apply Ha.
  - exists (m' + m)%nat. split; [nia |]. revert Hs'. unfold submits. by rewrite <- Nat.iter_add.
Qed.

Lemma least_room n m u :
  uring_sqpoll u = false → n ≤ uring_sq_space_left (submits m u) →
  ∃ m', (m' ≤ m)%nat ∧ n ≤ uring_sq_space_left (submits m' u) ∧
    ∀ j, (j < m')%nat → uring_sq_space_left (submits j u) < n.
Proof.
  intros Hp. induction m as [|m IH]; intros Hm; [exists 0%nat; split_and!; [lia | done | lia] |].
  destruct (decide (n ≤ uring_sq_space_left (submits m u))) as [Hd | Hd].
  - destruct (IH Hd) as (m' & ? & ? & ?). exists m'. split_and!; [lia | done | done].
  - exists (S m). split_and!; [lia | done |]. intros j Hj.
    pose proof (submits_space_mono j m u Hp). lia.
Qed.

Lemma reserve_space_returns R r n :
  uring_sqpoll (ring_ r) = false →
  (∀ k, uring_sq_space_left (submits k (ring_ r)) < n → accepts_within R (submits k (ring_ r))) →
  ∃ m, (m ≤ Z.to_nat (n - space r) * S R)%nat ∧
    n ≤ uring_sq_space_left (submits m (ring_ r)) ∧
    (∀ j, (j < m)%nat → uring_sq_space_left (submits j (ring_ r)) < n) ∧
    ∀ fuel, (m < fuel)%nat →
      reserve_space fuel n r
      = Done tt (mkRing (submits m (ring_ r)) (submit_batch_ r)
                   (if decide (m = 0)%nat then maybe_submit_count_ r else 0)).
Proof.
  intros Hp Ha. destruct (room_reached R n _ (ring_ r) (le_n _) Hp Ha) as (m0 & Hm0 & Hs0).
  destruct (least_room n m0 (ring_ r) Hp Hs0) as (m & Hm & Hs & Hj). exists m. unfold space.
  split_and!; [lia | done | done |]. intros fuel Hf. by apply reserve_space_run.
Qed.

(** A kernel that takes nothing any more. *)
Definition refuses u : Prop := ∀ k, (uring_submit (submits k u)).1 ≤ 0.

Lemma refuses_space k u :
  uring_sqpoll u = false → refuses u → uring_sq_space_left (submits k u) = uring_sq_space_left u.
Proof.
  intros Hp Hr. induction k as [|k IH]; [done |]. change (submits (S k) u) with (uring_submit (submits k u)).2.
  rewrite uring_submit_space.
  - specialize (Hr k). lia.
  - etrans; [apply submits_dims | done].
Qed.

(** C32. [reserve_space n] for a ring without polling thread, where a submission
    frees the entries it says it has submitted and may be refused or take only a
    part.  When the kernel takes at least one entry in every [R + 1] submissions
    as long as fewer than [n] are free, the loop returns with room for [n]
    entries, after the first submission that makes it, which is among the first
    [(n - space) * (R + 1)]; it makes none when the room is there.  It never
    returns, whatever number of turns is allowed, when the queue has fewer than
    [n] entries at all, and when there is not room enough and the kernel refuses
    every submission: the loop has no other way out. *)
Theorem reserve_space_behaviour r n :
  uring_sqpoll (ring_ r) = false →
  (∀ R,
     (∀ k, uring_sq_space_left (submits k (ring_ r)) < n → accepts_within R (submits k (ring_ r))) →
     ∃ m r', (m ≤ Z.to_nat (n - space r) * S R)%nat ∧
       (∀ fuel, (m < fuel)%nat → reserve_space fuel n r = Done tt r') ∧
       n ≤ space r' ∧ ring_ r' = submits m (ring_ r) ∧
       (∀ j, (j < m)%nat → uring_sq_space_left (submits j (ring_ r)) < n)) ∧
  (uring_sq_entries (ring_ r) < n ∨ space r < n ∧ refuses (ring_ r) →
     ∀ fuel, reserve_space fuel n r = Crashed OutOfFuel).
Proof.
  intros Hp. split.
  - intros R Ha. destruct (reserve_space_returns R r n Hp Ha) as (m & Hm & Hs & Hj & E).
    eexists m, _. split_and!; [done | exact E | done | done | done].
  - intros Hn fuel. apply reserve_space_stuck. intros j. destruct Hn as [Hn | [Hn Hr]].
    + pose proof (uring_space_bound (submits j (ring_ r))). rewrite (proj1 (submits_dims j _)) in *. lia.
    + rewrite refuses_space by done. exact Hn.
Qed.

End reserve.

Section props.
Context {U : Type} `{UringLaws U}.
Implicit Types r : Ring U.

Lemma get_sqe_some r : 0 < space r → ∃ slot u, uring_get_sqe (ring_ r) = Some (slot, u).
Proof.
  intros Hs. destruct (uring_get_sqe (ring_ r)) as [[slot u]|] eqn:E; [eauto |].
  apply uring_get_sqe_full in E. unfold space in Hs. lia.
Qed.

(** The size of the submission queue and whether a kernel thread polls it. *)
Definition ring_dims r : Z * bool := (uring_sq_entries (ring_ r), uring_sqpoll (ring_ r)).

Lemma submit_dims r r' : submit r = Done tt r' → ring_dims r' = ring_dims r.
Proof. intros [= <-]. unfold ring_dims. simpl. by rewrite uring_submit_entries, uring_submit_sqpoll. Qed.

Lemma submit_and_wait_dims fuel : ∀ r a r', submit_and_wait_loop fuel r = Done a r' → ring_dims r' = ring_dims r.
Proof.
  induction fuel as [|fuel IH]; intros r a r' E; [done |]. cbn [submit_and_wait_loop] in E. rewrite bind_get in E.
  pose proof (uring_submit_and_wait_dims (ring_ r)) as [Hd1 Hd2].
  destruct (uring_submit_and_wait (ring_ r)) as [res u]. simpl in *. unfold ring_dims. rewrite <- Hd1, <- Hd2.
  destruct (0 <=? res); [by injection E as _ <- |].
  rewrite (bind_done _ _ _ _ _ (eq_refl : put _ _ = Done tt _)) in E.
  destruct (res =? - EINTR); [exact (IH _ _ _ E) | by injection E as _ <-].
Qed.

Lemma maybe_submit_ok r : ∃ r', maybe_submit r = Done tt r' ∧ ring_dims r' = ring_dims r.
Proof.
  unfold maybe_submit. erewrite bind_done by done. rewrite bind_get.
  destruct (_ <=? _); eexists; (split; [done |]); [| done].
  unfold ring_dims. simpl. by rewrite uring_submit_entries, uring_submit_sqpoll.
Qed.

Lemma get_sqe_dims_of r slot u :
  uring_get_sqe (ring_ r) = Some (slot, u) →
  ring_dims (mkRing u (submit_batch_ r) (maybe_submit_count_ r)) = ring_dims r.
Proof. intros [E1 E2]%uring_get_sqe_dims. unfold ring_dims. simpl. by rewrite E1, E2. Qed.

Lemma get_sqe__dims fuel : ∀ r slot r', get_sqe_ fuel r = Done slot r' → ring_dims r' = ring_dims r.
Proof.
  induction fuel as [|fuel IH]; intros r slot r' E; [done |]. simpl in E. rewrite bind_get in E.
  destruct (uring_get_sqe (ring_ r)) as [[slot' u]|] eqn:Eg.
  { apply get_sqe_dims_of in Eg. rewrite <- Eg. by injection E as <- <-. }
  apply bind_inv in E as (? & r1 & E1 & E). rewrite <- (submit_dims r r1) by (by destruct x).
  rewrite bind_get in E. apply bind_inv in E as (? & r2 & E2 & E%IH). rewrite E.
  destruct (uring_sqpoll (ring_ r1)); [| by injection E2 as <- <-].
  unfold sqring_wait in E2. rewrite bind_get in E2. destruct (uring_sqring_wait_dims (ring_ r1)) as [D1 D2].
  destruct (uring_sqring_wait (ring_ r1)) as [res u]. apply bind_inv in E2 as (? & r3 & E3 & E2).
  injection E3 as <- <-. unfold assert_ in E2. destruct (0 <=? res); [| done]. injection E2 as <- <-.
  unfold ring_dims. simpl in *. by rewrite D1, D2.
Qed.

Lemma get_sqe_dims r slot r' : get_sqe r = Done slot r' → ring_dims r' = ring_dims r.
Proof. apply get_sqe__dims. Qed.

Lemma prep_dims r slot s :
  ring_dims (mkRing (uring_prep slot s (ring_ r)) (submit_batch_ r) (maybe_submit_count_ r)) = ring_dims r.
Proof. unfold ring_dims. simpl. destruct (uring_prep_dims (ring_ r) slot s) as [-> ->]. done. Qed.

Lemma sqring_wait_ok r :
  uring_sqpoll (ring_ r) = true →
  ∃ u, sqring_wait r = Done tt (mkRing u (submit_batch_ r) (maybe_submit_count_ r)) ∧
    0 < uring_sq_space_left u.
Proof.
  intros [Hw Hs]%uring_sqring_wait_frees. unfold sqring_wait. rewrite bind_get.
  destruct (uring_sqring_wait (ring_ r)) as [res u]. simpl in *. exists u. split; [| done].
  erewrite bind_done by done. by rewrite (proj2 (Z.leb_le 0 res)).
Qed.

(** One turn of [get_sqe_] on a ring with room. *)
Lemma get_sqe__room fuel r :
  0 < space r →
  ∃ slot u, get_sqe_ (S fuel) r = Done slot (mkRing u (submit_batch_ r) (maybe_submit_count_ r)).
Proof.
  intros (slot & u & E)%get_sqe_some. exists slot, u. simpl. rewrite bind_get. by rewrite E.
Qed.

(** One turn on a full ring without polling thread: a submission. *)
Lemma get_sqe__full fuel r :
  space r = 0 → uring_sqpoll (ring_ r) = false →
  get_sqe_ (S fuel) r = get_sqe_ fuel (mkRing (uring_submit (ring_ r)).2 (submit_batch_ r) 0).
Proof.
  intros E%uring_get_sqe_full Hp. cbn [get_sqe_]. rewrite bind_get, E. erewrite bind_done by done.
  rewrite bind_get. cbn [ring_]. rewrite uring_submit_sqpoll, Hp. by erewrite bind_done by done.
Qed.

(** The turns until the kernel takes an entry of a full queue. *)
Lemma get_sqe__retries k : ∀ r,
  space r = 0 → uring_sqpoll (ring_ r) = false → accepts_within k (ring_ r) →
  ∃ slot u, get_sqe_ (S (S k)) r = Done slot (mkRing u (submit_batch_ r) 0).
Proof.
  induction k as [|k IH]; intros r Hs Hp Ha; rewrite get_sqe__full by done;
    pose proof (uring_submit_space (ring_ r) Hp) as Hsp; unfold space in Hs; rewrite Hs in Hsp;
    set (r1 := mkRing (uring_submit (ring_ r)).2 (submit_batch_ r) 0);
    (destruct (decide (0 < (uring_submit (ring_ r)).1)) as [Hpos | Hneg];
      [apply (get_sqe__room _ r1); unfold space; simpl; lia |]);
    destruct Ha as [|Ha]; [lia | done | lia |].
  apply (IH r1); [unfold space; simpl; lia | simpl; by rewrite uring_submit_sqpoll | done].
Qed.

Lemma get_sqe_ok r :
  ∃ slot r', get_sqe r = Done slot r' ∧ submit_batch_ r' = submit_batch_ r ∧
    maybe_submit_count_ r' = (if space r =? 0 then 0 else maybe_submit_count_ r).
Proof.
  unfold get_sqe. destruct (Z.eqb_spec (space r) 0) as [Hz | Hnz].
  2: { destruct (get_sqe__room (S (uring_retries U)) r) as (slot & u & E); [| eauto].
       pose proof (uring_space_bound (ring_ r)). unfold space in *. lia. }
  destruct (uring_sqpoll (ring_ r)) eqn:Hp.
  2: { destruct (get_sqe__retries (uring_retries U) r Hz Hp) as (slot & u & E); [| eauto].
       apply uring_submit_progress; [done |]. pose proof (uring_entries_pos (ring_ r)). unfold space in Hz. lia. }
  set (r1 := mkRing (uring_submit (ring_ r)).2 (submit_batch_ r) 0).
  assert (uring_sqpoll (ring_ r1) = true) as Hp1 by (simpl; by rewrite uring_submit_sqpoll).
  destruct (sqring_wait_ok r1 Hp1) as (u & Ew & Hu).
  destruct (get_sqe__room (uring_retries U) (mkRing u (submit_batch_ r) 0) Hu) as (slot & u' & Eg).
  exists slot, (mkRing u' (submit_batch_ r) 0). split; [| done].
  apply uring_get_sqe_full in Hz as E. change (get_sqe_ ?f) with (get_sqe_ f). cbn [get_sqe_]. rewrite bind_get, E.
  rewrite (bind_done _ _ _ _ r1) by done. rewrite bind_get. rewrite Hp1.
  by rewrite (bind_done _ _ _ _ _ Ew).
Qed.

(** [get_sqe] always returns an entry, for a kernel that does not refuse for ever:
    directly when the queue has room, otherwise after submissions until one is
    taken, or, when a kernel thread polls the queue, after waiting for it; the
    assertion on [io_uring_sqring_wait] holds. *)
Theorem get_sqe_returns r :
  ∃ slot r', get_sqe r = Done slot r' ∧ submit_batch_ r' = submit_batch_ r ∧
    maybe_submit_count_ r' = (if space r =? 0 then 0 else maybe_submit_count_ r).
Proof. apply get_sqe_ok. Qed.

Lemma reserve_space_ok r n f :
  uring_sqpoll (ring_ r) = false → n ≤ uring_sq_entries (ring_ r) →
  (reserve_turns U (uring_sq_entries (ring_ r)) ≤ f)%nat →
  ∃ r', reserve_space f n r = Done tt r' ∧ n ≤ space r' ∧ ring_dims r' = ring_dims r ∧
    submit_batch_ r' = submit_batch_ r ∧
    (maybe_submit_count_ r' = maybe_submit_count_ r ∨ maybe_submit_count_ r' = 0).
Proof.
  intros Hp Hn Hf. destruct (reserve_space_returns (uring_retries U) r n Hp) as (m & Hm & Hge & _ & E).
  { intros k Hk. apply uring_submit_progress; [etrans; [apply submits_dims | done] |].
    rewrite (proj1 (submits_dims k _)). lia. }
  unfold reserve_turns in Hf. pose proof (uring_space_bound (ring_ r)).
  assert (Z.to_nat (n - space r) ≤ Z.to_nat (uring_sq_entries (ring_ r)))%nat by (unfold space; lia).
  eexists. split; [apply E; nia |]. unfold space, ring_dims. simpl.
  rewrite (proj1 (submits_dims m _)), (proj2 (submits_dims m _)). case_decide; auto.
Qed.

(** [k] calls of [maybe_submit]. *)
Fixpoint maybe_submits (k : nat) : ST (Ring U) unit :=
  match k with
  | O => mret tt
  | S k => maybe_submits k;; maybe_submit
  end.

(** Batching: starting from a fresh count, [k] calls of [maybe_submit] submit
    exactly [k / submit_batch] times, at every [submit_batch]-th call. *)
Theorem maybe_submit_batches r (k : nat) :
  0 < submit_batch_ r < 2 ^ 64 → maybe_submit_count_ r = 0 →
  maybe_submits k r
  = Done tt (mkRing (Nat.iter (Z.to_nat (Z.of_nat k / submit_batch_ r)) (λ u, (uring_submit u).2) (ring_ r))
               (submit_batch_ r) (Z.of_nat k mod submit_batch_ r)).
Proof.
  intros Hb Hc. induction k as [|k IH]; cbn [maybe_submits].
  - change (Z.of_nat 0) with 0. rewrite Z.div_0_l, Z.mod_0_l by lia. destruct r; simpl in *. by subst.
  - erewrite bind_done by exact IH. set (b := submit_batch_ r) in *.
    unfold maybe_submit. erewrite bind_done by done. rewrite bind_get. cbn [submit_batch_ maybe_submit_count_].
    pose proof (Z.mod_pos_bound (Z.of_nat k) b). pose proof (Z.div_mod (Z.of_nat k) b).
    assert (Z.of_nat (S k) = Z.of_nat k + 1) as Ek by lia.
    rewrite wrap_small by lia.
    destruct (Z.leb_spec b (Z.of_nat k mod b + 1)).
    + assert (Z.of_nat (S k) / b = Z.of_nat k / b + 1 ∧ Z.of_nat (S k) mod b = 0) as [-> ->].
      { rewrite Ek. split.
        - symmetry. apply (Z.div_unique _ _ _ 0); nia.
        - symmetry. apply (Z.mod_unique _ _ (Z.of_nat k / b + 1)); nia. }
      pose proof (Z.div_pos (Z.of_nat k) b). unfold submit. run_st.
      rewrite Z2Nat.inj_add by lia. rewrite Nat.add_1_r. done.
    + assert (Z.of_nat (S k) / b = Z.of_nat k / b ∧ Z.of_nat (S k) mod b = Z.of_nat k mod b + 1) as [-> ->].
      { rewrite Ek. split.
        - symmetry. apply (Z.div_unique _ _ _ (Z.of_nat k mod b + 1)); nia.
        - symmetry. apply (Z.mod_unique _ _ (Z.of_nat k / b)); nia. }
      done.
Qed.

End props.

Section reap_props.
Context {U : Type} `{UringLaws U}.
Context {S : Type} (ring_of : S → Ring U) (put_ring : Ring U → S → S).
Context (cqe_nr : cqe → Z) (process_func : cqe → ST S unit).

(** Processing a completion does not change which ones are there. *)
Definition keeps_cqes : Prop := ∀ c s s',
  process_func c s = Done tt s' →
  ∀ i, uring_cqe_at i (ring_ (ring_of s')) = uring_cqe_at i (ring_ (ring_of s)).

Fixpoint process_list (cs : list cqe) : ST S unit :=
  match cs with
  | [] => mret tt
  | c :: cs => process_func c;; process_list cs
  end.

Lemma for_each_cqe_run (Hk : keeps_cqes) cs : ∀ fuel i n s,
  (∀ j, uring_cqe_at (i + j) (ring_ (ring_of s)) = cs !! j) → (length cs < fuel)%nat →
  for_each_cqe ring_of cqe_nr process_func fuel i n s
  = (process_list cs;; mret (foldl (λ n c, n + cqe_nr c) n cs)) s.
Proof.
  induction cs as [|c cs IH]; intros [|fuel] i n s Hc Hf; simpl in Hf; try lia;
    simpl; rewrite bind_get; pose proof (Hc 0%nat) as Hz; rewrite Nat.add_0_r in Hz; rewrite Hz; simpl.
  - done.
  - unfold mbind, st_bind. destruct (process_func c s) as [[] s' | |] eqn:Ep; [| done | done].
    rewrite IH; [done | | lia]. intros j. rewrite (Hk _ _ _ Ep).
    specialize (Hc (Datatypes.S j)). by rewrite Nat.add_succ_r in Hc.
Qed.

(** Reaping handles every available completion exactly once, in order, and
    then releases as many entries as it visited; the number returned is their
    total.  When the handler fails, the failure is passed on unchanged. *)
Theorem reap_each_once cs s :
  keeps_cqes → (∀ i, uring_cqe_at i (ring_ (ring_of s)) = cs !! i) →
  let n := foldl (λ n c, n + cqe_nr c) 0 cs in
  reap_all ring_of put_ring cqe_nr process_func s
  = (process_list cs;; cq_advance ring_of put_ring n;; mret n) s.
Proof.
  intros Hk Hc n. unfold reap_all. rewrite bind_get. unfold mbind, st_bind.
  rewrite (for_each_cqe_run Hk cs); [| done |].
  - unfold mbind, st_bind. by destruct (process_list cs s).
  - apply Nat.lt_succ_r. destruct (decide (length cs = 0)%nat) as [-> | Hne]; [lia |].
    destruct (lookup_lt_is_Some_2 cs (length cs - 1)) as [c Ec]; [lia |].
    pose proof (uring_cq_bound (ring_ (ring_of s)) (length cs - 1) c) as Hb.
    rewrite Hc in Hb. specialize (Hb Ec). lia.
Qed.

End reap_props.

(** ** A ring that keeps the laws *)

Record SimRing := mkSimRing {
  sim_cap : nat;
  sim_sq : list sqe;
  sim_submitted : list sqe;
  sim_cq_cap : nat;
  sim_cq : list cqe
}.

Definition sim_entries (u : SimRing) : Z := Z.of_nat (S (sim_cap u)).
Definition sim_space (u : SimRing) : Z := Z.max 0 (sim_entries u - Z.of_nat (length (sim_sq u))).
Definition sim_submit (u : SimRing) : Z * SimRing :=
  (sim_entries u - sim_space u,
   mkSimRing (sim_cap u) [] (sim_submitted u ++ sim_sq u) (sim_cq_cap u) (sim_cq u)).

#[export] Instance sim_uring : Uring SimRing := {
  uring_submit := sim_submit;
  uring_submit_and_wait := sim_submit;
  uring_peek_cqe u := match sim_cq u with [] => - EAGAIN | _ => 0 end;
  uring_cqe_at i u := take (sim_cq_cap u) (sim_cq u) !! i;
  uring_cq_advance n u :=
    mkSimRing (sim_cap u) (sim_sq u) (sim_submitted u) (sim_cq_cap u) (drop (Z.to_nat n) (sim_cq u));
  uring_cq_entries := sim_cq_cap;
  uring_sq_space_left := sim_space;
  uring_sq_entries := sim_entries;
  uring_get_sqe u :=
    if sim_space u =? 0 then None
    else Some (length (sim_sq u),
               mkSimRing (sim_cap u) (sim_sq u ++ [mkSqe (SqeOther 0 0) 0]) (sim_submitted u)
                 (sim_cq_cap u) (sim_cq u));
  uring_prep slot s u :=
    mkSimRing (sim_cap u) (<[slot := s]> (sim_sq u)) (sim_submitted u) (sim_cq_cap u) (sim_cq u);
  uring_sqring_wait u := (0, u);
  uring_sqpoll _ := false;
  uring_enable_rings u := (0, u);
  uring_retries := 0
}.

#[export] Instance sim_uring_docs : UringDocs SimRing.
Proof.
  split; cbn; unfold sim_space, sim_entries; cbn [sim_cap sim_sq].
  - intros u. lia.
  - intros u. lia.
  - intros u. match goal with |- context [?x =? 0] => destruct (Z.eqb_spec x 0) end;
      split; (done || lia).
  - done.
  - done.
  - intros u _. cbn [length sim_sq sim_cap sim_submit fst snd]. unfold sim_space, sim_entries. lia.
  - done.
  - intros u i c Hi. apply lookup_lt_Some in Hi. rewrite length_take in Hi. lia.
  - intros u slot u'. match goal with |- context [?x =? 0] => destruct (x =? 0) end; [done |].
    by intros [= <- <-].
  - intros u slot u'. match goal with |- context [?x =? 0] => destruct (x =? 0) end; [done |].
    intros [= <- <-]. cbn [sim_cap sim_sq]. rewrite length_app. simpl. lia.
  - intros u slot s. by rewrite length_insert.
  - done.
  - done.
  - done.
  - done.
  - done.
Qed.

#[export] Instance sim_uring_laws : UringLaws SimRing.
Proof.
  split; [apply _ |]. intros u _ Hs. cbn in *. left. lia.
Qed.

(** A ring whose kernel refuses every other submission and otherwise takes one
    entry. *)
Record SlowRing := mkSlowRing {
  slow_ring : SimRing;
  slow_busy : bool
}.

Definition slow_on (f : SimRing → SimRing) (u : SlowRing) : SlowRing := mkSlowRing (f (slow_ring u)) (slow_busy u).

Definition slow_take (u : SimRing) : SimRing :=
  let kept := take (sim_cap u) (tail (sim_sq u)) in
  mkSimRing (sim_cap u) kept (sim_submitted u ++ take 1 (sim_sq u)) (sim_cq_cap u) (sim_cq u).

Definition slow_submit (u : SlowRing) : Z * SlowRing :=
  if slow_busy u then (- EAGAIN, mkSlowRing (slow_ring u) false)
  else if sim_space (slow_ring u) =? sim_entries (slow_ring u) then (0, u)
  else (1, mkSlowRing (slow_take (slow_ring u)) true).

#[export] Instance slow_uring : Uring SlowRing := {
  uring_submit := slow_submit;
  uring_submit_and_wait := slow_submit;
  uring_peek_cqe u := uring_peek_cqe (slow_ring u);
  uring_cqe_at i u := uring_cqe_at i (slow_ring u);
  uring_cq_advance n := slow_on (uring_cq_advance n);
  uring_cq_entries u := uring_cq_entries (slow_ring u);
  uring_sq_space_left u := uring_sq_space_left (slow_ring u);
  uring_sq_entries u := uring_sq_entries (slow_ring u);
  uring_get_sqe u := '(slot, v) ← uring_get_sqe (slow_ring u); Some (slot, mkSlowRing v (slow_busy u));
  uring_prep slot s := slow_on (uring_prep slot s);
  uring_sqring_wait u := (0, u);
  uring_sqpoll _ := false;
  uring_enable_rings u := (0, u);
  uring_retries := 1
}.

Lemma slow_get_sqe u slot u' :
  uring_get_sqe u = Some (slot, u') → uring_get_sqe (slow_ring u) = Some (slot, slow_ring u').
Proof.
  change (uring_get_sqe u) with ('(slot, v) ← uring_get_sqe (slow_ring u); Some (slot, mkSlowRing v (slow_busy u))).
  intros ([slot1 v] & E & [= -> <-])%bind_Some. exact E.
Qed.

Lemma slow_submit_cases u :
  uring_sqpoll (uring_submit u).2 = false ∧
  sim_cap (slow_ring (uring_submit u).2) = sim_cap (slow_ring u) ∧
  uring_sq_space_left (uring_submit u).2 = uring_sq_space_left u + Z.max 0 (uring_submit u).1.
Proof.
  split; [done |]. cbn. unfold slow_submit, EAGAIN. destruct (slow_busy u); [split; [done | cbn [fst snd slow_ring]; lia] |].
  destruct (Z.eqb_spec (sim_space (slow_ring u)) (sim_entries (slow_ring u))) as [Es | Es]; [split; [done | cbn [fst snd]; lia] |].
  split; [done |]. revert Es. unfold slow_take, sim_space, sim_entries. cbn [fst snd slow_ring sim_cap sim_sq].
  rewrite length_take. destruct (sim_sq (slow_ring u)); simpl length; lia.
Qed.

Lemma slow_submit_entries u : uring_sq_entries (uring_submit u).2 = uring_sq_entries u.
Proof.
  destruct (slow_submit_cases u) as (_ & E & _).
  exact (f_equal (λ n, Z.of_nat (S n)) E).
Qed.

#[export] Instance slow_uring_docs : UringDocs SlowRing.
Proof.
  split.
  - intros u. apply (uring_entries_pos (slow_ring u)).
  - intros u. apply (uring_space_bound (slow_ring u)).
  - intros u. etrans; [| apply (uring_get_sqe_full (slow_ring u))]. simpl. by destruct (_ =? 0).
  - intros u. apply slow_submit_entries.
  - done.
  - intros u _. apply slow_submit_cases.
  - done.
  - intros u. apply (uring_cq_bound (slow_ring u)).
  - intros u slot u' E%slow_get_sqe%uring_get_sqe_dims. exact E.
  - intros u slot u' E%slow_get_sqe%uring_get_sqe_space. exact E.
  - intros u slot s. apply (uring_prep_space (slow_ring u)).
  - done.
  - done.
  - intros u. split; [apply slow_submit_entries | done].
  - done.
  - done.
Qed.

#[export] Instance slow_uring_laws : UringLaws SlowRing.
Proof.
  split; [apply _ |]. intros [v b] _ Hs. change (sim_space v < sim_entries v) in Hs.
  assert (0 < (uring_submit (mkSlowRing v false)).1) as Hpos.
  { change (0 < (slow_submit (mkSlowRing v false)).1). unfold slow_submit. cbn [slow_busy slow_ring].
    by rewrite (proj2 (Z.eqb_neq _ _)) by lia. }
  destruct b; [right; left | left]; exact Hpos.
Qed.

(** Three entries wait in a queue of four. *)
Definition slow_demo (busy : bool) : Ring SlowRing :=
  mkRing (mkSlowRing (mkSimRing 3 (replicate 3 (mkSqe (SqeOther 1 0) 0)) [] 4 []) busy) 2 1.

Definition demo_ring : Ring SimRing :=
  mkRing (mkSimRing 3 [] [] 4 [mkCqe 8 0 0; mkCqe 16 1 0]) 2 0.

Lemma reserve_space_behaviour_witness :
  (∃ m r', (m ≤ 4)%nat ∧
     (∀ fuel, (m < fuel)%nat → reserve_space fuel 3 (slow_demo true) = Done tt r') ∧
     3 ≤ space r' ∧ ring_ r' = submits m (ring_ (slow_demo true)) ∧
     ∀ j, (j < m)%nat → uring_sq_space_left (submits j (ring_ (slow_demo true))) < 3) ∧
  ∀ fuel, reserve_space fuel 5 (slow_demo true) = Crashed OutOfFuel.
Proof.
  split.
  - destruct (reserve_space_behaviour (slow_demo true) 3) as [Hret _]; [reflexivity |].
    change 4%nat with (2 * S (uring_retries SlowRing))%nat.
    apply (Hret (uring_retries SlowRing)). intros k Hk. apply uring_submit_progress; [reflexivity |].
    rewrite (proj1 (submits_dims k _)). etrans; [exact Hk |]. reflexivity.
  - destruct (reserve_space_behaviour (slow_demo true) 5) as [_ Hstuck]; [reflexivity |].
    apply Hstuck. left. reflexivity.
Defined.

(** Four submissions are needed there: the kernel refuses two of them. *)
Example reserve_space_slow :
  (reserve_space 5 3 (slow_demo true), reserve_space 4 3 (slow_demo true))
  = (Done tt (mkRing (submits 4 (ring_ (slow_demo true))) 2 0), Crashed OutOfFuel).
Proof. reflexivity. Qed.

Lemma maybe_submit_batches_witness :
  maybe_submits 5 demo_ring
  = Done tt (mkRing (Nat.iter 2 (λ u, (uring_submit u).2) (ring_ demo_ring)) 2 1).
Proof. by apply (maybe_submit_batches demo_ring 5). Defined.

Lemma reap_each_once_witness :
  let process (c : cqe) : ST (Ring SimRing * list Z) unit :=
    modify (λ s, (s.1, s.2 ++ [cqe_user_data c])) in
  reap_all fst (λ r s, (r, s.2)) (λ _, 1) process (demo_ring, [])
  = Done 2 (mkRing (mkSimRing 3 [] [] 4 []) 2 0, [8; 16]).
Proof.
  intros process.
  rewrite (reap_each_once fst (λ r s, (r, s.2)) (λ _, 1) process [mkCqe 8 0 0; mkCqe 16 1 0] (demo_ring, [])).
  - reflexivity.
  - intros c s s' E i. unfold process, modify in E. by injection E as <-.
  - intros [|[|i]]; reflexivity.
Defined.

Lemma get_sqe_returns_witness :
  let r := mkRing (mkSimRing 0 [mkSqe (SqeOther 1 0) 0] [] 4 []) 2 1 in
  ∃ slot r', get_sqe r = Done slot r' ∧ submit_batch_ r' = 2 ∧
    maybe_submit_count_ r' = (if space r =? 0 then 0 else 1).
Proof. apply (get_sqe_returns (mkRing (mkSimRing 0 [mkSqe (SqeOther 1 0) 0] [] 4 []) 2 1)). Defined.
