(* ===== verification/Runtime.v ===== *)
(** * The event loop (include/condy/runtime.hpp, detail/context.hpp)

    - [World]: the runtimes of a process, each with the fields of [Runtime]; the
      rings are the abstract ones of [Ring.v]; a work queue is the sequence its
      intrusive list stands for ([Intrusive.Single]).
    - The operations take [curr], the runtime of the calling thread
      ([Context::current().runtime()]), and [this].
    - [Section loop] has two parameters: what invoking a work item does, and
      what [OpFinishHandleBase::handle] does.
    - [Module Enable]: the race between [schedule_internal] and the start of
      [run], as a step relation with a lock.
    - [Module ExitRace]: [allow_exit] against the start of [run], with store
      buffers. *)

From stdpp Require Import base numbers list gmap.
From S2P Require Import Prelude Utils WorkType Ring.

Abbreviation RuntimeId := nat.

Record Runtime (U : Type) := mkRuntime {
  global_queue_ : list Z;
  exit_allowed_ : bool;
  ring_enabled_ : bool;
  local_queue_ : list Z;
  rt_ring_ : Ring U;
  pending_works_ : Z;
  tick_count_ : Z;
  run_thread_id_ : option nat;
  event_interval_ : Z;
  disable_register_ring_fd_ : bool;
  ring_fd_registered : bool
}.
Arguments mkRuntime {U} global_queue_ exit_allowed_ ring_enabled_ local_queue_ rt_ring_ pending_works_
  tick_count_ run_thread_id_ event_interval_ disable_register_ring_fd_ ring_fd_registered.
Arguments global_queue_ {U} r.
Arguments exit_allowed_ {U} r.
Arguments ring_enabled_ {U} r.
Arguments local_queue_ {U} r.
Arguments rt_ring_ {U} r.
Arguments pending_works_ {U} r.
Arguments tick_count_ {U} r.
Arguments run_thread_id_ {U} r.
Arguments event_interval_ {U} r.
Arguments disable_register_ring_fd_ {U} r.
Arguments ring_fd_registered {U} r.

(** [sync_msgs]: the messages sent with [sync_msg_ring]; [context]: the runtime
    of each thread. *)
Record World (U : Type) := mkWorld {
  runtimes : gmap RuntimeId (Runtime U);
  sync_msgs : list sqe;
  context : gmap nat RuntimeId
}.
Arguments mkWorld {U} runtimes sync_msgs context.
Arguments runtimes {U} w.
Arguments sync_msgs {U} w.
Arguments context {U} w.

(** A state that contains the runtimes of the process. *)
Class HasWorld (S U : Type) := {
  world_of : S → World U;
  put_world : World U → S → S
}.
#[export] Hint Mode HasWorld ! - : typeclass_instances.

Class HasWorldLaws (S U : Type) `{HasWorld S U} := {
  world_of_put (w : World U) (s : S) : world_of (put_world w s) = w;
  put_world_of (s : S) : put_world (world_of s) s = s;
  put_put_world (w w' : World U) (s : S) : put_world w (put_world w' s) = put_world w s
}.

#[export] Instance world_has_world U : HasWorld (World U) U := {
  world_of w := w;
  put_world w _ := w
}.
#[export] Instance world_has_world_laws U : HasWorldLaws (World U) U.
Proof. by split. Qed.

(** The runtimes beside other data of the program. *)
#[export] Instance pair_has_world S U L `{HasWorld S U} : HasWorld (S * L) U := {
  world_of s := world_of s.1;
  put_world w s := (put_world w s.1, s.2)
}.
#[export] Instance pair_has_world_laws S U L `{HasWorldLaws S U} : HasWorldLaws (S * L) U.
Proof.
  split; simpl; [intros; apply world_of_put | intros []; simpl; by rewrite put_world_of |].
  intros. by rewrite put_put_world.
Qed.

(** Code on the runtimes, run inside such a state. *)
Definition in_world {S U A} `{HasWorld S U} : ST (World U) A → ST S A := zoom world_of put_world.

Section runtime.
Context {U : Type} `{Uring U}.
Abbreviation M := (ST (World U)).

(** [Runtime(options)], from the ring that [create_ring_] made. *)
Definition runtime_new (ring : Ring U) (event_interval : Z) (disable_register : bool) : Runtime U :=
  mkRuntime [] false false [] ring 0 0 None event_interval disable_register false.

Definition get_rt (id : RuntimeId) : M (Runtime U) :=
  w ← get;
  match runtimes w !! id with Some r => mret r | None => crashed BadAccess end.
Definition set_rt (id : RuntimeId) (r : Runtime U) : M unit :=
  modify (λ w, mkWorld (<[id := r]> (runtimes w)) (sync_msgs w) (context w)).
Definition upd_rt (id : RuntimeId) (f : Runtime U → Runtime U) : M unit :=
  r ← get_rt id; set_rt id (f r).

Definition set_local (q : list Z) (r : Runtime U) : Runtime U :=
  mkRuntime (global_queue_ r) (exit_allowed_ r) (ring_enabled_ r) q (rt_ring_ r) (pending_works_ r)
    (tick_count_ r) (run_thread_id_ r) (event_interval_ r) (disable_register_ring_fd_ r)
    (ring_fd_registered r).
Definition set_global (q : list Z) (r : Runtime U) : Runtime U :=
  mkRuntime q (exit_allowed_ r) (ring_enabled_ r) (local_queue_ r) (rt_ring_ r) (pending_works_ r)
    (tick_count_ r) (run_thread_id_ r) (event_interval_ r) (disable_register_ring_fd_ r)
    (ring_fd_registered r).
Definition set_ring (g : Ring U) (r : Runtime U) : Runtime U :=
  mkRuntime (global_queue_ r) (exit_allowed_ r) (ring_enabled_ r) (local_queue_ r) g (pending_works_ r)
    (tick_count_ r) (run_thread_id_ r) (event_interval_ r) (disable_register_ring_fd_ r)
    (ring_fd_registered r).
Definition set_pending (n : Z) (r : Runtime U) : Runtime U :=
  mkRuntime (global_queue_ r) (exit_allowed_ r) (ring_enabled_ r) (local_queue_ r) (rt_ring_ r) n
    (tick_count_ r) (run_thread_id_ r) (event_interval_ r) (disable_register_ring_fd_ r)
    (ring_fd_registered r).
Definition set_tick (n : Z) (r : Runtime U) : Runtime U :=
  mkRuntime (global_queue_ r) (exit_allowed_ r) (ring_enabled_ r) (local_queue_ r) (rt_ring_ r)
    (pending_works_ r) n (run_thread_id_ r) (event_interval_ r) (disable_register_ring_fd_ r)
    (ring_fd_registered r).
Definition set_exit_allowed (b : bool) (r : Runtime U) : Runtime U :=
  mkRuntime (global_queue_ r) b (ring_enabled_ r) (local_queue_ r) (rt_ring_ r)
    (pending_works_ r) (tick_count_ r) (run_thread_id_ r) (event_interval_ r)
    (disable_register_ring_fd_ r) (ring_fd_registered r).
Definition set_enabled (r : Runtime U) : Runtime U :=
  mkRuntime (global_queue_ r) (exit_allowed_ r) true (local_queue_ r) (rt_ring_ r)
    (pending_works_ r) (tick_count_ r) (run_thread_id_ r) (event_interval_ r)
    (disable_register_ring_fd_ r) (ring_fd_registered r).
Definition set_thread (t : nat) (r : Runtime U) : Runtime U :=
  mkRuntime (global_queue_ r) (exit_allowed_ r) (ring_enabled_ r) (local_queue_ r) (rt_ring_ r)
    (pending_works_ r) (tick_count_ r) (Some t) (event_interval_ r)
    (disable_register_ring_fd_ r) (ring_fd_registered r).
Definition set_registered (b : bool) (r : Runtime U) : Runtime U :=
  mkRuntime (global_queue_ r) (exit_allowed_ r) (ring_enabled_ r) (local_queue_ r) (rt_ring_ r)
    (pending_works_ r) (tick_count_ r) (run_thread_id_ r) (event_interval_ r)
    (disable_register_ring_fd_ r) b.

(** Run code of [Ring] on the ring of a runtime. *)
Definition on_rt_ring {A} (id : RuntimeId) (m : ST (Ring U) A) : M A :=
  r ← get_rt id;
  match m (rt_ring_ r) with
  | Done a g => set_rt id (set_ring g r);; mret a
  | Thrown e g => set_rt id (set_ring g r);; throw e
  | Crashed c => crashed c
  end.

(** ** Scheduling *)

Definition pend_work_internal (curr : option RuntimeId) (this : RuntimeId) : M unit :=
  assert_ (bool_decide (curr = Some this));;
  upd_rt this (λ r, set_pending (u64 (pending_works_ r + 1)) r).
Definition resume_work_internal (curr : option RuntimeId) (this : RuntimeId) : M unit :=
  assert_ (bool_decide (curr = Some this));;
  upd_rt this (λ r, set_pending (u64 (pending_works_ r - 1)) r).

(** [prep_msg_ring_] and [prep_cancel_]: the entry they write. *)
Definition prep_msg_ring_ (ring_fd : RuntimeId) (data : Z) : M sqe :=
  d ← encode_work 0 Schedule;
  mret (mkSqe (SqeMsgRing ring_fd data) d).
Definition prep_cancel_ (data : Z) : M sqe :=
  d ← encode_work 0 Ignore;
  mret (mkSqe (SqeCancel64 data true) d).

(** [sync_res]: what [sync_msg_ring] returns. *)
Definition schedule_msg_ring_ (curr : option RuntimeId) (this : RuntimeId) (data : Z) (sync_res : Z)
    : M unit :=
  match curr with
  | Some c =>
      slot ← on_rt_ring c get_sqe;
      s ← prep_msg_ring_ this data;
      on_rt_ring c (prep slot s);;
      pend_work_internal curr c
  | None =>
      s ← prep_msg_ring_ this data;
      modify (λ w, mkWorld (runtimes w) (sync_msgs w ++ [s]) (context w));;
      if sync_res <? 0 then crashed Panic else mret tt
  end.

(** The two loads of [ring_enabled_] see the same value when no [run] starts in
    between; [Enable] treats the other case. *)
Definition schedule_internal (curr : option RuntimeId) (this : RuntimeId) (work : Z) (sync_res : Z)
    : M unit :=
  if bool_decide (curr = Some this) then
    upd_rt this (λ r, set_local (local_queue_ r ++ [work]) r)
  else
    r ← get_rt this;
    if ring_enabled_ r then
      data ← encode_work work Schedule;
      schedule_msg_ring_ curr this data sync_res
    else
      upd_rt this (λ r, set_global (global_queue_ r ++ [work]) r).

Definition cancel_internal (curr : option RuntimeId) (this : RuntimeId) (data : Z) (sync_res : Z)
    : M unit :=
  if bool_decide (curr = Some this) then
    slot ← on_rt_ring this get_sqe;
    s ← prep_cancel_ data;
    on_rt_ring this (prep slot s)
  else
    r ← get_rt this;
    if negb (ring_enabled_ r) then mret tt
    else
      msg ← encode_work_ptr data Cancel;
      schedule_msg_ring_ curr this msg sync_res;;
      match curr with Some c => on_rt_ring c submit | None => mret tt end.

Definition wakeup_ (curr : option RuntimeId) (this : RuntimeId) (sync_res : Z) : M unit :=
  if bool_decide (curr = Some this) then mret tt
  else
    r ← get_rt this;
    if negb (ring_enabled_ r) then mret tt
    else
      data ← encode_work 0 Ignore;
      schedule_msg_ring_ curr this data sync_res;;
      match curr with Some c => on_rt_ring c submit | None => mret tt end.

Definition allow_exit (curr : option RuntimeId) (this : RuntimeId) (sync_res : Z) : M unit :=
  upd_rt this (set_exit_allowed true);;
  wakeup_ curr this sync_res.

Definition flush_global_queue_ (this : RuntimeId) : M unit :=
  upd_rt this (λ r, set_global [] (set_local (local_queue_ r ++ global_queue_ r) r)).

(** The effect of a [defer] block on one runtime. *)
Definition on_exit_rt (this : RuntimeId) (f : Runtime U → Runtime U) (w : World U) : World U :=
  match runtimes w !! this with
  | Some r => mkWorld (<[this := f r]> (runtimes w)) (sync_msgs w) (context w)
  | None => w
  end.

(** [Context::init] and [Context::reset] on a thread. *)
Definition context_init (thread : nat) (this : RuntimeId) (w : World U) : World U :=
  mkWorld (runtimes w) (sync_msgs w) (<[thread := this]> (context w)).
Definition context_reset (thread : nat) (w : World U) : World U :=
  mkWorld (runtimes w) (sync_msgs w) (delete thread (context w)).

(** ** The loop *)

Section loop.
(** [work->operator()()] and [handle->handle(cqe)], run on the thread of the
    runtime.  They may change more than the runtimes: [S] contains the world. *)
Context {S : Type} `{HasWorld S U}.
Context (invoke : RuntimeId → Z → ST S unit) (handle : RuntimeId → Z → cqe → ST S bool).
Context (cqe_nr : cqe → Z) (wait_fuel : nat).

Definition process_cqe_ (this : RuntimeId) (c : cqe) : ST S unit :=
  let '(data, type) := decode_work (cqe_user_data c) in
  match type with
  | Some Ignore => assert_ (negb (cqe_res c =? - EINVAL))
  | Some Schedule =>
      if data =? 0 then
        if cqe_res c <? 0 then crashed Panic
        else in_world (resume_work_internal (Some this) this)
      else invoke this data
  | Some Cancel =>
      in_world (slot ← on_rt_ring this get_sqe;
                s ← prep_cancel_ data;
                on_rt_ring this (prep slot s))
  | Some Common =>
      op_finish ← handle this data c;
      if op_finish : bool then in_world (resume_work_internal (Some this) this) else mret tt
  | _ => crashed BadAccess
  end.

(** The ring of [this] inside the world; a world without it is not reached. *)
Definition ring_of (this : RuntimeId) (dflt : Ring U) (s : S) : Ring U :=
  match runtimes (world_of s) !! this with Some r => rt_ring_ r | None => dflt end.
Definition put_ring (this : RuntimeId) (g : Ring U) (s : S) : S :=
  put_world (on_exit_rt this (set_ring g) (world_of s)) s.

Definition flush_ring_ (this : RuntimeId) : ST S unit :=
  r ← in_world (get_rt this);
  n ← reap_completions (ring_of this (rt_ring_ r)) (put_ring this) cqe_nr (process_cqe_ this);
  if n <? 0 then crashed Panic else mret tt.

Definition flush_ring_wait_ (this : RuntimeId) : ST S unit :=
  r ← in_world (get_rt this);
  n ← reap_completions_wait (ring_of this (rt_ring_ r)) (put_ring this) cqe_nr (process_cqe_ this) wait_fuel;
  if n <? 0 then crashed Panic else mret tt.

(** One turn of the loop of [run]: [true] when it goes on. *)
Definition run_turn (this : RuntimeId) : ST S bool :=
  in_world (upd_rt this (λ r, set_tick (u64 (tick_count_ r + 1)) r));;
  r ← in_world (get_rt this);
  (if event_interval_ r <=? tick_count_ r then
     in_world (upd_rt this (set_tick 0));; flush_ring_ this
   else mret tt);;
  r ← in_world (get_rt this);
  match local_queue_ r with
  | work :: q =>
      in_world (set_rt this (set_local q r));;
      invoke this work;;
      mret true
  | [] =>
      if (pending_works_ r =? 0) && exit_allowed_ r then mret false
      else flush_ring_wait_ this;; mret true
  end.

Fixpoint run_loop (fuel : nat) (this : RuntimeId) : ST S unit :=
  match fuel with
  | O => crashed OutOfFuel
  | Datatypes.S fuel => more ← run_turn this; if more : bool then run_loop fuel this else mret tt
  end.

(** The part of [run] that depends on whether it runs for the first time. *)
Definition run_enter (this thread : nat) : ST S unit :=
  r ← in_world (get_rt this);
  match run_thread_id_ r with
  | None =>
      let '(res, u) := uring_enable_rings (ring_ (rt_ring_ r)) in
      in_world (set_rt this (set_ring (mkRing u (submit_batch_ (rt_ring_ r))
                                         (maybe_submit_count_ (rt_ring_ r))) r));;
      if res <? 0 then throw (SystemError (- res))
      else
        in_world (upd_rt this (set_thread thread);;
                  flush_global_queue_ this;;
                  upd_rt this set_enabled)
  | Some t =>
      if bool_decide (t = thread) then flush_ring_ this else throw RuntimeError
  end.

(** The effect of a [defer] block on the world. *)
Definition at_exit (f : World U → World U) (s : S) : S := put_world (f (world_of s)) s.

Definition run (fuel : nat) (this thread : nat) : ST S unit :=
  in_world (modify (context_init thread this));;
  defer_run (at_exit (context_reset thread))
    (run_enter this thread;;
     in_world (upd_rt this (λ r, if disable_register_ring_fd_ r then r else set_registered true r));;
     defer_run (at_exit (on_exit_rt this (λ r, if disable_register_ring_fd_ r then r
                                               else set_registered false r)))
       (defer_run (at_exit (on_exit_rt this (λ r, set_exit_allowed false (set_tick 0 r))))
          (run_loop fuel this))).

End loop.
End runtime.

(** ** Scheduling and cancelling *)

Lemma defer_inv {S A} g (m : ST S A) s a s' :
  defer_run g m s = Done a s' → ∃ s1, m s = Done a s1 ∧ s' = g s1.
Proof. unfold defer_run. destruct (m s); [intros [= -> <-]; eauto | done | done]. Qed.

Section props.
Context {U : Type} `{UringLaws U}.
Implicit Types (w : World U) (r : Runtime U).

(** An 8-byte aligned address of an object. *)
Definition aligned (p : Z) : Prop := 0 < p < 2 ^ 64 ∧ p mod 8 = 0.

Definition with_rt (w : World U) (id : RuntimeId) (r : Runtime U) : World U :=
  mkWorld (<[id := r]> (runtimes w)) (sync_msgs w) (context w).

Lemma get_rt_run w id r : runtimes w !! id = Some r → get_rt id w = Done r w.
Proof. intros E. unfold get_rt. run_st. by rewrite E. Qed.

Lemma upd_rt_run w id r f : runtimes w !! id = Some r → upd_rt id f w = Done tt (with_rt w id (f r)).
Proof. intros E. unfold upd_rt. by erewrite bind_done by (by apply get_rt_run). Qed.

Lemma set_rt_run w id r : set_rt id r w = Done tt (with_rt w id r).
Proof. done. Qed.

Lemma with_rt_lookup w id r : runtimes (with_rt w id r) !! id = Some r.
Proof. apply lookup_insert_eq. Qed.

Lemma with_rt_twice w id r r' : with_rt (with_rt w id r) id r' = with_rt w id r'.
Proof. unfold with_rt. simpl. by rewrite insert_insert_eq. Qed.

Lemma on_rt_ring_run {A} w id r (m : ST (Ring U) A) a g :
  runtimes w !! id = Some r → m (rt_ring_ r) = Done a g →
  on_rt_ring id m w = Done a (with_rt w id (set_ring g r)).
Proof.
  intros E Em. unfold on_rt_ring. erewrite bind_done by (by apply get_rt_run). by rewrite Em.
Qed.

(** A runtime whose ring got one more entry [s]. *)
Definition ring_gets (r : Runtime U) (s : sqe) (r' : Runtime U) : Prop :=
  ∃ slot g, get_sqe (rt_ring_ r) = Done slot g ∧
    r' = set_ring (mkRing (uring_prep slot s (ring_ g)) (submit_batch_ g) (maybe_submit_count_ g)) r.

(** Taking an entry and writing it. *)
Lemma prep_on_ring w id r (ms : ST (World U) sqe) s :
  runtimes w !! id = Some r → (∀ w', ms w' = Done s w') →
  ∃ r', (slot ← on_rt_ring id get_sqe; s ← ms; on_rt_ring id (prep slot s)) w = Done tt (with_rt w id r') ∧
    ring_gets r s r'.
Proof.
  intros E Hs. destruct (get_sqe_ok (rt_ring_ r)) as (slot & g & Eg & _).
  eexists. split; [| by exists slot, g].
  erewrite bind_done by (by eapply on_rt_ring_run). erewrite bind_done by apply Hs.
  erewrite on_rt_ring_run; [| apply with_rt_lookup | reflexivity].
  by rewrite with_rt_twice.
Qed.

Lemma prep_msg_run this data (w : World U) :
  prep_msg_ring_ this data w = Done (mkSqe (SqeMsgRing this data) 2) w.
Proof. done. Qed.
Lemma prep_cancel_run data (w : World U) :
  prep_cancel_ data w = Done (mkSqe (SqeCancel64 data true) 1) w.
Proof. done. Qed.

(** Sending a message from another runtime: an entry in its ring and one more
    pending work. *)
Lemma schedule_msg_run w c rc this data res :
  runtimes w !! c = Some rc →
  ∃ rc', ring_gets rc (mkSqe (SqeMsgRing this data) 2) rc' ∧
    schedule_msg_ring_ (Some c) this data res w
    = Done tt (with_rt w c (set_pending (u64 (pending_works_ rc + 1)) rc')).
Proof.
  intros E. destruct (prep_on_ring w c rc (prep_msg_ring_ this data) _ E (prep_msg_run this data))
    as (rc' & Ep & Hg).
  exists rc'. split; [done |]. unfold schedule_msg_ring_.
  destruct Hg as (slot & g & Eg & ->).
  erewrite bind_done by (by eapply on_rt_ring_run). erewrite bind_done by apply prep_msg_run.
  erewrite bind_done by (eapply on_rt_ring_run; [apply with_rt_lookup | reflexivity]).
  unfold pend_work_internal. rewrite bind_assert by (by apply bool_decide_eq_true_2).
  erewrite upd_rt_run by apply with_rt_lookup. by rewrite !with_rt_twice.
Qed.

(** Work for a runtime that runs, from elsewhere, is sent by message. *)
Lemma schedule_enabled w this r work curr res :
  runtimes w !! this = Some r → aligned work → ring_enabled_ r = true → curr ≠ Some this →
  schedule_internal curr this work res w = schedule_msg_ring_ curr this (work + 2) res w.
Proof.
  intros E [Hw Ha] He Hc. unfold schedule_internal. rewrite bool_decide_eq_false_2 by done.
  erewrite bind_done by (by apply get_rt_run). rewrite He.
  by erewrite bind_done by (by apply encode_work_run).
Qed.

Lemma schedule_msg_sync w this data res :
  0 ≤ res → schedule_msg_ring_ None this data res w
  = Done tt (mkWorld (runtimes w) (sync_msgs w ++ [mkSqe (SqeMsgRing this data) 2]) (context w)).
Proof.
  intros Hr. unfold schedule_msg_ring_. erewrite bind_done by apply prep_msg_run.
  erewrite bind_done by done. by rewrite (proj2 (Z.ltb_ge _ _)).
Qed.

(** *** The same inside a larger state *)

Context {S : Type} `{HasWorldLaws S U}.
Context (invoke : RuntimeId → Z → ST S unit) (handle : RuntimeId → Z → cqe → ST S bool).
Context (cqe_nr : cqe → Z) (wait_fuel : nat).
Implicit Types s : S.

Definition with_rt_in (s : S) (id : RuntimeId) (r : Runtime U) : S :=
  put_world (with_rt (world_of s) id r) s.

Lemma in_world_done {A} (m : ST (World U) A) s a w :
  m (world_of s) = Done a w → in_world m s = Done a (put_world w s).
Proof. apply zoom_done. Qed.

Lemma in_get_rt s id r : runtimes (world_of s) !! id = Some r → in_world (get_rt id) s = Done r s.
Proof. intros E. erewrite in_world_done by (by apply get_rt_run). by rewrite put_world_of. Qed.

Lemma in_upd_rt s id r f :
  runtimes (world_of s) !! id = Some r → in_world (upd_rt id f) s = Done tt (with_rt_in s id (f r)).
Proof. intros E. by erewrite in_world_done by (by apply upd_rt_run). Qed.

Lemma in_set_rt s id r : in_world (set_rt id r) s = Done tt (with_rt_in s id r).
Proof. done. Qed.

Lemma world_of_with_rt s id r : world_of (with_rt_in s id r) = with_rt (world_of s) id r.
Proof. apply world_of_put. Qed.

Lemma with_rt_in_lookup s id r : runtimes (world_of (with_rt_in s id r)) !! id = Some r.
Proof. rewrite world_of_with_rt. apply with_rt_lookup. Qed.

Lemma with_rt_in_twice s id r r' : with_rt_in (with_rt_in s id r) id r' = with_rt_in s id r'.
Proof. unfold with_rt_in. by rewrite world_of_put, put_put_world, with_rt_twice. Qed.

(** C11. Routing of [schedule_internal]: on the runtime's own thread the work joins
    the local queue; from elsewhere it joins the global queue while the ring is
    not enabled; once it is enabled a message is sent, through the caller's ring
    (which then has one more pending work) or synchronously from a plain thread,
    where an error panics.  The message carries the work: the completion it
    causes on the target makes [process_cqe_] invoke exactly that work. *)
Theorem schedule_internal_delivers w this r work res fl :
  runtimes w !! this = Some r → aligned work →
  schedule_internal (Some this) this work res w
    = Done tt (with_rt w this (set_local (local_queue_ r ++ [work]) r)) ∧
  (∀ curr, curr ≠ Some this → ring_enabled_ r = false →
     schedule_internal curr this work res w
     = Done tt (with_rt w this (set_global (global_queue_ r ++ [work]) r))) ∧
  (ring_enabled_ r = true →
     let data := work + 2 in
     (0 ≤ res → schedule_internal None this work res w
        = Done tt (mkWorld (runtimes w) (sync_msgs w ++ [mkSqe (SqeMsgRing this data) 2]) (context w))) ∧
     (res < 0 → schedule_internal None this work res w = Crashed Panic) ∧
     (∀ c rc, c ≠ this → runtimes w !! c = Some rc →
        ∃ rc', ring_gets rc (mkSqe (SqeMsgRing this data) 2) rc' ∧
          schedule_internal (Some c) this work res w
          = Done tt (with_rt w c (set_pending (u64 (pending_works_ rc + 1)) rc'))) ∧
     (∀ s, process_cqe_ invoke handle this (mkCqe data res fl) s = invoke this work s)).
Proof.
  intros E [Hw Ha]. split_and!.
  - unfold schedule_internal. rewrite bool_decide_eq_true_2 by done.
    by apply (upd_rt_run w this r (λ r, set_local (local_queue_ r ++ [work]) r)).
  - intros curr Hc He. unfold schedule_internal. rewrite bool_decide_eq_false_2 by done.
    erewrite bind_done by (by apply get_rt_run). rewrite He.
    by apply (upd_rt_run w this r (λ r, set_global (global_queue_ r ++ [work]) r)).
  - intros He data.
    assert (∀ curr, curr ≠ Some this →
      schedule_internal curr this work res w = schedule_msg_ring_ curr this data res w) as Hs.
    { intros curr Hc. by eapply schedule_enabled. }
    split_and!.
    + intros Hr. rewrite Hs by done. by apply schedule_msg_sync.
    + intros Hr. rewrite Hs by done. unfold schedule_msg_ring_. erewrite bind_done by apply prep_msg_run.
      erewrite bind_done by done. by rewrite (proj2 (Z.ltb_lt _ _)).
    + intros c rc Hc Erc. rewrite Hs by congruence. by apply schedule_msg_run.
    + intros s. unfold process_cqe_. cbn [cqe_user_data].
      change data with (work + work_type_code Schedule). rewrite decode_work_run by (done || lia).
      by rewrite (proj2 (Z.eqb_neq work 0)) by lia.
Qed.

(** C29. Cancelling from another runtime: the message sent carries the user data of
    the operation, and handling it on the owning runtime prepares exactly the
    cancel request that a local [cancel_internal] prepares; the sender's queue
    is submitted.  Nothing is sent while the target's ring is not enabled. *)
Theorem cancel_internal_remote w c this rc r data res fl :
  c ≠ this → runtimes w !! c = Some rc → runtimes w !! this = Some r → aligned data →
  (ring_enabled_ r = false → cancel_internal (Some c) this data res w = Done tt w) ∧
  (ring_enabled_ r = true →
     ∃ rc' , ring_gets rc (mkSqe (SqeMsgRing this (data + 3)) 2) rc' ∧
       cancel_internal (Some c) this data res w
       = Done tt (with_rt w c (set_ring (mkRing (uring_submit (ring_ (rt_ring_ rc'))).2
                                          (submit_batch_ (rt_ring_ rc')) 0)
                                 (set_pending (u64 (pending_works_ rc + 1)) rc')))) ∧
  (∀ s, process_cqe_ invoke handle this (mkCqe (data + 3) res fl) s
        = in_world (cancel_internal (Some this) this data res) s) ∧
  (∃ r', ring_gets r (mkSqe (SqeCancel64 data true) 1) r' ∧
     cancel_internal (Some this) this data res w = Done tt (with_rt w this r')).
Proof.
  intros Hne Erc Er [Hw Ha].
  assert (bool_decide (Some c = Some this) = false) as Hb by (apply bool_decide_eq_false_2; congruence).
  split_and!.
  - intros He. unfold cancel_internal. rewrite Hb. erewrite bind_done by (by apply get_rt_run). by rewrite He.
  - intros He. destruct (schedule_msg_run w c rc this (data + 3) res Erc) as (rc' & Hg & Es).
    exists rc'. split; [done |]. unfold cancel_internal. rewrite Hb.
    erewrite bind_done by (by apply get_rt_run). rewrite He. simpl.
    erewrite bind_done by (by apply encode_work_run).
    change (data + work_type_code Cancel) with (data + 3). erewrite bind_done by exact Es.
    erewrite on_rt_ring_run; [| apply with_rt_lookup | reflexivity]. by rewrite with_rt_twice.
  - intros s. unfold process_cqe_. cbn [cqe_user_data].
    change (data + 3) with (data + work_type_code Cancel). rewrite decode_work_run by (done || lia).
    unfold cancel_internal. by rewrite bool_decide_eq_true_2.
  - unfold cancel_internal. rewrite bool_decide_eq_true_2 by done.
    destruct (prep_on_ring w this r (prep_cancel_ data) _ Er (prep_cancel_run data)) as (r' & E & Hg).
    by exists r'.
Qed.

(** A completion of an operation is passed to its handle, and the pending-work
    counter goes down exactly when the handle reports the operation finished
    (not for the intermediate completions of a multishot operation); the
    completion of a message goes down too, or panics on an error; an [Ignore]
    completion changes nothing. *)
Theorem process_cqe_accounts s this r h c :
  runtimes (world_of s) !! this = Some r → aligned h →
  (cqe_user_data c = h → ∀ fin s1 r1, handle this h c s = Done fin s1 →
     runtimes (world_of s1) !! this = Some r1 →
     process_cqe_ invoke handle this c s
     = Done tt (if fin : bool then with_rt_in s1 this (set_pending (u64 (pending_works_ r1 - 1)) r1)
                else s1)) ∧
  (cqe_user_data c = 2 → process_cqe_ invoke handle this c s
     = if cqe_res c <? 0 then Crashed Panic
       else Done tt (with_rt_in s this (set_pending (u64 (pending_works_ r - 1)) r))) ∧
  (cqe_user_data c = 1 → cqe_res c ≠ - EINVAL → process_cqe_ invoke handle this c s = Done tt s).
Proof.
  intros Er [Hw Ha].
  assert (∀ s0 r0, runtimes (world_of s0) !! this = Some r0 →
    in_world (resume_work_internal (Some this) this) s0
    = Done tt (with_rt_in s0 this (set_pending (u64 (pending_works_ r0 - 1)) r0))) as Hres.
  { intros s0 r0 E0. apply in_world_done. unfold resume_work_internal.
    rewrite bind_assert by (by apply bool_decide_eq_true_2).
    by apply (upd_rt_run _ this r0 (λ r, set_pending (u64 (pending_works_ r - 1)) r)). }
  unfold process_cqe_. split_and!.
  - intros -> fin s1 r1 Eh E1.
    assert (decode_work h = (h, Some Common)) as ->.
    { rewrite <- (Z.add_0_r h) at 1. apply (decode_work_run h Common); [lia | done]. }
    erewrite bind_done by exact Eh.
    destruct fin; [by apply Hres | done].
  - intros ->. simpl. destruct (cqe_res c <? 0); [done | by apply Hres].
  - intros -> Hne. simpl. unfold assert_. by rewrite (proj2 (Z.eqb_neq _ _)).
Qed.

(** *** The loop *)

Lemma flush_ring_idle s this r :
  runtimes (world_of s) !! this = Some r → uring_peek_cqe (ring_ (rt_ring_ r)) = - EAGAIN →
  flush_ring_ invoke handle cqe_nr this s = Done tt s.
Proof.
  intros E Hp. unfold flush_ring_. erewrite bind_done by (by apply in_get_rt).
  assert (reap_completions (ring_of this (rt_ring_ r)) (put_ring this) cqe_nr
            (process_cqe_ invoke handle this) s = Done 0 s) as Er.
  { unfold reap_completions. rewrite bind_get. unfold ring_of. by rewrite E, Hp, Z.eqb_refl. }
  by erewrite bind_done by exact Er.
Qed.

(** One turn on an idle ring: the counter moves on and the first work runs. *)
Lemma run_turn_idle s this r :
  runtimes (world_of s) !! this = Some r → uring_peek_cqe (ring_ (rt_ring_ r)) = - EAGAIN →
  ∃ t, run_turn invoke handle cqe_nr wait_fuel this s
    = match local_queue_ r with
      | work :: q =>
          (invoke this work;; mret true) (with_rt_in s this (set_local q (set_tick t r)))
      | [] =>
          if (pending_works_ r =? 0) && exit_allowed_ r then Done false (with_rt_in s this (set_tick t r))
          else (flush_ring_wait_ invoke handle cqe_nr wait_fuel this;; mret true)
                 (with_rt_in s this (set_tick t r))
      end.
Proof.
  intros E Hp. unfold run_turn.
  rewrite (bind_done _ _ _ _ _ (in_upd_rt s this r (λ r, set_tick (u64 (tick_count_ r + 1)) r) E)).
  set (r1 := set_tick (u64 (tick_count_ r + 1)) r).
  erewrite bind_done by (apply in_get_rt, with_rt_in_lookup).
  assert (∃ t, (if event_interval_ r1 <=? tick_count_ r1
          then in_world (upd_rt this (set_tick 0));; flush_ring_ invoke handle cqe_nr this else mret tt)
          (with_rt_in s this r1) = Done tt (with_rt_in s this (set_tick t r))) as [t Et].
  { case_match; [exists 0 | by eexists].
    erewrite bind_done by (apply in_upd_rt, with_rt_in_lookup). rewrite with_rt_in_twice.
    by eapply flush_ring_idle; [apply with_rt_in_lookup |]. }
  exists t. erewrite bind_done by exact Et. erewrite bind_done by (apply in_get_rt, with_rt_in_lookup).
  simpl. destruct (local_queue_ r) as [|work q].
  - by destruct ((pending_works_ r =? 0) && exit_allowed_ r).
  - erewrite bind_done by apply in_set_rt. by rewrite with_rt_in_twice.
Qed.

Lemma run_loop_S n this s :
  run_loop invoke handle cqe_nr wait_fuel (Datatypes.S n) this s
  = (more ← run_turn invoke handle cqe_nr wait_fuel this;
     if more : bool then run_loop invoke handle cqe_nr wait_fuel n this else mret tt) s.
Proof. done. Qed.

(** A runtime that has been entered for the first time by [thread]. *)
Definition entered (thread : nat) (u : U) (r : Runtime U) : Runtime U :=
  let g := mkRing u (submit_batch_ (rt_ring_ r)) (maybe_submit_count_ (rt_ring_ r)) in
  let r := set_enabled (set_global [] (set_local (local_queue_ r ++ global_queue_ r)
             (set_thread thread (set_ring g r)))) in
  if disable_register_ring_fd_ r then r else set_registered true r.

(** What [run] leaves of a runtime on which the loop has ended. *)
Definition left_by_run (r : Runtime U) : Runtime U :=
  let r := set_exit_allowed false (set_tick 0 r) in
  if disable_register_ring_fd_ r then r else set_registered false r.

(** The first [run] is its loop, on the runtime as it has been entered, with the
    [defer] blocks around it. *)
Lemma run_first_loop fuel s this thread r res u :
  runtimes (world_of s) !! this = Some r → run_thread_id_ r = None →
  uring_enable_rings (ring_ (rt_ring_ r)) = (res, u) → 0 ≤ res →
  let s0 := put_world (context_init thread this (world_of s)) s in
  run invoke handle cqe_nr wait_fuel fuel this thread s
  = defer_run (at_exit (context_reset thread))
      (defer_run (at_exit (on_exit_rt this (λ r, if disable_register_ring_fd_ r then r else set_registered false r)))
         (defer_run (at_exit (on_exit_rt this (λ r, set_exit_allowed false (set_tick 0 r))))
            (run_loop invoke handle cqe_nr wait_fuel fuel this))) (with_rt_in s0 this (entered thread u r)).
Proof.
  intros Er Hth Een Hres s0. unfold run. erewrite bind_done by done. fold s0.
  set (r1 := set_enabled (set_global [] (set_local (local_queue_ r ++ global_queue_ r)
     (set_thread thread (set_ring (mkRing u (submit_batch_ (rt_ring_ r)) (maybe_submit_count_ (rt_ring_ r))) r))))).
  assert (runtimes (world_of s0) !! this = Some r) as Er0 by (unfold s0; by rewrite world_of_put).
  assert (run_enter invoke handle cqe_nr this thread s0 = Done tt (with_rt_in s0 this r1)) as Ee.
  { unfold run_enter. erewrite bind_done by (by apply in_get_rt). rewrite Hth, Een.
    erewrite bind_done by apply in_set_rt. rewrite (proj2 (Z.ltb_ge _ _)) by done.
    erewrite in_world_done.
    2: { rewrite world_of_with_rt. erewrite bind_done by (apply upd_rt_run, with_rt_lookup).
         unfold flush_global_queue_. erewrite bind_done by (apply upd_rt_run, with_rt_lookup).
         apply upd_rt_run, with_rt_lookup. }
    rewrite !with_rt_twice. unfold with_rt_in. by rewrite put_put_world. }
  unfold defer_run at 1 4. erewrite bind_done by exact Ee.
  erewrite bind_done by (apply in_upd_rt, with_rt_in_lookup). rewrite with_rt_in_twice. done.
Qed.

Lemma run_first_enter fuel s this thread r res u s' r' :
  runtimes (world_of s) !! this = Some r → run_thread_id_ r = None →
  uring_enable_rings (ring_ (rt_ring_ r)) = (res, u) → 0 ≤ res →
  let s0 := put_world (context_init thread this (world_of s)) s in
  run_loop invoke handle cqe_nr wait_fuel fuel this (with_rt_in s0 this (entered thread u r)) = Done tt s' →
  runtimes (world_of s') !! this = Some r' →
  run invoke handle cqe_nr wait_fuel fuel this thread s
  = Done tt (put_world (context_reset thread (with_rt (world_of s') this (left_by_run r'))) s').
Proof.
  intros Er Hth Een Hres s0 Hl Er'. rewrite (run_first_loop fuel s this thread r res u) by done. fold s0.
  unfold defer_run. rewrite Hl. unfold at_exit, on_exit_rt. rewrite Er'. f_equal.
  rewrite !world_of_put. simpl. rewrite lookup_insert_eq. simpl.
  rewrite !put_put_world, insert_insert_eq. done.
Qed.

(** The error paths of [run]: a thread other than the first one gets
    [std::runtime_error]; when enabling the ring fails the system error is
    thrown and the runtime may be run again by any thread.  In both cases no
    work was invoked and the thread's context is cleared. *)
Theorem run_errors s this thread r fuel :
  runtimes (world_of s) !! this = Some r →
  (∀ t, run_thread_id_ r = Some t → t ≠ thread →
     run invoke handle cqe_nr wait_fuel fuel this thread s
     = Thrown RuntimeError (put_world (context_reset thread (world_of s)) s)) ∧
  (∀ res u, run_thread_id_ r = None → uring_enable_rings (ring_ (rt_ring_ r)) = (res, u) → res < 0 →
     ∃ w', run invoke handle cqe_nr wait_fuel fuel this thread s
           = Thrown (SystemError (- res)) (put_world w' s) ∧
       sync_msgs w' = sync_msgs (world_of s) ∧ context w' !! thread = None ∧
       ∀ r', runtimes w' !! this = Some r' →
         run_thread_id_ r' = None ∧ local_queue_ r' = local_queue_ r ∧ global_queue_ r' = global_queue_ r).
Proof.
  intros Er. unfold run.
  set (s0 := put_world (context_init thread this (world_of s)) s).
  assert (runtimes (world_of s0) !! this = Some r) as Er0 by (unfold s0; by rewrite world_of_put).
  split.
  - intros t Ht Hne. erewrite bind_done by done. fold s0. unfold defer_run at 1, run_enter.
    unfold mbind at 1, st_bind at 1. erewrite bind_done by (by apply in_get_rt). rewrite Ht.
    rewrite bool_decide_eq_false_2 by done. simpl. unfold at_exit, s0. rewrite world_of_put, put_put_world.
    unfold context_reset, context_init. simpl. by rewrite delete_insert_eq.
  - intros res u Ht Een Hres. erewrite bind_done by done. fold s0. unfold defer_run at 1, run_enter.
    unfold mbind at 1, st_bind at 1. erewrite bind_done by (by apply in_get_rt). rewrite Ht, Een.
    erewrite bind_done by apply in_set_rt. rewrite (proj2 (Z.ltb_lt _ _)) by done. simpl.
    unfold at_exit. rewrite world_of_with_rt. unfold with_rt_in, s0. rewrite !put_put_world, world_of_put.
    eexists. split; [done |]. simpl.
    rewrite lookup_delete_eq, lookup_insert_eq. split_and!; try done. by intros r' [= <-].
Qed.

Lemma get_rt_inv s id r s' :
  in_world (get_rt id) s = Done r s' → s' = s ∧ runtimes (world_of s) !! id = Some r.
Proof.
  unfold in_world, zoom, get_rt. run_st. destruct (runtimes (world_of s) !! id); [| done].
  intros [= -> <-]. by rewrite put_world_of.
Qed.

Lemma run_turn_false this s s' :
  run_turn invoke handle cqe_nr wait_fuel this s = Done false s' →
  ∃ r, runtimes (world_of s') !! this = Some r ∧ local_queue_ r = [] ∧ pending_works_ r = 0 ∧
    exit_allowed_ r = true.
Proof.
  unfold run_turn. intros (_ & s1 & _ & E)%bind_inv. apply bind_inv in E as (r1 & s2 & _ & E).
  apply bind_inv in E as (_ & s3 & _ & E). apply bind_inv in E as (r & s4 & [-> Er]%get_rt_inv & E).
  destruct (local_queue_ r) eqn:Eq.
  - destruct ((pending_works_ r =? 0) && exit_allowed_ r) eqn:Ec.
    + injection E as <-. bool_to_prop. eauto.
    + by apply bind_inv in E as (_ & s5 & _ & E).
  - apply bind_inv in E as (_ & s5 & _ & E). by apply bind_inv in E as (_ & s6 & _ & E).
Qed.

Lemma run_loop_exit fuel : ∀ this s s',
  run_loop invoke handle cqe_nr wait_fuel fuel this s = Done tt s' →
  ∃ r, runtimes (world_of s') !! this = Some r ∧ local_queue_ r = [] ∧ pending_works_ r = 0 ∧
    exit_allowed_ r = true.
Proof.
  induction fuel as [|fuel IH]; intros this s s' E; [done |]. rewrite run_loop_S in E.
  apply bind_inv in E as ([] & s1 & E1 & E); [by eapply IH |]. injection E as <-. by eapply run_turn_false.
Qed.

(** When [run] returns, its exit condition held: the local queue is empty and
    no work is pending; the exit permission is consumed (a later [run] waits for
    a new [allow_exit]) and the tick counter and the context are reset. *)
Theorem run_exit_condition s this thread fuel s' :
  run invoke handle cqe_nr wait_fuel fuel this thread s = Done tt s' →
  context (world_of s') !! thread = None ∧
  ∃ r', runtimes (world_of s') !! this = Some r' ∧ local_queue_ r' = [] ∧ pending_works_ r' = 0 ∧
    exit_allowed_ r' = false ∧ tick_count_ r' = 0.
Proof.
  unfold run. intros (_ & s0 & _ & E)%bind_inv. apply defer_inv in E as (s1 & E & ->).
  apply bind_inv in E as (_ & s2 & _ & E). apply bind_inv in E as (_ & s3 & _ & E).
  apply defer_inv in E as (s4 & E & ->). apply defer_inv in E as (s5 & E & ->).
  destruct (run_loop_exit _ _ _ _ E) as (r & Er & H1' & H2' & H3'). unfold at_exit.
  rewrite !world_of_put. unfold on_exit_rt. rewrite Er. simpl. rewrite lookup_insert_eq. simpl. split.
  - apply lookup_delete_eq.
  - rewrite lookup_insert_eq. eexists. split; [done |]. by destruct (disable_register_ring_fd_ r).
Qed.

End props.

(** *** Works that act on their own runtime *)

(** What a work may do with the runtime it runs on: schedule a work, announce one
    that will be resumed later, or report one that was. *)
Inductive rt_call : Type := CallSchedule (work : Z) | CallPend | CallResume.

Section calls.
Context {U : Type} `{!Uring U}.
Implicit Types (w : World U) (r : Runtime U).

Definition make_call (this : RuntimeId) (c : rt_call) : ST (World U) unit :=
  match c with
  | CallSchedule work => schedule_internal (Some this) this work 0
  | CallPend => pend_work_internal (Some this) this
  | CallResume => resume_work_internal (Some this) this
  end.
Fixpoint make_calls (this : RuntimeId) (l : list rt_call) : ST (World U) unit :=
  match l with [] => mret tt | c :: l => make_call this c;; make_calls this l end.

(** The works that a sequence of calls schedules, and the counter after it. *)
Definition scheduled (l : list rt_call) : list Z :=
  omap (λ c, if c is CallSchedule work then Some work else None) l.
Definition settled (pending : Z) (l : list rt_call) : Z :=
  foldl (λ n c, match c with
                | CallSchedule _ => n
                | CallPend => u64 (n + 1)
                | CallResume => u64 (n - 1)
                end) pending l.

Lemma make_call_run this c w r :
  runtimes w !! this = Some r →
  make_call this c w = Done tt (with_rt w this
    (set_local (local_queue_ r ++ scheduled [c]) (set_pending (settled (pending_works_ r) [c]) r))).
Proof.
  intros E. destruct c as [work| |]; unfold make_call, schedule_internal, pend_work_internal, resume_work_internal.
  - rewrite bool_decide_eq_true_2 by done.
    rewrite (upd_rt_run w this r (λ r, set_local (local_queue_ r ++ [work]) r) E). by destruct r.
  - rewrite bind_assert by (by apply bool_decide_eq_true_2).
    rewrite (upd_rt_run w this r (λ r, set_pending (u64 (pending_works_ r + 1)) r) E).
    destruct r; simpl. by rewrite app_nil_r.
  - rewrite bind_assert by (by apply bool_decide_eq_true_2).
    rewrite (upd_rt_run w this r (λ r, set_pending (u64 (pending_works_ r - 1)) r) E).
    destruct r; simpl. by rewrite app_nil_r.
Qed.

Lemma make_calls_run this l : ∀ w r,
  runtimes w !! this = Some r →
  make_calls this l w = Done tt (with_rt w this
    (set_local (local_queue_ r ++ scheduled l) (set_pending (settled (pending_works_ r) l) r))).
Proof.
  induction l as [|c l IH]; intros w r E.
  - simpl. rewrite app_nil_r. unfold with_rt. destruct w as [rts m c]; simpl in *.
    rewrite insert_id; [done |]. by destruct r.
  - simpl. erewrite bind_done by (by apply make_call_run). erewrite IH by apply with_rt_lookup.
    rewrite with_rt_twice. simpl. rewrite <- app_assoc. unfold scheduled. by destruct c.
Qed.

End calls.

Section drain.
Context {S U : Type} `{HasWorldLaws S U, !Uring U, !UringLaws U}.
Context (invoke : RuntimeId → Z → ST S unit) (handle : RuntimeId → Z → cqe → ST S bool).
Context (cqe_nr : cqe → Z) (wait_fuel : nat) (ran : Z → S → S) (calls : Z → S → list rt_call).
Implicit Types (s : S) (w : World U) (r : Runtime U).

(** Works that return and touch the runtimes only by calls on their own one:
    invoking one changes the rest of the state by [ran] and makes the [calls]. *)
Record own_works : Prop := {
  ow_invoke this work s : invoke this work s = in_world (make_calls this (calls work s)) (ran work s);
  ow_world work s : world_of (ran work s) = world_of s;
  ow_put work w s : ran work (put_world w s) = put_world w (ran work s);
  ow_calls work w s : calls work (put_world w s) = calls work s
}.

Definition ran_all (works : list Z) (s : S) : S := foldl (λ s work, ran work s) s works.

(** What the works of a sequence schedule, in order. *)
Fixpoint scheduled_by (works : list Z) (s : S) : list Z :=
  match works with
  | [] => []
  | work :: works => scheduled (calls work s) ++ scheduled_by works (ran work s)
  end.

(** A queue of works served first in, first out, what they schedule included: the
    sequence of at most [n] works served until the queue is empty and nothing is
    pending. *)
Fixpoint fifo (n : nat) (queue : list Z) (pending : Z) (s : S) : option (list Z) :=
  match queue, n with
  | [], _ => if pending =? 0 then Some [] else None
  | _ :: _, O => None
  | work :: rest, Datatypes.S n =>
      cons work <$> fifo n (rest ++ scheduled (calls work s)) (settled pending (calls work s)) (ran work s)
  end.

Lemma fifo_order n : ∀ queue pending s order,
  fifo n queue pending s = Some order → order = queue ++ scheduled_by order s.
Proof.
  induction n as [|n IH]; intros [|work rest] pending s order E; simpl in E; try done.
  1,2: destruct (pending =? 0); [by injection E as <- | done].
  apply fmap_Some in E as (l & E & ->). simpl. f_equal. rewrite app_assoc. by eapply IH.
Qed.

(** Works that schedule nothing: the queue as it stands. *)
Lemma fifo_leaf (Hc : ∀ work s, calls work s = []) queue : ∀ s, fifo (length queue) queue 0 s = Some queue.
Proof.
  induction queue as [|work queue IH]; intros s; simpl; [done |]. by rewrite Hc, app_nil_r, IH.
Qed.

Lemma ran_all_put (Hw : own_works) works w : ∀ s, ran_all works (put_world w s) = put_world w (ran_all works s).
Proof. induction works as [|work works IH]; intros s; simpl; [done |]. by rewrite ow_put, IH. Qed.

Lemma ran_all_world (Hw : own_works) works : ∀ s, world_of (ran_all works s) = world_of s.
Proof. induction works as [|work works IH]; intros s; simpl; [done |]. by rewrite IH, ow_world. Qed.

Lemma fifo_put (Hw : own_works) n w : ∀ queue pending s,
  fifo n queue pending (put_world w s) = fifo n queue pending s.
Proof.
  induction n as [|n IH]; intros [|work rest] pending s; simpl; try done.
  by rewrite ow_calls, ow_put, IH.
Qed.

Lemma invoke_own (Hw : own_works) this work s r :
  let l := calls work s in
  invoke this work (with_rt_in s this r) = Done tt (with_rt_in (ran work s) this
    (set_local (local_queue_ r ++ scheduled l) (set_pending (settled (pending_works_ r) l) r))).
Proof.
  intros l. rewrite ow_invoke by done. unfold with_rt_in. rewrite ow_calls, ow_put by done. fold l.
  erewrite in_world_done by (rewrite world_of_put; apply make_calls_run, with_rt_lookup).
  by rewrite put_put_world, with_rt_twice, ow_world by done.
Qed.

Lemma run_loop_drains (Hw : own_works) n : ∀ s this r order fuel,
  runtimes (world_of s) !! this = Some r → uring_peek_cqe (ring_ (rt_ring_ r)) = - EAGAIN →
  exit_allowed_ r = true → fifo n (local_queue_ r) (pending_works_ r) s = Some order →
  (length order < fuel)%nat →
  ∃ t, run_loop invoke handle cqe_nr wait_fuel fuel this s
    = Done tt (with_rt_in (ran_all order s) this (set_tick t (set_pending 0 (set_local [] r)))).
Proof.
  induction n as [|n IH]; intros s this r order [|fuel] E Hp Hex Ef Hl; try lia;
    destruct (run_turn_idle invoke handle cqe_nr wait_fuel s this r E Hp) as [t Et];
    destruct (local_queue_ r) as [|work rest] eqn:Eq; simpl in Ef; try done.
  1,2: destruct (pending_works_ r =? 0) eqn:Epd; [injection Ef as <- | done]; rewrite Hex in Et;
    exists t; rewrite run_loop_S; erewrite bind_done by exact Et;
    apply Z.eqb_eq in Epd; destruct r; simpl in *; by subst.
  apply fmap_Some in Ef as (l & Ef & ->). simpl in Hl. rewrite run_loop_S.
  set (r1 := set_local rest (set_tick t r)) in Et. erewrite bind_done.
  2: { rewrite Et. by erewrite bind_done by (by apply invoke_own). }
  cbv beta iota. set (r2 := set_local _ _).
  destruct (IH (with_rt_in (ran work s) this r2) this r2 l fuel) as [t' Et']; try done;
    [apply with_rt_in_lookup | unfold with_rt_in; by rewrite fifo_put | lia |].
  exists t'. rewrite Et'. f_equal. unfold with_rt_in. cbn [ran_all foldl].
  fold (ran_all l (ran work s)). rewrite ran_all_put by done. rewrite !world_of_put, put_put_world.
  rewrite ran_all_world by done. by rewrite with_rt_twice.
Qed.

(** The first [run], with an idle ring and exit allowed. *)
Lemma run_drains (Hw : own_works) s this thread r res u n order fuel :
  runtimes (world_of s) !! this = Some r → run_thread_id_ r = None →
  uring_enable_rings (ring_ (rt_ring_ r)) = (res, u) → 0 ≤ res → uring_peek_cqe u = - EAGAIN →
  exit_allowed_ r = true → fifo n (local_queue_ r ++ global_queue_ r) (pending_works_ r) s = Some order →
  (length order < fuel)%nat →
  ∃ t, run invoke handle cqe_nr wait_fuel fuel this thread s
    = Done tt (put_world (context_reset thread (with_rt (context_init thread this (world_of s)) this
        (left_by_run (set_tick t (set_pending 0 (set_local [] (entered thread u r)))))))  (ran_all order s)).
Proof.
  intros Er Hth Een Hres Hpk Hex Ef Hl.
  set (s0 := put_world (context_init thread this (world_of s)) s). set (r2 := entered thread u r).
  assert (local_queue_ r2 = local_queue_ r ++ global_queue_ r ∧ pending_works_ r2 = pending_works_ r ∧
    exit_allowed_ r2 = true ∧ uring_peek_cqe (ring_ (rt_ring_ r2)) = - EAGAIN) as (Q1 & Q3 & Q4 & Q7).
  { unfold r2, entered. simpl. by destruct (disable_register_ring_fd_ r). }
  destruct (run_loop_drains Hw n (with_rt_in s0 this r2) this r2 order fuel) as [t Et];
    [apply with_rt_in_lookup | done.. | | done |].
  { unfold with_rt_in, s0. rewrite put_put_world, fifo_put by done. by rewrite Q1, Q3. }
  exists t.
  rewrite (run_first_enter invoke handle cqe_nr wait_fuel _ s this thread r res u _
             (set_tick t (set_pending 0 (set_local [] r2))) Er Hth Een Hres Et) by apply with_rt_in_lookup.
  f_equal. unfold with_rt_in, s0. rewrite !world_of_put. rewrite !put_put_world. rewrite !ran_all_put by done.
  rewrite !world_of_put, !put_put_world. by rewrite !with_rt_twice.
Qed.

(** C10. The first [run] executes everything that was scheduled before it and
    everything those works schedule, for works that return and touch the
    runtimes only by scheduling works on their own runtime and by announcing and
    resuming pending works there ([own_works]), on a runtime that nobody has run,
    whose ring gets enabled and has no completion, and whose exit is allowed.
    When serving the queue first in, first out ends with nothing pending, [run]
    invokes the local works, then the globally queued ones, then what these
    schedule in the order in which they schedule it, each exactly once, and
    returns after at most one turn more than there are works; it leaves the
    runtime drained, its ring enabled, its counters and the exit permission
    reset and the thread's context cleared. *)
Theorem run_drains_scheduled s this thread r res u n order fuel :
  own_works → runtimes (world_of s) !! this = Some r → run_thread_id_ r = None →
  uring_enable_rings (ring_ (rt_ring_ r)) = (res, u) → 0 ≤ res → uring_peek_cqe u = - EAGAIN →
  exit_allowed_ r = true →
  fifo n (local_queue_ r ++ global_queue_ r) (pending_works_ r) s = Some order →
  (length order < fuel)%nat →
  order = local_queue_ r ++ global_queue_ r ++ scheduled_by order s ∧
  ∃ w' r', run invoke handle cqe_nr wait_fuel fuel this thread s
    = Done tt (put_world w' (ran_all order s)) ∧
    sync_msgs w' = sync_msgs (world_of s) ∧ context w' !! thread = None ∧
    runtimes w' !! this = Some r' ∧ local_queue_ r' = [] ∧ global_queue_ r' = [] ∧
    pending_works_ r' = 0 ∧ ring_enabled_ r' = true ∧ exit_allowed_ r' = false ∧ tick_count_ r' = 0 ∧
    run_thread_id_ r' = Some thread.
Proof.
  intros Hw Er Hth Een Hres Hpk Hex Ef Hl. split; [rewrite app_assoc; by eapply fifo_order |].
  destruct (run_drains Hw s this thread r res u n order fuel Er Hth Een Hres Hpk Hex Ef Hl) as [t Et].
  eexists _, _. split; [exact Et |]. simpl. rewrite lookup_insert_eq, lookup_delete_eq.
  split_and!; try done; unfold left_by_run, entered; simpl;
    destruct (disable_register_ring_fd_ r) eqn:Ed; simpl; by rewrite ?Ed.
Qed.

End drain.

(** ** Enabling the ring while work is scheduled *)
Module Enable.

(** Where a thread is that schedules its work from outside the runtime, and where
    the thread is that runs the runtime for the first time. *)
Inductive spc : Type := SLoad | SLock | SCheck | SSend | SDone.
Inductive rpc : Type := RLock | RFlush | REnable | RUnlock | RDone.
Inductive holder : Type := Free | ByRunner | ByThread (t : nat).

(** A thread is named by the work it schedules; [msgs]: works sent by message. *)
Record EState := mkEState {
  enabled : bool;
  mutex_ : holder;
  global : list nat;
  local : list nat;
  msgs : list nat;
  threads : gmap nat spc;
  runner : rpc
}.

Definition set_pc (t : nat) (p : spc) (s : EState) : EState :=
  mkEState (enabled s) (mutex_ s) (global s) (local s) (msgs s) (<[t := p]> (threads s)) (runner s).

(** The steps of [schedule_internal] and of the first-run branch of [run]. *)
Inductive step : EState → EState → Prop :=
  | step_load s t :
      threads s !! t = Some SLoad → step s (set_pc t (if enabled s then SSend else SLock) s)
  | step_lock s t :
      threads s !! t = Some SLock → mutex_ s = Free →
      step s (mkEState (enabled s) (ByThread t) (global s) (local s) (msgs s)
                (<[t := SCheck]> (threads s)) (runner s))
  | step_check_enabled s t :
      threads s !! t = Some SCheck → enabled s = true →
      step s (mkEState (enabled s) Free (global s) (local s) (msgs s) (<[t := SSend]> (threads s)) (runner s))
  | step_check_disabled s t :
      threads s !! t = Some SCheck → enabled s = false →
      step s (mkEState (enabled s) Free (global s ++ [t]) (local s) (msgs s)
                (<[t := SDone]> (threads s)) (runner s))
  | step_send s t :
      threads s !! t = Some SSend →
      step s (mkEState (enabled s) (mutex_ s) (global s) (local s) (msgs s ++ [t])
                (<[t := SDone]> (threads s)) (runner s))
  | step_run_lock s :
      runner s = RLock → mutex_ s = Free →
      step s (mkEState (enabled s) ByRunner (global s) (local s) (msgs s) (threads s) RFlush)
  | step_run_flush s :
      runner s = RFlush →
      step s (mkEState (enabled s) (mutex_ s) [] (local s ++ global s) (msgs s) (threads s) REnable)
  | step_run_enable s :
      runner s = REnable →
      step s (mkEState true (mutex_ s) (global s) (local s) (msgs s) (threads s) RUnlock)
  | step_run_unlock s :
      runner s = RUnlock →
      step s (mkEState (enabled s) Free (global s) (local s) (msgs s) (threads s) RDone).

Definition start (works : gset nat) : EState :=
  mkEState false Free [] [] [] (gset_to_gmap SLoad works) RLock.

Record inv (s : EState) : Prop := {
  inv_thread t : threads s !! t = Some SCheck → mutex_ s = ByThread t;
  inv_runner : runner s ∈ [RFlush; REnable; RUnlock] → mutex_ s = ByRunner;
  inv_enabled : enabled s = true ↔ runner s = RUnlock ∨ runner s = RDone;
  inv_flushed : runner s = REnable ∨ enabled s = true → global s = [];
  inv_nodup : NoDup (local s ++ global s ++ msgs s);
  inv_done t : t ∈ local s ++ global s ++ msgs s ↔ threads s !! t = Some SDone
}.

Lemma start_inv works : inv (start works).
Proof.
  split; simpl; try done; try set_solver; try naive_solver.
  - intros t. rewrite lookup_gset_to_gmap. unfold guard. case_match; naive_solver.
  - constructor.
  - intros t. rewrite lookup_gset_to_gmap. split; [set_solver |]. unfold guard. case_match; naive_solver.
Qed.

(** A thread finishes: its work is in one more place. *)
Lemma done_insert (l l' : list nat) (m : gmap nat spc) t p :
  (∀ t', t' ∈ l ↔ m !! t' = Some SDone) → NoDup l → m !! t = Some p → p ≠ SDone →
  l' ≡ₚ t :: l → NoDup l' ∧ ∀ t', t' ∈ l' ↔ <[t := SDone]> m !! t' = Some SDone.
Proof.
  intros Hd Hn Ht Hp Hl. assert (t ∉ l) by (rewrite Hd, Ht; congruence). split.
  - rewrite Hl. by apply NoDup_cons.
  - intros t'. rewrite Hl, elem_of_cons, Hd. destruct (decide (t' = t)) as [-> | ?].
    + rewrite lookup_insert_eq. naive_solver.
    + rewrite lookup_insert_ne by done. naive_solver.
Qed.

Lemma done_other (l : list nat) (m : gmap nat spc) t p q :
  (∀ t', t' ∈ l ↔ m !! t' = Some SDone) → m !! t = Some p → p ≠ SDone → q ≠ SDone →
  ∀ t', t' ∈ l ↔ <[t := q]> m !! t' = Some SDone.
Proof.
  intros Hd Ht Hp Hq t'. rewrite Hd. destruct (decide (t' = t)) as [-> | ?].
  - rewrite lookup_insert_eq. naive_solver.
  - by rewrite lookup_insert_ne.
Qed.

Lemma check_other (m : gmap nat spc) t q (h : holder) :
  (∀ t', m !! t' = Some SCheck → h = ByThread t') → q ≠ SCheck →
  ∀ t', <[t := q]> m !! t' = Some SCheck → h = ByThread t'.
Proof. intros Hc Hq t' [[? ?] | [? ?]]%lookup_insert_Some; naive_solver. Qed.

Lemma enable_step_inv s s' : step s s' → inv s → inv s'.
Proof.
  intros Hst [I1 I2 I3 I4 I5 I6]. destruct Hst as [s t Ht | s t Ht Hm | s t Ht He | s t Ht He | s t Ht
    | s Hr Hm | s Hr | s Hr | s Hr]; simpl.
  - split; simpl; try done.
    + apply check_other; [done | by destruct (enabled s)].
    + eapply done_other; try done. by destruct (enabled s).
  - split; simpl; try done.
    + intros t' [[-> _] | [_ Hc]]%lookup_insert_Some; [done |]. specialize (I1 _ Hc). congruence.
    + intros Hin. specialize (I2 Hin). congruence.
    + by eapply done_other.
  - split; simpl; try done.
    + intros t' [[_ ?] | [Hne Hc]]%lookup_insert_Some; [done |].
      pose proof (I1 _ Ht). specialize (I1 _ Hc). congruence.
    + intros Hin. specialize (I2 Hin). specialize (I1 _ Ht). congruence.
    + by eapply done_other.
  - destruct (done_insert (local s ++ global s ++ msgs s) (local s ++ (global s ++ [t]) ++ msgs s)
      (threads s) t SCheck I6 I5 Ht) as [Hn Hd]; [done | solve_Permutation |].
    split; simpl; try done.
    + intros t' [[_ ?] | [Hne Hc]]%lookup_insert_Some; [done |].
      pose proof (I1 _ Ht). specialize (I1 _ Hc). congruence.
    + intros Hin. specialize (I2 Hin). specialize (I1 _ Ht). congruence.
    + intros [Hr | ?]; [| congruence]. assert (mutex_ s = ByRunner) by (apply I2; rewrite Hr; set_solver).
      specialize (I1 _ Ht). congruence.
  - destruct (done_insert (local s ++ global s ++ msgs s) (local s ++ global s ++ msgs s ++ [t])
      (threads s) t SSend I6 I5 Ht) as [Hn Hd]; [done | solve_Permutation |].
    split; simpl; try done. by apply check_other.
  - split; simpl; try done.
    + intros t Hc. specialize (I1 _ Hc). congruence.
    + rewrite I3, Hr. naive_solver.
    + intros [? | He]; [done |]. apply I4. by right.
  - split; simpl; try done.
    + intros _. apply I2. rewrite Hr. set_solver.
    + rewrite I3, Hr. naive_solver.
    + rewrite <- (assoc_L (++)). done.
    + intros t. rewrite <- I6. set_solver.
  - split; simpl; try done.
    + intros _. apply I2. rewrite Hr. set_solver.
    + naive_solver.
    + intros _. apply I4. by left.
  - split; simpl; try done.
    + intros t Hc. specialize (I1 _ Hc).
      assert (mutex_ s = ByRunner) by (apply I2; rewrite Hr; set_solver). congruence.
    + set_solver.
    + rewrite I3, Hr. naive_solver.
    + intros [? | He]; [done |]. apply I4. by right.
Qed.

(** C30. No work is stranded when threads schedule work while the runtime is run for
    the first time, in any interleaving: each finished [schedule_internal] has
    put its work in exactly one of the local queue, the global queue and a
    message; and once the ring is enabled the global queue, which nobody will
    look at any more, is empty and stays so. *)
Theorem no_work_stranded works s :
  rtc step (start works) s →
  NoDup (local s ++ global s ++ msgs s) ∧
  (∀ t, t ∈ local s ++ global s ++ msgs s ↔ threads s !! t = Some SDone) ∧
  (enabled s = true → global s = []).
Proof.
  intros Hr. assert (inv s) as [_ _ _ I4 I5 I6].
  { revert Hr. generalize (start_inv works). generalize (start works). intros s0 Hi Hr.
    induction Hr as [| s0 s1 s2 Hst _ IH]; [done |]. by eapply IH, enable_step_inv. }
  split_and!; [done | done | auto].
Qed.

(** One thread that schedules its work. *)
Definition demo_estate (en : bool) (h : holder) (m : list nat) (pc : spc) (r : rpc) : EState :=
  mkEState en h [] [] m {[1%nat := pc]} r.

Lemma no_work_stranded_witness :
  let s := demo_estate true Free [1%nat] SDone RDone in
  NoDup (local s ++ global s ++ msgs s) ∧
  (∀ t, t ∈ local s ++ global s ++ msgs s ↔ threads s !! t = Some SDone) ∧
  (enabled s = true → global s = []).
Proof.
  apply (no_work_stranded {[1%nat]}).
  apply (rtc_l step _ _ _ (step_load (demo_estate false Free [] SLoad RLock) 1%nat eq_refl)).
  apply (rtc_l step _ _ _ (step_run_lock (demo_estate false Free [] SLock RLock) eq_refl eq_refl)).
  apply (rtc_l step _ _ _ (step_run_flush (demo_estate false ByRunner [] SLock RFlush) eq_refl)).
  apply (rtc_l step _ _ _ (step_run_enable (demo_estate false ByRunner [] SLock REnable) eq_refl)).
  apply (rtc_l step _ _ _ (step_run_unlock (demo_estate true ByRunner [] SLock RUnlock) eq_refl)).
  apply (rtc_l step _ _ _ (step_lock (demo_estate true Free [] SLock RDone) 1%nat eq_refl eq_refl)).
  apply (rtc_l step _ _ _ (step_check_enabled (demo_estate true (ByThread 1) [] SCheck RDone) 1%nat eq_refl eq_refl)).
  apply (rtc_l step _ _ _ (step_send (demo_estate true Free [] SSend RDone) 1%nat eq_refl)).
  apply rtc_refl.
Defined.

End Enable.

(** ** [allow_exit] while the runtime starts *)
Module ExitRace.

(** The thread that calls [allow_exit] on a runtime that is not its own, and the
    thread that starts [run] with no work: it enables the ring, finds nothing to
    do, looks at [exit_allowed_] and exits or blocks until a completion wakes
    it. *)
Inductive apc : Type := AStore | ALoad | AWake | ADone.
Inductive bpc : Type := BEnable | BLoad | BExit | BWait.

(** [buffer]: the store to [exit_allowed_] is still in the store buffer of the
    calling processor; [woken]: the wakeup message has been sent. *)
Record XState := mkXState {
  exit_allowed : bool;
  ring_enabled : bool;
  buffer : bool;
  woken : bool;
  caller : apc;
  runner : bpc
}.

(** [buffered]: whether a release store may be delayed past a later relaxed load
    of another variable, as the C++ memory model and x86 allow; with [false] the
    steps are sequentially consistent. *)
Inductive step (buffered : bool) : XState → XState → Prop :=
  | step_store s :
      caller s = AStore →
      step buffered s
        (if buffered then mkXState (exit_allowed s) (ring_enabled s) true (woken s) ALoad (runner s)
         else mkXState true (ring_enabled s) (buffer s) (woken s) ALoad (runner s))
  | step_drain s :
      buffer s = true →
      step buffered s (mkXState true (ring_enabled s) false (woken s) (caller s) (runner s))
  | step_load s :
      caller s = ALoad →
      step buffered s (mkXState (exit_allowed s) (ring_enabled s) (buffer s) (woken s)
                         (if ring_enabled s then AWake else ADone) (runner s))
  | step_wake s :
      caller s = AWake →
      step buffered s (mkXState (exit_allowed s) (ring_enabled s) (buffer s) true ADone (runner s))
  | step_enable s :
      runner s = BEnable →
      step buffered s (mkXState (exit_allowed s) true (buffer s) (woken s) (caller s) BLoad)
  | step_check s :
      runner s = BLoad →
      step buffered s (mkXState (exit_allowed s) (ring_enabled s) (buffer s) (woken s) (caller s)
                         (if exit_allowed s then BExit else BWait)).

Definition start : XState := mkXState false false false false AStore BEnable.

(** The runner blocks, the caller is done, nothing is in flight and no wakeup was
    sent. *)
Definition lost_wakeup (s : XState) : Prop :=
  runner s = BWait ∧ caller s = ADone ∧ buffer s = false ∧ woken s = false.

Record inv (s : XState) : Prop := {
  inv_stored : caller s ≠ AStore → exit_allowed s = true;
  inv_enabled : runner s ≠ BEnable → ring_enabled s = true;
  inv_wait : runner s = BWait → caller s = AStore ∨ caller s = ALoad ∨ caller s = AWake ∨ woken s = true;
  inv_buffer : buffer s = false
}.

Lemma exit_step_inv s s' : step false s s' → inv s → inv s'.
Proof.
  intros Hst [I1 I2 I3 I4]. destruct Hst as [s Hc | s Hb | s Hc | s Hc | s Hr | s Hr];
    (split; simpl; intros; simplify_eq; eauto).
  - apply I1. congruence.
  - rewrite I2 by congruence. auto.
  - apply I1. congruence.
  - apply I2. congruence.
  - destruct (exit_allowed s) eqn:E; [done |]. destruct (caller s) eqn:Ec; auto.
    by discriminate I1.
Qed.

(** C31. Under sequential consistency [allow_exit] is never missed: in every
    interleaving with the start of [run], the runner exits by itself, or it will
    be woken. *)
Theorem allow_exit_not_lost s : rtc (step false) start s → ¬ lost_wakeup s.
Proof.
  intros Hr. assert (inv s) as [_ _ I3 _].
  { assert (inv start) as Hi by (by split). revert Hi Hr. generalize start. intros s0 Hi Hr.
    induction Hr as [| s0 s1 s2 Hst _ IH]; [done |]. by eapply IH, exit_step_inv. }
  intros (Hw & Hc & _ & Hn). specialize (I3 Hw). rewrite Hc, Hn in I3. naive_solver.
Qed.

Lemma allow_exit_not_lost_witness :
  ¬ lost_wakeup (mkXState true true false true ADone BWait).
Proof.
  apply allow_exit_not_lost.
  eapply rtc_l; [apply step_enable; reflexivity |].
  eapply rtc_l; [apply step_check; reflexivity |].
  eapply rtc_l; [apply (step_store false); reflexivity |].
  eapply rtc_l; [apply step_load; reflexivity |].
  eapply rtc_l; [apply step_wake; reflexivity |].
  apply rtc_refl.
Defined.

(** C39. With the orderings the code asks for (a release store of [exit_allowed_],
    then a relaxed load of [ring_enabled_]) the store may be delayed past the
    load, and then the permission to exit can be missed for good: the caller
    finds the ring not enabled and sends nothing, the runner enables it, finds
    the exit not yet allowed and blocks. *)
Theorem allow_exit_lost_with_store_buffer :
  ∃ s, rtc (step true) start s ∧ lost_wakeup s ∧ exit_allowed s = true ∧ ∀ s', ¬ step true s s'.
Proof.
  exists (mkXState true true false false ADone BWait). split_and!; [| done | done |].
  - eapply rtc_l; [apply (step_store true); reflexivity |].
    eapply rtc_l; [apply step_load; reflexivity |].
    eapply rtc_l; [apply step_enable; reflexivity |].
    eapply rtc_l; [apply step_check; reflexivity |].
    eapply rtc_l; [apply step_drain; reflexivity |].
    apply rtc_refl.
  - intros s' Hs. remember (mkXState true true false false ADone BWait) as s. destruct Hs; by subst.
Qed.

End ExitRace.

(** ** Concrete runtimes *)

(** Two runtimes on simulated rings: the first one enabled, the second one not
    yet run, with three works. *)
Definition demo_rt : Runtime SimRing :=
  mkRuntime [24; 32] true false [16] (mkRing (mkSimRing 3 [] [] 4 []) 8 0) 0 0 None 61 false false.
Definition demo_rt0 : Runtime SimRing :=
  mkRuntime [] false true [] (mkRing (mkSimRing 3 [] [] 4 []) 8 0) 0 0 (Some 9%nat) 61 false false.
Definition demo_world : World SimRing :=
  mkWorld {[0%nat := demo_rt0; 1%nat := demo_rt]} [] ∅.

Definition demo_send (p : Z) : sqe := mkSqe (SqeOther p 0) 0.
Definition demo_invoke (this : RuntimeId) (work : Z) : ST (World SimRing) unit :=
  modify (λ w, mkWorld (runtimes w) (sync_msgs w ++ [demo_send work]) (context w)).
Definition demo_handle (this : RuntimeId) (h : Z) (c : cqe) : ST (World SimRing) bool := mret true.

Lemma schedule_internal_delivers_witness :
  schedule_internal None 0 4096 0 demo_world
    = Done tt (mkWorld (runtimes demo_world) [mkSqe (SqeMsgRing 0 4098) 2] ∅) ∧
  process_cqe_ demo_invoke demo_handle 0 (mkCqe 4098 0 0) demo_world = demo_invoke 0 4096 demo_world.
Proof.
  assert (runtimes demo_world !! 0%nat = Some demo_rt0) as E by reflexivity.
  assert (aligned 4096) as Ha by (split; [lia | done]).
  destruct (schedule_internal_delivers demo_invoke demo_handle demo_world 0 demo_rt0 4096 0 0 E Ha)
    as (_ & _ & Hm).
  destruct (Hm eq_refl) as (H1 & _ & _ & H2). split; [by apply H1 | apply H2].
Defined.

Lemma cancel_internal_remote_witness :
  ∃ rc', ring_gets demo_rt (mkSqe (SqeMsgRing 0 4099) 2) rc' ∧
    cancel_internal (Some 1%nat) 0 4096 0 demo_world
    = Done tt (with_rt demo_world 1 (set_ring (mkRing (uring_submit (ring_ (rt_ring_ rc'))).2
                                       (submit_batch_ (rt_ring_ rc')) 0)
                                 (set_pending 1 rc'))).
Proof.
  apply (cancel_internal_remote demo_invoke demo_handle demo_world 1 0 demo_rt demo_rt0 4096 0 0);
    try reflexivity; [lia | split; [lia | done]].
Defined.

Lemma process_cqe_accounts_witness :
  process_cqe_ demo_invoke demo_handle 0 (mkCqe 4096 5 0) demo_world
  = Done tt (with_rt demo_world 0 (set_pending (2 ^ 64 - 1) demo_rt0)).
Proof.
  assert (runtimes (world_of demo_world) !! 0%nat = Some demo_rt0) as E by reflexivity.
  apply (process_cqe_accounts demo_invoke demo_handle demo_world 0 demo_rt0 4096 (mkCqe 4096 5 0)
    E (conj (conj eq_refl eq_refl) eq_refl)) with (fin := true); reflexivity.
Defined.

(** Each work logs its number; 16 announces a work and schedules 40, which
    schedules 48 and resumes the announced one. *)
Definition demo_ran (work : Z) (s : World SimRing * list Z) : World SimRing * list Z := (s.1, s.2 ++ [work]).
Definition demo_calls (work : Z) (s : World SimRing * list Z) : list rt_call :=
  if work =? 16 then [CallPend; CallSchedule 40]
  else if work =? 40 then [CallSchedule 48; CallResume] else [].
Definition demo_log (this : RuntimeId) (work : Z) : ST (World SimRing * list Z) unit :=
  s ← get; modify (demo_ran work);; in_world (make_calls this (demo_calls work s)).

Lemma run_drains_scheduled_witness :
  ∃ w' r', run demo_log (λ _ _ _, mret true) (λ _, 1) 1 6 1 5 (demo_world, [])
      = Done tt (w', [16; 24; 32; 40; 48]) ∧
    sync_msgs w' = [] ∧ context w' !! 5%nat = None ∧
    runtimes w' !! 1%nat = Some r' ∧ local_queue_ r' = [] ∧ global_queue_ r' = [] ∧
    pending_works_ r' = 0 ∧ ring_enabled_ r' = true ∧ exit_allowed_ r' = false ∧ tick_count_ r' = 0 ∧
    run_thread_id_ r' = Some 5%nat.
Proof.
  assert (own_works demo_log demo_ran demo_calls) as Hw by (split; reflexivity).
  assert (length [16; 24; 32; 40; 48] < 6)%nat as Hf by (simpl; lia).
  exact (proj2 (run_drains_scheduled demo_log (λ _ _ _, mret true) (λ _, 1) 1 demo_ran demo_calls
           (demo_world, []) 1 5 demo_rt 0 (ring_ (rt_ring_ demo_rt)) 5 [16; 24; 32; 40; 48] 6 Hw eq_refl eq_refl
           eq_refl (Z.le_refl 0) eq_refl eq_refl eq_refl Hf)).
Defined.

Lemma run_errors_witness :
  run demo_invoke demo_handle (λ _, 1) 1 7 0 5 demo_world
  = Thrown RuntimeError (mkWorld (runtimes demo_world) [] ∅).
Proof.
  assert (runtimes (world_of demo_world) !! 0%nat = Some demo_rt0) as E by reflexivity.
  apply (run_errors demo_invoke demo_handle (λ _, 1) 1 demo_world 0 5 demo_rt0 7 E) with (t := 9%nat);
    [reflexivity | lia].
Defined.

Lemma run_exit_condition_witness :
  match run demo_invoke demo_handle (λ _, 1) 1 4 1 5 demo_world with
  | Done _ w' =>
      context w' !! 5%nat = None ∧
      ∃ r', runtimes w' !! 1%nat = Some r' ∧ local_queue_ r' = [] ∧ pending_works_ r' = 0 ∧
        exit_allowed_ r' = false ∧ tick_count_ r' = 0
  | _ => False
  end.
Proof.
  assert (if run demo_invoke demo_handle (λ _, 1) 1 4 1 5 demo_world is Done _ _ then True else False)
    as Hd by (vm_compute; exact I).
  pose proof (run_exit_condition demo_invoke demo_handle (λ _, 1) 1 demo_world 1 5 4) as Hx.
  revert Hd Hx. generalize (run demo_invoke demo_handle (λ _, 1) 1 4 1 5 demo_world). intros res Hd Hx.
  destruct res as [[] w' | |]; [by apply Hx | destruct Hd | destruct Hd].
Defined.
