(* ===== verification/OpStates.v ===== *)
(** * Operation states (include/condy/detail/op_states.hpp, finish_handles.hpp,
      senders.hpp, sender_operations.hpp)

    - [sender] is the expression the combinators build, [connect] makes its tree
      of operation states, [start] starts the tree.
    - A leaf is an [OpSenderOperationState] with its finish handle; the code of
      the handles is [leaf_handle].
    - An inner node is a [ParallelOperationState] or [RangedParallelOperationState]
      with its canceller, its receiver wrapper and, for a link, the flags.
    - A receiver that is called while [start] or [handle] runs is the value
      these functions return; the caller runs [receive_] with it at once.
    - The runtime below is the one of [Runtime.v]. *)

From stdpp Require Import base numbers list gmap.
From S2P Require Import Prelude WorkType Ring Runtime.

Set Warnings "-register-all".

(** Flags of liburing that the code tests or sets. *)
Definition IORING_CQE_F_MORE : Z := 2.
Definition IORING_CQE_F_NOTIF : Z := 8.
Definition IOSQE_IO_DRAIN : Z := 2.
Definition IOSQE_IO_LINK : Z := 4.
Definition IOSQE_IO_HARDLINK : Z := 8.
Definition IOSQE_ASYNC : Z := 16.
Definition IOSQE_FIXED_FILE : Z := 1.

Definition has_flag (flags f : Z) : bool := negb (Z.land flags f =? 0).

(** Which finish handle the sender of an operation uses. *)
Inductive handle_kind : Type := OneShot | MultiShot | ZeroCopy.

(** [prep_func_]: what the preparation writes, operation and flags; [None] when it
    returns no entry. *)
Record op (V : Type) := mkOp {
  handle_addr : Z;
  prep_func_ : option (Z * Z);
  cqe_handler_ : cqe → V;
  handle_kind_ : handle_kind
}.
Arguments mkOp {V} handle_addr prep_func_ cqe_handler_ handle_kind_.
Arguments handle_addr {V} o.
Arguments prep_func_ {V} o.
Arguments cqe_handler_ {V} o.
Arguments handle_kind_ {V} o.

(** Where a leaf is in its life.  [Pending cb cancelled]: submitted; [cb] is
    the runtime in the [Cancellation] of [stop_callback_], if it is engaged;
    [cancelled] says that the callback has run.
    [Received v alive]: the receiver has been called with [v]; [alive] while the
    notification of a zero-copy operation is outstanding.  [Dropped]: a zero-copy
    handle deleted without a result. *)
Inductive leaf_state (V : Type) : Type :=
  | Idle
  | Pending (cb : option RuntimeId) (cancelled : bool)
  | Received (v : V) (alive : bool)
  | Dropped.
Arguments Idle {V}.
Arguments Pending {V} cb cancelled.
Arguments Received {V} v alive.
Arguments Dropped {V}.

(** What receivers are called with.  [Unset] is a value-initialised result. *)
Inductive value (V : Type) : Type :=
  | Unset
  | Leaf (v : V)
  | Both (order : list nat) (results : list (value V))
  | Results (results : list (value V))
  | Indexed (i : nat) (v : value V).
Arguments Unset {V}.
Arguments Leaf {V} v.
Arguments Both {V} order results.
Arguments Results {V} results.
Arguments Indexed {V} i v.

(** The receiver a parallel state is given: the user's own, or one of the
    wrappers [ReceiverAllWrapper], [ReceiverAnyWrapper] (and their ranged
    versions). *)
Inductive wrapper : Type := NoWrapper | AllWrapper | AnyWrapper.

(** The template arguments of a parallel state: [any_]: its canceller is
    [WhenAnyCanceller]; [link_]: it is a [LinkOperationState] with these flags;
    [ranged_]: the vector version. *)
Record pkind := mkPkind {
  any_ : bool;
  wrapper_ : wrapper;
  link_ : option Z;
  ranged_ : bool
}.

#[export] Instance wrapper_eq_dec : EqDecision wrapper.
Proof. solve_decision. Defined.
#[export] Instance pkind_eq_dec : EqDecision pkind.
Proof. solve_decision. Defined.

Record ParState (V : Type) := mkParState {
  kind_ : pkind;
  order_ : list nat;
  results_ : list (value V);
  completed_count_ : nat;
  receiver_used : bool;
  stop_source_ : bool;
  chained : bool
}.
Arguments mkParState {V} kind_ order_ results_ completed_count_ receiver_used stop_source_ chained.
Arguments kind_ {V} p.
Arguments order_ {V} p.
Arguments results_ {V} p.
Arguments completed_count_ {V} p.
Arguments receiver_used {V} p.
Arguments stop_source_ {V} p.
Arguments chained {V} p.

Inductive opstate (V : Type) : Type :=
  | OpState (o : op V) (st : leaf_state V)
  | FlaggedOpState (Flags : Z) (s : opstate V)
  | Parallel (p : ParState V) (op_states : list (opstate V)).
Arguments OpState {V} o st.
Arguments FlaggedOpState {V} Flags s.
Arguments Parallel {V} p op_states.

Inductive sender (V : Type) : Type :=
  | OpSender (o : op V)
  | FlaggedOpSender (Flags : Z) (s : sender V)
  | ParallelSender (k : pkind) (senders : list (sender V)).
Arguments OpSender {V} o.
Arguments FlaggedOpSender {V} Flags s.
Arguments ParallelSender {V} k senders.

(** A stop token: [None] when [stop_possible()] is false, otherwise whether stop
    has been requested. *)
Abbreviation token := (option bool).

(** Calls of user functions: the function of a multi-shot operation and the free
    function of a zero-copy operation. *)
Inductive call (V : Type) : Type :=
  | CallFunc (handle : Z) (v : V)
  | CallFree (handle : Z) (res : Z).
Arguments CallFunc {V} handle v.
Arguments CallFree {V} handle res.

Record OEnv (U V : Type) := mkOEnv {
  world : World U;
  calls : list (call V)
}.
Arguments mkOEnv {U V} world calls.
Arguments world {U V} o.
Arguments calls {U V} o.

(** ** Combinators (sender_operations.hpp) *)

Section combinators.
Context {V : Type}.

Definition flag (Flags : Z) (s : sender V) : sender V := FlaggedOpSender Flags s.
Definition drain (s : sender V) : sender V := flag IOSQE_IO_DRAIN s.
Definition always_async (s : sender V) : sender V := flag IOSQE_ASYNC s.
Definition parallel (any ranged : bool) (ss : list (sender V)) : sender V :=
  ParallelSender (mkPkind any NoWrapper None ranged) ss.
Definition when_all (ranged : bool) (ss : list (sender V)) : sender V :=
  ParallelSender (mkPkind false AllWrapper None ranged) ss.
(** [when_any(range)]; without a range an empty list is rejected when compiling. *)
Definition when_any {S} (ranged : bool) (ss : list (sender V)) : ST S (sender V) :=
  match ss with
  | [] => throw InvalidArgument
  | _ => mret (ParallelSender (mkPkind true AnyWrapper None ranged) ss)
  end.
Definition link_with (Flags : Z) (ranged : bool) (ss : list (sender V)) : sender V :=
  ParallelSender (mkPkind false AllWrapper (Some Flags) ranged) ss.
Definition link := link_with IOSQE_IO_LINK.
Definition hard_link := link_with IOSQE_IO_HARDLINK.

(** The operators: a left operand that is already such a sender (not of a range)
    is extended by the right one. *)
Definition extend (k : pkind) (s1 s2 : sender V) : sender V :=
  match s1 with
  | ParallelSender k' ss => if bool_decide (k' = k) then ParallelSender k (ss ++ [s2]) else ParallelSender k [s1; s2]
  | _ => ParallelSender k [s1; s2]
  end.
Definition operator_and (s1 s2 : sender V) : sender V := extend (mkPkind false AllWrapper None false) s1 s2.
Definition operator_or (s1 s2 : sender V) : sender V := extend (mkPkind true AnyWrapper None false) s1 s2.
Definition operator_shift (s1 s2 : sender V) : sender V :=
  extend (mkPkind false AllWrapper (Some IOSQE_IO_LINK) false) s1 s2.
End combinators.

(** ** Operation states *)

Section op_states.
Context {U V : Type} `{Uring U}.
Abbreviation M := (ST (OEnv U V)).

Definition on_world {A} : ST (World U) A → M A :=
  zoom world (λ w e, mkOEnv w (calls e)).
Definition add_call (c : call V) : M unit := modify (λ e, mkOEnv (world e) (calls e ++ [c])).

(** [chain_token] of the two cancellers. *)
Definition child_token (k : pkind) (stopped : bool) (tok : token) : token :=
  if any_ k then Some stopped else tok.

Definition par_new (k : pkind) (n : nat) (tok : token) : ParState V :=
  mkParState k (replicate n 0%nat) (replicate n Unset) 0 false
    (any_ k && bool_decide (tok = Some true)) (any_ k && bool_decide (is_Some tok)).

Fixpoint connect (tok : token) (s : sender V) : opstate V :=
  match s with
  | OpSender o => OpState o Idle
  | FlaggedOpSender F s => FlaggedOpState F (connect tok s)
  | ParallelSender k ss =>
      let p := par_new k (length ss) tok in
      Parallel p (map (connect (child_token k (stop_source_ p) tok)) ss)
  end.

(** *** Finish handles *)

(** [handle_impl_] of the three handles: the new state of the leaf, what the
    receiver is called with, and whether the operation is finished. *)
Definition leaf_handle (o : op V) (st : leaf_state V) (c : cqe)
    : M (leaf_state V * option (value V) * bool) :=
  let v := cqe_handler_ o c in
  let more := has_flag (cqe_flags c) IORING_CQE_F_MORE in
  let live := match st with Idle | Pending _ _ => true | _ => false end in
  match handle_kind_ o with
  | OneShot =>
      if live then mret (Received v false, Some (Leaf v), true) else crashed BadAccess
  | MultiShot =>
      if negb live then crashed BadAccess
      else if more then add_call (CallFunc (handle_addr o) v);; mret (st, None, false)
      else mret (Received v false, Some (Leaf v), true)
  | ZeroCopy =>
      if more then
        if live then mret (Received v true, Some (Leaf v), false) else crashed BadAccess
      else if has_flag (cqe_flags c) IORING_CQE_F_NOTIF then
        match st with
        | Received v true => add_call (CallFree (handle_addr o) (cqe_res c));; mret (Received v false, None, true)
        | Idle | Pending _ _ => add_call (CallFree (handle_addr o) (cqe_res c));; mret (Dropped, None, true)
        | _ => crashed BadAccess
        end
      else
        if live then
          add_call (CallFree (handle_addr o) 0);; mret (Received v false, Some (Leaf v), true)
        else crashed BadAccess
  end.

(** [OpSenderOperationState::fail_] *)
Definition fail_ (o : op V) (res : Z) : M (leaf_state V * option (value V)) :=
  assert_ (res <? 0);;
  '(st, r, _) ← leaf_handle o Idle (mkCqe 0 res 0);
  mret (st, r).

(** The entry of the operation, as it stands at [maybe_submit]. *)
Definition op_sqe (opcode prep_flags flags data : Z) : sqe :=
  mkSqe (SqeOther opcode (Z.lor prep_flags flags)) data.

(** [OpSenderOperationState::start] with [maybe_set_cancel]. *)
Definition leaf_start (curr : option RuntimeId) (tok : token) (flags : Z) (o : op V)
    : M (leaf_state V * option (value V)) :=
  match curr with
  | None => fail_ o (- EINVAL)
  | Some this =>
      if bool_decide (tok = Some true) then fail_ o (- ECANCELED)
      else
        match prep_func_ o with
        | None => fail_ o (- EINVAL)
        | Some (opcode, prep_flags) =>
            slot ← on_world (on_rt_ring this get_sqe);
            on_world (pend_work_internal curr this);;
            data ← encode_work (handle_addr o) Common;
            on_world (on_rt_ring this (prep slot (op_sqe opcode prep_flags flags data)));;
            on_world (on_rt_ring this maybe_submit);;
            mret (Pending ((λ _, this) <$> tok) false, None)
        end
  end.

(** [OpFinishHandle::Cancellation]. *)
Definition leaf_cancel (curr : option RuntimeId) (this : RuntimeId) (o : op V) : M unit :=
  data ← encode_work (handle_addr o) Common;
  on_world (cancel_internal curr this data 0).

(** *** Cancellation *)

Definition set_stop (p : ParState V) : ParState V :=
  mkParState (kind_ p) (order_ p) (results_ p) (completed_count_ p) (receiver_used p) true (chained p).

(** The token of [t] is asked to stop: the callbacks registered below run.  Each
    source runs its callbacks once. *)
Fixpoint notify_stop (curr : option RuntimeId) (t : opstate V) : M (opstate V) :=
  match t with
  | OpState o (Pending (Some this) false) =>
      leaf_cancel curr this o;; mret (OpState o (Pending (Some this) true))
  | OpState _ _ => mret t
  | FlaggedOpState F s => s ← notify_stop curr s; mret (FlaggedOpState F s)
  | Parallel p cs =>
      if any_ (kind_ p) && (stop_source_ p || negb (chained p)) then mret t
      else
        cs ← mapM (notify_stop curr) cs;
        mret (Parallel (if any_ (kind_ p) then set_stop p else p) cs)
  end.

(** [canceller_(result)] *)
Definition canceller (curr : option RuntimeId) (p : ParState V) (cs : list (opstate V))
    : M (ParState V * list (opstate V)) :=
  if any_ (kind_ p) && negb (stop_source_ p) then
    cs ← mapM (notify_stop curr) cs;
    mret (set_stop p, cs)
  else mret (p, cs).

(** *** Completion *)

(** What the receiver of a parallel state is called with, through its wrapper. *)
Definition wrap_result (p : ParState V) : option (value V) :=
  match wrapper_ (kind_ p) with
  | NoWrapper => Some (Both (order_ p) (results_ p))
  | AllWrapper => Some (Results (results_ p))
  | AnyWrapper =>
      i ← order_ p !! 0%nat;
      v ← results_ p !! i;
      Some (Indexed i v)
  end.

(** [std::move(receiver_)(...)] *)
Definition call_receiver (p : ParState V) : M (ParState V * option (value V)) :=
  match wrap_result p with
  | Some v =>
      mret (mkParState (kind_ p) (order_ p) (results_ p) (completed_count_ p) true (stop_source_ p)
              (chained p), Some v)
  | None => crashed BadAccess
  end.

(** [canceller_.reset()], which the ranged version leaves out. *)
Definition reset_canceller (p : ParState V) : ParState V :=
  mkParState (kind_ p) (order_ p) (results_ p) (completed_count_ p) (receiver_used p) (stop_source_ p)
    (chained p && ranged_ (kind_ p)).

Definition receive_ (curr : option RuntimeId) (p : ParState V) (cs : list (opstate V)) (i : nat) (v : value V)
    : M (ParState V * list (opstate V) * option (value V)) :=
  '(p, cs) ← canceller curr p cs;
  let no := completed_count_ p in
  if bool_decide (no < length (order_ p) ∧ i < length (results_ p))%nat then
    let p := mkParState (kind_ p) (<[no := i]> (order_ p)) (<[i := v]> (results_ p)) (S no)
               (receiver_used p) (stop_source_ p) (chained p) in
    if bool_decide (S no = length cs) then
      '(p, r) ← call_receiver (reset_canceller p);
      mret (p, cs, r)
    else mret (p, cs, None)
  else crashed BadAccess.

(** A child has been started or has handled a completion. *)
Definition child_result (curr : option RuntimeId) (p : ParState V) (cs : list (opstate V)) (i : nat)
    (c : opstate V) (r : option (value V)) : M (ParState V * list (opstate V) * option (value V)) :=
  let cs := <[i := c]> cs in
  match r with
  | None => mret (p, cs, None)
  | Some v => receive_ curr p cs i v
  end.

(** *** Starting *)

Definition child_flags (k : pkind) (flags : Z) (i n : nat) : Z :=
  match link_ k with
  | Some F => if bool_decide (S i < n)%nat then Z.lor flags F else flags
  | None => flags
  end.

Section start.
Context (curr : option RuntimeId) (space_fuel : nat).
Context (start_child : token → Z → opstate V → M (opstate V * option (value V))).

(** The loop over the children from the [i]-th on: at most the last of them can
    complete the state. *)
Fixpoint start_children (tok : token) (flags : Z) (i todo : nat) (p : ParState V)
    (cs : list (opstate V)) (r : option (value V)) : M (ParState V * list (opstate V) * option (value V)) :=
  match todo with
  | O => mret (p, cs, r)
  | S todo =>
      match cs !! i with
      | None => crashed BadAccess
      | Some c =>
          '(c, rc) ← start_child (child_token (kind_ p) (stop_source_ p) tok)
                       (child_flags (kind_ p) flags i (length cs)) c;
          '(p, cs, r) ← child_result curr p cs i c rc;
          start_children tok flags (S i) todo p cs r
      end
  end.

Definition par_start (tok : token) (flags : Z) (p : ParState V) (cs : list (opstate V))
    : M (opstate V * option (value V)) :=
  match link_ (kind_ p) with
  | Some _ =>
      match curr with
      | None => crashed BadAccess
      | Some this =>
          on_world (on_rt_ring this (reserve_space space_fuel (Z.of_nat (length cs))));;
          '(p, cs, r) ← start_children tok flags 0 (length cs) p cs None;
          mret (Parallel p cs, r)
      end
  | None =>
      match cs with
      | [] => '(p, r) ← call_receiver p; mret (Parallel p [], r)
      | _ =>
          '(p, cs, r) ← start_children tok flags 0 (length cs) p cs None;
          mret (Parallel p cs, r)
      end
  end.
End start.

(** The nesting of an operation state, an upper bound of the depth of [start]. *)
Fixpoint height (t : opstate V) : nat :=
  match t with
  | OpState _ _ => 1
  | FlaggedOpState _ s => S (height s)
  | Parallel _ cs => S (foldr Nat.max 0%nat (map height cs))
  end.

Fixpoint start (depth : nat) (curr : option RuntimeId) (space_fuel : nat) (tok : token) (flags : Z)
    (t : opstate V) : M (opstate V * option (value V)) :=
  match depth with
  | O => crashed OutOfFuel
  | S depth =>
      match t with
      | OpState o _ => '(st, r) ← leaf_start curr tok flags o; mret (OpState o st, r)
      | FlaggedOpState F s =>
          '(s, r) ← start depth curr space_fuel tok (Z.lor flags F) s;
          mret (FlaggedOpState F s, r)
      | Parallel p cs => par_start curr space_fuel (start depth curr space_fuel) tok flags p cs
      end
  end.

(** *** Completions *)

(** The completion of the leaf at [path], with the receivers it reaches. *)
Fixpoint handle (curr : option RuntimeId) (path : list nat) (t : opstate V) (c : cqe)
    : M (opstate V * option (value V) * bool) :=
  match path, t with
  | [], OpState o st =>
      '(st, r, fin) ← leaf_handle o st c;
      mret (OpState o st, r, fin)
  | _ :: path, FlaggedOpState F s =>
      '(s, r, fin) ← handle curr path s c;
      mret (FlaggedOpState F s, r, fin)
  | i :: path, Parallel p cs =>
      match cs !! i with
      | None => crashed BadAccess
      | Some ch =>
          '(ch, rc, fin) ← handle curr path ch c;
          '(p, cs, r) ← child_result curr p cs i ch rc;
          mret (Parallel p cs, r, fin)
      end
  | _, _ => crashed BadAccess
  end.

(** [Runtime::process_cqe_] for a completion of the leaf at [path]. *)
Definition process_op (this : RuntimeId) (path : list nat) (t : opstate V) (c : cqe)
    : M (opstate V * option (value V)) :=
  '(t, r, fin) ← handle (Some this) path t c;
  (if fin : bool then on_world (resume_work_internal (Some this) this) else mret tt);;
  mret (t, r).

End op_states.
