(* ===== verification/OpStatesProps.v ===== *)
(** * Properties of the operation states

    - [delivered t]: what the receiver of [t] has been called with, read off the
      state; [wf] relates the fields of every parallel state to what its
      children have delivered; [stops_ok] says which cancellations are due.
    - [notify_ok], [receive_ok], [start_ok] and [handle_ok]: the operations
      return and keep these invariants.
    - [Section links]: what a link puts into the submission queue. *)

From stdpp Require Import base numbers list gmap.
From S2P Require Import Prelude WorkType Ring Runtime OpStates.

Set Warnings "-register-all".

(** ** Trees *)

Section trees.
Context {V : Type}.
Implicit Types (t : opstate V) (cs : list (opstate V)) (p : ParState V).

Lemma opstate_tree_ind (P : opstate V → Prop) :
  (∀ o st, P (OpState o st)) →
  (∀ F s, P s → P (FlaggedOpState F s)) →
  (∀ p cs, Forall P cs → P (Parallel p cs)) →
  ∀ t, P t.
Proof.
  intros Hl Hf Hp. fix IH 1. intros [o st | F s | p cs]; [apply Hl | apply Hf, IH |].
  apply Hp. induction cs as [|c cs IHcs]; constructor; [apply IH | apply IHcs].
Qed.

(** What the receiver of a state has been called with. *)
Fixpoint delivered (t : opstate V) : option (value V) :=
  match t with
  | OpState _ (Received v _) => Some (Leaf v)
  | OpState _ _ => None
  | FlaggedOpState _ s => delivered s
  | Parallel p cs => if receiver_used p then wrap_result p else None
  end.

Fixpoint leaves (t : opstate V) : list (op V * leaf_state V) :=
  match t with
  | OpState o st => [(o, st)]
  | FlaggedOpState _ s => leaves s
  | Parallel _ cs => concat (map leaves cs)
  end.

(** Submitted and not finished. *)
Definition live (l : op V * leaf_state V) : bool :=
  match l.2 with Pending _ _ | Received _ true => true | _ => false end.
Definition live_count (t : opstate V) : nat := length (filter (λ l, live l = true) (leaves t)).

(** Nothing of the state has been started. *)
Inductive fresh : opstate V → Prop :=
  | fresh_op o : fresh (OpState o Idle)
  | fresh_flagged F s : fresh s → fresh (FlaggedOpState F s)
  | fresh_par p cs :
      completed_count_ p = 0%nat → receiver_used p = false →
      length (order_ p) = length cs → length (results_ p) = length cs →
      Forall fresh cs → fresh (Parallel p cs).

(** A leaf that has been started, and has not been dropped without a result. *)
Definition under_way (st : leaf_state V) : Prop :=
  match st with Pending _ _ | Received _ _ => True | Idle | Dropped => False end.

(** Everything has been started. *)
Inductive started : opstate V → Prop :=
  | started_op o st : under_way st → started (OpState o st)
  | started_flagged F s : started s → started (FlaggedOpState F s)
  | started_par p cs :
      (cs = [] → link_ (kind_ p) = None → receiver_used p = true) →
      Forall started cs → started (Parallel p cs).

(** The bookkeeping of a parallel state whose children have delivered [ds]. *)
Record par_ok (p : ParState V) (ds : list (option (value V))) : Prop := {
  po_order : length (order_ p) = length ds;
  po_results : length (results_ p) = length ds;
  po_count : (completed_count_ p ≤ length ds)%nat;
  po_nodup : NoDup (take (completed_count_ p) (order_ p));
  po_in i : i ∈ take (completed_count_ p) (order_ p) ↔ ∃ v, ds !! i = Some (Some v);
  po_val i v : ds !! i = Some (Some v) → results_ p !! i = Some v;
  po_used : receiver_used p = true → completed_count_ p = length ds;
  po_full : (0 < length ds)%nat → completed_count_ p = length ds → receiver_used p = true
}.

Inductive wf : opstate V → Prop :=
  | wf_op o st : wf (OpState o st)
  | wf_flagged F s : wf s → wf (FlaggedOpState F s)
  | wf_par p cs : par_ok p (delivered <$> cs) → Forall wf cs → wf (Parallel p cs).

(** A parallel state with the [AnyWrapper] has children ([when_any]); a link fits
    into a submission queue of [d.1] entries, which no kernel thread polls. *)
Inductive shape_ok (d : Z * bool) : opstate V → Prop :=
  | shape_op o st : shape_ok d (OpState o st)
  | shape_flagged F s : shape_ok d s → shape_ok d (FlaggedOpState F s)
  | shape_par p cs :
      (wrapper_ (kind_ p) = AnyWrapper → cs ≠ []) →
      (is_Some (link_ (kind_ p)) → d.2 = false ∧ Z.of_nat (length cs) ≤ d.1) →
      Forall (shape_ok d) cs → shape_ok d (Parallel p cs).

(** The cancellations that are due when the token of the state is [tok]: a pending
    operation whose token has stopped has had its callback run, and the source of
    a [when_any] has stopped once a child has delivered. *)
Inductive stops_ok : token → opstate V → Prop :=
  | so_op tok o st :
      match st with
      | Pending cb cancelled => (is_Some tok → is_Some cb) ∧ (tok = Some true → cancelled = true)
      | _ => True
      end →
      stops_ok tok (OpState o st)
  | so_flagged tok F s : stops_ok tok s → stops_ok tok (FlaggedOpState F s)
  | so_par tok p cs :
      (any_ (kind_ p) = true →
         (tok = Some true → stop_source_ p = true) ∧
         (is_Some tok → stop_source_ p = true ∨ chained p = true) ∧
         ((0 < completed_count_ p)%nat → stop_source_ p = true)) →
      Forall (stops_ok (child_token (kind_ p) (stop_source_ p) tok)) cs →
      stops_ok tok (Parallel p cs).

(** The operations that are pending and have not been asked to cancel. *)
Definition uncancelled (t : opstate V) : list (op V * leaf_state V) :=
  filter (λ l, match l.2 with Pending _ false => true | _ => false end = true) (leaves t).

(** *** The effect of a stop request on the tree *)

Fixpoint stop_tree (t : opstate V) : opstate V :=
  match t with
  | OpState o (Pending (Some this) false) => OpState o (Pending (Some this) true)
  | OpState _ _ => t
  | FlaggedOpState F s => FlaggedOpState F (stop_tree s)
  | Parallel p cs =>
      if any_ (kind_ p) && (stop_source_ p || negb (chained p)) then t
      else Parallel (if any_ (kind_ p) then set_stop p else p) (map stop_tree cs)
  end.

Lemma delivered_stop t : delivered (stop_tree t) = delivered t.
Proof.
  induction t as [o st | F s IH | p cs IH] using opstate_tree_ind; simpl; [| done |].
  - by destruct st as [| [?|] [] | |].
  - destruct (_ && _); [done |]. by destruct (any_ (kind_ p)).
Qed.

Lemma delivered_stop_map cs : delivered <$> map stop_tree cs = delivered <$> cs.
Proof. induction cs as [|c cs IH]; [done |]. cbn. by rewrite delivered_stop, <- IH. Qed.

Lemma par_ok_set_stop p ds : par_ok (set_stop p) ds ↔ par_ok p ds.
Proof. split; intros []; split; simpl in *; assumption. Qed.

Lemma Forall_map_intro {A B} (P : A → Prop) (Q : B → Prop) (f : A → B) l :
  Forall (λ x, P x → Q (f x)) l → Forall P l → Forall Q (map f l).
Proof. induction 1; intros Hl; inversion Hl; subst; constructor; auto. Qed.

Lemma wf_stop t : wf t → wf (stop_tree t).
Proof.
  induction t as [o st | F s IH | p cs IH] using opstate_tree_ind; intros Hw; simpl.
  - destruct st as [| [?|] [] | |]; constructor.
  - inversion Hw; subst. constructor. auto.
  - inversion Hw as [| | ? ? Hp Hcs]; subst. destruct (_ && _); [done |]. constructor.
    + rewrite delivered_stop_map. destruct (any_ (kind_ p)); [by apply par_ok_set_stop | done].
    + by eapply Forall_map_intro.
Qed.

Lemma fresh_stop t : fresh t → fresh (stop_tree t).
Proof.
  induction t as [o st | F s IH | p cs IH] using opstate_tree_ind; intros Hw; simpl.
  - inversion Hw; subst. constructor.
  - inversion Hw; subst. constructor. auto.
  - inversion Hw; subst. destruct (_ && _); [done |].
    destruct (any_ (kind_ p)); constructor; simpl; rewrite ?length_map; auto; by eapply Forall_map_intro.
Qed.

Lemma started_stop t : started t → started (stop_tree t).
Proof.
  induction t as [o st | F s IH | p cs IH] using opstate_tree_ind; intros Hw; simpl.
  - inversion Hw; subst. destruct st as [| [?|] [] | |]; by constructor.
  - inversion Hw; subst. constructor. auto.
  - inversion Hw as [| | ? ? Hu Hcs]; subst. destruct (_ && _); [done |]. constructor.
    + intros ->%map_eq_nil. by destruct (any_ (kind_ p)); apply Hu.
    + by eapply Forall_map_intro.
Qed.

Lemma shape_ok_stop d t : shape_ok d t → shape_ok d (stop_tree t).
Proof.
  induction t as [o st | F s IH | p cs IH] using opstate_tree_ind; intros Hw; simpl.
  - destruct st as [| [?|] [] | |]; constructor.
  - inversion Hw; subst. constructor. auto.
  - inversion Hw as [| | ? ? Hu Hl Hcs]; subst. destruct (_ && _); [done |].
    assert (kind_ (if any_ (kind_ p) then set_stop p else p) = kind_ p) as Ek by (by destruct (any_ (kind_ p))).
    constructor; rewrite ?Ek, ?length_map; [| done | by eapply Forall_map_intro].
    intros Ha. specialize (Hu Ha). by destruct cs.
Qed.

Lemma stops_ok_stop tok t : is_Some tok → stops_ok tok t → stops_ok (Some true) (stop_tree t).
Proof.
  intros Ht. revert tok Ht. induction t as [o st | F s IH | p cs IH] using opstate_tree_ind;
    intros tok Ht Hw; inversion Hw as [? ? ? Hst | | ? ? ? Hp Hcs]; subst; simpl.
  - destruct st as [| cb x | |]; try by constructor. destruct Hst as [Hcb _].
    destruct (Hcb Ht) as [r ->]. destruct x; constructor; eauto.
  - constructor. eauto.
  - assert (∀ tok', is_Some tok' → Forall (stops_ok tok') cs → Forall (stops_ok (Some true)) (map stop_tree cs)) as Hmap.
    { intros tok' Ht' Hf. eapply Forall_map_intro; [| exact Hf]. eapply Forall_impl; [exact IH |]. simpl. eauto. }
    destruct (any_ (kind_ p)) eqn:Ea; simpl.
    + destruct (Hp eq_refl) as (_ & H2 & H3). destruct (stop_source_ p) eqn:Es; simpl.
      { constructor; rewrite ?Ea, ?Es; [auto |]. unfold child_token in *. by rewrite Ea in *. }
      destruct (H2 Ht) as [|Hc]; [done |]. rewrite Hc. simpl. constructor; simpl.
      { intros _. auto. }
      unfold child_token in *. rewrite Ea in *. by eapply (Hmap (Some false)).
    + constructor; [by rewrite Ea |]. unfold child_token in *. rewrite Ea in *. by eapply Hmap.
Qed.

Lemma stops_ok_cancelled t : stops_ok (Some true) t → uncancelled t = [].
Proof.
  unfold uncancelled. induction t as [o st | F s IH | p cs IH] using opstate_tree_ind; intros Hw;
    inversion Hw as [? ? ? Hst | | ? ? ? Hp Hcs]; subst; simpl.
  - destruct st as [| cb x | |]; try done. destruct Hst as [_ Hx]. by rewrite Hx.
  - auto.
  - assert (child_token (kind_ p) (stop_source_ p) (Some true) = Some true) as Et.
    { unfold child_token. destruct (any_ (kind_ p)); [| done]. by destruct Hp as (-> & _). }
    rewrite Et in Hcs. clear Hp Hw. induction cs as [|c cs IHcs]; [done |].
    inversion IH; inversion Hcs; subst. simpl. rewrite filter_app. rewrite IHcs, app_nil_r by done. auto.
Qed.

Lemma height_stop t : height (stop_tree t) = height t.
Proof.
  induction t as [o st | F s IH | p cs IH] using opstate_tree_ind; simpl; [| by rewrite IH |].
  - by destruct st as [| [?|] [] | |].
  - destruct (_ && _); [done |]. cbn. do 2 f_equal. rewrite map_map.
    induction IH; simpl; congruence.
Qed.

Lemma live_count_stop t : live_count (stop_tree t) = live_count t.
Proof.
  unfold live_count. induction t as [o st | F s IH | p cs IH] using opstate_tree_ind; simpl; [| done |].
  - by destruct st as [| [?|] [] | |].
  - destruct (_ && _); [done |]. simpl. induction IH as [|c cs Hc _ IHcs]; simpl; [done |].
    rewrite !filter_app, !length_app. congruence.
Qed.

End trees.

(** ** One parallel state *)

Section par.
Context {V : Type}.
Implicit Types (p : ParState V) (ds : list (option (value V))).

Lemma NoDup_seq_length (l : list nat) n : NoDup l → (∀ i, i ∈ l → (i < n)%nat) → (length l ≤ n)%nat.
Proof.
  intros Hl Hn. rewrite <- (length_seq n 0). apply submseteq_length, NoDup_submseteq; [done |].
  intros i Hi. apply elem_of_seq. specialize (Hn i Hi). lia.
Qed.

Lemma par_ok_lt p ds i : par_ok p ds → i ∈ take (completed_count_ p) (order_ p) → (i < length ds)%nat.
Proof. intros Hp [v Hv]%(po_in _ _ Hp). by eapply lookup_lt_Some. Qed.

Lemma par_ok_room p ds i :
  par_ok p ds → ds !! i = Some None → (completed_count_ p < length ds)%nat ∧ receiver_used p = false.
Proof.
  intros Hp Hi.
  assert (completed_count_ p < length ds)%nat as Hlt.
  { assert (i ∉ take (completed_count_ p) (order_ p)) as Hni.
    { intros [v Hv]%(po_in _ _ Hp). congruence. }
    pose proof (NoDup_seq_length (i :: take (completed_count_ p) (order_ p)) (length ds)) as Hle.
    simpl in Hle. rewrite length_take, (po_order _ _ Hp) in Hle. pose proof (po_count _ _ Hp).
    assert (S (completed_count_ p `min` length ds) ≤ length ds)%nat; [| lia].
    apply Hle; [constructor; [done | apply Hp] |].
    intros j [-> | Hj]%elem_of_cons; [by eapply lookup_lt_Some | by eapply par_ok_lt]. }
  split; [done |]. destruct (receiver_used p) eqn:E; [| done]. pose proof (po_used _ _ Hp E). lia.
Qed.

(** Recording the result of one more child. *)
Lemma par_ok_add p ds i v u st ch :
  par_ok p ds → ds !! i = Some None → u = bool_decide (S (completed_count_ p) = length ds) →
  par_ok (mkParState (kind_ p) (<[completed_count_ p := i]> (order_ p)) (<[i := v]> (results_ p))
            (S (completed_count_ p)) u st ch) (<[i := Some v]> ds).
Proof.
  intros Hp Hi Hu. destruct (par_ok_room _ _ _ Hp Hi) as [Hlt _].
  pose proof (lookup_lt_Some _ _ _ Hi) as Hlti.
  pose proof (po_order _ _ Hp) as Ho. pose proof (po_results _ _ Hp) as Hr.
  assert (take (S (completed_count_ p)) (<[completed_count_ p := i]> (order_ p))
          = take (completed_count_ p) (order_ p) ++ [i]) as Et.
  { erewrite take_S_r by (apply list_lookup_insert_eq; lia). by rewrite take_insert_ge by lia. }
  split; cbn [kind_ order_ results_ completed_count_ receiver_used]; rewrite ?length_insert, ?Et; auto with lia.
  - apply NoDup_snoc. split; [apply Hp |]. intros [w Hw]%(po_in _ _ Hp). congruence.
  - intros j. rewrite elem_of_app, list_elem_of_singleton, (po_in _ _ Hp). split.
    + intros [[w Hw] | ->].
      * exists w. rewrite list_lookup_insert_ne by congruence. done.
      * exists v. by apply list_lookup_insert_eq.
    + intros [w Hw]. destruct (decide (i = j)) as [-> | Hne]; [by right | left].
      rewrite list_lookup_insert_ne in Hw by done. eauto.
  - intros j w Hw. destruct (decide (i = j)) as [-> | Hne].
    + rewrite list_lookup_insert_eq in Hw by done. simplify_eq. apply list_lookup_insert_eq. lia.
    + rewrite list_lookup_insert_ne in Hw by done. rewrite list_lookup_insert_ne by done. by apply (po_val _ _ Hp).
  - intros ->. symmetry in Hu. by apply bool_decide_eq_true in Hu.
  - intros _ He. subst u. by apply bool_decide_eq_true.
Qed.

(** The completions recorded in [p] stay as they are in [p']. *)
Definition grows (p p' : ParState V) : Prop :=
  kind_ p' = kind_ p ∧ ∀ j i, (j < completed_count_ p)%nat → order_ p !! j = Some i →
    (j < completed_count_ p')%nat ∧ order_ p' !! j = Some i ∧ results_ p' !! i = results_ p !! i.

Lemma grows_refl p : grows p p.
Proof. split; auto. Qed.

Lemma grows_trans p1 p2 p3 : grows p1 p2 → grows p2 p3 → grows p1 p3.
Proof.
  intros [K1 G1] [K2 G2]. split; [congruence |]. intros j i Hj Ho.
  destruct (G1 j i Hj Ho) as (Hj2 & Ho2 & Hr2). destruct (G2 j i Hj2 Ho2) as (Hj3 & Ho3 & Hr3).
  split_and!; [done | done | congruence].
Qed.

Lemma grows_add p ds i v u st ch :
  par_ok p ds → ds !! i = Some None →
  grows p (mkParState (kind_ p) (<[completed_count_ p := i]> (order_ p)) (<[i := v]> (results_ p))
             (S (completed_count_ p)) u st ch).
Proof.
  intros Hp Hi. split; [done |]. simpl. intros j k Hj Ho. split_and!; [lia | by rewrite list_lookup_insert_ne by lia |].
  rewrite list_lookup_insert_ne; [done |]. intros ->.
  assert (k ∈ take (completed_count_ p) (order_ p)) as [w Hw]%(po_in _ _ Hp); [| congruence].
  apply elem_of_take. eauto.
Qed.

(** When all children have delivered: the order is a permutation of the indices
    and the results are theirs. *)
Lemma par_ok_complete p ds :
  par_ok p ds → completed_count_ p = length ds →
  ∃ vs, ds = Some <$> vs ∧ results_ p = vs ∧ order_ p ≡ₚ seq 0 (length vs).
Proof.
  intros Hp Hc. pose proof (po_order _ _ Hp) as Ho. pose proof (po_in _ _ Hp) as Hin.
  pose proof (po_nodup _ _ Hp) as Hnd. rewrite take_ge in Hin, Hnd by lia.
  assert (order_ p ≡ₚ seq 0 (length ds)) as Hperm.
  { apply submseteq_length_Permutation; [| by rewrite length_seq, Ho].
    apply NoDup_submseteq; [done |]. intros j [v Hv]%Hin. apply elem_of_seq.
    apply lookup_lt_Some in Hv. lia. }
  exists (results_ p). split; [| by rewrite (po_results _ _ Hp)].
  apply list_eq. intros j. rewrite list_lookup_fmap. destruct (decide (j < length ds)%nat) as [Hj | Hj].
  - assert (j ∈ order_ p) as [v Hv]%Hin by (rewrite Hperm; apply elem_of_seq; lia).
    by rewrite Hv, (po_val _ _ Hp _ _ Hv).
  - rewrite !lookup_ge_None_2; [done | rewrite (po_results _ _ Hp); lia | lia].
Qed.

Lemma par_ok_all p ds :
  par_ok p ds → (∀ i x, ds !! i = Some x → is_Some x) → completed_count_ p = length ds.
Proof.
  intros Hp Hall. pose proof (po_count _ _ Hp).
  assert (seq 0 (length ds) ⊆+ take (completed_count_ p) (order_ p)) as Hsub%submseteq_length.
  { apply NoDup_submseteq; [apply NoDup_seq |]. intros i Hi%elem_of_seq. apply (po_in _ _ Hp).
    destruct (lookup_lt_is_Some_2 ds i ltac:(lia)) as [x Hx]. destruct (Hall i x Hx) as [v ->]. eauto. }
  rewrite length_seq, length_take, (po_order _ _ Hp) in Hsub. lia.
Qed.

(** The wrapped result is defined unless a [when_any] has no child. *)
Lemma wrap_result_some p ds :
  par_ok p ds → completed_count_ p = length ds → (wrapper_ (kind_ p) = AnyWrapper → ds ≠ []) →
  ∃ v, wrap_result p = Some v.
Proof.
  intros Hp Hc Hne. destruct (par_ok_complete p ds Hp Hc) as (vs & -> & Hr & Hperm).
  unfold wrap_result. destruct (wrapper_ (kind_ p)); eauto.
  destruct (order_ p) as [|i order] eqn:Eo.
  { apply Permutation_nil in Hperm. destruct vs; [| done]. by destruct Hne. }
  assert (i < length vs)%nat as Hi.
  { assert (i ∈ seq 0 (length vs)) as Hin by (rewrite <- Hperm; set_solver). apply elem_of_seq in Hin. lia. }
  destruct (lookup_lt_is_Some_2 vs i Hi) as [v Hv]. exists (Indexed i v). simpl. by rewrite Hr, Hv.
Qed.

End par.

(** ** The environment *)

Section env.
Context {U V : Type} `{UringLaws U}.
Implicit Types (e : OEnv U V) (t : opstate V) (cs : list (opstate V)) (p : ParState V).

Definition pend (this : RuntimeId) (e : OEnv U V) : option Z := pending_works_ <$> runtimes (world e) !! this.

Definition dims (this : RuntimeId) (e : OEnv U V) : option (Z * bool) :=
  (ring_dims ∘ rt_ring_) <$> runtimes (world e) !! this.

(** The pending-work counter of [this] goes up by [d]; its ring keeps its size. *)
Definition moves (this : RuntimeId) (d : Z) (e e' : OEnv U V) : Prop :=
  (∃ z z', pend this e = Some z ∧ pend this e' = Some z' ∧ u64 z' = u64 (z + d)) ∧
  dims this e' = dims this e.

Lemma moves_refl this e : is_Some (pend this e) → moves this 0 e e.
Proof. intros [z Hz]. split; [| done]. exists z, z. by rewrite Z.add_0_r. Qed.

Lemma moves_trans this d1 d2 e1 e2 e3 :
  moves this d1 e1 e2 → moves this d2 e2 e3 → moves this (d1 + d2) e1 e3.
Proof.
  intros ((z1 & z2 & E1 & E2 & H1) & D1) ((z2' & z3 & E2' & E3 & H2) & D2). simplify_eq.
  split; [| congruence]. exists z1, z3. split_and!; [done | done |]. rewrite H2, <- wrap_add_l, H1, wrap_add_l.
  f_equal. lia.
Qed.

Lemma moves_some this d e e' : moves this d e e' → is_Some (pend this e').
Proof. intros ((z & z' & _ & E & _) & _). eauto. Qed.

Lemma moves_with_rt this e r r' d :
  runtimes (world e) !! this = Some r → u64 (pending_works_ r') = u64 (pending_works_ r + d) →
  ring_dims (rt_ring_ r') = ring_dims (rt_ring_ r) →
  moves this d e (mkOEnv (with_rt (world e) this r') (calls e)).
Proof.
  intros E Ep Ed. unfold moves, pend, dims. cbn [world]. rewrite E, with_rt_lookup. cbn.
  split; [eauto | by rewrite Ed].
Qed.

Lemma pend_lookup this e : is_Some (pend this e) → ∃ r, runtimes (world e) !! this = Some r.
Proof. unfold pend. destruct (runtimes (world e) !! this) as [r |]; [eauto | by intros [? [=]]]. Qed.

(** The handles are aligned objects, and the pending ones belong to [this]. *)
Definition leaf_good (this : RuntimeId) (l : op V * leaf_state V) : Prop :=
  aligned (handle_addr l.1) ∧ match l.2 with Pending (Some r) _ => r = this | _ => True end.
Definition good (this : RuntimeId) (t : opstate V) : Prop := Forall (leaf_good this) (leaves t).

Lemma good_par this p cs : good this (Parallel p cs) ↔ Forall (good this) cs.
Proof.
  unfold good. simpl. induction cs as [|c cs IH]; simpl; [split; constructor |].
  rewrite Forall_app, IH. split; [intros [? ?]; by constructor | by inversion 1].
Qed.

Lemma good_stop this t : good this t → good this (stop_tree t).
Proof.
  induction t as [o st | F s IH | p cs IH] using opstate_tree_ind; simpl; [| done |].
  - intros Hg. inversion Hg; subst. destruct st as [| [?|] [] | |]; by constructor.
  - destruct (_ && _); [done |]. rewrite !good_par. intros Hg. by eapply Forall_map_intro.
Qed.

Lemma leaf_cancel_ok this o e :
  aligned (handle_addr o) → is_Some (pend this e) →
  ∃ e', leaf_cancel (Some this) this o e = Done tt e' ∧ moves this 0 e e'.
Proof.
  intros [Hw Ha] [r E]%pend_lookup. unfold leaf_cancel.
  erewrite bind_done by (by apply encode_work_run).
  destruct (prep_on_ring (world e) this r (prep_cancel_ (handle_addr o + work_type_code Common)) _ E
              (prep_cancel_run _)) as (r' & Ep & slot & g & Eg & ->).
  eexists. split.
  - unfold on_world. apply zoom_done. unfold cancel_internal.
    rewrite bool_decide_eq_true_2 by done. exact Ep.
  - eapply moves_with_rt; [done | simpl; by rewrite Z.add_0_r |]. simpl.
    by rewrite prep_dims, (get_sqe_dims _ _ _ Eg).
Qed.

Lemma mapM_ok {A} (f : opstate V → ST (OEnv U V) A) (g : opstate V → A) this cs :
  Forall (λ c, ∀ e, is_Some (pend this e) → ∃ e', f c e = Done (g c) e' ∧ moves this 0 e e') cs →
  ∀ e, is_Some (pend this e) → ∃ e', mapM f cs e = Done (map g cs) e' ∧ moves this 0 e e'.
Proof.
  induction 1 as [|c cs Hc _ IH]; intros e He; [exists e; split; [done | by apply moves_refl] |].
  destruct (Hc e He) as (e1 & E1 & M1). destruct (IH e1 (moves_some _ _ _ _ M1)) as (e2 & E2 & M2).
  exists e2. split; [| by apply (moves_trans _ 0 0 _ e1)].
  simpl. erewrite bind_done by exact E1. by erewrite bind_done by exact E2.
Qed.

Lemma notify_ok this t : good this t → ∀ e, is_Some (pend this e) →
  ∃ e', notify_stop (Some this) t e = Done (stop_tree t) e' ∧ moves this 0 e e'.
Proof.
  induction t as [o st | F s IH | p cs IH] using opstate_tree_ind; intros Hg e He.
  - assert (∃ e', Done (OpState o st) e = Done (OpState o st) e' ∧ moves this 0 e e') as Hsame
      by (exists e; split; [done | by apply moves_refl]).
    inversion Hg as [|? ? [Ha Hst] _]; subst. destruct st as [| [r|] [] | |]; try exact Hsame.
    simpl in Hst. subst r. destruct (leaf_cancel_ok this o e Ha He) as (e' & E & M).
    exists e'. split; [| done]. simpl. by erewrite bind_done by exact E.
  - destruct (IH Hg e He) as (e' & E & M). exists e'. split; [| done]. simpl. by erewrite bind_done by exact E.
  - cbn [notify_stop stop_tree]. destruct (_ && _).
    { exists e. split; [done | by apply moves_refl]. }
    rewrite good_par in Hg.
    destruct (mapM_ok (notify_stop (Some this)) stop_tree this cs) with (e := e) as (e' & E & M); [| done |].
    { rewrite Forall_forall in *. eauto. }
    exists e'. split; [| done]. by erewrite bind_done by exact E.
Qed.

(** *** Results of children *)

(** What one step does to the receiver of a state. *)
Definition step_ok (t t' : opstate V) (r : option (value V)) : Prop :=
  match r with
  | Some v => delivered t = None ∧ delivered t' = Some v
  | None => delivered t' = delivered t
  end.

Record node_ok (this : RuntimeId) (d : Z * bool) (tok : token) (t : opstate V) : Prop := {
  no_wf : wf t;
  no_good : good this t;
  no_shape : shape_ok d t;
  no_stops : stops_ok tok t
}.

Lemma node_ok_par this d tok p cs :
  node_ok this d tok (Parallel p cs) ↔
  par_ok p (delivered <$> cs) ∧
  (wrapper_ (kind_ p) = AnyWrapper → cs ≠ []) ∧
  (is_Some (link_ (kind_ p)) → d.2 = false ∧ Z.of_nat (length cs) ≤ d.1) ∧
  (any_ (kind_ p) = true →
     (tok = Some true → stop_source_ p = true) ∧
     (is_Some tok → stop_source_ p = true ∨ chained p = true) ∧
     ((0 < completed_count_ p)%nat → stop_source_ p = true)) ∧
  Forall (node_ok this d (child_token (kind_ p) (stop_source_ p) tok)) cs.
Proof.
  split.
  - intros [Hw Hg Hs Ht]. inversion Hw; inversion Hs; inversion Ht; subst. rewrite good_par in Hg.
    split_and!; try done. rewrite !Forall_forall in *. intros c Hc. split; eauto.
  - intros (Hp & Ha & Hl & Hs & Hcs). rewrite Forall_forall in Hcs.
    split; [constructor | apply good_par | constructor | constructor]; try done;
      apply Forall_forall; intros c Hc; by destruct (Hcs c Hc).
Qed.

Lemma node_ok_stop this d tok t :
  is_Some tok → node_ok this d tok t → node_ok this d (Some true) (stop_tree t).
Proof.
  intros Ht [Hw Hg Hs Hst].
  split; [by apply wf_stop | by apply good_stop | by apply shape_ok_stop | by eapply stops_ok_stop].
Qed.

Lemma canceller_ok this p cs e :
  Forall (good this) cs → is_Some (pend this e) →
  let hit := any_ (kind_ p) && negb (stop_source_ p) in
  ∃ e', canceller (Some this) p cs e
        = Done (if hit then set_stop p else p, if hit then map stop_tree cs else cs) e' ∧ moves this 0 e e'.
Proof.
  intros Hg He hit. unfold canceller. fold hit. destruct hit; [| exists e; split; [done | by apply moves_refl]].
  destruct (mapM_ok (notify_stop (Some this)) stop_tree this cs) with (e := e) as (e' & E & M); [| done |].
  { rewrite Forall_forall in *. intros c Hc. apply notify_ok; auto. }
  exists e'. split; [| done]. by erewrite bind_done by exact E.
Qed.

Definition used_up (p : ParState V) : ParState V :=
  mkParState (kind_ p) (order_ p) (results_ p) (completed_count_ p) true (stop_source_ p) (chained p).

Lemma call_receiver_ok p ds (e : OEnv U V) :
  par_ok (used_up p) ds → (wrapper_ (kind_ p) = AnyWrapper → ds ≠ []) →
  ∃ v, wrap_result (used_up p) = Some v ∧ call_receiver p e = Done (used_up p, Some v) e.
Proof.
  intros Hp Hne. destruct (wrap_result_some (used_up p) ds Hp) as [v Hv]; [by apply Hp | done |].
  exists v. split; [done |]. unfold call_receiver.
  change (wrap_result p) with (wrap_result (used_up p)). by rewrite Hv.
Qed.

Lemma receive_ok this p cs i v e :
  par_ok p (<[i := None]> (delivered <$> cs)) → (delivered <$> cs) !! i = Some (Some v) →
  Forall (good this) cs → is_Some (pend this e) →
  let hit := any_ (kind_ p) && negb (stop_source_ p) in
  ∃ p' e', receive_ (Some this) p cs i v e
           = Done (p', if hit then map stop_tree cs else cs, delivered (Parallel p' cs)) e' ∧
    moves this 0 e e' ∧ grows p p' ∧ par_ok p' (delivered <$> cs) ∧
    stop_source_ p' = stop_source_ p || any_ (kind_ p).
Proof.
  intros Hp Hi Hg He hit. destruct (canceller_ok this p cs e Hg He) as (e' & Ec & M). fold hit in Ec.
  set (p1 := if hit then set_stop p else p) in *. set (cs1 := if hit then map stop_tree cs else cs) in *.
  set (ds := delivered <$> cs) in *.
  assert (par_ok p1 (<[i := None]> ds)) as Hp1 by (subst p1; destruct hit; [by apply par_ok_set_stop | done]).
  assert (grows p p1 ∧ stop_source_ p1 = stop_source_ p || any_ (kind_ p)) as (Hk & Hst).
  { subst p1 hit. destruct (any_ (kind_ p)) eqn:?, (stop_source_ p) eqn:?; simpl; (split; [by split; auto | done]). }
  assert (length cs1 = length ds) as Hl.
  { subst cs1 ds. destruct hit; by rewrite ?length_map, ?length_fmap. }
  pose proof (lookup_lt_Some _ _ _ Hi) as Hlt.
  assert ((<[i := None]> ds) !! i = Some None) as Hnone by (by apply list_lookup_insert_eq).
  assert (<[i := Some v]> (<[i := None]> ds) = ds) as Hds by (by rewrite list_insert_insert_eq, list_insert_id).
  destruct (par_ok_room _ _ _ Hp1 Hnone) as [Hroom Hunused]. rewrite length_insert in Hroom.
  pose proof (po_order _ _ Hp1) as Ho. pose proof (po_results _ _ Hp1) as Hr. rewrite length_insert in Ho, Hr.
  unfold receive_. erewrite bind_done by exact Ec. cbv beta iota zeta. rewrite bool_decide_eq_true_2 by lia.
  rewrite Hl. case_bool_decide as Hlast.
  - set (p2 := mkParState _ _ _ _ _ _ _).
    assert (par_ok (used_up (reset_canceller p2)) ds) as Hp2.
    { pose proof (par_ok_add p1 _ i v true (stop_source_ p1) (chained p1 && ranged_ (kind_ p1)) Hp1 Hnone) as Hadd.
      rewrite Hds, length_insert in Hadd. apply Hadd. symmetry. by apply bool_decide_eq_true. }
    destruct (call_receiver_ok (reset_canceller p2) ds e' Hp2) as (w & Hw & Ew).
    { intros _ Hnil. rewrite Hnil in Hlt. simpl in Hlt. lia. }
    exists (used_up (reset_canceller p2)), e'. split_and!.
    + erewrite bind_done by exact Ew. simpl in *. by rewrite Hw.
    + done.
    + eapply grows_trans; [done |]. exact (grows_add p1 _ i v _ _ _ Hp1 Hnone).
    + done.
    + done.
  - match goal with |- context [mret (?q, cs1, None)] => exists q, e' end.
    split_and!; [| done | exact (grows_trans _ _ _ Hk (grows_add p1 _ i v _ _ _ Hp1 Hnone)) | | done].
    + cbn [delivered receiver_used]. by rewrite Hunused.
    + pose proof (par_ok_add p1 _ i v (receiver_used p1) (stop_source_ p1) (chained p1) Hp1 Hnone) as Hadd.
      rewrite Hds, length_insert, Hunused in Hadd. rewrite Hunused. apply Hadd. symmetry. by apply bool_decide_eq_false.
Qed.

Lemma child_result_ok this d tok p cs i c c' r e :
  node_ok this d tok (Parallel p cs) → cs !! i = Some c →
  node_ok this d (child_token (kind_ p) (stop_source_ p) tok) c' →
  step_ok c c' r → is_Some (pend this e) →
  ∃ p' cs' r' e', child_result (Some this) p cs i c' r e = Done (p', cs', r') e' ∧ moves this 0 e e' ∧
    (cs' = <[i := c']> cs ∨ cs' = map stop_tree (<[i := c']> cs)) ∧ grows p p' ∧
    node_ok this d tok (Parallel p' cs') ∧ step_ok (Parallel p cs) (Parallel p' cs') r'.
Proof.
  intros Hn Hi Hc' Hstep He. apply node_ok_par in Hn as (Hp & Ha & Hl & Hs & Hcs).
  assert (Forall (node_ok this d (child_token (kind_ p) (stop_source_ p) tok)) (<[i := c']> cs)) as Hcs'
    by (by apply Forall_insert).
  assert (∀ l : list (opstate V), length l = length cs → cs ≠ [] → l ≠ []) as Hne by (intros [] ?; by destruct cs).
  pose proof (lookup_lt_Some _ _ _ Hi) as Hlt.
  unfold child_result. destruct r as [v|]; simpl in Hstep.
  - destruct Hstep as [Hd Hd'].
    destruct (receive_ok this p (<[i := c']> cs) i v e) as (p' & e' & E & M & Hgr & Hp' & Hst). all: cycle -1.
    { pose proof (proj1 Hgr) as Hk. eexists p', _, _, e'. split; [exact E |]. split_and!; [done | | done | |].
      * destruct (_ && _); auto.
      * apply node_ok_par. rewrite Hk. split_and!.
        -- destruct (_ && _); [by rewrite delivered_stop_map | done].
        -- intros Hw. apply Hne; [| auto]. destruct (_ && _); by rewrite ?length_map, length_insert.
        -- intros Hlk. destruct (_ && _); rewrite ?length_map, length_insert; auto.
        -- intros Hany. rewrite Hst, Hany, orb_true_r. auto.
        -- rewrite Hst. unfold child_token in *. destruct (any_ (kind_ p)); simpl; [| by rewrite ?orb_false_r].
           rewrite orb_true_r. destruct (stop_source_ p); simpl; [done |].
           apply Forall_map. eapply Forall_impl; [exact Hcs' |]. intros x Hx.
           by apply (node_ok_stop this d (Some false)).
      * assert (receiver_used p = false) as Hu.
        { apply (par_ok_room p (delivered <$> cs) i); [done |]. by rewrite list_lookup_fmap, Hi, <- Hd. }
        unfold step_ok. simpl. rewrite Hu. destruct (receiver_used p') eqn:Hu'; [| done].
        destruct (wrap_result_some p' (delivered <$> <[i := c']> cs)) as [w Hw]; [done | by apply Hp' | |].
        { intros _ Hnil. apply (f_equal length) in Hnil. rewrite length_fmap, length_insert in Hnil. simpl in Hnil. lia. }
        by rewrite Hw. }
    + rewrite list_fmap_insert, list_insert_insert_eq, list_insert_id; [done |].
      by rewrite list_lookup_fmap, Hi, <- Hd.
    + rewrite list_lookup_fmap, list_lookup_insert_eq by done. simpl. by rewrite Hd'.
    + eapply Forall_impl; [exact Hcs' |]. intros x Hx. apply Hx.
    + done.
  - eexists p, _, None, e. split; [done |]. split_and!; [by apply moves_refl | by left | apply grows_refl | | done].
    apply node_ok_par. split_and!; rewrite ?length_insert; try done.
    + by rewrite list_fmap_insert, Hstep, <- list_fmap_insert, list_insert_id.
    + intros Hw. apply Hne; [by rewrite length_insert | auto].
Qed.

(** *** Starting *)

Lemma moves_calls this e l : is_Some (pend this e) → moves this 0 e (mkOEnv (world e) l).
Proof. intros He. exact (moves_refl this e He). Qed.

Lemma fail_ok this o res e :
  res < 0 → is_Some (pend this e) →
  ∃ v e', fail_ o res e = Done (Received v false, Some (Leaf v)) e' ∧ moves this 0 e e'.
Proof.
  intros Hr He. unfold fail_. rewrite bind_assert by (by apply Z.ltb_lt).
  exists (cqe_handler_ o (mkCqe 0 res 0)). unfold leaf_handle. destruct (handle_kind_ o); simpl.
  - exists e. split; [done | by apply moves_refl].
  - exists e. split; [done | by apply moves_refl].
  - eexists. split; [done | by apply moves_calls].
Qed.

Lemma node_ok_received this d tok o v alive : aligned (handle_addr o) → node_ok this d tok (OpState o (Received v alive)).
Proof. intros Ha. split; constructor; done. Qed.

Lemma on_world_ring {A} this e r (m : ST (Ring U) A) a g :
  runtimes (world e) !! this = Some r → m (rt_ring_ r) = Done a g →
  on_world (V := V) (on_rt_ring this m) e = Done a (mkOEnv (with_rt (world e) this (set_ring g r)) (calls e)).
Proof. intros E Em. unfold on_world. by erewrite zoom_done by (by apply on_rt_ring_run). Qed.

(** Submitting one operation. *)
Lemma leaf_submit_ok this tok flags o opcode pf e r :
  aligned (handle_addr o) → runtimes (world e) !! this = Some r →
  tok ≠ Some true → prep_func_ o = Some (opcode, pf) →
  ∃ slot g g', get_sqe (rt_ring_ r) = Done slot g ∧
    maybe_submit (mkRing (uring_prep slot (op_sqe opcode pf flags (handle_addr o)) (ring_ g))
                    (submit_batch_ g) (maybe_submit_count_ g)) = Done tt g' ∧
    ring_dims g' = ring_dims (rt_ring_ r) ∧
    leaf_start (Some this) tok flags o e
    = Done (Pending ((λ _, this) <$> tok) false, None)
        (mkOEnv (with_rt (world e) this (set_ring g' (set_pending (u64 (pending_works_ r + 1)) r))) (calls e)).
Proof.
  intros [Hw Ha] Er Htok Hprep. destruct (get_sqe_ok (rt_ring_ r)) as (slot & g & Eg & _).
  set (s := op_sqe opcode pf flags (handle_addr o)).
  destruct (maybe_submit_ok (mkRing (uring_prep slot s (ring_ g)) (submit_batch_ g) (maybe_submit_count_ g)))
    as (g' & Eg' & Hd).
  exists slot, g, g'. split_and!; [done | done | by rewrite Hd, prep_dims, (get_sqe_dims _ _ _ Eg) |].
  unfold leaf_start. rewrite bool_decide_eq_false_2 by done. rewrite Hprep.
  erewrite bind_done by (by apply (on_world_ring this e r)).
  erewrite bind_done.
  2:{ unfold on_world. erewrite zoom_done; [reflexivity |]. unfold pend_work_internal.
      rewrite bind_assert by (by apply bool_decide_eq_true_2). apply upd_rt_run, with_rt_lookup. }
  erewrite bind_done by (by apply encode_work_run). rewrite Z.add_0_r. fold s.
  erewrite bind_done by (apply on_world_ring; [apply with_rt_lookup | reflexivity]).
  erewrite bind_done by (apply on_world_ring; [apply with_rt_lookup | exact Eg']).
  cbn [world]. by rewrite !with_rt_twice.
Qed.

Lemma leaf_start_ok this d tok flags o e :
  aligned (handle_addr o) → is_Some (pend this e) →
  ∃ st r e', leaf_start (Some this) tok flags o e = Done (st, r) e' ∧
    moves this (Z.of_nat (live_count (OpState o st))) e e' ∧ node_ok this d tok (OpState o st) ∧
    under_way st ∧ delivered (OpState o st) = r.
Proof.
  intros Ha He.
  assert (∀ res, res < 0 → leaf_start (Some this) tok flags o e = fail_ o res e →
    ∃ st r e', leaf_start (Some this) tok flags o e = Done (st, r) e' ∧
      moves this (Z.of_nat (live_count (OpState o st))) e e' ∧ node_ok this d tok (OpState o st) ∧
      under_way st ∧ delivered (OpState o st) = r) as Hfail.
  { intros res Hr Es. destruct (fail_ok this o res e Hr He) as (v & e' & Ef & M).
    exists (Received v false), (Some (Leaf v)), e'. rewrite Es.
    split_and!; [done | done | by apply node_ok_received | done | done]. }
  destruct (decide (tok = Some true)) as [-> | Htok]; [apply (Hfail (- ECANCELED)); done |].
  destruct (prep_func_ o) as [[opcode pf]|] eqn:Ep.
  2:{ apply (Hfail (- EINVAL)); [done |]. unfold leaf_start. by rewrite bool_decide_eq_false_2, Ep by done. }
  destruct (pend_lookup this e He) as [r Er].
  destruct (leaf_submit_ok this tok flags o opcode pf e r Ha Er Htok Ep) as (slot & g & g' & _ & _ & Hd & Es).
  eexists _, _, _. split; [exact Es |]. split_and!; [| | done | done].
  - apply (moves_with_rt this e r); [done | | done]. simpl. apply wrap_wrap.
  - split; [constructor | | constructor |].
    + constructor; [| constructor]. split; [done |]. by destruct tok.
    + constructor. split; [by intros [b ->] | done].
Qed.

Lemma live_count_insert p cs i c c' :
  cs !! i = Some c →
  (live_count (Parallel p (<[i := c']> cs)) + live_count c = live_count (Parallel p cs) + live_count c')%nat.
Proof.
  revert i. unfold live_count. simpl. induction cs as [|c0 cs IH]; intros [|i] Hi; simplify_eq/=.
  - rewrite !filter_app, !length_app. lia.
  - rewrite !filter_app, !length_app. specialize (IH i Hi). lia.
Qed.

Lemma live_count_stop_map p cs : live_count (Parallel p (map stop_tree cs)) = live_count (Parallel p cs).
Proof.
  induction cs as [|c cs IH]; [done |]. unfold live_count in *. simpl in *.
  rewrite !filter_app, !length_app, IH. f_equal. apply live_count_stop.
Qed.

Lemma fresh_facts t : fresh t → delivered t = None ∧ live_count t = 0%nat.
Proof.
  unfold live_count. induction t as [o st | F s IH | p cs IH] using opstate_tree_ind; intros Hf; inversion Hf as [| | ? ? ? Hu ? ? Hcs]; subst; simpl.
  - done.
  - auto.
  - rewrite Hu. split; [done |]. clear -IH Hcs. induction cs as [|c cs IHcs]; [done |].
    inversion IH; inversion Hcs; subst. simpl. rewrite filter_app, length_app, IHcs by done.
    rewrite Nat.add_0_r. by apply H1.
Qed.

(** What [start] does to one state. *)
Definition starts (this : RuntimeId) (d : Z * bool) (f : token → Z → opstate V → ST (OEnv U V) (opstate V * option (value V)))
    (t : opstate V) : Prop :=
  ∀ tok flags e, fresh t → node_ok this d tok t → is_Some (pend this e) → dims this e = Some d →
  ∃ t' r e', f tok flags t e = Done (t', r) e' ∧ moves this (Z.of_nat (live_count t')) e e' ∧
    node_ok this d tok t' ∧ started t' ∧ delivered t' = r.

Lemma moves_dims this z e e' d : moves this z e e' → dims this e = Some d → dims this e' = Some d.
Proof. intros [_ ->]. done. Qed.

Lemma start_children_ok this d f tok flags depth :
  (∀ c, (height c ≤ depth)%nat → starts this d f c) →
  ∀ todo i p cs r e, (i + todo = length cs)%nat → node_ok this d tok (Parallel p cs) →
    (∀ j c, cs !! j = Some c → (j < i)%nat → started c) →
    (∀ j c, cs !! j = Some c → (i ≤ j)%nat → fresh c ∧ (height c ≤ depth)%nat) →
    (todo = 0%nat → r = delivered (Parallel p cs)) →
    is_Some (pend this e) → dims this e = Some d →
  ∃ p' cs' r' e', start_children (Some this) f tok flags i todo p cs r e = Done (p', cs', r') e' ∧
    moves this (Z.of_nat (live_count (Parallel p' cs')) - Z.of_nat (live_count (Parallel p cs))) e e' ∧
    node_ok this d tok (Parallel p' cs') ∧ Forall started cs' ∧ length cs' = length cs ∧
    kind_ p' = kind_ p ∧ r' = delivered (Parallel p' cs').
Proof.
  intros Hstart. induction todo as [|todo IH]; intros i p cs r e Hlen Hn Hst Hfr Hr He Hd.
  { exists p, cs, r, e. split; [done |]. split_and!; auto.
    - rewrite Z.sub_diag. by apply moves_refl.
    - apply Forall_lookup. intros j c Hj. apply (Hst j c Hj). apply lookup_lt_Some in Hj. lia. }
  destruct (lookup_lt_is_Some_2 cs i ltac:(lia)) as [c Hc]. cbn [start_children]. rewrite Hc.
  destruct (Hfr i c Hc (le_n i)) as [Hfc Hh]. destruct (fresh_facts c Hfc) as [Hdc Hlc].
  assert (node_ok this d (child_token (kind_ p) (stop_source_ p) tok) c) as Hnc.
  { apply node_ok_par in Hn as (_ & _ & _ & _ & Hcs). by eapply Forall_lookup_1 in Hcs. }
  destruct (Hstart c Hh _ (child_flags (kind_ p) flags i (length cs)) e Hfc Hnc He Hd)
    as (c' & rc & e1 & E1 & M1 & Hnc' & Hsc' & Hrc).
  erewrite bind_done by exact E1. cbv beta iota.
  assert (step_ok c c' rc) as Hstep.
  { unfold step_ok. rewrite Hdc, Hrc. by destruct rc. }
  destruct (child_result_ok this d tok p cs i c c' rc e1 Hn Hc Hnc' Hstep (moves_some _ _ _ _ M1))
    as (p' & cs' & r' & e2 & E2 & M2 & Hcs' & Hk & Hn' & Hstep').
  erewrite bind_done by exact E2. cbv beta iota.
  assert (length cs' = length cs) as Hlen' by (destruct Hcs' as [-> | ->]; by rewrite ?length_map, length_insert).
  assert (∀ j c1, cs' !! j = Some c1 → ∃ c0, (<[i := c']> cs) !! j = Some c0 ∧ (c1 = c0 ∨ c1 = stop_tree c0)) as Hlook.
  { intros j c1. destruct Hcs' as [-> | ->]; [eauto |]. rewrite list_lookup_fmap.
    destruct (<[i := c']> cs !! j) as [c0|]; [| done]. intros [= <-]. eauto. }
  destruct (IH (S i) p' cs' r' e2) as (p'' & cs'' & r'' & e3 & E3 & M3 & Hn'' & Hs'' & Hl'' & Hk'' & Hr'').
  - lia.
  - done.
  - intros j c1 [c0 [Hj Hc1]]%Hlook Hlt. assert (started c0) as Hs0.
    { destruct (decide (i = j)) as [-> | Hne].
      - rewrite list_lookup_insert_eq in Hj by (apply lookup_lt_Some in Hc; lia). by simplify_eq.
      - rewrite list_lookup_insert_ne in Hj by done. apply (Hst j c0 Hj). lia. }
    destruct Hc1 as [-> | ->]; [done | by apply started_stop].
  - intros j c1 [c0 [Hj Hc1]]%Hlook Hle. rewrite list_lookup_insert_ne in Hj by lia.
    destruct (Hfr j c0 Hj ltac:(lia)) as [Hf0 Hh0].
    destruct Hc1 as [-> | ->]; [done |]. split; [by apply fresh_stop | by rewrite height_stop].
  - intros _. assert (delivered (Parallel p cs) = None) as Hnone.
    { simpl. apply node_ok_par in Hn as [Hp _]. destruct (par_ok_room p (delivered <$> cs) i Hp) as [_ ->]; [| done].
      by rewrite list_lookup_fmap, Hc, <- Hdc. }
    unfold step_ok in Hstep'. rewrite Hnone in Hstep'. by destruct r'; [destruct Hstep' |].
  - by eapply moves_some.
  - by eapply moves_dims, moves_dims.
  - exists p'', cs'', r'', e3. split; [done |]. split_and!; [| done | done | congruence | destruct Hk; congruence | done].
    assert (live_count (Parallel p' cs') = live_count (Parallel p (<[i := c']> cs))) as Hlv.
    { destruct Hcs' as [-> | ->]; [done | by rewrite live_count_stop_map]. }
    pose proof (live_count_insert p cs i c c' Hc).
    pose proof (moves_trans _ _ _ _ _ _ (moves_trans _ _ _ _ _ _ M1 M2) M3) as M.
    assert (Z.of_nat (live_count (Parallel p'' cs'')) - Z.of_nat (live_count (Parallel p cs))
            = Z.of_nat (live_count c') + 0 + (Z.of_nat (live_count (Parallel p'' cs'')) - Z.of_nat (live_count (Parallel p' cs'))))
      as -> by lia. done.
Qed.

Lemma height_child p cs c depth :
  (height (Parallel p cs) ≤ S depth)%nat → c ∈ cs → (height c ≤ depth)%nat.
Proof.
  simpl. intros Hh Hc. assert (height c ≤ foldr Nat.max 0 (map height cs))%nat; [| lia].
  clear Hh. induction cs as [|c0 cs IH]; [set_solver |]. simpl.
  apply elem_of_cons in Hc as [-> | Hc]; [lia | specialize (IH Hc); lia].
Qed.

Lemma started_par_intro p cs : cs ≠ [] ∨ is_Some (link_ (kind_ p)) → Forall started cs → started (Parallel p cs).
Proof. intros Hne Hcs. constructor; [| done]. intros -> Hl. rewrite Hl in Hne. by destruct Hne as [| [? ?]]. Qed.

Lemma reserve_ok this d n f e :
  is_Some (pend this e) → dims this e = Some d → d.2 = false → n ≤ d.1 → (reserve_turns U d.1 ≤ f)%nat →
  ∃ e', on_world (on_rt_ring this (reserve_space f n)) e = Done tt e' ∧ moves this 0 e e'.
Proof.
  intros [r Er]%pend_lookup Hd Hp Hn Hf. unfold dims in Hd. rewrite Er in Hd. simpl in Hd.
  injection Hd as <-. destruct (reserve_space_ok (rt_ring_ r) n f Hp Hn Hf) as (g & E & _ & Hg & _).
  eexists. split; [by apply (on_world_ring this e r) |].
  apply (moves_with_rt this e r); [done | by rewrite Z.add_0_r | done].
Qed.

Lemma start_children_from this d f tok flags depth p cs e :
  (∀ c, (height c ≤ depth)%nat → starts this d f c) →
  (height (Parallel p cs) ≤ S depth)%nat → fresh (Parallel p cs) → node_ok this d tok (Parallel p cs) →
  cs ≠ [] ∨ is_Some (link_ (kind_ p)) → is_Some (pend this e) → dims this e = Some d →
  ∃ t' r e', ('(p, cs, r) ← start_children (Some this) f tok flags 0 (length cs) p cs None;
              mret (Parallel p cs, r)) e = Done (t', r) e' ∧
    moves this (Z.of_nat (live_count t')) e e' ∧ node_ok this d tok t' ∧ started t' ∧ delivered t' = r.
Proof.
  intros Hstart Hh Hf Hn Hne He Hd. destruct (fresh_facts _ Hf) as [Hdel Hlive].
  destruct (start_children_ok this d f tok flags depth Hstart (length cs) 0 p cs None e)
    as (p' & cs' & r' & e' & E & M & Hn' & Hs' & Hl' & Hk' & Hr'); try done.
  - intros j c Hj. lia.
  - intros j c Hj _. inversion Hf as [| | ? ? ? ? ? ? Hcs]; subst. split; [by eapply Forall_lookup_1 in Hcs |].
    eapply height_child; [done |]. by eapply list_elem_of_lookup_2.
  - exists (Parallel p' cs'), r', e'. split; [by erewrite bind_done by exact E |].
    rewrite Hlive, Z.sub_0_r in M. split_and!; [done | done | | done].
    apply started_par_intro; [| done]. rewrite Hk'. destruct Hne as [Hne | Hlk]; [left | by right].
    by intros ->; destruct cs.
Qed.

Lemma start_ok this d f depth :
  (reserve_turns U d.1 ≤ f)%nat → ∀ t, (height t ≤ depth)%nat → starts this d (start depth (Some this) f) t.
Proof.
  intros Hturns. induction depth as [|depth IH]; intros t Hh; [destruct t; simpl in Hh; lia |].
  intros tok flags e Hf Hn He Hd. destruct t as [o st | F s | p cs].
  - assert (aligned (handle_addr o)) as Ha by (destruct Hn as [_ Hg _ _]; inversion Hg as [|? ? [? ?] ?]; done).
    destruct (leaf_start_ok this d tok flags o e Ha He) as (st' & r & e' & E & M & Hn' & Hs & Hr).
    exists (OpState o st'), r, e'. split; [simpl; by erewrite bind_done by exact E |].
    split_and!; [done | done | by constructor | done].
  - assert (node_ok this d tok s ∧ fresh s) as [Hns Hfs].
    { destruct Hn as [Hw Hg Hs Ht]. inversion Hw; inversion Hs; inversion Ht; inversion Hf; by subst. }
    simpl in Hh. destruct (IH s ltac:(lia) tok (Z.lor flags F) e Hfs Hns He Hd)
      as (s' & r & e' & E & M & [? ? ? ?] & Hs & Hr).
    exists (FlaggedOpState F s'), r, e'. split; [simpl; by erewrite bind_done by exact E |].
    split_and!; [done | by split; try constructor | by constructor | done].
  - apply node_ok_par in Hn as Hn'. destruct Hn' as (Hp & Ha & Hl & _ & _).
    cbn [start]. unfold par_start. destruct (link_ (kind_ p)) as [F|] eqn:El.
    + destruct Hl as [Hd2 Hd1]; [eauto |].
      destruct (reserve_ok this d (Z.of_nat (length cs)) f e He Hd Hd2 Hd1 Hturns) as (e1 & E1 & M1).
      erewrite bind_done by exact E1.
      destruct (start_children_from this d (start depth (Some this) f) tok flags depth p cs e1)
        as (t' & r & e2 & E2 & M2 & Ht'); try done.
      { right. rewrite El. eauto. }
      { by eapply moves_some. }
      { by eapply moves_dims. }
      exists t', r, e2. split; [exact E2 |]. split; [| done]. by apply (moves_trans _ 0 _ _ e1).
    + destruct cs as [|c cs].
      * inversion Hf as [| | ? ? Hc0 Hu ? ? ?]; subst.
        assert (par_ok (used_up p) (delivered <$> @nil (opstate V))) as Hp'.
        { destruct Hp. split; try done. }
        destruct (call_receiver_ok p (delivered <$> @nil (opstate V)) e Hp') as (v & Hv & Ev).
        { intros Hw. by destruct (Ha Hw). }
        exists (Parallel (used_up p) []), (Some v), e. split; [by erewrite bind_done by exact Ev |].
        split_and!; [by apply moves_refl | | by constructor | done].
        apply node_ok_par. apply node_ok_par in Hn as (_ & ? & ? & ? & ?). done.
      * apply (start_children_from this d (start depth (Some this) f) tok flags depth p (c :: cs) e);
          try done. by left.
Qed.

(** *** Completions *)

Fixpoint leaf_at (path : list nat) (t : opstate V) : option (op V * leaf_state V) :=
  match path, t with
  | [], OpState o st => Some (o, st)
  | _ :: path, FlaggedOpState _ s => leaf_at path s
  | i :: path, Parallel _ cs => c ← cs !! i; leaf_at path c
  | _, _ => None
  end.

Definition tree_grows (t t' : opstate V) : Prop :=
  match t, t' with
  | OpState _ _, OpState _ _ | FlaggedOpState _ _, FlaggedOpState _ _ => True
  | Parallel p _, Parallel p' _ => grows p p'
  | _, _ => False
  end.

(** The completions the kernel posts: for an operation that is pending, and the
    notification of a zero-copy operation after its result. *)
Definition accepts (l : op V * leaf_state V) (c : cqe) : bool :=
  let notif := negb (has_flag (cqe_flags c) IORING_CQE_F_MORE) && has_flag (cqe_flags c) IORING_CQE_F_NOTIF in
  match l.2, handle_kind_ l.1 with
  | Pending _ _, ZeroCopy => negb notif
  | Pending _ _, _ => true
  | Received _ true, ZeroCopy => notif
  | _, _ => false
  end.

Lemma leaf_handle_ok this d tok o st c e :
  node_ok this d tok (OpState o st) → accepts (o, st) c = true → is_Some (pend this e) →
  ∃ st' r fin e', leaf_handle o st c e = Done (st', r, fin) e' ∧ moves this 0 e e' ∧
    node_ok this d tok (OpState o st') ∧ under_way st' ∧ step_ok (OpState o st) (OpState o st') r ∧
    (live_count (OpState o st') + Nat.b2n fin = live_count (OpState o st))%nat.
Proof.
  intros Hn Hacc He. unfold accepts in Hacc. simpl in Hacc.
  assert (aligned (handle_addr o)) as Ha by (destruct Hn as [_ Hg _ _]; inversion Hg as [|? ? [? ?] ?]; done).
  assert (∀ v alive, node_ok this d tok (OpState o (Received v alive))) as Hnr by (intros; by apply node_ok_received).
  unfold leaf_handle.
  destruct st as [| cb x | v [] |]; try (by destruct (handle_kind_ o)).
  - destruct (handle_kind_ o).
    + eexists _, _, _, e. split; [done |]. split_and!; (by apply moves_refl) || done || apply Hnr.
    + simpl. destruct (has_flag (cqe_flags c) IORING_CQE_F_MORE).
      * eexists _, _, _, _. split; [done |]. split_and!; (by apply moves_calls) || done || apply Hnr.
      * eexists _, _, _, e. split; [done |]. split_and!; (by apply moves_refl) || done || apply Hnr.
    + destruct (has_flag (cqe_flags c) IORING_CQE_F_MORE); simpl in Hacc.
      * eexists _, _, _, e. split; [done |]. split_and!; (by apply moves_refl) || done || apply Hnr.
      * apply negb_true_iff in Hacc. rewrite Hacc.
        eexists _, _, _, _. split; [done |]. split_and!; (by apply moves_calls) || done || apply Hnr.
  - destruct (handle_kind_ o); try done. apply andb_true_iff in Hacc as [Hm Hnot].
    apply negb_true_iff in Hm. rewrite Hm, Hnot.
    eexists _, _, _, _. split; [done |]. split_and!; (by apply moves_calls) || done || apply Hnr.
Qed.

Lemma handle_ok this d c : ∀ path tok t o st e,
  node_ok this d tok t → started t → leaf_at path t = Some (o, st) → accepts (o, st) c = true →
  is_Some (pend this e) →
  ∃ t' r fin e', handle (Some this) path t c e = Done (t', r, fin) e' ∧ moves this 0 e e' ∧
    node_ok this d tok t' ∧ started t' ∧ step_ok t t' r ∧ tree_grows t t' ∧
    (live_count t' + Nat.b2n fin = live_count t)%nat.
Proof.
  induction path as [|i path IH]; intros tok t o st e Hn Hs Hl Hacc He;
    destruct t as [o' st' | F s | p cs]; try done; simpl in Hl.
  - injection Hl as -> ->. destruct (leaf_handle_ok this d tok o st c e Hn Hacc He)
      as (st' & r & fin & e' & E & M & Hn' & Hi & Hstep & Hlive).
    exists (OpState o st'), r, fin, e'. split; [simpl; by erewrite bind_done by exact E |].
    split_and!; [done | done | by constructor | done | done | done].
  - assert (node_ok this d tok s ∧ started s) as [Hns Hss].
    { destruct Hn as [Hw Hg Hsh Ht]. inversion Hw; inversion Hsh; inversion Ht; inversion Hs; by subst. }
    destruct (IH tok s o st e Hns Hss Hl Hacc He) as (s' & r & fin & e' & E & M & [? ? ? ?] & Hs' & Hstep & _ & Hlive).
    exists (FlaggedOpState F s'), r, fin, e'. split; [simpl; by erewrite bind_done by exact E |].
    split_and!; [done | by split; try constructor | by constructor | done | done | done].
  - destruct (cs !! i) as [ch|] eqn:Hi; [| done]. simpl in Hl.
    inversion Hs as [| | ? ? Hu Hss]; subst.
    assert (node_ok this d (child_token (kind_ p) (stop_source_ p) tok) ch) as Hnc.
    { apply node_ok_par in Hn as (_ & _ & _ & _ & Hcs). by eapply Forall_lookup_1 in Hcs. }
    destruct (IH _ ch o st e Hnc ltac:(by eapply Forall_lookup_1 in Hss) Hl Hacc He)
      as (ch' & rc & fin & e1 & E1 & M1 & Hnc' & Hsc' & Hstep & _ & Hlive).
    destruct (child_result_ok this d tok p cs i ch ch' rc e1 Hn Hi Hnc' Hstep (moves_some _ _ _ _ M1))
      as (p' & cs' & r' & e2 & E2 & M2 & Hcs' & Hk & Hn' & Hstep').
    exists (Parallel p' cs'), r', fin, e2. split_and!.
    + simpl. rewrite Hi. erewrite bind_done by exact E1. cbv beta iota. by erewrite bind_done by exact E2.
    + by apply (moves_trans _ 0 0 _ e1).
    + done.
    + assert (Forall started (<[i := ch']> cs)) as Hins by (by apply Forall_insert).
      apply started_par_intro.
      * left. intros ->. apply lookup_lt_Some in Hi. destruct Hcs' as [Hnil | Hnil]; symmetry in Hnil;
          [| apply map_eq_nil in Hnil]; apply (f_equal length) in Hnil; rewrite length_insert in Hnil; simpl in Hnil; lia.
      * destruct Hcs' as [-> | ->]; [done |]. apply Forall_map. eapply Forall_impl; [exact Hins |].
        intros x. apply started_stop.
    + done.
    + done.
    + pose proof (live_count_insert p cs i ch ch' Hi).
      assert (live_count (Parallel p' cs') = live_count (Parallel p (<[i := ch']> cs))) as ->; [| lia].
      destruct Hcs' as [-> | ->]; [done | by rewrite live_count_stop_map].
Qed.

Lemma process_op_ok this d path tok t o st c e :
  node_ok this d tok t → started t → leaf_at path t = Some (o, st) → accepts (o, st) c = true →
  is_Some (pend this e) →
  ∃ t' r e', process_op this path t c e = Done (t', r) e' ∧
    moves this (Z.of_nat (live_count t') - Z.of_nat (live_count t)) e e' ∧
    node_ok this d tok t' ∧ started t' ∧ step_ok t t' r ∧ tree_grows t t'.
Proof.
  intros Hn Hs Hl Hacc He. destruct (handle_ok this d c path tok t o st e Hn Hs Hl Hacc He)
    as (t' & r & fin & e1 & E1 & M1 & Hn' & Hs' & Hstep & Hgr & Hlive).
  unfold process_op. erewrite bind_done by exact E1. cbv beta iota. destruct fin; simpl in Hlive.
  - destruct (pend_lookup this e1 (moves_some _ _ _ _ M1)) as [r1 Er1].
    exists t', r, (mkOEnv (with_rt (world e1) this (set_pending (u64 (pending_works_ r1 - 1)) r1)) (calls e1)).
    split.
    { erewrite bind_done; [done |]. unfold on_world. erewrite zoom_done; [reflexivity |]. unfold resume_work_internal.
      rewrite bind_assert by (by apply bool_decide_eq_true_2). by apply (upd_rt_run (world e1) this r1 (λ r, set_pending (u64 (pending_works_ r - 1)) r)). }
    split; [| done]. replace (Z.of_nat (live_count t') - Z.of_nat (live_count t)) with (0 + - 1) by lia.
    apply (moves_trans _ _ _ _ e1); [done |].
    apply (moves_with_rt this e1 r1); [done | simpl; apply wrap_wrap | done].
  - exists t', r, e1. split; [done |]. split; [| done].
    by replace (Z.of_nat (live_count t') - Z.of_nat (live_count t)) with 0 by lia.
Qed.

End env.

(** ** Runs of an operation *)

Section runs.
Context {U V : Type} `{UringLaws U}.
Implicit Types (e : OEnv U V) (t : opstate V).

(** What a sender has to satisfy: aligned handles, children for [when_any], and
    links that fit into the queue. *)
Inductive sender_ok (d : Z * bool) : sender V → Prop :=
  | sender_ok_op o : aligned (handle_addr o) → sender_ok d (OpSender o)
  | sender_ok_flagged F s : sender_ok d s → sender_ok d (FlaggedOpSender F s)
  | sender_ok_par k ss :
      (wrapper_ k = AnyWrapper → ss ≠ []) →
      (is_Some (link_ k) → d.2 = false ∧ Z.of_nat (length ss) ≤ d.1) →
      Forall (sender_ok d) ss → sender_ok d (ParallelSender k ss).

Lemma sender_tree_ind (P : sender V → Prop) :
  (∀ o, P (OpSender o)) → (∀ F s, P s → P (FlaggedOpSender F s)) →
  (∀ k ss, Forall P ss → P (ParallelSender k ss)) → ∀ s, P s.
Proof.
  intros Hl Hf Hp. fix IH 1. intros [o | F s | k ss]; [apply Hl | apply Hf, IH |].
  apply Hp. induction ss as [|s ss IHss]; constructor; [apply IH | apply IHss].
Qed.

Lemma par_ok_new k n (tok : token) : par_ok (V := V) (par_new k n tok) (replicate n None).
Proof.
  split; simpl; rewrite ?length_replicate; try done; try lia.
  - constructor.
  - intros i. split; [by intros ?%not_elem_of_nil | intros [v Hv]].
    apply lookup_replicate in Hv as [? _]. done.
  - intros i v Hv. apply lookup_replicate in Hv as [? _]. done.
Qed.

Lemma fresh_delivered (cs : list (opstate V)) : Forall fresh cs → delivered <$> cs = replicate (length cs) None.
Proof. induction 1 as [|c cs Hc _ IH]; [done |]. simpl. by rewrite (proj1 (fresh_facts c Hc)), <- IH. Qed.

Lemma connect_ok this d s : ∀ tok, sender_ok d s → fresh (connect tok s) ∧ node_ok this d tok (connect tok s).
Proof.
  induction s as [o | F s IH | k ss IH] using sender_tree_ind; intros tok Hs; inversion Hs as [? Ha | ? ? Hs' | ? ? Ha Hl Hss]; subst.
  - split; [constructor |]. split; constructor; done.
  - destruct (IH tok Hs') as [Hf [? ? ? ?]]. split; [by constructor |]. by split; try constructor.
  - cbn [connect]. set (p := par_new k (length ss) tok). set (tok' := child_token k (stop_source_ p) tok).
    assert (Forall (λ t, fresh t ∧ node_ok this d tok' t) (map (connect tok') ss)) as Hcs.
    { apply Forall_map. rewrite Forall_forall in *. intros s Hin. apply IH; [done | by apply Hss]. }
    apply Forall_and in Hcs as [Hfr Hno]. split.
    + constructor; try done; simpl; by rewrite length_replicate, length_map.
    + apply node_ok_par. split_and!; [| | | | done].
      * rewrite (fresh_delivered _ Hfr), length_map. apply par_ok_new.
      * intros Hw. specialize (Ha Hw). by destruct ss.
      * by rewrite length_map.
      * simpl. intros ->. split_and!; [intros ->; by rewrite bool_decide_eq_true_2 | | lia].
        intros Ht. right. by rewrite bool_decide_eq_true_2.
Qed.

(** An operation in a runtime, and the values its receiver has been called with. *)
Record OSys := mkOSys {
  tree : opstate V;
  stop_token : token;
  env : OEnv U V;
  got : list (value V)
}.

(** The steps: a completion the kernel posts, a stop request from outside, and
    other work of the runtime, which leaves the pending works of the operation
    alone. *)
Inductive op_step (this : RuntimeId) : OSys → OSys → Prop :=
  | step_completion sys path o st c t r e :
      leaf_at path (tree sys) = Some (o, st) → accepts (o, st) c = true →
      process_op this path (tree sys) c (env sys) = Done (t, r) e →
      op_step this sys (mkOSys t (stop_token sys) e (got sys ++ option_list r))
  | step_stop sys t e :
      stop_token sys = Some false →
      notify_stop (Some this) (tree sys) (env sys) = Done t e →
      op_step this sys (mkOSys t (Some true) e (got sys))
  | step_other sys e :
      moves this 0 (env sys) e → op_step this sys (mkOSys (tree sys) (stop_token sys) e (got sys)).

(** Turns enough for [reserve_space] on the ring of [this]. *)
Definition space_turns (this : RuntimeId) (e : OEnv U V) : nat :=
  match dims this e with Some d => reserve_turns U d.1 | None => 0%nat end.

Lemma space_turns_dims this d e : dims this e = Some d → space_turns this e = reserve_turns U d.1.
Proof. unfold space_turns. by intros ->. Qed.

Definition connect_start (this : RuntimeId) (s : sender V) (tok : token) (e : OEnv U V)
    : result (OEnv U V) (opstate V * option (value V)) :=
  start (height (connect tok s)) (Some this) (space_turns this e) tok 0 (connect tok s) e.

(** The states of an operation that has been connected and started. *)
Definition op_reach (this : RuntimeId) (s : sender V) (tok : token) (e0 : OEnv U V) (sys : OSys) : Prop :=
  ∃ t r e, connect_start this s tok e0 = Done (t, r) e ∧
    rtc (op_step this) (mkOSys t tok e (option_list r)) sys.

Definition in_runtime (this : RuntimeId) (d : Z * bool) (e : OEnv U V) : Prop :=
  is_Some (pend this e) ∧ dims this e = Some d.

Record sys_ok (this : RuntimeId) (d : Z * bool) (e0 : OEnv U V) (sys : OSys) : Prop := {
  sys_node : node_ok this d (stop_token sys) (tree sys);
  sys_started : started (tree sys);
  sys_got : got sys = option_list (delivered (tree sys));
  sys_moves : moves this (Z.of_nat (live_count (tree sys))) e0 (env sys)
}.

Lemma step_got t t' r : step_ok t t' r → option_list (delivered t') = option_list (delivered t) ++ option_list r.
Proof. destruct r as [v|]; simpl; [by intros [-> ->] | intros ->; by rewrite app_nil_r]. Qed.

Lemma connect_start_ok this d s tok e0 :
  sender_ok d s → in_runtime this d e0 →
  ∃ t r e, connect_start this s tok e0 = Done (t, r) e ∧ sys_ok this d e0 (mkOSys t tok e (option_list r)).
Proof.
  intros Hs [He Hd]. destruct (connect_ok this d s tok Hs) as [Hf Hn].
  assert (reserve_turns U d.1 ≤ space_turns this e0)%nat as Hf0 by (by rewrite (space_turns_dims this d e0 Hd)).
  destruct (start_ok this d _ _ Hf0 (connect tok s) (le_n _) tok 0 e0 Hf Hn He Hd)
    as (t & r & e & E & M & Hn' & Hst & Hr).
  exists t, r, e. split; [exact E |]. split; [done | done | by rewrite <- Hr | done].
Qed.

Lemma op_step_ok this d e0 sys sys' : op_step this sys sys' → sys_ok this d e0 sys → sys_ok this d e0 sys'.
Proof.
  intros Hstep [Hn Hs Hg M]. pose proof (moves_some _ _ _ _ M) as He.
  destruct Hstep as [sys path o st c t r e Hl Hacc E | sys t e Htok E | sys e Mo]; simpl in *.
  - destruct (process_op_ok this d path _ _ o st c _ Hn Hs Hl Hacc He) as (t' & r' & e' & E' & M' & Hn' & Hs' & Hst & _).
    rewrite E in E'. injection E' as <- <- <-. split; simpl; [done | done | by rewrite Hg, (step_got _ _ _ Hst) |].
    pose proof (moves_trans _ _ _ _ _ _ M M') as M2.
    by replace (Z.of_nat (live_count (tree sys)) + (Z.of_nat (live_count t) - Z.of_nat (live_count (tree sys))))
      with (Z.of_nat (live_count t)) in M2 by lia.
  - destruct (notify_ok this (tree sys) (no_good _ _ _ _ Hn) (env sys) He) as (e' & E' & M').
    rewrite E in E'. injection E' as -> <-. split; simpl.
    + eapply node_ok_stop; [| done]. rewrite Htok. eauto.
    + by apply started_stop.
    + by rewrite delivered_stop.
    + rewrite live_count_stop. pose proof (moves_trans _ _ _ _ _ _ M M') as M2. by rewrite Z.add_0_r in M2.
  - split; simpl; [done | done | done |]. pose proof (moves_trans _ _ _ _ _ _ M Mo) as M2. by rewrite Z.add_0_r in M2.
Qed.

Lemma op_reach_ok this d s tok e0 sys :
  sender_ok d s → in_runtime this d e0 → op_reach this s tok e0 sys → sys_ok this d e0 sys.
Proof.
  intros Hs He (t & r & e & E & Hr). destruct (connect_start_ok this d s tok e0 Hs He) as (t' & r' & e' & E' & Hok).
  rewrite E in E'. injection E' as <- <- <-. clear E. induction Hr as [| sys0 sys1 sys2 Hst _ IH]; [done |].
  apply IH. by eapply op_step_ok.
Qed.

(** *** What is delivered, and when *)

(** The value a finished operation stands for. *)
Inductive result_of : opstate V → value V → Prop :=
  | ro_op o v alive : result_of (OpState o (Received v alive)) (Leaf v)
  | ro_flagged F s v : result_of s v → result_of (FlaggedOpState F s) v
  | ro_both p cs vs order :
      wrapper_ (kind_ p) = NoWrapper → Forall2 result_of cs vs → order ≡ₚ seq 0 (length cs) →
      result_of (Parallel p cs) (Both order vs)
  | ro_all p cs vs :
      wrapper_ (kind_ p) = AllWrapper → Forall2 result_of cs vs → result_of (Parallel p cs) (Results vs)
  | ro_any p cs vs i v :
      wrapper_ (kind_ p) = AnyWrapper → Forall2 result_of cs vs → vs !! i = Some v →
      result_of (Parallel p cs) (Indexed i v).

(** No link without operations. *)
Inductive no_empty_link : opstate V → Prop :=
  | nel_op o st : no_empty_link (OpState o st)
  | nel_flagged F s : no_empty_link s → no_empty_link (FlaggedOpState F s)
  | nel_par p cs : (is_Some (link_ (kind_ p)) → cs ≠ []) → Forall no_empty_link cs → no_empty_link (Parallel p cs).

Definition leaf_done (l : op V * leaf_state V) : Prop :=
  match l.2 with Received _ _ => True | _ => False end.

Lemma all_delivered (cs : list (opstate V)) vs : delivered <$> cs = Some <$> vs → Forall2 (λ c v, delivered c = Some v) cs vs.
Proof.
  revert vs. induction cs as [|c cs IH]; intros [|v vs] E; simplify_eq/=; constructor; auto.
Qed.

Lemma result_of_delivered t : wf t → ∀ v, delivered t = Some v → result_of t v.
Proof.
  induction t as [o st | F s IH | p cs IH] using opstate_tree_ind; intros Hw v Hd; inversion Hw as [| | ? ? Hp Hcs]; subst; simpl in Hd.
  - destruct st; simplify_eq. constructor.
  - constructor. auto.
  - destruct (receiver_used p) eqn:Hu; [| done].
    destruct (par_ok_complete p _ Hp (po_used _ _ Hp Hu)) as (vs & Hds & Hr & Hperm).
    assert (Forall2 result_of cs vs) as Hall.
    { apply all_delivered in Hds. clear -Hds IH Hcs. induction Hds; inversion IH; inversion Hcs; subst; constructor; auto. }
    unfold wrap_result in Hd. rewrite Hr in Hd. destruct (wrapper_ (kind_ p)) eqn:Hk.
    + injection Hd as <-. apply ro_both; [done | done |]. by rewrite (Forall2_length _ _ _ Hall).
    + injection Hd as <-. by apply ro_all.
    + destruct (order_ p !! 0%nat) as [i|]; [| done]. simpl in Hd. destruct (vs !! i) as [w|] eqn:Hi; [| done].
      injection Hd as <-. by eapply ro_any.
Qed.

Lemma Forall_concat_map {A B} (P : B → Prop) (f : A → list B) (l : list A) :
  Forall P (concat (map f l)) ↔ Forall (λ x, Forall P (f x)) l.
Proof. induction l as [|x l IH]; simpl; [split; constructor |]. by rewrite Forall_app, IH, Forall_cons. Qed.

Lemma par_delivered_iff (p : ParState V) cs :
  par_ok p (delivered <$> cs) → (wrapper_ (kind_ p) = AnyWrapper → cs ≠ []) →
  (is_Some (link_ (kind_ p)) → cs ≠ []) → started (Parallel p cs) →
  is_Some (delivered (Parallel p cs)) ↔ Forall (λ c : opstate V, is_Some (delivered c)) cs.
Proof.
  intros Hp Ha Hne Hs. simpl. split.
  - destruct (receiver_used p) eqn:Hus; [| by intros [? ?]]. intros _.
    destruct (par_ok_complete p _ Hp (po_used _ _ Hp Hus)) as (vs & Hds & _).
    apply all_delivered in Hds. clear -Hds. induction Hds; constructor; eauto.
  - intros Hall.
    assert (completed_count_ p = length (delivered <$> cs)) as Hc.
    { apply (par_ok_all _ _ Hp). intros i x Hx. rewrite list_lookup_fmap in Hx.
      destruct (cs !! i) as [c|] eqn:Hi; [| done]. simplify_eq/=. by eapply Forall_lookup_1 in Hall. }
    assert (receiver_used p = true) as ->.
    { destruct cs as [|c cs]; [| apply (po_full _ _ Hp); [simpl; lia | done]].
      inversion Hs as [| | ? ? Hu _]; subst. apply Hu; [done |].
      destruct (link_ (kind_ p)); [by destruct Hne | done]. }
    apply wrap_result_some with (ds := delivered <$> cs); [done | done |].
    intros Hw Hnil. apply (Ha Hw). by destruct cs.
Qed.

(** The receiver of a started operation has been called when, and only when, all
    its operations have delivered. *)
Lemma delivered_iff d t :
  wf t → shape_ok d t → started t → no_empty_link t → is_Some (delivered t) ↔ Forall leaf_done (leaves t).
Proof.
  induction t as [o st | F s IH | p cs IH] using opstate_tree_ind; intros Hw Hsh Hs Hl;
    inversion Hw as [| | ? ? Hp Hcs]; inversion Hsh as [| | ? ? Ha ? Hshs]; inversion Hs as [| | ? ? Hu Hss];
    inversion Hl as [| | ? ? Hne Hls]; subst.
  - unfold leaf_done. simpl. destruct st; split; try (by intros [? [=]]); try (by inversion 1); eauto.
  - simpl. auto.
  - rewrite par_delivered_iff by done. cbn [leaves]. rewrite Forall_concat_map.
    clear -IH Hcs Hss Hls Hshs. induction IH as [|c cs Hc _ IHcs]; [split; constructor |].
    inversion Hcs; inversion Hss; inversion Hls; inversion Hshs; subst. rewrite !Forall_cons. rewrite IHcs, Hc by done. done.
Qed.

(** C2. The receiver of a composed operation is called at most once, whatever the
    interleaving of completions and stop requests, and the value it gets is the
    one the expression stands for: the results of all children in the order of
    the arguments for [when_all] and links, index and result of one child for
    [when_any], and for [parallel] the results with a permutation of the
    indices.  The handles are aligned, a [when_any] has children, and the operations
    of a link fit into the submission queue of a ring without polling thread
    ([sender_ok]). *)
Theorem operation_delivers_once this d s tok e0 sys :
  sender_ok d s → in_runtime this d e0 → op_reach this s tok e0 sys →
  (length (got sys) ≤ 1)%nat ∧ ∀ v, got sys = [v] → result_of (tree sys) v.
Proof.
  intros Hs He Hr. destruct (op_reach_ok this d s tok e0 sys Hs He Hr) as [Hn _ -> _]. split.
  - by destruct (delivered (tree sys)); simpl; lia.
  - intros v Hv. apply result_of_delivered; [apply Hn |]. by destruct (delivered (tree sys)); simplify_eq/=.
Qed.

(** C9. The receiver is called exactly when all the operations have delivered their
    results: no completion is lost or awaited in vain, under the conditions of
    [sender_ok]: aligned handles, children for [when_any], links that fit into the
    submission queue of a ring without polling thread.  (A link of no operations
    is excluded; see [empty_link_never_completes].) *)
Theorem operation_completes this d s tok e0 sys :
  sender_ok d s → in_runtime this d e0 → op_reach this s tok e0 sys → no_empty_link (tree sys) →
  got sys ≠ [] ↔ Forall leaf_done (leaves (tree sys)).
Proof.
  intros Hs He Hr Hl. destruct (op_reach_ok this d s tok e0 sys Hs He Hr) as [Hn Hst -> _].
  rewrite <- (delivered_iff d (tree sys)) by (done || apply Hn).
  by destruct (delivered (tree sys)); simpl; split.
Qed.

(** Nothing goes wrong on the way, and the runtime's counter of pending works is
    right: starting returns, every completion the kernel posts is handled
    without a failed assertion or an access out of range, so is a stop request,
    and at every moment the counter exceeds its initial value by the number of
    operations that are submitted and not finished. *)
Theorem operation_progress this d s tok e0 :
  sender_ok d s → in_runtime this d e0 →
  (∃ t r e, connect_start this s tok e0 = Done (t, r) e) ∧
  ∀ sys, op_reach this s tok e0 sys →
    (∀ path o st c, leaf_at path (tree sys) = Some (o, st) → accepts (o, st) c = true →
       ∃ t r e, process_op this path (tree sys) c (env sys) = Done (t, r) e) ∧
    (∃ t e, notify_stop (Some this) (tree sys) (env sys) = Done t e) ∧
    moves this (Z.of_nat (live_count (tree sys))) e0 (env sys).
Proof.
  intros Hs He. split.
  { destruct (connect_start_ok this d s tok e0 Hs He) as (t & r & e & E & _). eauto. }
  intros sys Hr. destruct (op_reach_ok this d s tok e0 sys Hs He Hr) as [Hn Hst _ M].
  pose proof (moves_some _ _ _ _ M) as Hp. split_and!; [| | done].
  - intros path o st c Hl Hacc.
    destruct (process_op_ok this d path _ _ o st c _ Hn Hst Hl Hacc Hp) as (t & r & e & E & _). eauto.
  - destruct (notify_ok this (tree sys) (no_good _ _ _ _ Hn) (env sys) Hp) as (e & E & _). eauto.
Qed.

(** The state at a position of the tree. *)
Fixpoint node_at (path : list nat) (t : opstate V) : option (opstate V) :=
  match path, t with
  | [], _ => Some t
  | _ :: path, FlaggedOpState _ s => node_at path s
  | i :: path, Parallel _ cs => c ← cs !! i; node_at path c
  | _, _ => None
  end.

Lemma stops_ok_at path : ∀ tok t t', stops_ok tok t → node_at path t = Some t' → ∃ tok', stops_ok tok' t'.
Proof.
  induction path as [|i path IH]; intros tok t t' Hs Hat; [simpl in Hat; simplify_eq; eauto |].
  destruct t as [o st | F s | p cs]; simpl in Hat; inversion Hs as [| | ? ? ? _ Hcs]; subst; [done | eauto |].
  destruct (cs !! i) as [c|] eqn:Hi; [| done]. eapply IH; [by eapply Forall_lookup_1 in Hcs | done].
Qed.

(** Once a child of a [when_any] has delivered, the callbacks of all pending
    operations below have run. *)
Lemma any_cancelled path tok t p cs :
  stops_ok tok t → node_at path t = Some (Parallel p cs) → any_ (kind_ p) = true → (0 < completed_count_ p)%nat →
  uncancelled (Parallel p cs) = [].
Proof.
  intros Hst Hat Ha Hc. destruct (stops_ok_at path _ _ _ Hst Hat) as [tok' Hp].
  apply stops_ok_cancelled. inversion Hp as [| | ? ? ? Hany Hcs]; subst. destruct (Hany Ha) as (_ & _ & Hstop).
  constructor; [auto |]. unfold child_token in *. by rewrite Ha in *.
Qed.

Lemma op_step_grows this d e0 sys sys' :
  op_step this sys sys' → sys_ok this d e0 sys → tree_grows (tree sys) (tree sys').
Proof.
  assert (∀ t, tree_grows t t) as Hrefl by (intros [| |]; simpl; auto using grows_refl).
  intros Hstep [Hn Hs _ M]. pose proof (moves_some _ _ _ _ M) as He.
  destruct Hstep as [sys path o st c t r e Hl Hacc E | sys t e Htok E | sys e Mo]; simpl in *; [| | apply Hrefl].
  - destruct (process_op_ok this d path _ _ o st c _ Hn Hs Hl Hacc He) as (t' & r' & e' & E' & _ & _ & _ & _ & Hg).
    rewrite E in E'. by injection E' as <- <- <-.
  - destruct (notify_ok this (tree sys) (no_good _ _ _ _ Hn) (env sys) He) as (e' & E' & _).
    rewrite E in E'. injection E' as -> <-. destruct (tree sys) as [o st | F s | p cs]; simpl; [| done |].
    + by destruct st as [| [?|] [] | |].
    + destruct (_ && _); [apply grows_refl |]. destruct (any_ (kind_ p)); split; auto.
Qed.

(** [when_any] returns the first result: if, at some moment, one child alone has
    delivered, the receiver is later called with that child's index and result,
    whatever the other children deliver. *)
Theorem when_any_first this d s tok e0 sys sys' p cs i c vi v :
  sender_ok d s → in_runtime this d e0 → op_reach this s tok e0 sys →
  tree sys = Parallel p cs → wrapper_ (kind_ p) = AnyWrapper →
  completed_count_ p = 1%nat → cs !! i = Some c → delivered c = Some vi →
  rtc (op_step this) sys sys' → got sys' = [v] → v = Indexed i vi.
Proof.
  intros Hs He Hr Et Hw Hc Hi Hd Hsteps Hv.
  pose proof (op_reach_ok this d s tok e0 sys Hs He Hr) as Hok.
  assert (order_ p !! 0%nat = Some i ∧ results_ p !! i = Some vi) as [Ho Hres].
  { destruct Hok as [[Hwf _ _ _] _ _ _]. rewrite Et in Hwf. inversion Hwf as [| | ? ? Hp _]; subst.
    assert ((delivered <$> cs) !! i = Some (Some vi)) as Hds by (by rewrite list_lookup_fmap, Hi, <- Hd).
    split; [| by apply (po_val _ _ Hp)]. pose proof (po_in _ _ Hp i) as [_ Hin].
    assert (i ∈ take 1 (order_ p)) as Hin1 by (rewrite <- Hc; eauto).
    destruct (order_ p); simpl in Hin1; set_solver. }
  assert (∃ p' cs', tree sys' = Parallel p' cs' ∧ grows p p' ∧ sys_ok this d e0 sys') as (p' & cs' & Et' & [Hk Hg] & Hok').
  { clear Hr Hi Hv. assert (grows p p) as Hg by apply grows_refl. revert Hg Et. generalize p at 2 3. revert cs.
    induction Hsteps as [sys | sys1 sys2 sys3 Hst _ IH]; intros cs p1 Hg Et; [by exists p1, cs |].
    pose proof (op_step_grows _ _ _ _ _ Hst Hok) as Hgr. rewrite Et in Hgr.
    destruct (tree sys2) as [| | p2 cs2] eqn:E2; try done. simpl in Hgr.
    eapply (IH (op_step_ok _ _ _ _ _ Hst Hok) cs2 p2); [by eapply grows_trans | done]. }
  destruct (Hg 0%nat i ltac:(lia) Ho) as (_ & Ho' & Hr').
  destruct Hok' as [_ _ Hgot _]. rewrite Hgot, Et' in Hv. simpl in Hv.
  destruct (receiver_used p'); [| done]. unfold wrap_result in Hv. rewrite Hk, Hw, Ho' in Hv. simpl in Hv.
  rewrite Hr', Hres in Hv. simpl in Hv. by simplify_eq.
Qed.

(** A link of no operations never completes: its [start] returns without calling
    the receiver and nothing later calls it, so an [await] of it does not
    return ([when_all] of no operations completes at once). *)
Theorem empty_link_never_completes this d F ranged tok e0 sys :
  in_runtime this d e0 → d.2 = false → 0 ≤ d.1 → op_reach this (link_with F ranged []) tok e0 sys → got sys = [].
Proof.
  intros He Hd Hd' Hr. assert (sender_ok d (link_with (V := V) F ranged [])) as Hs by (by constructor).
  destruct (op_reach_ok _ _ _ _ _ _ Hs He Hr) as [_ _ -> _].
  destruct Hr as (t & r & e & E & Hsteps).
  assert (∃ p, tree sys = Parallel p [] ∧ receiver_used p = false) as (p & -> & Hu); [| simpl; by rewrite Hu].
  assert (∃ p, t = Parallel p [] ∧ receiver_used p = false) as Ht.
  { unfold connect_start in E. simpl in E. apply bind_inv in E as ([] & e1 & _ & E).
    unfold mbind, st_bind in E. simpl in E. injection E as <- _ _. by eexists. }
  set (sys0 := mkOSys t tok e (option_list r)) in *. change t with (tree sys0) in Ht. clearbody sys0.
  induction Hsteps as [| sys1 sys2 sys3 Hst _ IH]; [done |]. apply IH. destruct Ht as (p & Et & Hu).
  destruct Hst as [sys1 path o st c t1 r1 e1 Hl _ _ | sys1 t1 e1 _ E1 | sys1 e1 _]; simpl in *.
  - rewrite Et in Hl. by destruct path.
  - rewrite Et in E1. simpl in E1. destruct (_ && _); injection E1 as <- _; eexists; [done |].
    split; [done |]. by destruct (any_ (kind_ p)).
  - eauto.
Qed.

End runs.

(** ** Operators *)

Lemma foldl_extend {V} k (ss : list (sender V)) : ∀ l, foldl (extend k) (ParallelSender k l) ss = ParallelSender k (l ++ ss).
Proof.
  induction ss as [|s ss IH]; intros l; simpl; [by rewrite app_nil_r |].
  rewrite bool_decide_eq_true_2 by done. by rewrite IH, <- app_assoc.
Qed.

(** A chain of one operator is the combinator of all its operands: [a && b && c] is
    [when_all(a, b, c)] and not a nesting, unless the first operand is itself such
    a sender; the same for [||] and [>>]. *)
Theorem operator_chain_flat {V} k (s1 s2 : sender V) ss :
  (∀ l, s1 ≠ ParallelSender k l) → foldl (extend k) (extend k s1 s2) ss = ParallelSender k (s1 :: s2 :: ss).
Proof.
  intros Hs. assert (extend k s1 s2 = ParallelSender k [s1; s2]) as ->.
  { destruct s1 as [| |k' l]; try done. simpl. rewrite bool_decide_eq_false_2; [done |]. intros ->. by apply (Hs l). }
  by rewrite foldl_extend.
Qed.

(** ** Links *)

Section links.
Context {U V : Type} `{UringLaws U}.
Implicit Types (e : OEnv U V).

(** [u'] is [u] with the entries [ss] added, in order and with no submission in
    between. *)
Inductive queued : U → list sqe → U → Prop :=
  | queued_nil u : queued u [] u
  | queued_cons u slot u1 s ss u' :
      uring_get_sqe u = Some (slot, u1) → queued (uring_prep slot s u1) ss u' → queued u (s :: ss) u'.

(** An operation whose preparation succeeds. *)
Definition prepared_sqe (flags : Z) (o : op V) : sqe :=
  match prep_func_ o with
  | Some (opcode, pf) => op_sqe opcode pf flags (handle_addr o)
  | None => op_sqe 0 0 flags (handle_addr o)
  end.

(** All entries of a chain but the last carry the link flags. *)
Fixpoint chain (F flags : Z) (ops : list (op V)) : list sqe :=
  match ops with
  | [] => []
  | [o] => [prepared_sqe flags o]
  | o :: ops => prepared_sqe (Z.lor flags F) o :: chain F flags ops
  end.

Lemma chain_cons F flags o ops i n :
  (S (i + length ops) = n)%nat →
  chain F flags (o :: ops)
  = prepared_sqe (if bool_decide (S i < n)%nat then Z.lor flags F else flags) o :: chain F flags ops.
Proof.
  intros Hn. destruct ops as [|o' ops]; simpl in Hn.
  - by rewrite bool_decide_eq_false_2 by lia.
  - by rewrite bool_decide_eq_true_2 by lia.
Qed.

(** Submitting one operation when the queue has room and the batch is not full. *)
Lemma leaf_start_queued this tok flags o e r k :
  aligned (handle_addr o) → is_Some (prep_func_ o) → tok ≠ Some true → runtimes (world e) !! this = Some r →
  0 < k ≤ space (rt_ring_ r) → 0 ≤ maybe_submit_count_ (rt_ring_ r) →
  maybe_submit_count_ (rt_ring_ r) + k < Z.min (submit_batch_ (rt_ring_ r)) (2 ^ 64) →
  ∃ st r' slot u1, leaf_start (Some this) tok flags o e
    = Done (st, None) (mkOEnv (with_rt (world e) this r') (calls e)) ∧
    uring_get_sqe (ring_ (rt_ring_ r)) = Some (slot, u1) ∧
    ring_ (rt_ring_ r') = uring_prep slot (prepared_sqe flags o) u1 ∧
    submit_batch_ (rt_ring_ r') = submit_batch_ (rt_ring_ r) ∧
    maybe_submit_count_ (rt_ring_ r') = maybe_submit_count_ (rt_ring_ r) + 1 ∧
    k - 1 ≤ space (rt_ring_ r').
Proof.
  intros Ha [[opcode pf] Ep] Ht Er Hk Hc Hb.
  destruct (leaf_submit_ok this tok flags o opcode pf e r Ha Er Ht Ep) as (slot & g & g' & Eg & Eg' & _ & Es).
  destruct (get_sqe_some (rt_ring_ r)) as (slot' & u1 & E1); [unfold space in *; lia |].
  assert (slot = slot' ∧ g = mkRing u1 (submit_batch_ (rt_ring_ r)) (maybe_submit_count_ (rt_ring_ r))) as [-> ->].
  { unfold get_sqe in Eg. cbn [get_sqe_] in Eg. rewrite bind_get, E1 in Eg. by injection Eg as <- <-. }
  cbn [ring_ submit_batch_ maybe_submit_count_] in Eg'.
  unfold maybe_submit in Eg'. erewrite bind_done in Eg' by done. rewrite bind_get in Eg'.
  cbn [ring_ submit_batch_ maybe_submit_count_] in Eg'. rewrite wrap_small in Eg' by lia.
  rewrite (proj2 (Z.leb_gt _ _)) in Eg' by lia. injection Eg' as <-.
  eexists _, _, slot', u1. split; [exact Es |]. split_and!; try done.
  - unfold prepared_sqe. by rewrite Ep.
  - unfold space in *. simpl. rewrite uring_prep_space. pose proof (uring_get_sqe_space _ _ _ E1). lia.
Qed.

Lemma start_chain this f tok flags F p ops : ∀ i cs e r res,
  link_ (kind_ p) = Some F → any_ (kind_ p) = false → tok ≠ Some true →
  (length cs = i + length ops)%nat → drop i cs = (λ o, OpState o Idle) <$> ops →
  Forall (λ o, aligned (handle_addr o) ∧ is_Some (prep_func_ o)) ops →
  runtimes (world e) !! this = Some r →
  Z.of_nat (length ops) ≤ space (rt_ring_ r) → 0 ≤ maybe_submit_count_ (rt_ring_ r) →
  maybe_submit_count_ (rt_ring_ r) + Z.of_nat (length ops) < Z.min (submit_batch_ (rt_ring_ r)) (2 ^ 64) →
  ∃ cs' r', start_children (Some this) (start 1 (Some this) f) tok flags i (length ops) p cs res e
    = Done (p, cs', if ops is [] then res else None) (mkOEnv (with_rt (world e) this r') (calls e)) ∧
    queued (ring_ (rt_ring_ r)) (chain F flags ops) (ring_ (rt_ring_ r')).
Proof.
  induction ops as [|o ops IH]; intros i cs e r res HF Ha Ht Hlen Hdrop Hops Er Hsp Hc Hb; simpl length in *.
  { exists cs, r. split; [| constructor]. unfold with_rt. rewrite insert_id by done.
    by destruct e as [[] ?]. }
  assert (cs !! i = Some (OpState o Idle)) as Hi.
  { rewrite <- (Nat.add_0_r i), <- lookup_drop, Hdrop. done. }
  inversion Hops as [|? ? [Hal Hpr] Hops']; subst. cbn [start_children]. rewrite Hi.
  unfold child_token, child_flags. rewrite Ha, HF. cbv iota.
  set (fl := if bool_decide _ then _ else _).
  destruct (leaf_start_queued this tok fl o e r (Z.of_nat (S (length ops)))) as
    (st & r1 & slot & u1 & E1 & Eu & Er1 & Hb1 & Hc1 & Hs1); try done; try lia.
  erewrite bind_done.
  2:{ cbn [start]. by erewrite bind_done by exact E1. }
  cbv beta iota. erewrite bind_done by done. cbv beta iota.
  destruct (IH (S i) (<[i := OpState o st]> cs) (mkOEnv (with_rt (world e) this r1) (calls e)) r1 None)
    as (cs' & r' & E & Hq); try done.
  - rewrite length_insert. lia.
  - rewrite drop_insert_lt by lia. replace (S i) with (i + 1)%nat by lia. rewrite <- drop_drop, Hdrop. done.
  - apply with_rt_lookup.
  - lia.
  - lia.
  - rewrite Hc1, Hb1. lia.
  - exists cs', r'. split.
    + rewrite E. cbn [world]. rewrite with_rt_twice. by destruct ops.
    + rewrite (chain_cons F flags o ops i (length cs)) by lia. econstructor; [exact Eu |].
      rewrite Er1 in Hq. exact Hq.
Qed.


End links.

(** ** Finish handles over their completions *)

Section handles.
Context {U V : Type} `{Uring U}.
Implicit Types (e : OEnv U V).

(** Handling a sequence of completions: the values the receiver is called with and
    what each call of [handle] returns. *)
Fixpoint leaf_run (o : op V) (st : leaf_state V) (cs : list cqe)
    : ST (OEnv U V) (leaf_state V * list (value V) * list bool) :=
  match cs with
  | [] => mret (st, [], [])
  | c :: cs =>
      '(st, r, fin) ← leaf_handle o st c;
      '(st, rs, fins) ← leaf_run o st cs;
      mret (st, option_list r ++ rs, fin :: fins)
  end.

Lemma multishot_run o st cs last e :
  handle_kind_ o = MultiShot → match st with Idle | Pending _ _ => true | _ => false end = true →
  Forall (λ c, has_flag (cqe_flags c) IORING_CQE_F_MORE = true) cs →
  has_flag (cqe_flags last) IORING_CQE_F_MORE = false →
  leaf_run o st (cs ++ [last]) e
  = Done (Received (cqe_handler_ o last) false, [Leaf (cqe_handler_ o last)], replicate (length cs) false ++ [true])
      (mkOEnv (world e) (calls e ++ ((λ c, CallFunc (handle_addr o) (cqe_handler_ o c)) <$> cs))).
Proof.
  intros Hk Hl Hcs Hlast. revert e. induction Hcs as [|c cs Hc _ IH]; intros e; simpl.
  - unfold leaf_handle. rewrite Hk, Hl, Hlast. run_st. rewrite app_nil_r. by destruct e.
  - erewrite bind_done.
    2:{ unfold leaf_handle. rewrite Hk, Hl, Hc. simpl. by erewrite bind_done by done. }
    cbv beta iota. erewrite bind_done by apply IH. simpl. by rewrite <- app_assoc.
Qed.

(** The three finish handles over the completions of one operation.  A one-shot
    handle passes its completion on and is finished.  A multi-shot handle calls
    its function for every completion that announces more, in order, and the
    receiver once, with the last.  A zero-copy handle calls the receiver with
    the first completion and the free function with the notification that
    follows, or, when the kernel sends a single completion, both at once, with
    result 0.  Only the last completion of an operation is reported as its
    end. *)
Theorem finish_handle_sequences o cb x e :
  let more c := has_flag (cqe_flags c) IORING_CQE_F_MORE in
  let notif c := has_flag (cqe_flags c) IORING_CQE_F_NOTIF in
  let h := cqe_handler_ o in
  let log l := mkOEnv (world e) (calls e ++ l) in
  (∀ c, handle_kind_ o = OneShot →
     leaf_run o (Pending cb x) [c] e = Done (Received (h c) false, [Leaf (h c)], [true]) e) ∧
  (∀ cs last, handle_kind_ o = MultiShot → Forall (λ c, more c = true) cs → more last = false →
     leaf_run o (Pending cb x) (cs ++ [last]) e
     = Done (Received (h last) false, [Leaf (h last)], replicate (length cs) false ++ [true])
         (log ((λ c, CallFunc (handle_addr o) (h c)) <$> cs))) ∧
  (∀ c c', handle_kind_ o = ZeroCopy → more c = true → more c' = false → notif c' = true →
     leaf_run o (Pending cb x) [c; c'] e
     = Done (Received (h c) false, [Leaf (h c)], [false; true]) (log [CallFree (handle_addr o) (cqe_res c')])) ∧
  (∀ c, handle_kind_ o = ZeroCopy → more c = false → notif c = false →
     leaf_run o (Pending cb x) [c] e
     = Done (Received (h c) false, [Leaf (h c)], [true]) (log [CallFree (handle_addr o) 0])).
Proof.
  intros more notif h log. split_and!.
  - intros c Hk. simpl. unfold leaf_handle. by rewrite Hk.
  - intros cs last Hk Hcs Hl. by apply multishot_run.
  - intros c c' Hk Hm Hm' Hn. unfold more, notif in *. simpl. unfold leaf_handle. rewrite Hk, Hm, Hm', Hn. done.
  - intros c Hk Hm Hn. unfold more, notif in *. simpl. unfold leaf_handle. rewrite Hk, Hm, Hn. done.
Qed.

End handles.

(** ** Concrete runs *)

(** A runtime with a simulated ring of four entries. *)
Definition demo_env (submit_batch count : Z) (sq : list sqe) : OEnv SimRing Z :=
  mkOEnv (mkWorld {[0%nat := mkRuntime [] false true [] (mkRing (mkSimRing 3 sq [] 4 []) submit_batch count)
                               0 0 (Some 0%nat) 61 false false]} [] ∅) [].
Definition demo_op (addr : Z) : op Z := mkOp addr (Some (addr, 0)) cqe_res OneShot.
Definition demo_any : sender Z :=
  ParallelSender (mkPkind true AnyWrapper None false)
    [OpSender (demo_op 8); when_all false [OpSender (demo_op 16); OpSender (demo_op 24)]].

(** Completions in the given order, then the state reached. *)
Fixpoint run_completions {U V} `{Uring U} (this : RuntimeId) (evs : list (list nat * cqe)) (sys : OSys (U := U) (V := V))
    : option (OSys (U := U) (V := V)) :=
  match evs with
  | [] => Some sys
  | (path, c) :: evs =>
      match leaf_at path (tree sys) with
      | Some l =>
          if accepts l c then
            match process_op this path (tree sys) c (env sys) with
            | Done (t, r) e => run_completions this evs (mkOSys t (stop_token sys) e (got sys ++ option_list r))
            | _ => None
            end
          else None
      | None => None
      end
  end.
Definition run_operation {U V} `{Uring U} (this : RuntimeId) (s : sender V) (tok : token) (e0 : OEnv U V)
    (evs : list (list nat * cqe)) : option (OSys (U := U) (V := V)) :=
  match connect_start this s tok e0 with
  | Done (t, r) e => run_completions this evs (mkOSys t tok e (option_list r))
  | _ => None
  end.

Lemma run_completions_steps {U V} `{UringLaws U} this evs : ∀ sys sys' : OSys (U := U) (V := V),
  run_completions this evs sys = Some sys' → rtc (op_step this) sys sys'.
Proof.
  induction evs as [|[path c] evs IH]; intros sys sys' E; simpl in E; [by simplify_eq |].
  destruct (leaf_at path (tree sys)) as [[o st]|] eqn:El; [| done]. destruct (accepts (o, st) c) eqn:Ea; [| done].
  destruct (process_op this path (tree sys) c (env sys)) as [[t r] e | |] eqn:Ep; [| done | done].
  eapply rtc_l; [by eapply step_completion | by apply IH].
Qed.

Lemma run_operation_reach {U V} `{UringLaws U} this (s : sender V) tok (e0 : OEnv U V) evs sys :
  run_operation this s tok e0 evs = Some sys → op_reach this s tok e0 sys.
Proof.
  unfold run_operation. destruct (connect_start this s tok e0) as [[t r] e | |] eqn:E; [| done | done].
  intros Hr%run_completions_steps. by exists t, r, e.
Qed.

Lemma demo_any_ok : sender_ok (4, false) demo_any.
Proof. repeat (constructor || done). Qed.
Lemma demo_in_runtime b n sq : in_runtime 0 (4, false) (demo_env b n sq).
Proof. split; [by eexists | done]. Qed.

(** A submission threshold can cut a link: with a batch of 2, of which one
    operation has already been counted, starting a link of two operations submits
    its first entry, with the link flag, together with the earlier operation and
    leaves the second one in the queue; the kernel ends a chain where a
    submission ends. *)
Theorem link_split_by_submit_batch :
  let earlier := mkSqe (SqeOther 7 0) 0 in
  match connect_start 0 (link false [OpSender (demo_op 8); OpSender (demo_op 16)]) None (demo_env 2 1 [earlier]) with
  | Done (_, r) e =>
      r = None ∧ ∃ rt, runtimes (world e) !! 0%nat = Some rt ∧
        sim_submitted (ring_ (rt_ring_ rt)) = [earlier; mkSqe (SqeOther 8 IOSQE_IO_LINK) 8] ∧
        sim_sq (ring_ (rt_ring_ rt)) = [mkSqe (SqeOther 16 0) 16]
  | _ => False
  end.
Proof. vm_compute. split; [done |]. eexists. done. Qed.

(** The first child of [demo_any] is the last to deliver; its second child wins. *)
Definition demo_events : list (list nat * cqe) :=
  [([1; 1]%nat, mkCqe 0 30 0); ([1; 0]%nat, mkCqe 0 20 0); ([0]%nat, mkCqe 0 (- ECANCELED) 0)].

Lemma operation_delivers_once_witness :
  match run_operation 0 demo_any None (demo_env 64 0 []) demo_events with
  | Some sys => got sys = [Indexed 1 (Results [Leaf 20; Leaf 30])] ∧
                result_of (tree sys) (Indexed 1 (Results [Leaf 20; Leaf 30]))
  | None => False
  end.
Proof.
  destruct (run_operation 0 demo_any None (demo_env 64 0 []) demo_events) as [sys|] eqn:E;
    [| vm_compute in E; discriminate E].
  assert (got sys = [Indexed 1 (Results [Leaf 20; Leaf 30])]) as Hg.
  { vm_compute in E. injection E as <-. reflexivity. }
  split; [exact Hg |].
  apply (operation_delivers_once 0 (4, false) demo_any None (demo_env 64 0 []) sys demo_any_ok
           (demo_in_runtime 64 0 []) (run_operation_reach _ _ _ _ _ _ E)). exact Hg.
Defined.

Lemma operation_completes_witness :
  match run_operation 0 demo_any None (demo_env 64 0 []) demo_events with
  | Some sys => got sys ≠ [] ↔ Forall leaf_done (leaves (tree sys))
  | None => False
  end.
Proof.
  destruct (run_operation 0 demo_any None (demo_env 64 0 []) demo_events) as [sys|] eqn:E;
    [| vm_compute in E; discriminate E].
  apply (operation_completes 0 (4, false) demo_any None (demo_env 64 0 []) sys demo_any_ok
           (demo_in_runtime 64 0 []) (run_operation_reach _ _ _ _ _ _ E)).
  vm_compute in E. injection E as <-. simpl. repeat (constructor || (intros [? [=]])).
Defined.

Lemma operation_progress_witness :
  ∃ t r e, connect_start 0 demo_any (Some false) (demo_env 64 0 []) = Done (t, r) e.
Proof.
  apply (operation_progress 0 (4, false) demo_any (Some false) (demo_env 64 0 []) demo_any_ok
           (demo_in_runtime 64 0 [])).
Defined.

Lemma when_any_first_witness :
  match run_operation 0 demo_any None (demo_env 64 0 []) (take 2 demo_events) with
  | Some sys =>
      match run_completions 0 (drop 2 demo_events) sys with
      | Some sys' => ∀ v, got sys' = [v] → v = Indexed 1 (Results [Leaf 20; Leaf 30])
      | None => False
      end
  | None => False
  end.
Proof.
  destruct (run_operation 0 demo_any None (demo_env 64 0 []) (take 2 demo_events)) as [sys|] eqn:E;
    [| vm_compute in E; discriminate E].
  pose proof (run_operation_reach _ _ _ _ _ _ E) as Hr.
  vm_compute in E. injection E as E.
  destruct (run_completions 0 (drop 2 demo_events) sys) as [sys'|] eqn:E';
    [| subst sys; vm_compute in E'; discriminate E'].
  intros v Hv. pose proof (run_completions_steps _ _ _ _ E') as Hs. subst sys.
  apply (when_any_first 0 (4, false) demo_any None (demo_env 64 0 [])) with (1 := demo_any_ok)
    (2 := demo_in_runtime 64 0 []) (3 := Hr) (9 := Hs) (10 := Hv)
    (p := mkParState (mkPkind true AnyWrapper None false) [1; 0]%nat [Unset; Results [Leaf 20; Leaf 30]] 1 false true false)
    (i := 1%nat) (c := Parallel
      (mkParState (mkPkind false AllWrapper None false) [1; 0]%nat [Leaf 20; Leaf 30] 2 true false false)
      [OpState (demo_op 16) (Received 20 false); OpState (demo_op 24) (Received 30 false)])
    (cs := [OpState (demo_op 8) (Pending (Some 0%nat) true); Parallel
      (mkParState (mkPkind false AllWrapper None false) [1; 0]%nat [Leaf 20; Leaf 30] 2 true false false)
      [OpState (demo_op 16) (Received 20 false); OpState (demo_op 24) (Received 30 false)]]);
    reflexivity.
Defined.

Lemma empty_link_never_completes_witness :
  match run_operation 0 (link false []) None (demo_env 64 0 []) [] with
  | Some sys => got sys = []
  | None => False
  end.
Proof.
  destruct (run_operation 0 (link false []) None (demo_env 64 0 []) []) as [sys|] eqn:E;
    [| vm_compute in E; discriminate E].
  apply (empty_link_never_completes 0 (4, false) IOSQE_IO_LINK false None (demo_env 64 0 []) sys
           (demo_in_runtime 64 0 [])); [reflexivity | discriminate | exact (run_operation_reach _ _ _ _ _ _ E)].
Defined.


Lemma finish_handle_sequences_witness :
  let o := mkOp 8 (Some (1, 0)) cqe_res ZeroCopy in
  leaf_run o (Pending None false) [mkCqe 8 100 IORING_CQE_F_MORE; mkCqe 8 0 IORING_CQE_F_NOTIF] (demo_env 64 0 [])
  = Done (Received 100 false, [Leaf 100], [false; true])
      (mkOEnv (world (demo_env 64 0 [])) [CallFree 8 0]).
Proof.
  destruct (finish_handle_sequences (mkOp 8 (Some (1, 0)) cqe_res ZeroCopy) None false (demo_env 64 0 []))
    as (_ & _ & Hz & _).
  apply (Hz (mkCqe 8 100 IORING_CQE_F_MORE) (mkCqe 8 0 IORING_CQE_F_NOTIF)); reflexivity.
Defined.
