(* ===== verification/OpCancel.v ===== *)
(** * Cancellation of operations, as entries of the submission queue

    [OpStatesProps.v] says which operations of a tree have had their stop callback
    run.  This file says what these callbacks do: they put a cancellation into the
    ring of the runtime (sender_operations.hpp, operation states and
    [Runtime::cancel_internal]).
    - [ring_log]: how a ring got from one state to another by the calls of
      [detail/ring.hpp], with the entries that were written on the way.
    - [tells]: the entries one operation writes cover the callbacks it runs, each
      once; one lemma per operation of [OpStates.v].
    - [op_history] and [when_any_cancels]: the requests of a whole run. *)

From stdpp Require Import base numbers list gmap.
From S2P Require Import Prelude WorkType Ring Runtime OpStates OpStatesProps.

(** ** The entries written into a ring *)

Section ring.
Context {U : Type} `{Uring U}.

(** [ring_log l u u']: calls of the ring wrapper lead from [u] to [u'], and the
    entries taken and written on the way are [l]. *)
Inductive ring_log : list sqe → U → U → Prop :=
  | rl_nil u : ring_log [] u u
  | rl_submit l u u' : ring_log l u u' → ring_log l u (uring_submit u').2
  | rl_wait l u u' : ring_log l u u' → ring_log l u (uring_sqring_wait u').2
  | rl_put l u u' slot u'' s :
      ring_log l u u' → uring_get_sqe u' = Some (slot, u'') → ring_log (l ++ [s]) u (uring_prep slot s u'').

Lemma ring_log_trans l1 l2 u1 u2 u3 : ring_log l1 u1 u2 → ring_log l2 u2 u3 → ring_log (l1 ++ l2) u1 u3.
Proof.
  intros H1. induction 1 as [u | | | l u u' slot u'' s _ IH Hg].
  - by rewrite app_nil_r.
  - by apply rl_submit, IHring_log.
  - by apply rl_wait, IHring_log.
  - rewrite app_assoc. eapply rl_put; [by apply IH | done].
Qed.

Lemma get_sqe__log fuel : ∀ (g : Ring U) slot g',
  get_sqe_ fuel g = Done slot g' → ∃ u, ring_log [] (ring_ g) u ∧ uring_get_sqe u = Some (slot, ring_ g').
Proof.
  induction fuel as [|fuel IH]; intros g slot g' E; [done |]. cbn [get_sqe_] in E. rewrite bind_get in E.
  destruct (uring_get_sqe (ring_ g)) as [[slot' u]|] eqn:Eg.
  { injection E as -> <-. exists (ring_ g). split; [constructor | done]. }
  apply bind_inv in E as ([] & g1 & E1 & E). injection E1 as <-. rewrite bind_get in E.
  apply bind_inv in E as ([] & g2 & E2 & (u & Hu & Eu)%IH). exists u. split; [| done].
  apply (ring_log_trans [] [] _ (ring_ g2)); [| done].
  cbn [ring_] in E2. destruct (uring_sqpoll _); [| injection E2 as <-; apply rl_submit, rl_nil].
  unfold sqring_wait in E2. rewrite bind_get in E2. cbn [ring_] in E2.
  destruct (uring_sqring_wait (uring_submit (ring_ g)).2) as [res v] eqn:Ew.
  apply bind_inv in E2 as ([] & g3 & E3 & E2). injection E3 as <-. unfold assert_ in E2.
  destruct (0 <=? res); [| done]. injection E2 as <-. cbn [ring_].
  replace v with (uring_sqring_wait (uring_submit (ring_ g)).2).2 by (by rewrite Ew). apply rl_wait, rl_submit, rl_nil.
Qed.

Lemma get_prep_log (g : Ring U) slot g' s :
  get_sqe g = Done slot g' → ring_log [s] (ring_ g) (uring_prep slot s (ring_ g')).
Proof. intros (u & Hu & E)%get_sqe__log. by apply (rl_put []) with (u' := u). Qed.

Lemma maybe_submit_log (g g' : Ring U) : maybe_submit g = Done tt g' → ring_log [] (ring_ g) (ring_ g').
Proof.
  unfold maybe_submit. erewrite bind_done by done. rewrite bind_get. cbn [submit_batch_ maybe_submit_count_].
  destruct (_ <=? _); intros E; injection E as <-; [apply rl_submit, rl_nil | apply rl_nil].
Qed.

Lemma reserve_space_log fuel n : ∀ g g' : Ring U, reserve_space fuel n g = Done tt g' → ring_log [] (ring_ g) (ring_ g').
Proof.
  induction fuel as [|fuel IH]; intros g g' E; [done |]. cbn [reserve_space] in E. rewrite bind_get in E.
  destruct (_ <=? _); [injection E as <-; constructor |].
  apply bind_inv in E as ([] & g1 & E1 & E%IH). injection E1 as <-.
  by apply (ring_log_trans [] [] _ (uring_submit (ring_ g)).2); [apply rl_submit, rl_nil |].
Qed.
End ring.

(** The handles a list of entries asks the kernel to cancel, by the entry that
    [Runtime::cancel_internal] writes. *)
Definition cancels (l : list sqe) : list Z :=
  omap (λ s, match s with mkSqe (SqeCancel64 data true) 1 => Some data | _ => None end) l.

(** ** The callbacks that have run *)

Section leaves.
Context {V : Type}.

(** The operations whose callback has run, and those that are idle or pending and
    whose callback has not. *)
Definition asked : list (op V * leaf_state V) → list Z :=
  omap (λ l, match l.2 with Pending _ true => Some (handle_addr l.1) | _ => None end).
Definition unasked : list (op V * leaf_state V) → list Z :=
  omap (λ l, match l.2 with Idle | Pending _ false => Some (handle_addr l.1) | _ => None end).

Definition all_leaves (cs : list (opstate V)) : list (op V * leaf_state V) := concat (map leaves cs).

Lemma all_leaves_app cs1 cs2 : all_leaves (cs1 ++ cs2) = all_leaves cs1 ++ all_leaves cs2.
Proof. unfold all_leaves. by rewrite map_app, concat_app. Qed.

Lemma all_leaves_cons c cs : all_leaves (c :: cs) = leaves c ++ all_leaves cs.
Proof. done. Qed.

Lemma all_leaves_split cs i c c' :
  cs !! i = Some c →
  all_leaves cs = all_leaves (take i cs) ++ leaves c ++ all_leaves (drop (S i) cs) ∧
  all_leaves (<[i := c']> cs) = all_leaves (take i cs) ++ leaves c' ++ all_leaves (drop (S i) cs).
Proof.
  intros Hi. split.
  - rewrite <- (take_drop_middle cs i c Hi) at 1. by rewrite all_leaves_app, all_leaves_cons.
  - rewrite insert_take_drop by (by eapply lookup_lt_Some). by rewrite all_leaves_app, all_leaves_cons.
Qed.
End leaves.

(** ** What one operation writes *)

Section tells.
Context {U V : Type} `{UringLaws U}.
Implicit Types (e : OEnv U V) (t : opstate V) (cs : list (opstate V)) (p : ParState V) (ls : list (op V * leaf_state V)).

(** The ring of [this] went from [e] to [e'] writing the entries [l]. *)
Definition logs (this : RuntimeId) (l : list sqe) e e' : Prop :=
  ∃ r r', runtimes (world e) !! this = Some r ∧ runtimes (world e') !! this = Some r' ∧
    ring_log l (ring_ (rt_ring_ r)) (ring_ (rt_ring_ r')).

(** The entries written from [e] to [e'] cancel, once each, the operations whose
    callbacks have run in between. *)
Definition tells (this : RuntimeId) ls ls' e e' : Prop :=
  ∃ l, logs this l e e' ∧ asked ls' ⊆ asked ls ++ cancels l ∧ cancels l ++ unasked ls' ⊆+ unasked ls.

Lemma logs_pend this l e e' : logs this l e e' → is_Some (pend this e').
Proof. intros (r & r' & _ & E & _). unfold pend. rewrite E. eauto. Qed.

Lemma logs_trans this l1 l2 e1 e2 e3 : logs this l1 e1 e2 → logs this l2 e2 e3 → logs this (l1 ++ l2) e1 e3.
Proof.
  intros (r1 & r2 & E1 & E2 & L1) (r2' & r3 & E2' & E3 & L2). simplify_eq.
  exists r1, r3. split_and!; [done | done | by eapply ring_log_trans].
Qed.

Lemma logs_same this e e' : is_Some (pend this e) → world e' = world e → logs this [] e e'.
Proof. intros [r Er]%pend_lookup Ew. exists r, r. rewrite Ew. split_and!; [done | done | constructor]. Qed.

Lemma cancels_app l1 l2 : cancels (l1 ++ l2) = cancels l1 ++ cancels l2.
Proof. apply omap_app. Qed.

Lemma tells_pend this ls ls' e e' : tells this ls ls' e e' → is_Some (pend this e').
Proof. intros (l & Hl & _). by eapply logs_pend. Qed.

(** Nothing is written, and no callback runs. *)
Lemma tells_quiet this l ls ls' e e' :
  logs this l e e' → cancels l = [] → asked ls' ⊆ asked ls → unasked ls' ⊆+ unasked ls → tells this ls ls' e e'.
Proof. intros Hl Hc Ha Hu. exists l. rewrite Hc, app_nil_r. done. Qed.

Lemma tells_refl this ls e : is_Some (pend this e) → tells this ls ls e e.
Proof. intros He. by apply (tells_quiet this []); [apply logs_same | | |]. Qed.

Lemma tells_trans this ls1 ls2 ls3 e1 e2 e3 :
  tells this ls1 ls2 e1 e2 → tells this ls2 ls3 e2 e3 → tells this ls1 ls3 e1 e3.
Proof.
  intros (l1 & L1 & A1 & U1) (l2 & L2 & A2 & U2). exists (l1 ++ l2).
  split; [by eapply logs_trans |]. rewrite cancels_app. split; [set_solver |].
  rewrite <- app_assoc. etrans; [by apply submseteq_app |]. exact U1.
Qed.

(** Callbacks of two parts of a tree, one after the other. *)
Lemma tells_app this ls1 ls1' ls2 ls2' e1 e2 e3 :
  tells this ls1 ls1' e1 e2 → tells this ls2 ls2' e2 e3 → tells this (ls1 ++ ls2) (ls1' ++ ls2') e1 e3.
Proof.
  intros (l1 & L1 & A1 & U1) (l2 & L2 & A2 & U2). exists (l1 ++ l2).
  split; [by eapply logs_trans |]. unfold asked, unasked in *. rewrite cancels_app, !omap_app. split; [set_solver |].
  transitivity ((cancels l1 ++ unasked ls1') ++ (cancels l2 ++ unasked ls2')); [| by apply submseteq_app].
  apply Permutation_submseteq. unfold unasked. solve_Permutation.
Qed.

Lemma tells_child this cs i c c' e e' :
  cs !! i = Some c → tells this (leaves c) (leaves c') e e' → is_Some (pend this e) →
  tells this (all_leaves cs) (all_leaves (<[i := c']> cs)) e e'.
Proof.
  intros Hi Ht He. destruct (all_leaves_split cs i c c' Hi) as [-> ->].
  apply (tells_app _ _ _ _ _ _ e); [by apply tells_refl |].
  eapply tells_app; [done |]. apply tells_refl. by eapply tells_pend.
Qed.

(** *** Cancellation *)

Lemma leaf_cancel_logs this o e :
  aligned (handle_addr o) → is_Some (pend this e) →
  ∃ e', leaf_cancel (Some this) this o e = Done tt e' ∧
    logs this [mkSqe (SqeCancel64 (handle_addr o) true) 1] e e'.
Proof.
  intros [Hw Ha] [r E]%pend_lookup. unfold leaf_cancel.
  erewrite bind_done by (by apply encode_work_run). change (work_type_code Common) with 0. rewrite Z.add_0_r.
  destruct (prep_on_ring (world e) this r (prep_cancel_ (handle_addr o)) _ E (prep_cancel_run _))
    as (r' & Ep & slot & g & Eg & ->).
  eexists. split.
  - unfold on_world. apply zoom_done. unfold cancel_internal. rewrite bool_decide_eq_true_2 by done. exact Ep.
  - eexists r, _. split_and!; [done | apply with_rt_lookup |]. by apply get_prep_log.
Qed.

Lemma mapM_tells this cs : ∀ cs' e e',
  Forall (λ c, ∀ c' e e', is_Some (pend this e) → notify_stop (Some this) c e = Done c' e' →
                 tells this (leaves c) (leaves c') e e') cs →
  is_Some (pend this e) → mapM (notify_stop (Some this)) cs e = Done cs' e' →
  tells this (all_leaves cs) (all_leaves cs') e e'.
Proof.
  induction cs as [|c cs IH]; intros cs' e e' Hcs He E; [injection E as <- <-; by apply tells_refl |].
  inversion Hcs as [|? ? Hc Hcs']; subst. cbn [mapM] in E.
  apply bind_inv in E as (c1 & e1 & E1 & E). apply bind_inv in E as (cs1 & e2 & E2 & E). injection E as <- <-.
  pose proof (Hc _ _ _ He E1) as H1. rewrite !all_leaves_cons.
  eapply tells_app; [done |]. eapply IH; [done | by eapply tells_pend | done].
Qed.

Lemma notify_tells this t : good this t → ∀ t' e e',
  is_Some (pend this e) → notify_stop (Some this) t e = Done t' e' → tells this (leaves t) (leaves t') e e'.
Proof.
  induction t as [o st | F s IH | p cs IH] using opstate_tree_ind; intros Hg t' e e' He E.
  - inversion Hg as [|? ? [Ha Hst] _]; subst.
    destruct st as [| [r|] [] | |]; try (injection E as <- <-; by apply tells_refl).
    simpl in Hst. subst r. destruct (leaf_cancel_logs this o e Ha He) as (e1 & E1 & L).
    cbn [notify_stop] in E. erewrite bind_done in E by exact E1. injection E as <- <-.
    eexists. split; [exact L |]. simpl. split; [set_solver | done].
  - cbn [notify_stop] in E. apply bind_inv in E as (s' & e1 & E1 & E). injection E as <- <-. exact (IH Hg _ _ _ He E1).
  - cbn [notify_stop] in E. destruct (_ && _); [injection E as <- <-; by apply tells_refl |].
    apply bind_inv in E as (cs' & e1 & E1 & E). injection E as <- <-. apply good_par in Hg.
    eapply (mapM_tells this cs); [| done | exact E1]. rewrite Forall_forall in *. eauto.
Qed.

(** [canceller_] and what a parallel state does with a result. *)
Lemma canceller_tells this p cs p' cs' e e' :
  Forall (good this) cs → is_Some (pend this e) → canceller (Some this) p cs e = Done (p', cs') e' →
  tells this (all_leaves cs) (all_leaves cs') e e' ∧ (cs' = cs ∨ cs' = map stop_tree cs).
Proof.
  intros Hg He E. destruct (canceller_ok this p cs e Hg He) as (e1 & E1 & _). rewrite E1 in E.
  unfold canceller in E1. destruct (any_ (kind_ p) && negb (stop_source_ p)); injection E as <- <- <-.
  - split; [| by right]. apply bind_inv in E1 as (cs1 & e2 & E2 & E1). injection E1 as <- <-.
    eapply mapM_tells; [| done | exact E2]. eapply Forall_impl; [exact Hg |]. intros c Hc. by apply notify_tells.
  - injection E1 as <-. split; [by apply tells_refl | by left].
Qed.

Lemma call_receiver_env p p' r e e' : call_receiver p e = Done (p', r) e' → e' = e.
Proof. unfold call_receiver. destruct (wrap_result p); [by intros [= _ _ <-] | done]. Qed.

Lemma child_result_tells this p cs i c r p' cs' r' e e' :
  Forall (good this) (<[i := c]> cs) → is_Some (pend this e) →
  child_result (Some this) p cs i c r e = Done (p', cs', r') e' →
  tells this (all_leaves (<[i := c]> cs)) (all_leaves cs') e e' ∧
  (cs' = <[i := c]> cs ∨ cs' = map stop_tree (<[i := c]> cs)).
Proof.
  intros Hg He. unfold child_result. destruct r as [v|].
  2: { intros [= _ <- _ <-]. split; [by apply tells_refl | by left]. }
  unfold receive_. intros ([p1 cs1] & e1 & E1 & E)%bind_inv.
  destruct (canceller_tells _ _ _ _ _ _ _ Hg He E1) as [Ht Hcs].
  destruct (bool_decide _); [| done]. destruct (bool_decide _); [| injection E as _ <- _ <-; done].
  apply bind_inv in E as ([p2 r2] & e2 & E2%call_receiver_env & E). injection E as _ <- _ <-. by subst e2.
Qed.

(** *** Starting *)

Lemma leaf_handle_tells this o st c st' r fin e e' :
  is_Some (pend this e) → leaf_good this (o, st) → leaf_handle o st c e = Done (st', r, fin) e' →
  tells this [(o, st)] [(o, st')] e e' ∧ leaf_good this (o, st').
Proof.
  intros He Hg E.
  assert (world e' = world e ∧ (st' = st ∨ (∃ v b, st' = Received v b) ∨ st' = Dropped)) as [Hw Hst'].
  { unfold leaf_handle in E. destruct (handle_kind_ o), st as [| | ? [] |]; simpl in E;
      repeat (match type of E with context [if ?b then _ else _] => destruct b end; simpl in E);
      try discriminate E; injection E as <- <- <- <-; eauto 10. }
  split.
  - apply (tells_quiet this []); [by apply logs_same | done | |];
      destruct Hst' as [-> | [(v & b & ->) | ->]]; simpl; done || set_solver || apply submseteq_nil_l.
  - split; [apply Hg |]. destruct Hst' as [-> | [(v & b & ->) | ->]]; [apply Hg | done | done].
Qed.

Lemma leaf_start_tells this tok flags o st' r e e' :
  is_Some (pend this e) → aligned (handle_addr o) →
  leaf_start (Some this) tok flags o e = Done (st', r) e' →
  tells this [(o, Idle)] [(o, st')] e e' ∧ leaf_good this (o, st').
Proof.
  intros He Ha E.
  assert (∀ res, fail_ o res e = Done (st', r) e' →
            tells this [(o, Idle)] [(o, st')] e e' ∧ leaf_good this (o, st')) as Hfail.
  { intros res Ef. unfold fail_ in Ef. apply bind_inv in Ef as (? & e1 & E1 & Ef). unfold assert_ in E1.
    destruct (res <? 0); [| done]. injection E1 as _ <-. apply bind_inv in Ef as ([[st1 r1] fin] & e2 & E2 & Ef).
    injection Ef as <- <- <-. by apply (leaf_handle_tells this o Idle _ _ _ _ _ _ He) in E2. }
  destruct (decide (tok = Some true)) as [-> | Htok]; [by apply (Hfail (- ECANCELED)) |].
  destruct (prep_func_ o) as [[opcode pf]|] eqn:Ep.
  2: { apply (Hfail (- EINVAL)). unfold leaf_start in E. by rewrite bool_decide_eq_false_2, Ep in E by done. }
  destruct (pend_lookup this e He) as [rt Er].
  destruct (leaf_submit_ok this tok flags o opcode pf e rt Ha Er Htok Ep) as (slot & g & g' & Eg & Es & _ & E').
  rewrite E in E'. injection E' as -> _ ->. split; [| split; [done | by destruct tok]].
  apply (tells_quiet this [op_sqe opcode pf flags (handle_addr o)]); [| done | done | done].
  exists rt. eexists. split_and!; [done | apply with_rt_lookup |].
  apply (ring_log_trans [_] [] _ _ _ (get_prep_log _ _ _ _ Eg)). by apply maybe_submit_log in Es.
Qed.

(** What a function that starts states writes. *)
Definition start_tells this (f : token → Z → opstate V → ST (OEnv U V) (opstate V * option (value V))) : Prop :=
  ∀ tok flags t e t' r e', good this t → fresh t → is_Some (pend this e) → f tok flags t e = Done (t', r) e' →
  tells this (leaves t) (leaves t') e e' ∧ good this t'.

Lemma good_stop_map this cs cs' :
  Forall (good this) cs → (cs' = cs ∨ cs' = map stop_tree cs) → Forall (good this) cs'.
Proof.
  intros Hg [-> | ->]; [done |]. apply Forall_map. eapply Forall_impl; [exact Hg |]. intros c. apply good_stop.
Qed.

Lemma start_children_tells this f tok flags :
  start_tells this f → ∀ todo i p cs r e p' cs' r' e',
  Forall (good this) cs → (∀ j c, cs !! j = Some c → (i ≤ j)%nat → fresh c) → is_Some (pend this e) →
  start_children (Some this) f tok flags i todo p cs r e = Done (p', cs', r') e' →
  tells this (all_leaves cs) (all_leaves cs') e e' ∧ Forall (good this) cs'.
Proof.
  intros Hf. induction todo as [|todo IH]; intros i p cs r e p' cs' r' e' Hg Hfr He E; cbn [start_children] in E.
  { injection E as _ <- _ <-. split; [by apply tells_refl | done]. }
  destruct (cs !! i) as [c|] eqn:Hi; [| done].
  apply bind_inv in E as ([c1 rc] & e1 & E1 & E). apply bind_inv in E as ([[p1 cs1] r1] & e2 & E2 & E).
  destruct (Hf _ _ _ _ _ _ _ ltac:(by eapply Forall_lookup_1 in Hg) (Hfr i c Hi (le_n i)) He E1) as [T1 G1].
  assert (Forall (good this) (<[i := c1]> cs)) as Hg1 by (by apply Forall_insert).
  destruct (child_result_tells _ _ _ _ _ _ _ _ _ _ _ Hg1 (tells_pend _ _ _ _ _ T1) E2) as [T2 Hcs1].
  pose proof (tells_child this cs i c c1 e e1 Hi T1 He) as T1'.
  eapply IH in E as [T3 G3]; [| by eapply good_stop_map | | by eapply tells_pend]; cycle 1.
  - intros j c0 Hj Hle. assert (∃ c2, cs !! j = Some c2 ∧ (c0 = c2 ∨ c0 = stop_tree c2)) as (c2 & Hj2 & Hc2).
    { destruct Hcs1 as [-> | ->].
      - rewrite list_lookup_insert_ne in Hj by lia. eauto.
      - rewrite list_lookup_fmap, list_lookup_insert_ne in Hj by lia. destruct (cs !! j); simplify_eq/=. eauto. }
    specialize (Hfr j c2 Hj2 ltac:(lia)). destruct Hc2 as [-> | ->]; [done | by apply fresh_stop].
  - split; [| done]. eapply tells_trans; [exact T1' |]. by eapply tells_trans.
Qed.

Lemma reserve_logs this f n e e' : on_world (V := V) (on_rt_ring this (reserve_space f n)) e = Done tt e' → logs this [] e e'.
Proof.
  unfold on_world, zoom. destruct (on_rt_ring this _ (world e)) as [[] w | |] eqn:E; [| done..]. intros [= <-].
  unfold on_rt_ring in E. apply bind_inv in E as (r & w1 & E1 & E). unfold get_rt in E1. rewrite bind_get in E1.
  destruct (runtimes (world e) !! this) as [r0|] eqn:Er; [| done]. injection E1 as -> <-.
  destruct (reserve_space f n (rt_ring_ r)) as [[] g | |] eqn:Eg; [| done..]. injection E as <-.
  exists r. eexists. split_and!; [done | apply with_rt_lookup |]. by apply reserve_space_log in Eg.
Qed.

Lemma start_from_tells this f tok flags p cs t' r e e' :
  start_tells this f → good this (Parallel p cs) → fresh (Parallel p cs) → is_Some (pend this e) →
  ('(p, cs, r) ← start_children (Some this) f tok flags 0 (length cs) p cs None;
   mret (Parallel p cs, r)) e = Done (t', r) e' →
  tells this (all_leaves cs) (leaves t') e e' ∧ good this t'.
Proof.
  intros Hf Hg Hfr He E. apply bind_inv in E as ([[p1 cs1] r1] & e1 & E1 & E). injection E as <- <- <-.
  apply good_par in Hg. eapply start_children_tells in E1 as [T G]; [| done | done | | done].
  - split; [exact T |]. by apply good_par.
  - intros j c Hj _. inversion Hfr as [| | ? ? ? ? ? ? Hcs]; subst. by eapply Forall_lookup_1 in Hcs.
Qed.

Lemma start_tells_all this sf depth : start_tells this (start depth (Some this) sf).
Proof.
  induction depth as [|depth IH]; intros tok flags t e t' r e' Hg Hf He E; [done |].
  destruct t as [o st | F s | p cs]; cbn [start] in E.
  - inversion Hf; subst. apply bind_inv in E as ([st' r'] & e1 & E1 & E). injection E as <- <- <-.
    inversion Hg as [|? ? [Ha _] _]; subst.
    destruct (leaf_start_tells _ _ _ _ _ _ _ _ He Ha E1) as [T G]. split; [exact T |]. by constructor.
  - apply bind_inv in E as ([s' r'] & e1 & E1 & E). injection E as <- <- <-. inversion Hf; subst.
    by eapply IH in E1.
  - unfold par_start in E. destruct (link_ (kind_ p)).
    + apply bind_inv in E as ([] & e1 & E1%reserve_logs & E).
      eapply start_from_tells in E as [T G]; [| done | done | done | by eapply logs_pend].
      split; [| done]. eapply tells_trans; [| exact T]. by apply (tells_quiet this []).
    + destruct cs as [|c cs]; [| by eapply start_from_tells in E].
      apply bind_inv in E as ([p1 r1] & e1 & E1%call_receiver_env & E). injection E as <- <- <-. subst e1.
      split; [by apply tells_refl | done].
Qed.

(** *** Completions *)

Lemma handle_tells this c : ∀ path t t' r fin e e',
  good this t → is_Some (pend this e) → handle (Some this) path t c e = Done (t', r, fin) e' →
  tells this (leaves t) (leaves t') e e' ∧ good this t'.
Proof.
  induction path as [|i path IH]; intros t t' r fin e e' Hg He E; destruct t as [o st | F s | p cs]; try done;
    cbn [handle] in E.
  - apply bind_inv in E as ([[st' r'] fin'] & e1 & E1 & E). injection E as <- <- <- <-.
    inversion Hg as [|? ? Hl _]; subst. destruct (leaf_handle_tells _ _ _ _ _ _ _ _ _ He Hl E1) as [T G].
    split; [exact T |]. by constructor.
  - apply bind_inv in E as ([[s' r'] fin'] & e1 & E1 & E). injection E as <- <- <- <-. by eapply IH in E1.
  - destruct (cs !! i) as [ch|] eqn:Hi; [| done].
    apply bind_inv in E as ([[ch' rc] fin'] & e1 & E1 & E). apply bind_inv in E as ([[p1 cs1] r1] & e2 & E2 & E).
    injection E as <- <- <- <-. apply good_par in Hg.
    eapply IH in E1 as [T1 G1]; [| by eapply Forall_lookup_1 in Hg | done].
    assert (Forall (good this) (<[i := ch']> cs)) as Hg1 by (by apply Forall_insert).
    destruct (child_result_tells _ _ _ _ _ _ _ _ _ _ _ Hg1 (tells_pend _ _ _ _ _ T1) E2) as [T2 Hcs1].
    split; [| apply good_par; by eapply good_stop_map].
    eapply tells_trans; [by apply (tells_child this cs i ch ch' e e1) | exact T2].
Qed.

Lemma resume_logs this e e' : on_world (V := V) (resume_work_internal (Some this) this) e = Done tt e' → logs this [] e e'.
Proof.
  unfold on_world, zoom. destruct (resume_work_internal _ _ (world e)) as [[] w | |] eqn:E; [| done..]. intros [= <-].
  unfold resume_work_internal in E. rewrite bind_assert in E by (by apply bool_decide_eq_true_2).
  unfold upd_rt in E. apply bind_inv in E as (r & w1 & E1 & E). unfold get_rt in E1. rewrite bind_get in E1.
  destruct (runtimes (world e) !! this) as [r0|] eqn:Er; [| done]. injection E1 as -> <-. injection E as <-.
  exists r. eexists. split_and!; [done | apply with_rt_lookup | constructor].
Qed.

Lemma process_op_tells this path t c t' r e e' :
  good this t → is_Some (pend this e) → process_op this path t c e = Done (t', r) e' →
  tells this (leaves t) (leaves t') e e'.
Proof.
  intros Hg He E. unfold process_op in E. apply bind_inv in E as ([[t1 r1] fin] & e1 & E1 & E).
  apply bind_inv in E as ([] & e2 & E2 & E). injection E as <- <- <-.
  eapply handle_tells in E1 as [T _]; [| done | done]. eapply tells_trans; [exact T |].
  destruct fin; [by apply (tells_quiet this []); [apply resume_logs | | |] |].
  injection E2 as <-. apply tells_refl. by eapply tells_pend.
Qed.

End tells.

(** ** Whole runs *)

Section history.
Context {U V : Type} `{UringLaws U}.

(** A run of an operation and the entries its own steps have written into the ring
    of [this] so far; what other work of the runtime writes in between is not
    counted. *)
Inductive op_history (this : RuntimeId) (s : sender V) (tok : token) (e0 : OEnv U V) : OSys → list sqe → Prop :=
  | hist_start t r e l :
      connect_start this s tok e0 = Done (t, r) e → logs this l e0 e →
      op_history this s tok e0 (mkOSys t tok e (option_list r)) l
  | hist_completion sys path o st c t r e l l' :
      op_history this s tok e0 sys l →
      leaf_at path (tree sys) = Some (o, st) → accepts (o, st) c = true →
      process_op this path (tree sys) c (env sys) = Done (t, r) e → logs this l' (env sys) e →
      op_history this s tok e0 (mkOSys t (stop_token sys) e (got sys ++ option_list r)) (l ++ l')
  | hist_stop sys t e l l' :
      op_history this s tok e0 sys l →
      stop_token sys = Some false → notify_stop (Some this) (tree sys) (env sys) = Done t e →
      logs this l' (env sys) e → op_history this s tok e0 (mkOSys t (Some true) e (got sys)) (l ++ l')
  | hist_other sys e l :
      op_history this s tok e0 sys l → moves this 0 (env sys) e →
      op_history this s tok e0 (mkOSys (tree sys) (stop_token sys) e (got sys)) l.

(** The addresses of the operations of a tree. *)
Definition handles (t : opstate V) : list Z := (λ l, handle_addr l.1) <$> leaves t.

Lemma unasked_handles (t : opstate V) : unasked (leaves t) ⊆+ handles t.
Proof.
  unfold handles. induction (leaves t) as [|[o st] ls IH]; [done |]. cbn.
  destruct st as [| ? [] | |]; (by apply submseteq_skip) || (by apply submseteq_cons).
Qed.

(** The requests written so far: every callback that has run is among them, and
    none of an operation whose callback is still to run. *)
Definition requested (s : sender V) (tok : token) (t : opstate V) (l : list sqe) : Prop :=
  asked (leaves t) ⊆ cancels l ∧ cancels l ++ unasked (leaves t) ⊆+ handles (connect tok s).

Lemma requested_step s tok t t' l l' :
  requested s tok t l → asked (leaves t') ⊆ asked (leaves t) ++ cancels l' →
  cancels l' ++ unasked (leaves t') ⊆+ unasked (leaves t) → requested s tok t' (l ++ l').
Proof.
  intros [Ha Hu] Ha' Hu'. unfold requested. rewrite cancels_app. split; [set_solver |].
  rewrite <- app_assoc. etrans; [by apply submseteq_app |]. exact Hu.
Qed.

Lemma asked_fresh (t : opstate V) : fresh t → asked (leaves t) = [].
Proof.
  induction t as [o st | F s IH | p cs IH] using opstate_tree_ind; intros Hf; inversion Hf as [| | ? ? ? ? ? ? Hcs]; subst;
    [done | auto |]. cbn [leaves]. clear -IH Hcs. induction IH as [|c cs Hc _ IHcs]; [done |].
  inversion Hcs; subst. cbn [map concat]. unfold asked in *. rewrite omap_app, Hc, IHcs by done. done.
Qed.

Lemma history_step this d s tok e0 sys sys' l :
  op_step this sys sys' → sys_ok this d e0 sys → op_history this s tok e0 sys l → requested s tok (tree sys) l →
  ∃ l', op_history this s tok e0 sys' l' ∧ requested s tok (tree sys') l'.
Proof.
  intros Hstep [Hn _ _ M] Hh Hq. pose proof (moves_some _ _ _ _ M) as He.
  destruct Hstep as [sys path o st c t r e Hl Hacc E | sys t e Htok E | sys e Mo]; simpl in *.
  - destruct (process_op_tells _ _ _ _ _ _ _ _ (no_good _ _ _ _ Hn) He E) as (l' & L & A & Un).
    exists (l ++ l'). split; [by eapply hist_completion | by eapply requested_step].
  - destruct (notify_tells _ _ (no_good _ _ _ _ Hn) _ _ _ He E) as (l' & L & A & Un).
    exists (l ++ l'). split; [by eapply hist_stop | by eapply requested_step].
  - exists l. split; [by apply hist_other | done].
Qed.

Lemma history_steps this d s tok e0 sys sys' l :
  rtc (op_step this) sys sys' → sys_ok this d e0 sys → op_history this s tok e0 sys l → requested s tok (tree sys) l →
  ∃ l', op_history this s tok e0 sys' l' ∧ requested s tok (tree sys') l'.
Proof.
  intros Hr. revert l. induction Hr as [sys | sys sys1 sys2 Hst _ IH]; intros l Hok Hh Hq; [eauto |].
  destruct (history_step _ _ _ _ _ _ _ _ Hst Hok Hh Hq) as (l' & Hh' & Hq').
  eapply IH; [by eapply op_step_ok | done | done].
Qed.

Lemma reach_history this d s tok e0 sys :
  sender_ok d s → in_runtime this d e0 → op_reach this s tok e0 sys →
  ∃ l, op_history this s tok e0 sys l ∧ requested s tok (tree sys) l.
Proof.
  intros Hs He (t & r & e & E & Hr). destruct (connect_start_ok this d s tok e0 Hs He) as (t' & r' & e' & E' & Hok).
  rewrite E in E'. injection E' as <- <- <-. destruct (connect_ok this d s tok Hs) as [Hf Hn].
  pose proof E as Est. unfold connect_start in Est.
  eapply start_tells_all in Est as [(l & L & A & Un) _]; [| apply Hn | done | apply He].
  eapply history_steps; [exact Hr | exact Hok | by eapply hist_start |].
  rewrite (asked_fresh _ Hf) in A. split; [done |]. etrans; [exact Un | apply unasked_handles].
Qed.

(** A pending operation below a state where no callback is due has been asked. *)
Lemma cancelled_asked (t : opstate V) o cb x :
  uncancelled t = [] → (o, Pending cb x) ∈ leaves t → handle_addr o ∈ asked (leaves t).
Proof.
  intros Hu Hin. unfold asked. apply list_elem_of_omap. exists (o, Pending cb x). split; [done |].
  destruct x; [done |]. exfalso. apply (not_elem_of_nil ((o, Pending cb false) : op V * leaf_state V)). rewrite <- Hu.
  unfold uncancelled. by apply list_elem_of_filter.
Qed.

Lemma asked_below path : ∀ (t t' : opstate V), node_at path t = Some t' → asked (leaves t') ⊆ asked (leaves t).
Proof.
  induction path as [|i path IH]; intros t t' Hat; [simpl in Hat; by simplify_eq |].
  destruct t as [o st | F s | p cs]; simpl in Hat; [done | exact (IH _ _ Hat) |].
  destruct (cs !! i) as [c|] eqn:Hi; [| done]. cbn [leaves]. etrans; [exact (IH _ _ Hat) |].
  change (concat (map leaves cs)) with (all_leaves cs). rewrite (proj1 (all_leaves_split cs i c c Hi)).
  unfold asked. rewrite !omap_app. set_solver.
Qed.

(** C27. Cancellation reaches everything it should.  In every run there is a log of the
    entries the operation has written into the ring of its runtime in which:
    once one child of a [when_any], at any depth, has delivered, there is a
    cancellation (with the flag for no completion on success) for every operation
    below that is still pending; after a stop request from outside there is one
    for every pending operation of the whole expression; and no operation is
    cancelled twice. *)
Theorem when_any_cancels this d s tok e0 sys :
  sender_ok d s → in_runtime this d e0 → op_reach this s tok e0 sys →
  ∃ l, op_history this s tok e0 sys l ∧ cancels l ⊆+ handles (connect tok s) ∧
    (∀ path p cs, node_at path (tree sys) = Some (Parallel p cs) → any_ (kind_ p) = true →
       (0 < completed_count_ p)%nat →
       ∀ o cb x, (o, Pending cb x) ∈ leaves (Parallel p cs) → handle_addr o ∈ cancels l) ∧
    (stop_token sys = Some true → ∀ o cb x, (o, Pending cb x) ∈ leaves (tree sys) → handle_addr o ∈ cancels l).
Proof.
  intros Hs He Hr. destruct (reach_history this d s tok e0 sys Hs He Hr) as (l & Hh & Ha & Hu). exists l.
  split; [done |]. split; [etrans; [by apply submseteq_inserts_r | exact Hu] |].
  destruct (op_reach_ok this d s tok e0 sys Hs He Hr) as [[_ _ _ Hst] _ _ _]. split.
  - intros path p cs Hat Hany Hc o cb x Hin. apply Ha, (asked_below path _ _ Hat).
    apply (cancelled_asked _ o cb x); [| done]. by eapply any_cancelled.
  - intros Ht o cb x Hin. apply Ha, (cancelled_asked _ o cb x); [| done].
    rewrite Ht in Hst. by apply stops_ok_cancelled.
Qed.
End history.

(** *** A concrete run *)

(** The second child of [demo_any] has delivered both its results; the first is
    pending, and its cancellation is in the queue. *)
Lemma when_any_cancels_witness :
  match run_operation 0 demo_any None (demo_env 64 0 []) (take 2 demo_events) with
  | Some sys =>
      ∃ l, op_history 0 demo_any None (demo_env 64 0 []) sys l ∧ cancels l ⊆+ [8; 16; 24] ∧ 8 ∈ cancels l ∧
        ∃ rt, runtimes (world (env sys)) !! 0%nat = Some rt ∧
          last (sim_sq (ring_ (rt_ring_ rt))) = Some (mkSqe (SqeCancel64 8 true) 1)
  | None => False
  end.
Proof.
  destruct (run_operation 0 demo_any None (demo_env 64 0 []) (take 2 demo_events)) as [sys|] eqn:E;
    [| vm_compute in E; discriminate E].
  destruct (when_any_cancels 0 (4, false) demo_any None (demo_env 64 0 []) sys demo_any_ok
              (demo_in_runtime 64 0 []) (run_operation_reach _ _ _ _ _ _ E)) as (l & Hh & Hsub & Hc & _).
  exists l. split; [exact Hh |]. split; [exact Hsub |]. vm_compute in E. injection E as <-. split.
  - apply (Hc [] _ _ eq_refl eq_refl Nat.lt_0_1 (demo_op 8) (Some 0%nat) true). apply list_elem_of_here.
  - eexists. split; [reflexivity | vm_compute; reflexivity].
Defined.
