(* ===== verification/OpShape.v ===== *)
(** * The shape of operation states (include/condy/detail/op_states.hpp)

    The tree of operation states of a sender keeps its shape while it is started,
    completed and cancelled, and each leaf holds a value its own completion handler
    has made. *)

From stdpp Require Import base numbers list gmap.
From S2P Require Import Prelude WorkType Ring Runtime OpStates OpStatesProps.

Set Warnings "-register-all".

(** A property of what a computation returns, whatever the state. *)
Definition returns {S A} (m : ST S A) (Q : A → Prop) : Prop := ∀ s a s', m s = Done a s' → Q a.

Lemma returns_ret {S A} (a : A) (Q : A → Prop) : Q a → returns (S := S) (mret a) Q.
Proof. by intros HQ s a' s' [= <- <-]. Qed.

Lemma returns_bind {S A B} (m : ST S A) (k : A → ST S B) (P : A → Prop) (Q : B → Prop) :
  returns m P → (∀ a, P a → returns (k a) Q) → returns (m ≫= k) Q.
Proof. intros Hm Hk s b s' E. apply bind_inv in E as (a & s1 & E1 & E2). eapply Hk; [by eapply Hm | done]. Qed.

(** When nothing is known of the first result. *)
Lemma returns_then {S A B} (m : ST S A) (k : A → ST S B) (Q : B → Prop) :
  (∀ a, returns (k a) Q) → returns (m ≫= k) Q.
Proof. intros Hk. apply returns_bind with (λ _, True); [done | auto]. Qed.

Lemma returns_crashed {S A} c (Q : A → Prop) : returns (S := S) (crashed c) Q.
Proof. done. Qed.

Lemma returns_mapM {S A B} (f : B → ST S A) (P : B → A → Prop) (l : list B) :
  Forall (λ b, returns (f b) (P b)) l → returns (mapM f l) (Forall2 P l).
Proof.
  induction 1 as [|b l Hb _ IH]; simpl; [by apply returns_ret |].
  eapply returns_bind; [exact Hb |]. intros a Ha.
  eapply returns_bind; [exact IH |]. intros l' Hl'. apply returns_ret. by constructor.
Qed.

(** Goals [returns] of a body, through binds whose results do not matter. *)
Ltac returns_step :=
  first [ apply returns_crashed | apply returns_ret | apply returns_then; intros ?
        | match goal with |- returns (match ?x with _ => _ end) _ => destruct x end ].

Section shape.
Context {U V : Type} `{Uring U}.
Implicit Types (s : sender V) (t : opstate V) (e : OEnv U V).

Definition made (o : op V) (st : leaf_state V) : Prop :=
  match st with Received v _ => ∃ c, v = cqe_handler_ o c | _ => True end.

Inductive built : sender V → opstate V → Prop :=
  | built_op o st : made o st → built (OpSender o) (OpState o st)
  | built_flagged F s t : built s t → built (FlaggedOpSender F s) (FlaggedOpState F t)
  | built_par p ss cs : Forall2 built ss cs → built (ParallelSender (kind_ p) ss) (Parallel p cs).

Lemma built_connect s : ∀ tok, built s (connect tok s).
Proof.
  induction s as [o | F s IH | k ss IH] using sender_tree_ind; intros tok; simpl; [by constructor | by constructor |].
  apply (built_par (par_new k (length ss) tok)). apply Forall2_fmap_r, Forall_Forall2_diag.
  eapply Forall_impl; [exact IH |]. auto.
Qed.

Lemma built_par_inv s p cs : built s (Parallel p cs) → ∃ ss, s = ParallelSender (kind_ p) ss ∧ Forall2 built ss cs.
Proof. inversion 1; subst. eauto. Qed.

(** Changes of a parallel state that keep its kind. *)
Lemma built_par_to k p ss cs : kind_ p = k → Forall2 built ss cs → built (ParallelSender k ss) (Parallel p cs).
Proof. intros <-. by constructor. Qed.

Lemma built_insert ss cs i c c' :
  Forall2 built ss cs → cs !! i = Some c → (∀ s, built s c → built s c') → Forall2 built ss (<[i := c']> cs).
Proof.
  intros Hss Hc Hb. destruct (Forall2_lookup_r _ _ _ _ _ Hss Hc) as (s & Hs & Hsc).
  rewrite <- (list_insert_id ss i s Hs). apply Forall2_insert; auto.
Qed.

Lemma notify_built curr t : returns (notify_stop (U := U) curr t) (λ t', ∀ s, built s t → built s t').
Proof.
  induction t as [o st | F t IH | p cs IH] using opstate_tree_ind; simpl.
  - destruct st as [|[this|] [] | |]; repeat returns_step; auto. intros s Hs. inversion Hs; subst. by constructor.
  - eapply returns_bind; [exact IH |]. intros t' Ht'. apply returns_ret. intros s Hs. inversion Hs; subst.
    constructor. auto.
  - returns_step; [by apply returns_ret |].
    eapply returns_bind; [apply returns_mapM, IH |]. intros cs' Hcs'. apply returns_ret.
    intros s (ss & -> & Hss)%built_par_inv. apply built_par_to; [by destruct (any_ (kind_ p)) |].
    clear -Hss Hcs'. revert ss Hss. induction Hcs'; intros ss Hss; inversion Hss; subst; constructor; auto.
Qed.

(** What a parallel state and its children may become. *)
Definition keeps (p : ParState V) (cs : list (opstate V)) (p' : ParState V) (cs' : list (opstate V)) : Prop :=
  kind_ p' = kind_ p ∧ length cs' = length cs ∧ ∀ ss, Forall2 built ss cs → Forall2 built ss cs'.

Lemma keeps_built p cs p' cs' s : keeps p cs p' cs' → built s (Parallel p cs) → built s (Parallel p' cs').
Proof. intros (Hk & _ & Hb) (ss & -> & Hss)%built_par_inv. apply built_par_to; auto. Qed.

Lemma keeps_trans p1 cs1 p2 cs2 p3 cs3 : keeps p1 cs1 p2 cs2 → keeps p2 cs2 p3 cs3 → keeps p1 cs1 p3 cs3.
Proof. intros (? & ? & ?) (? & ? & ?). split_and!; [congruence | congruence | auto]. Qed.

Lemma canceller_keeps curr p cs : returns (canceller (U := U) curr p cs) (λ '(p', cs'), keeps p cs p' cs').
Proof.
  unfold canceller. returns_step; [| by apply returns_ret].
  eapply returns_bind; [apply returns_mapM; apply Forall_forall; intros c _; apply notify_built |].
  intros cs' Hcs'. apply returns_ret. split_and!; [done | by rewrite (Forall2_length _ _ _ Hcs') |].
  intros ss Hss. revert ss Hss. induction Hcs'; intros ss Hss; inversion Hss; subst; constructor; auto.
Qed.

Lemma call_receiver_keeps p cs : returns (call_receiver (U := U) p) (λ '(p', _), keeps p cs p' cs).
Proof. unfold call_receiver. by repeat returns_step. Qed.

Lemma receive_keeps curr p cs i v : returns (receive_ (U := U) curr p cs i v) (λ '(p', cs', _), keeps p cs p' cs').
Proof.
  unfold receive_. eapply returns_bind; [apply canceller_keeps |]. intros [p1 cs1] K1. cbv beta iota zeta.
  returns_step; [| apply returns_crashed]. returns_step; [| by apply returns_ret].
  eapply returns_bind; [apply (call_receiver_keeps _ cs1) |]. intros [p2 r] K2. apply returns_ret.
  eapply keeps_trans; [exact K1 |]. by eapply keeps_trans; [| exact K2].
Qed.

Lemma child_result_keeps curr p cs i c c' r :
  cs !! i = Some c → (∀ s, built s c → built s c') →
  returns (child_result (U := U) curr p cs i c' r) (λ '(p', cs', _), keeps p cs p' cs').
Proof.
  intros Hc Hb. assert (keeps p cs p (<[i := c']> cs)) as K.
  { split_and!; [done | by rewrite length_insert |]. intros ss Hss. by eapply built_insert. }
  unfold child_result. destruct r as [v|]; [| by apply returns_ret].
  intros e [[p' cs'] r] e' E. apply receive_keeps in E. by eapply keeps_trans.
Qed.

Lemma leaf_handle_made o st c :
  returns (leaf_handle (U := U) o st c) (λ '(st', _, _), made o st → made o st').
Proof.
  unfold leaf_handle, made. cbv zeta. destruct (handle_kind_ o), st; simpl; repeat returns_step; eauto.
Qed.

Lemma fail_made o res : returns (fail_ (U := U) o res) (λ '(st', _), made o st').
Proof.
  unfold fail_. returns_step. eapply returns_bind; [apply leaf_handle_made |]. intros [[st r] fin] Hst.
  apply returns_ret. by apply Hst.
Qed.

Lemma leaf_start_made curr tok flags o : returns (leaf_start (U := U) curr tok flags o) (λ '(st', _), made o st').
Proof.
  unfold leaf_start. destruct curr as [this|]; [| apply fail_made]. returns_step; [apply fail_made |].
  destruct (prep_func_ o) as [[]|]; [| apply fail_made]. by repeat returns_step.
Qed.

(** The functions that start a child. *)
Definition start_keeps (f : token → Z → opstate V → ST (OEnv U V) (opstate V * option (value V))) : Prop :=
  ∀ tok flags t, returns (f tok flags t) (λ '(t', _), ∀ s, built s t → built s t').

Lemma start_children_keeps curr f tok flags todo : start_keeps f → ∀ i p cs r,
  returns (start_children curr f tok flags i todo p cs r) (λ '(p', cs', _), keeps p cs p' cs').
Proof.
  intros Hf. induction todo as [|todo IH]; intros i p cs r; simpl; [by apply returns_ret |].
  destruct (cs !! i) as [c|] eqn:Hc; [| apply returns_crashed].
  eapply returns_bind; [apply Hf |]. intros [c' rc] Hb.
  eapply returns_bind; [by eapply child_result_keeps |]. intros [[p1 cs1] r1] K1.
  intros e [[p2 cs2] r2] e' E. apply IH in E. by eapply keeps_trans.
Qed.

Lemma par_start_keeps curr sf f tok flags p cs : start_keeps f →
  returns (par_start curr sf f tok flags p cs) (λ '(t', _), ∀ s, built s (Parallel p cs) → built s t').
Proof.
  intros Hf. unfold par_start.
  assert (∀ n, returns ('(p', cs', r) ← start_children curr f tok flags 0 n p cs None; mret (Parallel p' cs', r))
    (λ '(t', _), ∀ s, built s (Parallel p cs) → built s t')) as Hall.
  { intros n. eapply returns_bind; [by apply start_children_keeps |]. intros [[p' cs'] r] K. apply returns_ret.
    intros s. by apply keeps_built. }
  destruct (link_ (kind_ p)).
  - destruct curr; [| apply returns_crashed]. returns_step. apply Hall.
  - destruct cs as [|c cs]; [| apply Hall].
    eapply returns_bind; [apply (call_receiver_keeps p []) |]. intros [p' r] K. apply returns_ret.
    intros s. by apply keeps_built.
Qed.

Lemma start_built depth curr sf : start_keeps (start depth curr sf).
Proof.
  induction depth as [|depth IH]; intros tok flags t; simpl; [apply returns_crashed |].
  destruct t as [o st | F t | p cs].
  - eapply returns_bind; [apply leaf_start_made |]. intros [st' r] Hst. apply returns_ret. intros s Hs.
    inversion Hs; subst. by constructor.
  - eapply returns_bind; [apply IH |]. intros [t' r] Ht. apply returns_ret. intros s Hs. inversion Hs; subst.
    constructor. auto.
  - by apply par_start_keeps.
Qed.

Lemma handle_built curr c : ∀ path t,
  returns (handle (U := U) curr path t c) (λ '(t', _, _), ∀ s, built s t → built s t').
Proof.
  induction path as [|i path IH]; intros [o st | F t | p cs]; simpl; try apply returns_crashed.
  - eapply returns_bind; [apply leaf_handle_made |]. intros [[st' r] fin] Hst. apply returns_ret. intros s Hs.
    inversion Hs; subst. constructor. auto.
  - eapply returns_bind; [apply IH |]. intros [[t' r] fin] Ht. apply returns_ret. intros s Hs. inversion Hs; subst.
    constructor. auto.
  - destruct (cs !! i) as [ch|] eqn:Hch; [| apply returns_crashed].
    eapply returns_bind; [apply IH |]. intros [[ch' rc] fin] Hb.
    eapply returns_bind; [by eapply child_result_keeps |]. intros [[p' cs'] r] K. apply returns_ret.
    intros s. by apply keeps_built.
Qed.

Lemma process_op_built this path t c :
  returns (process_op (U := U) this path t c) (λ '(t', _), ∀ s, built s t → built s t').
Proof.
  unfold process_op. eapply returns_bind; [apply handle_built |]. intros [[t' r] fin] Hb. returns_step.
  by apply returns_ret.
Qed.

End shape.

(** The tree of a running operation has the shape of its sender. *)
Lemma op_reach_built {U V} `{UringLaws U} this (s : sender V) tok (e0 : OEnv U V) sys :
  op_reach this s tok e0 sys → built s (tree sys).
Proof.
  intros (t & r & e & E & Hr). assert (built s t) as Hb.
  { unfold connect_start in E. apply start_built in E. apply E, built_connect. }
  remember (mkOSys t tok e (option_list r)) as sys0 eqn:E0.
  assert (built s (tree sys0)) as Hb0 by (by subst sys0). clear E0 E Hb.
  induction Hr as [| sys0 sys1 sys2 Hstep _ IH]; [done |]. apply IH.
  destruct Hstep as [sys path o st c t' r' e' _ _ E | sys t' e' _ E |]; simpl; [| | done].
  - apply process_op_built in E. auto.
  - apply notify_built in E. auto.
Qed.

(** ** Operations leave the works of the runtimes alone *)

(** A part of the state that a computation does not change. *)
Definition preserves {S A P} (π : S → P) (m : ST S A) : Prop := ∀ s a s', m s = Done a s' → π s' = π s.

Lemma preserves_ret {S A P} (π : S → P) (a : A) : preserves π (mret a).
Proof. by intros s a' s' [= <- <-]. Qed.

Lemma preserves_crashed {S A P} (π : S → P) c : preserves (A := A) π (crashed c).
Proof. done. Qed.

Lemma preserves_bind {S A B P} (π : S → P) (m : ST S A) (k : A → ST S B) :
  preserves π m → (∀ a, preserves π (k a)) → preserves π (m ≫= k).
Proof.
  intros Hm Hk s b s' E. apply bind_inv in E as (a & s1 & E1 & E2). rewrite (Hk _ _ _ _ E2). by eapply Hm.
Qed.

Lemma preserves_assert {S P} (π : S → P) b : preserves π (assert_ b).
Proof. unfold assert_. destruct b; [apply preserves_ret | apply preserves_crashed]. Qed.

Lemma preserves_mapM {S A B P} (π : S → P) (f : B → ST S A) l :
  Forall (λ b, preserves π (f b)) l → preserves π (mapM f l).
Proof.
  induction 1 as [|b l Hb _ IH]; simpl; [apply preserves_ret |].
  apply preserves_bind; [done |]. intros a. apply preserves_bind; [done |]. intros l'. apply preserves_ret.
Qed.

Create HintDb preserves.
#[export] Hint Resolve preserves_ret preserves_crashed preserves_assert : preserves.

Ltac preserves_step :=
  first [ done | solve [eauto with preserves] | apply preserves_bind; [| intros ?]
        | match goal with |- preserves _ (match ?x with _ => _ end) => destruct x end ].

Section quiet.
Context {U V : Type} `{Uring U} (this : RuntimeId).
Implicit Types (w : World U) (e : OEnv U V) (t : opstate V).

(** The works queued on the runtime [this]. *)
Definition works_of w : option (list Z) := local_queue_ <$> runtimes w !! this.
Abbreviation quiet := (preserves (S := World U) works_of).
Abbreviation equiet := (preserves (S := OEnv U V) (λ e, works_of (world e))).

Lemma works_same w id r r' :
  runtimes w !! id = Some r → local_queue_ r' = local_queue_ r →
  works_of (mkWorld (<[id := r']> (runtimes w)) (sync_msgs w) (context w)) = works_of w.
Proof.
  intros Hr Hq. unfold works_of. simpl. destruct (decide (id = this)) as [-> | ?].
  - rewrite lookup_insert_eq, Hr. simpl. by rewrite Hq.
  - by rewrite lookup_insert_ne.
Qed.

Lemma get_rt_done id w r w' : get_rt id w = Done r w' → w' = w ∧ runtimes w !! id = Some r.
Proof. unfold get_rt. rewrite bind_get. destruct (runtimes w !! id); by intros [= <- <-]. Qed.

Lemma quiet_get_rt id : quiet (get_rt id).
Proof. by intros w r w' [-> _]%get_rt_done. Qed.

Lemma quiet_upd_rt id f : (∀ r, local_queue_ (f r) = local_queue_ r) → quiet (upd_rt id f).
Proof.
  intros Hf w [] w' E. unfold upd_rt in E. apply bind_inv in E as (r & w1 & [-> Hr]%get_rt_done & E).
  injection E as <-. by eapply works_same.
Qed.

Lemma quiet_on_rt_ring {A} id (m : ST (Ring U) A) : quiet (on_rt_ring id m).
Proof.
  intros w a w' E. unfold on_rt_ring in E. apply bind_inv in E as (r & w1 & [-> Hr]%get_rt_done & E).
  destruct (m (rt_ring_ r)) as [b g | |]; [| done..]. injection E as <- <-. by eapply works_same.
Qed.

Lemma quiet_pend curr id : quiet (pend_work_internal curr id).
Proof. unfold pend_work_internal. apply preserves_bind; [auto with preserves |]. intros _. by apply quiet_upd_rt. Qed.

Lemma encode_preserves {S P} (π : S → P) ptr ty : preserves π (encode_work ptr ty) ∧ preserves π (encode_work_ptr ptr ty).
Proof. unfold encode_work, encode_work_ptr. split; repeat preserves_step. Qed.

Hint Resolve quiet_get_rt quiet_on_rt_ring quiet_pend : preserves.
Hint Extern 1 (preserves _ (encode_work _ _)) => apply encode_preserves : preserves.
Hint Extern 1 (preserves _ (encode_work_ptr _ _)) => apply encode_preserves : preserves.

Lemma quiet_cancel curr id data res : quiet (cancel_internal curr id data res).
Proof.
  assert (∀ f : World U → World U, (∀ w, runtimes (f w) = runtimes w) → quiet (modify f)) as Hm.
  { intros f Hf w [] w' [= <-]. unfold works_of. by rewrite Hf. }
  unfold cancel_internal, schedule_msg_ring_, prep_msg_ring_, prep_cancel_. repeat preserves_step; by apply Hm.
Qed.

Lemma quiet_on_world {A} (m : ST (World U) A) : quiet m → equiet (on_world m).
Proof.
  intros Hm e a e'. unfold on_world, zoom. destruct (m (world e)) as [b w | |] eqn:E; [| done..].
  intros [= <- <-]. simpl. by eapply Hm.
Qed.

Lemma equiet_add_call c : equiet (add_call c).
Proof. by intros e [] e' [= <-]. Qed.

Hint Resolve quiet_on_world equiet_add_call quiet_cancel : preserves.

Lemma notify_quiet curr t : equiet (notify_stop curr t).
Proof.
  induction t as [o st | F t IH | p cs IH] using opstate_tree_ind; simpl.
  - destruct st as [|[r|] [] | |]; unfold leaf_cancel; repeat preserves_step.
  - repeat preserves_step.
  - preserves_step; [auto with preserves |]. apply preserves_bind; [by apply preserves_mapM |]. intros. auto with preserves.
Qed.

Lemma notify_all_quiet curr (cs : list (opstate V)) : equiet (mapM (notify_stop curr) cs).
Proof. apply preserves_mapM, Forall_forall. intros c _. apply notify_quiet. Qed.

Hint Resolve notify_all_quiet : preserves.

Lemma receive_quiet curr (p : ParState V) cs i v : equiet (receive_ curr p cs i v).
Proof. unfold receive_, canceller, call_receiver. repeat preserves_step. Qed.

Lemma child_result_quiet curr (p : ParState V) cs i c r : equiet (child_result curr p cs i c r).
Proof. unfold child_result. destruct r; [apply receive_quiet | auto with preserves]. Qed.

Lemma leaf_handle_quiet (o : op V) st c : equiet (leaf_handle o st c).
Proof. unfold leaf_handle. cbv zeta. destruct (handle_kind_ o); repeat preserves_step. Qed.

Hint Resolve child_result_quiet leaf_handle_quiet : preserves.

Lemma leaf_start_quiet curr tok flags (o : op V) : equiet (leaf_start curr tok flags o).
Proof. unfold leaf_start, fail_. repeat preserves_step. Qed.

Lemma start_children_quiet curr f tok flags todo : (∀ tok flags t, equiet (f tok flags t)) → ∀ i p cs r,
  equiet (start_children curr f tok flags i todo p cs r).
Proof.
  intros Hf. induction todo as [|todo IH]; intros i p cs r; simpl; [auto with preserves |].
  destruct (cs !! i); [| auto with preserves]. apply preserves_bind; [apply Hf |]. intros [c rc].
  apply preserves_bind; [auto with preserves |]. intros [[p' cs'] r']. apply IH.
Qed.

Lemma start_quiet depth curr sf : ∀ tok flags t, equiet (start depth curr sf tok flags t).
Proof.
  induction depth as [|depth IH]; intros tok flags t; simpl; [auto with preserves |].
  destruct t as [o st | F t | p cs].
  - apply preserves_bind; [apply leaf_start_quiet |]. intros [st' r]. auto with preserves.
  - apply preserves_bind; [apply IH |]. intros [t' r]. auto with preserves.
  - unfold par_start, call_receiver. pose proof start_children_quiet.
    repeat preserves_step; by apply start_children_quiet.
Qed.

Lemma handle_quiet curr c : ∀ path t, equiet (handle curr path t c).
Proof.
  induction path as [|i path IH]; intros [o st | F t | p cs]; simpl; auto with preserves.
  - apply preserves_bind; [auto with preserves |]. intros [[st' r] fin]. auto with preserves.
  - apply preserves_bind; [apply IH |]. intros [[t' r] fin]. auto with preserves.
  - destruct (cs !! i); [| auto with preserves]. apply preserves_bind; [apply IH |]. intros [[ch rc] fin].
    apply preserves_bind; [auto with preserves |]. intros [[p' cs'] r]. auto with preserves.
Qed.
End quiet.
