(* ===== verification/Options.v ===== *)
(** * Runtime options and the creation of the ring
      (include/condy/runtime_options.hpp, Runtime::create_ring_)

    - [RuntimeOptions]: the fields, one definition per setter, each run on the
      options ([LogicError] where the setter throws).
    - [create_ring_]: the parameters of the ring and the submission threshold;
      the two initialisation functions of liburing are parameters.
    - All features of liburing 2.14 are taken as available. *)

From stdpp Require Import base numbers list.
From S2P Require Import Prelude Ring.

Record RuntimeOptions := mkOptions {
  opt_event_interval_ : Z;
  opt_disable_register_ring_fd_ : bool;
  enable_iopoll_ : bool;
  enable_hybrid_iopoll_ : bool;
  enable_sqpoll_ : bool;
  sqpoll_idle_time_ms_ : Z;
  sqpoll_thread_cpu_ : option Z;
  enable_defer_taskrun_ : bool;
  sq_size_ : Z;
  cq_size_ : Z;
  opt_submit_batch_ : Z;
  attach_wq_target_ : option Z;
  enable_coop_taskrun_ : bool;
  enable_sqe128_ : bool;
  enable_cqe32_ : bool;
  enable_sqe_mixed_ : bool;
  enable_cqe_mixed_ : bool;
  enable_no_mmap_ : bool;
  no_mmap_buf_ : Z;
  no_mmap_buf_size_ : Z;
  enable_sq_rewind_ : bool
}.

Definition default_options : RuntimeOptions :=
  mkOptions 61 false false false false 1000 None false 128 0 0 None false false false false false
    false 0 0 false.

(** ** Setters *)

Abbreviation OptM := (ST RuntimeOptions unit).

Definition event_interval (v : Z) : OptM := modify (λ o,
  mkOptions v (opt_disable_register_ring_fd_ o) (enable_iopoll_ o) (enable_hybrid_iopoll_ o)
    (enable_sqpoll_ o) (sqpoll_idle_time_ms_ o) (sqpoll_thread_cpu_ o) (enable_defer_taskrun_ o)
    (sq_size_ o) (cq_size_ o) (opt_submit_batch_ o) (attach_wq_target_ o) (enable_coop_taskrun_ o)
    (enable_sqe128_ o) (enable_cqe32_ o) (enable_sqe_mixed_ o) (enable_cqe_mixed_ o)
    (enable_no_mmap_ o) (no_mmap_buf_ o) (no_mmap_buf_size_ o) (enable_sq_rewind_ o)).

Definition disable_register_ring_fd : OptM := modify (λ o,
  mkOptions (opt_event_interval_ o) true (enable_iopoll_ o) (enable_hybrid_iopoll_ o)
    (enable_sqpoll_ o) (sqpoll_idle_time_ms_ o) (sqpoll_thread_cpu_ o) (enable_defer_taskrun_ o)
    (sq_size_ o) (cq_size_ o) (opt_submit_batch_ o) (attach_wq_target_ o) (enable_coop_taskrun_ o)
    (enable_sqe128_ o) (enable_cqe32_ o) (enable_sqe_mixed_ o) (enable_cqe_mixed_ o)
    (enable_no_mmap_ o) (no_mmap_buf_ o) (no_mmap_buf_size_ o) (enable_sq_rewind_ o)).

Definition enable_iopoll : OptM := modify (λ o,
  mkOptions (opt_event_interval_ o) (opt_disable_register_ring_fd_ o) true (enable_hybrid_iopoll_ o)
    (enable_sqpoll_ o) (sqpoll_idle_time_ms_ o) (sqpoll_thread_cpu_ o) (enable_defer_taskrun_ o)
    (sq_size_ o) (cq_size_ o) (opt_submit_batch_ o) (attach_wq_target_ o) (enable_coop_taskrun_ o)
    (enable_sqe128_ o) (enable_cqe32_ o) (enable_sqe_mixed_ o) (enable_cqe_mixed_ o)
    (enable_no_mmap_ o) (no_mmap_buf_ o) (no_mmap_buf_size_ o) (enable_sq_rewind_ o)).

Definition enable_hybrid_iopoll : OptM :=
  o ← get;
  if negb (enable_iopoll_ o) then throw LogicError
  else put
    (mkOptions (opt_event_interval_ o) (opt_disable_register_ring_fd_ o) (enable_iopoll_ o) true
      (enable_sqpoll_ o) (sqpoll_idle_time_ms_ o) (sqpoll_thread_cpu_ o) (enable_defer_taskrun_ o)
      (sq_size_ o) (cq_size_ o) (opt_submit_batch_ o) (attach_wq_target_ o) (enable_coop_taskrun_ o)
      (enable_sqe128_ o) (enable_cqe32_ o) (enable_sqe_mixed_ o) (enable_cqe_mixed_ o)
      (enable_no_mmap_ o) (no_mmap_buf_ o) (no_mmap_buf_size_ o) (enable_sq_rewind_ o)).

Definition enable_sqpoll (idle_time_ms : Z) (cpu : option Z) : OptM :=
  o ← get;
  if enable_defer_taskrun_ o then throw LogicError
  else if enable_coop_taskrun_ o then throw LogicError
  else if enable_sq_rewind_ o then throw LogicError
  else put
    (mkOptions (opt_event_interval_ o) (opt_disable_register_ring_fd_ o) (enable_iopoll_ o)
      (enable_hybrid_iopoll_ o) true idle_time_ms cpu (enable_defer_taskrun_ o)
      (sq_size_ o) (cq_size_ o) (opt_submit_batch_ o) (attach_wq_target_ o) (enable_coop_taskrun_ o)
      (enable_sqe128_ o) (enable_cqe32_ o) (enable_sqe_mixed_ o) (enable_cqe_mixed_ o)
      (enable_no_mmap_ o) (no_mmap_buf_ o) (no_mmap_buf_size_ o) (enable_sq_rewind_ o)).

Definition enable_defer_taskrun : OptM :=
  o ← get;
  if enable_sqpoll_ o then throw LogicError
  else if enable_coop_taskrun_ o then throw LogicError
  else put
    (mkOptions (opt_event_interval_ o) (opt_disable_register_ring_fd_ o) (enable_iopoll_ o)
      (enable_hybrid_iopoll_ o) (enable_sqpoll_ o) (sqpoll_idle_time_ms_ o) (sqpoll_thread_cpu_ o) true
      (sq_size_ o) (cq_size_ o) (opt_submit_batch_ o) (attach_wq_target_ o) (enable_coop_taskrun_ o)
      (enable_sqe128_ o) (enable_cqe32_ o) (enable_sqe_mixed_ o) (enable_cqe_mixed_ o)
      (enable_no_mmap_ o) (no_mmap_buf_ o) (no_mmap_buf_size_ o) (enable_sq_rewind_ o)).

Definition sq_size (v : Z) : OptM := modify (λ o,
  mkOptions (opt_event_interval_ o) (opt_disable_register_ring_fd_ o) (enable_iopoll_ o)
    (enable_hybrid_iopoll_ o) (enable_sqpoll_ o) (sqpoll_idle_time_ms_ o) (sqpoll_thread_cpu_ o)
    (enable_defer_taskrun_ o) v (cq_size_ o) (opt_submit_batch_ o) (attach_wq_target_ o)
    (enable_coop_taskrun_ o) (enable_sqe128_ o) (enable_cqe32_ o) (enable_sqe_mixed_ o)
    (enable_cqe_mixed_ o) (enable_no_mmap_ o) (no_mmap_buf_ o) (no_mmap_buf_size_ o) (enable_sq_rewind_ o)).

Definition cq_size (v : Z) : OptM := modify (λ o,
  mkOptions (opt_event_interval_ o) (opt_disable_register_ring_fd_ o) (enable_iopoll_ o)
    (enable_hybrid_iopoll_ o) (enable_sqpoll_ o) (sqpoll_idle_time_ms_ o) (sqpoll_thread_cpu_ o)
    (enable_defer_taskrun_ o) (sq_size_ o) v (opt_submit_batch_ o) (attach_wq_target_ o)
    (enable_coop_taskrun_ o) (enable_sqe128_ o) (enable_cqe32_ o) (enable_sqe_mixed_ o)
    (enable_cqe_mixed_ o) (enable_no_mmap_ o) (no_mmap_buf_ o) (no_mmap_buf_size_ o) (enable_sq_rewind_ o)).

Definition submit_batch (v : Z) : OptM := modify (λ o,
  mkOptions (opt_event_interval_ o) (opt_disable_register_ring_fd_ o) (enable_iopoll_ o)
    (enable_hybrid_iopoll_ o) (enable_sqpoll_ o) (sqpoll_idle_time_ms_ o) (sqpoll_thread_cpu_ o)
    (enable_defer_taskrun_ o) (sq_size_ o) (cq_size_ o) v (attach_wq_target_ o)
    (enable_coop_taskrun_ o) (enable_sqe128_ o) (enable_cqe32_ o) (enable_sqe_mixed_ o)
    (enable_cqe_mixed_ o) (enable_no_mmap_ o) (no_mmap_buf_ o) (no_mmap_buf_size_ o) (enable_sq_rewind_ o)).

(** [other]: the ring descriptor of the other runtime. *)
Definition enable_attach_wq (other : Z) : OptM := modify (λ o,
  mkOptions (opt_event_interval_ o) (opt_disable_register_ring_fd_ o) (enable_iopoll_ o)
    (enable_hybrid_iopoll_ o) (enable_sqpoll_ o) (sqpoll_idle_time_ms_ o) (sqpoll_thread_cpu_ o)
    (enable_defer_taskrun_ o) (sq_size_ o) (cq_size_ o) (opt_submit_batch_ o) (Some other)
    (enable_coop_taskrun_ o) (enable_sqe128_ o) (enable_cqe32_ o) (enable_sqe_mixed_ o)
    (enable_cqe_mixed_ o) (enable_no_mmap_ o) (no_mmap_buf_ o) (no_mmap_buf_size_ o) (enable_sq_rewind_ o)).

Definition enable_coop_taskrun : OptM :=
  o ← get;
  if enable_sqpoll_ o then throw LogicError
  else if enable_defer_taskrun_ o then throw LogicError
  else put
    (mkOptions (opt_event_interval_ o) (opt_disable_register_ring_fd_ o) (enable_iopoll_ o)
      (enable_hybrid_iopoll_ o) (enable_sqpoll_ o) (sqpoll_idle_time_ms_ o) (sqpoll_thread_cpu_ o)
      (enable_defer_taskrun_ o) (sq_size_ o) (cq_size_ o) (opt_submit_batch_ o) (attach_wq_target_ o) true
      (enable_sqe128_ o) (enable_cqe32_ o) (enable_sqe_mixed_ o) (enable_cqe_mixed_ o)
      (enable_no_mmap_ o) (no_mmap_buf_ o) (no_mmap_buf_size_ o) (enable_sq_rewind_ o)).

Definition enable_sqe128 : OptM :=
  o ← get;
  if enable_sqe_mixed_ o then throw LogicError
  else put
    (mkOptions (opt_event_interval_ o) (opt_disable_register_ring_fd_ o) (enable_iopoll_ o)
      (enable_hybrid_iopoll_ o) (enable_sqpoll_ o) (sqpoll_idle_time_ms_ o) (sqpoll_thread_cpu_ o)
      (enable_defer_taskrun_ o) (sq_size_ o) (cq_size_ o) (opt_submit_batch_ o) (attach_wq_target_ o)
      (enable_coop_taskrun_ o) true (enable_cqe32_ o) (enable_sqe_mixed_ o) (enable_cqe_mixed_ o)
      (enable_no_mmap_ o) (no_mmap_buf_ o) (no_mmap_buf_size_ o) (enable_sq_rewind_ o)).

Definition enable_cqe32 : OptM :=
  o ← get;
  if enable_cqe_mixed_ o then throw LogicError
  else put
    (mkOptions (opt_event_interval_ o) (opt_disable_register_ring_fd_ o) (enable_iopoll_ o)
      (enable_hybrid_iopoll_ o) (enable_sqpoll_ o) (sqpoll_idle_time_ms_ o) (sqpoll_thread_cpu_ o)
      (enable_defer_taskrun_ o) (sq_size_ o) (cq_size_ o) (opt_submit_batch_ o) (attach_wq_target_ o)
      (enable_coop_taskrun_ o) (enable_sqe128_ o) true (enable_sqe_mixed_ o) (enable_cqe_mixed_ o)
      (enable_no_mmap_ o) (no_mmap_buf_ o) (no_mmap_buf_size_ o) (enable_sq_rewind_ o)).

Definition enable_sqe_mixed : OptM :=
  o ← get;
  if enable_sqe128_ o then throw LogicError
  else put
    (mkOptions (opt_event_interval_ o) (opt_disable_register_ring_fd_ o) (enable_iopoll_ o)
      (enable_hybrid_iopoll_ o) (enable_sqpoll_ o) (sqpoll_idle_time_ms_ o) (sqpoll_thread_cpu_ o)
      (enable_defer_taskrun_ o) (sq_size_ o) (cq_size_ o) (opt_submit_batch_ o) (attach_wq_target_ o)
      (enable_coop_taskrun_ o) (enable_sqe128_ o) (enable_cqe32_ o) true (enable_cqe_mixed_ o)
      (enable_no_mmap_ o) (no_mmap_buf_ o) (no_mmap_buf_size_ o) (enable_sq_rewind_ o)).

Definition enable_cqe_mixed : OptM :=
  o ← get;
  if enable_cqe32_ o then throw LogicError
  else put
    (mkOptions (opt_event_interval_ o) (opt_disable_register_ring_fd_ o) (enable_iopoll_ o)
      (enable_hybrid_iopoll_ o) (enable_sqpoll_ o) (sqpoll_idle_time_ms_ o) (sqpoll_thread_cpu_ o)
      (enable_defer_taskrun_ o) (sq_size_ o) (cq_size_ o) (opt_submit_batch_ o) (attach_wq_target_ o)
      (enable_coop_taskrun_ o) (enable_sqe128_ o) (enable_cqe32_ o) (enable_sqe_mixed_ o) true
      (enable_no_mmap_ o) (no_mmap_buf_ o) (no_mmap_buf_size_ o) (enable_sq_rewind_ o)).

Definition enable_no_mmap (buf buf_size : Z) : OptM := modify (λ o,
  mkOptions (opt_event_interval_ o) (opt_disable_register_ring_fd_ o) (enable_iopoll_ o)
    (enable_hybrid_iopoll_ o) (enable_sqpoll_ o) (sqpoll_idle_time_ms_ o) (sqpoll_thread_cpu_ o)
    (enable_defer_taskrun_ o) (sq_size_ o) (cq_size_ o) (opt_submit_batch_ o) (attach_wq_target_ o)
    (enable_coop_taskrun_ o) (enable_sqe128_ o) (enable_cqe32_ o) (enable_sqe_mixed_ o)
    (enable_cqe_mixed_ o) true buf buf_size (enable_sq_rewind_ o)).

Definition enable_sq_rewind : OptM :=
  o ← get;
  if enable_sqpoll_ o then throw LogicError
  else put
    (mkOptions (opt_event_interval_ o) (opt_disable_register_ring_fd_ o) (enable_iopoll_ o)
      (enable_hybrid_iopoll_ o) (enable_sqpoll_ o) (sqpoll_idle_time_ms_ o) (sqpoll_thread_cpu_ o)
      (enable_defer_taskrun_ o) (sq_size_ o) (cq_size_ o) (opt_submit_batch_ o) (attach_wq_target_ o)
      (enable_coop_taskrun_ o) (enable_sqe128_ o) (enable_cqe32_ o) (enable_sqe_mixed_ o)
      (enable_cqe_mixed_ o) (enable_no_mmap_ o) (no_mmap_buf_ o) (no_mmap_buf_size_ o) true).

(** ** The ring of a runtime *)

Definition setup_bit (k : Z) : Z := Z.shiftl 1 k.
Definition IORING_SETUP_IOPOLL : Z := setup_bit 0.
Definition IORING_SETUP_SQPOLL : Z := setup_bit 1.
Definition IORING_SETUP_SQ_AFF : Z := setup_bit 2.
Definition IORING_SETUP_CQSIZE : Z := setup_bit 3.
Definition IORING_SETUP_CLAMP : Z := setup_bit 4.
Definition IORING_SETUP_ATTACH_WQ : Z := setup_bit 5.
Definition IORING_SETUP_R_DISABLED : Z := setup_bit 6.
Definition IORING_SETUP_SUBMIT_ALL : Z := setup_bit 7.
Definition IORING_SETUP_COOP_TASKRUN : Z := setup_bit 8.
Definition IORING_SETUP_TASKRUN_FLAG : Z := setup_bit 9.
Definition IORING_SETUP_SQE128 : Z := setup_bit 10.
Definition IORING_SETUP_CQE32 : Z := setup_bit 11.
Definition IORING_SETUP_SINGLE_ISSUER : Z := setup_bit 12.
Definition IORING_SETUP_DEFER_TASKRUN : Z := setup_bit 13.
Definition IORING_SETUP_NO_MMAP : Z := setup_bit 14.
Definition IORING_SETUP_HYBRID_IOPOLL : Z := setup_bit 17.
Definition IORING_SETUP_CQE_MIXED : Z := setup_bit 18.
Definition IORING_SETUP_SQE_MIXED : Z := setup_bit 19.
Definition IORING_SETUP_SQ_REWIND : Z := setup_bit 20.

(** [io_uring_params]: the fields the code writes. *)
Record params := mkParams {
  flags : Z;
  cq_entries : Z;
  sq_thread_idle : Z;
  sq_thread_cpu : Z;
  wq_fd : Z
}.

(** [params.flags |= f] under a condition. *)
Definition or_if (b : bool) (f flags : Z) : Z := if b then Z.lor flags f else flags.

Definition ring_flags (o : RuntimeOptions) : Z :=
  let f := 0 in
  let f := Z.lor f IORING_SETUP_CLAMP in
  let f := Z.lor f IORING_SETUP_SINGLE_ISSUER in
  let f := Z.lor f IORING_SETUP_SUBMIT_ALL in
  let f := Z.lor f IORING_SETUP_R_DISABLED in
  let f := or_if (negb (cq_size_ o =? 0)) IORING_SETUP_CQSIZE f in
  let f := or_if (enable_iopoll_ o) IORING_SETUP_IOPOLL f in
  let f := or_if (enable_iopoll_ o && enable_hybrid_iopoll_ o) IORING_SETUP_HYBRID_IOPOLL f in
  let f := or_if (enable_sqpoll_ o) IORING_SETUP_SQPOLL f in
  let f := or_if (enable_sqpoll_ o && bool_decide (is_Some (sqpoll_thread_cpu_ o))) IORING_SETUP_SQ_AFF f in
  let f := or_if (bool_decide (is_Some (attach_wq_target_ o))) IORING_SETUP_ATTACH_WQ f in
  let f := or_if (enable_defer_taskrun_ o) IORING_SETUP_DEFER_TASKRUN f in
  let f := or_if (enable_defer_taskrun_ o) IORING_SETUP_TASKRUN_FLAG f in
  let f := or_if (enable_coop_taskrun_ o) IORING_SETUP_COOP_TASKRUN f in
  let f := or_if (enable_coop_taskrun_ o) IORING_SETUP_TASKRUN_FLAG f in
  let f := or_if (enable_sqe128_ o) IORING_SETUP_SQE128 f in
  let f := or_if (enable_cqe32_ o) IORING_SETUP_CQE32 f in
  let f := or_if (enable_sqe_mixed_ o) IORING_SETUP_SQE_MIXED f in
  let f := or_if (enable_cqe_mixed_ o) IORING_SETUP_CQE_MIXED f in
  let f := or_if (enable_no_mmap_ o) IORING_SETUP_NO_MMAP f in
  or_if (enable_sq_rewind_ o) IORING_SETUP_SQ_REWIND f.

Definition ring_params (o : RuntimeOptions) : params :=
  mkParams (ring_flags o)
    (if cq_size_ o =? 0 then 0 else u32 (cq_size_ o))
    (if enable_sqpoll_ o then u32 (sqpoll_idle_time_ms_ o) else 0)
    (if enable_sqpoll_ o then default 0 (sqpoll_thread_cpu_ o) else 0)
    (default 0 (attach_wq_target_ o)).

(** [std::numeric_limits<size_t>::max()] *)
Definition size_max : Z := 2 ^ 64 - 1.

Definition effective_batch (o : RuntimeOptions) : Z :=
  if opt_submit_batch_ o =? 0 then
    if enable_sqpoll_ o then Z.min 32 (sq_size_ o) else size_max
  else opt_submit_batch_ o.

Section create.
Context {U : Type} `{Uring U}.
(** The initialisation functions of liburing: an error or a ring. *)
Context (queue_init_params : Z → params → Z + U) (queue_init_mem : Z → params → Z → Z → Z + U).

(** The constructor of [Ring]; [entries] is an [unsigned int]. *)
Definition make_ring {S} (entries : Z) (ps : params) (buf buf_size submit_batch : Z) : ST S (Ring U) :=
  ring_new (if negb (Z.land (flags ps) IORING_SETUP_NO_MMAP =? 0)
            then queue_init_mem (u32 entries) ps buf buf_size
            else queue_init_params (u32 entries) ps) submit_batch.

Definition create_ring_ {S} (o : RuntimeOptions) : ST S (Ring U) :=
  let buf := if enable_no_mmap_ o then no_mmap_buf_ o else 0 in
  let buf_size := if enable_no_mmap_ o then no_mmap_buf_size_ o else 0 in
  assert_ (0 <? effective_batch o);;
  make_ring (sq_size_ o) (ring_params o) buf buf_size (effective_batch o).
End create.

(** ** Properties *)

Inductive option_call : Type :=
  | CEventInterval (v : Z) | CDisableRegister | CIopoll | CHybridIopoll
  | CSqpoll (idle : Z) (cpu : option Z) | CDeferTaskrun | CSqSize (v : Z) | CCqSize (v : Z)
  | CSubmitBatch (v : Z) | CAttachWq (other : Z) | CCoopTaskrun | CSqe128 | CCqe32
  | CSqeMixed | CCqeMixed | CNoMmap (buf size : Z) | CSqRewind.

Definition call_option (c : option_call) : OptM :=
  match c with
  | CEventInterval v => event_interval v
  | CDisableRegister => disable_register_ring_fd
  | CIopoll => enable_iopoll
  | CHybridIopoll => enable_hybrid_iopoll
  | CSqpoll idle cpu => enable_sqpoll idle cpu
  | CDeferTaskrun => enable_defer_taskrun
  | CSqSize v => sq_size v
  | CCqSize v => cq_size v
  | CSubmitBatch v => submit_batch v
  | CAttachWq other => enable_attach_wq other
  | CCoopTaskrun => enable_coop_taskrun
  | CSqe128 => enable_sqe128
  | CCqe32 => enable_cqe32
  | CSqeMixed => enable_sqe_mixed
  | CCqeMixed => enable_cqe_mixed
  | CNoMmap buf size => enable_no_mmap buf size
  | CSqRewind => enable_sq_rewind
  end.

(** Calls one after the other; a caller may catch the exception and go on. *)
Definition after_calls (cs : list option_call) (o : RuntimeOptions) : RuntimeOptions :=
  foldl (λ o c, default o (exit_state (call_option c o))) o cs.

(** No two options that exclude each other. *)
Record consistent (o : RuntimeOptions) : Prop := {
  con_hybrid : enable_hybrid_iopoll_ o = true → enable_iopoll_ o = true;
  con_defer : enable_sqpoll_ o && enable_defer_taskrun_ o = false;
  con_coop : enable_sqpoll_ o && enable_coop_taskrun_ o = false;
  con_defer_coop : enable_defer_taskrun_ o && enable_coop_taskrun_ o = false;
  con_rewind : enable_sqpoll_ o && enable_sq_rewind_ o = false;
  con_sqe : enable_sqe128_ o && enable_sqe_mixed_ o = false;
  con_cqe : enable_cqe32_ o && enable_cqe_mixed_ o = false
}.

Lemma call_consistent c o o' : exit_state (call_option c o) = Some o' → consistent o → consistent o'.
Proof.
  destruct o as [? ? io hy sp ? ? df ? ? ? ? co s1 c3 sm cm ? ? ? rw].
  intros E [H1 H2 H3 H4 H5 H6 H7]. simpl in *.
  destruct c; simpl in E; simplify_eq/=; try by split.
  all: destruct io, hy, sp, df, co, s1, c3, sm, cm, rw; simpl in *; simplify_eq/=; by split.
Qed.

Lemma call_throws_unchanged c o e o' : call_option c o = Thrown e o' → o' = o ∧ e = LogicError.
Proof.
  destruct o as [? ? io hy sp ? ? df ? ? ? ? co s1 c3 sm cm ? ? ? rw].
  destruct c; simpl; try done; destruct io, sp, df, co, s1, c3, sm, cm, rw; by intros [= <- <-].
Qed.

(** C37. Whatever setters are called, in whatever order, and whether or not the
    exceptions are caught, the options never hold two settings that exclude each
    other; a setter that throws leaves the options as they were. *)
Theorem options_always_consistent cs :
  consistent (after_calls cs default_options) ∧
  ∀ c o e o', call_option c o = Thrown e o' → o' = o ∧ e = LogicError.
Proof.
  split; [| apply call_throws_unchanged]. unfold after_calls.
  assert (consistent default_options) as Hd by (by split). revert Hd. generalize default_options.
  induction cs as [|c cs IH]; intros o Ho; [done |]. simpl. apply IH.
  destruct (exit_state (call_option c o)) as [o'|] eqn:E; [by eapply call_consistent | done].
Qed.

Lemma setup_bit_spec k n : 0 ≤ k → 0 ≤ n → Z.testbit (setup_bit k) n = (n =? k).
Proof.
  intros Hk Hn. unfold setup_bit. rewrite Z.shiftl_1_l. destruct (Z.eqb_spec n k) as [-> | Hne].
  - by apply Z.pow2_bits_true.
  - by apply Z.pow2_bits_false.
Qed.

Lemma or_if_spec b k f n : 0 ≤ k → 0 ≤ n → Z.testbit (or_if b (setup_bit k) f) n = Z.testbit f n || (b && (n =? k)).
Proof.
  intros Hk Hn. unfold or_if. destruct b; simpl; [| by rewrite orb_false_r].
  by rewrite Z.lor_spec, setup_bit_spec.
Qed.

(** Which option sets which flag. *)
Definition flag_table (o : RuntimeOptions) (n : Z) : bool :=
  match n with
  | 0 => enable_iopoll_ o
  | 1 => enable_sqpoll_ o
  | 2 => enable_sqpoll_ o && bool_decide (is_Some (sqpoll_thread_cpu_ o))
  | 3 => negb (cq_size_ o =? 0)
  | 4 | 6 | 7 | 12 => true
  | 5 => bool_decide (is_Some (attach_wq_target_ o))
  | 8 => enable_coop_taskrun_ o
  | 9 => enable_defer_taskrun_ o || enable_coop_taskrun_ o
  | 10 => enable_sqe128_ o
  | 11 => enable_cqe32_ o
  | 13 => enable_defer_taskrun_ o
  | 14 => enable_no_mmap_ o
  | 17 => enable_iopoll_ o && enable_hybrid_iopoll_ o
  | 18 => enable_cqe_mixed_ o
  | 19 => enable_sqe_mixed_ o
  | 20 => enable_sq_rewind_ o
  | _ => false
  end.

Lemma ring_flags_spec o n : 0 ≤ n → Z.testbit (ring_flags o) n = flag_table o n.
Proof.
  intros Hn. unfold ring_flags, IORING_SETUP_IOPOLL, IORING_SETUP_SQPOLL, IORING_SETUP_SQ_AFF, IORING_SETUP_CQSIZE,
    IORING_SETUP_CLAMP, IORING_SETUP_ATTACH_WQ, IORING_SETUP_R_DISABLED, IORING_SETUP_SUBMIT_ALL,
    IORING_SETUP_COOP_TASKRUN, IORING_SETUP_TASKRUN_FLAG, IORING_SETUP_SQE128, IORING_SETUP_CQE32,
    IORING_SETUP_SINGLE_ISSUER, IORING_SETUP_DEFER_TASKRUN, IORING_SETUP_NO_MMAP, IORING_SETUP_HYBRID_IOPOLL,
    IORING_SETUP_CQE_MIXED, IORING_SETUP_SQE_MIXED, IORING_SETUP_SQ_REWIND.
  rewrite !or_if_spec, !Z.lor_spec, !setup_bit_spec, Z.bits_0 by (done || lia).
  assert (n ∈ seqZ 0 21 ∨ 20 < n) as [Hin | Hbig] by (rewrite elem_of_seqZ; lia).
  - change (seqZ 0 21) with [0;1;2;3;4;5;6;7;8;9;10;11;12;13;14;15;16;17;18;19;20] in Hin.
    repeat (apply elem_of_cons in Hin as [-> | Hin]; [simpl; by rewrite ?andb_true_r, ?andb_false_r, ?orb_false_r |]).
    by apply not_elem_of_nil in Hin.
  - rewrite !(proj2 (Z.eqb_neq n _)) by lia. rewrite !andb_false_r. simpl.
    destruct n as [|p|p]; [lia | | lia]. simpl.
    do 5 (destruct p as [p|p|]; try lia; try done).
Qed.

(** The rules of io_uring_setup(2) for flags that need or exclude each other. *)
Record flags_valid (f : Z) : Prop := {
  fv_hybrid : Z.testbit f 17 = true → Z.testbit f 0 = true;
  fv_sq_aff : Z.testbit f 2 = true → Z.testbit f 1 = true;
  fv_defer_issuer : Z.testbit f 13 = true → Z.testbit f 12 = true;
  fv_taskrun : Z.testbit f 9 = true → Z.testbit f 8 = true ∨ Z.testbit f 13 = true;
  fv_sqpoll : Z.testbit f 1 = true → Z.testbit f 8 = false ∧ Z.testbit f 9 = false ∧ Z.testbit f 13 = false;
  fv_rewind : Z.testbit f 20 = true → Z.testbit f 1 = false;
  fv_sqe : Z.testbit f 10 && Z.testbit f 19 = false;
  fv_cqe : Z.testbit f 11 && Z.testbit f 18 = false
}.

Lemma no_mmap_test o : negb (Z.land (ring_flags o) IORING_SETUP_NO_MMAP =? 0) = enable_no_mmap_ o.
Proof.
  assert (Z.land (ring_flags o) IORING_SETUP_NO_MMAP = if enable_no_mmap_ o then IORING_SETUP_NO_MMAP else 0) as ->.
  { apply Z.bits_inj'. intros n Hn. rewrite Z.land_spec, ring_flags_spec by done.
    unfold IORING_SETUP_NO_MMAP. rewrite setup_bit_spec by lia.
    destruct (Z.eqb_spec n 14) as [-> | Hne].
    - simpl. destruct (enable_no_mmap_ o); by rewrite ?setup_bit_spec, ?Z.bits_0 by lia.
    - rewrite andb_false_r. destruct (enable_no_mmap_ o); [| by rewrite Z.bits_0].
      rewrite setup_bit_spec by lia. by rewrite (proj2 (Z.eqb_neq n 14)). }
  by destruct (enable_no_mmap_ o).
Qed.

(** The ring a runtime asks for: each flag is set by exactly the options it
    stands for, and for options the setters can produce the flags obey the rules
    of the kernel on flags that need or exclude each other.  The ring is made
    with the memory the user gave exactly when [enable_no_mmap] was called; an
    error of the kernel is thrown as a system error; the submission threshold is
    the one set, or all entries, or at most 32 with a polling thread, and the
    assertion that it is positive fails only for a polling thread on a queue of
    size 0. *)
Theorem create_ring_behaviour {U S} `{Uring U} qip qim o (s : S) :
  consistent o → 0 ≤ opt_submit_batch_ o → 0 ≤ sq_size_ o →
  (∀ n, 0 ≤ n → Z.testbit (ring_flags o) n = flag_table o n) ∧ flags_valid (ring_flags o) ∧
  (enable_sqpoll_ o = true → opt_submit_batch_ o = 0 → sq_size_ o = 0 →
     create_ring_ (U := U) qip qim o s = Crashed AssertFailed) ∧
  (¬ (enable_sqpoll_ o = true ∧ opt_submit_batch_ o = 0 ∧ sq_size_ o = 0) →
     0 < effective_batch o ∧
     let init := if enable_no_mmap_ o
                 then qim (u32 (sq_size_ o)) (ring_params o) (no_mmap_buf_ o) (no_mmap_buf_size_ o)
                 else qip (u32 (sq_size_ o)) (ring_params o) in
     create_ring_ (U := U) qip qim o s
     = match init with
       | inl r => Thrown (SystemError (- r)) s
       | inr u => Done (mkRing u (effective_batch o) 0) s
       end).
Proof.
  intros [C1 C2 C3 C4 C5 C6 C7] Hb Hs. split_and!.
  - intros n. apply ring_flags_spec.
  - split; rewrite !ring_flags_spec by lia; simpl; try done.
    + intros [? ?]%andb_true_iff. done.
    + intros [? ?]%andb_true_iff. done.
    + destruct (enable_defer_taskrun_ o), (enable_coop_taskrun_ o); auto.
    + intros Hsp. rewrite Hsp in C2, C3. simpl in *. by rewrite C2, C3.
    + intros Hrw. rewrite Hrw, andb_true_r in C5. done.
  - intros Hsp H0 H1. unfold create_ring_, effective_batch. by rewrite Hsp, H0, H1.
  - intros Hn. assert (0 < effective_batch o) as Hpos.
    { unfold effective_batch. destruct (Z.eqb_spec (opt_submit_batch_ o) 0) as [E|]; [| lia].
      destruct (enable_sqpoll_ o); [| done]. destruct (decide (sq_size_ o = 0)); [naive_solver | lia]. }
    split; [done |]. unfold create_ring_. rewrite bind_assert by (by apply Z.ltb_lt).
    unfold make_ring. cbn [ring_params Options.flags]. rewrite no_mmap_test.
    destruct (enable_no_mmap_ o); unfold ring_new; by destruct (_ : Z + U).
Qed.

Lemma create_ring_behaviour_witness :
  let o := after_calls [CSqpoll 500 (Some 3); CDeferTaskrun; CIopoll; CHybridIopoll] default_options in
  flags_valid (ring_flags o) ∧ ring_flags o = 4096 + 128 + 64 + 16 + 1 + 131072 + 2 + 4 ∧ effective_batch o = 32.
Proof.
  intros o. split; [| split; reflexivity].
  apply (create_ring_behaviour (U := SimRing) (λ _ _, inl (- EINVAL)) (λ _ _ _ _, inl (- EINVAL)) o tt);
    [split; (reflexivity || discriminate || auto) | discriminate | discriminate].
Defined.
