(* ===== verification/ThreadRing.v ===== *)
(** * Thread-local rings and indirect calls (include/condy/detail/runtime.hpp,
      detail/singleton.hpp, detail/invoker.hpp)

    - [current]: the thread-local instance of a singleton, made when a thread first
      asks for it.
    - [sync_msg_ring]: how a thread without a runtime sends a message when liburing
      has no call for it (before 2.12).
    - [Invoker], [OpFinishHandleBase]: calls through a stored function. *)

From stdpp Require Import base numbers list gmap.
From S2P Require Import Prelude Ring Options.

(** ** [ThreadLocalSingleton] *)

Section singleton.
Context {T : Type}.

(** The instances by thread; the function is [noexcept]: an exception of the
    constructor ends the program. *)
Definition current (thread : nat) (construct : ST (gmap nat T) T) : ST (gmap nat T) T := λ m,
  match m !! thread with
  | Some t => Done t m
  | None =>
      match construct m with
      | Done t m => Done t (<[thread := t]> m)
      | Thrown _ _ => Crashed Panic
      | Crashed c => Crashed c
      end
  end.
End singleton.

(** ** [ThreadLocalRing] *)

Section ring.
Context {U : Type} `{Uring U}.
Context (queue_init_params : Z → params → Z + U) (queue_init_mem : Z → params → Z → Z → Z + U).

Definition thread_ring_params : params :=
  mkParams (Z.lor (Z.lor IORING_SETUP_CLAMP IORING_SETUP_SINGLE_ISSUER) IORING_SETUP_SUBMIT_ALL) 0 0 0 0.

Definition thread_create_ring_ : ST (gmap nat (Ring U)) (Ring U) :=
  make_ring queue_init_params queue_init_mem 8 thread_ring_params 0 0 (2 ^ 64 - 1).

(** The rings, and the local variable [r]. *)
Abbreviation Local := (gmap nat (Ring U) * Z)%type.

Definition ring_in (thread : nat) (dflt : Ring U) (s : Local) : Ring U := default dflt (s.1 !! thread).
Definition set_ring_in (thread : nat) (g : Ring U) (s : Local) : Local := (<[thread := g]> s.1, s.2).
Definition note_res (c : cqe) : ST Local unit := modify (λ s, (s.1, cqe_res c)).

(** [*sqe = *sqe_data] is [prep]. *)
Definition sync_msg_ring (wait_fuel thread : nat) (sqe_data : sqe) : ST Local Z :=
  ring ← zoom fst (λ m s, (m, s.2)) (current thread thread_create_ring_);
  let on {A} : ST (Ring U) A → ST Local A := on_ring (ring_in thread ring) (set_ring_in thread) in
  slot ← on get_sqe;
  on (prep slot sqe_data);;
  modify (λ s, (s.1, 0));;
  n ← reap_completions_wait (ring_in thread ring) (set_ring_in thread) (λ _, 1) note_res wait_fuel;
  if n <? 0 then mret n
  else
    assert_ (n =? 1);;
    s ← get;
    mret s.2.
End ring.

(** ** Stored functions *)

Section dispatch.
Context {S A B : Type}.

(** An object with a pointer to a function of itself and an argument; [None] is
    [nullptr]. *)
Record Stored := mkStored {
  self_ : Z;
  func_ : option (Z → A → ST S B)
}.

(** [Invoker::operator()]: the pointer is called. *)
Definition invoker_call (i : Stored) (a : A) : ST S B :=
  match func_ i with Some f => f (self_ i) a | None => crashed BadAccess end.

(** [InvokerAdapter]: the constructor stores the function of the derived class. *)
Definition invoker_adapter (self : Z) (invoke : Z → A → ST S B) : Stored := mkStored self (Some invoke).

(** [OpFinishHandleBase::handle] *)
Definition finish_handle_call (h : Stored) (c : A) : ST S B :=
  assert_ (bool_decide (is_Some (func_ h)));;
  invoker_call h c.
End dispatch.

(** ** Properties *)

Section props.
Context {U : Type} `{UringLaws U}.
Context (queue_init_params : Z → params → Z + U) (queue_init_mem : Z → params → Z → Z → Z + U).

(** The ring of a thread, made now or earlier. *)
Definition thread_ring (rings : gmap nat (Ring U)) (thread : nat) : option (Ring U) :=
  match rings !! thread with
  | Some g => Some g
  | None =>
      match queue_init_params 8 thread_ring_params with
      | inl _ => None
      | inr u => Some (mkRing u (2 ^ 64 - 1) 0)
      end
  end.

Lemma current_ring thread rings g :
  thread_ring rings thread = Some g →
  current thread (thread_create_ring_ queue_init_params queue_init_mem) rings = Done g (<[thread := g]> rings).
Proof.
  unfold thread_ring, current. destruct (rings !! thread) as [g'|] eqn:E.
  - intros [= ->]. by rewrite insert_id.
  - unfold thread_create_ring_, make_ring, ring_new. change (u32 8) with 8. simpl.
    destruct (queue_init_params 8 thread_ring_params); [done |]. by intros [= <-].
Qed.

Lemma note_list cs : ∀ m r, process_list note_res cs (m, r) = Done tt (m : gmap nat (Ring U), default r (cqe_res <$> last cs)).
Proof.
  induction cs as [|c cs IH]; intros m r; [done |]. cbn [process_list]. erewrite bind_done by done. rewrite IH.
  rewrite last_cons. by destruct (last cs).
Qed.

Lemma count_ones (cs : list cqe) : ∀ n, foldl (λ n _, n + 1) n cs = n + Z.of_nat (length cs).
Proof. induction cs as [|c cs IH]; intros n; simpl; [lia |]. rewrite IH. lia. Qed.

(** A message from a thread without a runtime: the entry is submitted on the thread's
    own ring, which is made on the first call.  An error of the system call is
    returned, and then the entry stays in the ring; the result of the one
    completion is returned when it is the only one; with any other number of
    completions, such as two after an earlier error, the assertion fails. *)
Theorem sync_msg_ring_behaviour thread msg rings r0 g :
  thread_ring rings thread = Some g →
  ∃ slot g1, get_sqe g = Done slot g1 ∧
    let '(res, u) := uring_submit_and_wait (uring_prep slot msg (ring_ g1)) in
    ∀ wait_fuel, res ≠ - EINTR →
    let call := sync_msg_ring queue_init_params queue_init_mem (S wait_fuel) thread msg (rings, r0) in
    (res < 0 → ∃ m, call = Done res m) ∧
    (0 ≤ res → ∀ cs, (∀ i, uring_cqe_at i u = cs !! i) →
       match cs with
       | [c] => ∃ m, call = Done (cqe_res c) m
       | _ => call = Crashed AssertFailed
       end).
Proof.
  intros Hg. destruct (get_sqe_ok g) as (slot & g1 & Eg & _ & _). exists slot, g1. split; [done |].
  set (g2 := mkRing (uring_prep slot msg (ring_ g1)) (submit_batch_ g1) (maybe_submit_count_ g1)).
  destruct (uring_submit_and_wait (uring_prep slot msg (ring_ g1))) as [res u] eqn:Ew.
  intros wait_fuel Hint call.
  set (at_ := λ x, ring_in thread g x). set (m2 := <[thread := g2]> (<[thread := g]> rings)).
  assert (call = (n ← reap_completions_wait at_ (set_ring_in thread) (λ _, 1) note_res (S wait_fuel);
                  if n <? 0 then mret n else assert_ (n =? 1);; s ← get; mret s.2) (m2, 0)) as ->.
  { unfold call, sync_msg_ring. erewrite bind_done by (by erewrite zoom_done by (by apply current_ring)).
    cbv zeta. erewrite bind_done.
    2: { apply zoom_done. unfold ring_in. simpl. rewrite lookup_insert_eq. exact Eg. }
    erewrite bind_done.
    2: { apply zoom_done. unfold ring_in, set_ring_in. simpl. by rewrite lookup_insert_eq. }
    erewrite bind_done by done. unfold set_ring_in. simpl. unfold m2. by rewrite insert_insert_eq. }
  unfold reap_completions_wait.
  assert (at_ (m2, 0) = g2) as Eat by (unfold at_, ring_in, m2; simpl; by rewrite lookup_insert_eq).
  split.
  - intros Hneg. eexists.
    assert (submit_and_wait_loop (S wait_fuel) g2 = Done (Some res) (mkRing u (submit_batch_ g2) (maybe_submit_count_ g2))) as E.
    { cbn [submit_and_wait_loop]. rewrite bind_get. unfold g2 at 1. cbn [ring_]. rewrite Ew.
      rewrite (proj2 (Z.leb_gt _ _)) by done. erewrite bind_done by done. by rewrite (proj2 (Z.eqb_neq _ _)). }
    erewrite bind_done.
    2: { erewrite bind_done by (apply zoom_done; rewrite Eat; exact E). reflexivity. }
    by rewrite (proj2 (Z.ltb_lt _ _)).
  - intros Hpos cs Hcs. set (g3 := mkRing u (submit_batch_ g2) 0). set (m3 := <[thread := g3]> m2).
    assert (submit_and_wait_loop (S wait_fuel) g2 = Done None g3) as E.
    { cbn [submit_and_wait_loop]. rewrite bind_get. unfold g2 at 1. cbn [ring_]. rewrite Ew.
      by rewrite (proj2 (Z.leb_le _ _)). }
    assert (at_ (m3, 0) = g3) as Eat3 by (unfold at_, ring_in, m3; simpl; by rewrite lookup_insert_eq).
    assert (keeps_cqes at_ note_res) as Hk by (by intros c [] [] [= <- <-]).
    assert (∃ m4, (err ← on_ring at_ (set_ring_in thread) (submit_and_wait_loop (S wait_fuel));
               match err with Some r => mret r | None => reap_all at_ (set_ring_in thread) (λ _, 1) note_res end) (m2, 0)
            = Done (Z.of_nat (length cs)) (m4, default 0 (cqe_res <$> last cs))) as [m4 Er].
    { eexists. erewrite bind_done by (apply zoom_done; rewrite Eat; exact E).
      cbv iota. change (set_ring_in thread g3 (m2, 0)) with (m3, 0).
      rewrite (reap_each_once at_ (set_ring_in thread) (λ _, 1) note_res cs (m3, 0) Hk) by (by rewrite Eat3).
      erewrite bind_done by apply note_list. rewrite count_ones. by erewrite bind_done by done. }
    erewrite bind_done by exact Er. rewrite (proj2 (Z.ltb_ge _ _)) by lia.
    destruct cs as [|c [|c' cs]]; [done | by eexists |].
    unfold assert_. rewrite (proj2 (Z.eqb_neq (Z.of_nat _) 1)) by (simpl; lia). done.
Qed.
End props.
