(* ===== verification/System.v ===== *)
(** * Coroutines on a runtime (include/condy/sync_wait.hpp, and coro.hpp, task.hpp,
      detail/coro.hpp, detail/task.hpp over runtime.hpp)

    The components put together: coroutine frames with their promises
    ([Coro.v]), whose bodies await coroutines, tasks and operations
    ([OpStates.v]), run by the loop of a runtime ([Runtime.v]).

    - [Body]: what a coroutine still has to do, as the tree of its suspension
      points; a continuation gets the result of the awaited expression.
    - [Frame]: the promise, the suspension point, and the [Task] variables of the
      body.  A frame is an object: it is allocated by a call of the coroutine
      and destroyed by whoever takes its result.
    - [exec] runs a coroutine up to its next suspension point and returns the
      handle to which control is transferred; [resume] follows these transfers.
    - [invoke] and [handle] are the two callbacks of the loop, [sync_wait] is the
      whole program. *)

From stdpp Require Import base numbers list gmap.
From S2P Require Import Prelude Utils WorkType Ring Runtime OpStates Coro Options.

(** ** Coroutine bodies *)

(** [T]: the results of coroutines; [V]: the results of operations.  An exception
    of an awaited expression reaches the continuation, which may catch it.
    [SpawnTask] declares the next [Task] variable; [AwaitTask] and [DetachTask]
    name one.  The sender of [AwaitOp] is built for the address at which its
    operation state will live. *)
Inductive Body (T V : Type) : Type :=
  | CoReturn (out : outcome T)
  | AwaitCoro (child : Body T V) (k : outcome T → Body T V)
  | SpawnTask (runtime : option RuntimeId) (child k : Body T V)
  | AwaitTask (i : nat) (k : outcome T → Body T V)
  | DetachTask (i : nat) (k : Body T V)
  | SwitchTo (runtime : RuntimeId) (k : Body T V)
  | AwaitOp (s : Z → sender V) (k : OpStates.value V → Body T V).
Arguments CoReturn {T V} out.
Arguments AwaitCoro {T V} child k.
Arguments SpawnTask {T V} runtime child k.
Arguments AwaitTask {T V} i k.
Arguments DetachTask {T V} i k.
Arguments SwitchTo {T V} runtime k.
Arguments AwaitOp {T V} s k.

(** The suspension point of a frame: about to run (or running) [b]; inside
    [co_await] of a coroutine, of a task (with the runtime in its awaiter) or of
    an operation (with its awaiter and operation state); at the final one. *)
Inductive Code (T V : Type) : Type :=
  | Running (b : Body T V)
  | InCoro (c : nat) (k : outcome T → Body T V)
  | InTask (t : nat) (runtime_ : RuntimeId) (k : outcome T → Body T V)
  | InOp (a : SenderAwaiter.SenderAwaiter (OpStates.value V)) (op_state : opstate V)
      (k : OpStates.value V → Body T V)
  | AtFinal.
Arguments Running {T V} b.
Arguments InCoro {T V} c k.
Arguments InTask {T V} t runtime_ k.
Arguments InOp {T V} a op_state k.
Arguments AtFinal {T V}.

(** [tasks_]: the handles in the [Task] variables, [None] for a null handle. *)
Record Frame (T V : Type) := mkFrame {
  promise_ : Promise T;
  code_ : Code T V;
  tasks_ : list (option nat)
}.
Arguments mkFrame {T V} promise_ code_ tasks_.
Arguments promise_ {T V} f.
Arguments code_ {T V} f.
Arguments tasks_ {T V} f.

(** [orphans]: the finish handles of zero-copy operations that outlive their
    operation state. *)
Record Sys (U T V : Type) := mkSys {
  senv : OEnv U V;
  frames : gmap nat (Frame T V);
  next_frame : nat;
  orphans : list (op V * leaf_state V)
}.
Arguments mkSys {U T V} senv frames next_frame orphans.
Arguments senv {U T V} s.
Arguments frames {U T V} s.
Arguments next_frame {U T V} s.
Arguments orphans {U T V} s.

Definition put_env {U T V} (e : OEnv U V) (s : Sys U T V) : Sys U T V :=
  mkSys e (frames s) (next_frame s) (orphans s).
Definition put_frames {U T V} (fs : gmap nat (Frame T V)) (s : Sys U T V) : Sys U T V :=
  mkSys (senv s) fs (next_frame s) (orphans s).

#[export] Instance sys_has_world U T V : HasWorld (Sys U T V) U := {
  world_of s := world (senv s);
  put_world w s := put_env (mkOEnv w (calls (senv s))) s
}.
#[export] Instance sys_has_world_laws U T V : HasWorldLaws (Sys U T V) U.
Proof. split; [done | by intros [[] ???] | done]. Qed.

(** The addresses of the frame of a coroutine: its promise, which is the work that
    the runtime is given, and the place of the awaited operation. *)
Definition promise_addr (id : nat) : Z := 4096 * (Z.of_nat id + 1).
Definition awaiter_addr (id : nat) : Z := promise_addr id + 64.
Definition frame_at (work : Z) : nat := Z.to_nat (work / 4096 - 1).

(** ** The protocols of the promise on one thread

    The steps of [Coro.Lifecycle], taken without interference: at most four of
    them end [FinalAwaiter::await_suspend], [request_join] and
    [request_detach]. *)
Section protocol.
Context {T : Type}.

Fixpoint drive {S} (n : nat) (m : ST S unit) : ST S unit :=
  match n with O => mret tt | Datatypes.S n => m;; drive n m end.

Definition run_protocol {A} (fin : Lifecycle.fin_pc) (own : Lifecycle.own_pc T)
    (step : ST (Lifecycle.CoSys T) unit) (result : Lifecycle.CoSys T → option A) : ST (frame T) A := λ f,
  match drive 4 step (Lifecycle.mkCoSys f fin own [] 0) with
  | Done _ s =>
      match result s with
      | Some a => Done a (Lifecycle.cframe s)
      | None => Crashed OutOfFuel
      end
  | Thrown e s => Thrown e (Lifecycle.cframe s)
  | Crashed c => Crashed c
  end.

(** The handle that control is transferred to, and the callbacks called. *)
Definition final_await_suspend (out : outcome T) : ST (frame T) (cohandle * list nat) :=
  run_protocol Lifecycle.FinLoad Lifecycle.OwnHold (Lifecycle.fin_step out false)
    (λ s, match Lifecycle.fin s with
          | Lifecycle.FinDone h => Some (h, Lifecycle.invoked s)
          | _ => None
          end).

(** [true]: the task has not finished, [cb] will be called. *)
Definition request_join (cb : nat) : ST (frame T) bool :=
  run_protocol Lifecycle.FinBody (Lifecycle.JoinLoad Lifecycle.Wait cb) (Lifecycle.own_step false)
    (λ s, match Lifecycle.own s with
          | Lifecycle.JoinWait _ _ => Some true
          | Lifecycle.JoinReady _ _ => Some false
          | _ => None
          end).

Definition request_detach : ST (frame T) unit :=
  run_protocol Lifecycle.FinBody Lifecycle.DetLoad (Lifecycle.own_step false)
    (λ s, match Lifecycle.own s with Lifecycle.OwnDetached => Some tt | _ => None end).
End protocol.

(** ** Running coroutines *)

Section system.
Context {U T V : Type} `{Uring U}.
Abbreviation M := (ST (Sys U T V)).

Definition on_env {A} : ST (OEnv U V) A → M A := zoom senv put_env.

Definition get_frame (id : nat) : M (Frame T V) :=
  s ← get;
  match frames s !! id with Some f => mret f | None => crashed BadAccess end.
Definition set_frame (id : nat) (f : Frame T V) : M unit :=
  modify (λ s, put_frames (<[id := f]> (frames s)) s).
Definition set_code (id : nat) (c : Code T V) : M unit :=
  f ← get_frame id; set_frame id (mkFrame (promise_ f) c (tasks_ f)).
Definition set_tasks (id : nat) (ts : list (option nat)) : M unit :=
  f ← get_frame id; set_frame id (mkFrame (promise_ f) (code_ f) ts).

(** Code on the promise of a frame, which may destroy the frame. *)
Definition on_frame {A} (id : nat) (m : ST (frame T) A) : M A :=
  f ← get_frame id;
  match m (Some (promise_ f)) with
  | Done a (Some p) => set_frame id (mkFrame p (code_ f) (tasks_ f));; mret a
  | Done a None => modify (λ s, put_frames (delete id (frames s)) s);; mret a
  | Thrown e _ => throw e
  | Crashed c => crashed c
  end.

(** A call of a coroutine: the frame is allocated, [get_return_object] returns its
    handle and [initial_suspend] suspends. *)
Definition call_coro (b : Body T V) : M nat :=
  s ← get;
  let id := next_frame s in
  put (mkSys (senv s) (<[id := mkFrame promise_new (Running b) []]> (frames s)) (S id) (orphans s));;
  mret id.

(** [co_spawn(runtime, coro)] for a coroutine given by its handle. *)
Definition co_spawn (curr : option RuntimeId) (runtime : RuntimeId) (coro : nat) (sync_res : Z) : M nat :=
  on_frame coro (on_promise mark_running);;
  in_world (schedule_internal curr runtime (promise_addr coro) sync_res);;
  mret coro.

(** [co_spawn(coro)] *)
Definition co_spawn_here (curr : option RuntimeId) (coro : nat) (sync_res : Z) : M nat :=
  match curr with
  | None => throw LogicError
  | Some runtime => co_spawn curr runtime coro sync_res
  end.

(** [TaskAwaiterBase::invoke] of the awaiter in the frame [id]. *)
Definition task_awaiter_invoke (this : RuntimeId) (id : nat) : M unit :=
  f ← get_frame id;
  match code_ f with
  | InTask _ runtime_ _ => in_world (schedule_internal (Some this) runtime_ (promise_addr id) 0)
  | _ => crashed BadAccess
  end.

Fixpoint call_all (this : RuntimeId) (cbs : list nat) : M unit :=
  match cbs with
  | [] => mret tt
  | cb :: cbs => task_awaiter_invoke this cb;; call_all this cbs
  end.

Definition final_suspend (this : RuntimeId) (id : nat) (out : outcome T) : M cohandle :=
  '(next, cbs) ← on_frame id (final_await_suspend out);
  call_all this cbs;;
  mret next.

(** [std::exchange(task.handle_, nullptr)] for the [i]-th [Task] variable. *)
Definition release_task (id i : nat) : M (option nat) :=
  f ← get_frame id;
  match tasks_ f !! i with
  | Some h => set_tasks id (<[i := None]> (tasks_ f));; mret h
  | None => crashed BadAccess
  end.

(** The leaves that are still alive when an operation state is destroyed. *)
Fixpoint alive_leaves (t : opstate V) : list (op V * leaf_state V) :=
  match t with
  | OpState o (Received v true) => [(o, Received v true)]
  | OpState _ _ => []
  | FlaggedOpState _ s => alive_leaves s
  | Parallel _ cs => concat (map alive_leaves cs)
  end.

(** *** From one suspension point to the next

    The coroutine [id] with the frame [f] on the thread of [this].  The result is the
    coroutine that runs next: itself when it does not suspend. *)

(** [co_return] or an exception that leaves the body: the locals are destroyed,
    [~TaskBase] panics on a handle. *)
Definition leave_body (this : RuntimeId) (id : nat) (f : Frame T V) (out : outcome T) : M cohandle :=
  if bool_decide (Forall (λ h, h = None) (tasks_ f)) then
    on_frame id (on_promise (finish_body out));;
    set_code id AtFinal;;
    final_suspend this id out
  else crashed Panic.

(** [CoroAwaiter] *)
Definition coro_await_suspend (id : nat) (child : Body T V) (k : outcome T → Body T V) : M cohandle :=
  c ← call_coro child;
  on_frame c (on_promise (set_caller_handle (Handle id)));;
  set_code id (InCoro c k);;
  mret (Handle c).
Definition coro_await_resume (id c : nat) (k : outcome T → Body T V) : M cohandle :=
  r ← on_frame c take_result;
  set_code id (Running (k r));;
  mret (Handle id).

(** [Task<T> t = co_spawn(...)] *)
Definition spawn_task (this : RuntimeId) (id : nat) (f : Frame T V) (runtime : option RuntimeId)
    (child k : Body T V) : M cohandle :=
  c ← call_coro child;
  t ← match runtime with
      | Some rt => co_spawn (Some this) rt c 0
      | None => co_spawn_here (Some this) c 0
      end;
  set_tasks id (tasks_ f ++ [Some t]);;
  set_code id (Running k);;
  mret (Handle id).

(** [TaskAwaiter]; [await_ready] throws on a null handle. *)
Definition task_await_suspend (this : RuntimeId) (id i : nat) (k : outcome T → Body T V) : M cohandle :=
  h ← release_task id i;
  match h with
  | None =>
      set_code id (Running (k (Raised InvalidArgument)));;
      mret (Handle id)
  | Some t =>
      in_world (pend_work_internal (Some this) this);;
      set_code id (InTask t this k);;
      suspended ← on_frame t (request_join id);
      mret (if suspended : bool then NoopCoroutine else Handle id)
  end.
Definition task_await_resume (this : RuntimeId) (id t : nat) (k : outcome T → Body T V) : M cohandle :=
  in_world (resume_work_internal (Some this) this);;
  r ← on_frame t take_result;
  set_code id (Running (k r));;
  mret (Handle id).

(** [t.detach()] *)
Definition detach_task (id : nat) (f : Frame T V) (i : nat) (k : Body T V) : M cohandle :=
  match tasks_ f !! i with
  | Some (Some t) =>
      on_frame t request_detach;;
      set_tasks id (<[i := None]> (tasks_ f));;
      set_code id (Running k);;
      mret (Handle id)
  | _ => crashed BadAccess
  end.

(** [SwitchAwaiter] *)
Definition switch_await_suspend (this : RuntimeId) (id : nat) (runtime : RuntimeId) (k : Body T V) : M cohandle :=
  set_code id (Running k);;
  in_world (schedule_internal (Some this) runtime (promise_addr id) 0);;
  mret NoopCoroutine.

(** [SenderAwaiter], whose receiver has a token that never stops. *)
Definition sender_await_suspend (space_fuel : nat) (this : RuntimeId) (id : nat) (s : Z → sender V)
    (k : OpStates.value V → Body T V) : M cohandle :=
  let t := connect None (s (awaiter_addr id)) in
  '(t, r) ← on_env (start (height t) (Some this) space_fuel None 0 t);
  match SenderAwaiter.await_suspend id r SenderAwaiter.awaiter_new with
  | Done suspended a =>
      set_code id (InOp a t k);;
      mret (if suspended : bool then NoopCoroutine else Handle id)
  | Thrown e _ => throw e
  | Crashed c => crashed c
  end.
Definition sender_await_resume (id : nat) (a : SenderAwaiter.SenderAwaiter (OpStates.value V)) (t : opstate V)
    (k : OpStates.value V → Body T V) : M cohandle :=
  match SenderAwaiter.await_resume a with
  | Done v _ =>
      modify (λ s, mkSys (senv s) (frames s) (next_frame s) (orphans s ++ alive_leaves t));;
      set_code id (Running (k v));;
      mret (Handle id)
  | Thrown e _ => throw e
  | Crashed c => crashed c
  end.

Definition exec (space_fuel : nat) (this : RuntimeId) (id : nat) : M cohandle :=
  f ← get_frame id;
  match code_ f with
  | Running (CoReturn out) => leave_body this id f out
  | Running (AwaitCoro child k) => coro_await_suspend id child k
  | InCoro c k => coro_await_resume id c k
  | Running (SpawnTask runtime child k) => spawn_task this id f runtime child k
  | Running (AwaitTask i k) => task_await_suspend this id i k
  | InTask t _ k => task_await_resume this id t k
  | Running (DetachTask i k) => detach_task id f i k
  | Running (SwitchTo runtime k) => switch_await_suspend this id runtime k
  | Running (AwaitOp s k) => sender_await_suspend space_fuel this id s k
  | InOp a t k => sender_await_resume id a t k
  (* resuming a coroutine at its final suspension point *)
  | AtFinal => crashed BadAccess
  end.

(** [h.resume()]: control is transferred from coroutine to coroutine until one
    suspends without a successor. *)
Fixpoint resume (space_fuel fuel : nat) (this : RuntimeId) (h : cohandle) : M unit :=
  match h with
  | NoopCoroutine => mret tt
  | NullHandle => crashed BadAccess
  | Handle id =>
      match fuel with
      | O => crashed OutOfFuel
      | S fuel => next ← exec space_fuel this id; resume space_fuel fuel this next
      end
  end.

(** [PromiseBase::invoke]: the work of a coroutine is its promise. *)
Definition invoke (space_fuel fuel : nat) (this : RuntimeId) (work : Z) : M unit :=
  resume space_fuel fuel this (Handle (frame_at work)).

(** *** Completions *)

(** [will_spawn(func)], called by a multi-shot operation with each of its results; the
    call is [noexcept]. *)
Definition spawn_helper (curr : option RuntimeId) (func : OpStates.value V → Body T V) (res : OpStates.value V)
    : M unit := λ s,
  match (c ← call_coro (func res);
         t ← co_spawn_here curr c 0;
         on_frame t request_detach) s with
  | Thrown _ _ => Crashed Panic
  | r => r
  end.

(** The position of the leaf whose finish handle is at [h], among the leaves that
    the kernel has not finished. *)
Fixpoint find_leaf (h : Z) (t : opstate V) : option (list nat) :=
  match t with
  | OpState o (Pending _ _ | Received _ true) => if handle_addr o =? h then Some [] else None
  | OpState _ _ => None
  | FlaggedOpState _ s => cons 0%nat <$> find_leaf h s
  | Parallel _ cs =>
      (fix go (i : nat) (cs : list (opstate V)) :=
         match cs with
         | [] => None
         | c :: cs =>
             match find_leaf h c with
             | Some path => Some (i :: path)
             | None => go (S i) cs
             end
         end) 0%nat cs
  end.

Definition find_in_frame (h : Z) (f : Frame T V) : option (list nat) :=
  match code_ f with InOp _ t _ => find_leaf h t | _ => None end.

Fixpoint find_handle (h : Z) (fs : list (nat * Frame T V)) : option (nat * list nat) :=
  match fs with
  | [] => None
  | (id, f) :: fs =>
      match find_in_frame h f with
      | Some path => Some (id, path)
      | None => find_handle h fs
      end
  end.

Fixpoint find_orphan (h : Z) (i : nat) (os : list (op V * leaf_state V)) : option (nat * op V * leaf_state V) :=
  match os with
  | [] => None
  | (o, st) :: os => if handle_addr o =? h then Some (i, o, st) else find_orphan h (S i) os
  end.

(** A completion for the operation that coroutine [id] awaits: the finish handle at
    [path] runs; when the receiver of the awaiter is called it resumes the
    coroutine. *)
Definition handle_in_frame (space_fuel fuel : nat) (this : RuntimeId) (id : nat) (path : list nat) (c : cqe)
    : M bool :=
  f ← get_frame id;
  match code_ f with
  | InOp a t k =>
      '(t, r, fin) ← on_env (OpStates.handle (Some this) path t c);
      match r with
      | None => set_code id (InOp a t k);; mret fin
      | Some v =>
          match SenderAwaiter.handle_result_ v a with
          | Done _ a' =>
              set_code id (InOp a' t k);;
              resume space_fuel fuel this (SenderAwaiter.handle_ a);;
              mret fin
          | Thrown e _ => throw e
          | Crashed c => crashed c
          end
      end
  | _ => crashed BadAccess
  end.

(** A completion for the [i]-th finish handle without operation state. *)
Definition handle_orphan (i : nat) (o : op V) (st : leaf_state V) (c : cqe) : M bool :=
  '(st, _, fin) ← on_env (leaf_handle o st c);
  modify (λ s, mkSys (senv s) (frames s) (next_frame s)
                 (if fin : bool then delete i (orphans s) else <[i := (o, st)]> (orphans s)));;
  mret fin.

(** [OpFinishHandleBase::handle] *)
Definition handle (space_fuel fuel : nat) (this : RuntimeId) (h : Z) (c : cqe) : M bool :=
  s ← get;
  match find_handle h (map_to_list (frames s)) with
  | Some (id, path) => handle_in_frame space_fuel fuel this id path c
  | None =>
      match find_orphan h 0 (orphans s) with
      | Some (i, o, st) => handle_orphan i o st c
      | None => crashed BadAccess
      end
  end.

(** ** [sync_wait] *)

Section sync.
Context (cqe_nr : cqe → Z) (wait_fuel space_fuel fuel : nat).

(** [Runtime::run] with these callbacks. *)
Definition run_system (this thread : nat) : M unit :=
  run (invoke space_fuel fuel) (handle space_fuel fuel) cqe_nr wait_fuel fuel this thread.

(** A [Task] that is a local variable: its member [handle_] beside the process. *)
Abbreviation TaskM := (ST (option nat * Sys U T V)).
Definition in_sys {A} : M A → TaskM A := zoom snd (λ s t, (t.1, s)).

(** [TaskBase::wait_inner_].  Waiting for a task that no other thread runs does not
    end. *)
Definition wait_inner_ (thread : nat) (handle : option nat) : M unit :=
  s ← get;
  match context (world_of s) !! thread, handle with
  | Some _, _ => throw LogicError
  | None, None => throw InvalidArgument
  | None, Some t =>
      unfinished ← on_frame t (request_join (next_frame s));
      if unfinished : bool then crashed OutOfFuel else mret tt
  end.

(** [Task::wait]: the handle is taken out of the task before anything else. *)
Definition task_wait (thread : nat) : TaskM (outcome T) :=
  '(handle, s) ← get;
  put (None, s);;
  in_sys (wait_inner_ thread handle);;
  match handle with
  | Some t => in_sys (on_frame t take_result)
  | None => crashed BadAccess
  end.

(** [~TaskBase()] *)
Definition task_destroy (handle_ : option nat) : M unit :=
  match handle_ with
  | Some _ => crashed Panic
  | None => mret tt
  end.

(** A block with the local variable [Task t{handle}]: it is destroyed when the block
    is left, by its end or by an exception. *)
Definition with_task {A} (handle : nat) (m : TaskM A) : M A := λ s,
  match m (Some handle, s) with
  | Done a (handle_, s) => (task_destroy handle_;; mret a) s
  | Thrown e (handle_, s) => (task_destroy handle_;; throw e) s
  | Crashed c => Crashed c
  end.

Definition sync_wait (this thread coro : nat) (sync_res : Z) : M (outcome T) :=
  s ← get;
  let curr := context (world_of s) !! thread in
  t ← co_spawn curr this coro sync_res;
  with_task t
    (in_sys (in_world (allow_exit curr this sync_res));;
     in_sys (run_system this thread);;
     task_wait thread).

(** [~Coro()] *)
Definition coro_destroy (coro : option nat) : M unit :=
  match coro with
  | Some id => on_frame id destroy
  | None => mret tt
  end.

(** [Runtime runtime(default_runtime_options())], a local variable of the other
    [sync_wait]: [this] is where it lives.  When the constructor throws, the
    parameter [coro] is destroyed. *)
Context (queue_init : Z → params → Z + U) (queue_init_mem : Z → params → Z → Z → Z + U).

Definition sync_wait_default (opts : RuntimeOptions) (this thread coro : nat) (sync_res : Z)
    : M (outcome T) := λ s,
  match create_ring_ queue_init queue_init_mem opts s with
  | Done g s =>
      let r := runtime_new g (opt_event_interval_ opts) (opt_disable_register_ring_fd_ opts) in
      defer_run (at_exit (λ w, mkWorld (delete this (runtimes w)) (sync_msgs w) (context w)))
        (in_world (set_rt this r);; sync_wait this thread coro sync_res) s
  | Thrown e s => (coro_destroy (Some coro);; throw e) s
  | Crashed c => Crashed c
  end.
End sync.
End system.

(** ** Concrete programs *)

(** A fresh runtime on a simulated ring, and a process without coroutines. *)
Definition demo_runtime : Runtime SimRing := runtime_new (mkRing (mkSimRing 3 [] [] 4 []) 8 0) 61 false.
Definition demo_sys : Sys SimRing Z Z :=
  mkSys (mkOEnv (mkWorld {[0%nat := demo_runtime]} [] ∅) []) ∅ 0 [].

(** Call a coroutine and wait for it. *)
Definition call_and_wait {U T V} `{Uring U} (cqe_nr : cqe → Z) (wait_fuel space_fuel fuel : nat)
    (this thread : nat) (sync_res : Z) (b : Body T V) : ST (Sys U T V) (outcome T) :=
  c ← call_coro b;
  sync_wait cqe_nr wait_fuel space_fuel fuel this thread c sync_res.

(** [x + 1] in a coroutine of its own, after giving way once. *)
Definition demo_inc (x : Z) : Body Z Z := SwitchTo 0 (CoReturn (Returned (x + 1))).

(** Two tasks, a nested coroutine that throws, and a detached task. *)
Definition demo_main : Body Z Z :=
  SpawnTask None (demo_inc 10)
    (SpawnTask (Some 0%nat) (demo_inc 20)
       (SpawnTask None (demo_inc 30)
          (DetachTask 2
             (AwaitCoro (CoReturn (Raised (UserException 7)))
                (λ r, AwaitTask 1
                   (λ y, AwaitTask 0
                      (λ x, match x, y, r with
                            | Returned a, Returned b, Raised _ => CoReturn (Returned (a + b))
                            | _, _, _ => CoReturn (Raised (UserException 1))
                            end))))))).

Example demo_main_runs :
  match call_and_wait (λ _, 1) 1 2 30 0 5 0 demo_main demo_sys with
  | Done (Returned v) s => bool_decide (v = 32 ∧ frames s = ∅)
  | _ => false
  end = true.
Proof. vm_compute. reflexivity. Qed.
