(* ===== verification/SystemInv.v ===== *)
(** * The frames of a system of coroutines ([System.v])

    - [inv]: who owns each frame, which state its promise is in, and which
      coroutines run or are queued.
    - [trans]: what one step of a coroutine does to the frames and to the queue
      of the runtime; every case keeps [inv] ([trans_inv]).
    - When nothing runs and no operation is awaited, only the frame of the
      coroutine given to [sync_wait] is left ([all_final], [only_root]). *)

From stdpp Require Import base numbers list gmap.
From S2P Require Import Prelude Utils WorkType Ring Runtime OpStates OpStatesProps Coro System.

(** Who owns a frame: the caller of [sync_wait], a [Task] variable of a frame, a
    frame that awaits the coroutine or the task; nobody once it is detached. *)
Inductive Role : Type :=
  | Root
  | Held (p i : nat)
  | CoroOf (p : nat)
  | JoinedBy (p : nat)
  | Detached.

Lemma option_list_elem_of {A} (o : option A) x : x ∈ option_list o ↔ o = Some x.
Proof. destruct o; simpl; [rewrite list_elem_of_singleton; naive_solver | split; [by intros ?%not_elem_of_nil | done]]. Qed.

Section invariant.
Context {T V : Type} (this : RuntimeId) (root : nat).
Abbreviation frameset := (gmap nat (Frame T V)).
Implicit Types (fs : frameset) (R : gmap nat Role) (f : Frame T V) (q : list nat) (cur : option nat).

Definition is_final f : bool := match code_ f with AtFinal => true | _ => false end.
Definition final fs (c : nat) : bool := match fs !! c with Some f => is_final f | None => false end.

(** A coroutine that can go on. *)
Definition runnable fs f : bool :=
  match code_ f with
  | Running _ => true
  | InCoro c _ => final fs c
  | InTask t _ _ => final fs t
  | InOp a _ _ => bool_decide (is_Some (SenderAwaiter.result_ a))
  | AtFinal => false
  end.

Definition parent (ρ : Role) : option nat :=
  match ρ with Held p _ | CoroOf p | JoinedBy p => Some p | Root | Detached => None end.

(** The frame [f] owns [j], in the way [ρ] says. *)
Definition points f (j : nat) (ρ : Role) : Prop :=
  match ρ with
  | Held _ i => tasks_ f !! i = Some (Some j)
  | CoroOf _ => ∃ k, code_ f = InCoro j k
  | JoinedBy _ => ∃ k, code_ f = InTask j this k
  | Root | Detached => False
  end.
Definition link fs (j : nat) (ρ : Role) : Prop :=
  ∃ p f, parent ρ = Some p ∧ fs !! p = Some f ∧ points f j ρ.

Definition clean (p : Promise T) : Prop := exception_ p = None ∧ value_ p = None.

(** The promise of a frame with a given owner. *)
Definition state_ok (ρ : Role) f : Prop :=
  match ρ with
  | Root | Held _ _ => state_ (promise_ f) = if is_final f then Zombie else RunningJoinable
  | CoroOf p => state_ (promise_ f) = Coro.Idle ∧ union_ (promise_ f) = CallerHandle (Handle p)
  | JoinedBy p =>
      if is_final f then state_ (promise_ f) = Finished
      else state_ (promise_ f) = RunningJoining ∧ union_ (promise_ f) = Callback p
  | Detached => state_ (promise_ f) = RunningDetached ∧ is_final f = false
  end.

(** A frame taken by itself. *)
Definition frame_ok f : Prop :=
  match code_ f with
  | AtFinal => Forall (λ h, h = None) (tasks_ f) ∧ ∃ out p, clean p ∧ promise_ f = finish_body out p
  | InTask _ rt _ => rt = this ∧ clean (promise_ f)
  | _ => clean (promise_ f)
  end.

Definition active cur q : list nat := option_list cur ++ q.

(** [cur]: the running coroutine; [q]: the queued ones. *)
Record inv fs R cur q : Prop := {
  inv_dom j : is_Some (fs !! j) ↔ is_Some (R !! j);
  inv_root j : R !! j = Some Root ↔ j = root;
  inv_link j ρ : is_Some (parent ρ) → R !! j = Some ρ ↔ link fs j ρ;
  inv_order j ρ p : R !! j = Some ρ → parent ρ = Some p → (p < j)%nat;
  inv_state j f ρ : fs !! j = Some f → R !! j = Some ρ → state_ok ρ f;
  inv_frame j f : fs !! j = Some f → frame_ok f;
  inv_active j : j ∈ active cur q ↔ ∃ f, fs !! j = Some f ∧ runnable fs f = true;
  inv_nodup : NoDup (active cur q)
}.

(** ** When nothing runs any more *)

Lemma frames_ind_down fs (P : nat → Frame T V → Prop) :
  (∀ j f, fs !! j = Some f → (∀ i g, (j < i)%nat → fs !! i = Some g → P i g) → P j f) →
  ∀ j f, fs !! j = Some f → P j f.
Proof.
  intros Hstep. set (B := S (max_list (elements (dom fs)))).
  assert (∀ n j f, (B ≤ j + n)%nat → fs !! j = Some f → P j f) as Hn; [| intros j f; apply (Hn B); lia].
  assert (∀ j f, fs !! j = Some f → (j < B)%nat) as HB.
  { intros j f Hj. unfold B. apply Nat.lt_succ_r, max_list_elem_of_le, elem_of_elements, elem_of_dom. eauto. }
  induction n as [|n IH]; intros j f Hle Hj; [specialize (HB _ _ Hj); lia |].
  apply Hstep; [done |]. intros i g Hi. apply IH. lia.
Qed.

Lemma inv_child fs R cur q j f ρ c :
  inv fs R cur q → fs !! j = Some f → link fs c ρ → parent ρ = Some j →
  (j < c)%nat ∧ ∃ g, fs !! c = Some g ∧ state_ok ρ g.
Proof.
  intros Hi Hj Hl Hp. assert (R !! c = Some ρ) as Hc by (apply (inv_link _ _ _ _ Hi); eauto).
  split; [by eapply inv_order |].
  destruct (proj2 (inv_dom _ _ _ _ Hi c)) as [g Hg]; [eauto |].
  exists g. split; [done |]. by eapply inv_state.
Qed.

Lemma final_lookup fs c g : fs !! c = Some g → final fs c = is_final g.
Proof. unfold final. by intros ->. Qed.

(** Every frame that is not finished waits for another one that is not finished
    and was made later, or for an operation: when nothing runs and no operation is
    awaited, all frames are finished. *)
Lemma all_final fs R :
  inv fs R None [] →
  (∀ j f a t k, fs !! j = Some f → code_ f = InOp a t k → is_Some (SenderAwaiter.result_ a)) →
  ∀ j f, fs !! j = Some f → is_final f = true.
Proof.
  intros Hi Hop. apply (frames_ind_down fs (λ _ f, is_final f = true)). intros j f Hj IH.
  assert (runnable fs f ≠ true) as Hr.
  { intros Hr. apply (not_elem_of_nil j). change [] with (active None []).
    apply (inv_active _ _ _ _ Hi). eauto. }
  unfold runnable in Hr. unfold is_final. destruct (code_ f) as [b | c k | t rt k | a t k |] eqn:Ec; try done; exfalso.
  - destruct (inv_child fs R None [] j f (CoroOf j) c Hi Hj) as (Hlt & g & Hg & _); [by exists j, f; split_and!; [| | exists k] | done |].
    rewrite (final_lookup _ _ _ Hg), (IH c g) in Hr; done.
  - pose proof (inv_frame _ _ _ _ Hi j f Hj) as Hf. unfold frame_ok in Hf. rewrite Ec in Hf. destruct Hf as [-> _].
    destruct (inv_child fs R None [] j f (JoinedBy j) t Hi Hj) as (Hlt & g & Hg & _); [by exists j, f; split_and!; [| | exists k] | done |].
    rewrite (final_lookup _ _ _ Hg), (IH t g) in Hr; done.
  - apply Hr, bool_decide_eq_true_2. eauto.
Qed.

(** Then only the frame of [sync_wait]'s coroutine is left. *)
Lemma only_root fs R :
  inv fs R None [] → (∀ j f, fs !! j = Some f → is_final f = true) →
  ∀ j f, fs !! j = Some f →
    j = root ∧ ∃ out p, clean p ∧ promise_ f = finish_body out p ∧ state_ (promise_ f) = Zombie.
Proof.
  intros Hi Hfin j f Hj. destruct (proj1 (inv_dom _ _ _ _ Hi j)) as [ρ Hρ]; [eauto |].
  pose proof (Hfin j f Hj) as Hff. pose proof (inv_state _ _ _ _ Hi j f ρ Hj Hρ) as Hst.
  pose proof (inv_frame _ _ _ _ Hi j f Hj) as Hf. unfold frame_ok in Hf. unfold is_final in Hff.
  destruct (code_ f) eqn:Ec; try done. destruct Hf as (_ & out & p & Hcl & Hp).
  assert (∀ p', parent ρ = Some p' → link fs j ρ) as Hlink.
  { intros p' Hp'. apply (inv_link _ _ _ _ Hi); eauto. }
  unfold state_ok, is_final in Hst. rewrite Ec in Hst. destruct ρ as [| p' i | p' | p' |].
  - split; [by apply (inv_root _ _ _ _ Hi) |]. eauto 6.
  - destruct (Hlink p' eq_refl) as (? & g & [= <-] & Hg & Ht). pose proof (Hfin _ _ Hg) as Hgf.
    pose proof (inv_frame _ _ _ _ Hi _ _ Hg) as Hgo. unfold frame_ok, is_final in *.
    destruct (code_ g); try done. destruct Hgo as [Hn _]. rewrite Forall_lookup in Hn. by specialize (Hn _ _ Ht).
  - destruct (Hlink p' eq_refl) as (? & g & [= <-] & Hg & k & Ht). pose proof (Hfin _ _ Hg) as Hgf.
    unfold is_final in Hgf. by rewrite Ht in Hgf.
  - destruct (Hlink p' eq_refl) as (? & g & [= <-] & Hg & k & Ht). pose proof (Hfin _ _ Hg) as Hgf.
    unfold is_final in Hgf. by rewrite Ht in Hgf.
  - by destruct Hst.
Qed.

(** ** Transitions *)

(** The frame that [f] waits for. *)
Definition waits_for f : option nat :=
  match code_ f with InCoro c _ | InTask c _ _ => Some c | _ => None end.

Lemma runnable_ext fs fs' f :
  (∀ c, waits_for f = Some c → final fs' c = final fs c) → runnable fs' f = runnable fs f.
Proof. unfold runnable, waits_for. destruct (code_ f); auto. Qed.

Lemma waits_link fs R cur q j f c :
  inv fs R cur q → fs !! j = Some f → waits_for f = Some c →
  ∃ ρ, R !! c = Some ρ ∧ parent ρ = Some j ∧ link fs c ρ.
Proof.
  intros Hi Hj Hw. pose proof (inv_frame _ _ _ _ Hi j f Hj) as Hf. unfold waits_for in Hw. unfold frame_ok in Hf.
  destruct (code_ f) as [| c' k | t rt k | |] eqn:Ec; simplify_eq.
  - assert (link fs c (CoroOf j)) as Hl by (exists j, f; split_and!; [done | done | by exists k]).
    exists (CoroOf j). split; [apply (inv_link _ _ _ _ Hi); eauto | done].
  - destruct Hf as [-> _].
    assert (link fs c (JoinedBy j)) as Hl by (exists j, f; split_and!; [done | done | by exists k]).
    exists (JoinedBy j). split; [apply (inv_link _ _ _ _ Hi); eauto | done].
Qed.

Lemma link_insert fs id f j ρ :
  link (<[id := f]> fs) j ρ ↔ (parent ρ = Some id ∧ points f j ρ) ∨ (parent ρ ≠ Some id ∧ link fs j ρ).
Proof.
  split.
  - intros (p & g & Hp & Hg & Hpt). destruct (decide (p = id)) as [-> | Hne].
    + rewrite lookup_insert_eq in Hg. injection Hg as <-. by left.
    + rewrite lookup_insert_ne in Hg by done. right. split; [congruence |]. by exists p, g.
  - intros [[Hp Hpt] | [Hp (p & g & Hp' & Hg & Hpt)]].
    + exists id, f. by rewrite lookup_insert_eq.
    + exists p, g. by rewrite lookup_insert_ne by congruence.
Qed.

Lemma link_alter fs c og j ρ :
  link (partial_alter (λ _, og) c fs) j ρ ↔
  (parent ρ = Some c ∧ ∃ g, og = Some g ∧ points g j ρ) ∨ (parent ρ ≠ Some c ∧ link fs j ρ).
Proof.
  split.
  - intros (p & g & Hp & Hg & Hpt). destruct (decide (p = c)) as [-> | Hne].
    + rewrite lookup_partial_alter_eq in Hg. left. eauto.
    + rewrite lookup_partial_alter_ne in Hg by done. right. split; [congruence |]. by exists p, g.
  - intros [(Hp & g & -> & Hpt) | [Hp (p & g & Hp' & Hg & Hpt)]].
    + exists c, g. by rewrite lookup_partial_alter_eq.
    + exists p, g. by rewrite lookup_partial_alter_ne by congruence.
Qed.

(** A change of the frame [id] and of one frame [c] that it owns or makes: [og] and
    [oρ] are what [c] becomes, [None] when it is destroyed. *)
Record change fs R (id : nat) f' (c : nat) (og : option (Frame T V)) (oρ : option Role) : Prop := {
  ch_ne : c ≠ id;
  ch_some : is_Some og ↔ is_Some oρ;
  ch_old ρ : R !! c = Some ρ → parent ρ = Some id;
  ch_new ρ : oρ = Some ρ → ρ = Detached ∨ (parent ρ = Some id ∧ (id < c)%nat);
  ch_points f j ρ : fs !! id = Some f → parent ρ = Some id →
    points f' j ρ ↔ if decide (j = c) then oρ = Some ρ else points f j ρ;
  ch_child j ρ : parent ρ = Some c →
    (∃ g, og = Some g ∧ points g j ρ) ↔ (∃ g, fs !! c = Some g ∧ points g j ρ);
  ch_state ρ : R !! id = Some ρ → state_ok ρ f';
  ch_state_child g ρ : og = Some g → oρ = Some ρ → state_ok ρ g;
  ch_frame : frame_ok f';
  ch_frame_child g : og = Some g → frame_ok g;
  ch_final f : fs !! id = Some f → is_final f' = is_final f
}.

Lemma change_keeps fs R cur q id f f' c og oρ cur' q' :
  inv fs R cur q → fs !! id = Some f → change fs R id f' c og oρ →
  let fs' := <[id := f']> (partial_alter (λ _, og) c fs) in
  NoDup (active cur' q') →
  (∀ j, j ≠ id → j ≠ c → j ∈ active cur' q' ↔ j ∈ active cur q) →
  (id ∈ active cur' q' ↔ runnable fs' f' = true) →
  (c ∈ active cur' q' ↔ ∃ g, og = Some g ∧ runnable fs' g = true) →
  inv fs' (partial_alter (λ _, oρ) c R) cur' q'.
Proof.
  intros Hi Hid Hc fs' Hnd Hact Hid' Hc'. destruct Hc as [C1 C2 C3 C4 C5 C6 C7 C8 C9 C10 C11].
  assert (∀ j, j ≠ id → j ≠ c → fs' !! j = fs !! j) as Hoth.
  { intros j H1 H2. unfold fs'. rewrite lookup_insert_ne, lookup_partial_alter_ne by done. done. }
  assert (fs' !! id = Some f') as Hfid by apply lookup_insert_eq.
  assert (fs' !! c = og) as Hfc.
  { unfold fs'. rewrite lookup_insert_ne, lookup_partial_alter_eq by done. done. }
  split; [| | | | | | | done].
  - intros j. destruct (decide (j = id)) as [-> | H1].
    { rewrite Hfid, lookup_partial_alter_ne by done. rewrite <- (inv_dom _ _ _ _ Hi), Hid. split; eauto. }
    destruct (decide (j = c)) as [-> | H2]; [by rewrite Hfc, lookup_partial_alter_eq |].
    rewrite Hoth, lookup_partial_alter_ne by done. apply Hi.
  - intros j. destruct (decide (j = c)) as [-> | Hne].
    + rewrite lookup_partial_alter_eq, <- (inv_root _ _ _ _ Hi). split; intros Hj.
      * destruct (C4 _ Hj) as [? | [? _]]; simplify_eq.
      * specialize (C3 _ Hj). simplify_eq.
    + rewrite lookup_partial_alter_ne by done. apply (inv_root _ _ _ _ Hi).
  - intros j ρ Hp. unfold fs'. rewrite link_insert, link_alter.
    assert (R !! j = Some ρ ↔ link fs j ρ) as Hl by (by apply (inv_link _ _ _ _ Hi)).
    destruct (decide (parent ρ = Some id)) as [Hpi | Hpi].
    { assert (link fs j ρ ↔ points f j ρ) as Hlf.
      { split; [intros (p & g & ? & ? & ?); simplify_eq; congruence | intros ?; by exists id, f]. }
      rewrite (C5 f j ρ Hid Hpi). destruct (decide (j = c)) as [-> | Hjc].
      - rewrite lookup_partial_alter_eq. naive_solver.
      - rewrite lookup_partial_alter_ne by done. naive_solver. }
    assert (partial_alter (λ _, oρ) c R !! j = Some ρ ↔ R !! j = Some ρ) as Hsame.
    { destruct (decide (j = c)) as [-> | Hjc]; [| by rewrite lookup_partial_alter_ne].
      rewrite lookup_partial_alter_eq. split; intros Hρ.
      - destruct (C4 _ Hρ) as [-> | [? _]]; [by destruct Hp | done].
      - by destruct Hpi; apply C3. }
    rewrite Hsame, Hl. destruct (decide (parent ρ = Some c)) as [Hpc | Hpc]; [| naive_solver].
    assert (link fs j ρ ↔ ∃ g, fs !! c = Some g ∧ points g j ρ) as ->.
    { split; [intros (p & g & ? & ? & ?); simplify_eq; eauto | intros (g & ? & ?); by exists c, g]. }
    rewrite <- (C6 j ρ Hpc). naive_solver.
  - intros j ρ p Hj Hp. apply lookup_partial_alter_Some in Hj as [(<- & Hj) | (_ & Hj)].
    + destruct (C4 _ Hj) as [-> | [Hp' ?]]; [done |]. congruence.
    + by eapply inv_order.
  - intros j g ρ Hg Hρ. destruct (decide (j = id)) as [-> | H1].
    { rewrite lookup_partial_alter_ne in Hρ by done. rewrite Hfid in Hg. injection Hg as <-. by apply C7. }
    destruct (decide (j = c)) as [-> | H2].
    { rewrite lookup_partial_alter_eq in Hρ. rewrite Hfc in Hg. by apply C8. }
    rewrite Hoth in Hg by done. rewrite lookup_partial_alter_ne in Hρ by done. by eapply inv_state.
  - intros j g Hg. destruct (decide (j = id)) as [-> | H1]; [congruence |].
    destruct (decide (j = c)) as [-> | H2]; [apply C10; congruence |].
    rewrite Hoth in Hg by done. by eapply inv_frame.
  - intros j. destruct (decide (j = id)) as [-> | H1]; [rewrite Hid', Hfid; naive_solver |].
    destruct (decide (j = c)) as [-> | H2]; [by rewrite Hc', Hfc |].
    rewrite Hact, (inv_active _ _ _ _ Hi), Hoth by done.
    assert (∀ g, fs !! j = Some g → runnable fs' g = runnable fs g) as Hr; [| naive_solver].
    intros g Hg. apply runnable_ext. intros x Hx. unfold final at 1.
    destruct (decide (x = id)) as [-> | H3]; [rewrite Hfid, (C11 f) by done; by rewrite (final_lookup _ _ _ Hid) |].
    destruct (decide (x = c)) as [-> | H4]; [| by rewrite Hoth].
    destruct (waits_link _ _ _ _ _ _ _ Hi Hg Hx) as (ρ & Hρ & Hp & _). apply C3 in Hρ. congruence.
Qed.

(** A change of one frame that keeps what it owns. *)
Lemma change_one_keeps fs R cur q id f f' cur' q' :
  inv fs R cur q → fs !! id = Some f →
  (∀ j ρ, parent ρ = Some id → points f' j ρ ↔ points f j ρ) →
  (∀ ρ, R !! id = Some ρ → state_ok ρ f') → frame_ok f' → is_final f' = is_final f →
  NoDup (active cur' q') →
  (∀ j, j ≠ id → j ∈ active cur' q' ↔ j ∈ active cur q) →
  (id ∈ active cur' q' ↔ runnable (<[id := f']> fs) f' = true) →
  inv (<[id := f']> fs) R cur' q'.
Proof.
  intros Hi Hid Hpt Hst Hfr Hfi Hnd Hact Hid'. set (c := Datatypes.S (Nat.max id (max_list (elements (dom fs))))).
  assert (fs !! c = None) as Hc.
  { apply not_elem_of_dom. intros Hin%elem_of_elements%max_list_elem_of_le. unfold c in Hin. lia. }
  assert (R !! c = None) as HRc.
  { apply eq_None_not_Some. rewrite <- (inv_dom _ _ _ _ Hi), Hc. by intros [? ?]. }
  rewrite <- (delete_id fs c Hc) at 1. rewrite <- (delete_id R c HRc).
  apply (change_keeps fs R cur q id f f' c None None cur' q'); try done.
  - split; try done; try congruence.
    + intros f0 j ρ Hf0 Hp. assert (f0 = f) as -> by congruence. rewrite Hpt by done.
      destruct (decide (j = c)) as [-> | ?]; [| done]. split; [| done]. intros Hp'.
      assert (R !! c = Some ρ) as HR by (apply (inv_link _ _ _ _ Hi); [eauto | by exists id, f]). congruence.
    + intros j ρ _. split; [by intros (g & ? & ?) | intros (g & ? & ?); congruence].
  - intros j H1 _. by apply Hact.
  - change (partial_alter (λ _, None) c fs) with (delete c fs). by rewrite (delete_id fs c Hc).
  - rewrite Hact, (inv_active _ _ _ _ Hi), Hc by (unfold c; lia). split; [by intros (g & ? & ?) | by intros (g & ? & ?)].
Qed.

(** The frame whose coroutine waits for a frame with the owner [ρ]. *)
Definition waiter (ρ : Role) : option nat :=
  match ρ with CoroOf p | JoinedBy p => Some p | _ => None end.

Lemma waiter_waits fs R cur q id ρ p :
  inv fs R cur q → R !! id = Some ρ →
  waiter ρ = Some p ↔ ∃ g, fs !! p = Some g ∧ waits_for g = Some id.
Proof.
  intros Hi Hρ. split.
  - intros Hw. assert (parent ρ = Some p) as Hp by (by destruct ρ).
    apply (inv_link _ _ _ _ Hi) in Hρ as (p' & g & ? & Hg & Hpt); [| eauto]. simplify_eq.
    exists g. split; [done |]. unfold waits_for. destruct ρ; try done; destruct Hpt as [k ->]; done.
  - intros (g & Hg & Hw). destruct (waits_link _ _ _ _ _ _ _ Hi Hg Hw) as (ρ' & Hρ' & Hp & Hl). simplify_eq.
    unfold waits_for in Hw. destruct Hl as (p' & g' & ? & ? & Hpt). simplify_eq.
    destruct ρ as [| ? i | | |]; simplify_eq/=; try done.
    destruct (code_ g) as [| c k | t rt k | |] eqn:Ec; simplify_eq.
    + assert (R !! id = Some (CoroOf p')); [| congruence].
      apply (inv_link _ _ _ _ Hi); [eauto |]. exists p', g. split_and!; [done | done | by exists k].
    + assert (R !! id = Some (JoinedBy p')); [| congruence].
      pose proof (inv_frame _ _ _ _ Hi _ _ Hg) as Hf. unfold frame_ok in Hf. rewrite Ec in Hf. destruct Hf as [-> _].
      apply (inv_link _ _ _ _ Hi); [eauto |]. exists p', g. split_and!; [done | done | by exists k].
Qed.

(** A coroutine returns: the frame stays for its owner, a coroutine that waits for it
    can go on. *)
Lemma return_keeps fs R q id f f' ρ cur' q' :
  inv fs R (Some id) q → fs !! id = Some f → is_final f = false → waits_for f = None →
  is_final f' = true → tasks_ f' = tasks_ f → R !! id = Some ρ → state_ok ρ f' → frame_ok f' →
  active cur' q' ≡ₚ option_list (waiter ρ) ++ q →
  inv (<[id := f']> fs) R cur' q'.
Proof.
  intros Hi Hid Hnf Hnw Hf' Ht Hρ Hst Hfr Hact.
  assert (∀ j g, j ≠ id → fs !! j = Some g → runnable (<[id := f']> fs) g = true ↔
            runnable fs g = true ∨ waiter ρ = Some j) as Hrun.
  { intros j g Hne Hg. rewrite (waiter_waits _ _ _ _ _ _ _ Hi Hρ).
    destruct (decide (waits_for g = Some id)) as [Hw | Hw].
    - split; [eauto | intros _]. assert (final (<[id := f']> fs) id = true) as Hfin.
      { by rewrite (final_lookup _ _ f') by apply lookup_insert_eq. }
      unfold waits_for in Hw. unfold runnable. destruct (code_ g); simplify_eq; done.
    - rewrite (runnable_ext fs (<[id := f']> fs)); [naive_solver |]. intros c Hc. unfold final.
      by rewrite lookup_insert_ne by congruence. }
  assert (∀ p, waiter ρ = Some p → (p ∉ id :: q) ∧ p ≠ id) as Hw.
  { intros p (g & Hg & Hw)%(waiter_waits _ _ _ _ _ _ _ Hi Hρ). split; [| congruence].
    intros Hin. apply (inv_active _ _ _ _ Hi) in Hin as (g' & Hg' & Hr). simplify_eq.
    assert (runnable fs g = false); [| congruence]. unfold runnable. unfold waits_for in Hw.
    destruct (code_ g); simplify_eq; by rewrite (final_lookup _ _ f). }
  pose proof (inv_nodup _ _ _ _ Hi) as Hnd. apply NoDup_cons in Hnd as [Hnid Hnd].
  split.
  - intros j. rewrite lookup_insert_is_Some', (inv_dom _ _ _ _ Hi). split; [| by auto].
    intros [-> | ?]; [eauto | done].
  - apply (inv_root _ _ _ _ Hi).
  - intros j ρ' Hp. rewrite link_insert, (inv_link _ _ _ _ Hi) by done.
    destruct (decide (parent ρ' = Some id)) as [Hpi | Hpi]; [| naive_solver].
    assert (link fs j ρ' ↔ points f j ρ') as ->.
    { split; [intros (p & g & ? & ? & ?); simplify_eq; congruence | intros ?; by exists id, f]. }
    assert (points f' j ρ' ↔ points f j ρ') as ->; [| naive_solver].
    unfold points. unfold is_final in Hf'. unfold waits_for in Hnw.
    destruct ρ'; [done | by rewrite Ht | | | done]; destruct (code_ f') eqn:E1; try done;
      destruct (code_ f) eqn:E2; naive_solver.
  - apply (inv_order _ _ _ _ Hi).
  - intros j g ρ' Hg Hρ'. apply lookup_insert_Some in Hg as [[<- <-] | [? Hg]]; [by simplify_eq |].
    by eapply inv_state.
  - intros j g Hg. apply lookup_insert_Some in Hg as [[<- <-] | [? Hg]]; [done |]. by eapply inv_frame.
  - intros j. rewrite Hact, elem_of_app, option_list_elem_of.
    pose proof (inv_active _ _ _ _ Hi j) as Ha. unfold active in Ha. simpl in Ha. rewrite elem_of_cons in Ha.
    destruct (decide (j = id)) as [-> | Hne].
    + rewrite lookup_insert_eq. split.
      * intros [Hwi | ?]; [by destruct (Hw _ Hwi) | done].
      * intros (g & [= <-] & Hr). unfold runnable in Hr. unfold is_final in Hf'. by destruct (code_ f').
    + rewrite lookup_insert_ne by done. split.
      * intros [Hj | Hj].
        -- destruct (proj1 (waiter_waits _ _ _ _ _ _ _ Hi Hρ) Hj) as (g & Hg & _). exists g. split; [done |].
           apply (Hrun j g Hne Hg). by right.
        -- destruct (proj1 Ha) as (g & Hg & Hr); [by right |]. exists g. split; [done |]. apply (Hrun j g Hne Hg). by left.
      * intros (g & Hg & Hr). apply (Hrun j g Hne Hg) in Hr as [Hr | Hr]; [right | by left].
        destruct (proj2 Ha) as [? | ?]; [eauto | done | done].
  - rewrite Hact. destruct (waiter ρ) as [p|] eqn:Ew; simpl; [| done]. apply NoDup_cons.
    split; [| done]. destruct (Hw p eq_refl). set_solver.
Qed.

(** A detached coroutine returns: its frame is gone. *)
Lemma detached_keeps fs R q id f :
  inv fs R (Some id) q → fs !! id = Some f → waits_for f = None → Forall (λ h, h = None) (tasks_ f) →
  R !! id = Some Detached → inv (delete id fs) (delete id R) None q.
Proof.
  intros Hi Hid Hnw Ht Hρ.
  assert (∀ j ρ, ¬ (parent ρ = Some id ∧ points f j ρ)) as Hno.
  { intros j ρ [Hp Hpt]. rewrite Forall_lookup in Ht. unfold waits_for in Hnw.
    destruct ρ; try done; [by specialize (Ht _ _ Hpt) | | ]; destruct Hpt as [k Hk]; by rewrite Hk in Hnw. }
  assert (∀ j g, fs !! j = Some g → waits_for g ≠ Some id) as Hnwait.
  { intros j g Hg Hw. destruct (waits_link _ _ _ _ _ _ _ Hi Hg Hw) as (ρ & Hr & Hp & _). by simplify_eq. }
  pose proof (inv_nodup _ _ _ _ Hi) as Hnd. apply NoDup_cons in Hnd as [Hnid Hnd].
  split; [| | | | | | | done].
  - intros j. rewrite !lookup_delete_is_Some, (inv_dom _ _ _ _ Hi). done.
  - intros j. rewrite lookup_delete_Some, <- (inv_root _ _ _ _ Hi). split; [naive_solver |].
    intros Hj. split; [| done]. intros <-. congruence.
  - intros j ρ Hp. rewrite lookup_delete_Some, (inv_link _ _ _ _ Hi) by done. split.
    + intros [Hne (p & g & Hpp & Hg & Hpt)]. destruct (decide (p = id)) as [-> | Hpn].
      { simplify_eq. by destruct (Hno j ρ). }
      exists p, g. by rewrite lookup_delete_ne.
    + intros (p & g & Hpp & [Hpn Hg]%lookup_delete_Some & Hpt). split; [| by exists p, g]. intros <-.
      assert (R !! id = Some ρ) by (apply (inv_link _ _ _ _ Hi); [done | by exists p, g]). by simplify_eq.
  - intros j ρ p [_ Hj]%lookup_delete_Some. by eapply inv_order.
  - intros j g ρ [_ Hg]%lookup_delete_Some [_ Hr]%lookup_delete_Some. by eapply inv_state.
  - intros j g [_ Hg]%lookup_delete_Some. by eapply inv_frame.
  - intros j. pose proof (inv_active _ _ _ _ Hi j) as Ha. unfold active in *. simpl in *. rewrite elem_of_cons in Ha.
    assert (∀ g, fs !! j = Some g → runnable (delete id fs) g = runnable fs g) as Hrun.
    { intros g Hg. apply runnable_ext. intros c Hc. unfold final. rewrite lookup_delete_ne; [done |].
      intros <-. by apply (Hnwait j g). }
    split.
    + intros Hj. destruct (proj1 Ha) as (g & Hg & Hr); [by right |]. exists g.
      rewrite lookup_delete_ne by (intros ->; done). rewrite Hrun by done. done.
    + intros (g & [Hne Hg]%lookup_delete_Some & Hr). rewrite Hrun in Hr by done.
      destruct (proj2 Ha) as [? | ?]; [eauto | congruence | done].
Qed.

(** ** The transitions of [exec] *)

Definition with_code f (c : Code T V) : Frame T V := mkFrame (promise_ f) c (tasks_ f).

(** Where [final_suspend] transfers to, the state it leaves, the callbacks. *)
Definition fin_next (p : Promise T) : option (cohandle * State * list nat) :=
  match state_ p, union_ p with
  | Coro.Idle, CallerHandle h => Some (h, Coro.Idle, [])
  | RunningJoinable, _ => Some (NoopCoroutine, Zombie, [])
  | RunningJoining, Callback cb => Some (NoopCoroutine, Finished, [cb])
  | _, _ => None
  end.

Inductive trans (id : nat) : frameset → nat → list nat → cohandle → frameset → nat → list nat → Prop :=
  | t_return fs nx q f out h st cbs :
      fs !! id = Some f → code_ f = Running (CoReturn out) → Forall (λ h, h = None) (tasks_ f) →
      fin_next (promise_ f) = Some (h, st, cbs) →
      trans id fs nx q h
        (<[id := mkFrame (set_state st (finish_body out (promise_ f))) AtFinal (tasks_ f)]> fs) nx (q ++ cbs)
  | t_return_detached fs nx q f v :
      fs !! id = Some f → code_ f = Running (CoReturn (Returned v)) → Forall (λ h, h = None) (tasks_ f) →
      state_ (promise_ f) = RunningDetached →
      trans id fs nx q NoopCoroutine (delete id fs) nx q
  | t_await_coro fs nx q f child k :
      fs !! id = Some f → code_ f = Running (AwaitCoro child k) →
      trans id fs nx q (Handle nx)
        (<[id := with_code f (InCoro nx k)]>
           (<[nx := mkFrame (set_caller_handle (Handle id) promise_new) (Running child) []]> fs)) (S nx) q
  | t_take_coro fs nx q f c k g out :
      fs !! id = Some f → code_ f = InCoro c k → fs !! c = Some g →
      take_result (Some (promise_ g)) = Done out None →
      trans id fs nx q (Handle id) (<[id := with_code f (Running (k out))]> (delete c fs)) nx q
  | t_spawn fs nx q f rt child k :
      fs !! id = Some f → code_ f = Running (SpawnTask rt child k) →
      trans id fs nx q (Handle id)
        (<[id := mkFrame (promise_ f) (Running k) (tasks_ f ++ [Some nx])]>
           (<[nx := mkFrame (mark_running promise_new) (Running child) []]> fs)) (S nx) (q ++ [nx])
  | t_await_null fs nx q f i k :
      fs !! id = Some f → code_ f = Running (AwaitTask i k) → tasks_ f !! i = Some None →
      trans id fs nx q (Handle id) (<[id := with_code f (Running (k (Raised InvalidArgument)))]> fs) nx q
  | t_await_wait fs nx q f i k t g :
      fs !! id = Some f → code_ f = Running (AwaitTask i k) → tasks_ f !! i = Some (Some t) →
      fs !! t = Some g → state_ (promise_ g) = RunningJoinable →
      trans id fs nx q NoopCoroutine
        (<[id := mkFrame (promise_ f) (InTask t this k) (<[i := None]> (tasks_ f))]>
           (<[t := mkFrame (set_state RunningJoining (set_callback id (promise_ g))) (code_ g) (tasks_ g)]> fs)) nx q
  | t_await_ready fs nx q f i k t g :
      fs !! id = Some f → code_ f = Running (AwaitTask i k) → tasks_ f !! i = Some (Some t) →
      fs !! t = Some g → state_ (promise_ g) = Zombie →
      trans id fs nx q (Handle id)
        (<[id := mkFrame (promise_ f) (InTask t this k) (<[i := None]> (tasks_ f))]>
           (<[t := mkFrame (set_state Finished (promise_ g)) (code_ g) (tasks_ g)]> fs)) nx q
  | t_take_task fs nx q f t rt k g out :
      fs !! id = Some f → code_ f = InTask t rt k → fs !! t = Some g →
      take_result (Some (promise_ g)) = Done out None →
      trans id fs nx q (Handle id) (<[id := with_code f (Running (k out))]> (delete t fs)) nx q
  | t_detach fs nx q f i k t g :
      fs !! id = Some f → code_ f = Running (DetachTask i k) → tasks_ f !! i = Some (Some t) →
      fs !! t = Some g → state_ (promise_ g) = RunningJoinable →
      trans id fs nx q (Handle id)
        (<[id := mkFrame (promise_ f) (Running k) (<[i := None]> (tasks_ f))]>
           (<[t := mkFrame (set_state RunningDetached (promise_ g)) (code_ g) (tasks_ g)]> fs)) nx q
  | t_detach_finished fs nx q f i k t g :
      fs !! id = Some f → code_ f = Running (DetachTask i k) → tasks_ f !! i = Some (Some t) →
      fs !! t = Some g → state_ (promise_ g) = Zombie → exception_ (promise_ g) = None →
      trans id fs nx q (Handle id)
        (<[id := mkFrame (promise_ f) (Running k) (<[i := None]> (tasks_ f))]> (delete t fs)) nx q
  | t_switch fs nx q f rt k :
      fs !! id = Some f → code_ f = Running (SwitchTo rt k) →
      trans id fs nx q NoopCoroutine (<[id := with_code f (Running k)]> fs) nx (q ++ [id])
  | t_op_start fs nx q f s k t r :
      fs !! id = Some f → code_ f = Running (AwaitOp s k) →
      trans id fs nx q (match r with Some _ => Handle id | None => NoopCoroutine end)
        (<[id := with_code f (InOp (SenderAwaiter.mkSenderAwaiter (Handle id) r []) t k)]> fs) nx q
  | t_op_take fs nx q f a t k v :
      fs !! id = Some f → code_ f = InOp a t k → SenderAwaiter.result_ a = Some v →
      trans id fs nx q (Handle id) (<[id := with_code f (Running (k v))]> fs) nx q.

(** The coroutine that runs after a transfer. *)
Definition next_cur (h : cohandle) : option nat := match h with Handle id => Some id | _ => None end.

Lemma fresh_unlinked fs R cur q id f c ρ :
  inv fs R cur q → fs !! id = Some f → fs !! c = None → parent ρ = Some id → ¬ points f c ρ.
Proof.
  intros Hi Hid Hc Hp Hpt. assert (R !! c = Some ρ) as Hρ.
  { apply (inv_link _ _ _ _ Hi); [eauto | by exists id, f]. }
  destruct (proj2 (inv_dom _ _ _ _ Hi c)) as [? ?]; [eauto | congruence].
Qed.

(** An owner is unique. *)
Lemma points_role fs R cur q id f j ρ :
  inv fs R cur q → fs !! id = Some f → parent ρ = Some id → points f j ρ → R !! j = Some ρ.
Proof. intros Hi Hid Hp Hpt. apply (inv_link _ _ _ _ Hi); [eauto | by exists id, f]. Qed.

(** The running coroutine makes a new frame [c], which it owns in the way [ρc]. *)
Lemma make_keeps fs R q id f f' c g ρc cur' q' :
  inv fs R (Some id) q → fs !! id = Some f → fs !! c = None → (id < c)%nat →
  parent ρc = Some id →
  (∀ j ρ, parent ρ = Some id → points f' j ρ ↔ (j = c ∧ ρ = ρc) ∨ points f j ρ) →
  promise_ f' = promise_ f → is_final f = false → is_final f' = false → frame_ok f' →
  frame_ok g → state_ok ρc g → tasks_ g = [] → (∃ b, code_ g = Running b) →
  (id ∈ active cur' q' ↔ runnable (<[id := f']> (<[c := g]> fs)) f' = true) →
  active cur' q' ≡ₚ c :: q ∨ active cur' q' ≡ₚ c :: id :: q →
  inv (<[id := f']> (<[c := g]> fs)) (<[c := ρc]> R) cur' q'.
Proof.
  intros Hi Hid Hc Hlt Hpc Hpt Hpr Hff Hff' Hfr Hfg Hst Htg [b Hb] Hida Hact.
  assert (R !! c = None) as HRc.
  { apply eq_None_not_Some. rewrite <- (inv_dom _ _ _ _ Hi), Hc. by intros [? ?]. }
  pose proof (inv_nodup _ _ _ _ Hi) as Hnd. apply NoDup_cons in Hnd as [Hnid Hnd].
  assert (c ∉ q) as Hcq.
  { intros Hin. destruct (proj1 (inv_active _ _ _ _ Hi c)) as (g' & Hg' & _); [by right | congruence]. }
  apply (change_keeps fs R (Some id) q id f f' c (Some g) (Some ρc)); [done | done | | | | done |].
  - split; try done; try lia; try congruence.
    + intros ρ [= <-]. by right.
    + intros f0 j ρ Hf0 Hp. simplify_eq. rewrite Hpt by done. destruct (decide (j = c)) as [-> | Hne]; [| naive_solver].
      pose proof (fresh_unlinked _ _ _ _ _ _ _ ρ Hi Hid Hc Hp). naive_solver.
    + intros j ρ Hp. rewrite Hc. split; [| by intros (? & ? & ?)]. intros (g' & [= <-] & Hg).
      unfold points in Hg. rewrite Hb, Htg in Hg. destruct ρ; try done; by destruct Hg.
    + intros ρ Hρ. pose proof (inv_state _ _ _ _ Hi id f ρ Hid Hρ) as Hs. unfold state_ok in *.
      by rewrite Hpr, Hff, Hff' in *.
  - destruct Hact as [-> | ->]; repeat (apply NoDup_cons; split); try done; set_solver by lia.
  - intros j H1 H2. unfold active. simpl. destruct Hact as [-> | ->]; set_solver.
  - split; [| by intros _; destruct Hact as [-> | ->]; set_solver].
    intros _. exists g. split; [done |]. unfold runnable. by rewrite Hb.
Qed.

(** The running coroutine takes the finished frame [c] that it owns away. *)
Lemma take_keeps fs R q id f f' c g ρc :
  inv fs R (Some id) q → fs !! id = Some f → fs !! c = Some g → is_final g = true →
  parent ρc = Some id → points f c ρc →
  (∀ j ρ, parent ρ = Some id → points f' j ρ ↔ points f j ρ ∧ j ≠ c) →
  promise_ f' = promise_ f → is_final f = false → frame_ok f' → (∃ b, code_ f' = Running b) →
  inv (<[id := f']> (delete c fs)) (delete c R) (Some id) q.
Proof.
  intros Hi Hid Hc Hfg Hpc Hcp Hpt Hpr Hff Hfr [b Hb].
  pose proof (points_role _ _ _ _ _ _ _ _ Hi Hid Hpc Hcp) as Hρc.
  pose proof (inv_order _ _ _ _ Hi _ _ _ Hρc Hpc) as Hlt.
  assert (is_final f' = false) as Hff' by (unfold is_final; by rewrite Hb).
  pose proof (inv_frame _ _ _ _ Hi _ _ Hc) as Hgo. unfold frame_ok in Hgo. unfold is_final in Hfg.
  destruct (code_ g) eqn:Eg; try done. destruct Hgo as [Htn _].
  apply (change_keeps fs R (Some id) q id f f' c None None (Some id) q); [done | done | | by apply Hi | done | |].
  - split; try done; try lia; try congruence.
    + intros f0 j ρ Hf0 Hp. simplify_eq. rewrite Hpt by done. destruct (decide (j = c)); naive_solver.
    + intros j ρ Hp. split; [by intros (? & ? & ?) |]. intros (g' & Hg' & Hg). simplify_eq.
      unfold points in Hg. rewrite Eg in Hg. rewrite Forall_lookup in Htn.
      destruct ρ; try done; [by specialize (Htn _ _ Hg) | by destruct Hg | by destruct Hg].
    + intros ρ Hρ. pose proof (inv_state _ _ _ _ Hi id f ρ Hid Hρ) as Hs. unfold state_ok in *.
      by rewrite Hpr, Hff, Hff' in *.
  - split; [| by intros _; left]. intros _. unfold runnable. by rewrite Hb.
  - split; [| by intros (? & ? & ?)]. intros Hin. destruct (proj1 (inv_active _ _ _ _ Hi c) Hin) as (g' & ? & Hr).
    simplify_eq. unfold runnable in Hr. by rewrite Eg in Hr.
Qed.

(** The running coroutine changes how it owns [c], whose body is not touched. *)
Lemma own_keeps fs R q id f f' c g g' ρc ρc' cur' :
  inv fs R (Some id) q → fs !! id = Some f → fs !! c = Some g →
  parent ρc = Some id → points f c ρc → ρc' = Detached ∨ parent ρc' = Some id →
  (∀ j ρ, parent ρ = Some id → points f' j ρ ↔ if decide (j = c) then ρ = ρc' else points f j ρ) →
  promise_ f' = promise_ f → is_final f = false → is_final f' = false → frame_ok f' →
  code_ g' = code_ g → tasks_ g' = tasks_ g → frame_ok g' → state_ok ρc' g' →
  (id ∈ active cur' q ↔ runnable (<[id := f']> (<[c := g']> fs)) f' = true) →
  cur' = None ∨ cur' = Some id →
  inv (<[id := f']> (<[c := g']> fs)) (<[c := ρc']> R) cur' q.
Proof.
  intros Hi Hid Hc Hpc Hcp Hpc' Hpt Hpr Hff Hff' Hfr Ecg Etg Hfg Hst Hida Hcur.
  pose proof (points_role _ _ _ _ _ _ _ _ Hi Hid Hpc Hcp) as Hρc.
  pose proof (inv_order _ _ _ _ Hi _ _ _ Hρc Hpc) as Hlt.
  pose proof (inv_nodup _ _ _ _ Hi) as Hnd. apply NoDup_cons in Hnd as [Hnid Hnd].
  apply (change_keeps fs R (Some id) q id f f' c (Some g') (Some ρc') cur' q); [done | done | | | | done |].
  - split; try done; try lia; try congruence.
    + intros ρ [= <-]. naive_solver.
    + intros f0 j ρ Hf0 Hp. simplify_eq. rewrite Hpt by done. destruct (decide (j = c)); naive_solver.
    + intros j ρ Hp. rewrite Hc. assert (points g' j ρ ↔ points g j ρ) as Hgg.
      { unfold points. by rewrite Ecg, Etg. }
      split; intros (x & [= <-] & Hx); [exists g | exists g']; tauto.
    + intros ρ Hρ. pose proof (inv_state _ _ _ _ Hi id f ρ Hid Hρ) as Hs. unfold state_ok in *.
      by rewrite Hpr, Hff, Hff' in *.
  - destruct Hcur as [-> | ->]; [done | by apply Hi].
  - intros j H1 H2. unfold active. destruct Hcur as [-> | ->]; set_solver.
  - assert (c ∈ active cur' q ↔ c ∈ active (Some id) q) as ->.
    { unfold active. assert (c ≠ id) by lia. destruct Hcur as [-> | ->]; set_solver. }
    rewrite (inv_active _ _ _ _ Hi), Hc.
    assert (runnable (<[id := f']> (<[c := g']> fs)) g' = runnable fs g) as Hr.
    { transitivity (runnable fs g'); [| unfold runnable; by rewrite Ecg].
      apply runnable_ext. intros x Hx. unfold final. rewrite lookup_insert_ne.
      2: { intros <-. assert (waits_for g = Some id) as Hw by (unfold waits_for in *; by rewrite <- Ecg).
           destruct (waits_link _ _ _ _ _ _ _ Hi Hc Hw) as (ρ & Hρ & Hp & _).
           pose proof (inv_order _ _ _ _ Hi _ _ _ Hρ Hp). lia. }
      destruct (decide (x = c)) as [-> | ?]; [| by rewrite lookup_insert_ne].
      rewrite lookup_insert_eq, Hc. unfold is_final. by rewrite Ecg. }
    change (partial_alter (λ _, Some g') c fs) with (<[c := g']> fs).
    split; intros (x & [= <-] & Hx); [exists g' | exists g]; split; congruence.
Qed.

(** ** [inv] is an invariant *)

(** Frames are numbered in the order in which they are made. *)
Definition below fs (nx : nat) : Prop := ∀ j f, fs !! j = Some f → (j < nx)%nat.

Lemma below_fresh fs nx : below fs nx → fs !! nx = None.
Proof. intros Hb. destruct (fs !! nx) as [f|] eqn:E; [| done]. specialize (Hb _ _ E). lia. Qed.

Lemma below_insert fs nx j f : below fs nx → (j < nx)%nat → below (<[j := f]> fs) nx.
Proof. intros Hb Hj i g [[<- <-] | [? Hg]]%lookup_insert_Some; [done | by eapply Hb]. Qed.
Lemma below_delete fs nx j : below fs nx → below (delete j fs) nx.
Proof. intros Hb i g [? Hg]%lookup_delete_Some. by eapply Hb. Qed.
Lemma below_S fs nx : below fs nx → below fs (S nx).
Proof. intros Hb j f Hj. specialize (Hb j f Hj). lia. Qed.
Hint Resolve below_insert below_delete below_S : condy.

Lemma trans_below id fs nx q h fs' nx' q' : trans id fs nx q h fs' nx' q' → below fs nx → below fs' nx'.
Proof.
  intros Ht Hb. destruct Ht; eauto 7 with condy;
    assert (id < nx)%nat by (by eapply Hb); try assert (t < nx)%nat by (by eapply Hb); eauto 7 with condy lia.
Qed.

Section cases.
Context fs R q (id nx : nat) f (Hi : inv fs R (Some id) q) (Hid : fs !! id = Some f) (Hb : below fs nx).

Lemma cur_role : ∃ ρ, R !! id = Some ρ ∧ state_ok ρ f.
Proof.
  destruct (proj1 (inv_dom _ _ _ _ Hi id)) as [ρ Hρ]; [eauto |]. exists ρ. split; [done |]. by eapply inv_state.
Qed.

Lemma cur_runnable : runnable fs f = true.
Proof. destruct (proj1 (inv_active _ _ _ _ Hi id)) as (g & Hg & Hr); [by left | congruence]. Qed.

Lemma cur_not_queued : (id ∉ q) ∧ NoDup q.
Proof. pose proof (inv_nodup _ _ _ _ Hi) as Hnd. by apply NoDup_cons in Hnd. Qed.

Lemma cur_clean : is_final f = false ∧ clean (promise_ f).
Proof.
  pose proof cur_runnable as Hr. pose proof (inv_frame _ _ _ _ Hi _ _ Hid) as Hf.
  unfold runnable, is_final, frame_ok in *. destruct (code_ f); try done; by destruct Hf.
Qed.

Lemma held_final t i : tasks_ f !! i = Some (Some t) → ∃ g, fs !! t = Some g ∧
  R !! t = Some (Held id i) ∧ (id < t)%nat ∧ state_ (promise_ g) = (if is_final g then Zombie else RunningJoinable).
Proof.
  intros Ht. assert (points f t (Held id i)) as Hp by done.
  pose proof (points_role _ _ _ _ _ _ _ (Held id i) Hi Hid eq_refl Hp) as Hρ.
  destruct (proj2 (inv_dom _ _ _ _ Hi t)) as [g Hg]; [eauto |]. exists g. split_and!; [done | done | |].
  - by apply (inv_order _ _ _ _ Hi _ _ _ Hρ).
  - by apply (inv_state _ _ _ _ Hi _ _ _ Hg Hρ).
Qed.

(** The frame that the running coroutine waited for has finished. *)
Lemma taken_final c g : waits_for f = Some c → fs !! c = Some g → is_final g = true ∧ c ≠ id.
Proof.
  intros Hw Hg. pose proof cur_runnable as Hr. rewrite <- (final_lookup _ _ _ Hg).
  assert (final fs c = true) as Hf by (unfold runnable, waits_for in *; destruct (code_ f); by simplify_eq).
  split; [done |]. intros ->. rewrite (final_lookup _ _ _ Hid) in Hf.
  unfold waits_for, is_final in *. by destruct (code_ f).
Qed.

(** The points of the frame when its code is a running body. *)
Lemma points_running b p ts j ρ :
  points (mkFrame p (Running b) ts) j ρ ↔ match ρ with Held _ i => ts !! i = Some (Some j) | _ => False end.
Proof. destruct ρ; simpl; try done; naive_solver. Qed.

Lemma return_case out h st cbs :
  code_ f = Running (CoReturn out) → Forall (λ h, h = None) (tasks_ f) →
  fin_next (promise_ f) = Some (h, st, cbs) →
  inv (<[id := mkFrame (set_state st (finish_body out (promise_ f))) AtFinal (tasks_ f)]> fs) R
    (next_cur h) (q ++ cbs).
Proof.
  intros Ec Ht Hn. destruct cur_role as (ρ & Hρ & Hst), cur_clean as [Hnf Hcl].
  assert (union_ (finish_body out (promise_ f)) = union_ (promise_ f)) as Hu by (by destruct out).
  apply (return_keeps fs R q id f _ ρ); try done.
  - unfold waits_for. by rewrite Ec.
  - unfold state_ok, fin_next in *. rewrite Hnf in Hst. simpl.
    destruct ρ as [| ? ? | p | p |].
    + rewrite Hst in Hn. by destruct (union_ (promise_ f)); simplify_eq.
    + rewrite Hst in Hn. by destruct (union_ (promise_ f)); simplify_eq.
    + destruct Hst as [Hs Hu']. rewrite Hs, Hu' in *. by simplify_eq.
    + destruct Hst as [Hs Hu']. rewrite Hs, Hu' in *. by simplify_eq.
    + destruct Hst as [Hs _]. rewrite Hs in Hn. by destruct (union_ (promise_ f)).
  - split; [done |]. exists out, (set_state st (promise_ f)). split; [done | by destruct out].
  - unfold state_ok, fin_next in *. rewrite Hnf in Hst. destruct ρ as [| ? ? | p | p |].
    + rewrite Hst in Hn. destruct (union_ (promise_ f)); simplify_eq; by rewrite app_nil_r.
    + rewrite Hst in Hn. destruct (union_ (promise_ f)); simplify_eq; by rewrite app_nil_r.
    + destruct Hst as [Hs Hu']. rewrite Hs, Hu' in Hn. simplify_eq. by rewrite app_nil_r.
    + destruct Hst as [Hs Hu']. rewrite Hs, Hu' in Hn. simplify_eq. unfold active. simpl. solve_Permutation.
    + destruct Hst as [Hs _]. rewrite Hs in Hn. by destruct (union_ (promise_ f)).
Qed.

Lemma return_detached_case out :
  code_ f = Running (CoReturn out) → Forall (λ h, h = None) (tasks_ f) →
  state_ (promise_ f) = RunningDetached → inv (delete id fs) (delete id R) None q.
Proof.
  intros Ec Ht Hs. destruct cur_role as (ρ & Hρ & Hst), cur_clean as [Hnf _].
  apply (detached_keeps fs R q id f); try done; [unfold waits_for; by rewrite Ec |].
  unfold state_ok in Hst. rewrite Hnf, Hs in Hst. destruct ρ; naive_solver.
Qed.

Lemma await_coro_case child k :
  code_ f = Running (AwaitCoro child k) →
  inv (<[id := with_code f (InCoro nx k)]>
         (<[nx := mkFrame (set_caller_handle (Handle id) promise_new) (Running child) []]> fs))
      (<[nx := CoroOf id]> R) (Some nx) q.
Proof.
  intros Ec. destruct cur_clean as [Hnf Hcl], cur_not_queued as [Hnq _]. pose proof (Hb _ _ Hid) as Hlt.
  apply (make_keeps fs R q id f); try done; [by apply below_fresh | | by eexists | | by left].
  - intros j ρ Hp. unfold points, with_code. simpl. rewrite Ec. destruct ρ; simplify_eq/=; naive_solver.
  - unfold active, runnable, with_code. simpl.
    rewrite (final_lookup _ nx (mkFrame (set_caller_handle (Handle id) promise_new) (Running child) []))
      by (by rewrite lookup_insert_ne, lookup_insert_eq by lia).
    split; [| done]. rewrite elem_of_cons. intros [? | ?]; [lia | done].
Qed.

Lemma spawn_case rt child k :
  code_ f = Running (SpawnTask rt child k) →
  inv (<[id := mkFrame (promise_ f) (Running k) (tasks_ f ++ [Some nx])]>
         (<[nx := mkFrame (mark_running promise_new) (Running child) []]> fs))
      (<[nx := Held id (length (tasks_ f))]> R) (Some id) (q ++ [nx]).
Proof.
  intros Ec. destruct cur_clean as [Hnf Hcl]. pose proof (Hb _ _ Hid) as Hlt.
  apply (make_keeps fs R q id f); try done; [by apply below_fresh | | by eexists | | right].
  - intros j ρ Hp. rewrite points_running. unfold points. rewrite Ec.
    destruct ρ as [| p i | p | p |]; simplify_eq/=; [| naive_solver..].
    rewrite lookup_app_Some, list_lookup_singleton_Some. split.
    + intros [? | (Hl & Hi0 & [= <-])]; [by right |]. left. split; [done |]. f_equal. lia.
    + intros [[-> [= ->]] | ?]; [| by left]. right. split_and!; [lia | lia | done].
  - split; [done |]. by left.
  - unfold active. simpl. solve_Permutation.
Qed.

Lemma take_case c k ρc g out :
  (code_ f = InCoro c k ∧ ρc = CoroOf id) ∨ (code_ f = InTask c this k ∧ ρc = JoinedBy id) →
  fs !! c = Some g →
  inv (<[id := with_code f (Running (k out))]> (delete c fs)) (delete c R) (Some id) q.
Proof.
  intros Hc Hg. destruct cur_clean as [Hnf Hcl]. pose proof cur_runnable as Hr.
  assert (final fs c = true) as Hfc by (unfold runnable in Hr; by destruct Hc as [[Ec _] | [Ec _]]; rewrite Ec in Hr).
  rewrite (final_lookup _ _ _ Hg) in Hfc.
  assert (points f c ρc ∧ parent ρc = Some id) as [Hp Hpp] by (destruct Hc as [[Ec ->] | [Ec ->]]; simpl; eauto).
  apply (take_keeps fs R q id f _ c g ρc); try done; [| by eexists].
  intros j ρ Hpj. unfold with_code. rewrite points_running. split.
  - destruct ρ as [| p i | | |]; try done. intros Hj. split; [done |]. intros ->.
    simplify_eq/=. pose proof (points_role _ _ _ _ _ _ _ (Held id i) Hi Hid eq_refl Hj) as H1.
    pose proof (points_role _ _ _ _ _ _ _ _ Hi Hid Hpp Hp) as H2. simplify_eq. naive_solver.
  - intros [Hj Hne]. unfold points in Hj. destruct ρ; try done; destruct Hc as [[Ec _] | [Ec _]];
      rewrite Ec in Hj; destruct Hj as [? ?]; congruence.
Qed.

Lemma await_task_case i k t g st :
  code_ f = Running (AwaitTask i k) → tasks_ f !! i = Some (Some t) → fs !! t = Some g →
  (state_ (promise_ g) = RunningJoinable ∧ st = set_state RunningJoining (set_callback id (promise_ g))) ∨
  (state_ (promise_ g) = Zombie ∧ st = set_state Finished (promise_ g)) →
  inv (<[id := mkFrame (promise_ f) (InTask t this k) (<[i := None]> (tasks_ f))]>
         (<[t := mkFrame st (code_ g) (tasks_ g)]> fs)) (<[t := JoinedBy id]> R)
    (if is_final g then Some id else None) q.
Proof.
  intros Ec Ht Hg Hst. destruct cur_clean as [Hnf Hcl], cur_not_queued as [Hnq _].
  destruct (held_final t i Ht) as (g0 & Hg0 & Hρ & Hlt & Hsg). simplify_eq.
  pose proof (inv_frame _ _ _ _ Hi _ _ Hg) as Hfg.
  apply (own_keeps fs R q id f _ t g _ (Held id i)); try done; [by right | | | | | by destruct (is_final g); auto].
  - intros j ρ Hp. unfold points. simpl. rewrite Ec. destruct ρ as [| p i' | p | p |]; simplify_eq/=.
    + rewrite list_lookup_insert_Some. destruct (decide (j = t)) as [-> | Hne].
      * split; [| done]. intros [(? & ? & ?) | [Hne Hj]]; [done |].
        pose proof (points_role _ _ _ _ _ _ t (Held id i') Hi Hid eq_refl Hj). naive_solver.
      * split; [intros [(? & ? & ?) | [? ?]]; done |]. intros Hj. right. split; [| done]. intros <-. congruence.
    + destruct (decide (j = t)); naive_solver.
    + destruct (decide (j = t)) as [-> | Hne]; [split; eauto | naive_solver].
  - unfold frame_ok, is_final in *. simpl. destruct (code_ g); try done; destruct Hst as [[Hs ->] | [Hs ->]]; try done;
      destruct Hfg as (? & out & p & ? & Hp); split; try done; [congruence |].
    exists out, (set_state Finished p). rewrite Hp. split; [done | by destruct out].
  - unfold state_ok, is_final in *. simpl. rewrite Hsg in Hst.
    by destruct (code_ g); destruct Hst as [[Hs ->] | [Hs ->]].
  - unfold runnable. simpl.
    rewrite (final_lookup _ t (mkFrame st (code_ g) (tasks_ g))) by (by rewrite lookup_insert_ne, lookup_insert_eq by lia).
    change (is_final (mkFrame st (code_ g) (tasks_ g))) with (is_final g). unfold active.
    destruct (is_final g); simpl; [| naive_solver]. split; [done | by left].
Qed.

Lemma detach_case i k t g :
  code_ f = Running (DetachTask i k) → tasks_ f !! i = Some (Some t) → fs !! t = Some g →
  state_ (promise_ g) = RunningJoinable →
  inv (<[id := mkFrame (promise_ f) (Running k) (<[i := None]> (tasks_ f))]>
         (<[t := mkFrame (set_state RunningDetached (promise_ g)) (code_ g) (tasks_ g)]> fs))
    (<[t := Detached]> R) (Some id) q.
Proof.
  intros Ec Ht Hg Hst. destruct cur_clean as [Hnf Hcl].
  destruct (held_final t i Ht) as (g0 & Hg0 & Hρ & Hlt & Hsg). simplify_eq.
  assert (is_final g = false) as Hgf by (rewrite Hst in Hsg; by destruct (is_final g)).
  pose proof (inv_frame _ _ _ _ Hi _ _ Hg) as Hfg.
  apply (own_keeps fs R q id f _ t g _ (Held id i)); try done; [by left | | | by split; [| by left] | by right].
  - intros j ρ Hp. rewrite points_running. unfold points. rewrite Ec.
    destruct ρ as [| p i' | p | p |]; simplify_eq/=; [| destruct (decide (j = t)); naive_solver..].
    rewrite list_lookup_insert_Some. destruct (decide (j = t)) as [-> | Hne].
    + split; [| done]. intros [(? & ? & ?) | [Hne Hj]]; [done |].
      pose proof (points_role _ _ _ _ _ _ t (Held id i') Hi Hid eq_refl Hj). naive_solver.
    + split; [intros [(? & ? & ?) | [? ?]]; done |]. intros Hj. right. split; [| done]. intros <-. congruence.
  - unfold frame_ok, is_final in *. simpl. by destruct (code_ g).
Qed.

Lemma detach_finished_case i k t g :
  code_ f = Running (DetachTask i k) → tasks_ f !! i = Some (Some t) → fs !! t = Some g →
  state_ (promise_ g) = Zombie →
  inv (<[id := mkFrame (promise_ f) (Running k) (<[i := None]> (tasks_ f))]> (delete t fs)) (delete t R) (Some id) q.
Proof.
  intros Ec Ht Hg Hst. destruct cur_clean as [Hnf Hcl].
  destruct (held_final t i Ht) as (g0 & Hg0 & Hρ & Hlt & Hsg). simplify_eq.
  assert (is_final g = true) as Hgf by (rewrite Hst in Hsg; by destruct (is_final g)).
  apply (take_keeps fs R q id f _ t g (Held id i)); try done; [| by eexists].
  intros j ρ Hp. rewrite points_running. unfold points. rewrite Ec.
  destruct ρ as [| p i' | p | p |]; simplify_eq/=; [| naive_solver..].
  rewrite list_lookup_insert_Some. split.
  - intros [(? & ? & ?) | [Hne Hj]]; [done |]. split; [done |]. intros ->.
    pose proof (points_role _ _ _ _ _ _ t (Held id i') Hi Hid eq_refl Hj). naive_solver.
  - intros [Hj Hne]. right. split; [| done]. intros <-. congruence.
Qed.

(** The running coroutine goes on, gives way, or waits for an operation. *)
Lemma code_case c cur' q' :
  waits_for f = None → waits_for (with_code f c) = None → is_final (with_code f c) = false →
  active cur' q' ≡ₚ (if runnable fs (with_code f c) then [id] else []) ++ q →
  inv (<[id := with_code f c]> fs) R cur' q'.
Proof.
  intros Hw Hw' Hf Hact. destruct cur_clean as [Hnf Hcl], cur_not_queued as [Hnq Hnd], cur_role as (ρ0 & Hρ0 & Hs0).
  apply (change_one_keeps fs R (Some id) q id f); try done.
  - intros j ρ Hp. unfold points, waits_for, with_code in *. simpl in *.
    destruct ρ; simplify_eq/=; try done; destruct c, (code_ f); naive_solver.
  - intros ρ Hρ. pose proof (inv_state _ _ _ _ Hi id f ρ Hid Hρ) as Hs. unfold state_ok in *.
    by rewrite Hf; rewrite Hnf in Hs.
  - unfold frame_ok, with_code, waits_for, is_final in *. by destruct c.
  - congruence.
  - rewrite Hact. case_match; simpl; [by apply NoDup_cons | done].
  - intros j Hj. rewrite Hact. unfold active. case_match; set_solver.
  - rewrite (runnable_ext fs) by (rewrite Hw'; done). rewrite Hact. case_match; set_solver.
Qed.
End cases.

Lemma trans_inv id fs nx q h fs' nx' q' R :
  trans id fs nx q h fs' nx' q' → inv fs R (Some id) q → below fs nx →
  ∃ R', inv fs' R' (next_cur h) q' ∧ below fs' nx' ∧ h ≠ NullHandle.
Proof.
  intros Ht Hi Hb. pose proof (trans_below _ _ _ _ _ _ _ _ Ht Hb) as Hb'.
  destruct Ht as [fs nx q f out h st cbs Hid Ec Hn Hfn | fs nx q f v Hid Ec Hn Hs | fs nx q f child k Hid Ec
    | fs nx q f c k g out Hid Ec Hg _ | fs nx q f rt child k Hid Ec | fs nx q f i k Hid Ec _
    | fs nx q f i k t g Hid Ec Ht Hg Hs | fs nx q f i k t g Hid Ec Ht Hg Hs | fs nx q f t rt k g out Hid Ec Hg _
    | fs nx q f i k t g Hid Ec Ht Hg Hs | fs nx q f i k t g Hid Ec Ht Hg Hs _ | fs nx q f rt k Hid Ec
    | fs nx q f s k t r Hid Ec | fs nx q f a t k v Hid Ec Hv].
  - eexists. split; [by eapply return_case | split; [done |]].
    destruct (cur_role _ _ _ _ _ Hi Hid) as (ρ & _ & Hst). unfold fin_next, state_ok in *.
    destruct ρ, (state_ (promise_ f)), (union_ (promise_ f)), (is_final f); naive_solver.
  - eexists. split; [by eapply return_detached_case | done].
  - eexists. split; [by eapply await_coro_case | done].
  - eexists. split; [eapply take_case; eauto | done].
  - eexists. split; [by eapply spawn_case | done].
  - exists R. split; [| done]. eapply (code_case _ _ _ _ _ _ Hi Hid Hb); [unfold waits_for; by rewrite Ec | done | done | done].
  - destruct (held_final _ _ _ _ _ Hi Hid _ _ Ht) as (g0 & Hg0 & _ & _ & Hsg). simplify_eq.
    eexists. split; [| done]. pose proof (await_task_case _ _ _ _ _ Hi Hid i k t g _ Ec Ht Hg (or_introl (conj Hs eq_refl))) as Hr.
    rewrite Hs in Hsg. by destruct (is_final g).
  - destruct (held_final _ _ _ _ _ Hi Hid _ _ Ht) as (g0 & Hg0 & _ & _ & Hsg). simplify_eq.
    eexists. split; [| done]. pose proof (await_task_case _ _ _ _ _ Hi Hid i k t g _ Ec Ht Hg (or_intror (conj Hs eq_refl))) as Hr.
    rewrite Hs in Hsg. by destruct (is_final g).
  - pose proof (inv_frame _ _ _ _ Hi _ _ Hid) as Hf. unfold frame_ok in Hf. rewrite Ec in Hf. destruct Hf as [-> _].
    eexists. split; [eapply take_case; eauto | done].
  - eexists. split; [by eapply detach_case | done].
  - eexists. split; [by eapply detach_finished_case | done].
  - exists R. split; [| done]. eapply (code_case _ _ _ _ _ _ Hi Hid Hb); [unfold waits_for; by rewrite Ec | done | done |].
    unfold active. simpl. solve_Permutation.
  - exists R. split; [| by destruct r]. eapply (code_case _ _ _ _ _ _ Hi Hid Hb); [unfold waits_for; by rewrite Ec | done | done |].
    unfold runnable. simpl. by destruct r.
  - exists R. split; [| done]. eapply (code_case _ _ _ _ _ _ Hi Hid Hb); [unfold waits_for; by rewrite Ec | done | done | done].
Qed.

End invariant.
