(* ===== verification/SystemProps.v ===== *)
(** * Properties of coroutines on a runtime ([System.v]) *)

From stdpp Require Import base numbers list gmap.
From S2P Require Import Prelude Utils WorkType Ring Runtime OpStates OpStatesProps Coro Options System SystemInv.

(** ** The protocols on one thread *)

Section protocol.
Context {T : Type}.
Implicit Types p : Promise T.

Lemma final_await_spec out p :
  final_await_suspend out (Some p) =
  match fin_next p with
  | Some (h, st, cbs) => Done (h, cbs) (Some (set_state st p))
  | None =>
      match state_ p, exception_ p with
      | RunningDetached, None => Done (NoopCoroutine, []) None
      | Coro.Idle, _ | RunningJoining, _ => Crashed BadAccess
      | _, _ => Crashed Panic
      end
  end.
Proof. by destruct p as [[] [] [] ?]. Qed.

Lemma request_join_spec cb p :
  request_join cb (Some p) =
  match state_ p with
  | RunningJoinable => Done true (Some (set_state RunningJoining (set_callback cb p)))
  | Zombie => Done false (Some (set_state Finished p))
  | _ => Crashed Panic
  end.
Proof. by destruct p as [[] ? ? ?]. Qed.

Lemma request_detach_spec p :
  request_detach (Some p) =
  match state_ p with
  | RunningJoinable => Done tt (Some (set_state RunningDetached p))
  | Zombie => match exception_ p with Some _ => Crashed Panic | None => Done tt None end
  | _ => Crashed Panic
  end.
Proof. by destruct p as [[] ? [] ?]. Qed.
End protocol.

(** ** What [exec] does *)

Section exec.
Context {U T V : Type} `{UringLaws U}.
Context (this : RuntimeId) (sf : nat).
Implicit Types (s : Sys U T V) (f : Frame T V) (fs : gmap nat (Frame T V)) (r : Runtime U).

Lemma get_frame_run s id f : frames s !! id = Some f → get_frame id s = Done f s.
Proof. intros E. unfold get_frame. rewrite bind_get. by rewrite E. Qed.

Lemma set_code_run s id f c :
  frames s !! id = Some f →
  set_code id c s = Done tt (put_frames (<[id := with_code f c]> (frames s)) s).
Proof. intros E. unfold set_code. by erewrite bind_done by (by apply get_frame_run). Qed.

Lemma set_tasks_run s id f ts :
  frames s !! id = Some f →
  set_tasks id ts s = Done tt (put_frames (<[id := mkFrame (promise_ f) (code_ f) ts]> (frames s)) s).
Proof. intros E. unfold set_tasks. by erewrite bind_done by (by apply get_frame_run). Qed.

Lemma on_frame_run {A} s id f (m : ST (frame T) A) a :
  frames s !! id = Some f →
  (∀ p, m (Some (promise_ f)) = Done a (Some p) →
     on_frame id m s = Done a (put_frames (<[id := mkFrame p (code_ f) (tasks_ f)]> (frames s)) s)) ∧
  (m (Some (promise_ f)) = Done a None → on_frame id m s = Done a (put_frames (delete id (frames s)) s)) ∧
  (∀ c, m (Some (promise_ f)) = Crashed c → on_frame id m s = Crashed c).
Proof.
  intros E. unfold on_frame. rewrite (bind_done _ _ _ _ _ (get_frame_run _ _ _ E)).
  split_and!; intros; case_match; by simplify_eq.
Qed.
Lemma on_frame_keep {A} s id f (m : ST (frame T) A) a p :
  frames s !! id = Some f → m (Some (promise_ f)) = Done a (Some p) →
  on_frame id m s = Done a (put_frames (<[id := mkFrame p (code_ f) (tasks_ f)]> (frames s)) s).
Proof. intros E. by apply (on_frame_run s id f m a E). Qed.
Lemma on_frame_drop {A} s id f (m : ST (frame T) A) a :
  frames s !! id = Some f → m (Some (promise_ f)) = Done a None →
  on_frame id m s = Done a (put_frames (delete id (frames s)) s).
Proof. intros E. by apply (on_frame_run s id f m a E). Qed.
Lemma on_frame_crash {A} s id f (m : ST (frame T) A) c :
  frames s !! id = Some f → m (Some (promise_ f)) = Crashed c → on_frame id m s = Crashed c.
Proof. intros E Em. unfold on_frame. erewrite bind_done by (by apply get_frame_run). by rewrite Em. Qed.

(** The runtime [this] and its queue. *)
Definition on_rt s r (q : list nat) : Prop :=
  runtimes (world_of s) !! this = Some r ∧ local_queue_ r = promise_addr <$> q.

Lemma schedule_here s r q id :
  on_rt s r q →
  in_world (schedule_internal (Some this) this (promise_addr id) 0) s
  = Done tt (with_rt_in s this (set_local (promise_addr <$> (q ++ [id])) r)).
Proof.
  intros [Hr Hq]. erewrite in_world_done; [reflexivity |]. unfold schedule_internal.
  rewrite bool_decide_eq_true_2 by done. erewrite upd_rt_run by exact Hr. by rewrite Hq, fmap_app.
Qed.

Lemma pend_here s r :
  runtimes (world_of s) !! this = Some r →
  in_world (pend_work_internal (Some this) this) s
    = Done tt (with_rt_in s this (set_pending (u64 (pending_works_ r + 1)) r)) ∧
  in_world (resume_work_internal (Some this) this) s
    = Done tt (with_rt_in s this (set_pending (u64 (pending_works_ r - 1)) r)).
Proof.
  intros Hr. unfold pend_work_internal, resume_work_internal.
  split; (erewrite in_world_done; [reflexivity |]); rewrite bind_assert by (by apply bool_decide_eq_true_2);
    by erewrite upd_rt_run by exact Hr.
Qed.

(** The state after a step that changes frames, the queue and the counter. *)
Definition stepped s r fs' nx' (q' : list nat) (d : Z) : Sys U T V :=
  mkSys (mkOEnv (with_rt (world (senv s)) this
           (set_local (promise_addr <$> q') (if d =? 0 then r else set_pending (u64 (pending_works_ r + d)) r)))
           (calls (senv s))) fs' nx' (orphans s).

Lemma stepped_same s r q fs' nx' :
  on_rt s r q → mkSys (senv s) fs' nx' (orphans s) = stepped s r fs' nx' q 0.
Proof.
  intros [Hr Hq]. unfold stepped. f_equal. rewrite <- Hq. simpl.
  assert (set_local (local_queue_ r) r = r) as -> by (by destruct r). unfold with_rt.
  rewrite insert_id by done. by destruct (senv s) as [[] ?].
Qed.

(** The callback of [will_spawn]: the new coroutine joins the queue, and nobody owns
    it; without a runtime the program ends. *)
Theorem will_spawn_detaches s r q func res :
  on_rt s r q →
  spawn_helper (Some this) func res s
  = Done tt (stepped s r
      (<[next_frame s := mkFrame (set_state RunningDetached promise_new) (Running (func res)) []]> (frames s))
      (S (next_frame s)) (q ++ [next_frame s]) 0) ∧
  spawn_helper None func res s = Crashed Panic.
Proof.
  intros Hq. split; [| reflexivity]. unfold spawn_helper.
  erewrite bind_done by (unfold call_coro; rewrite bind_get; reflexivity). unfold co_spawn_here, co_spawn.
  set (s1 := mkSys _ _ _ _). set (id := next_frame s).
  erewrite bind_done.
  2: { erewrite bind_done by (eapply on_frame_keep; [apply lookup_insert_eq | reflexivity]).
       erewrite bind_done by (by apply (schedule_here _ r q)). reflexivity. }
  erewrite on_frame_keep; [| apply lookup_insert_eq | by rewrite request_detach_spec].
  unfold stepped, put_frames. simpl. by rewrite !insert_insert_eq.
Qed.

(** The ways in which a body can misuse its tasks: it returns while a [Task] still
    has a handle, uses a variable that it does not have, detaches a task without
    a coroutine, or the exception of a detached task is lost. *)
Definition misuse fs f : Prop :=
  match code_ f with
  | Running (CoReturn out) =>
      ¬ Forall (λ h, h = None) (tasks_ f) ∨ (state_ (promise_ f) = RunningDetached ∧ ∃ e, out = Raised e)
  | Running (AwaitTask i _) => tasks_ f !! i = None
  | Running (DetachTask i _) =>
      (∀ t, tasks_ f !! i ≠ Some (Some t)) ∨
      ∃ t g e, tasks_ f !! i = Some (Some t) ∧ fs !! t = Some g ∧ state_ (promise_ g) = Zombie ∧
        exception_ (promise_ g) = Some e
  | _ => False
  end.

(** The body stays on its runtime, and it does not start or await an operation. *)
Definition plain_head f : Prop :=
  match code_ f with
  | Running (SpawnTask rt _ _) => rt = None ∨ rt = Some this
  | Running (SwitchTo rt _) => rt = this
  | Running (AwaitOp _ _) | InOp _ _ _ => False
  | _ => True
  end.

(** The change of the pending-work counter. *)
Definition pend_delta f (h : cohandle) : Z :=
  match code_ f with
  | Running (AwaitTask i _) => match tasks_ f !! i with Some (Some _) => 1 | _ => 0 end
  | InTask _ _ _ => - 1
  | _ => 0
  end.

Definition exec_ok s r id f (q : list nat) : Prop :=
  (∃ h fs' nx' q', exec sf this id s = Done h (stepped s r fs' nx' q' (pend_delta f h)) ∧
     trans this id (frames s) (next_frame s) q h fs' nx' q') ∨
  (∃ c, exec sf this id s = Crashed c ∧ misuse (frames s) f).

Context (root : nat) (R : gmap nat Role).

Lemma fin_next_finish out (p : Promise T) : fin_next (finish_body out p) = fin_next p.
Proof. by destruct out. Qed.

Lemma on_rt_frames s r q fs : on_rt s r q → on_rt (put_frames fs s) r q.
Proof. done. Qed.

(** The end of a body, up to [final_suspend]. *)
Lemma exec_return_prefix s id f out :
  frames s !! id = Some f → code_ f = Running (CoReturn out) → Forall (λ h, h = None) (tasks_ f) →
  exec sf this id s
  = final_suspend this id out (put_frames (<[id := mkFrame (finish_body out (promise_ f)) AtFinal (tasks_ f)]> (frames s)) s).
Proof.
  intros Hid Ec Ht. unfold exec, leave_body. rewrite (bind_done _ _ _ _ _ (get_frame_run _ _ _ Hid)), Ec.
  rewrite bool_decide_eq_true_2 by done.
  erewrite bind_done by (eapply on_frame_keep; [exact Hid | reflexivity]).
  erewrite bind_done by (apply set_code_run, lookup_insert_eq).
  change (frames (put_frames ?a ?b)) with a. rewrite insert_insert_eq. done.
Qed.

Lemma exec_return s r id f q out :
  inv this root (frames s) R (Some id) q → on_rt s r q → frames s !! id = Some f →
  code_ f = Running (CoReturn out) → exec_ok s r id f q.
Proof.
  intros Hi Hrt Hid Ec. unfold exec_ok, pend_delta. rewrite Ec.
  destruct (decide (Forall (λ h, h = None) (tasks_ f))) as [Ht | Ht].
  2: { right. eexists. split; [| unfold misuse; rewrite Ec; by left]. unfold exec, leave_body.
       rewrite (bind_done _ _ _ _ _ (get_frame_run _ _ _ Hid)), Ec. by rewrite bool_decide_eq_false_2. }
  rewrite (exec_return_prefix s id f out Hid Ec Ht). unfold final_suspend.
  set (f1 := mkFrame (finish_body out (promise_ f)) AtFinal (tasks_ f) : Frame T V).
  set (s1 := put_frames (<[id := f1]> (frames s)) s).
  assert (frames s1 !! id = Some f1) as Hid1 by apply lookup_insert_eq.
  destruct (cur_role _ _ _ _ _ _ _ Hi Hid) as (ρ & Hρ & Hst), (cur_clean _ _ _ _ _ _ _ Hi Hid) as [Hnf Hcl].
  assert ((∃ h st cbs, fin_next (promise_ f) = Some (h, st, cbs) ∧ (cbs = [] ∨ ∃ p, cbs = [p] ∧ ρ = JoinedBy p)) ∨
          (fin_next (promise_ f) = None ∧ state_ (promise_ f) = RunningDetached)) as Hn.
  { unfold state_ok, fin_next in *. rewrite Hnf in Hst. destruct ρ as [| ? ? | p | p |].
    - left. rewrite Hst. destruct (union_ (promise_ f)); eauto 8.
    - left. rewrite Hst. destruct (union_ (promise_ f)); eauto 8.
    - left. destruct Hst as [-> ->]. eauto 8.
    - left. destruct Hst as [-> ->]. eauto 10.
    - right. destruct Hst as [-> _]. by destruct (union_ (promise_ f)). }
  destruct Hn as [(h & st & cbs & Hn & Hcbs) | [Hn Hd]].
  - left. set (f2 := mkFrame (set_state st (finish_body out (promise_ f))) AtFinal (tasks_ f) : Frame T V).
    erewrite bind_done.
    2: { eapply on_frame_keep; [exact Hid1 |]. rewrite final_await_spec. simpl. by rewrite fin_next_finish, Hn. }
    change (frames s1) with (<[id := f1]> (frames s)). rewrite insert_insert_eq. cbv beta iota.
    change (put_frames ?a s1) with (put_frames a s).
    change (mkFrame _ (code_ f1) (tasks_ f1)) with f2.
    assert (∃ q', call_all this cbs (put_frames (<[id := f2]> (frames s)) s)
                  = Done tt (stepped s r (<[id := f2]> (frames s)) (next_frame s) q' 0) ∧ q' = q ++ cbs) as (q' & Eq & ->).
    { destruct Hcbs as [-> | (p & -> & ->)]; (eexists; split; [| reflexivity]).
      - rewrite app_nil_r. by rewrite <- (stepped_same s r q).
      - destruct (proj1 (waiter_waits _ _ _ _ _ _ _ _ p Hi Hρ) eq_refl) as (g & Hg & Hw).
        assert (link this (frames s) id (JoinedBy p)) as (p' & g' & [= <-] & Hg' & k & Hk)
          by (apply (inv_link _ _ _ _ _ _ Hi); eauto). simplify_eq.
        assert (p ≠ id) as Hne by (intros ->; simplify_eq; by rewrite Ec in Hk).
        simpl. unfold task_awaiter_invoke. erewrite bind_done; [done |].
        erewrite bind_done by (apply get_frame_run; simpl; by rewrite lookup_insert_ne). rewrite Hk.
        by erewrite schedule_here by (by apply on_rt_frames). }
    eexists h, _, _, _. split; [by erewrite bind_done by exact Eq |]. by eapply t_return.
  - destruct out as [v | e].
    + left. exists NoopCoroutine, (delete id (frames s)), (next_frame s), q. split.
      * erewrite bind_done.
        2: { eapply on_frame_drop; [exact Hid1 |]. rewrite final_await_spec. cbn [promise_ f1].
             rewrite fin_next_finish, Hn. simpl. rewrite Hd. by destruct Hcl as [-> _]. }
        change (frames s1) with (<[id := f1]> (frames s)). rewrite delete_insert_eq.
        by rewrite <- (stepped_same s r q) by done.
      * by eapply t_return_detached.
    + right. exists Panic. split; [| unfold misuse; rewrite Ec; right; eauto].
      assert (on_frame id (final_await_suspend (Raised e)) s1 = Crashed Panic) as Ep.
      { eapply on_frame_crash; [exact Hid1 |]. rewrite final_await_spec. cbn [promise_ f1].
        rewrite fin_next_finish, Hn. simpl. by rewrite Hd. }
      unfold mbind, st_bind. by rewrite Ep.
Qed.

(** Unfold [exec] at the code of the running frame. *)
Ltac exec_start Hid Ec :=
  unfold exec_ok, exec, pend_delta; rewrite (bind_done _ _ _ _ _ (get_frame_run _ _ _ Hid)), Ec;
  unfold coro_await_suspend, coro_await_resume, spawn_task, task_await_suspend, task_await_resume, detach_task,
    switch_await_suspend.

Section cases.
Context s r (id : nat) f (q : list nat).
Context (Hi : inv this root (frames s) R (Some id) q) (Hrt : on_rt s r q) (Hid : frames s !! id = Some f).
Context (Hb : below (frames s) (next_frame s)).

Lemma exec_await_coro child k : code_ f = Running (AwaitCoro child k) → exec_ok s r id f q.
Proof.
  intros Ec. pose proof (Hb _ _ Hid) as Hlt. left. exec_start Hid Ec.
  eexists (Handle (next_frame s)), _, _, q. split; [| by eapply t_await_coro].
  erewrite bind_done by (unfold call_coro; rewrite bind_get; reflexivity).
  erewrite bind_done by (eapply on_frame_keep; [apply lookup_insert_eq | reflexivity]).
  erewrite bind_done by (apply set_code_run; simpl; rewrite insert_insert_eq, lookup_insert_ne by lia; exact Hid).
  rewrite <- (stepped_same s r q) by done. simpl. by rewrite insert_insert_eq.
Qed.

Lemma exec_spawn rt child k :
  code_ f = Running (SpawnTask rt child k) → rt = None ∨ rt = Some this → exec_ok s r id f q.
Proof.
  intros Ec Hl. pose proof (Hb _ _ Hid) as Hlt. left. exec_start Hid Ec.
  eexists (Handle id), _, _, (q ++ [next_frame s]). split; [| by eapply t_spawn].
  erewrite bind_done by (unfold call_coro; rewrite bind_get; reflexivity).
  set (s1 := mkSys (senv s) (<[next_frame s := mkFrame promise_new (Running child) []]> (frames s))
               (S (next_frame s)) (orphans s)).
  set (g := mkFrame (mark_running promise_new) (Running child) [] : Frame T V).
  assert (co_spawn (Some this) this (next_frame s) 0 s1
    = Done (next_frame s) (put_frames (<[next_frame s := g]> (frames s))
        (with_rt_in s1 this (set_local (promise_addr <$> (q ++ [next_frame s])) r)))) as Es.
  { unfold co_spawn. erewrite bind_done by (eapply on_frame_keep; [apply lookup_insert_eq | reflexivity]).
    erewrite bind_done by (by apply schedule_here). simpl. by rewrite insert_insert_eq. }
  erewrite bind_done.
  2: { destruct Hl as [-> | ->]; exact Es. }
  erewrite bind_done by (apply set_tasks_run; simpl; rewrite lookup_insert_ne by lia; exact Hid).
  erewrite bind_done by (apply set_code_run, lookup_insert_eq).
  simpl. by rewrite insert_insert_eq.
Qed.

Lemma exec_switch rt k : code_ f = Running (SwitchTo rt k) → rt = this → exec_ok s r id f q.
Proof.
  intros Ec ->. left. exec_start Hid Ec.
  eexists NoopCoroutine, _, _, (q ++ [id]). split; [| by eapply t_switch].
  erewrite bind_done by (by apply set_code_run). by erewrite bind_done by (by apply schedule_here).
Qed.

(** The result of a finished frame. *)
Lemma take_finished c : waits_for f = Some c → ∃ g out,
  frames s !! c = Some g ∧ take_result (Some (promise_ g)) = Done out None ∧ c ≠ id.
Proof.
  intros Hw. destruct (waits_link _ _ _ _ _ _ _ _ _ Hi Hid Hw) as (ρ & Hρ & _).
  destruct (proj2 (inv_dom _ _ _ _ _ _ Hi c)) as [g Hg]; [eauto |].
  destruct (taken_final _ _ _ _ _ _ _ Hi Hid c g Hw Hg) as [Hf Hne].
  pose proof (inv_frame _ _ _ _ _ _ Hi _ _ Hg) as Hfo. unfold frame_ok, is_final in *.
  destruct (code_ g); try done. destruct Hfo as (_ & out & p & [H1 H2] & Hp).
  exists g, out. split_and!; [done | rewrite Hp; by apply take_result_spec | done].
Qed.

Lemma exec_take_coro c k : code_ f = InCoro c k → exec_ok s r id f q.
Proof.
  intros Ec. destruct (take_finished c) as (g & out & Hg & Et & Hne); [unfold waits_for; by rewrite Ec |].
  left. exec_start Hid Ec. eexists (Handle id), _, _, q. split; [| by eapply t_take_coro].
  erewrite bind_done by (eapply on_frame_drop; [exact Hg | exact Et]).
  erewrite bind_done by (apply set_code_run; simpl; by rewrite lookup_delete_ne).
  by rewrite <- (stepped_same s r q).
Qed.

Lemma exec_take_task t rt k : code_ f = InTask t rt k → exec_ok s r id f q.
Proof.
  intros Ec. destruct (take_finished t) as (g & out & Hg & Et & Hne); [unfold waits_for; by rewrite Ec |].
  left. exec_start Hid Ec. eexists (Handle id), _, _, q. split; [| by eapply t_take_task].
  destruct Hrt as [Hr Hq]. erewrite bind_done by (by apply pend_here).
  erewrite bind_done by (eapply on_frame_drop; [exact Hg | exact Et]).
  erewrite bind_done by (apply set_code_run; simpl; by rewrite lookup_delete_ne).
  unfold stepped. rewrite <- Hq. by destruct r.
Qed.

Lemma exec_await_task i k : code_ f = Running (AwaitTask i k) → exec_ok s r id f q.
Proof.
  intros Ec. destruct (tasks_ f !! i) as [[t|]|] eqn:Ei.
  - destruct (held_final _ _ _ _ _ _ _ Hi Hid _ _ Ei) as (g & Hg & _ & Hlt & Hsg).
    set (f1 := mkFrame (promise_ f) (InTask t this k) (<[i := None]> (tasks_ f)) : Frame T V).
    assert (∃ st (sus : bool), request_join id (Some (promise_ g)) = Done sus (Some st) ∧
      trans this id (frames s) (next_frame s) q (if sus then NoopCoroutine else Handle id)
        (<[id := f1]> (<[t := mkFrame st (code_ g) (tasks_ g)]> (frames s))) (next_frame s) q) as (st & sus & Ej & Htr).
    { rewrite request_join_spec. rewrite Hsg. destruct (is_final g).
      - eexists _, false. split; [done |]. by eapply t_await_ready.
      - eexists _, true. split; [done |]. by eapply t_await_wait. }
    left. exec_start Hid Ec. rewrite Ei. eexists _, _, _, q. split; [| exact Htr].
    destruct Hrt as [Hr Hq].
    erewrite bind_done.
    2: { unfold release_task. erewrite bind_done by (by apply get_frame_run). rewrite Ei.
         erewrite bind_done by (by apply set_tasks_run). reflexivity. }
    cbv beta iota. erewrite bind_done by (apply pend_here; exact Hr).
    erewrite bind_done by (apply set_code_run, lookup_insert_eq).
    erewrite bind_done.
    2: { eapply on_frame_keep; [| exact Ej]. simpl. rewrite insert_insert_eq, lookup_insert_ne by lia. exact Hg. }
    unfold stepped. simpl. rewrite insert_insert_eq, insert_insert_ne by lia. rewrite <- Hq. by destruct r.
  - left. exec_start Hid Ec. rewrite Ei. eexists (Handle id), _, _, q. split; [| by eapply t_await_null].
    erewrite bind_done.
    2: { unfold release_task. erewrite bind_done by (by apply get_frame_run). rewrite Ei.
         erewrite bind_done by (by apply set_tasks_run). reflexivity. }
    cbv beta iota. erewrite bind_done by (apply set_code_run, lookup_insert_eq). simpl.
    rewrite insert_insert_eq, list_insert_id by done. by rewrite <- (stepped_same s r q).
  - right. exec_start Hid Ec. exists BadAccess. split; [| unfold misuse; by rewrite Ec].
    unfold release_task, mbind, st_bind. rewrite (get_frame_run _ _ _ Hid). by rewrite Ei.
Qed.

Lemma exec_detach i k : code_ f = Running (DetachTask i k) → exec_ok s r id f q.
Proof.
  intros Ec. destruct (tasks_ f !! i) as [[t|]|] eqn:Ei.
  2, 3: right; exec_start Hid Ec; rewrite Ei; exists BadAccess; (split; [done |]);
    unfold misuse; rewrite Ec; left; congruence.
  destruct (held_final _ _ _ _ _ _ _ Hi Hid _ _ Ei) as (g & Hg & _ & Hlt & Hsg).
  destruct (is_final g) eqn:Ef.
  - destruct (exception_ (promise_ g)) as [e|] eqn:Ee.
    + right. exec_start Hid Ec. rewrite Ei. exists Panic. split; [| unfold misuse; rewrite Ec; right; by exists t, g, e].
      unfold mbind, st_bind. erewrite on_frame_crash; [done | exact Hg |]. by rewrite request_detach_spec, Hsg, Ee.
    + left. exec_start Hid Ec. rewrite Ei. eexists (Handle id), _, _, q. split; [| by eapply t_detach_finished].
      erewrite bind_done.
      2: { eapply on_frame_drop; [exact Hg |]. by rewrite request_detach_spec, Hsg, Ee. }
      erewrite bind_done by (apply set_tasks_run; simpl; rewrite lookup_delete_ne by lia; exact Hid).
      erewrite bind_done by (apply set_code_run, lookup_insert_eq). simpl. rewrite insert_insert_eq.
      by rewrite <- (stepped_same s r q).
  - left. exec_start Hid Ec. rewrite Ei. eexists (Handle id), _, _, q. split; [| by eapply t_detach].
    erewrite bind_done.
    2: { eapply on_frame_keep; [exact Hg |]. by rewrite request_detach_spec, Hsg. }
    erewrite bind_done by (apply set_tasks_run; simpl; rewrite lookup_insert_ne by lia; exact Hid).
    erewrite bind_done by (apply set_code_run, lookup_insert_eq). simpl. rewrite insert_insert_eq.
    by rewrite <- (stepped_same s r q).
Qed.

(** A step of a coroutine that awaits no operation: it is a transition, or the body
    misuses its tasks; nothing else can go wrong. *)
Lemma exec_plain : plain_head f → exec_ok s r id f q.
Proof.
  intros Hp. unfold plain_head in Hp.
  destruct (code_ f) as [[out | child k | rt child k | i k | i k | rt k | sd k] | c k | t rt k | a t k |] eqn:Ec;
    eauto using exec_return, exec_await_coro, exec_spawn, exec_await_task, exec_detach, exec_switch,
      exec_take_coro, exec_take_task; try done.
  pose proof (cur_runnable _ _ _ _ _ _ _ Hi Hid) as Hr. unfold runnable in Hr. by rewrite Ec in Hr.
Qed.
End cases.
End exec.

(** ** Sums over the frames *)

Section sums.
Context {A : Type}.
Implicit Types (g : A → nat) (m : gmap nat A).

Definition map_sum g m : nat := map_fold (λ _ x acc, (g x + acc)%nat) 0%nat m.

Lemma map_sum_insert g m i x : m !! i = None → map_sum g (<[i := x]> m) = (g x + map_sum g m)%nat.
Proof.
  intros Hi. unfold map_sum.
  rewrite (map_fold_insert_L (λ _ x acc, (g x + acc)%nat)); [done | intros; lia | done].
Qed.

Lemma map_sum_delete g m i x : m !! i = Some x → map_sum g m = (g x + map_sum g (delete i m))%nat.
Proof. intros Hi. rewrite <- (insert_delete_id m i x Hi) at 1. by rewrite map_sum_insert by apply lookup_delete_eq. Qed.

Lemma map_sum_update g m i x y : m !! i = Some x → (map_sum g (<[i := y]> m) + g x = map_sum g m + g y)%nat.
Proof.
  intros Hi. rewrite (map_sum_delete g m i x Hi), (map_sum_delete g (<[i := y]> m) i y) by apply lookup_insert_eq.
  rewrite delete_insert_eq. lia.
Qed.

Lemma map_sum_ext g g' m : (∀ i x, m !! i = Some x → g x = g' x) → map_sum g m = map_sum g' m.
Proof.
  induction m as [| i x m Hi IH] using map_ind; intros E; [done |]. rewrite !map_sum_insert by done.
  rewrite (E i x) by apply lookup_insert_eq. f_equal. apply IH. intros j y Hj. apply (E j).
  by rewrite lookup_insert_ne by (intros ->; congruence).
Qed.

Lemma map_sum_zero g m : (∀ i x, m !! i = Some x → g x = 0%nat) → map_sum g m = 0%nat.
Proof.
  intros E. rewrite (map_sum_ext g (λ _, 0%nat)) by done. induction m as [| i x m Hi IH] using map_ind; [done |].
  rewrite map_sum_insert by done. apply IH. intros j y Hj. apply (E j). by rewrite lookup_insert_ne by (intros ->; congruence).
Qed.

Lemma map_sum_pos g m : map_sum g m ≠ 0%nat → ∃ i x, m !! i = Some x ∧ g x ≠ 0%nat.
Proof.
  induction m as [| i x m Hi IH] using map_ind; [done |]. rewrite map_sum_insert by done. intros Hne.
  destruct (decide (g x = 0%nat)) as [Hz | Hx]; [| exists i, x; by rewrite lookup_insert_eq].
  destruct IH as (j & y & Hj & Hy); [lia |]. exists j, y. by rewrite lookup_insert_ne by (intros ->; congruence).
Qed.
End sums.

(** ** Programs without operations *)

Section eval.
Context {T V : Type} (this : RuntimeId).
Implicit Types (b : Body T V) (f : Frame T V) (fs : gmap nat (Frame T V)) (σ : nat → outcome T).

(** What a coroutine computes, and in how many steps: a coroutine is a function, a
    task is its value.  [env] holds the values of the [Task] variables, [None] for
    a null handle.  The result is [None] when the body misuses its tasks, leaves
    the runtime or awaits an operation. *)
Fixpoint eval (env : list (option (outcome T))) b : option (outcome T * nat) :=
  match b with
  | CoReturn out => if bool_decide (Forall (λ h, h = None) env) then Some (out, 1%nat) else None
  | AwaitCoro child k =>
      '(r, n) ← eval [] child;
      '(out, m) ← eval env (k r);
      Some (out, n + m + 2)%nat
  | SpawnTask rt child k =>
      if bool_decide (rt = None ∨ rt = Some this) then
        '(r, n) ← eval [] child;
        '(out, m) ← eval (env ++ [Some r]) k;
        Some (out, n + m + 1)%nat
      else None
  | AwaitTask i k =>
      match env !! i with
      | Some (Some r) => '(out, m) ← eval (<[i := None]> env) (k r); Some (out, m + 2)%nat
      | Some None => '(out, m) ← eval env (k (Raised InvalidArgument)); Some (out, m + 1)%nat
      | None => None
      end
  | DetachTask i k =>
      match env !! i with
      | Some (Some (Returned _)) => '(out, m) ← eval (<[i := None]> env) k; Some (out, m + 1)%nat
      | _ => None
      end
  | SwitchTo rt k =>
      if bool_decide (rt = this) then '(out, m) ← eval env k; Some (out, m + 1)%nat else None
  | AwaitOp _ _ => None
  end.

(** The same for a frame, when the frames it owns will return [σ]. *)
Definition env_of σ f : list (option (outcome T)) := (λ h : option nat, σ <$> h) <$> tasks_ f.
Definition predict σ f : option (outcome T * nat) :=
  match code_ f with
  | Running b => eval (env_of σ f) b
  | InCoro c k | InTask c _ k => '(out, m) ← eval (env_of σ f) (k (σ c)); Some (out, m + 1)%nat
  | InOp _ _ _ | AtFinal => None
  end.
Definition cost σ f : nat := default 0%nat (snd <$> predict σ f).

Definition predicted σ fs : Prop := ∀ id f, fs !! id = Some f →
  (if is_final f then take_result (Some (promise_ f)) = Done (σ id) None
   else ∃ n, predict σ f = Some (σ id, n)) ∧
  (state_ (promise_ f) = RunningDetached → ∃ v, σ id = Returned v).

(** What a frame adds to the counter of pending works: one while it waits for a task,
    and [w] of the operation it awaits. *)
Definition load (w : opstate V → nat) f : nat :=
  match code_ f with InTask _ _ _ => 1%nat | InOp _ t _ => w t | _ => 0%nat end.
Definition waiting : Frame T V → nat := load (λ _, 0%nat).

(** *** One transition *)

(** The frames that [f] refers to. *)
Definition refers f (j : nat) : Prop := (∃ i, tasks_ f !! i = Some (Some j)) ∨ waits_for f = Some j.

Lemma predict_ext σ σ' f : (∀ j, refers f j → σ' j = σ j) → predict σ' f = predict σ f.
Proof.
  intros E. assert (env_of σ' f = env_of σ f) as Ee.
  { unfold env_of. apply list_fmap_ext. intros i [j|] Hi; simpl; [| done]. f_equal. apply E. left. eauto. }
  unfold predict. rewrite Ee. destruct (code_ f) as [| c k | c rt k | |] eqn:Ec; try done;
    (rewrite (E c); [done |]); right; unfold waits_for; by rewrite Ec.
Qed.

Lemma refers_below root fs R cur q nx id f j :
  inv this root fs R cur q → below fs nx → fs !! id = Some f → refers f j → (j < nx)%nat.
Proof.
  intros Hi Hb Hid Hj. assert (∃ ρ, R !! j = Some ρ) as [ρ Hρ].
  { destruct Hj as [[i Hj] | Hw].
    - exists (Held id i). eapply points_role; [exact Hi | exact Hid | done | done].
    - destruct (waits_link _ _ _ _ _ _ _ _ _ Hi Hid Hw) as (ρ & Hρ & _). eauto. }
  destruct (proj2 (inv_dom _ _ _ _ _ _ Hi j)) as [g Hg]; [eauto |]. by eapply Hb.
Qed.

Lemma take_result_set_state st (p : Promise T) : take_result (Some (set_state st p)) = take_result (Some p).
Proof. by destruct p as [? ? [] []]. Qed.

Lemma cost_final σ f : is_final f = true → cost σ f = 0%nat.
Proof. unfold cost, predict, is_final. by destruct (code_ f). Qed.

Lemma cost_predict σ f o n : predict σ f = Some (o, n) → cost σ f = n.
Proof. unfold cost. by intros ->. Qed.

Definition next_ok σ fs (nx : nat) fs' : Prop := ∃ σ', predicted σ' fs' ∧
  (∀ j, (j < nx)%nat → σ' j = σ j) ∧ (map_sum (cost σ') fs' + 1 = map_sum (cost σ) fs)%nat.

Section transitions.
Context fs (R : gmap nat Role) (q : list nat) (root id nx : nat) f σ.
Context (Hi : inv this root fs R (Some id) q) (Hid : fs !! id = Some f) (Hb : below fs nx) (Hp : predicted σ fs).

Lemma predicted_cur : ∃ n, predict σ f = Some (σ id, n).
Proof.
  destruct (Hp _ _ Hid) as [Hf _]. by rewrite (proj1 (cur_clean _ _ _ _ _ _ _ Hi Hid)) in Hf.
Qed.

(** The running frame changes alone. *)
Lemma next_one f' n :
  predict σ f = Some (σ id, S n) → predict σ f' = Some (σ id, n) → promise_ f' = promise_ f →
  next_ok σ fs nx (<[id := f']> fs).
Proof.
  intros Ef Ef' Epr. assert (is_final f' = false) as Hf' by (unfold predict, is_final in *; by destruct (code_ f')).
  exists σ. split_and!; [| done |].
  - intros j g [[<- <-] | [? Hg]]%lookup_insert_Some; [| by apply Hp]. rewrite Hf', Epr. split; [eauto |].
    apply (Hp _ _ Hid).
  - pose proof (map_sum_update (cost σ) fs id f f' Hid) as Hs.
    rewrite (cost_predict _ _ _ _ Ef), (cost_predict _ _ _ _ Ef') in Hs. lia.
Qed.

(** It takes a finished frame away. *)
Lemma next_take f' c g n :
  fs !! c = Some g → is_final g = true → c ≠ id →
  predict σ f = Some (σ id, S n) → predict σ f' = Some (σ id, n) → promise_ f' = promise_ f →
  next_ok σ fs nx (<[id := f']> (delete c fs)).
Proof.
  intros Hg Hfg Hne Ef Ef' Epr.
  assert (is_final f' = false) as Hf' by (unfold predict, is_final in *; by destruct (code_ f')).
  exists σ. split_and!; [| done |].
  - intros j g' [[<- <-] | [? [? Hg']%lookup_delete_Some]]%lookup_insert_Some; [| by apply Hp]. rewrite Hf', Epr.
    split; [eauto |]. apply (Hp _ _ Hid).
  - assert (delete c fs !! id = Some f) as Hid' by (by rewrite lookup_delete_ne).
    pose proof (map_sum_update (cost σ) _ id f f' Hid') as Hs. rewrite (map_sum_delete (cost σ) fs c g Hg).
    rewrite (cost_predict _ _ _ _ Ef), (cost_predict _ _ _ _ Ef') in Hs. rewrite cost_final by done. lia.
Qed.

(** It changes the promise of a frame that it owns. *)
Lemma next_own f' c g g' n :
  fs !! c = Some g → c ≠ id → code_ g' = code_ g → tasks_ g' = tasks_ g →
  (is_final g = true → take_result (Some (promise_ g')) = take_result (Some (promise_ g))) →
  (state_ (promise_ g') = RunningDetached → ∃ v, σ c = Returned v) →
  predict σ f = Some (σ id, S n) → predict σ f' = Some (σ id, n) → promise_ f' = promise_ f →
  next_ok σ fs nx (<[id := f']> (<[c := g']> fs)).
Proof.
  intros Hg Hne Ecg Etg Hres Hdet Ef Ef' Epr.
  assert (is_final f' = false) as Hf' by (unfold predict, is_final in *; by destruct (code_ f')).
  assert (predict σ g' = predict σ g ∧ is_final g' = is_final g) as [Epg Efg].
  { unfold predict, env_of, is_final. by rewrite Ecg, Etg. }
  exists σ. split_and!; [| done |].
  - intros j x [[<- <-] | [? [[<- <-] | [? Hx]]%lookup_insert_Some]]%lookup_insert_Some.
    + rewrite Hf', Epr. split; [eauto |]. apply (Hp _ _ Hid).
    + rewrite Efg, Epg. split; [| done]. destruct (Hp _ _ Hg) as [Hpg _]. destruct (is_final g); [| done].
      by rewrite Hres.
    + by apply Hp.
  - assert (<[c := g']> fs !! id = Some f) as Hid' by (by rewrite lookup_insert_ne).
    pose proof (map_sum_update (cost σ) _ id f f' Hid') as Hs. pose proof (map_sum_update (cost σ) fs c g g' Hg) as Hs'.
    rewrite (cost_predict _ _ _ _ Ef), (cost_predict _ _ _ _ Ef') in Hs.
    assert (cost σ g' = cost σ g) as Ec by (unfold cost; by rewrite Epg). lia.
Qed.

(** It makes a frame, which will return [o]. *)
Lemma next_make f' g o n m :
  let σ' := λ j, if decide (j = nx) then o else σ j in
  code_ g ≠ AtFinal → state_ (promise_ g) ≠ RunningDetached → predict σ' g = Some (o, m) →
  predict σ f = Some (σ id, n + m + 1)%nat → predict σ' f' = Some (σ id, n) → promise_ f' = promise_ f →
  next_ok σ fs nx (<[id := f']> (<[nx := g]> fs)).
Proof.
  intros σ' Hnf Hnd Eg Ef Ef' Epr. pose proof (Hb _ _ Hid) as Hlt. pose proof (below_fresh _ _ Hb) as Hfr.
  assert (is_final f' = false) as Hf' by (unfold predict, is_final in *; by destruct (code_ f')).
  assert (∀ j, (j < nx)%nat → σ' j = σ j) as Hσ by (intros j Hj; unfold σ'; by rewrite decide_False by lia).
  assert (∀ j x, fs !! j = Some x → predict σ' x = predict σ x) as Hpe.
  { intros j x Hx. apply predict_ext. intros i Hri. apply Hσ. by eapply refers_below. }
  exists σ'. split_and!; [| done |].
  - intros j x [[<- <-] | [? [[<- <-] | [? Hx]]%lookup_insert_Some]]%lookup_insert_Some.
    + rewrite Hf', Epr, (Hσ id Hlt). split; [eauto |]. apply (Hp _ _ Hid).
    + unfold is_final. unfold σ' at 1 3. rewrite decide_True by done. split; [| done].
      destruct (code_ g); try done; eauto.
    + rewrite (Hpe _ _ Hx), (Hσ j) by (by eapply Hb). by apply Hp.
  - assert (<[nx := g]> fs !! id = Some f) as Hid' by (by rewrite lookup_insert_ne by lia).
    pose proof (map_sum_update (cost σ') _ id f f' Hid') as Hs. rewrite (map_sum_insert _ _ nx g Hfr) in Hs.
    rewrite (map_sum_ext (cost σ') (cost σ) fs) in Hs.
    2: { intros j x Hx. unfold cost. by rewrite (Hpe _ _ Hx). }
    rewrite (cost_predict _ _ _ _ Eg), (cost_predict _ _ _ _ Ef') in Hs.
    assert (cost σ' f = n + m + 1)%nat as Ecf by (unfold cost; by rewrite (Hpe _ _ Hid), Ef).
    rewrite (map_sum_delete (cost σ) fs id f Hid), (cost_predict _ _ _ _ Ef).
    rewrite (map_sum_delete (cost σ) fs id f Hid), (cost_predict _ _ _ _ Ef) in Hs. lia.
Qed.

Lemma next_return out st h cbs :
  code_ f = Running (CoReturn out) → fin_next (promise_ f) = Some (h, st, cbs) →
  next_ok σ fs nx (<[id := mkFrame (set_state st (finish_body out (promise_ f))) AtFinal (tasks_ f)]> fs).
Proof.
  intros Ec Hn. destruct predicted_cur as [n En]. destruct (cur_clean _ _ _ _ _ _ _ Hi Hid) as [_ [H1 H2]].
  assert (out = σ id ∧ n = 1%nat) as [-> ->].
  { unfold predict in En. rewrite Ec in En. simpl in En. case_bool_decide; by simplify_eq. }
  exists σ. split_and!; [| done |].
  - intros j g [[<- <-] | [? Hg]]%lookup_insert_Some; [| by apply Hp]. simpl. split.
    + by rewrite take_result_set_state, take_result_spec.
    + intros ->. unfold fin_next in Hn. by destruct (state_ (promise_ f)), (union_ (promise_ f)).
  - set (f' := mkFrame _ _ _). pose proof (map_sum_update (cost σ) fs id f f' Hid) as Hs.
    rewrite (cost_predict _ _ _ _ En) in Hs. rewrite (cost_final σ f') in Hs by done. lia.
Qed.

Lemma next_return_detached v : code_ f = Running (CoReturn (Returned v)) → next_ok σ fs nx (delete id fs).
Proof.
  intros Ec. destruct predicted_cur as [n En].
  assert (n = 1%nat) as ->. { unfold predict in En. rewrite Ec in En. simpl in En. case_bool_decide; by simplify_eq. }
  exists σ. split_and!; [| done |].
  - intros j g [? Hg]%lookup_delete_Some. by apply Hp.
  - rewrite (map_sum_delete (cost σ) fs id f Hid), (cost_predict _ _ _ _ En). lia.
Qed.

(** A frame that is waited for has finished and returns what was predicted. *)
Lemma taken_predicted c g out :
  waits_for f = Some c → fs !! c = Some g → take_result (Some (promise_ g)) = Done out None →
  is_final g = true ∧ out = σ c ∧ c ≠ id.
Proof.
  intros Hw Hg Et. destruct (taken_final _ _ _ _ _ _ _ Hi Hid c g Hw Hg) as [Hf Hne].
  destruct (Hp _ _ Hg) as [Hpg _]. rewrite Hf in Hpg. split_and!; [done | congruence | done].
Qed.

Lemma env_lookup i t : tasks_ f !! i = Some (Some t) → env_of σ f !! i = Some (Some (σ t)).
Proof. intros Hl. unfold env_of. by rewrite list_lookup_fmap, Hl. Qed.

Lemma env_release i ts c : ts = <[i := None]> (tasks_ f) → env_of σ (mkFrame (promise_ f) c ts) = <[i := None]> (env_of σ f).
Proof. intros ->. unfold env_of. simpl. by rewrite list_fmap_insert. Qed.

Lemma next_await_coro child k :
  code_ f = Running (AwaitCoro child k) →
  next_ok σ fs nx (<[id := with_code f (InCoro nx k)]>
    (<[nx := mkFrame (set_caller_handle (Handle id) promise_new) (Running child) []]> fs)).
Proof.
  intros Ec. destruct predicted_cur as [n En]. unfold predict in En. rewrite Ec in En. simpl in En.
  destruct (eval [] child) as [[o m]|] eqn:Eo; [| done]. simpl in En.
  destruct (eval (env_of σ f) (k o)) as [[out n']|] eqn:Ek; [| done]. simplify_eq/=.
  assert (env_of (λ j, if decide (j = nx) then o else σ j) f = env_of σ f) as Ee.
  { unfold env_of. apply list_fmap_ext. intros i [j|] Hj; simpl; [| done].
    rewrite decide_False; [done |]. intros ->. assert (nx < nx)%nat; [| lia].
    eapply refers_below; [exact Hi | exact Hb | exact Hid | left; eauto]. }
  eapply (next_make _ _ o (n' + 1)%nat m); try done.
  - unfold predict. rewrite Ec. simpl. rewrite Eo. simpl. rewrite Ek. simpl. f_equal. f_equal. lia.
  - unfold predict, with_code. cbn [code_]. change (env_of ?a (mkFrame _ _ (tasks_ f))) with (env_of a f).
    rewrite Ee, decide_True by done. by rewrite Ek.
Qed.

Lemma next_spawn rt child k :
  code_ f = Running (SpawnTask rt child k) →
  next_ok σ fs nx (<[id := mkFrame (promise_ f) (Running k) (tasks_ f ++ [Some nx])]>
    (<[nx := mkFrame (mark_running promise_new) (Running child) []]> fs)).
Proof.
  intros Ec. destruct predicted_cur as [n En]. pose proof En as En0. unfold predict in En. rewrite Ec in En. simpl in En.
  case_bool_decide; [| done].
  destruct (eval [] child) as [[o m]|] eqn:Eo; [| done]. simpl in En.
  destruct (eval (env_of σ f ++ [Some o]) k) as [[out n']|] eqn:Ek; [| done]. simplify_eq/=.
  eapply (next_make _ _ o n' m); try done.
  - rewrite En0. f_equal. f_equal. lia.
  - unfold predict. cbn [code_]. unfold env_of. cbn [tasks_]. rewrite fmap_app. simpl. rewrite decide_True by done.
    rewrite <- Ek. f_equal. f_equal. unfold env_of. apply list_fmap_ext. intros i [j|] Hj; simpl; [| done].
    rewrite decide_False; [done |]. intros ->. assert (nx < nx)%nat; [| lia].
    eapply refers_below; [exact Hi | exact Hb | exact Hid | left; eauto].
Qed.

Lemma next_await_task i k t g st :
  code_ f = Running (AwaitTask i k) → tasks_ f !! i = Some (Some t) → fs !! t = Some g →
  take_result (Some st) = take_result (Some (promise_ g)) → state_ st ≠ RunningDetached →
  next_ok σ fs nx (<[id := mkFrame (promise_ f) (InTask t this k) (<[i := None]> (tasks_ f))]>
    (<[t := mkFrame st (code_ g) (tasks_ g)]> fs)).
Proof.
  intros Ec Ht Hg Hst Hnd. destruct (held_final _ _ _ _ _ _ _ Hi Hid _ _ Ht) as (_ & _ & _ & Hlt & _).
  destruct predicted_cur as [n En]. pose proof En as En0. unfold predict in En. rewrite Ec in En. simpl in En.
  rewrite (env_lookup _ _ Ht) in En. destruct (eval _ (k (σ t))) as [[out n']|] eqn:Ek; [| done]. simplify_eq/=.
  eapply (next_own _ t g _ (n' + 1)%nat); try done; [lia | rewrite En0; f_equal; f_equal; lia |].
  unfold predict. cbn [code_]. rewrite (env_release i _ _ eq_refl), Ek. done.
Qed.

Lemma next_detach i k t g :
  code_ f = Running (DetachTask i k) → tasks_ f !! i = Some (Some t) → fs !! t = Some g →
  (∃ n, predict σ f = Some (σ id, S n) ∧
     predict σ (mkFrame (promise_ f) (Running k) (<[i := None]> (tasks_ f))) = Some (σ id, n)) ∧
  (∃ v, σ t = Returned v) ∧ (t ≠ id).
Proof.
  intros Ec Ht Hg. destruct (held_final _ _ _ _ _ _ _ Hi Hid _ _ Ht) as (_ & _ & _ & Hlt & _).
  destruct predicted_cur as [n En]. pose proof En as En0. unfold predict in En. rewrite Ec in En. simpl in En.
  rewrite (env_lookup _ _ Ht) in En. destruct (σ t) as [w|] eqn:Eσ; [| done].
  destruct (eval _ k) as [[out n']|] eqn:Ek; [| done]. simplify_eq/=. split_and!; [| eauto | lia].
  exists n'. split; [rewrite En0; f_equal; f_equal; lia |].
  unfold predict. cbn [code_]. by rewrite (env_release i _ _ eq_refl).
Qed.
End transitions.

(** Each transition takes one of the predicted steps and keeps the predictions. *)
Lemma trans_predicted root id fs nx q h fs' nx' q' R σ :
  trans this id fs nx q h fs' nx' q' → inv this root fs R (Some id) q → below fs nx → predicted σ fs →
  next_ok σ fs nx fs'.
Proof.
  intros Ht Hi Hb Hp.
  destruct Ht as [fs nx q f out h st cbs Hid Ec Hn Hfn | fs nx q f v Hid Ec Hn Hs | fs nx q f child k Hid Ec
    | fs nx q f c k g out Hid Ec Hg Et | fs nx q f rt child k Hid Ec | fs nx q f i k Hid Ec Ei
    | fs nx q f i k t g Hid Ec Ht Hg Hs | fs nx q f i k t g Hid Ec Ht Hg Hs | fs nx q f t rt k g out Hid Ec Hg Et
    | fs nx q f i k t g Hid Ec Ht Hg Hs | fs nx q f i k t g Hid Ec Ht Hg Hs _ | fs nx q f rt k Hid Ec
    | fs nx q f s k t r Hid Ec | fs nx q f a t k v Hid Ec Hv];
    destruct (predicted_cur _ _ _ _ _ _ _ Hi Hid Hp) as [n En].
  - by eapply next_return.
  - by eapply next_return_detached.
  - by eapply next_await_coro.
  - destruct (taken_predicted _ _ _ _ _ _ _ Hi Hid Hp c g out) as (Hfg & -> & Hne); [unfold waits_for; by rewrite Ec | done | done |].
    pose proof En as En0. unfold predict in En. rewrite Ec in En.
    destruct (eval _ (k (σ c))) as [[o n']|] eqn:Ek; [| done]. simplify_eq/=.
    eapply (next_take _ _ _ _ _ Hid Hp _ c g n'); try done. rewrite En0. f_equal. f_equal. lia.
  - by eapply next_spawn.
  - pose proof En as En0. unfold predict in En. rewrite Ec in En. simpl in En.
    assert (env_of σ f !! i = Some None) as Ee by (unfold env_of; by rewrite list_lookup_fmap, Ei).
    rewrite Ee in En. destruct (eval _ (k _)) as [[o n']|] eqn:Ek; [| done]. simplify_eq/=.
    eapply (next_one _ _ _ _ _ Hid Hp _ n'); try done. rewrite En0. f_equal. f_equal. lia.
  - eapply next_await_task; try done. destruct (held_final _ _ _ _ _ _ _ Hi Hid _ _ Ht) as (g0 & Hg0 & _ & _ & Hsg).
    simplify_eq. by destruct (promise_ g) as [? ? [] []].
  - eapply next_await_task; try done. apply take_result_set_state.
  - destruct (taken_predicted _ _ _ _ _ _ _ Hi Hid Hp t g out) as (Hfg & -> & Hne); [unfold waits_for; by rewrite Ec | done | done |].
    pose proof En as En0. unfold predict in En. rewrite Ec in En.
    destruct (eval _ (k (σ t))) as [[o n']|] eqn:Ek; [| done]. simplify_eq/=.
    eapply (next_take _ _ _ _ _ Hid Hp _ t g n'); try done. rewrite En0. f_equal. f_equal. lia.
  - destruct (next_detach _ _ _ _ _ _ _ Hi Hid Hp i k t g Ec Ht Hg) as ((n' & E1 & E2) & Hv & Hne).
    eapply (next_own _ _ _ _ _ Hid Hp _ t g _ n'); try done. intros _. apply take_result_set_state.
  - destruct (next_detach _ _ _ _ _ _ _ Hi Hid Hp i k t g Ec Ht Hg) as ((n' & E1 & E2) & Hv & Hne).
    destruct (held_final _ _ _ _ _ _ _ Hi Hid _ _ Ht) as (g0 & Hg0 & _ & _ & Hsg). simplify_eq.
    eapply (next_take _ _ _ _ _ Hid Hp _ t g n'); try done. rewrite Hs in Hsg. by destruct (is_final g).
  - pose proof En as En0. unfold predict in En. rewrite Ec in En. simpl in En. case_bool_decide; [| done].
    destruct (eval _ k) as [[o n']|] eqn:Ek; [| done]. simplify_eq/=.
    eapply (next_one _ _ _ _ _ Hid Hp _ n'); try done. rewrite En0. f_equal. f_equal. lia.
  - unfold predict in En. by rewrite Ec in En.
  - unfold predict in En. by rewrite Ec in En.
Qed.

(** A predicted body does not misuse its tasks, and it awaits no operation. *)
Lemma predicted_fine root id fs q R σ f :
  inv this root fs R (Some id) q → fs !! id = Some f → predicted σ fs →
  plain_head this f ∧ ¬ misuse fs f.
Proof.
  intros Hi Hid Hp. destruct (predicted_cur _ _ _ _ _ _ _ Hi Hid Hp) as [n En]. unfold predict in En.
  unfold plain_head, misuse. destruct (code_ f) as [[out | child k | rt child k | i k | i k | rt k | sd k] | | | |] eqn:Ec;
    try (by split; [| intros []]); simpl in En; try done.
  - split; [done |]. case_bool_decide as Hn; [| done]. intros [Hbad | [Hd [e ->]]].
    + destruct Hbad. unfold env_of in Hn. rewrite Forall_fmap in Hn. eapply Forall_impl; [exact Hn |].
      by intros [].
    + destruct (Hp _ _ Hid) as [_ Hdet]. destruct (Hdet Hd). congruence.
  - case_bool_decide; [| done]. split; [done | by intros []].
  - split; [done |]. intros Hbad. unfold env_of in En. by rewrite list_lookup_fmap, Hbad in En.
  - split; [done |]. unfold env_of in En. rewrite list_lookup_fmap in En. intros [Hbad | (t & g & e & Ht & Hg & Hz & He)].
    + destruct (tasks_ f !! i) as [[t|]|] eqn:Et; simpl in En; [by destruct (Hbad t) | done | done].
    + rewrite Ht in En. simpl in En. destruct (held_final _ _ _ _ _ _ _ Hi Hid _ _ Ht) as (g0 & Hg0 & _ & _ & Hsg). simplify_eq.
      destruct (Hp _ _ Hg) as [Hpg _]. rewrite Hz in Hsg. destruct (is_final g); [| done].
      destruct (promise_ g) as [? ? ex v]. simpl in He. subst ex. injection Hpg as Hσ. by rewrite <- Hσ in En.
  - case_bool_decide; [| done]. split; [done | by intros []].
Qed.

(** The sum over the frames is what [pending_works_] counts. *)
Lemma load_mk w p (c : Code T V) ts :
  load w (mkFrame p c ts) = match c with InTask _ _ _ => 1%nat | InOp _ t _ => w t | _ => 0%nat end.
Proof. done. Qed.

Lemma trans_load w id fs nx q h fs' nx' q' R root f :
  trans this id fs nx q h fs' nx' q' → inv this root fs R (Some id) q → below fs nx → fs !! id = Some f →
  plain_head this f →
  Z.of_nat (map_sum (load w) fs') = Z.of_nat (map_sum (load w) fs) + pend_delta f h.
Proof.
  intros Ht Hi Hb Hid0 Hpl.
  assert (∀ f', Z.of_nat (map_sum (load w) (<[id := f']> fs))
                = Z.of_nat (map_sum (load w) fs) + Z.of_nat (load w f') - Z.of_nat (load w f)) as Hone.
  { intros f'. pose proof (map_sum_update (load w) fs id f f' Hid0). lia. }
  assert (∀ f' c g, fs !! c = None → c ≠ id → load w g = 0%nat →
    Z.of_nat (map_sum (load w) (<[id := f']> (<[c := g]> fs)))
    = Z.of_nat (map_sum (load w) fs) + Z.of_nat (load w f') - Z.of_nat (load w f)) as Hmake.
  { intros f' c g Hc Hne Hg. pose proof (map_sum_update (load w) (<[c := g]> fs) id f f') as Hs.
    rewrite lookup_insert_ne in Hs by done. rewrite (map_sum_insert (load w) fs c g Hc) in Hs.
    specialize (Hs Hid0). lia. }
  assert (∀ f' c g g', fs !! c = Some g → c ≠ id → code_ g' = code_ g →
    Z.of_nat (map_sum (load w) (<[id := f']> (<[c := g']> fs)))
    = Z.of_nat (map_sum (load w) fs) + Z.of_nat (load w f') - Z.of_nat (load w f)) as Hown.
  { intros f' c g g' Hc Hne Hg. pose proof (map_sum_update (load w) (<[c := g']> fs) id f f') as Hs.
    rewrite lookup_insert_ne in Hs by done. specialize (Hs Hid0). pose proof (map_sum_update (load w) fs c g g' Hc).
    assert (load w g' = load w g) by (unfold load; by rewrite Hg). lia. }
  assert (∀ f' c g, fs !! c = Some g → c ≠ id → is_final g = true →
    Z.of_nat (map_sum (load w) (<[id := f']> (delete c fs)))
    = Z.of_nat (map_sum (load w) fs) + Z.of_nat (load w f') - Z.of_nat (load w f)) as Htake.
  { intros f' c g Hc Hne Hg. pose proof (map_sum_update (load w) (delete c fs) id f f') as Hs.
    rewrite lookup_delete_ne in Hs by done. specialize (Hs Hid0). rewrite (map_sum_delete (load w) fs c g Hc).
    assert (load w g = 0%nat) by (unfold load, is_final in *; by destruct (code_ g)). lia. }
  unfold pend_delta.
  destruct Ht as [fs nx q f1 out h st cbs Hid Ec Hn Hfn | fs nx q f1 v Hid Ec Hn Hs | fs nx q f1 child k Hid Ec
    | fs nx q f1 c k g out Hid Ec Hg Et | fs nx q f1 rt child k Hid Ec | fs nx q f1 i k Hid Ec Ei
    | fs nx q f1 i k t g Hid Ec Ht Hg Hs | fs nx q f1 i k t g Hid Ec Ht Hg Hs | fs nx q f1 t rt k g out Hid Ec Hg Et
    | fs nx q f1 i k t g Hid Ec Ht Hg Hs | fs nx q f1 i k t g Hid Ec Ht Hg Hs _ | fs nx q f1 rt k Hid Ec
    | fs nx q f1 s k t r Hid Ec | fs nx q f1 a t k v Hid Ec Hv]; assert (f1 = f) as -> by congruence; rewrite Ec;
    try (unfold plain_head in Hpl; by rewrite Ec in Hpl);
    assert (load w f = match code_ f with InTask _ _ _ => 1%nat | InOp _ t _ => w t | _ => 0%nat end) as Hwf by done; rewrite Ec in Hwf;
    rewrite ?Ei, ?Ht;
    try (pose proof (Hb _ _ Hid); pose proof (below_fresh _ _ Hb));
    try (destruct (held_final _ _ _ _ _ _ _ Hi Hid _ _ Ht) as (g0 & Hg0 & _ & Hlt & Hsg); assert (g0 = g) as -> by congruence).
  - rewrite Hone. rewrite load_mk. lia.
  - rewrite (map_sum_delete (load w) fs id f Hid), Hwf. lia.
  - rewrite Hmake by (done || lia). unfold with_code. rewrite load_mk. lia.
  - assert (waits_for f = Some c) as Hw by (unfold waits_for; by rewrite Ec).
    destruct (taken_final _ _ _ _ _ _ _ Hi Hid _ g Hw Hg) as [Hfg Hne]. rewrite (Htake _ c g) by done. unfold with_code. rewrite load_mk. lia.
  - rewrite Hmake by (done || lia). rewrite load_mk. lia.
  - unfold with_code. rewrite Hone, load_mk. lia.
  - rewrite (Hown _ t g) by (done || lia). rewrite load_mk. lia.
  - rewrite (Hown _ t g) by (done || lia). rewrite load_mk. lia.
  - assert (waits_for f = Some t) as Hw by (unfold waits_for; by rewrite Ec).
    destruct (taken_final _ _ _ _ _ _ _ Hi Hid _ g Hw Hg) as [Hfg Hne]. rewrite (Htake _ t g) by done. unfold with_code. rewrite load_mk. lia.
  - rewrite (Hown _ t g) by (done || lia). rewrite load_mk. lia.
  - rewrite (Htake _ t g) by (try done; try lia; rewrite Hs in Hsg; by destruct (is_final g)). rewrite load_mk. lia.
  - unfold with_code. rewrite Hone, load_mk. lia.
Qed.
End eval.

(** ** [sync_wait] returns *)

Section run.
Context {U T V : Type} `{UringLaws U}.
Context (this root : nat) (sf : nat).
Implicit Types (s : Sys U T V) (r : Runtime U) (σ : nat → outcome T).

Record steady s r (q : list nat) (cur : option nat) σ : Prop := {
  st_rt : on_rt this s r q;
  st_inv : ∃ R, inv this root (frames s) R cur q;
  st_below : below (frames s) (next_frame s);
  st_pred : predicted this σ (frames s);
  st_pending : pending_works_ r = u64 (Z.of_nat (map_sum waiting (frames s)))
}.

Definition total s σ : nat := map_sum (cost this σ) (frames s).

(** What the coroutines do not touch: everything but the queue, the counters and
    the frames; predictions do not change. *)
Definition core_of r : Runtime U := set_tick 0 (set_local [] (set_pending 0 r)).
Record goes s r σ s' r' σ' : Prop := {
  go_world : world_of s' = with_rt (world_of s) this r';
  go_calls : calls (senv s') = calls (senv s);
  go_orphans : orphans s' = orphans s;
  go_core : core_of r' = core_of r;
  go_next : (next_frame s ≤ next_frame s')%nat;
  go_pred j : (j < next_frame s)%nat → σ' j = σ j
}.

Lemma goes_trans s1 r1 σ1 s2 r2 σ2 s3 r3 σ3 :
  goes s1 r1 σ1 s2 r2 σ2 → goes s2 r2 σ2 s3 r3 σ3 → goes s1 r1 σ1 s3 r3 σ3.
Proof.
  intros [W1 C1 O1 K1 N1 P1] [W2 C2 O2 K2 N2 P2]. split; try congruence; [| lia |].
  - by rewrite W2, W1, with_rt_twice.
  - intros j Hj. rewrite P2 by lia. auto.
Qed.

Lemma exec_goes s r q id σ :
  steady s r q (Some id) σ →
  ∃ h s' r' q' σ', exec sf this id s = Done h s' ∧ steady s' r' q' (next_cur h) σ' ∧ h ≠ NullHandle ∧
    goes s r σ s' r' σ' ∧ (total s' σ' + 1 = total s σ)%nat.
Proof.
  intros [Hrt [R Hi] Hb Hp Hpd].
  destruct (proj1 (inv_active _ _ _ _ _ _ Hi id)) as (f & Hid & _); [by left |].
  destruct (predicted_fine this _ _ _ _ _ _ _ Hi Hid Hp) as [Hpl Hnm].
  destruct (exec_plain this sf root R s r id f q Hi Hrt Hid Hb Hpl) as [(h & fs' & nx' & q' & Ex & Ht) | (c & _ & Hm)]; [| done].
  destruct (trans_inv _ _ _ _ _ _ _ _ _ _ R Ht Hi Hb) as (R' & Hi' & Hb' & Hh).
  destruct (trans_predicted _ _ _ _ _ _ _ _ _ _ R σ Ht Hi Hb Hp) as (σ' & Hp' & Hσ & Htot).
  pose proof (trans_load _ (λ _, 0%nat) _ _ _ _ _ _ _ _ R _ f Ht Hi Hb Hid Hpl) as Hw.
  set (r' := set_local (promise_addr <$> q') (if pend_delta f h =? 0 then r else
               set_pending (u64 (pending_works_ r + pend_delta f h)) r)).
  exists h, (stepped this s r fs' nx' q' (pend_delta f h)), r', q', σ'. split; [done |]. split_and!; [| done | | done].
  - split; [| eauto | done | done |].
    + split; [apply with_rt_lookup | done].
    + cbn [stepped frames]. unfold waiting in *. rewrite Hw. unfold r'. destruct (Z.eqb_spec (pend_delta f h) 0) as [E | E]; simpl.
      * by rewrite E, Z.add_0_r.
      * rewrite Hpd. apply wrap_add_l.
  - split; try done.
    + unfold r', core_of. by destruct (pend_delta f h =? 0).
    + simpl. destruct Ht; simpl; lia.
Qed.

Lemma resume_goes fuel : ∀ s r q id σ,
  steady s r q (Some id) σ → (total s σ ≤ fuel)%nat →
  ∃ s' r' q' σ', resume sf fuel this (Handle id) s = Done tt s' ∧ steady s' r' q' None σ' ∧
    goes s r σ s' r' σ' ∧ (total s' σ' < total s σ)%nat.
Proof.
  induction fuel as [|fuel IH]; intros s r q id σ Hs Hf;
    destruct (exec_goes s r q id σ Hs) as (h & s1 & r1 & q1 & σ1 & Ex & Hs1 & Hh & G1 & T1); [lia |].
  cbn [resume]. erewrite bind_done by exact Ex. destruct h as [| | id1]; [| done |].
  - exists s1, r1, q1, σ1. by destruct fuel; split_and!; try done; lia.
  - destruct (IH s1 r1 q1 id1 σ1 Hs1) as (s2 & r2 & q2 & σ2 & E2 & Hs2 & G2 & T2); [lia |].
    exists s2, r2, q2, σ2. split_and!; [done | done | by eapply goes_trans | lia].
Qed.

Lemma frame_at_addr id : frame_at (promise_addr id) = id.
Proof. unfold frame_at, promise_addr. rewrite Z.mul_comm, Z.div_mul by lia. lia. Qed.

Lemma steady_set s r q cur σ r' q' cur' :
  steady s r q cur σ → local_queue_ r' = promise_addr <$> q' → pending_works_ r' = pending_works_ r →
  active cur' q' = active cur q → steady (with_rt_in s this r') r' q' cur' σ.
Proof.
  intros [Hrt [R Hi] Hb Hp Hpd] Hq Hpw Ha. split; [split; [apply with_rt_in_lookup | done] | | done | done | by rewrite Hpw].
  exists R. destruct Hi as [H1 H2 H3 H4 H5 H6 H7 H8]. split; try done; rewrite Ha; [apply H7 | apply H8].
Qed.

Context (cqe_nr : cqe → Z) (wf : nat).

(** The loop runs all coroutines to their end. *)
Lemma run_loop_goes fuel wfuel : ∀ s r q σ,
  steady s r q None σ → uring_peek_cqe (ring_ (rt_ring_ r)) = - EAGAIN → exit_allowed_ r = true →
  (total s σ ≤ fuel)%nat → (total s σ < wfuel)%nat →
  ∃ s' r' σ', run_loop (invoke sf fuel) (handle sf fuel) cqe_nr wf wfuel this s = Done tt s' ∧
    steady s' r' [] None σ' ∧ goes s r σ s' r' σ'.
Proof.
  induction wfuel as [|wfuel IH]; intros s r q σ Hs Hpk Hex Hf Hw; [lia |].
  pose proof Hs as [[Hrt Hq] [R Hi] Hb Hp Hpd]. rewrite run_loop_S.
  pose proof (run_turn_idle (invoke sf fuel) (handle sf fuel) cqe_nr wf s this r Hrt Hpk) as [t Et]. rewrite Hq in Et.
  destruct q as [|id q].
  - assert (pending_works_ r = 0) as Hz.
    { rewrite Hpd, map_sum_zero; [done |]. intros j f Hj. unfold waiting, load.
      assert (is_final f = true) as Hfin; [| unfold is_final in Hfin; by destruct (code_ f)].
      apply (all_final this root _ R Hi) with j; [| done]. intros j' f' a t' k Hj' Ec. exfalso.
      destruct (Hp _ _ Hj') as [Hpj _]. unfold is_final, predict in Hpj. rewrite Ec in Hpj. by destruct Hpj. }
    rewrite Hz, Hex in Et. simpl in Et. eexists _, (set_tick t r), σ.
    split; [by erewrite bind_done by exact Et |]. split; [by apply (steady_set s r [] None σ) |]. by split.
  - simpl in Et. set (r1 := set_local (promise_addr <$> q) (set_tick t r)) in Et.
    assert (steady (with_rt_in s this r1) r1 q (Some id) σ) as Hs1 by (by apply (steady_set s r (id :: q) None σ)).
    destruct (resume_goes fuel _ _ _ _ _ Hs1 Hf) as (s2 & r2 & q2 & σ2 & E2 & Hs2 & G2 & T2).
    erewrite bind_done.
    2: { rewrite Et. unfold invoke at 1. rewrite frame_at_addr. by erewrite bind_done by exact E2. }
    assert (goes s r σ (with_rt_in s this r1) r1 σ) as G1.
    { by split. }
    pose proof (go_core _ _ _ _ _ _ G2) as Hc. unfold core_of, r1 in Hc. injection Hc. intros.
    change (total (with_rt_in s this r1) σ) with (total s σ) in T2.
    destruct (IH s2 r2 q2 σ2 Hs2) as (s3 & r3 & σ3 & E3 & Hs3 & G3); [congruence | congruence | lia | lia |].
    exists s3, r3, σ3. split_and!; [done | done |]. eapply goes_trans; [exact G1 |]. by eapply goes_trans.
Qed.
End run.

Section sync_wait.
Context {U T V : Type} `{UringLaws U}.
Context (this thread : nat) (cqe_nr : cqe → Z) (wf sf fuel : nat).
Implicit Types (s : Sys U T V) (r : Runtime U) (b : Body T V).

Lemma sync_start_inv c b :
  inv this c {[c := mkFrame (mark_running promise_new) (Running b) []]} {[c := Root]} None [c].
Proof.
  assert (∀ j (f : Frame T V), ({[c := mkFrame (mark_running promise_new) (Running b) []]} : gmap nat _) !! j = Some f →
    j = c ∧ f = mkFrame (mark_running promise_new) (Running b) []) as Hone.
  { intros j f Hj. by apply lookup_singleton_Some in Hj as [-> <-]. }
  split.
  - intros j. unfold is_Some. setoid_rewrite lookup_singleton_Some. naive_solver.
  - intros j. rewrite lookup_singleton_Some. naive_solver.
  - intros j ρ Hp. rewrite lookup_singleton_Some. split.
    + intros [-> <-]. by destruct Hp.
    + intros (p & f & _ & [-> ->]%Hone & Hpt). destruct ρ; try done; by destruct Hpt.
  - intros j ρ p [-> <-]%lookup_singleton_Some. done.
  - intros j f ρ [-> ->]%Hone [_ <-]%lookup_singleton_Some. done.
  - intros j f [-> ->]%Hone. done.
  - intros j. unfold active. simpl. rewrite list_elem_of_singleton. split.
    + intros ->. eexists. by rewrite lookup_singleton_eq.
    + by intros (f & [-> _]%Hone & _).
  - apply NoDup_singleton.
Qed.

(** The state in which the loop of [sync_wait] starts. *)
Lemma start_steady s c b out n u r :
  frames s = {[c := mkFrame (mark_running promise_new) (Running b) []]} → (c < next_frame s)%nat →
  eval this [] b = Some (out, n) →
  runtimes (world_of s) !! this = Some r → local_queue_ r = [] → global_queue_ r = [promise_addr c] →
  pending_works_ r = 0 →
  let r' := entered thread u r in
  steady this c (with_rt_in s this r') r' [c] None (λ _, out) ∧ total this (with_rt_in s this r') (λ _, out) = n.
Proof.
  intros Hf Hc Ev Hr Hl Hg Hpd r'.
  assert (local_queue_ r' = [promise_addr c] ∧ pending_works_ r' = 0) as [Hl' Hp'].
  { unfold r', entered. simpl. destruct (disable_register_ring_fd_ r); simpl; by rewrite Hl, Hg. }
  set (f := mkFrame (mark_running promise_new) (Running b) [] : Frame T V).
  assert (predict this (λ _, out) f = Some (out, n)) as Ep by exact Ev.
  split; [split |].
  - split; [apply with_rt_in_lookup | done].
  - exists {[c := Root]}. simpl. rewrite Hf. apply sync_start_inv.
  - intros j g Hj. simpl in Hj. rewrite Hf in Hj. by apply lookup_singleton_Some in Hj as [-> _].
  - intros j g Hj. simpl in Hj. rewrite Hf in Hj. apply lookup_singleton_Some in Hj as [-> <-]. simpl. split; [by exists n | done].
  - rewrite Hp'. simpl. rewrite Hf, map_sum_zero; [done |]. by intros j g [_ <-]%lookup_singleton_Some.
  - unfold total. simpl. rewrite Hf. fold f. change {[c := f]} with (<[c := f]> (∅ : gmap nat (Frame T V))).
    rewrite map_sum_insert by done. rewrite (cost_predict _ _ _ _ _ Ep). unfold map_sum. rewrite map_fold_empty. lia.
Qed.

(** Spawning on a runtime that has not run, from a thread that runs none. *)
Lemma spawn_fresh s c f r sync_res :
  frames s !! c = Some f → runtimes (world_of s) !! this = Some r → ring_enabled_ r = false →
  co_spawn None this c sync_res s
  = Done c (put_frames (<[c := mkFrame (mark_running (promise_ f)) (code_ f) (tasks_ f)]> (frames s))
              (with_rt_in s this (set_global (global_queue_ r ++ [promise_addr c]) r))).
Proof.
  intros Hc Hr He. unfold co_spawn.
  erewrite bind_done by (eapply on_frame_keep; [exact Hc | reflexivity]).
  erewrite bind_done; [reflexivity |]. erewrite in_world_done; [reflexivity |].
  unfold schedule_internal. rewrite bool_decide_eq_false_2 by done.
  erewrite bind_done by (by apply get_rt_run). rewrite He. by erewrite upd_rt_run by exact Hr.
Qed.

Lemma allow_exit_fresh s r sync_res :
  runtimes (world_of s) !! this = Some r → ring_enabled_ r = false →
  in_world (allow_exit None this sync_res) s = Done tt (with_rt_in s this (set_exit_allowed true r)).
Proof.
  intros Hr He. erewrite in_world_done; [reflexivity |]. unfold allow_exit.
  erewrite bind_done by (by apply upd_rt_run). unfold wakeup_. rewrite bool_decide_eq_false_2 by done.
  erewrite bind_done by (apply get_rt_run, with_rt_lookup). simpl. by rewrite He.
Qed.

(** What is left when the loop has ended: one finished frame, with the predicted
    result. *)
Lemma end_steady s r c σ :
  steady this c s r [] None σ →
  ∃ f, frames s = {[c := f]} ∧ state_ (promise_ f) = Zombie ∧ take_result (Some (promise_ f)) = Done (σ c) None ∧
    pending_works_ r = 0.
Proof.
  intros [Hrt [R Hi] Hb Hp Hpd].
  assert (∀ j f, frames s !! j = Some f → is_final f = true) as Hfin.
  { apply (all_final this c _ R Hi). intros j f a t k Hj Ec. exfalso.
    destruct (Hp _ _ Hj) as [Hpj _]. unfold is_final, predict in Hpj. rewrite Ec in Hpj. by destruct Hpj. }
  destruct (proj2 (inv_dom _ _ _ _ _ _ Hi c)) as [f Hf].
  { exists Root. by apply (inv_root _ _ _ _ _ _ Hi). }
  exists f. destruct (only_root this c _ R Hi Hfin c f Hf) as (_ & out & p & _ & _ & Hz).
  destruct (Hp _ _ Hf) as [Hpc _]. rewrite (Hfin _ _ Hf) in Hpc. split_and!; [| done | done |].
  - apply map_eq. intros j. destruct (decide (j = c)) as [-> | Hne]; [by rewrite lookup_singleton_eq |].
    rewrite lookup_singleton_ne by done. destruct (frames s !! j) as [g|] eqn:Hg; [| done].
    by destruct (only_root this c _ R Hi Hfin j g Hg) as [-> _].
  - rewrite Hpd, map_sum_zero; [done |]. intros j g Hj. specialize (Hfin _ _ Hj). unfold waiting, load, is_final in *.
    by destruct (code_ g).
Qed.

(** [Task::wait] on a finished task, when no thread of a runtime calls it: the task
    has no handle any more. *)
Lemma task_wait_finished s c f out :
  frames s = {[c := f]} → state_ (promise_ f) = Zombie → take_result (Some (promise_ f)) = Done out None →
  context (world_of s) !! thread = None →
  task_wait thread (Some c, s) = Done out (None, put_frames ∅ s).
Proof.
  intros Hf Hz Et Hctx. unfold task_wait. rewrite bind_get. erewrite bind_done by done.
  erewrite bind_done.
  2: { apply zoom_done. unfold wait_inner_. rewrite bind_get. cbn [snd]. rewrite Hctx. erewrite bind_done.
       2: { eapply on_frame_keep; [rewrite Hf; apply lookup_singleton_eq |]. by rewrite request_join_spec, Hz. }
       reflexivity. }
  unfold in_sys at 1. erewrite zoom_done.
  2: { erewrite on_frame_drop; [reflexivity | apply lookup_insert_eq |].
       cbn [promise_]. rewrite take_result_set_state. exact Et. }
  unfold put_frames. simpl. by rewrite Hf, insert_singleton_eq, delete_singleton_eq.
Qed.

(** The block of [sync_wait] when nothing is thrown before the task has been waited for. *)
Lemma task_block_done {A} (m1 m2 : ST (Sys U T V) unit) (m3 : ST (option nat * Sys U T V) A) t s s1 s2 a s3 :
  m1 s = Done tt s1 → m2 s1 = Done tt s2 → m3 (Some t, s2) = Done a (None, s3) →
  with_task t (in_sys m1;; in_sys m2;; m3) s = Done a s3.
Proof.
  intros E1 E2 E3. unfold with_task. erewrite bind_done by (by apply zoom_done).
  erewrite bind_done by (by apply zoom_done). cbn [fst]. by rewrite E3.
Qed.

(** When an exception leaves the block before that, the destructor ends the program. *)
Lemma task_block_throws {A} (m1 m2 : ST (Sys U T V) unit) (m3 : ST (option nat * Sys U T V) A) t s s1 e s2 :
  m1 s = Done tt s1 → m2 s1 = Thrown e s2 →
  with_task t (in_sys m1;; in_sys m2;; m3) s = Crashed Panic.
Proof.
  intros E1 E2. unfold with_task. erewrite bind_done by (by apply zoom_done).
  unfold mbind, st_bind, in_sys, zoom. cbn [fst snd]. by rewrite E2.
Qed.

(** The state that [sync_wait] leaves. *)
Definition waited s s' : Prop :=
  frames s' = ∅ ∧ orphans s' = orphans s ∧ context (world_of s') !! thread = None ∧
  ∃ r', runtimes (world_of s') !! this = Some r' ∧ local_queue_ r' = [] ∧ global_queue_ r' = [] ∧
    pending_works_ r' = 0 ∧ exit_allowed_ r' = false ∧ run_thread_id_ r' = Some thread.

Lemma sync_wait_ok s c b out n g ei dr res u sync_res :
  eval this [] b = Some (out, n) → (n < fuel)%nat →
  frames s = {[c := mkFrame promise_new (Running b) []]} → (c < next_frame s)%nat →
  context (world_of s) !! thread = None →
  runtimes (world_of s) !! this = Some (runtime_new g ei dr) →
  uring_enable_rings (ring_ g) = (res, u) → 0 ≤ res → uring_peek_cqe u = - EAGAIN →
  ∃ s', sync_wait cqe_nr wf sf fuel this thread c sync_res s = Done out s' ∧ waited s s'.
Proof.
  intros Ev Hfuel Hfs Hc Hctx Hr Een Hres Hpk.
  unfold sync_wait. rewrite bind_get, Hctx.
  erewrite bind_done by (by eapply spawn_fresh; [rewrite Hfs; apply lookup_singleton_eq | exact Hr |]).
  cbn [promise_ code_ tasks_]. rewrite Hfs, insert_singleton_eq.
  set (f0 := mkFrame (mark_running promise_new) (Running b) [] : Frame T V).
  set (s2 := put_frames _ _). set (r1 := set_global [promise_addr c] (runtime_new g ei dr)).
  assert (runtimes (world_of s2) !! this = Some r1) as Hr1 by apply with_rt_lookup.
  set (r2 := set_exit_allowed true r1). set (s3 := with_rt_in s2 this r2).
  assert (in_world (allow_exit None this sync_res) s2 = Done tt s3) as Eae by (by apply allow_exit_fresh).
  assert (runtimes (world_of s3) !! this = Some r2) as Hr2 by apply with_rt_lookup.
  set (s4 := put_world (context_init thread this (world_of s3)) s3).
  destruct (start_steady s4 c b out n u r2) as [Hst Htot]; [done | simpl; lia | done | done | done | done | done |].
  destruct (run_loop_goes this c sf cqe_nr wf fuel fuel _ _ _ _ Hst) as (s5 & r5 & σ5 & E5 & Hst5 & G5).
  { unfold entered. simpl. by destruct dr. }
  { unfold entered. simpl. by destruct dr. }
  { lia. }
  { lia. }
  destruct (end_steady _ _ _ _ Hst5) as (f5 & Hf5 & Hz & Et & Hpd5). pose proof Hst5 as [[Hr5 Hq5] _ _ _ _].
  pose proof (run_first_enter (invoke sf fuel) (handle sf fuel) cqe_nr wf fuel s3 this thread r2 res u s5 r5
                Hr2 eq_refl Een Hres E5 Hr5) as Erun.
  set (s6 := put_world _ _) in Erun.
  erewrite task_block_done; [| exact Eae | exact Erun | apply (task_wait_finished s6 c f5 (σ5 c));
    [done | done | done | simpl; apply lookup_delete_eq]].
  assert (σ5 c = out) as -> by (apply (go_pred _ _ _ _ _ _ _ G5); simpl; lia).
  pose proof (go_core _ _ _ _ _ _ _ G5) as Hco. unfold core_of in Hco. injection Hco. intros Hc1 Hc2 Hc3 Hc4 Hc5 Hc6 Hc7 Hc8.
  eexists. split; [done |]. unfold waited. split_and!; [| | | exists (left_by_run r5); split_and!].
  - done.
  - exact (go_orphans _ _ _ _ _ _ _ G5).
  - simpl. apply lookup_delete_eq.
  - apply lookup_insert_eq.
  - unfold left_by_run. simpl. by destruct (disable_register_ring_fd_ r5).
  - unfold left_by_run. simpl. destruct (disable_register_ring_fd_ r5); simpl; rewrite Hc8; unfold entered; simpl; by destruct dr.
  - unfold left_by_run. simpl. by destruct (disable_register_ring_fd_ r5).
  - unfold left_by_run. simpl. by destruct (disable_register_ring_fd_ r5).
  - unfold left_by_run. simpl. destruct (disable_register_ring_fd_ r5); simpl; rewrite Hc4; unfold entered; simpl; by destruct dr.
Qed.

(** C3. [sync_wait] computes what its coroutine computes.  A program of coroutines
    that call, spawn, await, detach and switch, on a fresh runtime: the loop runs
    every coroutine to its end, [sync_wait] returns the value (or rethrows the
    exception) of [eval], in which a coroutine is a function and a task is its
    value, after at most as many steps as [eval] counts; every frame has been
    destroyed, no work is pending or queued, and the thread's context is
    cleared. *)
Theorem sync_wait_returns s b out n g ei dr res u sync_res :
  eval this [] b = Some (out, n) → (n < fuel)%nat →
  frames s = ∅ → context (world_of s) !! thread = None →
  runtimes (world_of s) !! this = Some (runtime_new g ei dr) →
  uring_enable_rings (ring_ g) = (res, u) → 0 ≤ res → uring_peek_cqe u = - EAGAIN →
  ∃ s', call_and_wait cqe_nr wf sf fuel this thread sync_res b s = Done out s' ∧ waited s s'.
Proof.
  intros Ev Hfuel Hfs Hctx Hr Een Hres Hpk. unfold call_and_wait.
  erewrite bind_done by (unfold call_coro; rewrite bind_get; reflexivity).
  eapply (sync_wait_ok (mkSys (senv s) _ (S (next_frame s)) (orphans s))); try done; simpl; [| lia].
  by rewrite Hfs, insert_empty.
Qed.

(** The [sync_wait] that makes its own runtime: when the ring cannot be made, the
    coroutine is destroyed before the exception leaves; otherwise the result is
    that of the coroutine, and the runtime is gone. *)
Theorem sync_wait_default_returns queue_init queue_init_mem opts s c b out n g sync_res :
  eval this [] b = Some (out, n) → (n < fuel)%nat →
  frames s = {[c := mkFrame promise_new (Running b) []]} → (c < next_frame s)%nat →
  context (world_of s) !! thread = None →
  (∀ e, create_ring_ queue_init queue_init_mem opts s = Thrown e s →
     ∃ s', sync_wait_default cqe_nr wf sf fuel queue_init queue_init_mem opts this thread c sync_res s
           = Thrown e s' ∧ frames s' = ∅ ∧ senv s' = senv s) ∧
  (∀ res u, create_ring_ queue_init queue_init_mem opts s = Done g s →
     uring_enable_rings (ring_ g) = (res, u) → 0 ≤ res → uring_peek_cqe u = - EAGAIN →
     ∃ s', sync_wait_default cqe_nr wf sf fuel queue_init queue_init_mem opts this thread c sync_res s
           = Done out s' ∧ frames s' = ∅ ∧ runtimes (world_of s') !! this = None).
Proof.
  intros Ev Hfuel Hfs Hc Hctx. unfold sync_wait_default. split.
  - intros e ->. unfold coro_destroy. eexists. split.
    + erewrite bind_done; [reflexivity |]. eapply on_frame_drop; [rewrite Hfs; apply lookup_singleton_eq | done].
    + simpl. by rewrite Hfs, delete_singleton_eq.
  - intros res u -> Een Hres Hpk. unfold defer_run.
    edestruct (sync_wait_ok (with_rt_in s this (runtime_new g (opt_event_interval_ opts) (opt_disable_register_ring_fd_ opts))) c b out n)
      as (s' & E & Hf & _); try done; [apply with_rt_in_lookup |].
    erewrite bind_done by apply in_set_rt. rewrite E. eexists. split; [done |]. simpl.
    split; [done | apply lookup_delete_eq].
Qed.

(** The two reasons for which [run] throws: the ring cannot be enabled, and another
    thread has run the runtime (which then gets the work and the wake-up by
    message). *)
Definition run_throws r (c : nat) (sync_res : Z) : Prop :=
  (run_thread_id_ r = None ∧ ring_enabled_ r = false ∧ (uring_enable_rings (ring_ (rt_ring_ r))).1 < 0) ∨
  (∃ t, run_thread_id_ r = Some t ∧ t ≠ thread ∧ ring_enabled_ r = true ∧ 0 ≤ sync_res ∧ promise_addr c < 2 ^ 64).

(** C36. An exception of [run] does not leave [sync_wait]: the local [Task] still has
    its handle when the stack is unwound, since only [wait] would have taken it
    out, and its destructor, which tests the handle, ends the program.  This is so
    when the ring cannot be enabled and when another thread runs the runtime. *)
Theorem sync_wait_panics s c f r sync_res :
  frames s !! c = Some f → context (world_of s) !! thread = None →
  runtimes (world_of s) !! this = Some r →
  run_throws r c sync_res →
  sync_wait cqe_nr wf sf fuel this thread c sync_res s = Crashed Panic.
Proof.
  intros Hc Hctx Hr Hrun. unfold sync_wait. rewrite bind_get, Hctx.
  assert (∃ s1 s2 r2, co_spawn None this c sync_res s = Done c s1 ∧
    in_world (allow_exit None this sync_res) s1 = Done tt s2 ∧ runtimes (world_of s2) !! this = Some r2 ∧
    run_thread_id_ r2 = run_thread_id_ r ∧ rt_ring_ r2 = rt_ring_ r) as (s1 & s2 & r2 & E1 & E2 & Hr2 & Ht & Hg).
  { destruct Hrun as [(Ht & He & _) | (t & Ht & Hne & He & Hs & Ha)].
    - eexists _, _, _. split; [by eapply spawn_fresh |].
      split; [apply allow_exit_fresh; [apply (with_rt_lookup (world (senv s))) | exact He] |].
      split; [apply with_rt_in_lookup | done].
    - unfold co_spawn.
      assert (aligned (promise_addr c)) as Hal.
      { split; [unfold promise_addr in *; lia |]. unfold promise_addr.
        replace (4096 * (Z.of_nat c + 1)) with (512 * (Z.of_nat c + 1) * 8) by lia. apply Z.mod_mul. lia. }
      eexists _, _, _. split.
      { erewrite bind_done by (eapply on_frame_keep; [exact Hc | reflexivity]).
        erewrite bind_done; [reflexivity |]. apply in_world_done.
        erewrite schedule_enabled by done. by apply schedule_msg_sync. }
      split.
      { apply in_world_done. unfold allow_exit. erewrite bind_done by (apply upd_rt_run; exact Hr).
        unfold wakeup_. rewrite bool_decide_eq_false_2 by done.
        erewrite bind_done by (apply get_rt_run, with_rt_lookup). simpl. rewrite He. simpl.
        erewrite bind_done by done. by erewrite bind_done by (by apply schedule_msg_sync). }
      split; [apply lookup_insert_eq | done]. }
  erewrite bind_done by exact E1.
  destruct (run_errors (invoke sf fuel) (handle sf fuel) cqe_nr wf s2 this thread r2 fuel Hr2) as [Hw He].
  destruct Hrun as [(Htn & _ & Hres) | (t & Htn & Hne & _)].
  - destruct (uring_enable_rings (ring_ (rt_ring_ r))) as [res u] eqn:Een.
    destruct (He res u) as (w' & Erun & _); [congruence | by rewrite Hg | done |].
    eapply task_block_throws; [exact E2 | exact Erun].
  - eapply task_block_throws; [exact E2 | apply (Hw t); congruence].
Qed.
End sync_wait.

(** ** Concrete runs *)

Lemma sync_wait_returns_witness :
  ∃ s', call_and_wait (λ _, 1) 1 2 30 0 5 0 demo_main demo_sys = Done (Returned 32) s' ∧ waited 0 5 demo_sys s'.
Proof.
  apply (sync_wait_returns 0 5 (λ _, 1) 1 2 30 demo_sys demo_main (Returned 32) 18
           (mkRing (mkSimRing 3 [] [] 4 []) 8 0) 61 false 0 (mkSimRing 3 [] [] 4 []));
    try reflexivity. lia.
Defined.

(** Another thread runs the runtime. *)
Definition demo_foreign : Sys SimRing Z Z :=
  mkSys (mkOEnv demo_world []) {[3%nat := mkFrame promise_new (Running (CoReturn (Returned 1))) []]} 4 [].

Lemma sync_wait_panics_witness :
  sync_wait (λ _, 1) 1 2 7 0 5 3 0 demo_foreign = Crashed Panic.
Proof.
  apply (sync_wait_panics 0 5 (λ _, 1) 1 2 7 demo_foreign 3
           (mkFrame promise_new (Running (CoReturn (Returned 1))) []) demo_rt0 0); try reflexivity.
  right. exists 9%nat. split_and!; [done | lia | done | lia | vm_compute; reflexivity].
Defined.
