(* ===== verification/SystemOps.v ===== *)
(** * Coroutines that await operations ([System.v])

    Programs on one runtime that also await asynchronous operations, while the kernel
    completes these in any order.  [sound] is the invariant: ownership of the frames
    ([SystemInv.v]), the state of every awaited operation ([OpStatesProps.v]), and
    [pending_works_] as the number of waiting coroutines and outstanding
    operations.  It follows that the loop does not leave before all coroutines have
    completed. *)

From stdpp Require Import base numbers list gmap.
From S2P Require Import Prelude Utils WorkType Ring Runtime OpStates OpStatesProps OpShape Coro System.
From S2P Require Import SystemInv SystemProps.

Set Warnings "-register-all".

(** ** Operations *)

Section operations.
Context {V : Type}.

(** Links have operations. *)
Inductive full_links : sender V → Prop :=
  | full_op o : full_links (OpSender o)
  | full_flagged F s : full_links s → full_links (FlaggedOpSender F s)
  | full_par k ss : (is_Some (link_ k) → ss ≠ []) → Forall full_links ss → full_links (ParallelSender k ss).

Lemma built_full t : ∀ s, full_links s → built s t → no_empty_link t.
Proof.
  induction t as [o st | F t IH | p cs IH] using opstate_tree_ind; intros s Hf Hb; [constructor | |].
  - inversion Hb; subst. inversion Hf; subst. constructor. eauto.
  - apply built_par_inv in Hb as (ss & -> & Hss). inversion Hf as [| | ? ? Hl Hfs]; subst. constructor.
    + intros Hk ->. apply Forall2_nil_inv_r in Hss as ->. by apply Hl.
    + clear Hl Hf. revert ss Hss Hfs. induction IH as [|c cs Hc _ IHcs]; intros ss Hss Hfs; [constructor |].
      inversion Hss; subst. inversion Hfs; subst. constructor; eauto.
Qed.

(** When all results are there, what is left are notifications. *)
Lemma alive_count (t : opstate V) : Forall leaf_done (leaves t) → length (alive_leaves t) = live_count t.
Proof.
  unfold live_count. induction t as [o st | F t IH | p cs IH] using opstate_tree_ind; simpl; [| auto |].
  - destruct st as [| | v [] |]; simpl; intros Hd; inversion Hd as [|? ? Hl]; subst; by try destruct Hl.
  - induction IH as [|c cs Hc _ IHcs]; simpl; [done |]. intros [H1 H2]%Forall_app.
    rewrite filter_app, !length_app. rewrite Hc, IHcs by done. done.
Qed.

Lemma none_live (t : opstate V) : started t → live_count t = 0%nat → Forall leaf_done (leaves t).
Proof.
  unfold live_count. induction t as [o st | F t IH | p cs IH] using opstate_tree_ind; simpl; intros Hs Hl;
    inversion Hs as [? ? Hu | | ? ? _ Hcs]; subst; [| auto |].
  - destruct st; try done. by repeat constructor.
  - clear Hs. induction IH as [|c cs Hc _ IHcs]; simpl in *; [constructor |]. inversion Hcs; subst.
    rewrite filter_app, length_app in Hl. apply Forall_app. split; [apply Hc | apply IHcs]; (done || lia).
Qed.
End operations.

(** ** Frames are numbered upwards *)

Section mono.
Context {U T V : Type} `{Uring U}.
Implicit Types s : Sys U T V.

Definition grows_frames {A} (m : ST (Sys U T V) A) : Prop :=
  ∀ s a s', m s = Done a s' → (next_frame s ≤ next_frame s')%nat.

Lemma grows_bind {A B} (m : ST (Sys U T V) A) (k : A → ST (Sys U T V) B) :
  grows_frames m → (∀ a, grows_frames (k a)) → grows_frames (m ≫= k).
Proof.
  intros Hm Hk s b s' E. apply bind_inv in E as (a & s1 & E1 & E2). apply Hm in E1. apply Hk in E2. lia.
Qed.
Lemma grows_ret {A} (a : A) : grows_frames (mret a).
Proof. by intros s a' s' [= <- <-]. Qed.
Lemma grows_crashed {A} c : grows_frames (A := A) (crashed c).
Proof. done. Qed.
Lemma grows_throw {A} e : grows_frames (A := A) (throw e).
Proof. done. Qed.
Lemma grows_get_frame id : grows_frames (get_frame id).
Proof. intros s f s'. unfold get_frame. rewrite bind_get. destruct (frames s !! id); by intros [= <- <-]. Qed.
Lemma grows_set_frame id f : grows_frames (set_frame id f).
Proof. by intros s [] s' [= <-]. Qed.
Lemma grows_in_world {A} (m : ST (World U) A) : grows_frames (in_world m).
Proof. intros s a s'. unfold in_world, zoom. by destruct (m (world_of s)); intros [= <- <-]. Qed.
Lemma grows_on_env {A} (m : ST (OEnv U V) A) : grows_frames (on_env m).
Proof. intros s a s'. unfold on_env, zoom. by destruct (m (senv s)); intros [= <- <-]. Qed.
Lemma grows_modify f : (∀ s, next_frame (f s) = next_frame s) → grows_frames (modify f).
Proof. intros Hf s [] s' [= <-]. by rewrite Hf. Qed.
Lemma grows_call_coro b : grows_frames (call_coro b).
Proof. intros s id s'. unfold call_coro. rewrite bind_get. intros [= <- <-]. simpl. lia. Qed.

Create HintDb grows.
Hint Resolve grows_ret grows_crashed grows_throw grows_get_frame grows_set_frame grows_in_world grows_on_env
  grows_call_coro : grows.
Hint Extern 1 (grows_frames (modify _)) => by apply grows_modify : grows.

Ltac grows_step :=
  first [ solve [eauto with grows] | apply grows_bind; [| intros ?]
        | match goal with |- grows_frames (match ?x with _ => _ end) => destruct x end ].

Lemma grows_on_frame {A} id (m : ST (frame T) A) : grows_frames (on_frame id m).
Proof.
  unfold on_frame. apply grows_bind; [auto with grows |]. intros f.
  destruct (m (Some (promise_ f))) as [a [p|] | |]; repeat grows_step.
Qed.
Lemma grows_set_code id c : grows_frames (set_code id c).
Proof. unfold set_code. repeat grows_step. Qed.
Lemma grows_set_tasks id ts : grows_frames (set_tasks id ts).
Proof. unfold set_tasks. repeat grows_step. Qed.
Hint Resolve grows_on_frame grows_set_code grows_set_tasks : grows.

Lemma grows_call_all this cbs : grows_frames (call_all this cbs).
Proof. induction cbs as [|cb cbs IH]; simpl; unfold task_awaiter_invoke; repeat grows_step. Qed.
Hint Resolve grows_call_all : grows.

Lemma grows_exec sf this id : grows_frames (exec sf this id).
Proof.
  unfold exec. apply grows_bind; [auto with grows |]. intros f. destruct (code_ f) as [[] | | | |];
    unfold leave_body, final_suspend, coro_await_suspend, coro_await_resume, spawn_task, co_spawn_here, co_spawn,
      task_await_suspend, release_task, task_await_resume, detach_task, switch_await_suspend, sender_await_suspend,
      sender_await_resume; repeat grows_step.
Qed.

Lemma grows_resume sf this fuel : ∀ h, grows_frames (resume sf fuel this h).
Proof.
  induction fuel as [|fuel IH]; intros [| | id]; simpl; auto with grows.
  apply grows_bind; [apply grows_exec | auto].
Qed.
End mono.

(** ** The invariant *)

Section sound.
Context {U T V : Type} `{UringLaws U}.
Context (this root : nat) (d : Z * bool) (sf fuel limit : nat).
(** Turns enough for links to wait for room in the queue. *)
Hypothesis Hsf : (reserve_turns U d.1 ≤ sf)%nat.
Implicit Types (s : Sys U T V) (r : Runtime U) (q : list nat) (f : Frame T V) (fs : gmap nat (Frame T V)).

(** Programs that stay on their runtime and whose operations are well formed wherever
    they live among the first [limit] frames. *)
Fixpoint local_body (b : Body T V) : Prop :=
  match b with
  | CoReturn _ => True
  | AwaitCoro child k => local_body child ∧ ∀ o, local_body (k o)
  | SpawnTask rt child k => (rt = None ∨ rt = Some this) ∧ local_body child ∧ local_body k
  | AwaitTask _ k => ∀ o, local_body (k o)
  | DetachTask _ k => local_body k
  | SwitchTo rt k => rt = this ∧ local_body k
  | AwaitOp s k =>
      (∀ id, (id < limit)%nat → sender_ok d (s (awaiter_addr id)) ∧ full_links (s (awaiter_addr id))) ∧
      ∀ v, local_body (k v)
  end.

(** The operation that coroutine [id] awaits. *)
Record op_sound (id : nat) (a : SenderAwaiter.SenderAwaiter (OpStates.value V)) (t : opstate V) : Prop := {
  os_node : node_ok this d None t;
  os_started : started t;
  os_links : ∃ snd, full_links snd ∧ built snd t;
  os_result : SenderAwaiter.result_ a = delivered t;
  os_handle : SenderAwaiter.result_ a = None → SenderAwaiter.handle_ a = Handle id
}.

Definition code_sound (id : nat) (c : Code T V) : Prop :=
  match c with
  | Running b => local_body b
  | InCoro _ k | InTask _ _ k => ∀ o, local_body (k o)
  | InOp a t k => op_sound id a t ∧ ∀ v, local_body (k v)
  | AtFinal => True
  end.

(** Operations submitted and not finished, and coroutines waiting for tasks. *)
Definition outstanding s : nat := (map_sum (load live_count) (frames s) + length (orphans s))%nat.

(** [owed]: completions whose pending work is still to be taken off the counter. *)
Record sound s r q (cur : option nat) (owed : Z) : Prop := {
  so_rt : on_rt this s r q;
  so_inv : ∃ R, inv this root (frames s) R cur q;
  so_below : below (frames s) (next_frame s);
  so_dims : dims this (senv s) = Some d;
  so_code id f : frames s !! id = Some f → code_sound id (code_ f);
  so_pending : u64 (pending_works_ r) = u64 (Z.of_nat (outstanding s) + owed)
}.

(** *** Steps without operations *)

Lemma code_sound_insert fs j f' id f :
  (∀ id f, fs !! id = Some f → code_sound id (code_ f)) → code_sound j (code_ f') →
  <[j := f']> fs !! id = Some f → code_sound id (code_ f).
Proof. intros Hfs Hf' [[<- <-] | [_ Hf]]%lookup_insert_Some; eauto. Qed.

Lemma code_sound_delete fs j id f :
  (∀ id f, fs !! id = Some f → code_sound id (code_ f)) → delete j fs !! id = Some f → code_sound id (code_ f).
Proof. intros Hfs [_ Hf]%lookup_delete_Some; eauto. Qed.

Lemma trans_code id fs nx q h fs' nx' q' f :
  trans this id fs nx q h fs' nx' q' → fs !! id = Some f → plain_head this f →
  (∀ id f, fs !! id = Some f → code_sound id (code_ f)) →
  ∀ j g, fs' !! j = Some g → code_sound j (code_ g).
Proof.
  intros Ht Hid0 Hpl Hfs. pose proof (Hfs _ _ Hid0) as Hf0.
  destruct Ht as [fs nx q f1 out h st cbs Hid Ec Hn Hfn | fs nx q f1 v Hid Ec Hn Hs | fs nx q f1 child k Hid Ec
    | fs nx q f1 c k g out Hid Ec Hg Et | fs nx q f1 rt child k Hid Ec | fs nx q f1 i k Hid Ec Ei
    | fs nx q f1 i k t g Hid Ec Ht Hg Hs | fs nx q f1 i k t g Hid Ec Ht Hg Hs | fs nx q f1 t rt k g out Hid Ec Hg Et
    | fs nx q f1 i k t g Hid Ec Ht Hg Hs | fs nx q f1 i k t g Hid Ec Ht Hg Hs _ | fs nx q f1 rt k Hid Ec
    | fs nx q f1 s k t r Hid Ec | fs nx q f1 a t k v Hid Ec Hv]; assert (f1 = f) as -> by congruence;
    try (unfold plain_head in Hpl; by rewrite Ec in Hpl); rewrite Ec in Hf0; simpl in Hf0;
    try (pose proof (Hfs _ _ Hg)); intros j g';
    repeat first [apply code_sound_insert | apply code_sound_delete | intros ? ?]; try naive_solver.
Qed.

Lemma exec_plain_sound s r q id f owed h s' :
  sound s r q (Some id) owed → frames s !! id = Some f → plain_head this f → exec sf this id s = Done h s' →
  ∃ r' q', sound s' r' q' (next_cur h) owed ∧ h ≠ NullHandle.
Proof.
  intros [Hrt [R Hi] Hb Hd Hc Hp] Hid Hpl E.
  destruct (exec_plain this sf root R s r id f q Hi Hrt Hid Hb Hpl) as [(h' & fs' & nx' & q' & Ex & Ht) | (c & Ex & _)];
    rewrite Ex in E; simplify_eq.
  destruct (trans_inv _ _ _ _ _ _ _ _ _ _ R Ht Hi Hb) as (R' & Hi' & Hb' & Hh).
  pose proof (trans_load _ live_count _ _ _ _ _ _ _ _ R _ f Ht Hi Hb Hid Hpl) as Hw.
  destruct Hrt as [Hr Hq]. eexists _, q'. split; [| done]. split.
  - split; [apply with_rt_lookup | done].
  - eauto.
  - done.
  - unfold dims. simpl. rewrite lookup_insert_eq. unfold dims in Hd. simpl in Hr. rewrite Hr in Hd. simpl in *.
    by destruct (pend_delta f h =? 0).
  - by eapply trans_code.
  - unfold outstanding. cbn [stepped frames orphans]. unfold outstanding in Hp.
    replace (Z.of_nat (map_sum (load live_count) fs' + length (orphans s)) + owed)
      with (Z.of_nat (map_sum (load live_count) (frames s) + length (orphans s)) + owed + pend_delta f h) by lia.
    rewrite <- (wrap_add_l _ (Z.of_nat _ + owed)), <- Hp, wrap_add_l. destruct (Z.eqb_spec (pend_delta f h) 0) as [-> |]; simpl.
    + by rewrite Z.add_0_r.
    + apply wrap_wrap.
Qed.

(** *** Steps with operations *)

Lemma env_moved s r q e' z :
  on_rt this s r q → moves this z (senv s) e' → works_of this (world e') = works_of this (world (senv s)) →
  ∃ r', runtimes (world e') !! this = Some r' ∧ local_queue_ r' = promise_addr <$> q ∧
    u64 (pending_works_ r') = u64 (pending_works_ r + z) ∧ dims this e' = dims this (senv s).
Proof.
  intros [Hr Hq] [(z1 & z2 & E1 & E2 & Ez) Hd] Hw. unfold pend, works_of in *. simpl in Hr. rewrite Hr in E1, Hw.
  destruct (runtimes (world e') !! this) as [r'|] eqn:E; simplify_eq/=. exists r'. split_and!; congruence.
Qed.

(** The counter, when [s] becomes a state with the environment of [e']. *)
Lemma pending_moved s r r' s' owed owed' z :
  u64 (pending_works_ r) = u64 (Z.of_nat (outstanding s) + owed) → u64 (pending_works_ r') = u64 (pending_works_ r + z) →
  Z.of_nat (outstanding s) + owed + z = Z.of_nat (outstanding s') + owed' →
  u64 (pending_works_ r') = u64 (Z.of_nat (outstanding s') + owed').
Proof. intros Hp -> <-. by rewrite <- wrap_add_l, Hp, wrap_add_l. Qed.

Lemma sound_pend s r q cur owed : sound s r q cur owed → is_Some (pend this (senv s)).
Proof. intros [[Hr _] _ _ _ _ _]. unfold pend. simpl in Hr. rewrite Hr. by eexists. Qed.

Lemma exec_op_start_sound s r q id f snd k owed h s' :
  sound s r q (Some id) owed → (next_frame s ≤ limit)%nat → frames s !! id = Some f →
  code_ f = Running (AwaitOp snd k) → exec sf this id s = Done h s' →
  ∃ r' q', sound s' r' q' (next_cur h) owed ∧ h ≠ NullHandle.
Proof.
  intros Hs Hlim Hid Ec E. pose proof (sound_pend _ _ _ _ _ Hs) as Hpe.
  destruct Hs as [Hrt [R Hi] Hb Hd Hc Hp]. pose proof (Hc _ _ Hid) as Hcf. rewrite Ec in Hcf. destruct Hcf as [Hsnd Hk].
  destruct (Hsnd id) as [Hok Hfl]; [pose proof (Hb _ _ Hid); lia |].
  set (t0 := connect None (snd (awaiter_addr id))).
  destruct (connect_ok this d _ None Hok) as [Hfr Hn].
  destruct (start_ok this d sf _ Hsf t0 (le_n _) None 0 (senv s) Hfr Hn Hpe Hd) as (t & rs & e' & Es & Hm & Hn' & Hst & Hdel).
  pose proof (start_quiet this _ _ _ _ _ _ _ _ _ Es) as Hq.
  assert (built (snd (awaiter_addr id)) t) as Hbt by (apply start_built in Es; apply Es, built_connect).
  destruct (env_moved s r q e' _ Hrt Hm Hq) as (r' & Hr' & Hq' & Hp' & Hd').
  unfold exec in E. rewrite (bind_done _ _ _ _ _ (get_frame_run _ _ _ Hid)), Ec in E. unfold sender_await_suspend in E.
  erewrite bind_done in E by (unfold on_env; apply zoom_done; exact Es). cbv beta iota in E.
  set (a := SenderAwaiter.mkSenderAwaiter (Handle id) rs []).
  assert (SenderAwaiter.await_suspend id rs SenderAwaiter.awaiter_new
          = Done (match rs with Some _ => false | None => true end) a) as Ea by (by destruct rs).
  rewrite Ea in E. erewrite bind_done in E by (by apply set_code_run).
  injection E as Eh <-.
  assert (h = match rs with Some _ => Handle id | None => NoopCoroutine end) as -> by (rewrite <- Eh; by destruct rs).
  pose proof (t_op_start this id (frames s) (next_frame s) q f snd k t rs Hid Ec) as Ht.
  destruct (trans_inv _ _ _ _ _ _ _ _ _ _ R Ht Hi Hb) as (R' & Hi' & Hb' & Hh).
  exists r', q. split; [| done]. split; simpl.
  - done.
  - eauto.
  - done.
  - by rewrite Hd'.
  - intros j g. apply code_sound_insert; [done |]. split; [| done]. split; try done. by eexists.
  - eapply pending_moved; [exact Hp | exact Hp' |]. unfold outstanding. simpl.
    pose proof (map_sum_update (load live_count) (frames s) id f (with_code f (InOp a t k)) Hid) as Hsum.
    unfold load at 2 4, with_code in Hsum. rewrite Ec in Hsum. simpl in Hsum. unfold with_code. lia.
Qed.

Lemma exec_op_take_sound s r q id f a t k owed h s' :
  sound s r q (Some id) owed → frames s !! id = Some f → code_ f = InOp a t k → exec sf this id s = Done h s' →
  ∃ r' q', sound s' r' q' (next_cur h) owed ∧ h ≠ NullHandle.
Proof.
  intros [Hrt [R Hi] Hb Hd Hc Hp] Hid Ec E. pose proof (Hc _ _ Hid) as Hcf. rewrite Ec in Hcf.
  destruct Hcf as [[Hn Hst (snd & Hfl & Hbt) Hres _] Hk].
  pose proof (cur_runnable _ _ _ _ _ _ _ Hi Hid) as Hrun. unfold runnable in Hrun. rewrite Ec in Hrun.
  apply bool_decide_eq_true_1 in Hrun as [v Hv].
  assert (Forall leaf_done (leaves t)) as Hdone.
  { apply (delivered_iff d t (no_wf _ _ _ _ Hn) (no_shape _ _ _ _ Hn) Hst (built_full t snd Hfl Hbt)). rewrite <- Hres. eauto. }
  unfold exec in E. rewrite (bind_done _ _ _ _ _ (get_frame_run _ _ _ Hid)), Ec in E. unfold sender_await_resume in E.
  assert (SenderAwaiter.await_resume a = Done v a) as Ea
    by (unfold SenderAwaiter.await_resume; rewrite bind_get; by rewrite Hv).
  rewrite Ea in E. erewrite bind_done in E by done. erewrite bind_done in E by (by apply set_code_run). injection E as <- <-.
  pose proof (t_op_take this id (frames s) (next_frame s) q f a t k v Hid Ec Hv) as Ht.
  destruct (trans_inv _ _ _ _ _ _ _ _ _ _ R Ht Hi Hb) as (R' & Hi' & Hb' & Hh).
  exists r, q. split; [| done]. split; simpl; [done | eauto | done | done | |].
  - intros j g. apply code_sound_insert; [done |]. simpl. auto.
  - rewrite Hp. do 2 f_equal. unfold outstanding. simpl. rewrite length_app, (alive_count t Hdone).
    pose proof (map_sum_update (load live_count) (frames s) id f (with_code f (Running (k v))) Hid) as Hsum.
    unfold load at 2 4, with_code in Hsum. rewrite Ec in Hsum. simpl in Hsum. unfold with_code. lia.
Qed.

Lemma exec_sound s r q id owed h s' :
  sound s r q (Some id) owed → (next_frame s ≤ limit)%nat → exec sf this id s = Done h s' →
  ∃ r' q', sound s' r' q' (next_cur h) owed ∧ h ≠ NullHandle.
Proof.
  intros Hs Hlim E. pose proof Hs as [Hrt [R Hi] Hb Hd Hc Hp].
  destruct (proj1 (inv_active _ _ _ _ _ _ Hi id)) as (f & Hid & _); [by left |].
  pose proof (Hc _ _ Hid) as Hcf.
  destruct (code_ f) as [[out | child k | rt child k | i k | i k | rt k | sd k] | c k | t rt k | a t k |] eqn:Ec;
    try (eapply exec_plain_sound; [exact Hs | exact Hid | unfold plain_head; rewrite Ec; simpl in Hcf; tauto | exact E]).
  - by eapply exec_op_start_sound.
  - by eapply exec_op_take_sound.
Qed.

Lemma resume_sound n : ∀ s r q h owed s',
  sound s r q (next_cur h) owed → h ≠ NullHandle → resume sf n this h s = Done tt s' → (next_frame s' ≤ limit)%nat →
  ∃ r' q', sound s' r' q' None owed.
Proof.
  induction n as [|n IH]; intros s r q [| | id] owed s' Hs Hh E Hlim; simpl in E; try done;
    try (injection E as <-; by exists r, q).
  apply bind_inv in E as (h & s1 & E1 & E2).
  assert (next_frame s ≤ limit)%nat as Hlim0.
  { pose proof (grows_exec _ _ _ _ _ _ E1). pose proof (grows_resume _ _ _ _ _ _ _ E2). lia. }
  destruct (exec_sound _ _ _ _ _ _ _ Hs Hlim0 E1) as (r1 & q1 & Hs1 & Hh1). by eapply IH.
Qed.

(** *** Completions *)

(** The frame of an awaited operation changes; it wakes up when its result is there. *)
Lemma op_frame_keeps fs R q id f a a' t t' (k : OpStates.value V → Body T V) :
  inv this root fs R None q → fs !! id = Some f → code_ f = InOp a t k → SenderAwaiter.result_ a = None →
  inv this root (<[id := with_code f (InOp a' t' k)]> fs) R
    (match SenderAwaiter.result_ a' with Some _ => Some id | None => None end) q.
Proof.
  intros Hi Hid Ec Hres. assert (id ∉ q) as Hnq.
  { intros Hin. destruct (proj1 (inv_active _ _ _ _ _ _ Hi id) Hin) as (g & Hg & Hr). simplify_eq.
    unfold runnable in Hr. rewrite Ec, Hres in Hr. by rewrite bool_decide_eq_false_2 in Hr by (by intros [? [=]]). }
  pose proof (inv_nodup _ _ _ _ _ _ Hi) as Hnd. unfold active in Hnd. simpl in Hnd.
  pose proof (inv_frame _ _ _ _ _ _ Hi _ _ Hid) as Hfr.
  apply (change_one_keeps this root fs R None q id f); try done.
  - intros j ρ Hp. unfold points, with_code. simpl. rewrite Ec. destruct ρ; naive_solver.
  - intros ρ Hρ. pose proof (inv_state _ _ _ _ _ _ Hi id f ρ Hid Hρ) as Hs. unfold state_ok, is_final in *.
    by rewrite Ec in Hs.
  - unfold frame_ok in *. by rewrite Ec in Hfr.
  - unfold is_final. by rewrite Ec.
  - destruct (SenderAwaiter.result_ a'); [by apply NoDup_cons | done].
  - intros j Hj. unfold active. destruct (SenderAwaiter.result_ a'); set_solver.
  - unfold runnable. cbn [with_code code_]. rewrite bool_decide_eq_true. unfold active.
    destruct (SenderAwaiter.result_ a') as [v|]; cbn [option_list app]; split; intros Hx;
      [by eexists | set_solver | done | by destruct Hx as [? [=]]].
Qed.

(** A step that leaves [result_] alone: nobody wakes up. *)
Lemma op_frame_same fs R q id f a t t' (k : OpStates.value V → Body T V) :
  inv this root fs R None q → fs !! id = Some f → code_ f = InOp a t k →
  inv this root (<[id := with_code f (InOp a t' k)]> fs) R None q.
Proof.
  intros Hi Hid Ec. pose proof (inv_frame _ _ _ _ _ _ Hi _ _ Hid) as Hfr.
  assert (runnable fs (with_code f (InOp a t' k)) = runnable fs f) as Hrun by (unfold runnable; by rewrite Ec).
  apply (change_one_keeps this root fs R None q id f); try done.
  - intros j ρ Hp. unfold points, with_code. simpl. rewrite Ec. destruct ρ; naive_solver.
  - intros ρ Hρ. pose proof (inv_state _ _ _ _ _ _ Hi id f ρ Hid Hρ) as Hs. unfold state_ok, is_final in *.
    by rewrite Ec in Hs.
  - unfold frame_ok in *. by rewrite Ec in Hfr.
  - unfold is_final. by rewrite Ec.
  - by apply Hi.
  - rewrite (inv_active _ _ _ _ _ _ Hi), (runnable_ext fs) by done. rewrite Hrun, Hid. naive_solver.
Qed.

Lemma completion_sound s r q id f a t k path o st c fin s' :
  sound s r q None 0 → frames s !! id = Some f → code_ f = InOp a t k →
  leaf_at path t = Some (o, st) → accepts (o, st) c = true →
  handle_in_frame sf fuel this id path c s = Done fin s' → (next_frame s' ≤ limit)%nat →
  ∃ r' q', sound s' r' q' None (Z.b2z fin).
Proof.
  intros Hs Hid Ec Hl Hacc E Hlim. pose proof (sound_pend _ _ _ _ _ Hs) as Hpe.
  destruct Hs as [Hrt [R Hi] Hb Hd Hc Hp]. pose proof (Hc _ _ Hid) as Hcf. rewrite Ec in Hcf.
  destruct Hcf as [[Hn Hst (snd & Hfl & Hbt) Hres Hhd] Hk].
  destruct (handle_ok this d c path None t o st (senv s) Hn Hst Hl Hacc Hpe)
    as (t' & rs & fin' & e' & Eh & Hm & Hn' & Hst' & Hstep & _ & Hlive).
  pose proof (handle_quiet this _ _ _ _ _ _ _ Eh) as Hq.
  assert (built snd t') as Hbt' by (apply handle_built in Eh; auto).
  destruct (env_moved s r q e' _ Hrt Hm Hq) as (r' & Hr' & Hq' & Hp' & Hd').
  unfold handle_in_frame in E. rewrite (bind_done _ _ _ _ _ (get_frame_run _ _ _ Hid)), Ec in E.
  erewrite bind_done in E by (unfold on_env; apply zoom_done; exact Eh). cbv beta iota in E.
  assert (∀ a', u64 (pending_works_ r') = u64 (Z.of_nat (outstanding (mkSys e' (<[id := with_code f (InOp a' t' k)]> (frames s))
              (next_frame s) (orphans s))) + Z.b2z fin')) as Hcount.
  { intros a'. eapply pending_moved; [exact Hp | exact Hp' |]. unfold outstanding. simpl.
    pose proof (map_sum_update (load live_count) (frames s) id f (with_code f (InOp a' t' k)) Hid) as Hsum.
    unfold load at 2 4, with_code in Hsum. rewrite Ec in Hsum. simpl in Hsum. unfold with_code. destruct fin'; simpl in *; lia. }
  assert (∀ a', SenderAwaiter.result_ a' = delivered t' → (SenderAwaiter.result_ a' = None → SenderAwaiter.handle_ a' = Handle id) →
    ∀ j g, <[id := with_code f (InOp a' t' k)]> (frames s) !! j = Some g → code_sound j (code_ g)) as Hcode.
  { intros a' Ha' Hh' j g. apply code_sound_insert; [done |]. split; [| done]. split; try done. by exists snd. }
  assert (below (<[id := with_code f (InOp a t' k)]> (frames s)) (next_frame s)) as Hb' by (apply below_insert; eauto).
  destruct rs as [v|].
  - destruct Hstep as [Hnone Hsome]. assert (SenderAwaiter.result_ a = None) as Hra by congruence.
    set (a' := SenderAwaiter.mkSenderAwaiter NullHandle (Some v) (SenderAwaiter.resumed a ++ [id])).
    assert (SenderAwaiter.handle_result_ v a = Done tt a') as Ea.
    { specialize (Hhd Hra). destruct a as [ah ar al]. simpl in *. subst. done. }
    rewrite Ea in E. erewrite bind_done in E by (by apply set_code_run). rewrite (Hhd Hra) in E.
    apply bind_inv in E as ([] & s1 & E1 & E2). injection E2 as -> ->.
    eapply (resume_sound fuel _ r' q (Handle id)); [| done | exact E1 | done].
    split; simpl; [done | | | by rewrite Hd' | by apply Hcode | apply (Hcount a')].
    + exists R. by apply (op_frame_keeps (frames s) R q id f a a' t t' k).
    + apply below_insert; eauto.
  - erewrite bind_done in E by (by apply set_code_run). injection E as -> <-. exists r', q.
    split; simpl; [done | | done | by rewrite Hd' | | apply (Hcount a)].
    + exists R. by apply (op_frame_same (frames s) R q id f a t t' k).
    + apply Hcode; [| done]. rewrite Hres. by rewrite Hstep.
Qed.

(** [process_cqe_] takes a finished operation off the counter. *)
Definition account (fin : bool) : ST (Sys U T V) unit :=
  if fin then in_world (resume_work_internal (Some this) this) else mret tt.

Lemma account_sound s r q fin s' :
  sound s r q None (Z.b2z fin) → account fin s = Done tt s' → ∃ r', sound s' r' q None 0.
Proof.
  intros [Hrt Hi Hb Hd Hc Hp] E. destruct fin; simpl in *; [| injection E as <-; by exists r].
  destruct Hrt as [Hr Hq]. rewrite (proj2 (pend_here this s r Hr)) in E. injection E as <-.
  exists (set_pending (u64 (pending_works_ r - 1)) r). split; try done.
  - split; [apply with_rt_lookup | done].
  - unfold dims in *. simpl in *. rewrite lookup_insert_eq. by rewrite Hr in Hd.
  - simpl. rewrite wrap_wrap, <- wrap_sub_l, Hp, wrap_sub_l. f_equal.
    unfold outstanding. simpl. lia.
Qed.

Lemma leaf_handle_world (o : op V) st c : preserves (world (U := U)) (leaf_handle o st c).
Proof.
  assert (∀ x : call V, preserves (world (U := U)) (add_call x)) as Hadd by (by intros x e [] e' [= <-]).
  unfold leaf_handle. cbv zeta. destruct (handle_kind_ o); repeat preserves_step.
Qed.

Lemma orphan_sound s r q i o st c fin s' :
  sound s r q None 0 → orphans s !! i = Some (o, st) → accepts (o, st) c = true →
  handle_orphan i o st c s = Done fin s' → ∃ r', sound s' r' q None (Z.b2z fin).
Proof.
  intros Hs Ho Hacc E. pose proof (sound_pend _ _ _ _ _ Hs) as Hpe. destruct Hs as [Hrt Hi Hb Hd Hc Hp].
  unfold handle_orphan, on_env in E. apply bind_inv in E as ([[st' rs] fin'] & s1 & E1 & E).
  unfold zoom in E1. destruct (leaf_handle o st c (senv s)) as [x e' | |] eqn:El; [| done..]. injection E1 as -> <-.
  cbv beta iota in E. injection E as -> <-.
  assert (moves this 0 (senv s) e') as Hm.
  { assert (world e' = world (senv s)) as Hw.
    { revert El. apply (leaf_handle_world o st c). }
    pose proof (moves_refl this (senv s) Hpe) as Hm. unfold moves, pend, dims in *. by rewrite Hw. }
  destruct (env_moved s r q e' 0 Hrt Hm (leaf_handle_quiet this _ _ _ _ _ _ El)) as (r' & Hr' & Hq' & Hp' & Hd').
  exists r'. split; simpl; try done; [by rewrite Hd' |].
  eapply pending_moved; [exact Hp | exact Hp' |]. unfold outstanding. simpl.
  pose proof (lookup_lt_Some _ _ _ Ho). destruct fin; simpl.
  - rewrite length_delete by eauto. lia.
  - rewrite length_insert. lia.
Qed.

(** ** Runs *)

(** The loop invokes the first queued work; the kernel completes an operation of a
    coroutine, or one whose coroutine has gone on; the loop does something else to
    its runtime, such as submitting. *)
Inductive sys_step : Sys U T V → Sys U T V → Prop :=
  | step_work s r work ws s' :
      runtimes (world_of s) !! this = Some r → local_queue_ r = work :: ws →
      invoke sf fuel this work (with_rt_in s this (set_local ws r)) = Done tt s' → sys_step s s'
  | step_complete s id f a t k path o st c fin s1 s' :
      frames s !! id = Some f → code_ f = InOp a t k → leaf_at path t = Some (o, st) → accepts (o, st) c = true →
      handle_in_frame sf fuel this id path c s = Done fin s1 → account fin s1 = Done tt s' → sys_step s s'
  | step_orphan s i o st c fin s1 s' :
      orphans s !! i = Some (o, st) → accepts (o, st) c = true →
      handle_orphan i o st c s = Done fin s1 → account fin s1 = Done tt s' → sys_step s s'
  | step_idle s r r' w' :
      runtimes (world_of s) !! this = Some r → runtimes w' !! this = Some r' →
      local_queue_ r' = local_queue_ r → pending_works_ r' = pending_works_ r →
      ring_dims (rt_ring_ r') = ring_dims (rt_ring_ r) → sys_step s (put_world w' s).

Lemma grows_step_account fin : grows_frames (account fin).
Proof. destruct fin; [apply grows_in_world | apply grows_ret]. Qed.

Lemma sys_step_grows s s' : sys_step s s' → (next_frame s ≤ next_frame s')%nat.
Proof.
  intros [s0 r work ws s1 _ _ E | s0 id f a t k path o st c fin s1 s2 Hid Ec _ _ E Ea
         | s0 i o st c fin s1 s2 _ _ E Ea | s0 r r' w' _ _ _ _ _]; [| | |done].
  - unfold invoke in E. apply grows_resume in E. exact E.
  - apply grows_step_account in Ea. etransitivity; [| exact Ea]. unfold handle_in_frame in E.
    rewrite (bind_done _ _ _ _ _ (get_frame_run _ _ _ Hid)), Ec in E.
    apply bind_inv in E as ([[t' rs] fin'] & s3 & E1 & E). apply grows_on_env in E1. etransitivity; [exact E1 |].
    destruct rs as [v|]; [destruct (SenderAwaiter.handle_result_ v a) as [? a' | |]; try done |].
    + apply bind_inv in E as ([] & s4 & E2%grows_set_code & E). apply bind_inv in E as ([] & s5 & E3%grows_resume & E).
      injection E as _ <-. lia.
    + apply bind_inv in E as ([] & s4 & E2%grows_set_code & E). injection E as _ <-. lia.
  - apply grows_step_account in Ea. etransitivity; [| exact Ea]. unfold handle_orphan in E.
    apply bind_inv in E as ([[st' rs] fin'] & s3 & E1%grows_on_env & E). injection E as _ <-. exact E1.
Qed.

Lemma sys_step_sound s s' :
  sys_step s s' → (next_frame s' ≤ limit)%nat → (∃ r q, sound s r q None 0) → ∃ r q, sound s' r q None 0.
Proof.
  intros Hst Hlim (r0 & q & Hs). pose proof Hs as [[Hr0 Hq0] [R Hi] Hb Hd Hc Hp].
  destruct Hst as [s r work ws s' Hr Hw E | s id f a t k path o st c fin s1 s' Hid Ec Hl Hacc E Ea
                  | s i o st c fin s1 s' Ho Hacc E Ea | s r r' w' Hr Hr' Hlq Hpd Hdm].
  - assert (r0 = r) as -> by congruence. rewrite Hq0 in Hw. destruct q as [|id q]; simplify_eq/=. unfold invoke in E. rewrite frame_at_addr in E.
    eapply (resume_sound fuel _ (set_local (promise_addr <$> q) r) q (Handle id)); [| done | exact E | done].
    split; try done.
    + split; [apply with_rt_lookup | done].
    + exists R. destruct Hi as [? ? ? ? ? ? Ha Hnd]. by split.
    + unfold dims in *. simpl in *. rewrite lookup_insert_eq. by rewrite Hr in Hd.
  - assert (next_frame s1 ≤ limit)%nat by (apply grows_step_account in Ea; lia).
    destruct (completion_sound _ _ _ _ _ _ _ _ _ _ _ _ _ _ Hs Hid Ec Hl Hacc E) as (r1 & q1 & Hs1); [done |].
    destruct (account_sound _ _ _ _ _ Hs1 Ea) as (r2 & Hs2). eauto.
  - destruct (orphan_sound _ _ _ _ _ _ _ _ _ Hs Ho Hacc E) as (r1 & Hs1).
    destruct (account_sound _ _ _ _ _ Hs1 Ea) as (r2 & Hs2). eauto.
  - assert (r0 = r) as -> by congruence. exists r', q. split; try done.
    + split; [exact Hr' | by rewrite Hlq].
    + eauto.
    + unfold dims in *. simpl in *. rewrite Hr'. rewrite Hr in Hd. simpl in *. by rewrite Hdm.
    + simpl. by rewrite Hpd.
Qed.

(** A process in which the coroutine [root] has just been spawned on the runtime
    [this]. *)
Record spawned (b : Body T V) s : Prop := {
  sp_frames : frames s = {[root := mkFrame (mark_running promise_new) (Running b) []]};
  sp_next : next_frame s = S root;
  sp_orphans : orphans s = [];
  sp_rt : ∃ r, runtimes (world_of s) !! this = Some r ∧ local_queue_ r = [promise_addr root] ∧ pending_works_ r = 0 ∧
            ring_dims (rt_ring_ r) = d
}.

Lemma spawned_sound b s : local_body b → spawned b s → ∃ r q, sound s r q None 0.
Proof.
  intros Hb [Hf Hn Ho (r & Hr & Hq & Hp & Hd)]. exists r, [root]. split.
  - by split.
  - rewrite Hf. eexists. apply sync_start_inv.
  - intros j f. rewrite Hf, Hn, lookup_singleton_Some. intros [<- _]. lia.
  - unfold dims. simpl in *. rewrite Hr. simpl. by rewrite Hd.
  - intros id f. rewrite Hf, lookup_singleton_Some. by intros [<- <-].
  - unfold outstanding. rewrite Hp, Ho, map_sum_zero; [done |]. intros id f. rewrite Hf, lookup_singleton_Some.
    by intros [_ <-].
Qed.

Lemma rtc_sound s0 s :
  rtc sys_step s0 s → (next_frame s ≤ limit)%nat → (∃ r q, sound s0 r q None 0) → ∃ r q, sound s r q None 0.
Proof.
  assert (∀ s0 s, rtc sys_step s0 s → (next_frame s0 ≤ next_frame s)%nat) as Hgr.
  { intros s1 s2. induction 1 as [|x y z Hxy _ IH]; [done |]. apply sys_step_grows in Hxy. lia. }
  induction 1 as [|x y z Hxy Hyz IH]; intros Hlim Hs; [done |].
  apply IH; [done |]. eapply sys_step_sound; [exact Hxy | | done]. specialize (Hgr _ _ Hyz). lia.
Qed.

(** *** When no work is queued *)

(** All coroutines have ended: the frame of the coroutine given to [sync_wait] is
    left, with its result, and no operation is outstanding. *)
Definition completed s (out : outcome T) : Prop :=
  ∃ f, frames s = {[root := f]} ∧ code_ f = AtFinal ∧ state_ (promise_ f) = Zombie ∧
    take_result (Some (promise_ f)) = Done out None ∧ orphans s = [].

(** An operation has been submitted and is not finished. *)
Definition kernel_busy s : Prop :=
  orphans s ≠ [] ∨
  ∃ id f a t k l, frames s !! id = Some f ∧ code_ f = InOp a t k ∧ l ∈ leaves t ∧ live l = true.

(** The operations of a frame that are not finished. *)
Definition in_flight f : nat := match code_ f with InOp _ t _ => live_count t | _ => 0%nat end.

Lemma in_flight_busy s : (map_sum in_flight (frames s) + length (orphans s) ≠ 0)%nat → kernel_busy s.
Proof.
  intros Hne. destruct (orphans s) as [|x os] eqn:Eo; [| left; by rewrite Eo]. right. rewrite Nat.add_0_r in Hne.
  destruct (map_sum_pos in_flight (frames s) Hne) as (id & f & Hid & Hf). unfold in_flight in Hf.
  destruct (code_ f) as [| | | a t k |] eqn:Ec; try done. unfold live_count in Hf.
  destruct (filter (λ l, live l = true) (leaves t)) as [|l ls] eqn:El; [done |].
  assert (l ∈ filter (λ l, live l = true) (leaves t)) as [? ?]%list_elem_of_filter by (rewrite El; left). naive_solver.
Qed.

(** When no operation is in flight and no work is queued, all coroutines have
    ended. *)
Lemma idle_completed s r :
  sound s r [] None 0 → (map_sum in_flight (frames s) + length (orphans s) = 0)%nat →
  outstanding s = 0%nat ∧ ∃ out, completed s out.
Proof.
  intros [Hrt [R Hi] _ _ Hc _] [Hsum Ho]%Nat.eq_add_0.
  assert (∀ j f, frames s !! j = Some f → is_final f = true) as Hfin.
  { apply (all_final this root _ R Hi). intros j f a t k Hj Ec. pose proof (Hc _ _ Hj) as Hcf. rewrite Ec in Hcf.
    destruct Hcf as [[Hn Hst (snd & Hfl & Hbt) Hres _] _]. rewrite Hres.
    rewrite (delivered_iff d t (no_wf _ _ _ _ Hn) (no_shape _ _ _ _ Hn) Hst (built_full t snd Hfl Hbt)).
    apply none_live; [done |]. rewrite (map_sum_delete _ _ _ _ Hj) in Hsum. unfold in_flight in Hsum. rewrite Ec in Hsum. lia. }
  split.
  { unfold outstanding. rewrite Ho, map_sum_zero; [done |]. intros j f Hj. specialize (Hfin _ _ Hj).
    unfold is_final, load in *. by destruct (code_ f). }
  pose proof (only_root this root _ R Hi Hfin) as Hroot.
  destruct (proj2 (inv_dom _ _ _ _ _ _ Hi root)) as [f Hf]; [exists Root; by apply (inv_root _ _ _ _ _ _ Hi) |].
  destruct (Hroot _ _ Hf) as [_ (out & p & Hcl & Ep & Hz)]. exists out, f. split_and!; [| | done | |].
  - apply map_eq. intros j. destruct (decide (j = root)) as [-> | Hne]; [by rewrite Hf, lookup_singleton_eq |].
    rewrite lookup_singleton_ne by done. destruct (frames s !! j) as [g|] eqn:Hg; [| done].
    by destruct (Hroot _ _ Hg).
  - specialize (Hfin _ _ Hf). unfold is_final in Hfin. by destruct (code_ f).
  - rewrite Ep. destruct Hcl as [E1 E2]. destruct p as [st un ex va]. simpl in *. subst. by destruct out.
  - by apply nil_length_inv.
Qed.

(** Every unfinished operation is counted. *)
Lemma in_flight_le fs : (map_sum in_flight fs ≤ map_sum (load live_count) fs)%nat.
Proof.
  induction fs as [|i f fs Hi IH] using map_ind; [done |]. rewrite !map_sum_insert by done.
  unfold in_flight at 1, load at 1. destruct (code_ f); lia.
Qed.

Lemma exit_completed s r :
  sound s r [] None 0 → pending_works_ r = 0 → Z.of_nat (outstanding s) < 2 ^ 64 → ∃ out, completed s out.
Proof.
  intros Hs Hp Hlt. pose proof (so_pending _ _ _ _ _ Hs) as Hpd. rewrite Hp, Z.add_0_r, !wrap_small in Hpd by lia.
  apply (idle_completed s r Hs). unfold outstanding in Hpd. pose proof (in_flight_le (frames s)). lia.
Qed.

(** C5. The loop leaves when everything is done and sleeps only when there is something
    to wait for.  A program of coroutines and asynchronous operations on one
    runtime, whose operations the kernel completes in any order and number of
    steps: whenever no work is queued, either the counter of pending works is
    zero, and then all coroutines have completed (the only frame left is that of
    the coroutine given to [sync_wait], with its result, and no operation is
    outstanding, not even a zero-copy notification); or it is not, and then an
    operation is in the hands of the kernel.  [local_body] asks [sender_ok] of
    the operations awaited in the first [limit] frames, and no more frames are
    created; [sf] is fuel that suffices for waiting on the submission queue; fewer
    than 2^64 works are pending. *)
Theorem loop_exits_or_waits b s0 s r :
  local_body b → spawned b s0 → rtc sys_step s0 s → (next_frame s ≤ limit)%nat →
  runtimes (world_of s) !! this = Some r → local_queue_ r = [] →
  0 ≤ pending_works_ r < 2 ^ 64 → Z.of_nat (outstanding s) < 2 ^ 64 →
  if pending_works_ r =? 0 then ∃ out, completed s out else kernel_busy s.
Proof.
  intros Hb Hsp Hrtc Hlim Hr Hq Hrange Hlt.
  assert (∃ r q, sound s r q None 0) as (r' & q & Hs).
  { eapply rtc_sound; [exact Hrtc | done | by eapply spawned_sound]. }
  pose proof Hs as [[Hr' Hq'] _ _ _ _ Hpd]. simplify_eq. rewrite Hq in Hq'. destruct q; [| done].
  destruct (Z.eqb_spec (pending_works_ r) 0) as [Hz | Hne]; [by eapply exit_completed |].
  apply in_flight_busy. intros Hz. destruct (idle_completed s r Hs Hz) as [Ho _].
  by rewrite Ho, wrap_small in Hpd.
Qed.
End sound.

(** ** A concrete run *)

(** What happens next: the loop invokes a work, or a completion arrives. *)
Inductive event :=
  | EvWork
  | EvComplete (id : nat) (path : list nat) (c : cqe)
  | EvOrphan (i : nat) (c : cqe).

Section events.
Context {U T V : Type} `{UringLaws U}.
Context (this sf fuel : nat).

Definition finish_event (m : result (Sys U T V) bool) : option (Sys U T V) :=
  match m with
  | Done fin s => match account this fin s with Done _ s => Some s | _ => None end
  | _ => None
  end.

Definition sys_event (ev : event) (s : Sys U T V) : option (Sys U T V) :=
  match ev with
  | EvWork =>
      r ← runtimes (world_of s) !! this;
      match local_queue_ r with
      | [] => None
      | work :: ws =>
          match invoke sf fuel this work (with_rt_in s this (set_local ws r)) with
          | Done _ s => Some s
          | _ => None
          end
      end
  | EvComplete id path c =>
      f ← frames s !! id;
      match code_ f with
      | InOp _ t _ =>
          l ← leaf_at path t;
          if accepts l c then finish_event (handle_in_frame sf fuel this id path c s) else None
      | _ => None
      end
  | EvOrphan i c =>
      l ← orphans s !! i;
      if accepts l c then finish_event (handle_orphan i l.1 l.2 c s) else None
  end.

Lemma finish_event_inv m s : finish_event m = Some s → ∃ fin s1, m = Done fin s1 ∧ account this fin s1 = Done tt s.
Proof.
  unfold finish_event. destruct m as [fin s1 | |]; [| done..].
  destruct (account this fin s1) as [[] s2 | |] eqn:E; [| done..]. intros [= ->]. eauto.
Qed.

Lemma sys_event_step ev s s' : sys_event ev s = Some s' → sys_step this sf fuel s s'.
Proof.
  destruct ev as [| id path c | i c]; simpl.
  - intros (r & Hr & E)%bind_Some. destruct (local_queue_ r) as [|work ws] eqn:Eq; [done |].
    destruct (invoke _ _ _ _ _) as [[] s1 | |] eqn:Ei; [| done..]. injection E as <-. by eapply step_work.
  - intros (f & Hf & E)%bind_Some. destruct (code_ f) as [| | | a t k |] eqn:Ec; try done.
    apply bind_Some in E as ([o st] & Hl & E). destruct (accepts (o, st) c) eqn:Ea; [| done].
    apply finish_event_inv in E as (fin & s1 & E1 & E2). by eapply step_complete.
  - intros ([o st] & Ho & E)%bind_Some. destruct (accepts (o, st) c) eqn:Ea; [| done].
    apply finish_event_inv in E as (fin & s1 & E1 & E2). by eapply step_orphan.
Qed.

Fixpoint sys_events (evs : list event) (s : Sys U T V) : option (Sys U T V) :=
  match evs with
  | [] => Some s
  | ev :: evs => s ← sys_event ev s; sys_events evs s
  end.

Lemma sys_events_steps evs : ∀ s s', sys_events evs s = Some s' → rtc (sys_step this sf fuel) s s'.
Proof.
  induction evs as [|ev evs IH]; simpl; intros s s' E; [injection E as ->; apply rtc_refl |].
  apply bind_Some in E as (s1 & E1%sys_event_step & E). eapply rtc_l; [exact E1 | by apply IH].
Qed.
End events.

(** A task receives while the coroutine that spawned it sends without a copy; the
    notification arrives after both. *)
Definition recv_op (addr : Z) : sender Z := OpSender (mkOp addr (Some (8, 0)) cqe_res OneShot).
Definition send_zc_op (addr : Z) : sender Z := OpSender (mkOp addr (Some (16, 0)) cqe_res ZeroCopy).
Definition exchange_main : Body Z Z :=
  SpawnTask None
    (AwaitOp recv_op (λ v, CoReturn (match v with OpStates.Leaf x => Returned x | _ => Raised InvalidArgument end)))
    (AwaitOp send_zc_op (λ _, AwaitTask 0 (λ r, CoReturn r))).
Definition exchange_sys : Sys SimRing Z Z :=
  mkSys (mkOEnv (mkWorld {[0%nat := set_local [promise_addr 0] demo_runtime]} [] ∅) [])
    {[0%nat := mkFrame (mark_running promise_new) (Running exchange_main) []]} 1 [].
Definition exchange_events : list event :=
  [EvWork; EvComplete 0 [] (mkCqe 0 5 2); EvWork; EvComplete 1 [] (mkCqe 0 42 0); EvWork; EvOrphan 0 (mkCqe 0 0 8)].

Lemma awaiter_aligned id : (id < 8)%nat → aligned (awaiter_addr id).
Proof. intros ?. unfold aligned, awaiter_addr, promise_addr. do 8 (destruct id as [|id]; [done |]). lia. Qed.

Lemma exchange_local : local_body (V := Z) 0 (4, false) 8 exchange_main.
Proof.
  split_and!; [by left | |]; simpl.
  - split; [| done]. intros id Hid. split; constructor. by apply awaiter_aligned.
  - split; [| done]. intros id Hid. split; constructor. by apply awaiter_aligned.
Qed.

(** No work is queued and [p] works are pending. *)
Definition at_rest (p : Z) (s : Sys SimRing Z Z) : bool :=
  match runtimes (world_of s) !! 0%nat with
  | Some r => bool_decide (local_queue_ r = [] ∧ pending_works_ r = p ∧ (next_frame s ≤ 8)%nat ∧
                           Z.of_nat (outstanding s) < 2 ^ 64)
  | None => false
  end.

Lemma at_rest_inv p s :
  at_rest p s = true →
  ∃ r, runtimes (world_of s) !! 0%nat = Some r ∧ local_queue_ r = [] ∧ pending_works_ r = p ∧ (next_frame s ≤ 8)%nat ∧
    Z.of_nat (outstanding s) < 2 ^ 64.
Proof.
  unfold at_rest. destruct (runtimes (world_of s) !! 0%nat) as [r|]; [| done].
  intros (? & ? & ? & ?)%bool_decide_eq_true. eauto 10.
Qed.

Lemma exchange_spawned : spawned 0 0 (4, false) exchange_main exchange_sys.
Proof. split; [reflexivity.. |]. eexists. split; [reflexivity | split_and!; reflexivity]. Qed.

Lemma exchange_turns : (reserve_turns SimRing (4%Z, false).1 ≤ 5)%nat.
Proof. apply le_n. Qed.

Lemma exchange_run n p :
  match sys_events 0 5 20 (take n exchange_events) exchange_sys with Some s => at_rest p s | None => false end = true →
  ∃ s r, rtc (sys_step 0 5 20) exchange_sys s ∧ runtimes (world_of s) !! 0%nat = Some r ∧ local_queue_ r = [] ∧
    pending_works_ r = p ∧ (next_frame s ≤ 8)%nat ∧ Z.of_nat (outstanding s) < 2 ^ 64.
Proof.
  destruct (sys_events 0 5 20 (take n exchange_events) exchange_sys) as [s|] eqn:E; [| done].
  intros (r & Hr)%at_rest_inv. exists s, r. split; [by eapply sys_events_steps | done].
Qed.

(** After the receive only the notification is outstanding; then nothing is. *)
Lemma loop_exits_or_waits_witness :
  (∃ s, rtc (sys_step 0 5 20) exchange_sys s ∧ kernel_busy s) ∧
  (∃ s out, rtc (sys_step 0 5 20) exchange_sys s ∧ completed 0 s out).
Proof.
  split.
  - destruct (exchange_run 5 1) as (s & r & Hs & Hr & Hq & Hp & Hn & Ho); [vm_compute; reflexivity |].
    exists s. split; [done |].
    pose proof (loop_exits_or_waits 0 0 (4, false) 5 20 8 exchange_turns exchange_main exchange_sys s r exchange_local exchange_spawned
      Hs Hn Hr Hq) as Hw. rewrite Hp in Hw. apply Hw; [done | done].
  - destruct (exchange_run 6 0) as (s & r & Hs & Hr & Hq & Hp & Hn & Ho); [vm_compute; reflexivity |].
    pose proof (loop_exits_or_waits 0 0 (4, false) 5 20 8 exchange_turns exchange_main exchange_sys s r exchange_local exchange_spawned
      Hs Hn Hr Hq) as Hw. rewrite Hp in Hw. destruct Hw as [out Hout]; [done | done |].
    by exists s, out.
Defined.
