(* ===== verification/SystemRun.v ===== *)
(** * [sync_wait] on programs with operations ([System.v], [SystemOps.v])

    [Runtime::run] takes only the steps of [SystemOps.sys_step], as long as each
    completion in its queue belongs to an operation that is outstanding
    ([expected], a promise of the kernel): the invariant of [SystemOps.v] holds along
    the loop, and when the loop ends [sync_wait] has a result to return. *)

From stdpp Require Import base numbers list gmap.
From S2P Require Import Prelude Utils WorkType Ring Runtime OpStates OpStatesProps OpShape Coro System.
From S2P Require Import SystemInv SystemProps SystemOps.

Set Warnings "-register-all".

(** A ring to which no other ring sends messages and which sends none: its completions
    are those of operations and of cancellations. *)
Class LocalUring (U : Type) `{Uring U} := {
  local_cqe (u : U) i c :
    uring_cqe_at i u = Some c →
    ∃ p t, decode_work (cqe_user_data c) = (p, Some t) ∧ (t = Common ∨ t = Ignore)
}.

(** ** Runs that end *)

(** [m'] does what [m] does whenever [m] returns. *)
Definition extends {S A} (m m' : ST S A) : Prop := ∀ s a s', m s = Done a s' → m' s = Done a s'.

Section extends.
Context {S : Type}.

Lemma extends_refl {A} (m : ST S A) : extends m m.
Proof. by intros s a s'. Qed.

Lemma extends_bind {A B} (m m' : ST S A) (k k' : A → ST S B) :
  extends m m' → (∀ a, extends (k a) (k' a)) → extends (x ← m; k x) (x ← m'; k' x).
Proof.
  intros Hm Hk s b s' (a & s1 & E1 & E2)%bind_inv. erewrite bind_done by (by apply Hm). by apply Hk.
Qed.

Lemma extends_defer {A} g (m m' : ST S A) : extends m m' → extends (defer_run g m) (defer_run g m').
Proof. intros Hm s a s' (s1 & E & ->)%defer_inv. unfold defer_run. by rewrite (Hm _ _ _ E). Qed.
End extends.

Ltac extends_step :=
  match goal with
  | |- extends ?m ?m => apply extends_refl
  | |- extends (mbind _ _) (mbind _ _) => apply extends_bind; [| intros ?; cbv beta]
  | |- extends (defer_run _ _) (defer_run _ _) => apply extends_defer
  | |- extends (match ?x with _ => _ end) _ => destruct x
  end.

Section mono.
Context {S U : Type} `{HasWorld S U, !Uring U}.
Context (invoke : RuntimeId → Z → ST S unit) (handle handle' : RuntimeId → Z → cqe → ST S bool).
Context (cqe_nr : cqe → Z) (wait_fuel : nat).
Hypothesis Hext : ∀ this h c, extends (handle this h c) (handle' this h c).

Lemma process_extends this c : extends (process_cqe_ invoke handle this c) (process_cqe_ invoke handle' this c).
Proof.
  unfold process_cqe_. destruct (decode_work (cqe_user_data c)) as [data [[]|]]; repeat (extends_step || auto).
Qed.

Lemma reap_all_extends (ring_of : S → Ring U) put_ring (p p' : cqe → ST S unit) :
  (∀ c, extends (p c) (p' c)) → extends (reap_all ring_of put_ring cqe_nr p) (reap_all ring_of put_ring cqe_nr p').
Proof.
  intros Hp. unfold reap_all. extends_step; [extends_step |]. extends_step; [| extends_step].
  generalize (Datatypes.S (uring_cq_entries (ring_ (ring_of a)))) 0%nat 0. intros n.
  induction n as [|n IH]; intros i reaped; cbn [for_each_cqe]; repeat (extends_step || auto).
Qed.

Lemma flush_ring_extends this : extends (flush_ring_ invoke handle cqe_nr this) (flush_ring_ invoke handle' cqe_nr this).
Proof.
  unfold flush_ring_, reap_completions. pose proof (process_extends this) as Hp.
  repeat (extends_step || apply reap_all_extends || auto).
Qed.

Lemma flush_ring_wait_extends this :
  extends (flush_ring_wait_ invoke handle cqe_nr wait_fuel this) (flush_ring_wait_ invoke handle' cqe_nr wait_fuel this).
Proof.
  unfold flush_ring_wait_, reap_completions_wait. pose proof (process_extends this) as Hp.
  repeat (extends_step || apply reap_all_extends || auto).
Qed.

Lemma run_extends fuel this thread :
  extends (run invoke handle cqe_nr wait_fuel fuel this thread) (run invoke handle' cqe_nr wait_fuel fuel this thread).
Proof.
  assert (∀ fuel, extends (run_loop invoke handle cqe_nr wait_fuel fuel this) (run_loop invoke handle' cqe_nr wait_fuel fuel this)) as Hl.
  { intros n. induction n as [|n IH]; cbn [run_loop]; unfold run_turn;
      repeat (extends_step || apply flush_ring_extends || apply flush_ring_wait_extends || auto). }
  unfold run, run_enter. repeat (extends_step || apply flush_ring_extends || auto).
Qed.
End mono.

(** ** The loop takes the steps of [sys_step] *)

Section loop.
Context {U T V : Type} `{UringLaws U} `{!LocalUring U}.
Context (this root : nat) (d : Z * bool) (sf fuel limit : nat) (cqe_nr : cqe → Z) (wf : nat).
Hypothesis Hsf : (reserve_turns U d.1 ≤ sf)%nat.
Implicit Types (s : Sys U T V) (r : Runtime U) (h : Z) (c : cqe).
Abbreviation steps := (rtc (sys_step (U := U) (T := T) (V := V) this sf fuel)).

(** The completion [c] for the handle [h] is one that an outstanding operation waits
    for. *)
Definition expected h c s : bool :=
  match find_handle h (map_to_list (frames s)) with
  | Some (id, path) =>
      match code_ <$> frames s !! id with
      | Some (InOp _ t _) => match leaf_at path t with Some l => accepts l c | None => false end
      | _ => false
      end
  | None =>
      match find_orphan h 0 (orphans s) with
      | Some (_, o, st) => accepts (o, st) c
      | None => false
      end
  end.

(** [OpFinishHandleBase::handle] when the kernel keeps its promise. *)
Definition expect_handle (this : RuntimeId) h c : ST (Sys U T V) bool := λ s,
  if expected h c s then handle sf fuel this h c s else Crashed BadAccess.

Lemma find_orphan_lookup h os : ∀ n i (o : op V) st, find_orphan h n os = Some (i, o, st) → ∃ j, i = (n + j)%nat ∧ os !! j = Some (o, st).
Proof.
  induction os as [|[o' st'] os IH]; intros n i o st E; simpl in E; [done |].
  destruct (handle_addr o' =? h); [injection E as -> -> ->; exists 0%nat; by rewrite Nat.add_0_r |].
  destruct (IH _ _ _ _ E) as (j & -> & Hj). exists (S j). split; [lia | done].
Qed.

Lemma expect_handle_step h c s fin s1 s' :
  expect_handle this h c s = Done fin s1 → account this fin s1 = Done tt s' → sys_step this sf fuel s s'.
Proof.
  unfold expect_handle, expected, handle. rewrite bind_get.
  destruct (find_handle h (map_to_list (frames s))) as [[id path]|].
  - destruct (frames s !! id) as [f|] eqn:Hf; [| done]. simpl. destruct (code_ f) as [| | | a t k |] eqn:Ec; try done.
    destruct (leaf_at path t) as [[o st]|] eqn:El; [| done]. destruct (accepts (o, st) c) eqn:Ea; [| done].
    intros E1 E2. by eapply step_complete.
  - destruct (find_orphan h 0 (orphans s)) as [[[i o] st]|] eqn:Eo; [| done].
    apply find_orphan_lookup in Eo as (j & -> & Hj). destruct (accepts (o, st) c) eqn:Ea; [| done].
    intros E1 E2. by eapply step_orphan.
Qed.

(** Updates of the runtime that do not touch its queue, its counter and the size of its
    ring. *)
Definition keeps r r' : Prop :=
  local_queue_ r' = local_queue_ r ∧ pending_works_ r' = pending_works_ r ∧ ring_dims (rt_ring_ r') = ring_dims (rt_ring_ r).

Lemma upd_rt_steps g s s' : (∀ r, keeps r (g r)) → in_world (upd_rt this g) s = Done tt s' → steps s s'.
Proof.
  intros Hg E. destruct (runtimes (world_of s) !! this) as [r|] eqn:Hr.
  - rewrite (in_upd_rt s this r g Hr) in E. injection E as <-. destruct (Hg r) as (H1' & H2' & H3'). apply rtc_once.
    eapply step_idle; [exact Hr | apply with_rt_lookup | done..].
  - unfold in_world, zoom, upd_rt, get_rt in E. simpl in E. unfold mbind, st_bind in E. simpl in *. by rewrite Hr in E.
Qed.

Lemma put_ring_steps s g : ring_dims g = ring_dims (ring_of this g s) → steps s (put_ring this g s).
Proof.
  unfold put_ring, on_exit_rt, ring_of. destruct (runtimes (world_of s) !! this) as [r|] eqn:Hr.
  - intros Hd. apply rtc_once. eapply step_idle; [exact Hr | apply with_rt_lookup | done..].
  - intros _. rewrite put_world_of. apply rtc_refl.
Qed.

Lemma on_ring_steps {A} dflt (m : ST (Ring U) A) s a s' :
  (∀ g a g', m g = Done a g' → ring_dims g' = ring_dims g) →
  on_ring (ring_of this dflt) (put_ring this) m s = Done a s' → steps s s'.
Proof.
  intros Hm E. unfold on_ring, zoom in E. destruct (m (ring_of this dflt s)) as [x g | |] eqn:Em; [| done..].
  assert (s' = put_ring this g s) as -> by congruence. specialize (Hm _ _ _ Em).
  destruct (runtimes (world_of s) !! this) as [r|] eqn:Hr.
  - apply put_ring_steps. unfold ring_of in *. by rewrite Hr in Hm |- *.
  - unfold put_ring, on_exit_rt. rewrite Hr, put_world_of. apply rtc_refl.
Qed.

Abbreviation process := (process_cqe_ (invoke sf fuel) expect_handle this).

Lemma process_steps dflt i c s s' :
  uring_cqe_at i (ring_ (ring_of this dflt s)) = Some c → process c s = Done tt s' → steps s s'.
Proof.
  intros (p & t & Hd & Ht)%local_cqe. unfold process_cqe_. rewrite Hd. destruct Ht as [-> | ->].
  - intros (fin & s1 & E1 & E2)%bind_inv. apply rtc_once. by eapply expect_handle_step.
  - unfold assert_. destruct (negb _); [| done]. intros [= <-]. apply rtc_refl.
Qed.

Lemma reap_all_steps dflt s n s' :
  reap_all (ring_of this dflt) (put_ring this) cqe_nr process s = Done n s' → steps s s'.
Proof.
  unfold reap_all. rewrite bind_get. intros (m & s1 & E1 & E)%bind_inv.
  apply bind_inv in E as ([] & s2 & E2 & E). injection E as _ <-.
  apply on_ring_steps in E2.
  2: { intros g a g' [= _ <-]. unfold ring_dims. simpl. by destruct (uring_cq_advance_dims (ring_ g) m) as [-> ->]. }
  etransitivity; [| exact E2]. clear E2.
  revert E1. generalize (S (uring_cq_entries (ring_ (ring_of this dflt s)))) 0%nat 0. intros k.
  revert s. induction k as [|k IH]; intros s i z E; [done |]. cbn [for_each_cqe] in E. rewrite bind_get in E.
  destruct (uring_cqe_at i (ring_ (ring_of this dflt s))) as [c|] eqn:Ec; [| injection E as _ <-; apply rtc_refl].
  apply bind_inv in E as ([] & s3 & E3 & E). etransitivity; [by eapply process_steps | by eapply IH].
Qed.

Lemma flush_ring_steps s s' : flush_ring_ (invoke sf fuel) expect_handle cqe_nr this s = Done tt s' → steps s s'.
Proof.
  unfold flush_ring_. intros (r & s0 & [-> Hr]%get_rt_inv & E)%bind_inv. apply bind_inv in E as (n & s1 & E1 & E).
  assert (s1 = s') as -> by (destruct (n <? 0); [done | by injection E]). clear E. unfold reap_completions in E1.
  rewrite bind_get in E1. destruct (_ =? _); [injection E1 as _ <-; apply rtc_refl |].
  destruct (_ <? 0); [injection E1 as _ <-; apply rtc_refl | by eapply reap_all_steps].
Qed.

Lemma flush_ring_wait_steps s s' :
  flush_ring_wait_ (invoke sf fuel) expect_handle cqe_nr wf this s = Done tt s' → steps s s'.
Proof.
  unfold flush_ring_wait_. intros (r & s0 & [-> Hr]%get_rt_inv & E)%bind_inv. apply bind_inv in E as (n & s1 & E1 & E).
  assert (s1 = s') as -> by (destruct (n <? 0); [done | by injection E]). clear E. unfold reap_completions_wait in E1.
  apply bind_inv in E1 as (err & s2 & E2 & E1). etransitivity; [eapply on_ring_steps; [| exact E2] |].
  - intros g a g'. apply submit_and_wait_dims.
  - destruct err; [injection E1 as _ <-; apply rtc_refl | by eapply reap_all_steps].
Qed.

Lemma run_turn_steps s more s' :
  run_turn (invoke sf fuel) expect_handle cqe_nr wf this s = Done more s' → steps s s'.
Proof.
  unfold run_turn. intros ([] & s1 & E1 & E)%bind_inv. apply upd_rt_steps in E1; [| by intros r].
  apply bind_inv in E as (r1 & s2 & [-> Hr1]%get_rt_inv & E). apply bind_inv in E as ([] & s3 & E3 & E).
  assert (steps s1 s3) as H3.
  { destruct (event_interval_ r1 <=? tick_count_ r1); [| injection E3 as <-; apply rtc_refl].
    apply bind_inv in E3 as ([] & s4 & E4%upd_rt_steps & E3%flush_ring_steps); [by etransitivity | by intros r]. }
  apply bind_inv in E as (r & s4 & [-> Hr]%get_rt_inv & E). etransitivity; [exact E1 |]. etransitivity; [exact H3 |].
  destruct (local_queue_ r) as [|work q] eqn:Eq.
  - destruct (_ && _); [injection E as _ <-; apply rtc_refl |]. apply bind_inv in E as ([] & s5 & E5%flush_ring_wait_steps & E).
    by injection E as _ <-.
  - rewrite (bind_done _ _ _ _ _ (in_set_rt s3 this (set_local q r))) in E. apply bind_inv in E as ([] & s5 & E5 & E).
    injection E as _ <-. apply rtc_once. by eapply step_work.
Qed.

Lemma run_loop_steps n : ∀ s s',
  run_loop (invoke sf fuel) expect_handle cqe_nr wf n this s = Done tt s' → steps s s'.
Proof.
  induction n as [|n IH]; intros s s' E; [done |]. rewrite run_loop_S in E. apply bind_inv in E as (more & s1 & E1%run_turn_steps & E).
  etransitivity; [exact E1 |]. destruct more; [by apply IH | injection E as <-; apply rtc_refl].
Qed.

(** ** [sync_wait] *)

Context (thread : nat).

(** [co_spawn], [allow_exit] and [run] of [sync_wait] on the coroutine [root], with a
    kernel that keeps its promise. *)
Definition service (sync_res : Z) : ST (Sys U T V) unit :=
  co_spawn None this root sync_res;;
  in_world (allow_exit None this sync_res);;
  run (invoke sf fuel) expect_handle cqe_nr wf fuel this thread.

(** The loop ran from a state in which the coroutine had just been spawned. *)
Lemma first_run_steps b s r s' :
  frames s = {[root := mkFrame (mark_running promise_new) (Running b) []]} → next_frame s = S root → orphans s = [] →
  runtimes (world_of s) !! this = Some r → run_thread_id_ r = None → local_queue_ r = [] →
  global_queue_ r = [promise_addr root] → pending_works_ r = 0 → ring_dims (rt_ring_ r) = d →
  run (invoke sf fuel) expect_handle cqe_nr wf fuel this thread s = Done tt s' →
  ∃ s0 s1 r1, spawned this root d b s0 ∧ steps s0 s1 ∧ runtimes (world_of s1) !! this = Some r1 ∧
    local_queue_ r1 = [] ∧ pending_works_ r1 = 0 ∧
    frames s' = frames s1 ∧ next_frame s' = next_frame s1 ∧ orphans s' = orphans s1.
Proof.
  intros Hf Hn Ho Hr Hth Hl Hg Hp Hd E.
  destruct (uring_enable_rings (ring_ (rt_ring_ r))) as [res u] eqn:Een.
  destruct (Z.lt_ge_cases res 0) as [Hneg | Hres].
  { destruct (run_errors (invoke sf fuel) expect_handle cqe_nr wf s this thread r fuel Hr) as [_ He].
    destruct (He res u) as (w' & Ee & _); [done.. |]. by rewrite Ee in E. }
  rewrite (run_first_loop (invoke sf fuel) expect_handle cqe_nr wf fuel s this thread r res u) in E by done.
  apply defer_inv in E as (s3 & E & ->). apply defer_inv in E as (s4 & E & ->). apply defer_inv in E as (s5 & E & ->).
  pose proof (run_loop_steps _ _ _ E) as Hst. destruct (run_loop_exit _ _ _ _ _ _ _ _ E) as (r5 & Hr5 & Hq5 & Hp5 & _).
  eexists _, s5, r5. split; [| split; [exact Hst | done]]. split; [done.. |]. eexists. split; [apply with_rt_in_lookup |].
  unfold entered. simpl. rewrite Hl, Hg. pose proof (uring_enable_rings_dims (ring_ (rt_ring_ r))) as [Hd1 Hd2].
  rewrite Een in Hd1, Hd2. simpl in *. rewrite <- Hd. unfold ring_dims. rewrite <- Hd1, <- Hd2.
  by destruct (disable_register_ring_fd_ r).
Qed.

(** C4. [sync_wait] on a program with operations.  A program of coroutines that also
    await asynchronous operations, on a fresh runtime, with a kernel that completes
    only what is outstanding, in any order and in any number of steps: when the
    loop of [run] ends, [sync_wait] does not wait for ever and has a result: it
    returns the value (or rethrows the exception) with which its coroutine ended,
    and every frame of a coroutine and every finish handle has been released.
    ([service] is the run up to there, on a kernel that answers as [expected];
    [local_body] asks [sender_ok] of the operations awaited in the first [limit]
    frames, and no more are created; [sf] is fuel that suffices for waiting on the
    submission queue; fewer than 2^64 works are pending.) *)
Theorem sync_wait_with_operations b s s' g ei dr sync_res :
  local_body this d limit b →
  frames s = {[root := mkFrame promise_new (Running b) []]} → next_frame s = S root → orphans s = [] →
  context (world_of s) !! thread = None →
  runtimes (world_of s) !! this = Some (runtime_new g ei dr) → ring_dims g = d →
  service sync_res s = Done tt s' → (next_frame s' ≤ limit)%nat → Z.of_nat (outstanding s') < 2 ^ 64 →
  ∃ out s'', sync_wait cqe_nr wf sf fuel this thread root sync_res s = Done out s'' ∧
    completed root s' out ∧ frames s'' = ∅ ∧ orphans s'' = [].
Proof.
  intros Hb Hf Hn Ho Hctx Hr Hd (c & s1 & E1 & (t & s2 & E2 & E3)%bind_inv)%bind_inv Hlim Hlt. destruct t.
  assert (run (invoke sf fuel) (handle sf fuel) cqe_nr wf fuel this thread s2 = Done tt s') as Erun.
  { revert E3. apply run_extends. intros this' h q s3 a s4. unfold expect_handle. by destruct (expected h q s3). }
  assert (context (world_of s') !! thread = None) as Hctx' by apply (run_exit_condition _ _ _ _ _ _ _ _ _ Erun).
  unfold sync_wait. rewrite bind_get, Hctx. erewrite bind_done by exact E1. pose proof E2 as Eexit.
  erewrite (spawn_fresh this s root) in E1; [| rewrite Hf; apply lookup_singleton_eq | exact Hr | done].
  injection E1 as <- <-. cbn [promise_ code_ tasks_] in E2. rewrite Hf, insert_singleton_eq in E2.
  erewrite allow_exit_fresh in E2; [| apply with_rt_lookup | done]. injection E2 as <-.
  apply (first_run_steps b _ (set_exit_allowed true (set_global [promise_addr root] (runtime_new g ei dr)))) in E3
    as (s0 & s5 & r5 & Hsp & Hst & Hr5 & Hq5 & Hp5 & Ef & En & Eo); [| done | done | done | apply with_rt_lookup | done..].
  assert (∃ out, completed root s5 out) as (out & f & Hf5 & Hc5 & Hz & Et & Ho5).
  { assert (∃ r q, sound this root d limit s5 r q None 0) as (r' & q & Hs5).
    { eapply rtc_sound; [exact Hsf | exact Hst | by rewrite <- En | by eapply spawned_sound]. }
    pose proof (so_rt _ _ _ _ _ _ _ _ _ Hs5) as [Hr' Hq']. simplify_eq. rewrite Hq5 in Hq'. destruct q; [| done].
    eapply exit_completed; [exact Hsf | exact Hs5 | done |]. unfold outstanding in *. by rewrite <- Ef, <- Eo. }
  exists out, (put_frames ∅ s'). split_and!; [| | done | simpl; congruence].
  - eapply task_block_done; [exact Eexit | exact Erun |]. apply (task_wait_finished thread s' root f out); congruence.
  - exists f. split_and!; congruence.
Qed.
End loop.

(** ** A concrete run *)

(** A ring whose kernel completes operations by a script: each time the runtime waits,
    the next group of completions (handle, result and flags) arrives. *)
Record ScriptRing := mkScriptRing {
  scr_ring : SimRing;
  scr_cq : list (Z * Z * Z);
  scr_script : list (list (Z * Z * Z))
}.

Definition scr_cqe (x : Z * Z * Z) : cqe := mkCqe (Z.shiftl (x.1.1 / 8) 3) x.1.2 x.2.
Definition scr_on (f : SimRing → Z * SimRing) (u : ScriptRing) : Z * ScriptRing :=
  ((f (scr_ring u)).1, mkScriptRing (f (scr_ring u)).2 (scr_cq u) (scr_script u)).

#[export] Instance scr_uring : Uring ScriptRing := {
  uring_submit := scr_on uring_submit;
  uring_submit_and_wait u :=
    ((uring_submit_and_wait (scr_ring u)).1,
     mkScriptRing (uring_submit_and_wait (scr_ring u)).2 (scr_cq u ++ default [] (head (scr_script u)))
       (tail (scr_script u)));
  uring_peek_cqe u := match scr_cq u with [] => - EAGAIN | _ => 0 end;
  uring_cqe_at i u := scr_cqe <$> take (uring_cq_entries (scr_ring u)) (scr_cq u) !! i;
  uring_cq_advance n u := mkScriptRing (scr_ring u) (drop (Z.to_nat n) (scr_cq u)) (scr_script u);
  uring_cq_entries u := uring_cq_entries (scr_ring u);
  uring_sq_space_left u := uring_sq_space_left (scr_ring u);
  uring_sq_entries u := uring_sq_entries (scr_ring u);
  uring_get_sqe u :=
    '(slot, v) ← uring_get_sqe (scr_ring u); Some (slot, mkScriptRing v (scr_cq u) (scr_script u));
  uring_prep slot s u := mkScriptRing (uring_prep slot s (scr_ring u)) (scr_cq u) (scr_script u);
  uring_sqring_wait := scr_on uring_sqring_wait;
  uring_sqpoll u := uring_sqpoll (scr_ring u);
  uring_enable_rings := scr_on uring_enable_rings;
  uring_retries := uring_retries SimRing
}.

Lemma scr_get_sqe u x : uring_get_sqe u = Some x → uring_get_sqe (scr_ring u) = Some (x.1, scr_ring x.2).
Proof.
  cbn [uring_get_sqe scr_uring]. destruct (uring_get_sqe (scr_ring u)) as [[slot v]|]; [| done]. by intros [= <-].
Qed.

#[export] Instance scr_uring_docs : UringDocs ScriptRing.
Proof.
  split.
  - intros u. apply (uring_entries_pos (scr_ring u)).
  - intros u. apply (uring_space_bound (scr_ring u)).
  - intros u. etransitivity; [| apply (uring_get_sqe_full (scr_ring u))]. cbn [uring_get_sqe scr_uring].
    by destruct (uring_get_sqe (scr_ring u)) as [[]|].
  - intros u. apply (uring_submit_entries (scr_ring u)).
  - intros u. apply (uring_submit_sqpoll (scr_ring u)).
  - intros u. apply (uring_submit_space (scr_ring u)).
  - intros u. apply (uring_sqring_wait_frees (scr_ring u)).
  - intros u i c. cbn [uring_cqe_at uring_cq_entries scr_uring]. intros (x & Hx%lookup_lt_Some & _)%fmap_Some.
    rewrite length_take in Hx. lia.
  - intros u slot u' E%scr_get_sqe. apply (uring_get_sqe_dims _ _ _ E).
  - intros u slot u' E%scr_get_sqe. apply (uring_get_sqe_space _ _ _ E).
  - intros u slot s. apply (uring_prep_space (scr_ring u)).
  - intros u slot s. apply (uring_prep_dims (scr_ring u)).
  - intros u. apply (uring_sqring_wait_dims (scr_ring u)).
  - intros u. apply (uring_submit_and_wait_dims (scr_ring u)).
  - done.
  - intros u. apply (uring_enable_rings_dims (scr_ring u)).
Qed.

#[export] Instance scr_uring_laws : UringLaws ScriptRing.
Proof.
  split; [apply _ |]. intros u Hp Hs. exact (uring_submit_progress (scr_ring u) Hp Hs).
Qed.

#[export] Instance scr_local : LocalUring ScriptRing.
Proof.
  split. intros u i c (x & _ & ->)%fmap_Some. eexists _, Common. split; [| by left].
  unfold decode_work, scr_cqe. cbn [cqe_user_data]. f_equal.
  change (Z.shiftl 1 3 - 1) with (Z.ones 3). rewrite Z.land_ones by lia. rewrite Z.shiftl_mul_pow2, Z.mod_mul by lia. done.
Qed.

(** The program of [SystemOps.v]: first the send completes, then the receive, then the
    notification of the send arrives. *)
Definition exchange_ring : Ring ScriptRing :=
  mkRing (mkScriptRing (mkSimRing 3 [] [] 4 []) []
            [[(awaiter_addr 0, 5, 2)]; [(awaiter_addr 1, 42, 0)]; [(awaiter_addr 0, 0, 8)]]) 8 0.
Definition exchange_start : Sys ScriptRing Z Z :=
  mkSys (mkOEnv (mkWorld {[0%nat := runtime_new exchange_ring 61 false]} [] ∅) [])
    {[0%nat := mkFrame promise_new (Running exchange_main) []]} 1 [].

(** The process is serviced, and few frames and operations are in use. *)
Definition exchange_serviced : bool :=
  match service 0 0 5 30 (λ _, 1) 1 5 0 exchange_start with
  | Done _ s => bool_decide ((next_frame s ≤ 8)%nat ∧ Z.of_nat (outstanding s) < 2 ^ 64)
  | _ => false
  end.

Lemma sync_wait_with_operations_witness :
  ∃ out s'', sync_wait (λ _, 1) 1 5 30 0 5 0 0 exchange_start = Done out s'' ∧ frames s'' = ∅ ∧ orphans s'' = [].
Proof.
  assert (exchange_serviced = true) as E by (vm_compute; reflexivity). unfold exchange_serviced in E.
  destruct (service 0 0 5 30 (λ _, 1) 1 5 0 exchange_start) as [[] s' | |] eqn:Es; [| done..].
  apply bool_decide_eq_true in E as [Hn Ho].
  assert (ring_dims exchange_ring = (4, false)) as Hd by (vm_compute; reflexivity).
  assert (reserve_turns ScriptRing (4%Z, false).1 ≤ 5)%nat as Hsf by apply le_n.
  destruct (sync_wait_with_operations 0 0 (4, false) 5 30 8 (λ _, 1) 1 Hsf 5 exchange_main exchange_start s' exchange_ring
              61 false 0 exchange_local eq_refl eq_refl eq_refl eq_refl eq_refl Hd Es Hn Ho) as (out & s'' & E1 & _ & E2 & E3).
  exists out, s''. split; [exact E1 | split; [exact E2 | exact E3]].
Defined.
