(* ===== verification/Execution.v ===== *)
(** * The bridge to std::execution (include/condy/execution.hpp,
      detail/execution.hpp)

    The senders library [ex] is a parameter of this code: what it calls is an
    operation state with [start], what it is called with is a receiver with
    [set_value], [set_error] and [set_stopped].

    - [cty] and [cval]: the types and values that pass between the two; overloads
      and traits are chosen by type.
    - [StandardSender]: a condy sender as a standard sender.  [receiver_wrapper]
      is the receiver the tree of operation states is connected to.
    - [WaitSender]: [co_await] of any standard sender.
    - [Sched]: the scheduler of a runtime. *)

From stdpp Require Import base numbers list gmap.
From S2P Require Import Prelude Utils Coro WorkType Ring Runtime OpStates OpStatesProps OpShape.

Set Warnings "-register-all".

#[export] Instance oenv_has_world U V : HasWorld (OEnv U V) U := {
  world_of := world;
  put_world w e := mkOEnv w (calls e)
}.
#[export] Instance oenv_has_world_laws U V : HasWorldLaws (OEnv U V) U.
Proof. split; [done | by intros [] | done]. Qed.

(** ** Types and values *)

Inductive cty : Type :=
  | TInt32
  | TSize
  | TClass (c : nat)
  | TPair (a b : cty)
  | TTuple (ts : list cty)
  | TVariant (ts : list cty)
  | TVector (t : cty)
  | TArray (t : cty) (n : nat).

(** Objects of type [A] stand for the values of classes.  A variant is the index of
    its alternative and the value; tuples, vectors and arrays are their
    elements; [VInit] is a value-initialised object. *)
Inductive cval (A : Type) : Type :=
  | VInit
  | VInt32 (z : Z)
  | VSize (n : nat)
  | VObject (c : nat) (a : A)
  | VPair (x y : cval A)
  | VSeq (vs : list (cval A)).
Arguments VInit {A}.
Arguments VInt32 {A} z.
Arguments VSize {A} n.
Arguments VObject {A} c a.
Arguments VPair {A} x y.
Arguments VSeq {A} vs.

Inductive has_type {A : Type} : cval A → cty → Prop :=
  | ht_int32 z : has_type (VInt32 z) TInt32
  | ht_size n : has_type (VSize n) TSize
  | ht_object c a : has_type (VObject c a) (TClass c)
  | ht_pair x y a b : has_type x a → has_type y b → has_type (VPair x y) (TPair a b)
  | ht_tuple vs ts : Forall2 has_type vs ts → has_type (VSeq vs) (TTuple ts)
  | ht_variant i v ts t : ts !! i = Some t → has_type v t → has_type (VPair (VSize i) v) (TVariant ts)
  | ht_vector vs t : Forall (λ v, has_type v t) vs → has_type (VSeq vs) (TVector t)
  | ht_array vs t n : length vs = n → Forall (λ v, has_type v t) vs → has_type (VSeq vs) (TArray t n).

(** *** The results of condy senders (detail/senders.hpp) *)

Section return_type.
Context {A : Type}.

(** [ReturnType] of a [ParallelSenderBase] and of a [RangedParallelSenderBase]. *)
Definition parallel_type (w : wrapper) (ts : list cty) : cty :=
  match w with
  | NoWrapper => TPair (TArray TSize (length ts)) (TTuple ts)
  | AllWrapper => TTuple ts
  | AnyWrapper => TVariant ts
  end.
Definition ranged_type (w : wrapper) (t : cty) : cty :=
  match w with
  | NoWrapper => TPair (TVector TSize) (TVector t)
  | AllWrapper => TVector t
  | AnyWrapper => TPair TSize t
  end.

Inductive return_type : sender (cval A) → cty → Prop :=
  | rt_op o t : (∀ c, has_type (cqe_handler_ o c) t) → return_type (OpSender o) t
  | rt_flagged F s t : return_type s t → return_type (FlaggedOpSender F s) t
  | rt_parallel k ss ts :
      ranged_ k = false → Forall2 return_type ss ts → return_type (ParallelSender k ss) (parallel_type (wrapper_ k) ts)
  | rt_ranged k ss t :
      ranged_ k = true → Forall (λ s, return_type s t) ss → return_type (ParallelSender k ss) (ranged_type (wrapper_ k) t).
End return_type.

(** The C++ object that a receiver is called with. *)
Fixpoint cxx {A} (v : value (cval A)) : cval A :=
  match v with
  | Unset => VInit
  | Leaf v => v
  | Both order vs => VPair (VSeq (VSize <$> order)) (VSeq (map cxx vs))
  | Results vs => VSeq (map cxx vs)
  | Indexed i v => VPair (VSize i) (cxx v)
  end.

(** ** Completions *)

(** What [set_error] is called with. *)
Inductive error : Type :=
  | ExceptionPtr (e : exn)
  | ErrorCode (ec : Z)
  | OtherError (id : nat).

(** A call of a completion function of a receiver; arguments with their types. *)
Inductive completion (A : Type) : Type :=
  | SetValue (args : list (cty * cval A))
  | SetError (e : error)
  | SetStopped.
Arguments SetValue {A} args.
Arguments SetError {A} e.
Arguments SetStopped {A}.

(** ** A condy sender as a standard sender *)
Module StandardSender.
Section sender.
Context {A : Type}.

(** [set_value_traits] *)
Definition set_value_traits (R : cty) : list cty :=
  match R with
  | TPair R1 R2 => [R1; R2]
  | TTuple Rs => Rs
  | _ => [R]
  end.

(** [completion_signatures] *)
Definition declared (R : cty) (c : completion A) : Prop :=
  match c with
  | SetValue args => map fst args = set_value_traits R
  | SetError (ErrorCode _) => True
  | SetError _ => False
  | SetStopped => True
  end.

(** The branches on a result code; [None]: [-res] overflows. *)
Definition complete_code (res : Z) (args : list (cty * cval A)) : option (completion A) :=
  if 0 <=? res then Some (SetValue args)
  else if res =? - ECANCELED then Some SetStopped
  else if res =? - 2 ^ 31 then None
  else Some (SetError (ErrorCode (- res))).

(** [ReceiverWrapper::operator()]: the overload for the type of the result. *)
Definition receiver_wrapper (R : cty) (res : cval A) : option (completion A) :=
  match R with
  | TInt32 =>
      match res with VInt32 z => complete_code z [(TInt32, res)] | _ => None end
  | TPair TInt32 T =>
      match res with
      | VPair (VInt32 res_code) payload => complete_code res_code [(TInt32, VInt32 res_code); (T, payload)]
      | _ => None
      end
  | TTuple Ts =>
      match res with VSeq vs => Some (SetValue (zip Ts vs)) | _ => None end
  | _ => Some (SetValue [(R, res)])
  end.

(** What the receiver at the root of a tree makes of the tree's result. *)
Definition complete_with {S} (R : cty) (r : option (OpStates.value (cval A))) : ST S (option (completion A)) :=
  match r with
  | None => mret None
  | Some v =>
      match receiver_wrapper R (cxx v) with
      | Some c => mret (Some c)
      | None => crashed BadAccess
      end
  end.

Context {U : Type} `{Uring U}.

(** [connect(receiver)], whose wrapper passes on the receiver's stop token, and
    [OperationStateWrapper::start]. *)
Definition connect (tok : token) (s : sender (cval A)) : opstate (cval A) := OpStates.connect tok s.
Definition start (curr : option RuntimeId) (space_fuel : nat) (R : cty) (tok : token) (t : opstate (cval A))
    : ST (OEnv U (cval A)) (opstate (cval A) * option (completion A)) :=
  '(t, r) ← OpStates.start (height t) curr space_fuel tok 0 t;
  c ← complete_with R r;
  mret (t, c).

(** [Runtime::process_cqe_] for a completion of the leaf at [path], up to the call of
    the receiver. *)
Definition handle (curr : option RuntimeId) (R : cty) (path : list nat) (t : opstate (cval A)) (cq : cqe)
    : ST (OEnv U (cval A)) (opstate (cval A) * option (completion A) * bool) :=
  '(t, r, fin) ← OpStates.handle curr path t cq;
  c ← complete_with R r;
  mret (t, c, fin).

(** The rest: a finished operation is not pending any more. *)
Definition account (this : RuntimeId) (fin : bool) : ST (OEnv U (cval A)) unit :=
  if fin then on_world (resume_work_internal (Some this) this) else mret tt.
End sender.
End StandardSender.

(** ** Waiting for a standard sender *)
Module WaitSender.

(** [ResultType] *)
Inductive ResultType (A : Type) : Type :=
  | Value (vs : list (cval A))
  | Exception (e : exn)
  | Stopped.
Arguments Value {A} vs.
Arguments Exception {A} e.
Arguments Stopped {A}.

(** [WaitSenderAwaiter]; [resumed]: the coroutines its completion has resumed. *)
Record WaitSenderAwaiter (A : Type) := mkWaitSenderAwaiter {
  runtime_ : RuntimeId;
  handle_ : cohandle;
  result_ : option (ResultType A);
  resumed : list nat
}.
Arguments mkWaitSenderAwaiter {A} runtime_ handle_ result_ resumed.
Arguments runtime_ {A} w.
Arguments handle_ {A} w.
Arguments result_ {A} w.
Arguments resumed {A} w.

Section awaiter.
Context {S U A : Type} `{HasWorld S U}.
Abbreviation M := (ST (S * WaitSenderAwaiter A)).

(** [wait_sender(sender)] in a coroutine of the runtime [curr]. *)
Definition wait_sender (curr : option RuntimeId) : option (WaitSenderAwaiter A) :=
  (λ this, mkWaitSenderAwaiter this NoopCoroutine None []) <$> curr.

Definition awaiter : M (WaitSenderAwaiter A) := gets snd.
Definition set_awaiter (a : WaitSenderAwaiter A) : M unit := modify (λ s, (s.1, a)).
Definition outside {B} (m : ST S B) : M B := zoom fst (λ x s, (x, s.2)) m.

Definition exchange_handle (h : cohandle) : M cohandle :=
  a ← awaiter;
  set_awaiter (mkWaitSenderAwaiter (runtime_ a) h (result_ a) (resumed a));;
  mret (handle_ a).

(** [h.resume()] *)
Definition resume (h : cohandle) : M unit :=
  match h with
  | NoopCoroutine => mret tt
  | NullHandle => crashed BadAccess
  | Handle id =>
      a ← awaiter;
      set_awaiter (mkWaitSenderAwaiter (runtime_ a) (handle_ a) (result_ a) (resumed a ++ [id]))
  end.

Definition resume_ : M unit :=
  h ← exchange_handle NullHandle;
  resume h.

Definition emplace_result (r : ResultType A) : M unit :=
  a ← awaiter;
  set_awaiter (mkWaitSenderAwaiter (runtime_ a) (handle_ a) (Some r) (resumed a)).

(** [ValueType(args...)], the tuple of the types the sender declares: from as many
    arguments, or from one pair by the converting constructor. *)
Definition make_value (declared_types : list cty) (args : list (cty * cval A)) : option (list (cval A)) :=
  if bool_decide (length args = length declared_types) then Some (map snd args)
  else match declared_types, args with
       | [_; _], [(_, VPair x y)] => Some [x; y]
       | _, _ => None
       end.

Definition to_exception_ (e : error) : exn :=
  match e with
  | ExceptionPtr e => e
  | ErrorCode ec => SystemError ec
  | OtherError id => UserException id
  end.

(** [complete_value_], [complete_error_], [complete_stopped_]: the receiver. *)
Definition complete_value_ (ValueType : list cty) (args : list (cty * cval A)) : M unit :=
  match make_value ValueType args with
  | Some vs => emplace_result (Value vs);; resume_
  | None => crashed BadAccess
  end.
Definition complete_error_ (e : error) : M unit :=
  emplace_result (Exception (to_exception_ e));;
  resume_.
Definition complete_stopped_ : M unit :=
  emplace_result Stopped;;
  resume_.
Definition receiver (ValueType : list cty) (c : completion A) : M unit :=
  match c with
  | SetValue args => complete_value_ ValueType args
  | SetError e => complete_error_ e
  | SetStopped => complete_stopped_
  end.

(** The same for a call that may not have happened. *)
Definition maybe_receive (ValueType : list cty) (c : option (completion A)) : M unit :=
  match c with Some c => receiver ValueType c | None => mret tt end.

(** [op_start]: [ex::start(op_state_)]; its result is the completion when it
    happens inside.  [true] keeps the coroutine suspended. *)
Definition await_suspend {B} (ValueType : list cty) (id : nat) (op_start : ST S (B * option (completion A)))
    : M (B * bool) :=
  a ← awaiter;
  in_world (pend_work_internal (Some (runtime_ a)) (runtime_ a));;
  '(t, c) ← outside op_start;
  maybe_receive ValueType c;;
  h ← exchange_handle (Handle id);
  mret (t, bool_decide (h = NoopCoroutine)).

(** [None] is [std::nullopt]. *)
Definition await_resume : M (option (list (cval A))) :=
  a ← awaiter;
  in_world (resume_work_internal (Some (runtime_ a)) (runtime_ a));;
  match result_ a with
  | Some (Value vs) => mret (Some vs)
  | Some (Exception e) => throw e
  | Some Stopped => mret None
  | None => crashed BadAccess
  end.
End awaiter.
End WaitSender.

(** ** The scheduler of a runtime *)
Module Sched.

Record Scheduler := mkScheduler { sch_runtime_ : RuntimeId }.

Definition get_scheduler (runtime : RuntimeId) : Scheduler := mkScheduler runtime.
Definition scheduler_eqb (a b : Scheduler) : bool := bool_decide (sch_runtime_ a = sch_runtime_ b).

Record ScheduleSender := mkScheduleSender { ss_runtime_ : RuntimeId }.
Definition schedule (s : Scheduler) : ScheduleSender := mkScheduleSender (sch_runtime_ s).
Definition completion_scheduler (s : ScheduleSender) : Scheduler := mkScheduler (ss_runtime_ s).
Definition completion_signatures : list (list cty) := [[]].

(** [OperationState]: it lives at an address, which is its work, and has a
    receiver. *)
Record OperationState := mkOperationState {
  os_addr : Z;
  os_runtime_ : RuntimeId;
  receiver_ : nat
}.
Definition connect (s : ScheduleSender) (addr : Z) (receiver : nat) : OperationState :=
  mkOperationState addr (ss_runtime_ s) receiver.

Section operation.
Context {U A : Type} `{Uring U}.

(** The runtimes, and the completions of receivers in the order of their calls. *)
Abbreviation M := (ST (World U * list (nat * completion A))).

Definition start (curr : option RuntimeId) (o : OperationState) (sync_res : Z) : M unit :=
  in_world (schedule_internal curr (os_runtime_ o) (os_addr o) sync_res).

Definition op_invoke (o : OperationState) : M unit :=
  modify (λ s, (s.1, s.2 ++ [(receiver_ o, SetValue [])])).

(** [Invoker::invoke] of the loop: [ops] are the operation states by address. *)
Definition invoke (ops : Z → OperationState) (this : RuntimeId) (work : Z) : M unit := op_invoke (ops work).
End operation.
End Sched.
