(* ===== verification/ExecutionProps.v ===== *)
(** * Properties of the bridge to std::execution

    A condy sender behaves as a standard sender ([StandardSender]), waiting for a
    sender resumes the coroutine once ([WaitSender]), and a scheduler completes what
    was started on it ([Sched]). *)

From stdpp Require Import base numbers list gmap.
From S2P Require Import Prelude Utils Coro WorkType Ring Runtime OpStates OpStatesProps OpShape Execution.

(** ** Results have the declared type *)

Section typed.
Context {A : Type}.
Implicit Types (s : sender (cval A)) (t : opstate (cval A)) (v : OpStates.value (cval A)).

Lemma typed_all ss cs vs ts :
  Forall (λ t, ∀ s v R, built s t → result_of t v → return_type s R → has_type (cxx v) R) cs →
  Forall2 built ss cs → Forall2 result_of cs vs → Forall2 return_type ss ts →
  Forall2 has_type (map cxx vs) ts.
Proof.
  intros IH Hb Hr. revert ss Hb ts. induction Hr as [|c v cs vs Hc _ IHr]; intros ss Hb ts Ht.
  - inversion Hb; subst. inversion Ht; subst. constructor.
  - inversion Hb; subst. inversion Ht; subst. inversion IH; subst. simpl. constructor; eauto.
Qed.

Lemma typed_ranged ss cs vs T :
  Forall (λ t, ∀ s v R, built s t → result_of t v → return_type s R → has_type (cxx v) R) cs →
  Forall2 built ss cs → Forall2 result_of cs vs → Forall (λ s, return_type s T) ss →
  Forall (λ x, has_type x T) (map cxx vs).
Proof.
  intros IH Hb Hr. revert ss Hb. induction Hr as [|c v cs vs Hc _ IHr]; intros ss Hb Ht; [constructor |].
  inversion Hb; subst. inversion Ht; subst. inversion IH; subst. simpl. constructor; eauto.
Qed.

(** What an operation delivers has the return type of its sender. *)
Lemma result_typed t : ∀ s v R, built s t → result_of t v → return_type s R → has_type (cxx v) R.
Proof.
  induction t as [o st | F t IH | p cs IH] using opstate_tree_ind; intros s v R Hb Hr Ht.
  - inversion Hb; subst. inversion Hr; subst. inversion Ht as [? ? Hh | | |]; subst. destruct H1 as [c ->]. apply Hh.
  - inversion Hb; subst. inversion Hr; subst. inversion Ht; subst. eauto.
  - apply built_par_inv in Hb as (ss & -> & Hss). inversion Ht as [| | ? ? ts Hk Hts | ? ? T Hk Hts]; subst.
    + pose proof (Forall2_length _ _ _ Hss) as L1. pose proof (Forall2_length _ _ _ Hts) as L2.
      inversion Hr as [| | ? ? vs order Hw Hvs Ho | ? ? vs Hw Hvs | ? ? vs i x Hw Hvs Hi]; subst; rewrite Hw; simpl.
      * apply ht_pair; [apply ht_array | apply ht_tuple; by eapply typed_all].
        -- rewrite length_fmap, (Permutation_length Ho), length_seq. lia.
        -- apply Forall_fmap, Forall_true. intros i. constructor.
      * apply ht_tuple. by eapply typed_all.
      * pose proof (typed_all _ _ _ _ IH Hss Hvs Hts) as Hall.
        destruct (Forall2_lookup_l _ _ _ i (cxx x) Hall) as (T & HT & HxT); [by rewrite list_lookup_fmap, Hi |].
        by eapply ht_variant.
    + inversion Hr as [| | ? ? vs order Hw Hvs Ho | ? ? vs Hw Hvs | ? ? vs i x Hw Hvs Hi]; subst; rewrite Hw; simpl.
      * apply ht_pair; [| apply ht_vector; by eapply typed_ranged].
        apply ht_vector,  Forall_fmap, Forall_true. intros i. constructor.
      * apply ht_vector. by eapply typed_ranged.
      * apply ht_pair; [constructor |]. pose proof (typed_ranged _ _ _ _ IH Hss Hvs Hts) as Hall.
        apply (Forall_lookup_1 _ _ i _ Hall). by rewrite list_lookup_fmap, Hi.
Qed.
End typed.

(** ** A condy sender is a standard sender *)

(** The result code in a result, for the types that have one. *)
Definition status {A} (R : cty) (x : cval A) : option Z :=
  match R, x with
  | TInt32, VInt32 z => Some z
  | TPair TInt32 _, VPair (VInt32 z) _ => Some z
  | _, _ => None
  end.

(** The values a result consists of. *)
Definition parts {A} (R : cty) (x : cval A) : list (cval A) :=
  match R, x with
  | TPair _ _, VPair x y => [x; y]
  | TTuple _, VSeq vs => vs
  | _, _ => [x]
  end.

(** The completion that reports the result [x]: stopped when the operation was
    cancelled, an error with the code of any other failure, and otherwise the
    values of the result, in the tuple that the signatures announce. *)
Record reports {A} (R : cty) (x : cval A) (c : completion A) : Prop := {
  rep_stopped : c = SetStopped ↔ status R x = Some (- ECANCELED);
  rep_error e : c = SetError e ↔ ∃ ec, e = ErrorCode ec ∧ 0 < ec ∧ ec ≠ ECANCELED ∧ status R x = Some (- ec);
  rep_value args : c = SetValue args →
    WaitSender.make_value (StandardSender.set_value_traits R) args = Some (parts R x);
  rep_declared : StandardSender.declared R c ↔ ∀ a b, R = TPair a b → a = TInt32
}.

Section standard.
Context {A : Type}.

Lemma reports_code R (x : cval A) z args c :
  status R x = Some z → map fst args = StandardSender.set_value_traits R → map snd args = parts R x →
  (∀ a b, R = TPair a b → a = TInt32) →
  StandardSender.complete_code z args = Some c → reports R x c.
Proof.
  intros Hs Ht Hv Hp. unfold StandardSender.complete_code.
  assert (WaitSender.make_value (StandardSender.set_value_traits R) args = Some (parts R x)) as Hm.
  { unfold WaitSender.make_value. rewrite <- Ht, length_map, bool_decide_eq_true_2, Hv by done. done. }
  destruct (Z.leb_spec 0 z); [intros [= <-] |].
  - split; rewrite ?Hs; [split; [done | intros [= ->]; unfold ECANCELED in *; lia] | | |].
    + intros e. split; [done |]. intros (ec & -> & ? & ? & [= ->]). lia.
    + by intros args' [= <-].
    + done.
  - destruct (Z.eqb_spec z (- ECANCELED)) as [->|Hz]; [intros [= <-] |].
    + split; rewrite ?Hs; [done | | done | done].
      intros e. split; [done |]. intros (ec & -> & ? & ? & [= ?]). lia.
    + destruct (Z.eqb_spec z (- 2 ^ 31)); intros [= <-].
      split; rewrite ?Hs; [split; [done | by intros [= ->]] | | done | done].
      intros e. split.
      * intros [= <-]. exists (- z). split_and!; [done | lia | lia | f_equal; lia].
      * intros (ec & -> & ? & ? & [= ->]). do 2 f_equal. lia.
Qed.

(** Results without a result code are values. *)
Lemma reports_value R (x : cval A) args :
  status R x = None →
  WaitSender.make_value (StandardSender.set_value_traits R) args = Some (parts R x) →
  (map fst args = StandardSender.set_value_traits R ↔ ∀ a b, R = TPair a b → a = TInt32) →
  reports R x (SetValue args).
Proof.
  intros Hs Hv Hd. split; rewrite ?Hs; [by split | | | exact Hd].
  - intros e. split; [done |]. by intros (? & _ & _ & _ & [=]).
  - by intros args' [= <-].
Qed.

(** The receiver wrapper reports the result, unless its code is the least integer. *)
Lemma receiver_wrapper_reports R (x : cval A) :
  has_type x R →
  match StandardSender.receiver_wrapper R x with
  | Some c => reports R x c
  | None => status R x = Some (- 2 ^ 31)
  end.
Proof.
  assert (∀ z args, status R x = Some z → map fst args = StandardSender.set_value_traits R → map snd args = parts R x →
    (∀ a b, R = TPair a b → a = TInt32) →
    match StandardSender.complete_code z args with Some c => reports R x c | None => status R x = Some (- 2 ^ 31) end) as Hc.
  { intros z args Hs Ht Hv Hp. destruct (StandardSender.complete_code z args) as [c|] eqn:E; [by eapply reports_code |].
    unfold StandardSender.complete_code in E. rewrite Hs. repeat case_match; try done. f_equal. lia. }
  intros Hx. inversion Hx as [z | n | c a | y w a b Hy Hw | vs ts Hvs | i y ts T Hi Hy | vs T Hvs | vs T n Hn Hvs]; subst;
    try (by apply reports_value).
  - by apply Hc with (args := [(TInt32, VInt32 z)]).
  - destruct a; [inversion Hy; subst; apply Hc; try done; by intros ? ? [= <- _] |..];
      by apply reports_value; try done; split; [|intros Hf; discriminate (Hf _ _ eq_refl)].
  - pose proof (Forall2_length _ _ _ Hvs) as L. simpl. apply reports_value; [done | |].
    + unfold WaitSender.make_value. simpl. rewrite length_zip_with, bool_decide_eq_true_2 by lia.
      f_equal. apply snd_zip. lia.
    + split; [done |]. intros _. simpl. apply fst_zip. lia.
Qed.
End standard.

(** *** Runs of a standard sender *)

Section runs.
Context {U A : Type} `{UringLaws U}.
Abbreviation Env := (OEnv U (cval A)).
Implicit Types (s : sender (cval A)) (t : opstate (cval A)) (e : Env).

(** The operation state, and the completion functions that have been called on the
    receiver. *)
Record StdSys := mkStdSys {
  std_tree : opstate (cval A);
  std_token : token;
  std_env : Env;
  completions : list (completion A)
}.

Inductive std_step (this : RuntimeId) (R : cty) : StdSys → StdSys → Prop :=
  | std_completion sys path o st cq t c fin e1 e2 :
      leaf_at path (std_tree sys) = Some (o, st) → accepts (o, st) cq = true →
      StandardSender.handle (Some this) R path (std_tree sys) cq (std_env sys) = Done (t, c, fin) e1 →
      StandardSender.account this fin e1 = Done tt e2 →
      std_step this R sys (mkStdSys t (std_token sys) e2 (completions sys ++ option_list c))
  | std_stop sys t e :
      std_token sys = Some false → notify_stop (Some this) (std_tree sys) (std_env sys) = Done t e →
      std_step this R sys (mkStdSys t (Some true) e (completions sys))
  | std_other sys e :
      moves this 0 (std_env sys) e → std_step this R sys (mkStdSys (std_tree sys) (std_token sys) e (completions sys)).

Definition std_reach (this : RuntimeId) (R : cty) s (tok : token) (e0 : Env) (sys : StdSys) : Prop :=
  ∃ t c e, StandardSender.start (Some this) (space_turns this e0) R tok (StandardSender.connect tok s) e0 = Done (t, c) e ∧
    rtc (std_step this R) (mkStdSys t tok e (option_list c)) sys.

(** The values behind the calls. *)
Definition behind (R : cty) (sys : StdSys) (vs : list (OpStates.value (cval A))) : Prop :=
  Forall2 (λ v c, StandardSender.receiver_wrapper R (cxx v) = Some c) vs (completions sys).
Definition op_of (sys : StdSys) (vs : list (OpStates.value (cval A))) : OSys :=
  mkOSys (std_tree sys) (std_token sys) (std_env sys) vs.

Lemma complete_with_inv R r c e e' :
  StandardSender.complete_with (A := A) R r e = Done c e' →
  e' = e ∧ Forall2 (λ v c, StandardSender.receiver_wrapper R (cxx v) = Some c) (option_list r) (option_list c).
Proof.
  unfold StandardSender.complete_with. destruct r as [v|]; [| by intros [= <- <-]].
  destruct (StandardSender.receiver_wrapper R (cxx v)) as [c'|] eqn:E; intros [= <- <-]. split; [done |].
  simpl. by constructor.
Qed.

Lemma std_step_op this R sys sys' vs :
  std_step this R sys sys' → behind R sys vs →
  ∃ vs', behind R sys' vs' ∧ op_step this (op_of sys vs) (op_of sys' vs').
Proof.
  intros Hs Hb. destruct Hs as [sys path o st cq t c fin e1 e2 Hl Ha E1 E2 | sys t e Ht E | sys e Hm].
  - unfold StandardSender.handle in E1. apply bind_inv in E1 as ([[t' r] fin'] & e' & Eh & E1). cbv beta iota in E1.
    apply bind_inv in E1 as (c' & e'' & Ec & E1). injection E1 as -> -> -> ->.
    apply complete_with_inv in Ec as [-> Hc]. exists (vs ++ option_list r).
    split; [by apply Forall2_app |]. eapply (step_completion this (op_of sys vs) path o st cq t r e2); [done | done |].
    unfold process_op. erewrite bind_done by exact Eh. cbv beta iota.
    unfold StandardSender.account in E2. by rewrite (bind_done _ _ _ _ _ E2).
  - exists vs. split; [done |]. by apply (step_stop this (op_of sys vs) t e).
  - exists vs. split; [done |]. by apply (step_other this (op_of sys vs) e).
Qed.

Lemma std_start_op this R s tok e0 t c e :
  StandardSender.start (Some this) (space_turns this e0) R tok (StandardSender.connect tok s) e0 = Done (t, c) e →
  ∃ r, connect_start this s tok e0 = Done (t, r) e ∧
    Forall2 (λ v c, StandardSender.receiver_wrapper R (cxx v) = Some c) (option_list r) (option_list c).
Proof.
  unfold StandardSender.start, StandardSender.connect. intros E.
  apply bind_inv in E as ([t' r] & e' & Es & E). cbv beta iota in E.
  apply bind_inv in E as (c' & e'' & Ec & E). injection E as -> -> ->.
  apply complete_with_inv in Ec as [-> Hc]. by exists r.
Qed.

(** A run of the standard operation state is one of the operation state it wraps. *)
Lemma std_reach_op this R s tok e0 sys :
  std_reach this R s tok e0 sys → ∃ vs, behind R sys vs ∧ op_reach this s tok e0 (op_of sys vs).
Proof.
  intros (t & c & e & E & Hr). apply std_start_op in E as (r & E & Hc).
  assert (∃ vs, behind R sys vs ∧ rtc (op_step this) (mkOSys t tok e (option_list r)) (op_of sys vs)) as (vs & Hb & Hvs).
  { remember (mkStdSys t tok e (option_list c)) as sys0 eqn:E0.
    assert (∃ vs, behind R sys0 vs ∧ rtc (op_step this) (mkOSys t tok e (option_list r)) (op_of sys0 vs)) as Hz.
    { exists (option_list r). subst sys0. split; [done |]. apply rtc_refl. }
    clear E0 E Hc. induction Hr as [| sys0 sys1 sys2 Hst _ IH]; [done |]. apply IH.
    destruct Hz as (vs & Hb & Hvs). destruct (std_step_op this R _ _ _ Hst Hb) as (vs' & Hb' & Hop).
    exists vs'. split; [done |]. by eapply rtc_r. }
  exists vs. split; [done |]. by exists t, r, e.
Qed.

(** The calls on the receiver come from what the tree has delivered. *)
Record std_ok (this : RuntimeId) (d : Z * bool) (R : cty) s (e0 : Env) (sys : StdSys) : Prop := {
  std_node : node_ok this d (std_token sys) (std_tree sys);
  std_started : started (std_tree sys);
  std_built : built s (std_tree sys);
  std_calls : behind R sys (option_list (delivered (std_tree sys)));
  std_moves : moves this (Z.of_nat (live_count (std_tree sys))) e0 (std_env sys)
}.

Lemma std_reach_ok this d R s tok e0 sys :
  sender_ok d s → in_runtime this d e0 → std_reach this R s tok e0 sys → std_ok this d R s e0 sys.
Proof.
  intros Hs He Hr. destruct (std_reach_op _ _ _ _ _ _ Hr) as (vs & Hb & Hop).
  destruct (op_reach_ok this d s tok e0 _ Hs He Hop) as [Hn Hst Hg Hm]. simpl in Hg. subst vs.
  split; try done. by apply op_reach_built in Hop.
Qed.

Lemma std_at_most_once this d R s e0 sys : std_ok this d R s e0 sys → (length (completions sys) ≤ 1)%nat.
Proof.
  intros [_ _ _ Hb _]. apply Forall2_length in Hb. destruct (delivered (std_tree sys)); simpl in Hb; lia.
Qed.

Lemma std_done_iff this d R s e0 sys :
  std_ok this d R s e0 sys → no_empty_link (std_tree sys) →
  completions sys ≠ [] ↔ Forall leaf_done (leaves (std_tree sys)).
Proof.
  intros [Hn Hst _ Hb _] Hl. rewrite <- (delivered_iff d) by (done || apply Hn).
  unfold behind in Hb. destruct (delivered (std_tree sys)); simpl in Hb; inversion Hb; subst; [| by split; [| intros [? [=]]]].
  by split; [eexists |].
Qed.

Lemma std_reports this d R s e0 sys c :
  std_ok this d R s e0 sys → return_type s R → completions sys = [c] →
  ∃ v, result_of (std_tree sys) v ∧ has_type (cxx v) R ∧ reports R (cxx v) c.
Proof.
  intros [Hn _ Hbt Hb _] HR Ec. unfold behind in Hb. rewrite Ec in Hb.
  destruct (delivered (std_tree sys)) as [v|] eqn:Ed; simpl in Hb; inversion Hb as [|? ? ? ? Hc _]; subst.
  exists v. assert (result_of (std_tree sys) v) as Hres by (by apply result_of_delivered; [apply Hn |]).
  pose proof (result_typed _ _ _ _ Hbt Hres HR) as Hty. split_and!; [done | done |].
  pose proof (receiver_wrapper_reports R (cxx v) Hty) as Hrep. by rewrite Hc in Hrep.
Qed.

(** The one result that cannot be reported: its code has no positive counterpart. *)
Definition unreportable (R : cty) (v : OpStates.value (cval A)) : Prop := status R (cxx v) = Some (- 2 ^ 31).

Lemma complete_with_ok this d R s tok t r e :
  return_type s R → node_ok this d tok t → built s t → (∀ v, r = Some v → delivered t = Some v) →
  (∃ c, StandardSender.complete_with (A := A) R r e = Done c e) ∨ ∃ v, r = Some v ∧ unreportable R v.
Proof.
  intros HR Hn Hb Hr. destruct r as [v|]; simpl; [| left; by eexists].
  assert (result_of t v) as Hv by (apply result_of_delivered; [apply Hn | auto]).
  pose proof (receiver_wrapper_reports R (cxx v) (result_typed _ _ _ _ Hb Hv HR)) as Hw.
  destruct (StandardSender.receiver_wrapper R (cxx v)); [left; by eexists | right; by exists v].
Qed.

Lemma std_start_ok this d R s tok e0 :
  sender_ok d s → in_runtime this d e0 → return_type s R →
  (∃ t c e, StandardSender.start (Some this) (space_turns this e0) R tok (StandardSender.connect tok s) e0 = Done (t, c) e) ∨
  ∃ t v e, connect_start this s tok e0 = Done (t, Some v) e ∧ unreportable R v.
Proof.
  intros Hs He HR. destruct (connect_start_ok this d s tok e0 Hs He) as (t & r & e & E & [Hn _ Hg _]).
  simpl in *. assert (built s t) as Hb.
  { unfold connect_start in E. apply start_built in E. apply E, built_connect. }
  destruct (complete_with_ok this d R s tok t r e HR Hn Hb) as [[c Ec] | (v & -> & Hu)]; [| | right; by exists t, v, e].
  - intros v ->. simpl in Hg. by destruct (delivered t); simplify_eq/=.
  - left. exists t, c, e. unfold StandardSender.start, StandardSender.connect. unfold connect_start in E.
    erewrite bind_done by exact E. cbv beta iota. by erewrite bind_done by exact Ec.
Qed.

Lemma std_handle_ok this d R s e0 sys path o st cq :
  std_ok this d R s e0 sys → return_type s R →
  leaf_at path (std_tree sys) = Some (o, st) → accepts (o, st) cq = true →
  (∃ t c fin e1 e2, StandardSender.handle (Some this) R path (std_tree sys) cq (std_env sys) = Done (t, c, fin) e1 ∧
     StandardSender.account this fin e1 = Done tt e2) ∨
  ∃ t v e, process_op this path (std_tree sys) cq (std_env sys) = Done (t, Some v) e ∧ unreportable R v.
Proof.
  intros [Hn Hst Hb _ Hm] HR Hl Hacc.
  destruct (process_op_ok this d path _ _ o st cq _ Hn Hst Hl Hacc (moves_some _ _ _ _ Hm))
    as (t & r & e & E & _ & Hn' & _ & Hstep & _). pose proof E as Ep.
  pose proof (process_op_built _ _ _ _ _ _ _ E _ Hb) as Hb'.
  unfold process_op in E. apply bind_inv in E as ([[t' r'] fin] & e1 & Eh & E). cbv beta iota in E.
  apply bind_inv in E as ([] & e2 & Ea & E). injection E as -> -> ->.
  destruct (complete_with_ok this d R s _ t r e1 HR Hn' Hb') as [[c Ec] | (v & -> & Hu)]; [| | right; by exists t, v, e].
  - intros v ->. by destruct Hstep.
  - left. exists t, c, fin, e1, e. split; [| done]. unfold StandardSender.handle.
    erewrite bind_done by exact Eh. cbv beta iota. by erewrite bind_done by exact Ec.
Qed.

(** C16. A condy sender is a well-behaved standard sender.  [start] returns and the
    completions the kernel posts are handled (unless the result is the least
    integer, whose negation overflows); whatever the order of completions and stop
    requests, at most one completion function is called on the receiver, and one
    has been called exactly when all operations have delivered (links of no
    operations aside).  It reports the result: [set_stopped] for a cancelled
    operation, [set_error] with the code of another failure, [set_value] with the
    values of the result otherwise.  The call has a declared signature unless the
    return type is a pair that does not start with [int32_t]. *)
Theorem standard_sender_completes this d s R tok e0 :
  sender_ok d s → in_runtime this d e0 → return_type s R →
  ((∃ t c e, StandardSender.start (Some this) (space_turns this e0) R tok (StandardSender.connect tok s) e0 = Done (t, c) e) ∨
   ∃ t v e, connect_start this s tok e0 = Done (t, Some v) e ∧ unreportable R v) ∧
  ∀ sys, std_reach this R s tok e0 sys →
    (∀ path o st cq, leaf_at path (std_tree sys) = Some (o, st) → accepts (o, st) cq = true →
       (∃ t c fin e1 e2, StandardSender.handle (Some this) R path (std_tree sys) cq (std_env sys) = Done (t, c, fin) e1 ∧
          StandardSender.account this fin e1 = Done tt e2) ∨
       ∃ t v e, process_op this path (std_tree sys) cq (std_env sys) = Done (t, Some v) e ∧ unreportable R v) ∧
    (length (completions sys) ≤ 1)%nat ∧
    (no_empty_link (std_tree sys) → completions sys ≠ [] ↔ Forall leaf_done (leaves (std_tree sys))) ∧
    ∀ c, completions sys = [c] → ∃ v, result_of (std_tree sys) v ∧ has_type (cxx v) R ∧ reports R (cxx v) c.
Proof.
  intros Hs He HR. split; [by apply (std_start_ok this d R s tok e0 Hs He HR) |].
  intros sys Hr. pose proof (std_reach_ok _ _ _ _ _ _ _ Hs He Hr) as Hok.
  split_and!; [| by eapply std_at_most_once | by eapply std_done_iff | intros c; by eapply std_reports].
  intros path o st cq. by eapply std_handle_ok.
Qed.
End runs.

(** ** Waiting for a sender *)

Section wait.
Context {A : Type}.

(** What [result_] holds after a completion. *)
Definition result_after (ts : list cty) (c : completion A) : option (WaitSender.ResultType A) :=
  match c with
  | SetValue args => WaitSender.Value <$> WaitSender.make_value ts args
  | SetError e => Some (WaitSender.Exception (WaitSender.to_exception_ e))
  | SetStopped => Some WaitSender.Stopped
  end.

Lemma receiver_run {S} ts c r (s : S) this h res l :
  result_after ts c = Some r →
  WaitSender.receiver (S := S) ts c (s, WaitSender.mkWaitSenderAwaiter this h res l)
  = match h with
    | NoopCoroutine => Done tt (s, WaitSender.mkWaitSenderAwaiter this NullHandle (Some r) l)
    | NullHandle => Crashed BadAccess
    | Handle id => Done tt (s, WaitSender.mkWaitSenderAwaiter this NullHandle (Some r) (l ++ [id]))
    end.
Proof.
  unfold result_after, WaitSender.receiver, WaitSender.complete_value_. intros E.
  destruct c as [args | e |]; [destruct (WaitSender.make_value ts args); simplify_eq/= | simplify_eq/=..]; by destruct h.
Qed.

Lemma receiver_inv {S} ts c (s s' : S) a a' :
  WaitSender.receiver (S := S) ts c (s, a) = Done tt (s', a') → is_Some (result_after ts c).
Proof.
  unfold result_after, WaitSender.receiver, WaitSender.complete_value_.
  destruct c as [args | e |]; [| by eexists..]. destruct (WaitSender.make_value ts args); by eauto.
Qed.

(** The awaiter of coroutine [id] after the completions [cs], all before or all
    after [await_suspend] has returned. *)
Definition awaiter_after (this id : nat) (ts : list cty) (cs : list (completion A)) (suspended : bool)
    (a : WaitSender.WaitSenderAwaiter A) : Prop :=
  match cs with
  | [] => suspended = true ∧ a = WaitSender.mkWaitSenderAwaiter this (Handle id) None []
  | [c] => WaitSender.runtime_ a = this ∧ is_Some (WaitSender.result_ a) ∧ WaitSender.result_ a = result_after ts c ∧
           WaitSender.resumed a = if suspended then [id] else []
  | _ => False
  end.

Context {U : Type} `{UringLaws U}.
Abbreviation Env := (OEnv U (cval A)).
Implicit Types (s : sender (cval A)) (e : Env).

(** A coroutine that waits for a condy sender. *)
Record WaitSys := mkWaitSys {
  w_tree : opstate (cval A);
  w_env : Env;
  w_awaiter : WaitSender.WaitSenderAwaiter A;
  suspended : bool
}.

Inductive wait_step (this : RuntimeId) (R : cty) : WaitSys → WaitSys → Prop :=
  | wait_completion sys path o st cq t c fin e1 e2 e3 a :
      leaf_at path (w_tree sys) = Some (o, st) → accepts (o, st) cq = true →
      StandardSender.handle (Some this) R path (w_tree sys) cq (w_env sys) = Done (t, c, fin) e1 →
      WaitSender.maybe_receive (StandardSender.set_value_traits R) c (e1, w_awaiter sys) = Done tt (e2, a) →
      StandardSender.account this fin e2 = Done tt e3 →
      wait_step this R sys (mkWaitSys t e3 a (suspended sys))
  | wait_other sys e :
      moves this 0 (w_env sys) e → wait_step this R sys (mkWaitSys (w_tree sys) e (w_awaiter sys) (suspended sys)).

(** [co_await wait_sender(s)] in the coroutine [id]: the receiver of the awaiter has
    no stop token. *)
Definition wait_start (this id : nat) (R : cty) s
    : ST (Env * WaitSender.WaitSenderAwaiter A) (opstate (cval A) * bool) :=
  WaitSender.await_suspend (StandardSender.set_value_traits R) id
    (λ e, StandardSender.start (Some this) (space_turns this e) R None (StandardSender.connect None s) e).

Definition wait_reach (this id : nat) (R : cty) s (e0 : Env) (sys : WaitSys) : Prop :=
  ∃ a0 t b e a, WaitSender.wait_sender (Some this) = Some a0 ∧ wait_start this id R s (e0, a0) = Done (t, b) (e, a) ∧
    rtc (wait_step this R) (mkWaitSys t e a b) sys.

Definition std_of (sys : WaitSys) (cs : list (completion A)) : StdSys := mkStdSys (w_tree sys) None (w_env sys) cs.

Lemma in_world_pair {S L B} `{HasWorld S U} (m : ST (World U) B) (s s' : S) (l : L) b :
  in_world m s = Done b s' → in_world m (s, l) = Done b (s', l).
Proof. unfold in_world, zoom. simpl. by destruct (m (world_of s)); intros [= <- <-]. Qed.

(** The two changes of the counter of pending works. *)
Lemma pend_env this e :
  is_Some (pend this e) →
  (∃ e', in_world (pend_work_internal (Some this) this) e = Done tt e' ∧ moves this 1 e e') ∧
  (∃ e', in_world (resume_work_internal (Some this) this) e = Done tt e' ∧ moves this (-1) e e').
Proof.
  intros [r Hr]%pend_lookup. unfold pend_work_internal, resume_work_internal. split; eexists;
    (split; [apply in_world_done; rewrite bind_assert by (by apply bool_decide_eq_true_2); by apply upd_rt_run |]);
    by eapply moves_with_rt; [exact Hr | apply wrap_wrap |].
Qed.

(** What [co_await] does up to the start of the operation. *)
Lemma wait_start_inv this id R s e0 a0 t b e a :
  is_Some (pend this e0) → WaitSender.wait_sender (Some this) = Some a0 →
  wait_start this id R s (e0, a0) = Done (t, b) (e, a) →
  ∃ e1 c, moves this 1 e0 e1 ∧
    StandardSender.start (Some this) (space_turns this e1) R None (StandardSender.connect None s) e1 = Done (t, c) e ∧
    awaiter_after this id (StandardSender.set_value_traits R) (option_list c) b a.
Proof.
  intros Hp [= <-] E. destruct (pend_env this e0 Hp) as [(e1 & E1 & M1) _].
  unfold wait_start, WaitSender.await_suspend in E. erewrite bind_done in E by done. cbn [WaitSender.runtime_] in E.
  erewrite bind_done in E by (apply in_world_pair; exact E1).
  apply bind_inv in E as ([t' c] & [e2 a2] & Es & E). unfold WaitSender.outside, zoom in Es. cbn [fst snd] in Es.
  destruct (StandardSender.start _ _ _ _ _ e1) as [[t2 c2] e3 | |] eqn:Est; [| done..]. injection Es as <- <- <- <-.
  exists e1, c2. split; [done |]. apply bind_inv in E as ([] & [e4 a4] & Er & E).
  destruct c2 as [c2|]; simpl in Er.
  - destruct (receiver_inv _ _ _ _ _ _ Er) as [r Hr]. rewrite (receiver_run _ _ _ _ _ _ _ _ Hr) in Er. injection Er as <- <-.
    injection E as <- <- <- <-. split; [done |]. simpl. rewrite Hr. by split_and!.
  - injection Er as <- <-. injection E as <- <- <- <-. by split_and!.
Qed.

(** Every run of a waiting coroutine is one of the standard sender; the awaiter
    follows its completions. *)
Lemma wait_reach_std this d id R s e0 sys :
  sender_ok d s → in_runtime this d e0 → wait_reach this id R s e0 sys →
  ∃ e1 cs, moves this 1 e0 e1 ∧ std_reach this R s None e1 (std_of sys cs) ∧
    awaiter_after this id (StandardSender.set_value_traits R) cs (suspended sys) (w_awaiter sys).
Proof.
  intros Hs [Hp Hd] (a0 & t & b & e & a & Ea & Est & Hr).
  destruct (wait_start_inv _ _ _ _ _ _ _ _ _ _ Hp Ea Est) as (e1 & c & M1 & Es & Ha).
  exists e1. assert (in_runtime this d e1) as He1 by (split; [by eapply moves_some | by eapply moves_dims]).
  remember (mkWaitSys t e a b) as sys0 eqn:E0.
  assert (∃ cs, moves this 1 e0 e1 ∧ std_reach this R s None e1 (std_of sys0 cs) ∧
    awaiter_after this id (StandardSender.set_value_traits R) cs (suspended sys0) (w_awaiter sys0)) as Hz.
  { exists (option_list c). subst sys0. split_and!; [done | | done]. exists t, c, e. split; [done | apply rtc_refl]. }
  clear E0 Est Es Ha. induction Hr as [| sys0 sys1 sys2 Hst _ IH]; [done |]. apply IH. clear IH.
  destruct Hz as (cs & _ & (t' & c' & e' & Es & Hrtc) & Ha).
  destruct Hst as [sys path o st cq t1 c1 fin e2 e3 e4 a1 Hl Hacc Eh Er Eacc | sys e2 Hm].
  - assert (e3 = e2) as ->.
    { destruct c1 as [c1|]; simpl in Er; [| by injection Er]. destruct (receiver_inv _ _ _ _ _ _ Er) as [r Hr].
      destruct (w_awaiter sys). rewrite (receiver_run _ _ _ _ _ _ _ _ Hr) in Er. by destruct handle_; simplify_eq. }
    assert (std_reach this R s None e1 (mkStdSys t1 None e4 (cs ++ option_list c1))) as Hreach.
    { exists t', c', e'. split; [done |]. eapply rtc_r; [exact Hrtc |].
      by apply (std_completion this R (std_of sys cs) path o st cq t1 c1 fin e2 e4). }
    exists (cs ++ option_list c1). split_and!; [done | done |]. simpl.
    pose proof (std_at_most_once _ _ _ _ _ _ (std_reach_ok _ _ _ _ _ _ _ Hs He1 Hreach)) as Hone. simpl in Hone.
    destruct c1 as [c1|]; cbn [WaitSender.maybe_receive option_list] in Er, Hone |- *;
      [| injection Er as <-; by rewrite app_nil_r].
    rewrite length_app in Hone. destruct cs as [|? cs]; [| simpl in Hone; lia].
    destruct Ha as [Hsu Ha]. rewrite Ha in Er.
    destruct (receiver_inv _ _ _ _ _ _ Er) as [r Hr]. rewrite (receiver_run _ _ _ _ _ _ _ _ Hr) in Er.
    injection Er as <-. simpl. by rewrite Hr, Hsu.
  - exists cs. split_and!; [done | | done]. exists t', c', e'. split; [done |]. eapply rtc_r; [exact Hrtc |].
    by apply (std_other this R (std_of sys cs) e2).
Qed.

(** What [co_await] evaluates to for the result [x]: the values, nothing when it was
    cancelled, an exception for another error code. *)
Definition awaited (R : cty) (x : cval A) {S} (s : S) : result S (option (list (cval A))) :=
  match status R x with
  | Some z =>
      if z =? - ECANCELED then Done None s
      else if z <? 0 then Thrown (SystemError (- z)) s
      else Done (Some (parts R x)) s
  | None => Done (Some (parts R x)) s
  end.

Lemma await_resume_run {S} `{HasWorld S U} ts R x c (s s' : S) a :
  reports R x c → ts = StandardSender.set_value_traits R → WaitSender.result_ a = result_after ts c →
  in_world (resume_work_internal (Some (WaitSender.runtime_ a)) (WaitSender.runtime_ a)) s = Done tt s' →
  WaitSender.await_resume (s, a) = awaited R x (s', a).
Proof.
  intros [Hst Her Hva _] -> Ha E. unfold WaitSender.await_resume. erewrite bind_done by done.
  erewrite bind_done by (apply in_world_pair; exact E). cbn [snd]. rewrite Ha. unfold awaited.
  destruct c as [args | e |]; simpl.
  - rewrite (Hva _ eq_refl). simpl. destruct (status R x) as [z|] eqn:Es; [| done].
    destruct (Z.eqb_spec z (- ECANCELED)) as [->|Hz]; [discriminate (proj2 Hst eq_refl) |].
    destruct (Z.ltb_spec z 0) as [Hneg|]; [| done].
    assert (SetValue args = SetError (A := A) (ErrorCode (- z))) as [=]. apply Her. exists (- z).
    split_and!; [done | lia | lia | f_equal; lia].
  - destruct (proj1 (Her e) eq_refl) as (ec & -> & Hec & Hne & ->). simpl.
    rewrite (proj2 (Z.eqb_neq _ _)) by lia. rewrite (proj2 (Z.ltb_lt _ _)) by lia. by rewrite Z.opp_involutive.
  - rewrite (proj1 Hst eq_refl), Z.eqb_refl. done.
Qed.

(** C17. [co_await wait_sender(s)] for a condy sender: until all operations of [s] have
    delivered, the coroutine is suspended and nobody has resumed it; then it goes on
    exactly once, either because [await_suspend] did not suspend it or because
    the completion resumed it, and [await_resume] returns the values of the
    result, [nullopt] for a cancelled operation or throws the system error; the
    counter of pending works, one higher in the meantime, is what it was, plus
    the operations still to be notified. *)
Theorem wait_sender_resumes this d id s R e0 sys :
  sender_ok d s → in_runtime this d e0 → return_type s R →
  wait_reach this id R s e0 sys → no_empty_link (w_tree sys) →
  (¬ Forall leaf_done (leaves (w_tree sys)) →
     suspended sys = true ∧ WaitSender.resumed (w_awaiter sys) = [] ∧ WaitSender.result_ (w_awaiter sys) = None) ∧
  (Forall leaf_done (leaves (w_tree sys)) →
     WaitSender.resumed (w_awaiter sys) = (if suspended sys then [id] else []) ∧
     ∃ v e', result_of (w_tree sys) v ∧ has_type (cxx v) R ∧
       WaitSender.await_resume (w_env sys, w_awaiter sys) = awaited R (cxx v) (e', w_awaiter sys) ∧
       moves this (Z.of_nat (live_count (w_tree sys))) e0 e').
Proof.
  intros Hs He HR Hr Hl. destruct (wait_reach_std this d id R s e0 sys Hs He Hr) as (e1 & cs & M1 & Hstd & Ha).
  assert (in_runtime this d e1) as He1 by (split; [by eapply moves_some | by eapply moves_dims; [| apply He]]).
  pose proof (std_reach_ok _ _ _ _ _ _ _ Hs He1 Hstd) as Hok.
  pose proof (std_done_iff _ _ _ _ _ _ Hok Hl) as Hdone. simpl in Hdone.
  destruct cs as [|c [|? ?]]; simpl in Ha; [| |done].
  - destruct Ha as [Hsu Ha]. split; [intros _; by rewrite Ha | intros Hall; by apply Hdone in Hall].
  - destruct Ha as (Hrt & Hsome & Hres & Hre). split; [intros Hn; by destruct Hn; apply Hdone |]. intros _. split; [done |].
    destruct (std_reports _ _ _ _ _ _ c Hok HR eq_refl) as (v & Hv & Hty & Hrep).
    pose proof (std_moves _ _ _ _ _ _ Hok) as M2. simpl in M2.
    destruct (pend_env this (w_env sys) (moves_some _ _ _ _ M2)) as [_ (e' & E' & M3)].
    exists v, e'. split_and!; [done | done | by eapply await_resume_run; [| | | rewrite Hrt] |].
    pose proof (moves_trans _ _ _ _ _ _ (moves_trans _ _ _ _ _ _ M1 M2) M3) as M.
    by replace (1 + Z.of_nat (live_count (w_tree sys)) + -1) with (Z.of_nat (live_count (w_tree sys))) in M by lia.
Qed.
End wait.

(** ** The scheduler *)

Section scheduler.
Context {U A : Type} `{UringLaws U}.
Context (handle : RuntimeId → Z → cqe → ST (World U * list (nat * completion A)) bool).
Context (cqe_nr : cqe → Z) (wait_fuel : nat).
Abbreviation S := (World U * list (nat * completion A))%type.

Fixpoint start_all (ops : list Sched.OperationState) : ST S unit :=
  match ops with
  | [] => mret tt
  | o :: ops => Sched.start None o 0;; start_all ops
  end.

(** Operations started by a thread without a runtime wait in the global queue. *)
Lemma start_all_queued this ops : ∀ (s : S) r,
  Forall (λ o, Sched.os_runtime_ o = this) ops →
  runtimes (world_of s) !! this = Some r → ring_enabled_ r = false →
  start_all ops s = Done tt (with_rt_in s this (set_global (global_queue_ r ++ (Sched.os_addr <$> ops)) r)).
Proof.
  induction ops as [|o ops IH]; intros s r Ho Hr Hen; simpl.
  - rewrite app_nil_r. destruct s as [w l], r. unfold with_rt_in, with_rt. simpl in *. rewrite insert_id by done.
    by destruct w.
  - inversion Ho as [|? ? <- Hos]; subst. unfold Sched.start.
    erewrite bind_done.
    2: { apply in_world_done. unfold schedule_internal. rewrite bool_decide_eq_false_2 by done.
         erewrite bind_done by (by apply get_rt_run). rewrite Hen. by apply upd_rt_run. }
    set (r1 := set_global (global_queue_ r ++ [Sched.os_addr o]) r).
    change (put_world _ s) with (with_rt_in s (Sched.os_runtime_ o) r1).
    rewrite (IH _ r1 Hos (with_rt_in_lookup _ _ _) Hen). rewrite with_rt_in_twice. unfold r1. simpl.
    by rewrite <- app_assoc.
Qed.

(** The completions of the operations at these addresses. *)
Definition completed (ops : Z → Sched.OperationState) (work : Z) (s : S) : S :=
  (s.1, s.2 ++ [(Sched.receiver_ (ops work), SetValue [])]).

Lemma sched_own_works ops : own_works (Sched.invoke (U := U) (A := A) ops) (completed ops) (λ _ _, []).
Proof. by split. Qed.

Lemma completed_all ops works : ∀ s : S,
  ran_all (completed ops) works s = (s.1, s.2 ++ ((λ work, (Sched.receiver_ (ops work), SetValue [])) <$> works)).
Proof.
  induction works as [|work works IH]; intros [w l]; simpl; [by rewrite app_nil_r |].
  fold (ran_all (completed ops) works). rewrite IH. simpl. by rewrite <- app_assoc.
Qed.

(** The program: connect and start, allow the exit, run. *)
Definition schedule_and_run (ops : Z → Sched.OperationState) (this thread : nat) (starts : list (Z * nat)) : ST S unit :=
  start_all ((λ p, Sched.connect (Sched.schedule (Sched.get_scheduler this)) p.1 p.2) <$> starts);;
  in_world (allow_exit None this 0);;
  run (Sched.invoke ops) handle cqe_nr wait_fuel (Datatypes.S (length starts)) this thread.

(** Senders made by [schedule()] complete on their runtime: operations started
    from a thread without a runtime wait until the runtime runs, which then calls
    [set_value()] on every receiver, once and in the order of the starts, and
    returns. *)
Theorem scheduler_completes ops this thread starts (s : S) g ei dr res u :
  (∀ addr rcv, (addr, rcv) ∈ starts → Sched.receiver_ (ops addr) = rcv) →
  runtimes (world_of s) !! this = Some (runtime_new g ei dr) →
  uring_enable_rings (ring_ g) = (res, u) → 0 ≤ res → uring_peek_cqe u = - EAGAIN →
  ∃ w' r', schedule_and_run ops this thread starts s
    = Done tt (w', s.2 ++ ((λ p, (p.2, SetValue [])) <$> starts)) ∧
    context w' !! thread = None ∧ runtimes w' !! this = Some r' ∧ local_queue_ r' = [] ∧ global_queue_ r' = [].
Proof.
  intros Hops Hr Een Hres Hpk. unfold schedule_and_run.
  set (os := _ <$> starts). set (r0 := runtime_new g ei dr) in *.
  erewrite bind_done by (apply (start_all_queued this os s r0); [| done | done]; apply Forall_fmap, Forall_true; by intros []).
  set (r1 := set_global _ r0).
  assert (in_world (allow_exit None this 0) (with_rt_in s this r1)
    = Done tt (with_rt_in s this (set_exit_allowed true r1))) as Eae.
  { erewrite in_world_done.
    2: { unfold allow_exit. erewrite bind_done by (apply upd_rt_run, with_rt_in_lookup).
         unfold wakeup_. rewrite bool_decide_eq_false_2 by done. by erewrite bind_done by (apply get_rt_run, with_rt_lookup). }
    f_equal. unfold with_rt_in. by rewrite world_of_put, put_put_world, with_rt_twice. }
  erewrite bind_done by exact Eae. set (r2 := set_exit_allowed true r1). set (s2 := with_rt_in s this r2).
  destruct (run_drains (Sched.invoke ops) handle cqe_nr wait_fuel (completed ops) (λ _ _, []) (sched_own_works ops)
    s2 this thread r2 res u _ _ _ (with_rt_in_lookup _ _ _) eq_refl Een Hres Hpk eq_refl
    (fifo_leaf _ _ (λ _ _, eq_refl) _ s2) (Nat.lt_succ_diag_r _)) as [t Et].
  assert (local_queue_ r2 ++ global_queue_ r2 = fst <$> starts) as Eq.
  { simpl. unfold os. rewrite <- list_fmap_compose. by apply list_fmap_ext. }
  rewrite Eq, length_fmap in Et. rewrite Et, completed_all. eexists _, _. split.
  - simpl. do 3 f_equal. rewrite <- list_fmap_compose. apply list_fmap_ext. intros i [addr rcv] Hi. simpl.
    f_equal. apply Hops. by eapply list_elem_of_lookup_2.
  - simpl. rewrite lookup_delete_eq, lookup_insert_eq. split_and!; try done; unfold left_by_run, entered; simpl;
      destruct dr eqn:Ed; simpl; by rewrite ?Ed.
Qed.
End scheduler.

(** ** Concrete senders *)

(** An operation that returns its result code, one that also returns an object, and
    the environment of a runtime. *)
Definition code_op (addr : Z) : op (cval Z) := mkOp addr (Some (addr, 0)) (λ c, VInt32 (cqe_res c)) OneShot.
Definition object_op (addr : Z) : op (cval Z) :=
  mkOp addr (Some (addr, 0)) (λ c, VPair (VInt32 (cqe_res c)) (VObject 1 (cqe_res c))) OneShot.
Definition code_env : OEnv SimRing (cval Z) :=
  mkOEnv (mkWorld {[0%nat := mkRuntime [] true false [] (mkRing (mkSimRing 3 [] [] 4 []) 64 0) 0 0 (Some 9%nat) 61 false false]}
            [] ∅) [].
Definition both_ops : sender (cval Z) := parallel false false [OpSender (code_op 8); OpSender (object_op 16)].
Definition both_type : cty := TPair (TArray TSize 2) (TTuple [TInt32; TPair TInt32 (TClass 1)]).

Lemma both_ok : sender_ok (4, false) both_ops ∧ return_type both_ops both_type.
Proof.
  split.
  - repeat constructor; try done; by intros [? [=]].
  - apply (rt_parallel (mkPkind false NoWrapper None false) _ [TInt32; TPair TInt32 (TClass 1)]); [done |].
    repeat constructor.
Qed.

Lemma code_in_runtime : in_runtime 0 (4, false) code_env.
Proof. split; [by eexists | reflexivity]. Qed.

(** The states of a run in which the kernel completes the leaves in this order. *)
Fixpoint std_events (this : RuntimeId) (R : cty) (evs : list (list nat * cqe)) (sys : StdSys (U := SimRing) (A := Z))
    : option (StdSys (U := SimRing) (A := Z)) :=
  match evs with
  | [] => Some sys
  | (path, cq) :: evs =>
      match leaf_at path (std_tree sys) with
      | Some (o, st) =>
          if accepts (o, st) cq then
            match StandardSender.handle (Some this) R path (std_tree sys) cq (std_env sys) with
            | Done (t, c, fin) e1 =>
                match StandardSender.account this fin e1 with
                | Done _ e2 => std_events this R evs (mkStdSys t (std_token sys) e2 (completions sys ++ option_list c))
                | _ => None
                end
            | _ => None
            end
          else None
      | None => None
      end
  end.

Lemma std_events_steps this R evs : ∀ sys sys', std_events this R evs sys = Some sys' → rtc (std_step this R) sys sys'.
Proof.
  induction evs as [|[path cq] evs IH]; intros sys sys' E; simpl in E; [injection E as ->; apply rtc_refl |].
  destruct (leaf_at path (std_tree sys)) as [[o st]|] eqn:El; [| done].
  destruct (accepts (o, st) cq) eqn:Ea; [| done].
  destruct (StandardSender.handle _ _ _ _ _ _) as [[[t c] fin] e1 | |] eqn:Eh; [| done..].
  destruct (StandardSender.account this fin e1) as [[] e2 | |] eqn:Ec; [| done..].
  eapply rtc_l; [by eapply std_completion | by apply IH].
Qed.

Definition run_standard (this : RuntimeId) (R : cty) (s : sender (cval Z)) (e0 : OEnv SimRing (cval Z))
    (evs : list (list nat * cqe)) : option (StdSys (U := SimRing) (A := Z)) :=
  match StandardSender.start (Some this) (space_turns this e0) R None (StandardSender.connect None s) e0 with
  | Done (t, c) e => std_events this R evs (mkStdSys t None e (option_list c))
  | _ => None
  end.

Lemma run_standard_reach this R s e0 evs sys :
  run_standard this R s e0 evs = Some sys → std_reach this R s None e0 sys.
Proof.
  unfold run_standard. destruct (StandardSender.start _ _ _ _ _ _) as [[t c] e | |] eqn:E; [| done..].
  intros Hev. exists t, c, e. split; [done |]. by eapply std_events_steps.
Qed.

(** [parallel] of two operations: the values arrive as one argument, a pair, although
    two arguments are declared. *)
Lemma standard_sender_completes_witness :
  match run_standard 0 both_type both_ops code_env [([1%nat], mkCqe 0 7 0); ([0%nat], mkCqe 0 (-5) 0)] with
  | Some sys =>
      let x := VPair (VSeq [VSize 1; VSize 0]) (VSeq [VInt32 (-5); VPair (VInt32 7) (VObject 1 7)]) in
      completions sys = [SetValue [(both_type, x)]] ∧ (length (completions sys) ≤ 1)%nat ∧
      ¬ StandardSender.declared both_type (SetValue [(both_type, x)])
  | None => False
  end.
Proof.
  destruct both_ok as [Hok Hty].
  destruct (run_standard 0 both_type both_ops code_env _) as [sys|] eqn:E; [| vm_compute in E; discriminate E].
  cbv zeta. split; [vm_compute in E; injection E as <-; reflexivity |].
  destruct (standard_sender_completes 0 (4, false) both_ops both_type None code_env Hok code_in_runtime Hty) as [_ Hall].
  destruct (Hall sys (run_standard_reach _ _ _ _ _ _ E)) as (_ & Hone & _ & _).
  split; [exact Hone | done].
Defined.

Lemma scheduler_completes_witness :
  ∃ w' r', schedule_and_run (A := Z) (λ _ _ _, mret true) (λ _, 1) 1
      (λ addr, Sched.mkOperationState addr 0 (Z.to_nat addr)) 0 5 [(8, 8%nat); (24, 24%nat)]
      (mkWorld {[0%nat := runtime_new (mkRing (mkSimRing 3 [] [] 4 []) 8 0) 61 false]} [] ∅, [])
    = Done tt (w', [(8%nat, SetValue []); (24%nat, SetValue [])]) ∧
    context w' !! 5%nat = None ∧ runtimes w' !! 0%nat = Some r' ∧ local_queue_ r' = [] ∧ global_queue_ r' = [].
Proof.
  apply (scheduler_completes (λ _ _ _, mret true) (λ _, 1) 1
           (λ addr, Sched.mkOperationState addr 0 (Z.to_nat addr)) 0 5 [(8, 8%nat); (24, 24%nat)]
           (mkWorld {[0%nat := runtime_new (mkRing (mkSimRing 3 [] [] 4 []) 8 0) 61 false]} [] ∅, [])
           (mkRing (mkSimRing 3 [] [] 4 []) 8 0) 61 false 0 (mkSimRing 3 [] [] 4 [])); try reflexivity.
  intros addr rcv Hin. apply elem_of_cons in Hin as [[= -> ->] | Hin]; [reflexivity |].
  apply list_elem_of_singleton in Hin. by injection Hin as -> ->.
Defined.

Fixpoint wait_events (this : RuntimeId) (R : cty) (evs : list (list nat * cqe)) (sys : WaitSys (U := SimRing) (A := Z))
    : option (WaitSys (U := SimRing) (A := Z)) :=
  match evs with
  | [] => Some sys
  | (path, cq) :: evs =>
      match leaf_at path (w_tree sys) with
      | Some (o, st) =>
          if accepts (o, st) cq then
            match StandardSender.handle (Some this) R path (w_tree sys) cq (w_env sys) with
            | Done (t, c, fin) e1 =>
                match WaitSender.maybe_receive (StandardSender.set_value_traits R) c (e1, w_awaiter sys) with
                | Done _ (e2, a) =>
                    match StandardSender.account this fin e2 with
                    | Done _ e3 => wait_events this R evs (mkWaitSys t e3 a (suspended sys))
                    | _ => None
                    end
                | _ => None
                end
            | _ => None
            end
          else None
      | None => None
      end
  end.

Lemma wait_events_steps this R evs : ∀ sys sys', wait_events this R evs sys = Some sys' → rtc (wait_step this R) sys sys'.
Proof.
  induction evs as [|[path cq] evs IH]; intros sys sys' E; simpl in E; [injection E as ->; apply rtc_refl |].
  destruct (leaf_at path (w_tree sys)) as [[o st]|] eqn:El; [| done].
  destruct (accepts (o, st) cq) eqn:Ea; [| done].
  destruct (StandardSender.handle _ _ _ _ _ _) as [[[t c] fin] e1 | |] eqn:Eh; [| done..].
  destruct (WaitSender.maybe_receive _ _ _) as [[] [e2 a] | |] eqn:Er; [| done..].
  destruct (StandardSender.account this fin e2) as [[] e3 | |] eqn:Ec; [| done..].
  eapply rtc_l; [by eapply wait_completion | by apply IH].
Qed.

Definition run_wait (this id : nat) (R : cty) (s : sender (cval Z)) (e0 : OEnv SimRing (cval Z))
    (evs : list (list nat * cqe)) : option (WaitSys (U := SimRing) (A := Z)) :=
  match WaitSender.wait_sender (Some this) with
  | Some a0 =>
      match wait_start this id R s (e0, a0) with
      | Done (t, b) (e, a) => wait_events this R evs (mkWaitSys t e a b)
      | _ => None
      end
  | None => None
  end.

Lemma run_wait_reach this id R s e0 evs sys : run_wait this id R s e0 evs = Some sys → wait_reach this id R s e0 sys.
Proof.
  unfold run_wait. destruct (WaitSender.wait_sender (Some this)) as [a0|] eqn:Ea; [| done].
  destruct (wait_start _ _ _ _ _) as [[t b] [e a] | |] eqn:E; [| done..].
  intros Hev. exists a0, t, b, e, a. split_and!; [done | done |]. by eapply wait_events_steps.
Qed.

(** A pair sent as one argument is taken apart again by the tuple it is put into. *)
Lemma wait_sender_resumes_witness :
  match run_wait 0 3 both_type both_ops code_env [([1%nat], mkCqe 0 7 0); ([0%nat], mkCqe 0 (-5) 0)] with
  | Some sys =>
      WaitSender.resumed (w_awaiter sys) = [3%nat] ∧
      match WaitSender.await_resume (w_env sys, w_awaiter sys) with
      | Done vs _ => vs = Some [VSeq [VSize 1; VSize 0]; VSeq [VInt32 (-5); VPair (VInt32 7) (VObject 1 7)]]
      | _ => False
      end
  | None => False
  end.
Proof.
  destruct both_ok as [Hok Hty].
  destruct (run_wait 0 3 both_type both_ops code_env _) as [sys|] eqn:E; [| vm_compute in E; discriminate E].
  assert (Forall leaf_done (leaves (w_tree sys)) ∧ no_empty_link (w_tree sys)) as [Hd Hl].
  { vm_compute in E. injection E as <-. split; [repeat constructor |]. simpl. repeat (constructor || intros [? [=]]). }
  pose proof (wait_sender_resumes 0 (4, false) 3 both_ops both_type code_env sys Hok code_in_runtime Hty
                (run_wait_reach _ _ _ _ _ _ _ E) Hl) as [_ Hall].
  destruct (Hall Hd) as [Hre _]. split; [| vm_compute in E; injection E as <-; vm_compute; reflexivity].
  rewrite Hre. vm_compute in E. injection E as <-. reflexivity.
Defined.
