(* ===== verification/Buffers.v ===== *)
(** * Provided buffers (include/condy/provided_buffers.hpp, detail/buffers.hpp)

    - [BufRing]: the buffer ring of liburing, a parameter, with the laws the
      code relies on; [sim_ring] is one that keeps them.
    - [Queue]: [BundledProvidedBufferQueue], whose buffers the user pushes; it
      refines a FIFO of the remaining lengths.
    - [Pool]: [BundledProvidedBufferPool], which owns its buffers, and
      [ManagedBuffer], which gives a buffer back; it refines the split of the
      buffers into those in the ring and those in use. *)

From stdpp Require Import base numbers list gmap.
From S2P Require Import Prelude Utils Ring.

Definition IORING_CQE_F_BUFFER : Z := 1.
Definition IORING_CQE_BUFFER_SHIFT : Z := 16.
Definition has_buffer (c : cqe) : bool := negb (Z.land (cqe_flags c) IORING_CQE_F_BUFFER =? 0).
Definition buffer_id (c : cqe) : Z := u16 (Z.shiftr (cqe_flags c) IORING_CQE_BUFFER_SHIFT).

(** ** The buffer ring *)

Record io_uring_buf := mkBuf {
  buf_addr : Z;
  buf_len : Z;
  buf_bid : Z
}.

(** [br_buf b i] is [b->bufs[i]]; [br_add] is [io_uring_buf_ring_add] and
    [br_advance] is [io_uring_buf_ring_advance]. *)
Class BufRing (B : Type) := {
  br_tail : B → Z;
  br_buf : B → Z → io_uring_buf;
  br_add : io_uring_buf → Z → Z → B → B;
  br_advance : Z → B → B
}.

(** What is documented of them: [br_add] writes the entry [offset] places after
    the tail, which becomes visible when the tail advances. *)
Class BufRingLaws (B : Type) `{BufRing B} := {
  br_tail_range b : 0 ≤ br_tail b < 2 ^ 16;
  br_add_tail e m off b : br_tail (br_add e m off b) = br_tail b;
  br_add_buf e m off b i :
    br_buf (br_add e m off b) i = if i =? Z.land (br_tail b + off) m then e else br_buf b i;
  br_advance_tail n b : br_tail (br_advance n b) = u16 (br_tail b + n);
  br_advance_buf n b i : br_buf (br_advance n b) i = br_buf b i
}.

Record SimBufRing := mkSimBufRing {
  sim_tail : Z;
  sim_bufs : list (Z * io_uring_buf)
}.

Definition sim_buf_lookup (l : list (Z * io_uring_buf)) (i : Z) : io_uring_buf :=
  match list_find (λ x, x.1 = i) l with
  | Some (_, (_, e)) => e
  | None => mkBuf 0 0 0
  end.

#[export] Instance sim_buf_ring : BufRing SimBufRing := {
  br_tail b := u16 (sim_tail b);
  br_buf b i := sim_buf_lookup (sim_bufs b) i;
  br_add e m off b := mkSimBufRing (sim_tail b) ((Z.land (u16 (sim_tail b) + off) m, e) :: sim_bufs b);
  br_advance n b := mkSimBufRing (u16 (u16 (sim_tail b) + n)) (sim_bufs b)
}.

#[export] Instance sim_buf_ring_laws : BufRingLaws SimBufRing.
Proof.
  split; cbn.
  - intros b. by apply wrap_range.
  - done.
  - intros e m off b i. unfold sim_buf_lookup. simpl.
    destruct (Z.eqb_spec i (Z.land (u16 (sim_tail b) + off) m)) as [E | Hne]; case_decide as Hd; simpl in *;
      try congruence. by destruct (list_find _ (sim_bufs b)) as [[? [? ?]]|].
  - intros n b. apply wrap_wrap.
  - done.
Qed.

(** Positions of a power-of-two ring: different offsets below the capacity are
    different slots. *)
Lemma slot_inj k h i j :
  0 ≤ k → 0 ≤ i < 2 ^ k → 0 ≤ j < 2 ^ k →
  Z.land (h + i) (2 ^ k - 1) = Z.land (h + j) (2 ^ k - 1) → i = j.
Proof.
  intros Hk Hi Hj. rewrite !land_mask by done. intros E.
  assert (0 < 2 ^ k) as Hpos by (by apply Z.pow_pos_nonneg).
  assert ((i - j) mod 2 ^ k = 0) as Hm.
  { replace (i - j) with ((h + i) - (h + j)) by lia. rewrite Zminus_mod, E, Z.sub_diag. apply Z.mod_0_l. lia. }
  apply Z.mod_divide in Hm as [q Hq]; [| lia]. set (P := 2 ^ k) in *.
  destruct (Z.lt_trichotomy q 0) as [Hlt | [-> | Hgt]]; [exfalso | lia | exfalso]; nia.
Qed.

Lemma land_wrap_l k a b : 0 ≤ k ≤ 16 → Z.land (u16 a + b) (2 ^ k - 1) = Z.land (a + b) (2 ^ k - 1).
Proof.
  intros Hk. rewrite !land_mask by lia. rewrite Zplus_mod, (wrap_mod_pow2 16 k) by lia. by rewrite <- Zplus_mod.
Qed.

Lemma land_wrap k a : 0 ≤ k ≤ 16 → Z.land (u16 a) (2 ^ k - 1) = Z.land a (2 ^ k - 1).
Proof. intros Hk. rewrite <- (Z.add_0_r (u16 a)), land_wrap_l by done. by rewrite Z.add_0_r. Qed.

(** ** The buffer queue *)

Module Queue.

Record BufferInfo := mkBufferInfo {
  bid : Z;
  num_buffers : Z
}.

Record ProvidedBufferQueue (B : Type) := mkQueue {
  br_ : B;
  size_ : Z;
  capacity_ : Z;
  mask_ : Z;
  bgid_ : Z;
  buf_lens_ : list Z;
  is_incr : bool
}.
Arguments mkQueue {B} br_ size_ capacity_ mask_ bgid_ buf_lens_ is_incr.
Arguments br_ {B} p.
Arguments size_ {B} p.
Arguments capacity_ {B} p.
Arguments mask_ {B} p.
Arguments bgid_ {B} p.
Arguments buf_lens_ {B} p.
Arguments is_incr {B} p.

Section queue.
Context {B : Type} `{BufRing B}.
Abbreviation M := (ST (ProvidedBufferQueue B)).

(** The queue the constructor makes, around the ring it has registered. *)
Definition queue_init (br : B) (capacity bgid : Z) (incr : bool) : ProvidedBufferQueue B :=
  let cap := bit_ceil capacity in
  mkQueue br 0 cap (cap - 1) bgid (replicate (Z.to_nat cap) 0) incr.

Definition set_lens (l : list Z) (q : ProvidedBufferQueue B) : ProvidedBufferQueue B :=
  mkQueue (br_ q) (size_ q) (capacity_ q) (mask_ q) (bgid_ q) l (is_incr q).

(** [buf_lens_[i]] *)
Definition get_len (i : Z) : M Z :=
  q ← get;
  match buf_lens_ q !! Z.to_nat i with Some l => mret l | None => crashed BadAccess end.
Definition set_len (i l : Z) : M unit :=
  q ← get;
  if bool_decide (Z.to_nat i < length (buf_lens_ q))%nat
  then put (set_lens (<[Z.to_nat i := l]> (buf_lens_ q)) q)
  else crashed BadAccess.

Definition push (data len : Z) : M Z :=
  q ← get;
  if capacity_ q <=? size_ q then throw LogicError
  else
    let bid := u16 (Z.land (br_tail (br_ q)) (mask_ q)) in
    put (mkQueue (br_add (mkBuf data (u32 len) bid) (mask_ q) 0 (br_ q)) (size_ q) (capacity_ q) (mask_ q)
           (bgid_ q) (buf_lens_ q) (is_incr q));;
    set_len bid (u32 len);;
    modify (λ q, mkQueue (br_advance 1 (br_ q)) (u32 (size_ q + 1)) (capacity_ q) (mask_ q) (bgid_ q)
                   (buf_lens_ q) (is_incr q));;
    mret bid.

(** The loop of [handle_finish]; [num] is [result.num_buffers]. *)
Fixpoint finish_loop (fuel : nat) (idx bytes num : Z) : M Z :=
  if bytes <=? 0 then mret num
  else
    match fuel with
    | O => crashed OutOfFuel
    | S fuel =>
        q ← get;
        let curr_bid := u16 (Z.land idx (mask_ q)) in
        len ← get_len curr_bid;
        let buf_len := if is_incr q then Z.min (u32 bytes) len else len in
        let rest := if is_incr q then len - buf_len else 0 in
        set_len curr_bid rest;;
        finish_loop fuel (u16 (idx + 1)) (bytes - buf_len) (if rest =? 0 then u16 (num + 1) else num)
    end.

Definition handle_finish (c : cqe) : M BufferInfo :=
  if negb (has_buffer c) then mret (mkBufferInfo 0 0)
  else
    assert_ (0 <? cqe_res c);;
    q ← get;
    num ← finish_loop (S (Z.to_nat (capacity_ q))) (buffer_id c) (cqe_res c) 0;
    assert_ (num <=? size_ q);;
    modify (λ q, mkQueue (br_ q) (size_ q - num) (capacity_ q) (mask_ q) (bgid_ q) (buf_lens_ q) (is_incr q));;
    mret (mkBufferInfo (buffer_id c) num).

(** [ProvidedBufferQueue::handle_finish] *)
Definition handle_finish_one (c : cqe) : M BufferInfo :=
  r ← handle_finish c;
  assert_ (num_buffers r <=? 1);;
  mret r.

End queue.

(** *** The specification: a FIFO of remaining lengths *)

Definition total (l : list Z) : Z := foldr Z.add 0 l.

(** Consuming [bytes] from the front: how many buffers are used up and what is
    left.  Without incremental consumption a buffer is used up when it is
    touched. *)
Fixpoint consume (incr : bool) (l : list Z) (bytes : Z) : nat * list Z :=
  if bytes <=? 0 then (0%nat, l)
  else
    match l with
    | [] => (0%nat, [])
    | x :: l' =>
        if incr && (bytes <? x) then (0%nat, x - bytes :: l')
        else let '(k, r) := consume incr l' (bytes - x) in (S k, r)
    end.

(** [l]: the remaining lengths of the queued buffers, the oldest first; they sit
    in consecutive slots up to the tail. *)
Record queue_ok {B} `{BufRing B} (q : ProvidedBufferQueue B) (k : Z) (l : list Z) : Prop := {
  q_k : 0 ≤ k ≤ 15;
  q_cap : capacity_ q = 2 ^ k;
  q_mask : mask_ q = 2 ^ k - 1;
  q_lens : Z.of_nat (length (buf_lens_ q)) = 2 ^ k;
  q_size : size_ q = Z.of_nat (length l);
  q_le : Z.of_nat (length l) ≤ 2 ^ k;
  q_pos : Forall (λ x, 0 < x < 2 ^ 32) l;
  q_slots j x : l !! j = Some x →
    buf_lens_ q !! Z.to_nat (Z.land (br_tail (br_ q) - Z.of_nat (length l) + Z.of_nat j) (2 ^ k - 1)) = Some x
}.

Section queue_props.
Context {B : Type} `{BufRingLaws B}.
Implicit Types q : ProvidedBufferQueue B.

Lemma mask_range k x : 0 ≤ k → 0 ≤ Z.land x (2 ^ k - 1) < 2 ^ k.
Proof. intros. rewrite land_mask by done. apply Z.mod_pos_bound. by apply Z.pow_pos_nonneg. Qed.

Lemma pow_le_16 k : 0 ≤ k ≤ 15 → 2 ^ k ≤ 2 ^ 15.
Proof. intros. apply Z.pow_le_mono_r; lia. Qed.

Lemma slot_small k x : 0 ≤ k ≤ 15 → u16 (Z.land x (2 ^ k - 1)) = Z.land x (2 ^ k - 1).
Proof.
  intros Hk. apply wrap_small. pose proof (mask_range k x ltac:(lia)). pose proof (pow_le_16 k Hk). lia.
Qed.

Lemma queue_init_ok (br : B) capacity bgid incr :
  0 ≤ capacity ≤ 2 ^ 15 → br_tail br = 0 →
  queue_ok (queue_init br capacity bgid incr) (Z.log2_up capacity) [].
Proof.
  intros Hc Ht. assert (0 ≤ Z.log2_up capacity ≤ 15) as Hk.
  { split; [apply Z.log2_up_nonneg |]. rewrite <- (Z.log2_up_pow2 15) by done. apply Z.log2_up_le_mono. lia. }
  pose proof (Z.pow_pos_nonneg 2 (Z.log2_up capacity)).
  unfold queue_init, bit_ceil. split; simpl; try done; try lia.
  rewrite length_replicate. lia.
Qed.

Lemma get_len_run q i x : buf_lens_ q !! Z.to_nat i = Some x → get_len i q = Done x q.
Proof. intros E. unfold get_len. run_st. by rewrite E. Qed.

Lemma set_len_run q i x y :
  buf_lens_ q !! Z.to_nat i = Some x → set_len i y q = Done tt (set_lens (<[Z.to_nat i := y]> (buf_lens_ q)) q).
Proof.
  intros E. unfold set_len. rewrite bind_get. rewrite bool_decide_eq_true_2; [done |]. by eapply lookup_lt_Some.
Qed.

(** Pushing: rejected when the queue is full, otherwise the buffer joins the end
    and its id is the slot after the last one. *)
Lemma push_ok q k l data len :
  queue_ok q k l → 0 < len < 2 ^ 32 →
  if size_ q =? 2 ^ k then push data len q = Thrown LogicError q
  else ∃ q', push data len q = Done (Z.land (br_tail (br_ q)) (2 ^ k - 1)) q' ∧ queue_ok q' k (l ++ [len]) ∧
         br_tail (br_ q') = u16 (br_tail (br_ q) + 1) ∧ is_incr q' = is_incr q ∧ bgid_ q' = bgid_ q.
Proof.
  intros [Hk Hcap Hm Hl Hs Hle Hpos Hsl] Hlen. unfold push. rewrite bind_get, Hcap, Hs.
  destruct (Z.eqb_spec (Z.of_nat (length l)) (2 ^ k)) as [He | Hne].
  { by rewrite (proj2 (Z.leb_le _ _)) by lia. }
  rewrite (proj2 (Z.leb_gt _ _)) by lia. rewrite Hm, slot_small by done.
  set (slot := Z.land (br_tail (br_ q)) (2 ^ k - 1)). rewrite (wrap_small 32) by lia.
  pose proof (mask_range k (br_tail (br_ q)) ltac:(lia)) as Hr. fold slot in Hr.
  assert (is_Some (buf_lens_ q !! Z.to_nat slot)) as [old Hold] by (apply lookup_lt_is_Some; lia).
  pose proof (pow_le_16 k Hk).
  eexists. split.
  { erewrite bind_done by done. erewrite bind_done by (by eapply set_len_run). by erewrite bind_done by done. }
  split_and!; try done; [| by cbn [br_ set_lens]; rewrite br_advance_tail, br_add_tail].
  split; cbn [capacity_ mask_ buf_lens_ size_ br_ set_lens]; try done.
  - by rewrite length_insert.
  - rewrite length_app, wrap_small; simpl; lia.
  - rewrite length_app. simpl. lia.
  - apply Forall_app. split; [done | by constructor].
  - intros j x Hj. rewrite br_advance_tail, br_add_tail, length_app. simpl length.
    replace (u16 (br_tail (br_ q) + 1) - Z.of_nat (length l + 1) + Z.of_nat j)
      with (u16 (br_tail (br_ q) + 1) + (Z.of_nat j - Z.of_nat (length l + 1))) by lia.
    rewrite land_wrap_l by lia.
    replace (br_tail (br_ q) + 1 + (Z.of_nat j - Z.of_nat (length l + 1)))
      with (br_tail (br_ q) - Z.of_nat (length l) + Z.of_nat j) by lia.
    apply lookup_app_Some in Hj as [Hj | [Hj1 Hj2]].
    + pose proof (lookup_lt_Some _ _ _ Hj) as Hlt. rewrite list_lookup_insert_ne; [by apply Hsl |].
      intros E. apply Z2Nat.inj in E; [| lia | apply mask_range; lia].
      assert (Z.of_nat (length l) = Z.of_nat j); [| lia].
      apply (slot_inj k (br_tail (br_ q) - Z.of_nat (length l))); [lia | lia | lia |].
      rewrite <- E. f_equal. lia.
    + apply list_lookup_singleton_Some in Hj2 as [Hj2 ->]. assert (j = length l) as -> by lia.
      replace (br_tail (br_ q) - Z.of_nat (length l) + Z.of_nat (length l)) with (br_tail (br_ q)) by lia.
      fold slot. apply list_lookup_insert_eq. lia.
Qed.

(** The buffers [l] sit in consecutive slots from [h] on. *)
Definition slots (k h : Z) (lens l : list Z) : Prop :=
  ∀ j x, l !! j = Some x → lens !! Z.to_nat (Z.land (h + Z.of_nat j) (2 ^ k - 1)) = Some x.

Lemma slots_tail k h lens x l y :
  0 ≤ k → Z.of_nat (length (x :: l)) ≤ 2 ^ k → slots k h lens (x :: l) →
  slots k (h + 1) (<[Z.to_nat (Z.land h (2 ^ k - 1)) := y]> lens) l.
Proof.
  intros Hk Hl Hs j z Hj. pose proof (lookup_lt_Some _ _ _ Hj) as Hlt. simpl in Hl.
  replace (h + 1 + Z.of_nat j) with (h + Z.of_nat (S j)) by lia.
  rewrite list_lookup_insert_ne; [by apply Hs |]. intros E.
  apply Z2Nat.inj in E; [| apply mask_range; lia | apply mask_range; lia].
  assert (0 = Z.of_nat (S j)); [| lia]. apply (slot_inj k h); [lia | lia | lia |].
  by rewrite Z.add_0_r.
Qed.

Lemma slots_head k h lens x l y :
  0 ≤ k → Z.of_nat (length (x :: l)) ≤ 2 ^ k → slots k h lens (x :: l) →
  slots k h (<[Z.to_nat (Z.land h (2 ^ k - 1)) := y]> lens) (y :: l).
Proof.
  intros Hk Hl Hs [|j] z Hj.
  - simpl in Hj. simplify_eq. rewrite Z.add_0_r. apply list_lookup_insert_eq.
    pose proof (Hs 0%nat x eq_refl) as Hx. rewrite Z.add_0_r in Hx. by eapply lookup_lt_Some.
  - replace (h + Z.of_nat (S j)) with (h + 1 + Z.of_nat j) by lia.
    by apply (slots_tail k h lens x l y).
Qed.

Lemma total_nonneg l : Forall (λ x, 0 < x < 2 ^ 32) l → 0 ≤ total l.
Proof. induction 1; simpl; lia. Qed.

Lemma queue_finish_loop_ok k l : ∀ fuel idx bytes num q h,
  0 ≤ k ≤ 15 → mask_ q = 2 ^ k - 1 → Z.of_nat (length l) ≤ 2 ^ k → Forall (λ x, 0 < x < 2 ^ 32) l →
  slots k h (buf_lens_ q) l → Z.land idx (2 ^ k - 1) = Z.land h (2 ^ k - 1) →
  bytes ≤ total l → bytes < 2 ^ 31 → (length l < fuel)%nat → 0 ≤ num → num + Z.of_nat (length l) < 2 ^ 16 →
  let '(n, rest) := consume (is_incr q) l bytes in
  ∃ lens', finish_loop fuel idx bytes num q = Done (num + Z.of_nat n) (set_lens lens' q) ∧
    length lens' = length (buf_lens_ q) ∧ slots k (h + Z.of_nat n) lens' rest.
Proof.
  induction l as [|x l IH]; intros fuel idx bytes num q h Hk Hm Hl Hpos Hs Hidx Hb Hb' Hf Hn Hn'.
  all: destruct fuel as [|fuel]; [simpl in Hf; lia |]; cbn [consume finish_loop].
  - simpl in Hb. rewrite (proj2 (Z.leb_le bytes 0)) by lia.
    exists (buf_lens_ q). rewrite !Z.add_0_r. split_and!; [by destruct q | done | done].
  - destruct (Z.leb_spec bytes 0) as [Hz | Hz].
    { exists (buf_lens_ q). rewrite !Z.add_0_r. split_and!; [by destruct q | done | done]. }
    inversion Hpos as [|? ? Hx Hpos']; subst. cbn [length total foldr] in *. fold (total l) in Hb.
    assert (buf_lens_ q !! Z.to_nat (Z.land h (2 ^ k - 1)) = Some x) as Hlook.
    { rewrite <- (Hs 0%nat x eq_refl). by rewrite Z.add_0_r. }
    rewrite bind_get, Hm, slot_small, Hidx by done. erewrite bind_done by (by apply get_len_run).
    rewrite (wrap_small 32) by lia.
    destruct (is_incr q && (bytes <? x)) eqn:Ep.
    + apply andb_true_iff in Ep as [Hi Hlt%Z.ltb_lt]. rewrite Hi, Z.min_l by lia.
      erewrite bind_done by (by eapply set_len_run). rewrite (proj2 (Z.eqb_neq (x - bytes) 0)) by lia.
      exists (<[Z.to_nat (Z.land h (2 ^ k - 1)) := x - bytes]> (buf_lens_ q)).
      rewrite Z.sub_diag, !Z.add_0_r. split_and!; [by destruct fuel | by rewrite length_insert |].
      apply (slots_head k h _ x); [lia | simpl; lia | done].
    + assert ((if is_incr q then Z.min bytes x else x) = x ∧ (if is_incr q then x - (if is_incr q then Z.min bytes x else x) else 0) = 0) as [E1 E2].
      { destruct (is_incr q); simpl in Ep; [apply Z.ltb_ge in Ep; lia | done]. }
      rewrite E2, E1. erewrite bind_done by (by eapply set_len_run).
      destruct (consume (is_incr q) l (bytes - x)) as [n rest] eqn:Ec.
      set (q1 := set_lens _ q). rewrite Z.eqb_refl, (wrap_small 16 (num + 1)) by lia.
      specialize (IH fuel (u16 (idx + 1)) (bytes - x) (num + 1) q1 (h + 1)).
      change (is_incr q1) with (is_incr q) in IH. rewrite Ec in IH.
      destruct IH as (lens' & E & Hlen & Hsl); try done; try lia.
      * by apply (slots_tail k h _ x); [lia | simpl; lia |].
      * rewrite land_wrap by lia. rewrite !land_mask in * by lia. by rewrite Zplus_mod, Hidx, <- Zplus_mod.
      * exists lens'. split_and!.
        -- rewrite E. f_equal. lia.
        -- rewrite Hlen. subst q1. simpl. by rewrite length_insert.
        -- by replace (h + Z.of_nat (S n)) with (h + 1 + Z.of_nat n) by lia.
Qed.

Lemma consume_spec incr l : ∀ bytes n rest,
  Forall (λ x, 0 < x < 2 ^ 32) l → consume incr l bytes = (n, rest) →
  length l = (n + length rest)%nat ∧ Forall (λ x, 0 < x < 2 ^ 32) rest.
Proof.
  induction l as [|x l IH]; intros bytes n rest Hpos E; cbn [consume] in E;
    destruct (Z.leb_spec bytes 0); simplify_eq; try done.
  inversion Hpos; subst. destruct (incr && (bytes <? x)) eqn:Ep.
  - simplify_eq. split; [done |]. apply andb_true_iff in Ep as [_ ?%Z.ltb_lt]. constructor; [lia | done].
  - destruct (consume incr l (bytes - x)) as [n' r'] eqn:Ec. simplify_eq.
    destruct (IH _ _ _ ltac:(done) Ec) as [Hl ?]. simpl. by rewrite Hl.
Qed.

Lemma queue_handle_finish_ok q k l c :
  queue_ok q k l → has_buffer c = true → 0 < cqe_res c < 2 ^ 31 → cqe_res c ≤ total l →
  Z.land (buffer_id c) (2 ^ k - 1) = Z.land (br_tail (br_ q) - Z.of_nat (length l)) (2 ^ k - 1) →
  let '(n, rest) := consume (is_incr q) l (cqe_res c) in
  ∃ q', handle_finish c q = Done (mkBufferInfo (buffer_id c) (Z.of_nat n)) q' ∧ queue_ok q' k rest ∧
    br_ q' = br_ q ∧ is_incr q' = is_incr q ∧ bgid_ q' = bgid_ q.
Proof.
  intros [Hk Hcap Hm Hl Hs Hle Hpos Hsl] Hbuf Hres Htot Hbid.
  pose proof (pow_le_16 k Hk) as Hp15.
  pose proof (queue_finish_loop_ok k l (S (Z.to_nat (capacity_ q))) (buffer_id c) (cqe_res c) 0 q
                (br_tail (br_ q) - Z.of_nat (length l)) Hk Hm Hle Hpos Hsl Hbid Htot) as Hloop.
  destruct (consume (is_incr q) l (cqe_res c)) as [n rest] eqn:Ec.
  destruct (consume_spec _ _ _ _ _ Hpos Ec) as [Hlen Hpos'].
  destruct Hloop as (lens' & E & Hlens & Hsl'); [lia | lia | lia | lia |]. rewrite Z.add_0_l in E.
  unfold handle_finish. rewrite Hbuf. cbn [negb].
  rewrite bind_assert by (apply Z.ltb_lt; lia). rewrite bind_get. erewrite bind_done by exact E.
  rewrite bind_assert by (apply Z.leb_le; lia).
  eexists. split; [done |]. split_and!; [| done..].
  split; cbn [capacity_ mask_ buf_lens_ size_ br_ set_lens]; try done; try lia.
  intros j x Hj. replace (br_tail (br_ q) - Z.of_nat (length rest) + Z.of_nat j)
    with (br_tail (br_ q) - Z.of_nat (length l) + Z.of_nat n + Z.of_nat j) by lia. by apply Hsl'.
Qed.

(** The completions of the kernel: the result was put into the oldest buffers of
    the [l] that are queued after [m] pushes. *)
Definition kernel_posts (cap m : Z) (l : list Z) (c : cqe) : Prop :=
  has_buffer c = true ∧ 0 < cqe_res c < 2 ^ 31 ∧ cqe_res c ≤ total l ∧
  buffer_id c = (m - Z.of_nat (length l)) mod cap.

(** The states of a queue: [l] is what is queued, [m] the number of pushes. *)
Inductive queue_run (br : B) (capacity bgid : Z) (incr : bool) : ProvidedBufferQueue B → list Z → Z → Prop :=
  | run_init : queue_run br capacity bgid incr (queue_init br capacity bgid incr) [] 0
  | run_push q l m data len i q' :
      queue_run br capacity bgid incr q l m → 0 < len < 2 ^ 32 → push data len q = Done i q' →
      queue_run br capacity bgid incr q' (l ++ [len]) (m + 1)
  | run_finish q l m c info q' :
      queue_run br capacity bgid incr q l m → kernel_posts (bit_ceil capacity) m l c →
      handle_finish c q = Done info q' →
      queue_run br capacity bgid incr q' (consume incr l (cqe_res c)).2 m.

Lemma kernel_posts_slot q k m l c :
  queue_ok q k l → br_tail (br_ q) = u16 m → kernel_posts (2 ^ k) m l c →
  Z.land (buffer_id c) (2 ^ k - 1) = Z.land (br_tail (br_ q) - Z.of_nat (length l)) (2 ^ k - 1).
Proof.
  intros Hq Ht (_ & _ & _ & ->). destruct (q_k _ _ _ Hq). rewrite Ht.
  change (u16 m - Z.of_nat (length l)) with (u16 m + - Z.of_nat (length l)).
  rewrite land_wrap_l by lia. rewrite !land_mask by lia. by rewrite Zmod_mod.
Qed.

Lemma queue_run_ok br capacity bgid incr q l m :
  0 ≤ capacity ≤ 2 ^ 15 → br_tail br = 0 → queue_run br capacity bgid incr q l m →
  queue_ok q (Z.log2_up capacity) l ∧ br_tail (br_ q) = u16 m ∧ is_incr q = incr.
Proof.
  intros Hc Ht. induction 1 as [| q l m data len i q' _ (Hq & Htm & Hi) Hlen E | q l m c info q' _ (Hq & Htm & Hi) Hc' E].
  - split_and!; [by apply queue_init_ok | done | done].
  - pose proof (push_ok q _ l data len Hq Hlen) as Hp. destruct (_ =? _); [congruence |].
    destruct Hp as (q2 & E2 & Hq2 & Ht2 & Hi2 & _). rewrite E in E2. injection E2 as -> <-.
    split_and!; [done | | congruence]. by rewrite Ht2, Htm, wrap_add_l.
  - pose proof (kernel_posts_slot _ _ _ _ _ Hq Htm Hc') as Hslot. destruct Hc' as (Hb & Hr & Htot & _).
    pose proof (queue_handle_finish_ok q _ l c Hq Hb Hr Htot Hslot) as Hf. rewrite Hi in Hf.
    destruct (consume incr l (cqe_res c)) as [n rest]. destruct Hf as (q2 & E2 & Hq2 & Hbr & Hi2 & _).
    rewrite E in E2. injection E2 as -> <-. split_and!; [done | by rewrite Hbr | congruence].
Qed.

(** C13. The provided-buffer queue is a FIFO: after any pushes and completions, [push]
    throws exactly when the queue holds [capacity] buffers and otherwise returns
    the number of earlier pushes modulo the capacity; a completion yields the id
    of the oldest buffer and the number of buffers it used up (none for a partly
    used buffer of an incremental ring), and takes exactly these from the front;
    its loop ends and its assertions hold.  For a capacity of at most 2^15, the
    largest ring the kernel registers, and buffers that are not empty. *)
Theorem queue_refines_fifo br capacity bgid incr q l m :
  0 ≤ capacity ≤ 2 ^ 15 → br_tail br = 0 → queue_run br capacity bgid incr q l m →
  let cap := bit_ceil capacity in
  size_ q = Z.of_nat (length l) ∧
  (∀ data len, 0 < len < 2 ^ 32 →
     if Z.of_nat (length l) =? cap then push data len q = Thrown LogicError q
     else ∃ q', push data len q = Done (m mod cap) q' ∧ size_ q' = Z.of_nat (length l) + 1) ∧
  (∀ c, kernel_posts cap m l c →
     ∃ q', handle_finish c q
           = Done (mkBufferInfo (buffer_id c) (Z.of_nat (consume incr l (cqe_res c)).1)) q' ∧
       size_ q' = Z.of_nat (length (consume incr l (cqe_res c)).2)).
Proof.
  intros Hc Ht Hrun cap. destruct (queue_run_ok _ _ _ _ _ _ _ Hc Ht Hrun) as (Hq & Htm & Hi).
  pose proof (q_size _ _ _ Hq) as Hs. split_and!; [done | |].
  - intros data len Hlen. pose proof (push_ok q _ l data len Hq Hlen) as Hp. rewrite Hs in Hp.
    fold (bit_ceil capacity) in Hp. fold cap in Hp. destruct (_ =? cap); [done |].
    destruct Hp as (q' & E & Hq' & _). exists q'. destruct (q_k _ _ _ Hq). split.
    + rewrite E, Htm. f_equal. unfold cap, bit_ceil. rewrite land_wrap by lia. by apply land_mask.
    + rewrite (q_size _ _ _ Hq'), length_app. simpl. lia.
  - intros c Hk. pose proof (kernel_posts_slot _ _ _ _ _ Hq Htm Hk) as Hslot. destruct Hk as (Hb & Hr & Htot & _).
    pose proof (queue_handle_finish_ok q _ l c Hq Hb Hr Htot Hslot) as Hf. rewrite Hi in Hf.
    destruct (consume incr l (cqe_res c)) as [n rest]. destruct Hf as (q' & E & Hq' & _).
    exists q'. split; [done |]. apply (q_size _ _ _ Hq').
Qed.

End queue_props.
End Queue.

(** Two buffers pushed into a queue of two, then 30 bytes received. *)
Lemma queue_refines_fifo_witness :
  let br := mkSimBufRing 0 [] in
  match (Queue.push 1000 20;; Queue.push 2000 20) (Queue.queue_init br 2 0 false) with
  | Done i q => i = 1 ∧ Queue.push 3000 20 q = Thrown LogicError q ∧
      ∃ q', Queue.handle_finish (mkCqe 0 30 1) q = Done (Queue.mkBufferInfo 0 2) q' ∧ Queue.size_ q' = 0
  | _ => False
  end.
Proof.
  intros br.
  destruct (Queue.push 1000 20 (Queue.queue_init br 2 0 false)) as [i1 q1 | |] eqn:E1; [| discriminate E1 | discriminate E1].
  destruct (Queue.push 2000 20 q1) as [i q | |] eqn:E2;
    [| vm_compute in E1; injection E1 as <- <-; discriminate E2 | vm_compute in E1; injection E1 as <- <-; discriminate E2].
  erewrite bind_done by exact E1. rewrite E2.
  assert (Queue.queue_run br 2 0 false q [20; 20] 2) as Hrun.
  { apply (Queue.run_push br 2 0 false q1 [20] 1 2000 20 i); [| lia | exact E2].
    apply (Queue.run_push br 2 0 false (Queue.queue_init br 2 0 false) [] 0 1000 20 i1); [apply Queue.run_init | lia | exact E1]. }
  assert (br_tail br = 0) as Ht by reflexivity.
  destruct (Queue.queue_refines_fifo br 2 0 false q [20; 20] 2 ltac:(lia) Ht Hrun) as (_ & Hpush & Hfin).
  split_and!.
  - vm_compute in E1. injection E1 as <- <-. vm_compute in E2. by injection E2 as <- <-.
  - apply (Hpush 3000 20). lia.
  - apply (Hfin (mkCqe 0 30 1)). repeat split; (reflexivity || lia || discriminate).
Defined.

(** ** The buffer pool *)

Module Pool.

(** [ManagedBuffer]; [owned] is [pool_ != nullptr]. *)
Record ManagedBuffer := mkManaged {
  data_ : Z;
  size_ : Z;
  owned : bool
}.

Record ProvidedBufferPool (B : Type) := mkPool {
  br_ : B;
  buffers_base_ : Z;
  num_buffers_ : Z;
  mask_ : Z;
  buffer_size_ : Z;
  curr_buf_len_ : Z;
  bgid_ : Z;
  br_head_ : Z;
  is_incr : bool
}.
Arguments mkPool {B} br_ buffers_base_ num_buffers_ mask_ buffer_size_ curr_buf_len_ bgid_ br_head_ is_incr.
Arguments br_ {B} p.
Arguments buffers_base_ {B} p.
Arguments num_buffers_ {B} p.
Arguments mask_ {B} p.
Arguments buffer_size_ {B} p.
Arguments curr_buf_len_ {B} p.
Arguments bgid_ {B} p.
Arguments br_head_ {B} p.
Arguments is_incr {B} p.

Section pool.
Context {B : Type} `{BufRing B}.
Abbreviation M := (ST (ProvidedBufferPool B)).

(** The loop of the constructor that fills the ring. *)
Definition fill (base size mask : Z) (bids : list Z) (br : B) : B :=
  foldl (λ br bid, br_add (mkBuf (base + bid * size) size bid) mask bid br) br bids.

(** The pool the constructor makes, around the ring it has registered;
    [buffer_size] is kept as a [uint32_t]. *)
Definition pool_init (br : B) (base num_buffers buffer_size bgid : Z) (incr : bool) : ProvidedBufferPool B :=
  let n := bit_ceil num_buffers in
  let size := u32 buffer_size in
  mkPool (br_advance n (fill base size (n - 1) (seqZ 0 n) br)) base n (n - 1) size size bgid 0 incr.

Definition get_buffer_ (p : ProvidedBufferPool B) (bid : Z) : Z := buffers_base_ p + bid * buffer_size_ p.
Definition curr_io_uring_buf_ (p : ProvidedBufferPool B) : io_uring_buf :=
  br_buf (br_ p) (Z.land (br_head_ p) (mask_ p)).

Definition set_curr (len : Z) (p : ProvidedBufferPool B) : ProvidedBufferPool B :=
  mkPool (br_ p) (buffers_base_ p) (num_buffers_ p) (mask_ p) (buffer_size_ p) len (bgid_ p) (br_head_ p)
    (is_incr p).
Definition advance_io_uring_buf_ (p : ProvidedBufferPool B) : ProvidedBufferPool B :=
  mkPool (br_ p) (buffers_base_ p) (num_buffers_ p) (mask_ p) (buffer_size_ p) (curr_buf_len_ p) (bgid_ p)
    (u16 (br_head_ p + 1)) (is_incr p).

Fixpoint finish_loop (fuel : nat) (bytes : Z) (buffers : list ManagedBuffer) : M (list ManagedBuffer) :=
  if bytes <=? 0 then mret buffers
  else
    match fuel with
    | O => crashed OutOfFuel
    | S fuel =>
        p ← get;
        let bid := buf_bid (curr_io_uring_buf_ p) in
        let data := get_buffer_ p bid + (buffer_size_ p - curr_buf_len_ p) in
        let buf_len := if is_incr p then Z.min (u32 bytes) (curr_buf_len_ p) else curr_buf_len_ p in
        modify (set_curr (if is_incr p then curr_buf_len_ p - buf_len else 0));;
        p ← get;
        if curr_buf_len_ p =? 0 then
          modify (λ p, set_curr (buffer_size_ p) (advance_io_uring_buf_ p));;
          finish_loop fuel (bytes - buf_len) (buffers ++ [mkManaged data buf_len true])
        else finish_loop fuel (bytes - buf_len) (buffers ++ [mkManaged data buf_len false])
    end.

(** Every turn takes at least one byte. *)
Definition handle_finish (c : cqe) : M (list ManagedBuffer) :=
  if negb (has_buffer c) then mret []
  else
    assert_ (0 <? cqe_res c);;
    finish_loop (S (Z.to_nat (cqe_res c))) (cqe_res c) [].

(** [ProvidedBufferPool::handle_finish] *)
Definition handle_finish_one (c : cqe) : M ManagedBuffer :=
  buffers ← handle_finish c;
  match buffers with
  | [] => mret (mkManaged 0 0 false)
  | b :: rest => assert_ (bool_decide (rest = []));; mret b
  end.

Definition add_buffer_back (ptr size : Z) : M unit :=
  p ← get;
  assert_ (size <=? buffer_size_ p);;
  assert_ (buffers_base_ p <=? ptr);;
  let offset := ptr - buffers_base_ p in
  let bid := offset / buffer_size_ p in
  assert_ (bid <? num_buffers_ p);;
  put (mkPool (br_advance 1 (br_add (mkBuf (buffers_base_ p + bid * buffer_size_ p) (buffer_size_ p) (u16 bid))
                               (mask_ p) 0 (br_ p)))
         (buffers_base_ p) (num_buffers_ p) (mask_ p) (buffer_size_ p) (curr_buf_len_ p) (bgid_ p) (br_head_ p)
         (is_incr p)).

(** [ManagedBuffer::reset], also run by its destructor. *)
Definition reset (b : ManagedBuffer) : M ManagedBuffer :=
  (if owned b then add_buffer_back (data_ b) (size_ b) else mret tt);;
  mret (mkManaged 0 0 false).

(** [target = std::move(other)] for different objects: both afterwards. *)
Definition move_assign (target other : ManagedBuffer) : M (ManagedBuffer * ManagedBuffer) :=
  reset target;;
  mret (other, mkManaged 0 0 false).

End pool.

(** *** The specification: buffers in the ring and buffers in use *)

(** What a result of [bytes] yields when the buffers [avail] are in the ring and
    [curr] bytes of the first are unused: the pieces handed out, the buffers left
    in the ring and the unused part of the first. *)
Fixpoint segments (incr : bool) (base size : Z) (avail : list Z) (curr bytes : Z)
    : list ManagedBuffer * list Z * Z :=
  if bytes <=? 0 then ([], avail, curr)
  else
    match avail with
    | [] => ([], [], curr)
    | bid :: rest =>
        let data := base + bid * size + (size - curr) in
        if incr && (bytes <? curr) then ([mkManaged data bytes false], avail, curr - bytes)
        else
          let '(bs, left_over, curr') := segments incr base size rest size (bytes - curr) in
          (mkManaged data curr true :: bs, left_over, curr')
    end.

(** The bytes that are free in the ring. *)
Definition free_bytes (size : Z) (avail : list Z) (curr : Z) : Z :=
  match avail with [] => 0 | _ :: rest => curr + size * Z.of_nat (length rest) end.

Definition buf_at (base size bid : Z) : io_uring_buf := mkBuf (base + bid * size) size bid.

(** [avail] sits in consecutive slots from the head of the pool to the tail of the
    ring; together with [held] it is all buffers, each once. *)
Record pool_ok {B} `{BufRing B} (p : ProvidedBufferPool B) (k : Z) (avail held : list Z) : Prop := {
  p_k : 0 ≤ k ≤ 15;
  p_num : num_buffers_ p = 2 ^ k;
  p_mask : mask_ p = 2 ^ k - 1;
  p_bsize : 0 < buffer_size_ p < 2 ^ 32;
  p_curr : 0 < curr_buf_len_ p ≤ buffer_size_ p;
  p_perm : avail ++ held ≡ₚ seqZ 0 (2 ^ k);
  p_tail : br_tail (br_ p) = u16 (br_head_ p + Z.of_nat (length avail));
  p_slots j bid : avail !! j = Some bid →
    br_buf (br_ p) (Z.land (br_head_ p + Z.of_nat j) (2 ^ k - 1)) = buf_at (buffers_base_ p) (buffer_size_ p) bid
}.

Section pool_props.
Context {B : Type} `{BufRingLaws B}.
Implicit Types p : ProvidedBufferPool B.

Lemma pool_avail_le p k avail held : pool_ok p k avail held → Z.of_nat (length avail) + Z.of_nat (length held) = 2 ^ k.
Proof.
  intros Hp. pose proof (Permutation_length (p_perm _ _ _ _ Hp)) as Hl.
  rewrite length_app, length_seqZ in Hl. pose proof (p_k _ _ _ _ Hp).
  assert (0 < 2 ^ k) by (apply Z.pow_pos_nonneg; lia). lia.
Qed.

Lemma pool_bid_range p k avail held bid :
  pool_ok p k avail held → bid ∈ avail ++ held → 0 ≤ bid < 2 ^ k.
Proof. intros Hp. rewrite (p_perm _ _ _ _ Hp), elem_of_seqZ. lia. Qed.

(** Taking the first buffer out of the ring. *)
Lemma pool_take p k bid avail held :
  pool_ok p k (bid :: avail) held →
  pool_ok (set_curr (buffer_size_ p) (advance_io_uring_buf_ p)) k avail (held ++ [bid]).
Proof.
  intros Hp. pose proof (pool_avail_le _ _ _ _ Hp) as Hle. destruct Hp as [Hk Hn Hm Hs Hc Hperm Ht Hsl].
  split; simpl; try done; try lia.
  - by rewrite app_assoc, <- Permutation_cons_append.
  - rewrite Ht, wrap_add_l. f_equal. simpl. lia.
  - intros j b Hj. rewrite land_wrap_l by lia.
    replace (br_head_ p + 1 + Z.of_nat j) with (br_head_ p + Z.of_nat (S j)) by lia. by apply Hsl.
Qed.

Lemma pool_set_curr p k avail held len :
  pool_ok p k avail held → 0 < len ≤ buffer_size_ p → pool_ok (set_curr len p) k avail held.
Proof. intros [] Hl. by split. Qed.

Lemma pool_head_bid p k bid avail held : pool_ok p k (bid :: avail) held → buf_bid (curr_io_uring_buf_ p) = bid.
Proof.
  intros Hp. unfold curr_io_uring_buf_. rewrite (p_mask _ _ _ _ Hp).
  pose proof (p_slots _ _ _ _ Hp 0%nat bid eq_refl) as Hs. rewrite Z.add_0_r in Hs. by rewrite Hs.
Qed.

Lemma pool_finish_loop_ok k avail : ∀ fuel bytes acc p held,
  pool_ok p k avail held → bytes < 2 ^ 31 → bytes ≤ free_bytes (buffer_size_ p) avail (curr_buf_len_ p) →
  (Z.to_nat bytes < fuel)%nat →
  let '(bs, avail', curr') := segments (is_incr p) (buffers_base_ p) (buffer_size_ p) avail (curr_buf_len_ p) bytes in
  ∃ p' taken, finish_loop fuel bytes acc p = Done (acc ++ bs) p' ∧ avail = taken ++ avail' ∧
    pool_ok p' k avail' (held ++ taken) ∧ curr_buf_len_ p' = curr' ∧
    buffers_base_ p' = buffers_base_ p ∧ buffer_size_ p' = buffer_size_ p ∧ is_incr p' = is_incr p.
Proof.
  induction avail as [|bid avail IH]; intros fuel bytes acc p held Hp Hb Hfree Hf;
    (destruct fuel as [|fuel]; [lia |]); cbn [segments finish_loop].
  - simpl in Hfree. rewrite (proj2 (Z.leb_le _ _)) by lia.
    exists p, []. rewrite !app_nil_r. split_and!; done.
  - destruct (Z.leb_spec bytes 0) as [Hz | Hz].
    { exists p, []. rewrite !app_nil_r. split_and!; done. }
    pose proof (p_curr _ _ _ _ Hp) as Hc. pose proof (p_bsize _ _ _ _ Hp) as Hs.
    rewrite bind_get, (pool_head_bid _ _ _ _ _ Hp), (wrap_small 32 bytes) by lia. unfold get_buffer_.
    set (data := buffers_base_ p + bid * buffer_size_ p + (buffer_size_ p - curr_buf_len_ p)).
    destruct (is_incr p && (bytes <? curr_buf_len_ p)) eqn:Ep.
    + apply andb_true_iff in Ep as [Hi Hlt%Z.ltb_lt]. rewrite Hi, Z.min_l by lia.
      erewrite bind_done by done. rewrite bind_get. cbn [curr_buf_len_ set_curr].
      rewrite (proj2 (Z.eqb_neq _ _)) by lia. rewrite Z.sub_diag.
      exists (set_curr (curr_buf_len_ p - bytes) p), [].
      split_and!; try done; [by destruct fuel | rewrite app_nil_r; by apply pool_set_curr; [| lia]].
    + assert ((if is_incr p then Z.min bytes (curr_buf_len_ p) else curr_buf_len_ p) = curr_buf_len_ p ∧
              (if is_incr p then curr_buf_len_ p - (if is_incr p then Z.min bytes (curr_buf_len_ p) else curr_buf_len_ p) else 0) = 0) as [E1 E2].
      { destruct (is_incr p); simpl in Ep; [apply Z.ltb_ge in Ep; simpl; rewrite Z.min_r by lia; lia | done]. }
      rewrite E2, E1. erewrite bind_done by done. rewrite bind_get. cbn [curr_buf_len_ set_curr].
      rewrite Z.eqb_refl. erewrite bind_done by done.
      set (p1 := set_curr _ (advance_io_uring_buf_ (set_curr 0 p))).
      assert (pool_ok p1 k avail (held ++ [bid])) as Hp1 by (apply (pool_take _ _ _ _ _ Hp)).
      specialize (IH fuel (bytes - curr_buf_len_ p) (acc ++ [mkManaged data (curr_buf_len_ p) true]) p1 _ Hp1).
      change (is_incr p1) with (is_incr p) in IH. change (buffers_base_ p1) with (buffers_base_ p) in IH.
      change (buffer_size_ p1) with (buffer_size_ p) in IH. change (curr_buf_len_ p1) with (buffer_size_ p) in IH.
      destruct (segments _ _ _ avail (buffer_size_ p) _) as [[bs avail'] curr'] eqn:Es.
      destruct IH as (p' & taken & E & -> & Hp' & Hrest); [lia | | lia |].
      { simpl in Hfree. destruct avail; simpl in *; lia. }
      exists p', (bid :: taken). split_and!; try (by apply Hrest); [| done |].
      * rewrite E. by rewrite <- app_assoc.
      * by rewrite <- app_assoc in Hp'.
Qed.

Lemma pool_handle_finish_ok p k avail held c :
  pool_ok p k avail held → has_buffer c = true → 0 < cqe_res c < 2 ^ 31 →
  cqe_res c ≤ free_bytes (buffer_size_ p) avail (curr_buf_len_ p) →
  let '(bs, avail', curr') :=
    segments (is_incr p) (buffers_base_ p) (buffer_size_ p) avail (curr_buf_len_ p) (cqe_res c) in
  ∃ p' taken, handle_finish c p = Done bs p' ∧ avail = taken ++ avail' ∧ pool_ok p' k avail' (held ++ taken) ∧
    curr_buf_len_ p' = curr' ∧
    buffers_base_ p' = buffers_base_ p ∧ buffer_size_ p' = buffer_size_ p ∧ is_incr p' = is_incr p.
Proof.
  intros Hp Hb Hr Hf. unfold handle_finish. rewrite Hb. cbn [negb].
  rewrite bind_assert by (apply Z.ltb_lt; lia).
  apply (pool_finish_loop_ok k avail (S (Z.to_nat (cqe_res c))) (cqe_res c) [] p held); [done | lia | done | lia].
Qed.

(** Giving a buffer back. *)
Lemma add_buffer_back_ok p k avail held1 held2 bid off len :
  pool_ok p k avail (held1 ++ bid :: held2) → 0 ≤ off < buffer_size_ p → len ≤ buffer_size_ p →
  ∃ p', add_buffer_back (buffers_base_ p + bid * buffer_size_ p + off) len p = Done tt p' ∧
    pool_ok p' k (avail ++ [bid]) (held1 ++ held2) ∧ curr_buf_len_ p' = curr_buf_len_ p ∧
    buffers_base_ p' = buffers_base_ p ∧ buffer_size_ p' = buffer_size_ p ∧ is_incr p' = is_incr p.
Proof.
  intros Hp Hoff Hlen. pose proof (pool_avail_le _ _ _ _ Hp) as Hle. rewrite length_app in Hle. simpl in Hle.
  assert (0 ≤ bid < 2 ^ k) as Hbid by (eapply pool_bid_range; [done |]; set_solver).
  destruct Hp as [Hk Hn Hm Hs Hc Hperm Ht Hsl]. pose proof (Queue.pow_le_16 k Hk) as H15.
  unfold add_buffer_back. rewrite bind_get. rewrite bind_assert by (apply Z.leb_le; lia).
  rewrite bind_assert by (apply Z.leb_le; nia).
  replace (buffers_base_ p + bid * buffer_size_ p + off - buffers_base_ p) with (bid * buffer_size_ p + off) by lia.
  rewrite Z.div_add_l, (Z.div_small off), Z.add_0_r by lia.
  rewrite bind_assert by (apply Z.ltb_lt; lia). rewrite (wrap_small 16 bid) by lia.
  eexists. split; [done |]. split_and!; try done.
  split; cbn [num_buffers_ mask_ buffer_size_ curr_buf_len_ br_ br_head_ buffers_base_]; try done; try lia.
  - rewrite <- Hperm, <- app_assoc. simpl. by rewrite (Permutation_middle held1 held2 bid).
  - rewrite br_advance_tail, br_add_tail, Ht, wrap_add_l, length_app. f_equal. simpl. lia.
  - intros j b Hj. rewrite br_advance_buf, br_add_buf, Hm, Z.add_0_r, Ht, land_wrap by lia.
    apply lookup_app_Some in Hj as [Hj | [Hj1 Hj2]].
    + pose proof (lookup_lt_Some _ _ _ Hj) as Hlt. rewrite (proj2 (Z.eqb_neq _ _)); [by apply Hsl |].
      intros E. apply slot_inj in E; lia.
    + apply list_lookup_singleton_Some in Hj2 as [Hj2 ->]. replace j with (length avail) by lia.
      by rewrite Z.eqb_refl.
Qed.

Lemma fill_buf base size k bids : ∀ (br : B) i,
  0 ≤ k → br_tail br = 0 → Forall (λ b, 0 ≤ b < 2 ^ k) bids → 0 ≤ i →
  br_buf (fill base size (2 ^ k - 1) bids br) i = (if decide (i ∈ bids) then buf_at base size i else br_buf br i) ∧
  br_tail (fill base size (2 ^ k - 1) bids br) = 0.
Proof.
  induction bids as [|b bids IH]; intros br i Hk Ht Hb Hi; [done |].
  inversion Hb; subst. destruct (IH (br_add (mkBuf (base + b * size) size b) (2 ^ k - 1) b br) i) as [E1 E2];
    [done | by rewrite br_add_tail | done | done |].
  change (fill base size (2 ^ k - 1) (b :: bids) br)
    with (fill base size (2 ^ k - 1) bids (br_add (mkBuf (base + b * size) size b) (2 ^ k - 1) b br)).
  split; [| done]. rewrite E1, br_add_buf, Ht, Z.add_0_l, land_mask, Z.mod_small by lia.
  destruct (Z.eqb_spec i b) as [-> | Hne].
  - rewrite (decide_True (P := b ∈ b :: bids)) by set_solver. by case_decide.
  - destruct (decide (i ∈ bids)); [rewrite decide_True by set_solver | rewrite decide_False by set_solver]; done.
Qed.

Lemma pool_init_ok (br : B) base num_buffers buffer_size bgid incr :
  0 ≤ num_buffers ≤ 2 ^ 15 → br_tail br = 0 → 0 < buffer_size < 2 ^ 32 →
  pool_ok (pool_init br base num_buffers buffer_size bgid incr) (Z.log2_up num_buffers)
    (seqZ 0 (bit_ceil num_buffers)) [].
Proof.
  intros Hn Ht Hs. set (k := Z.log2_up num_buffers). unfold pool_init, bit_ceil. fold k.
  assert (0 ≤ k ≤ 15) as Hk.
  { split; [apply Z.log2_up_nonneg |]. rewrite <- (Z.log2_up_pow2 15) by done. apply Z.log2_up_le_mono. lia. }
  assert (0 < 2 ^ k) by (apply Z.pow_pos_nonneg; lia). pose proof (Queue.pow_le_16 k Hk).
  rewrite (wrap_small 32) by lia.
  assert (∀ i, 0 ≤ i → _) as Hfill by (intros i Hi; apply (fill_buf base buffer_size k (seqZ 0 (2 ^ k)) br i);
    [lia | done | apply Forall_forall; intros b; rewrite elem_of_seqZ; lia | done]).
  split; cbn [num_buffers_ mask_ buffer_size_ curr_buf_len_ br_ br_head_ buffers_base_]; try done; try lia.
  - by rewrite app_nil_r.
  - rewrite br_advance_tail, (proj2 (Hfill 0 ltac:(lia))), length_seqZ. f_equal. lia.
  - intros j bid Hj. apply lookup_seqZ in Hj as [-> Hj]. rewrite br_advance_buf, !Z.add_0_l.
    rewrite land_mask, Z.mod_small by lia. rewrite (proj1 (Hfill (Z.of_nat j) ltac:(lia))).
    rewrite decide_True; [done |]. apply elem_of_seqZ. lia.
Qed.

Lemma pool_held_perm p k avail held held' : held ≡ₚ held' → pool_ok p k avail held → pool_ok p k avail held'.
Proof. intros E []. split; try done. by rewrite <- E. Qed.

(** *** Pieces *)

(** The buffer a piece lies in. *)
Definition bid_of (base size : Z) (b : ManagedBuffer) : Z := (data_ b - base) / size.
Definition inside (base size : Z) (b : ManagedBuffer) : Prop :=
  ∃ bid off, data_ b = base + bid * size + off ∧ 0 ≤ off < size ∧ 0 < size_ b ∧ off + size_ b ≤ size.
Definition owned_bids (base size : Z) (bs : list ManagedBuffer) : list Z :=
  bid_of base size <$> filter (λ b, owned b = true) bs.
Definition total_size (bs : list ManagedBuffer) : Z := foldr (λ b z, size_ b + z) 0 bs.

Lemma bid_of_inside base size bid off len o :
  0 ≤ off < size → bid_of base size (mkManaged (base + bid * size + off) len o) = bid.
Proof.
  intros Hoff. unfold bid_of. simpl.
  replace (base + bid * size + off - base) with (bid * size + off) by lia.
  rewrite Z.div_add_l, Z.div_small by lia. lia.
Qed.

(** The pieces of a result lie inside their buffers and add up to the bytes
    received, exactly when consumption is incremental and otherwise with less
    than a buffer to spare; the buffers used up are owned by the pieces. *)
Lemma segments_facts incr base size avail : ∀ curr bytes,
  0 < curr ≤ size → bytes ≤ free_bytes size avail curr →
  let '(bs, avail', _) := segments incr base size avail curr bytes in
  avail = owned_bids base size bs ++ avail' ∧ Forall (inside base size) bs ∧
  (incr = true → total_size bs = Z.max 0 bytes) ∧ (bytes ≤ 0 → bs = []) ∧
  (0 < bytes → bytes ≤ total_size bs < bytes + size).
Proof.
  induction avail as [|bid avail IH]; intros curr bytes Hc Hb; cbn [segments].
  - simpl in Hb. rewrite (proj2 (Z.leb_le _ _)) by lia. split_and!; [done | constructor | simpl; lia | done | lia].
  - destruct (Z.leb_spec bytes 0). { split_and!; [done | constructor | simpl; lia | done | lia]. }
    destruct (incr && (bytes <? curr)) eqn:Ep.
    + apply andb_true_iff in Ep as [-> Hlt%Z.ltb_lt]. split_and!; [done | | simpl; lia | lia | simpl; lia].
      constructor; [| constructor]. exists bid, (size - curr). simpl. split_and!; lia.
    + specialize (IH size (bytes - curr) ltac:(lia)).
      destruct (segments incr base size avail size (bytes - curr)) as [[bs avail'] curr'].
      destruct IH as (-> & Hin & Hi & Hz & Hn). { simpl in Hb. destruct avail; simpl in *; lia. }
      split_and!.
      * unfold owned_bids. rewrite filter_cons_True by done. simpl. f_equal. symmetry. apply bid_of_inside. lia.
      * constructor; [| done]. exists bid, (size - curr). simpl. split_and!; lia.
      * intros ->. simpl. rewrite Hi by done. simpl in Ep. apply Z.ltb_ge in Ep. lia.
      * lia.
      * intros _. cbn [total_size foldr size_]. fold (total_size bs).
        destruct (decide (0 < bytes - curr)) as [Hlt | Hge]; [specialize (Hn Hlt); lia |].
        rewrite Hz by lia. simpl. lia.
Qed.

(** *** Runs *)

(** The number of buffers in the ring, and the bytes free in them, as the pool's
    own fields give them. *)
Definition in_ring (p : ProvidedBufferPool B) : Z := u16 (br_tail (br_ p) - br_head_ p).
Definition free_in_ring (p : ProvidedBufferPool B) : Z :=
  if in_ring p =? 0 then 0 else curr_buf_len_ p + buffer_size_ p * (in_ring p - 1).

(** A completion of the kernel with a result in the pool's buffers. *)
Definition kernel_posts (p : ProvidedBufferPool B) (c : cqe) : Prop :=
  has_buffer c = true ∧ 0 < cqe_res c < 2 ^ 31 ∧ cqe_res c ≤ free_in_ring p.

(** The states of a pool and of the managed buffers it has handed out. *)
Inductive pool_run (p0 : ProvidedBufferPool B) : ProvidedBufferPool B → list ManagedBuffer → Prop :=
  | run_init : pool_run p0 p0 []
  | run_finish p bs c new p' :
      pool_run p0 p bs → kernel_posts p c → handle_finish c p = Done new p' → pool_run p0 p' (bs ++ new)
  | run_reset p bs i b b' p' :
      pool_run p0 p bs → bs !! i = Some b → reset b p = Done b' p' → pool_run p0 p' (<[i := b']> bs)
  | run_move p bs i j bi bj bi' bj' p' :
      pool_run p0 p bs → i ≠ j → bs !! i = Some bi → bs !! j = Some bj →
      move_assign bi bj p = Done (bi', bj') p' → pool_run p0 p' (<[j := bj']> (<[i := bi']> bs)).

(** The invariant of a run: the buffers in the ring and those owned are all. *)
Record run_ok (p0 p : ProvidedBufferPool B) (k : Z) (bs : list ManagedBuffer) (avail : list Z) : Prop := {
  ro_pool : pool_ok p k avail (owned_bids (buffers_base_ p) (buffer_size_ p) bs);
  ro_inside : Forall (λ b, owned b = true → inside (buffers_base_ p) (buffer_size_ p) b) bs;
  ro_base : buffers_base_ p = buffers_base_ p0;
  ro_size : buffer_size_ p = buffer_size_ p0;
  ro_incr : is_incr p = is_incr p0
}.

Lemma owned_bids_app base size l1 l2 :
  owned_bids base size (l1 ++ l2) = owned_bids base size l1 ++ owned_bids base size l2.
Proof. unfold owned_bids. by rewrite filter_app, fmap_app. Qed.

Lemma free_in_ring_eq p k avail held :
  pool_ok p k avail held → free_in_ring p = free_bytes (buffer_size_ p) avail (curr_buf_len_ p).
Proof.
  intros Hp. pose proof (pool_avail_le _ _ _ _ Hp). destruct Hp as [Hk _ _ _ _ _ Ht _].
  pose proof (Queue.pow_le_16 k Hk). unfold free_in_ring, in_ring. rewrite Ht, wrap_sub_l.
  replace (br_head_ p + Z.of_nat (length avail) - br_head_ p) with (Z.of_nat (length avail)) by lia.
  rewrite wrap_small by lia. destruct avail as [|b avail]; [done |]. simpl length.
  rewrite (proj2 (Z.eqb_neq _ _)) by lia. simpl. lia.
Qed.

Lemma finish_run_ok p0 p k bs avail c :
  run_ok p0 p k bs avail → kernel_posts p c →
  ∃ new p' avail', handle_finish c p = Done new p' ∧ run_ok p0 p' k (bs ++ new) avail' ∧
    avail = owned_bids (buffers_base_ p0) (buffer_size_ p0) new ++ avail' ∧
    Forall (inside (buffers_base_ p0) (buffer_size_ p0)) new ∧
    cqe_res c ≤ total_size new < cqe_res c + buffer_size_ p0 ∧
    (is_incr p0 = true → total_size new = cqe_res c).
Proof.
  intros [Hp Hin Hb Hs Hi] (Hbuf & Hres & Hfree). rewrite (free_in_ring_eq _ _ _ _ Hp) in Hfree.
  pose proof (pool_handle_finish_ok p k avail _ c Hp Hbuf Hres Hfree) as Hf.
  pose proof (segments_facts (is_incr p) (buffers_base_ p) (buffer_size_ p) avail (curr_buf_len_ p) (cqe_res c)
                (p_curr _ _ _ _ Hp) Hfree) as Hseg.
  destruct (segments _ _ _ _ _ _) as [[new avail'] curr'].
  destruct Hf as (p' & taken & E & Ht & Hp' & _ & Hb' & Hs' & Hi'). destruct Hseg as (Ht' & Hnew & Htot & _ & Hbytes).
  rewrite <- Hb, <- Hs, <- Hi in *. exists new, p', avail'. rewrite Ht in Ht'. apply app_inv_tail in Ht' as ->.
  split_and!; try done; [| lia | lia | intros Hinc; rewrite (Htot Hinc); lia].
  split; try congruence.
  - by rewrite Hb', Hs', owned_bids_app.
  - rewrite Hb', Hs'. apply Forall_app. split; [done |]. eapply Forall_impl; [exact Hnew |]. auto.
Qed.

Lemma owned_bids_split base size bs i b :
  bs !! i = Some b → owned b = true →
  ∃ h1 h2, owned_bids base size bs = h1 ++ bid_of base size b :: h2 ∧
    owned_bids base size (<[i := mkManaged 0 0 false]> bs) = h1 ++ h2.
Proof.
  intros Hi Ho. pose proof (lookup_lt_Some _ _ _ Hi). rewrite insert_take_drop by done.
  exists (owned_bids base size (take i bs)), (owned_bids base size (drop (S i) bs)). split.
  - rewrite <- (take_drop_middle bs i b Hi) at 1. rewrite owned_bids_app. unfold owned_bids at 2.
    by rewrite filter_cons_True.
  - rewrite owned_bids_app. unfold owned_bids at 2. by rewrite filter_cons_False.
Qed.

Lemma owned_bids_free base size bs i b :
  bs !! i = Some b → owned b = false →
  owned_bids base size (<[i := mkManaged 0 0 false]> bs) = owned_bids base size bs.
Proof.
  intros Hi Ho. pose proof (lookup_lt_Some _ _ _ Hi). rewrite insert_take_drop by done.
  rewrite <- (take_drop_middle bs i b Hi) at 3. rewrite !owned_bids_app. unfold owned_bids at 2 4.
  rewrite !filter_cons_False; [done | by rewrite Ho | done].
Qed.

Lemma reset_run_ok p0 p k bs avail i b :
  run_ok p0 p k bs avail → bs !! i = Some b →
  ∃ p', reset b p = Done (mkManaged 0 0 false) p' ∧
    run_ok p0 p' k (<[i := mkManaged 0 0 false]> bs)
      (if owned b then avail ++ [bid_of (buffers_base_ p0) (buffer_size_ p0) b] else avail).
Proof.
  intros [Hp Hin Hb Hs Hi] Hlook. unfold reset.
  assert (∀ P, Forall P bs → P (mkManaged 0 0 false) → Forall P (<[i := mkManaged 0 0 false]> bs)) as Hins
    by (intros P ? ?; by apply Forall_insert).
  destruct (owned b) eqn:Ho.
  - destruct (owned_bids_split (buffers_base_ p) (buffer_size_ p) bs i b Hlook Ho) as (h1 & h2 & E1 & E2).
    rewrite E1 in Hp. eapply Forall_lookup_1 in Hin as Hib; [| exact Hlook].
    destruct (Hib Ho) as (bid & off & Hd & Hoff & Hsz & Hend).
    assert (bid_of (buffers_base_ p) (buffer_size_ p) b = bid) as Hbid.
    { destruct b as [d n o]. simpl in Hd. subst d. by apply bid_of_inside. }
    rewrite Hbid in Hp.
    destruct (add_buffer_back_ok p k avail h1 h2 bid off (size_ b) Hp Hoff) as (p' & E & Hp' & _ & Hb' & Hs' & Hi'); [lia |].
    exists p'. split; [rewrite Hd; by erewrite bind_done by exact E |]. rewrite <- Hb, <- Hs, Hbid.
    split; [by rewrite Hb', Hs', E2 | rewrite Hb', Hs'; by apply Hins | congruence ..].
  - exists p. split; [done |]. split; try done; [by rewrite (owned_bids_free _ _ _ _ b) | by apply Hins].
Qed.

(** Moving a piece to another variable keeps the owned buffers. *)
Lemma owned_bids_swap base size bs i j bj :
  i ≠ j → bs !! j = Some bj → (i < length bs)%nat →
  owned_bids base size (<[j := mkManaged 0 0 false]> (<[i := bj]> bs))
  ≡ₚ owned_bids base size (<[i := mkManaged 0 0 false]> bs).
Proof.
  intros Hne Hj Hi. set (L := <[i := bj]> bs).
  assert (L !! i = Some bj) as Li by (by apply list_lookup_insert_eq).
  assert (L !! j = Some bj) as Lj by (unfold L; by rewrite list_lookup_insert_ne).
  replace (<[i := mkManaged 0 0 false]> bs) with (<[i := mkManaged 0 0 false]> L) by apply list_insert_insert_eq.
  destruct (owned bj) eqn:Ho.
  - destruct (owned_bids_split base size L i bj Li Ho) as (a1 & a2 & E1 & ->).
    destruct (owned_bids_split base size L j bj Lj Ho) as (b1 & b2 & E2 & ->).
    apply (Permutation_cons_inv (a := bid_of base size bj)).
    rewrite !Permutation_middle. by rewrite <- E1, <- E2.
  - by rewrite (owned_bids_free _ _ L i bj), (owned_bids_free _ _ L j bj).
Qed.

Lemma move_run_ok p0 p k bs avail i j bi bj :
  run_ok p0 p k bs avail → i ≠ j → bs !! i = Some bi → bs !! j = Some bj →
  ∃ p' avail', move_assign bi bj p = Done (bj, mkManaged 0 0 false) p' ∧
    run_ok p0 p' k (<[j := mkManaged 0 0 false]> (<[i := bj]> bs)) avail'.
Proof.
  intros Hr Hne Hi Hj. pose proof (Forall_lookup_1 _ _ _ _ (ro_inside _ _ _ _ _ Hr) Hj) as Hbj.
  destruct (reset_run_ok _ _ _ _ _ _ _ Hr Hi) as (p' & E & Hr').
  exists p', (if owned bi then avail ++ [bid_of (buffers_base_ p0) (buffer_size_ p0) bi] else avail).
  split; [unfold move_assign; by erewrite bind_done by exact E |].
  destruct Hr as [_ Hin Hb Hs _]. destruct Hr' as [Hp' _ Hb' Hs' Hi'].
  split; try done.
  - eapply pool_held_perm; [| exact Hp']. symmetry. apply owned_bids_swap; [done | done |]. by eapply lookup_lt_Some.
  - rewrite Hb', Hs', <- Hb, <- Hs. apply Forall_insert; [by apply Forall_insert | done].
Qed.

Lemma pool_run_ok p0 k avail0 p bs :
  pool_ok p0 k avail0 [] → pool_run p0 p bs → ∃ avail, run_ok p0 p k bs avail.
Proof.
  intros Hp0. induction 1 as [| p bs c new p' _ [avail Hr] Hc E | p bs i b b' p' _ [avail Hr] Hi E
    | p bs i j bi bj bi' bj' p' _ [avail Hr] Hne Hi Hj E].
  - exists avail0. by split.
  - destruct (finish_run_ok _ _ _ _ _ _ Hr Hc) as (? & ? & avail' & E' & Hr' & _). rewrite E in E'. injection E' as <- <-. by exists avail'.
  - destruct (reset_run_ok _ _ _ _ _ _ _ Hr Hi) as (? & E' & Hr'). rewrite E in E'. injection E' as -> <-. by eexists.
  - destruct (move_run_ok _ _ _ _ _ _ _ _ _ Hr Hne Hi Hj) as (? & ? & E' & Hr'). rewrite E in E'. injection E' as -> -> <-. by eexists.
Qed.

Lemma in_ring_eq p k avail held : pool_ok p k avail held → in_ring p = Z.of_nat (length avail).
Proof.
  intros Hp. pose proof (pool_avail_le _ _ _ _ Hp). destruct Hp as [Hk _ _ _ _ _ Ht _].
  pose proof (Queue.pow_le_16 k Hk). unfold in_ring. rewrite Ht, wrap_sub_l.
  replace (br_head_ p + Z.of_nat (length avail) - br_head_ p) with (Z.of_nat (length avail)) by lia.
  apply wrap_small. lia.
Qed.

(** C12. The provided-buffer pool conserves its buffers: after any completions, resets and
    moves of managed buffers, every buffer is either in the ring or owned by
    exactly one managed buffer; giving any of them back succeeds and puts one
    buffer into the ring exactly when it owned one; a completion the kernel may
    post is split into pieces that lie inside their buffers, add up to the bytes
    received (exactly when consumption is incremental, else with less than a
    buffer to spare) and own the next buffers of the ring.  For at most 2^15
    buffers, the largest ring the kernel registers, of less than 4 GiB each. *)
Theorem pool_conserves_buffers br base num size bgid incr p bs :
  0 ≤ num ≤ 2 ^ 15 → br_tail br = 0 → 0 < size < 2 ^ 32 →
  pool_run (pool_init br base num size bgid incr) p bs →
  ∃ avail, avail ++ owned_bids base size bs ≡ₚ seqZ 0 (bit_ceil num) ∧ in_ring p = Z.of_nat (length avail) ∧
    (∀ i b, bs !! i = Some b → ∃ p', reset b p = Done (mkManaged 0 0 false) p' ∧
       in_ring p' = in_ring p + (if owned b then 1 else 0)) ∧
    (∀ c, kernel_posts p c → ∃ new p', handle_finish c p = Done new p' ∧ Forall (inside base size) new ∧
       owned_bids base size new `prefix_of` avail ∧ in_ring p' = in_ring p - Z.of_nat (length (owned_bids base size new)) ∧
       cqe_res c ≤ total_size new < cqe_res c + size ∧ (incr = true → total_size new = cqe_res c)).
Proof.
  intros Hn Ht Hs Hrun. pose proof (pool_init_ok br base num size bgid incr Hn Ht Hs) as Hinit.
  destruct (pool_run_ok _ _ _ _ _ Hinit Hrun) as [avail Hr]. pose proof (ro_pool _ _ _ _ _ Hr) as Hp.
  assert (buffer_size_ (pool_init br base num size bgid incr) = size) as Esz by (simpl; apply wrap_small; lia).
  exists avail. split_and!.
  - pose proof (p_perm _ _ _ _ Hp) as Hperm. by rewrite (ro_base _ _ _ _ _ Hr), (ro_size _ _ _ _ _ Hr), Esz in Hperm.
  - by eapply in_ring_eq.
  - intros i b Hi. destruct (reset_run_ok _ _ _ _ _ _ _ Hr Hi) as (p' & E & Hr'). exists p'. split; [done |].
    rewrite (in_ring_eq _ _ _ _ Hp), (in_ring_eq _ _ _ _ (ro_pool _ _ _ _ _ Hr')).
    destruct (owned b); [rewrite length_app; simpl; lia | lia].
  - intros c Hc. destruct (finish_run_ok _ _ _ _ _ _ Hr Hc) as (new & p' & avail' & E & Hr' & Ha & Hin & Htot & Hinc).
    rewrite Esz in *. exists new, p'. split_and!; try done; [by exists avail' | | lia | lia].
    rewrite (in_ring_eq _ _ _ _ Hp), (in_ring_eq _ _ _ _ (ro_pool _ _ _ _ _ Hr')), Ha, length_app.
    unfold owned_bids; simpl; lia.
Qed.

End pool_props.
End Pool.

(** Two buffers of 16 bytes: 20 bytes arrive and the first piece is given back. *)
Lemma pool_conserves_buffers_witness :
  let p0 := Pool.pool_init (mkSimBufRing 0 []) 1000 2 16 0 true in
  ∃ new p, Pool.handle_finish (mkCqe 0 20 1) p0 = Done new p ∧
    new = [Pool.mkManaged 1000 16 true; Pool.mkManaged 1016 4 false] ∧
    ∃ avail, avail ++ [0] ≡ₚ [0; 1] ∧
      ∃ p', Pool.reset (Pool.mkManaged 1000 16 true) p = Done (Pool.mkManaged 0 0 false) p' ∧ Pool.in_ring p' = 2.
Proof.
  intros p0. eexists _, _. split; [vm_compute; reflexivity |]. split; [reflexivity |].
  match goal with |- context [Pool.reset _ ?p = _] => set (q := p) end.
  destruct (Pool.pool_conserves_buffers (mkSimBufRing 0 []) 1000 2 16 0 true q
              [Pool.mkManaged 1000 16 true; Pool.mkManaged 1016 4 false]) as (avail & Hperm & _ & Hreset & _);
    [lia | reflexivity | lia | |].
  - apply (Pool.run_finish _ p0 [] (mkCqe 0 20 1)); [apply Pool.run_init | | reflexivity].
    repeat split; (reflexivity || lia || discriminate).
  - exists avail. split; [exact Hperm |]. destruct (Hreset 0%nat _ eq_refl) as (p' & E & Hr). exists p'.
    split; [exact E | rewrite Hr; reflexivity].
Defined.
