(* ===== verification/BufferSetup.v ===== *)
(** * Registration of provided buffers (include/condy/provided_buffers.hpp)

    The constructors of [BundledProvidedBufferQueue], [BundledProvidedBufferPool]
    and [ProvidedBufferPool] and their [cleanup_], over the ids of buffer groups
    of the runtime ([IdPool]), the buffer rings registered with the kernel and the
    mappings of the process.  What [mmap] and [io_uring_setup_buf_ring] answer
    are parameters. *)

From stdpp Require Import base numbers list gmap.
From S2P Require Import Prelude Utils.
Import IdPool.

(** [std::numeric_limits<uint16_t>::max()], the range of [IdPool<uint16_t>] and
    the value of [bgid_] when no id is held. *)
Definition no_bgid : Z := 65535.
Abbreviation allocate_bgid := (IdPool.allocate no_bgid).
Abbreviation recycle_bgid := (IdPool.recycle 0 no_bgid).

(** The fields of a queue or pool that hold resources; [has_br] is
    [br_ != nullptr], [num_] is [capacity_] or [num_buffers_]. *)
Record Obj := mkObj {
  has_br : bool;
  num_ : Z;
  bgid_ : Z;
  base_ : Z;
  buffer_size_ : Z;
  owns_ : bool
}.

(** [rings]: the registered rings, id to number of entries. *)
Record Sys := mkSys {
  ids : IdPool;
  rings : gmap Z Z;
  mapped : gmap Z Z;
  obj : Obj
}.

Section setup.
Context (setup_err : option Z) (mmap_answer : option Z) (errno : Z).
Abbreviation M := (ST Sys).

Definition on_ids {A} : ST IdPool A → M A := zoom ids (λ p s, mkSys p (rings s) (mapped s) (obj s)).
Definition set_obj (f : Obj → Obj) : M unit := modify (λ s, mkSys (ids s) (rings s) (mapped s) (f (obj s))).

(** Here freeing what is not registered, or unmapping what is not a whole mapping,
    fails (Linux accepts [munmap] of unmapped pages): the cleanup never does. *)
Definition free_buf_ring (num bgid : Z) : M Z := λ s,
  if bool_decide (rings s !! bgid = Some num) then Done 0 (mkSys (ids s) (delete bgid (rings s)) (mapped s) (obj s))
  else Done (-1) s.
Definition munmap (addr size : Z) : M Z := λ s,
  if bool_decide (mapped s !! addr = Some size) then Done 0 (mkSys (ids s) (rings s) (delete addr (mapped s)) (obj s))
  else Done (-1) s.

(** [io_uring_setup_buf_ring]: [None] is success, otherwise the error. *)
Definition setup_buf_ring (num bgid : Z) : M (option Z) :=
  match setup_err with
  | Some e => mret (Some e)
  | None => modify (λ s, mkSys (ids s) (<[bgid := num]> (rings s)) (mapped s) (obj s));; mret None
  end.

(** The part of [cleanup_] the two classes share, then the rest of the pool's. *)
Definition queue_cleanup_ : M unit :=
  o ← gets obj;
  (if has_br o then
     r ← free_buf_ring (num_ o) (bgid_ o);
     assert_ (r =? 0);;
     set_obj (λ o, mkObj false (num_ o) (bgid_ o) (base_ o) (buffer_size_ o) (owns_ o))
   else mret tt);;
  if negb (bgid_ o =? no_bgid) then on_ids (recycle_bgid (bgid_ o)) else mret tt.

Definition pool_cleanup_ : M unit :=
  queue_cleanup_;;
  o ← gets obj;
  if owns_ o then
    r ← munmap (base_ o) (num_ o * buffer_size_ o);
    assert_ (r =? 0);;
    set_obj (λ o, mkObj (has_br o) (num_ o) (bgid_ o) 0 (buffer_size_ o) false)
  else mret tt.

(** The guard of the constructors: an exception that leaves the body runs
    [cleanup]. *)
Definition guarded (cleanup body : M unit) : M unit := λ s,
  match body s with
  | Thrown e s' =>
      match cleanup s' with
      | Done _ s'' => Thrown e s''
      | Thrown _ _ => Crashed Panic
      | Crashed c => Crashed c
      end
  | r => r
  end.

(** The common body of the constructors. *)
Definition register : M unit :=
  bgid ← on_ids allocate_bgid;
  set_obj (λ o, mkObj (has_br o) (num_ o) bgid (base_ o) (buffer_size_ o) (owns_ o));;
  num ← gets (num_ ∘ obj);
  err ← setup_buf_ring num bgid;
  match err with
  | Some e => throw (SystemError (- e))
  | None => set_obj (λ o, mkObj true (num_ o) (bgid_ o) (base_ o) (buffer_size_ o) (owns_ o))
  end.

Definition queue_construct (capacity : Z) : M unit :=
  set_obj (λ _, mkObj false (bit_ceil capacity) no_bgid 0 0 false);;
  guarded queue_cleanup_ register.

(** [buffer_size_] is a [uint32_t]. *)
Definition pool_construct (base num_buffers buffer_size : Z) (owns : bool) : M unit :=
  set_obj (λ _, mkObj false (bit_ceil num_buffers) no_bgid base (u32 buffer_size) owns);;
  guarded pool_cleanup_ register.

Definition alloc_buffer_data_ (size : Z) : M Z :=
  match mmap_answer with
  | Some a => modify (λ s, mkSys (ids s) (rings s) (<[a := size]> (mapped s)) (obj s));; mret a
  | None => throw (SystemError errno)
  end.

(** [ProvidedBufferPool] with memory of its own. *)
Definition owning_pool_construct (num_buffers buffer_size : Z) : M unit :=
  base ← alloc_buffer_data_ (u64 (bit_ceil num_buffers * buffer_size));
  pool_construct base num_buffers buffer_size true.
End setup.

(** ** Resources are balanced *)

(** The ids in use are [live]; the rings registered belong to them; [mm] is
    mapped. *)
Definition sys_ok (s : Sys) (live : list Z) (rs mm : gmap Z Z) : Prop :=
  pool_inv 0 no_bgid (ids s) live ∧ rings s = rs ∧ mapped s = mm ∧ (∀ id, is_Some (rs !! id) → id ∈ live).

Section setup_props.
Context (setup_err mmap_answer : option Z) (errno : Z).

(** [register], on every answer. *)
Lemma register_ok s live rs mm n b sz ow :
  sys_ok s live rs mm → obj s = mkObj false n no_bgid b sz ow →
  match register setup_err s with
  | Done _ s' => setup_err = None ∧ ∃ id, (id ∉ live) ∧ 0 ≤ id < no_bgid ∧
      pool_inv 0 no_bgid (ids s') (id :: live) ∧ rings s' = <[id := n]> rs ∧ mapped s' = mm ∧
      obj s' = mkObj true n id b sz ow
  | Thrown e s' => rings s' = rs ∧ mapped s' = mm ∧
      ((e = RuntimeError ∧ (∀ id, 0 ≤ id < no_bgid → id ∈ live) ∧ pool_inv 0 no_bgid (ids s') live ∧
        obj s' = mkObj false n no_bgid b sz ow) ∨
       (∃ err id, setup_err = Some err ∧ e = SystemError (- err) ∧ 0 ≤ id < no_bgid ∧
          pool_inv 0 no_bgid (ids s') (id :: live) ∧ obj s' = mkObj false n id b sz ow))
  | Crashed _ => False
  end.
Proof.
  intros (Hi & Hr & Hm & Hl) Ho. pose proof (allocate_inv 0 no_bgid _ _ Hi) as Ha.
  unfold register, on_ids, zoom, mbind, st_bind. destruct (allocate no_bgid (ids s)) as [id p' | e p' |]; [| | done].
  - destruct Ha as (Hi' & Hn & Hrange). cbn. rewrite Ho, Hr, Hm. destruct setup_err as [err|]; cbn.
    + split_and!; [done | done |]. right. exists err, id. split_and!; (done || lia).
    + split; [done |]. exists id. split_and!; (done || lia).
  - destruct Ha as (-> & -> & Hall). cbn. rewrite Hr, Hm. split_and!; [done | done |]. left. done.
Qed.

(** Giving back an id that is in use. *)
Lemma recycle_ok s id live :
  pool_inv 0 no_bgid (ids s) (id :: live) →
  ∃ p', on_ids (recycle_bgid id) s = Done tt (mkSys p' (rings s) (mapped s) (obj s)) ∧ pool_inv 0 no_bgid p' live.
Proof.
  intros Hi. destruct (recycle_inv 0 no_bgid _ _ id Hi) as (p' & live' & E & Hp & Hi'); [set_solver |].
  exists p'. split; [unfold on_ids; by erewrite zoom_done by exact E |].
  eapply pool_inv_perm, Hi'. symmetry. by eapply Permutation_cons_inv.
Qed.

Lemma queue_cleanup_ok s id live rs n b sz ow (br : bool) :
  pool_inv 0 no_bgid (ids s) (id :: live) → 0 ≤ id < no_bgid → obj s = mkObj br n id b sz ow →
  (if br then rings s = <[id := n]> rs ∧ rs !! id = None else rings s = rs) →
  ∃ s', queue_cleanup_ s = Done tt s' ∧ pool_inv 0 no_bgid (ids s') live ∧ rings s' = rs ∧ mapped s' = mapped s ∧
    obj s' = mkObj false n id b sz ow.
Proof.
  intros Hi Hid Ho Hr. unfold queue_cleanup_. rewrite bind_gets, Ho. cbn [has_br num_ bgid_].
  rewrite (proj2 (Z.eqb_neq id no_bgid)) by lia. cbn [negb].
  set (s1 := mkSys (ids s) rs (mapped s) (mkObj false n id b sz ow)).
  destruct (recycle_ok s1 id live Hi) as (p' & E & Hi').
  exists (mkSys p' rs (mapped s) (mkObj false n id b sz ow)). split; [| done].
  erewrite bind_done; [exact E |]. destruct br.
  - destruct Hr as [Hr Hn]. unfold mbind, st_bind, free_buf_ring. rewrite Hr, bool_decide_eq_true_2 by apply lookup_insert_eq.
    cbn. by rewrite Ho, delete_insert_id.
  - unfold mret, st_ret, s1. destruct s. cbn in *. by subst.
Qed.

Lemma queue_cleanup_none s n b sz ow :
  obj s = mkObj false n no_bgid b sz ow → queue_cleanup_ s = Done tt s.
Proof. intros Ho. unfold queue_cleanup_. by rewrite bind_gets, Ho. Qed.

(** A provided-buffer queue holds what it registered and nothing else: the constructor
    takes an unused group id and registers one ring of a power of two of entries
    under it, or throws (the error of the registration, or because every id is in
    use) with ids and rings as before; the destructor gives both back. *)
Theorem queue_setup_balanced capacity s live rs mm :
  sys_ok s live rs mm →
  match queue_construct setup_err capacity s with
  | Done _ s1 => ∃ id s2, (id ∉ live) ∧ rings s1 = <[id := bit_ceil capacity]> rs ∧ bgid_ (obj s1) = id ∧
      queue_cleanup_ s1 = Done tt s2 ∧ sys_ok s2 live rs mm
  | Thrown e s1 => sys_ok s1 live rs mm ∧
      (e = RuntimeError ∧ (∀ id, 0 ≤ id < no_bgid → id ∈ live) ∨ ∃ err, setup_err = Some err ∧ e = SystemError (- err))
  | Crashed _ => False
  end.
Proof.
  intros Hs. unfold queue_construct. erewrite bind_done by done. unfold guarded.
  set (s0 := mkSys _ _ _ _). assert (sys_ok s0 live rs mm) as Hs0 by exact Hs.
  pose proof (register_ok s0 live rs mm (bit_ceil capacity) 0 0 false Hs0 eq_refl) as Hreg.
  destruct Hs0 as (_ & _ & _ & Hl). destruct (register setup_err s0) as [[] s1 | e s1 |]; [| | done].
  - destruct Hreg as (_ & id & Hid & Hrange & Hi & Hr & Hm & Ho). exists id.
    assert (rs !! id = None) as Hn by (apply eq_None_not_Some; intros ?%Hl; done).
    destruct (queue_cleanup_ok s1 id live rs (bit_ceil capacity) 0 0 false true Hi Hrange Ho) as (s2 & E & Hi2 & Hr2 & Hm2 & _);
      [done |].
    exists s2. split_and!; [done | done | by rewrite Ho | done |]. split_and!; [done | done | congruence | done].
  - destruct Hreg as (Hr & Hm & [(-> & Hall & Hi & Ho) | (err & id & Es & -> & Hrange & Hi & Ho)]).
    + rewrite (queue_cleanup_none _ _ _ _ _ Ho). split; [done | by left].
    + destruct (queue_cleanup_ok s1 id live rs (bit_ceil capacity) 0 0 false false Hi Hrange Ho Hr)
        as (s2 & -> & Hi2 & Hr2 & Hm2 & _). split; [| right; eauto]. split_and!; [done | done | congruence | done].
Qed.

(** The rest of the pool's cleanup, once the ring and the id are given back. *)
Lemma pool_cleanup_ok s s1 mm n id b sz :
  queue_cleanup_ s = Done tt s1 → obj s1 = mkObj false n id b sz true → mapped s1 = <[b := n * sz]> mm → mm !! b = None →
  ∃ s', pool_cleanup_ s = Done tt s' ∧ ids s' = ids s1 ∧ rings s' = rings s1 ∧ mapped s' = mm.
Proof.
  intros E Ho Hm Hb. unfold pool_cleanup_. erewrite bind_done by exact E. rewrite bind_gets, Ho. cbn [owns_ base_ num_ buffer_size_].
  unfold mbind, st_bind, munmap. rewrite Hm, bool_decide_eq_true_2 by apply lookup_insert_eq. cbn.
  eexists. split; [done |]. by rewrite delete_insert_id.
Qed.

(** C14. A provided-buffer pool with memory of its own holds what it acquired and nothing
    else: the constructor maps memory for all buffers, takes an unused group id
    and registers a ring under it, or throws (the error of [mmap] or of the
    registration, or because every id is in use) with ids, rings and mappings as
    before; the destructor gives all three back.  For up to 2^31 buffers of less
    than 4 GiB each: [buffer_size_] has 32 bits. *)
Theorem pool_setup_balanced num size s live rs mm :
  sys_ok s live rs mm → 0 < num ≤ 2 ^ 31 → 0 < size < 2 ^ 32 → (∀ a, mmap_answer = Some a → mm !! a = None) →
  match owning_pool_construct setup_err mmap_answer errno num size s with
  | Done _ s1 => ∃ a id s2, (id ∉ live) ∧ rings s1 = <[id := bit_ceil num]> rs ∧
      mapped s1 = <[a := bit_ceil num * size]> mm ∧ base_ (obj s1) = a ∧ bgid_ (obj s1) = id ∧
      pool_cleanup_ s1 = Done tt s2 ∧ sys_ok s2 live rs mm
  | Thrown e s1 => sys_ok s1 live rs mm ∧
      ((mmap_answer = None ∧ e = SystemError errno) ∨ (e = RuntimeError ∧ ∀ id, 0 ≤ id < no_bgid → id ∈ live) ∨
       ∃ err, setup_err = Some err ∧ e = SystemError (- err))
  | Crashed _ => False
  end.
Proof.
  intros Hs Hnum Hsz Hmap. unfold owning_pool_construct. destruct mmap_answer as [a|]; [| by split; [| left]].
  specialize (Hmap a eq_refl). set (n := bit_ceil num).
  assert (0 < n ≤ 2 ^ 31) as Hn.
  { split; [apply is_pow2_pos, bit_ceil_pow2 | apply bit_ceil_least; [lia | by exists 31 | lia]]. }
  rewrite (wrap_small 64) by nia. erewrite bind_done by done. unfold pool_construct. rewrite (wrap_small 32) by lia.
  fold n. erewrite bind_done by done. unfold guarded. set (s0 := mkSys _ _ _ _). destruct Hs as (Hi0 & Hr0 & Hm0 & Hl).
  assert (sys_ok s0 live rs (<[a := n * size]> mm)) as Hs0 by (unfold s0; cbn; subst rs mm; split_and!; done).
  pose proof (register_ok s0 live rs _ n a size true Hs0 eq_refl) as Hreg.
  destruct (register setup_err s0) as [[] s1 | e s1 |]; [| | done].
  - destruct Hreg as (_ & id & Hid & Hrange & Hi & Hr & Hm & Ho). exists a, id.
    assert (rs !! id = None) as Hnone by (apply eq_None_not_Some; intros ?%Hl; done).
    destruct (queue_cleanup_ok s1 id live rs n a size true true Hi Hrange Ho) as (s2 & E & Hi2 & Hr2 & Hm2 & Ho2); [done |].
    destruct (pool_cleanup_ok s1 s2 mm n id a size E Ho2) as (s3 & E3 & Ei3 & Er3 & Em3); [congruence | done |].
    exists s3. rewrite Ho. split_and!; try done. split_and!; [by rewrite Ei3 | by rewrite Er3 | done | done].
  - destruct Hreg as (Hr & Hm & [(-> & Hall & Hi & Ho) | (err & id & Es & -> & Hrange & Hi & Ho)]).
    + destruct (pool_cleanup_ok s1 s1 mm n no_bgid a size) as (s3 & -> & Ei3 & Er3 & Em3);
        [by eapply queue_cleanup_none | done | done | done |].
      split; [| eauto]. split_and!; [by rewrite Ei3 | by rewrite Er3 | done | done].
    + destruct (queue_cleanup_ok s1 id live rs n a size true false Hi Hrange Ho Hr) as (s2 & E & Hi2 & Hr2 & Hm2 & Ho2).
      destruct (pool_cleanup_ok s1 s2 mm n id a size E Ho2) as (s3 & -> & Ei3 & Er3 & Em3); [congruence | done |].
      split; [| eauto]. split_and!; [by rewrite Ei3 | by rewrite Er3 | done | done].
Qed.
End setup_props.

(** ** A concrete system *)

Definition demo_sys : Sys := mkSys (id_pool_new 0) ∅ ∅ (mkObj false 0 no_bgid 0 0 false).

Lemma demo_sys_ok : sys_ok demo_sys [] ∅ ∅.
Proof. split_and!; [by apply pool_inv_new | done | done |]. intros id [x E]. done. Qed.

Lemma queue_setup_balanced_witness :
  ∃ s1 s2, queue_construct None 5 demo_sys = Done tt s1 ∧ rings s1 = {[0 := 8]} ∧ queue_cleanup_ s1 = Done tt s2 ∧
    rings s2 = ∅.
Proof.
  pose proof (queue_setup_balanced None 5 demo_sys [] ∅ ∅ demo_sys_ok) as Hq.
  destruct (queue_construct None 5 demo_sys) as [[] s1 | |] eqn:E; [| discriminate E | discriminate E].
  destruct Hq as (id & s2 & _ & _ & _ & Ec & _ & Hr & _). exists s1, s2. split_and!; [reflexivity | | exact Ec | exact Hr].
  injection E as <-. reflexivity.
Defined.

(** The registration fails: the mapping is undone. *)
Lemma pool_setup_balanced_witness :
  ∃ s1, owning_pool_construct (Some (-12)) (Some 4096) 0 3 100 demo_sys = Thrown (SystemError 12) s1 ∧
    mapped s1 = ∅ ∧ rings s1 = ∅.
Proof.
  pose proof (pool_setup_balanced (Some (-12)) (Some 4096) 0 3 100 demo_sys [] ∅ ∅ demo_sys_ok ltac:(lia) ltac:(lia)
                ltac:(done)) as Hp.
  destruct (owning_pool_construct (Some (-12)) (Some 4096) 0 3 100 demo_sys) as [u s1 | e s1 |] eqn:E;
    [discriminate E | | discriminate E].
  destruct Hp as [(_ & Hr & Hm & _) _]. exists s1. split_and!; [| exact Hm | exact Hr].
  injection E as <- _. reflexivity.
Defined.
