(* ===== verification/RingSettings.v ===== *)
(** * Tables and settings of a ring (include/condy/ring_settings.hpp)

    [FdTable], [BufferTable] and [RingSettings] pass their arguments to functions
    of liburing; [call] is one such call and the state keeps the calls made.  What
    the calls answer is a parameter.  [RingSettings] also keeps the probe of the
    ring, which it owns. *)

From stdpp Require Import base numbers list.
From S2P Require Import Prelude.

Inductive call : Type :=
  | register_files_sparse (nr : Z)
  | register_files (fds nr : Z)
  | unregister_files
  | register_files_update (off fds nr : Z)
  | register_file_alloc_range (off len : Z)
  | register_buffers_sparse (nr : Z)
  | register_buffers (vecs nr : Z)
  | unregister_buffers
  | register_buffers_update_tag (off vecs tags nr : Z)
  | clone_buffers_offset (src_ring dst_off src_off nr flags : Z)
  | register_iowq_aff (cpusz mask : Z)
  | unregister_iowq_aff
  | register_iowq_max_workers (values : Z)
  | register_napi (napi : Z)
  | unregister_napi (napi : Z)
  | register_clock (clock_reg : Z)
  | resize_rings (params : Z)
  | set_iowait_call (enable : bool)
  | get_probe_ring
  | free_probe (probe : Z).

#[export] Instance call_eq_dec : EqDecision call.
Proof. solve_decision. Defined.

(** [probe_] is 0 for a null pointer. *)
Record RingSettings := mkSettings {
  calls : list call;
  probe_ : Z
}.

Definition IORING_REGISTER_DST_REPLACE : Z := 2.

Section settings.
(** What the [n]-th call returns. *)
Context (answer : nat → call → Z).
Abbreviation M := (ST RingSettings).

Definition uring (c : call) : M Z :=
  s ← get;
  put (mkSettings (calls s ++ [c]) (probe_ s));;
  mret (answer (length (calls s)) c).

(** [FdTable] *)
Definition fd_init (capacity : Z) : M Z := uring (register_files_sparse (u32 capacity)).
Definition fd_init_array (fds nr_fds : Z) : M Z := uring (register_files fds nr_fds).
Definition fd_destroy : M Z := uring unregister_files.
Definition fd_update (index_base fds nr_fds : Z) : M Z := uring (register_files_update index_base fds nr_fds).
Definition set_file_alloc_range (offset size : Z) : M Z := uring (register_file_alloc_range offset size).

(** [BufferTable]; [src] is the ring of the other table. *)
Definition buf_init (capacity : Z) : M Z := uring (register_buffers_sparse (u32 capacity)).
Definition buf_init_array (vecs nr_vecs : Z) : M Z := uring (register_buffers vecs nr_vecs).
Definition buf_destroy : M Z := uring unregister_buffers.
Definition buf_update (index_base vecs nr_vecs : Z) : M Z :=
  uring (register_buffers_update_tag index_base vecs 0 nr_vecs).
Definition clone_buffers (src dst_off src_off nr : Z) : M Z :=
  uring (clone_buffers_offset src dst_off src_off nr IORING_REGISTER_DST_REPLACE).

(** [RingSettings] *)
Definition apply_iowq_aff (cpusz mask : Z) : M Z := uring (register_iowq_aff cpusz mask).
Definition remove_iowq_aff : M Z := uring unregister_iowq_aff.
Definition set_iowq_max_workers (values : Z) : M Z := uring (register_iowq_max_workers values).
Definition get_probe : M Z :=
  s ← get;
  if negb (probe_ s =? 0) then mret (probe_ s)
  else
    p ← uring get_probe_ring;
    modify (λ s, mkSettings (calls s) p);;
    mret p.
Definition apply_napi (napi : Z) : M Z := uring (register_napi napi).
Definition remove_napi (napi : Z) : M Z := uring (unregister_napi napi).
Definition set_clock (clock_reg : Z) : M Z := uring (register_clock clock_reg).
Definition set_rings_size (params : Z) : M Z := uring (resize_rings params).
Definition set_iowait (enable_iowait : bool) : M Z := uring (set_iowait_call enable_iowait).

(** [~RingSettings] *)
Definition settings_destroy : M unit :=
  s ← get;
  if negb (probe_ s =? 0) then
    uring (free_probe (probe_ s));;
    modify (λ s, mkSettings (calls s) 0)
  else mret tt.

Definition settings_new : RingSettings := mkSettings [] 0.

(** ** The probe *)

(** The operations of a program on the settings: the probe, or another call. *)
Inductive settings_op : Type := OpProbe | OpOther (c : call).
Definition other_call (c : call) : bool :=
  match c with get_probe_ring | free_probe _ => false | _ => true end.
Definition run_op (o : settings_op) : M Z := match o with OpProbe => get_probe | OpOther c => uring c end.
Definition run_ops (os : list settings_op) : M (list Z) := mapM run_op os.

(** The probes acquired (null answers are none) and freed by a list of calls. *)
Fixpoint acquired (n : nat) (cs : list call) : list Z :=
  match cs with
  | [] => []
  | get_probe_ring :: cs =>
      if answer n get_probe_ring =? 0 then acquired (S n) cs else answer n get_probe_ring :: acquired (S n) cs
  | _ :: cs => acquired (S n) cs
  end.
Definition freed (cs : list call) : list Z := omap (λ c, match c with free_probe p => Some p | _ => None end) cs.

Lemma acquired_app n cs cs' : acquired n (cs ++ cs') = acquired n cs ++ acquired (n + length cs) cs'.
Proof.
  revert n. induction cs as [|c cs IH]; intros n; simpl; [by rewrite Nat.add_0_r |].
  rewrite <- Nat.add_succ_comm. destruct c; rewrite ?IH; try done. by case_match.
Qed.

Definition probe_ok (s : RingSettings) : Prop :=
  acquired 0 (calls s) = (if probe_ s =? 0 then [] else [probe_ s]) ∧ freed (calls s) = [].

Lemma run_op_ok o s :
  probe_ok s → (∀ c, o = OpOther c → other_call c = true) →
  ∃ r s', run_op o s = Done r s' ∧ probe_ok s' ∧ (probe_ s ≠ 0 → probe_ s' = probe_ s) ∧
    (o = OpProbe → r = probe_ s').
Proof.
  intros [Ha Hf] Hc. destruct o as [|c]; unfold run_op.
  - unfold get_probe, uring. run_st. destruct (Z.eqb_spec (probe_ s) 0) as [E | E]; simpl.
    + eexists _, _. split; [done |]. unfold probe_ok. cbn [calls probe_].
      rewrite acquired_app, Ha. unfold freed. rewrite omap_app. fold (freed (calls s)). rewrite Hf. simpl.
      split_and!; try done; by case_match.
    + eexists _, _. split; [done |]. split_and!; try done. unfold probe_ok. by rewrite Ha, (proj2 (Z.eqb_neq (probe_ s) 0)).
  - specialize (Hc c eq_refl). unfold uring. run_st. eexists _, _. split; [done |]. unfold probe_ok. cbn [calls probe_].
    rewrite acquired_app, Ha. unfold freed. rewrite omap_app. fold (freed (calls s)). rewrite Hf.
    split_and!; [destruct c; simpl; by rewrite ?app_nil_r | destruct c; done | done | done].
Qed.

(** The probe of a ring is acquired at most once and freed exactly as often: whatever
    is called on the settings, every [get_probe] after the first that succeeded
    returns the same probe, and when the settings are destroyed the probes freed
    are the ones acquired, at most one. *)
Theorem probe_freed_once os :
  Forall (λ o, ∀ c, o = OpOther c → other_call c = true) os →
  ∃ rs s s', run_ops os settings_new = Done rs s ∧ settings_destroy s = Done tt s' ∧
    freed (calls s') = acquired 0 (calls s) ∧ (length (freed (calls s')) ≤ 1)%nat ∧
    (∀ i, os !! i = Some OpProbe → probe_ s ≠ 0 → ∃ r, rs !! i = Some r ∧ (r = 0 ∨ r = probe_ s)).
Proof.
  intros Hos.
  assert (∀ s, probe_ok s → ∃ rs s', run_ops os s = Done rs s' ∧ probe_ok s' ∧ (probe_ s ≠ 0 → probe_ s' = probe_ s) ∧
    (∀ i, os !! i = Some OpProbe → probe_ s' ≠ 0 → ∃ r, rs !! i = Some r ∧ (r = 0 ∨ r = probe_ s'))) as Hrun.
  { unfold run_ops. induction Hos as [|o os Ho _ IH]; intros s Hs; [by exists [], s |]. cbn [mapM].
    destruct (run_op_ok o s Hs Ho) as (r & s1 & E & Hs1 & Hk & Hr). destruct (IH s1 Hs1) as (rs & s2 & E2 & Hs2 & Hk2 & Hp).
    exists (r :: rs), s2. split; [erewrite bind_done by exact E; by erewrite bind_done by exact E2 |].
    split_and!; [done | intros H0; rewrite Hk2; rewrite Hk; done |].
    intros [|i] Hi Hne; [| by apply Hp]. simplify_eq/=. exists r. split; [done |]. rewrite (Hr eq_refl).
    destruct (decide (probe_ s1 = 0)) as [Hz | Hz]; [by left | right; by rewrite Hk2]. }
  destruct (Hrun settings_new) as (rs & s & E & [Ha Hf] & _ & Hp); [by split |]. exists rs, s.
  unfold settings_destroy. rewrite bind_get. rewrite Ha. destruct (probe_ s =? 0) eqn:Ez; simpl.
  - exists s. rewrite Hf. simpl. split_and!; try done. lia.
  - eexists. split; [done |]. split; [done |]. simpl. unfold freed. rewrite omap_app. fold (freed (calls s)).
    rewrite Hf. simpl. split_and!; try done.
Qed.
End settings.

(** The first answer is a null pointer, the second a probe. *)
Lemma probe_freed_once_witness :
  ∃ rs s s', run_ops (λ n _, match n with 0%nat => 0 | _ => 4096 end) [OpProbe; OpProbe; OpOther unregister_files; OpProbe]
               settings_new = Done rs s ∧
    settings_destroy (λ n _, match n with 0%nat => 0 | _ => 4096 end) s = Done tt s' ∧ freed (calls s') = [4096].
Proof.
  destruct (probe_freed_once (λ n _, match n with 0%nat => 0 | _ => 4096 end)
              [OpProbe; OpProbe; OpOther unregister_files; OpProbe]) as (rs & s & s' & E & Ed & Hf & _).
  - repeat constructor; intros c [= <-]; reflexivity.
  - exists rs, s, s'. split_and!; [exact E | exact Ed |]. rewrite Hf. vm_compute in E. injection E as <- <-. reflexivity.
Defined.
