(* ===== verification/AsyncOps.v ===== *)
(** * Asynchronous operations (include/condy/async_operations.hpp,
      detail/async_operations.hpp, awaiter_operations.hpp, cqe_handler.hpp,
      buffers.hpp, helpers.hpp)

    - [CqeHandler]: what the handlers make of a completion.
    - [Buffer]: the plain buffers and the overloads of [buffer].
    - [prep_fn] names the functions of liburing; the preparation of an entry is
      the list of its [write]s, and [Liburing] gives the functions their meaning,
      with the laws the code relies on.
    - [awaiter] is what an [async_*] function returns; [to_sender] is it as a
      sender of [OpStates.v].
    - Pointers are their addresses; an overload has the name of its function
      followed by the kind of buffer.
    - [async_uring_cmd] and the like take a function that fills the entry and a
      handler of the user's: they stay arguments. *)

From stdpp Require Import base numbers list gmap.
From S2P Require Import Prelude Ring OpStates Buffers.

(** ** Handlers of completions *)

Module CqeHandler.

(** A completion of a ring with 32-byte entries: [big_cqe[0]] and [big_cqe[1]]. *)
Record big_cqe := mkBigCqe {
  base : cqe;
  big0 : Z;
  big1 : Z
}.

Definition SimpleCQEHandler (c : cqe) : Z := cqe_res c.

Definition SelectBufferCQEHandler {S A} (handle_finish : cqe → ST S A) (c : cqe) : ST S (Z * A) :=
  buf ← handle_finish c;
  mret (cqe_res c, buf).

Definition NVMePassthruCQEHandler (c : big_cqe) : Z * Z := (cqe_res (base c), big0 c).

Record SCSIBsgResult := mkScsi { res2 : Z }.
Definition device_status (r : SCSIBsgResult) : Z := u8 (Z.land (res2 r) 255).
Definition driver_status (r : SCSIBsgResult) : Z := u8 (Z.land (Z.shiftr (res2 r) 8) 255).
Definition host_status (r : SCSIBsgResult) : Z := u8 (Z.land (Z.shiftr (res2 r) 16) 255).
Definition sense_len (r : SCSIBsgResult) : Z := u8 (Z.land (Z.shiftr (res2 r) 24) 255).
Definition resid_len (r : SCSIBsgResult) : Z := u32 (Z.shiftr (res2 r) 32).
Definition SCSIBsgPassthruCQEHandler (c : big_cqe) : Z * SCSIBsgResult := (cqe_res (base c), mkScsi (big0 c)).

Definition IORING_TIMESTAMP_TYPE_SHIFT : Z := 17.
Definition IORING_CQE_F_TSTAMP_HW : Z := Z.shiftl 1 16.

Record TxTimestampResult := mkTxTimestamp {
  tstype : Z;
  hwts : bool;
  ts : Z * Z
}.
Definition TxTimestampCQEHandler (c : big_cqe) : Z * TxTimestampResult :=
  (cqe_res (base c),
   mkTxTimestamp (s32 (Z.shiftr (cqe_flags (base c)) IORING_TIMESTAMP_TYPE_SHIFT))
     (has_flag (cqe_flags (base c)) IORING_CQE_F_TSTAMP_HW) (big0 c, big1 c)).

End CqeHandler.

(** ** Buffers *)

Module Buffer.

(** [MutableBuffer] and [ConstBuffer]: an address and a number of bytes. *)
Record MutableBuffer := mkMutable { data : Z; size : Z }.
Record ConstBuffer := mkConst { cdata : Z; csize : Z }.
Definition const_of_mutable (b : MutableBuffer) : ConstBuffer := mkConst (data b) (size b).

(** The containers of the overloads: where the elements are and how many; strings
    have elements of one byte. *)
Record array_of := mkArray { elems : Z; count : Z }.
Record iovec := mkIovec { iov_base : Z; iov_len : Z }.

Definition buffer_ptr (data size : Z) : MutableBuffer := mkMutable data size.
Definition buffer_cptr (data size : Z) : ConstBuffer := mkConst data size.
Definition buffer_arr (sizeof : Z) (a : array_of) : MutableBuffer := mkMutable (elems a) (u64 (sizeof * count a)).
Definition buffer_carr (sizeof : Z) (a : array_of) : ConstBuffer := mkConst (elems a) (u64 (sizeof * count a)).
Definition buffer_array (sizeof : Z) (a : array_of) : MutableBuffer := mkMutable (elems a) (u64 (sizeof * count a)).
Definition buffer_carray (sizeof : Z) (a : array_of) : ConstBuffer := mkConst (elems a) (u64 (sizeof * count a)).
Definition buffer_vector (sizeof : Z) (v : array_of) : MutableBuffer := mkMutable (elems v) (u64 (sizeof * count v)).
Definition buffer_cvector (sizeof : Z) (v : array_of) : ConstBuffer := mkConst (elems v) (u64 (sizeof * count v)).
Definition buffer_string (s : array_of) : MutableBuffer := mkMutable (elems s) (count s).
Definition buffer_cstring (s : array_of) : ConstBuffer := mkConst (elems s) (count s).
Definition buffer_string_view (s : array_of) : ConstBuffer := mkConst (elems s) (count s).
Definition buffer_iovec (v : iovec) : MutableBuffer := mkMutable (iov_base v) (iov_len v).
Definition buffer_cspan (sizeof : Z) (s : array_of) : ConstBuffer := mkConst (elems s) (u64 (count s * sizeof)).
Definition buffer_span (sizeof : Z) (s : array_of) : MutableBuffer := mkMutable (elems s) (u64 (count s * sizeof)).

(** [BufferLike]: what the operations use of a buffer. *)
Class BufferLike (T : Type) := { buf_data : T → Z; buf_size : T → Z }.
#[global] Instance mutable_buffer_like : BufferLike MutableBuffer := {| buf_data := data; buf_size := size |}.
#[global] Instance const_buffer_like : BufferLike ConstBuffer := {| buf_data := cdata; buf_size := csize |}.

End Buffer.

Import Buffer (BufferLike, buf_data, buf_size).

(** ** Descriptors and fixed buffers (detail/helpers.hpp) *)

Inductive Fd : Type :=
  | PlainFd (fd : Z)
  | FixedFd (value : Z).

Definition is_fixed_fd_v (fd : Fd) : bool :=
  match fd with FixedFd _ => true | PlainFd _ => false end.
Definition unwrap_fixed (fd : Fd) : Z :=
  match fd with FixedFd v => v | PlainFd v => v end.
Definition fixed_fd (fd : Z) : Fd := FixedFd fd.

Record FixedBuffer (T : Type) := mkFixedBuffer {
  fb_value : T;
  buf_index : Z
}.
Arguments mkFixedBuffer {T} fb_value buf_index.
Arguments fb_value {T} f.
Arguments buf_index {T} f.
Definition fixed_buffer {T} (buf_index : Z) (buf : T) : FixedBuffer T := mkFixedBuffer buf buf_index.

(** What an operation needs of a provided-buffer queue or pool: which one it is
    and its group. *)
Record buffer_ring := mkBufferRing {
  br_id : nat;
  bgid : Z
}.

(** ** Preparing an entry *)

(** The functions of liburing the code calls. *)
Inductive prep_fn : Type :=
  | io_uring_prep_splice | io_uring_prep_tee | io_uring_prep_readv2 | io_uring_prep_readv_fixed
  | io_uring_prep_writev2 | io_uring_prep_writev_fixed | io_uring_prep_recvmsg
  | io_uring_prep_recvmsg_multishot | io_uring_prep_sendmsg | io_uring_prep_sendmsg_zc
  | io_uring_prep_sendmsg_zc_fixed | io_uring_prep_fsync | io_uring_prep_nop | io_uring_prep_nop128
  | io_uring_prep_timeout | io_uring_prep_accept | io_uring_prep_accept_direct
  | io_uring_prep_multishot_accept | io_uring_prep_multishot_accept_direct | io_uring_prep_cancel_fd
  | io_uring_prep_link_timeout | io_uring_prep_connect | io_uring_prep_files_update
  | io_uring_prep_fallocate | io_uring_prep_openat | io_uring_prep_openat_direct | io_uring_prep_close
  | io_uring_prep_close_direct | io_uring_prep_read | io_uring_prep_read_fixed
  | io_uring_prep_read_multishot | io_uring_prep_write | io_uring_prep_write_fixed | io_uring_prep_statx
  | io_uring_prep_fadvise | io_uring_prep_fadvise64 | io_uring_prep_madvise | io_uring_prep_madvise64
  | io_uring_prep_send | io_uring_prep_send_set_addr | io_uring_prep_send_zc | io_uring_prep_send_zc_fixed
  | io_uring_prep_recv | io_uring_prep_recv_multishot | io_uring_prep_rw_recv_zc | io_uring_prep_openat2
  | io_uring_prep_openat2_direct | io_uring_prep_shutdown | io_uring_prep_unlinkat | io_uring_prep_renameat
  | io_uring_prep_sync_file_range | io_uring_prep_mkdirat | io_uring_prep_symlinkat | io_uring_prep_linkat
  | io_uring_prep_getxattr | io_uring_prep_setxattr | io_uring_prep_fgetxattr | io_uring_prep_fsetxattr
  | io_uring_prep_socket | io_uring_prep_socket_direct | io_uring_prep_uring_cmd | io_uring_prep_uring_cmd128
  | io_uring_prep_cmd_sock | io_uring_prep_cmd_getsockname | io_uring_prep_waitid | io_uring_prep_futex_wake
  | io_uring_prep_futex_wait | io_uring_prep_futex_waitv | io_uring_prep_fixed_fd_install
  | io_uring_prep_ftruncate | io_uring_prep_cmd_discard | io_uring_prep_bind | io_uring_prep_listen
  | io_uring_prep_epoll_ctl | io_uring_prep_epoll_wait | io_uring_prep_pipe | io_uring_prep_pipe_direct.

#[export] Instance prep_fn_eq_dec : EqDecision prep_fn.
Proof. solve_decision. Defined.

(** The fields of [io_uring_sqe] the code itself writes ([buf_group] and
    [buf_index] are one field of it), and the operation. *)
Record entry := mkEntry {
  e_opcode : Z;
  e_flags : Z;
  e_ioprio : Z;
  e_buf : Z;
  e_rw_flags : Z;
  e_zcrx_ifq_idx : Z
}.

Inductive write : Type :=
  | Call (f : prep_fn) (args : list Z)
  | OrFlags (v : Z)
  | OrIoprio (v : Z)
  | SetBufGroup (v : Z)
  | SetBufIndex (v : Z)
  | SetRwFlags (v : Z)
  | SetZcrxIfqIdx (v : Z)
  | Fill (cmd_func : entry → entry).

(** Constants of <liburing/io_uring.h> and <fcntl.h>. *)
Definition IOSQE_BUFFER_SELECT : Z := 32.
Definition IORING_RECV_MULTISHOT : Z := 2.
Definition IORING_RECVSEND_FIXED_BUF : Z := 4.
Definition IORING_RECVSEND_BUNDLE : Z := 16.
Definition IORING_TIMEOUT_MULTISHOT : Z := 64.
Definition IORING_ASYNC_CANCEL_FD_FIXED : Z := 8.
Definition SPLICE_F_FD_IN_FIXED : Z := Z.shiftl 1 31.
Definition AT_FDCWD : Z := -100.

(** The preparations of the library itself. *)
Definition prep_send_fixed (sockfd buf len flags buf_index : Z) : list write :=
  [Call io_uring_prep_send [sockfd; buf; len; flags]; OrIoprio IORING_RECVSEND_FIXED_BUF; SetBufIndex buf_index].
Definition prep_recv_fixed (sockfd buf len flags buf_index : Z) : list write :=
  [Call io_uring_prep_recv [sockfd; buf; len; flags]; OrIoprio IORING_RECVSEND_FIXED_BUF; SetBufIndex buf_index].
Definition prep_sendto (sockfd buf len flags addr addrlen : Z) : list write :=
  [Call io_uring_prep_send [sockfd; buf; len; flags]; Call io_uring_prep_send_set_addr [addr; addrlen]].
Definition prep_sendto_fixed (sockfd buf len flags addr addrlen buf_index : Z) : list write :=
  prep_sendto sockfd buf len flags addr addrlen ++ [OrIoprio IORING_RECVSEND_FIXED_BUF; SetBufIndex buf_index].
Definition prep_sendto_zc (sockfd buf len flags addr addrlen zc_flags : Z) : list write :=
  [Call io_uring_prep_send_zc [sockfd; buf; len; flags; zc_flags]; Call io_uring_prep_send_set_addr [addr; addrlen]].
Definition prep_sendto_zc_fixed (sockfd buf len flags addr addrlen zc_flags buf_index : Z) : list write :=
  prep_sendto_zc sockfd buf len flags addr addrlen zc_flags
    ++ [OrIoprio IORING_RECVSEND_FIXED_BUF; SetBufIndex buf_index].
(** [io_uring_prep_rw(IORING_OP_RECV_ZC, sqe, fd, nullptr, 0, 0)] *)
Definition prep_recv_zc_multishot (fd zcrx_id : Z) : list write :=
  [Call io_uring_prep_rw_recv_zc [fd; 0; 0; 0]; OrIoprio IORING_RECV_MULTISHOT; SetZcrxIfqIdx zcrx_id].
(** The number of bytes is an [unsigned] here. *)
Definition prep_read (fd buf nbytes offset flags : Z) : list write :=
  [Call io_uring_prep_read [fd; buf; u32 nbytes; offset]; SetRwFlags flags].
Definition prep_read_fixed (fd buf nbytes offset flags buf_index : Z) : list write :=
  [Call io_uring_prep_read_fixed [fd; buf; u32 nbytes; offset; buf_index]; SetRwFlags flags].
Definition prep_write (fd buf nbytes offset flags : Z) : list write :=
  [Call io_uring_prep_write [fd; buf; u32 nbytes; offset]; SetRwFlags flags].
Definition prep_write_fixed (fd buf nbytes offset flags buf_index : Z) : list write :=
  [Call io_uring_prep_write_fixed [fd; buf; u32 nbytes; offset; buf_index]; SetRwFlags flags].

(** ** Awaiters *)

(** The handler of an operation, by its type. *)
Inductive cqe_handler : Type :=
  | Simple
  | SelectBuffer (br : buffer_ring)
  | SelectZcrx (pool : nat)
  | UserHandler (id : nat).

(** [build_op_awaiter] and the like: the entry is taken with [get_sqe128] when
    [aw_sqe128] is set. *)
Record op_awaiter := mkOpAwaiter {
  aw_sqe128 : bool;
  aw_prep : list write;
  aw_handler : cqe_handler;
  aw_kind : handle_kind
}.

Inductive awaiter : Type :=
  | OpAwaiter (o : op_awaiter)
  | FlaggedAwaiter (Flags : Z) (a : awaiter).

Definition build_op_awaiter (sqe128 : bool) (prep : list write) (h : cqe_handler) : awaiter :=
  OpAwaiter (mkOpAwaiter sqe128 prep h OneShot).
Definition build_multishot_op_awaiter (prep : list write) (h : cqe_handler) : awaiter :=
  OpAwaiter (mkOpAwaiter false prep h MultiShot).
Definition build_zero_copy_op_awaiter (prep : list write) (h : cqe_handler) : awaiter :=
  OpAwaiter (mkOpAwaiter false prep h ZeroCopy).

Definition make_op_awaiter (func : list write) : awaiter := build_op_awaiter false func Simple.
Definition make_op_awaiter128 (func : list write) : awaiter := build_op_awaiter true func Simple.
Definition make_multishot_op_awaiter (func : list write) : awaiter := build_multishot_op_awaiter func Simple.
Definition make_select_buffer_op_awaiter (buffers : buffer_ring) (func : list write) : awaiter :=
  build_op_awaiter false (func ++ [OrFlags IOSQE_BUFFER_SELECT; SetBufGroup (bgid buffers)]) (SelectBuffer buffers).
Definition make_multishot_select_buffer_op_awaiter (buffers : buffer_ring) (func : list write) : awaiter :=
  build_multishot_op_awaiter (func ++ [OrFlags IOSQE_BUFFER_SELECT; SetBufGroup (bgid buffers)]) (SelectBuffer buffers).
Definition make_bundle_select_buffer_op_awaiter (buffers : buffer_ring) (func : list write) : awaiter :=
  build_op_awaiter false
    (func ++ [OrFlags IOSQE_BUFFER_SELECT; SetBufGroup (bgid buffers); OrIoprio IORING_RECVSEND_BUNDLE])
    (SelectBuffer buffers).
Definition make_multishot_bundle_select_buffer_op_awaiter (buffers : buffer_ring) (func : list write) : awaiter :=
  build_multishot_op_awaiter
    (func ++ [OrFlags IOSQE_BUFFER_SELECT; SetBufGroup (bgid buffers); OrIoprio IORING_RECVSEND_BUNDLE])
    (SelectBuffer buffers).
Definition make_zero_copy_op_awaiter (func : list write) : awaiter := build_zero_copy_op_awaiter func Simple.

Definition maybe_flag_fixed_fd (op : awaiter) (fd : Fd) : awaiter :=
  match fd with
  | FixedFd _ => FlaggedAwaiter IOSQE_FIXED_FILE op
  | PlainFd _ => op
  end.

(** ** The operations (async_operations.hpp) *)

Definition async_splice (fd_in : Fd) (off_in : Z) (fd_out : Fd) (off_out nbytes splice_flags : Z) : awaiter :=
  let splice_flags := if is_fixed_fd_v fd_in then Z.lor splice_flags SPLICE_F_FD_IN_FIXED else splice_flags in
  maybe_flag_fixed_fd
    (make_op_awaiter [Call io_uring_prep_splice
       [unwrap_fixed fd_in; off_in; unwrap_fixed fd_out; off_out; nbytes; splice_flags]]) fd_out.
Definition async_tee (fd_in fd_out : Fd) (nbytes splice_flags : Z) : awaiter :=
  let splice_flags := if is_fixed_fd_v fd_in then Z.lor splice_flags SPLICE_F_FD_IN_FIXED else splice_flags in
  maybe_flag_fixed_fd
    (make_op_awaiter [Call io_uring_prep_tee [unwrap_fixed fd_in; unwrap_fixed fd_out; nbytes; splice_flags]]) fd_out.
Definition async_readv (fd : Fd) (iovecs nr_vecs offset flags : Z) : awaiter :=
  maybe_flag_fixed_fd (make_op_awaiter [Call io_uring_prep_readv2 [unwrap_fixed fd; iovecs; nr_vecs; offset; flags]]) fd.
Definition async_readv_fixed (fd : Fd) (iovecs : FixedBuffer Z) (nr_vecs offset flags : Z) : awaiter :=
  maybe_flag_fixed_fd
    (make_op_awaiter [Call io_uring_prep_readv_fixed
       [unwrap_fixed fd; fb_value iovecs; nr_vecs; offset; flags; buf_index iovecs]]) fd.
Definition async_writev (fd : Fd) (iovecs nr_vecs offset flags : Z) : awaiter :=
  maybe_flag_fixed_fd (make_op_awaiter [Call io_uring_prep_writev2 [unwrap_fixed fd; iovecs; nr_vecs; offset; flags]]) fd.
Definition async_writev_fixed (fd : Fd) (iovecs : FixedBuffer Z) (nr_vecs offset flags : Z) : awaiter :=
  maybe_flag_fixed_fd
    (make_op_awaiter [Call io_uring_prep_writev_fixed
       [unwrap_fixed fd; fb_value iovecs; nr_vecs; offset; flags; buf_index iovecs]]) fd.
Definition async_recvmsg (fd : Fd) (msg flags : Z) : awaiter :=
  maybe_flag_fixed_fd (make_op_awaiter [Call io_uring_prep_recvmsg [unwrap_fixed fd; msg; flags]]) fd.
Definition async_recvmsg_multishot (fd : Fd) (msg flags : Z) (buf : buffer_ring) : awaiter :=
  maybe_flag_fixed_fd
    (make_multishot_select_buffer_op_awaiter buf [Call io_uring_prep_recvmsg_multishot [unwrap_fixed fd; msg; flags]]) fd.
Definition async_sendmsg (fd : Fd) (msg flags : Z) : awaiter :=
  maybe_flag_fixed_fd (make_op_awaiter [Call io_uring_prep_sendmsg [unwrap_fixed fd; msg; flags]]) fd.
Definition async_sendmsg_zc (fd : Fd) (msg flags : Z) : awaiter :=
  maybe_flag_fixed_fd (make_zero_copy_op_awaiter [Call io_uring_prep_sendmsg_zc [unwrap_fixed fd; msg; flags]]) fd.
Definition async_sendmsg_zc_fixed (fd : Fd) (msg : FixedBuffer Z) (flags : Z) : awaiter :=
  maybe_flag_fixed_fd
    (make_zero_copy_op_awaiter [Call io_uring_prep_sendmsg_zc_fixed
       [unwrap_fixed fd; fb_value msg; flags; buf_index msg]]) fd.
Definition async_fsync (fd : Fd) (fsync_flags : Z) : awaiter :=
  maybe_flag_fixed_fd (make_op_awaiter [Call io_uring_prep_fsync [unwrap_fixed fd; fsync_flags]]) fd.
Definition async_nop : awaiter := make_op_awaiter [Call io_uring_prep_nop []].
Definition async_nop128 : awaiter := make_op_awaiter128 [Call io_uring_prep_nop128 []].
Definition async_timeout (ts count flags : Z) : awaiter :=
  make_op_awaiter [Call io_uring_prep_timeout [ts; count; flags]].
Definition async_timeout_multishot (ts count flags : Z) : awaiter :=
  make_multishot_op_awaiter [Call io_uring_prep_timeout [ts; count; Z.lor flags IORING_TIMEOUT_MULTISHOT]].
Definition async_accept (fd : Fd) (addr addrlen flags : Z) : awaiter :=
  maybe_flag_fixed_fd (make_op_awaiter [Call io_uring_prep_accept [unwrap_fixed fd; addr; addrlen; flags]]) fd.
Definition async_accept_direct (fd : Fd) (addr addrlen flags file_index : Z) : awaiter :=
  maybe_flag_fixed_fd (make_op_awaiter [Call io_uring_prep_accept_direct [unwrap_fixed fd; addr; addrlen; flags; file_index]]) fd.
Definition async_multishot_accept (fd : Fd) (addr addrlen flags : Z) : awaiter :=
  maybe_flag_fixed_fd
    (make_multishot_op_awaiter [Call io_uring_prep_multishot_accept [unwrap_fixed fd; addr; addrlen; flags]]) fd.
Definition async_multishot_accept_direct (fd : Fd) (addr addrlen flags : Z) : awaiter :=
  maybe_flag_fixed_fd
    (make_multishot_op_awaiter [Call io_uring_prep_multishot_accept_direct
       [unwrap_fixed fd; addr; addrlen; flags]]) fd.
Definition async_cancel_fd (fd : Fd) (flags : Z) : awaiter :=
  let flags := if is_fixed_fd_v fd then Z.lor flags IORING_ASYNC_CANCEL_FD_FIXED else flags in
  make_op_awaiter [Call io_uring_prep_cancel_fd [unwrap_fixed fd; flags]].
Definition async_link_timeout (ts flags : Z) : awaiter :=
  make_op_awaiter [Call io_uring_prep_link_timeout [ts; flags]].
Definition async_connect (fd : Fd) (addr addrlen : Z) : awaiter :=
  maybe_flag_fixed_fd (make_op_awaiter [Call io_uring_prep_connect [unwrap_fixed fd; addr; addrlen]]) fd.
Definition async_files_update (fds nr_fds offset : Z) : awaiter :=
  make_op_awaiter [Call io_uring_prep_files_update [fds; nr_fds; offset]].
Definition async_fallocate (fd : Fd) (mode offset len : Z) : awaiter :=
  maybe_flag_fixed_fd (make_op_awaiter [Call io_uring_prep_fallocate [unwrap_fixed fd; mode; offset; len]]) fd.
Definition async_openat (dfd path flags mode : Z) : awaiter :=
  make_op_awaiter [Call io_uring_prep_openat [dfd; path; flags; mode]].
Definition async_openat_direct (dfd path flags mode file_index : Z) : awaiter :=
  make_op_awaiter [Call io_uring_prep_openat_direct [dfd; path; flags; mode; file_index]].
Definition async_open (path flags mode : Z) : awaiter := async_openat AT_FDCWD path flags mode.
Definition async_open_direct (path flags mode file_index : Z) : awaiter :=
  async_openat_direct AT_FDCWD path flags mode file_index.
Definition async_close (fd : Z) : awaiter := make_op_awaiter [Call io_uring_prep_close [fd]].
Definition async_close_fixed (value : Z) : awaiter :=
  make_op_awaiter [Call io_uring_prep_close_direct [unwrap_fixed (FixedFd value)]].
Definition async_read `{BufferLike T} (fd : Fd) (buf : T) (offset flags : Z) : awaiter :=
  maybe_flag_fixed_fd
    (make_op_awaiter (prep_read (unwrap_fixed fd) (buf_data buf) (buf_size buf) offset flags)) fd.
Definition async_read_fixed `{BufferLike T} (fd : Fd) (buf : FixedBuffer T) (offset flags : Z) : awaiter :=
  maybe_flag_fixed_fd
    (make_op_awaiter (prep_read_fixed (unwrap_fixed fd) (buf_data (fb_value buf)) (buf_size (fb_value buf))
       offset flags (buf_index buf))) fd.
Definition async_read_provided (fd : Fd) (buf : buffer_ring) (offset : Z) : awaiter :=
  maybe_flag_fixed_fd
    (make_select_buffer_op_awaiter buf [Call io_uring_prep_read [unwrap_fixed fd; 0; 0; offset]]) fd.
Definition async_read_multishot (fd : Fd) (buf : buffer_ring) (offset : Z) : awaiter :=
  maybe_flag_fixed_fd
    (make_multishot_select_buffer_op_awaiter buf
       [Call io_uring_prep_read_multishot [unwrap_fixed fd; 0; offset; bgid buf]]) fd.
Definition async_write `{BufferLike T} (fd : Fd) (buf : T) (offset flags : Z) : awaiter :=
  maybe_flag_fixed_fd
    (make_op_awaiter (prep_write (unwrap_fixed fd) (buf_data buf) (buf_size buf) offset flags)) fd.
Definition async_write_fixed `{BufferLike T} (fd : Fd) (buf : FixedBuffer T) (offset flags : Z) : awaiter :=
  maybe_flag_fixed_fd
    (make_op_awaiter (prep_write_fixed (unwrap_fixed fd) (buf_data (fb_value buf)) (buf_size (fb_value buf))
       offset flags (buf_index buf))) fd.
Definition async_statx (dfd path flags mask statxbuf : Z) : awaiter :=
  make_op_awaiter [Call io_uring_prep_statx [dfd; path; flags; mask; statxbuf]].
Definition async_fadvise (fd : Fd) (offset len advice : Z) : awaiter :=
  maybe_flag_fixed_fd (make_op_awaiter [Call io_uring_prep_fadvise [unwrap_fixed fd; offset; len; advice]]) fd.
Definition async_fadvise64 (fd : Fd) (offset len advice : Z) : awaiter :=
  maybe_flag_fixed_fd (make_op_awaiter [Call io_uring_prep_fadvise64 [unwrap_fixed fd; offset; len; advice]]) fd.
Definition async_madvise (addr length advice : Z) : awaiter :=
  make_op_awaiter [Call io_uring_prep_madvise [addr; length; advice]].
Definition async_madvise64 (addr length advice : Z) : awaiter :=
  make_op_awaiter [Call io_uring_prep_madvise64 [addr; length; advice]].
Definition async_send `{BufferLike T} (sockfd : Fd) (buf : T) (flags : Z) : awaiter :=
  maybe_flag_fixed_fd
    (make_op_awaiter [Call io_uring_prep_send [unwrap_fixed sockfd; buf_data buf; buf_size buf; flags]]) sockfd.
Definition async_send_fixed `{BufferLike T} (sockfd : Fd) (buf : FixedBuffer T) (flags : Z) : awaiter :=
  maybe_flag_fixed_fd
    (make_op_awaiter (prep_send_fixed (unwrap_fixed sockfd) (buf_data (fb_value buf)) (buf_size (fb_value buf))
       flags (buf_index buf))) sockfd.
Definition async_send_provided (sockfd : Fd) (buf : buffer_ring) (flags : Z) : awaiter :=
  maybe_flag_fixed_fd
    (make_select_buffer_op_awaiter buf [Call io_uring_prep_send [unwrap_fixed sockfd; 0; 0; flags]]) sockfd.
Definition async_send_bundled (sockfd : Fd) (buf : buffer_ring) (flags : Z) : awaiter :=
  maybe_flag_fixed_fd
    (make_bundle_select_buffer_op_awaiter buf [Call io_uring_prep_send [unwrap_fixed sockfd; 0; 0; flags]]) sockfd.
Definition async_sendto `{BufferLike T} (sockfd : Fd) (buf : T) (flags addr addrlen : Z) : awaiter :=
  maybe_flag_fixed_fd
    (make_op_awaiter (prep_sendto (unwrap_fixed sockfd) (buf_data buf) (buf_size buf) flags addr addrlen)) sockfd.
Definition async_sendto_fixed `{BufferLike T} (sockfd : Fd) (buf : FixedBuffer T) (flags addr addrlen : Z) : awaiter :=
  maybe_flag_fixed_fd
    (make_op_awaiter (prep_sendto_fixed (unwrap_fixed sockfd) (buf_data (fb_value buf)) (buf_size (fb_value buf))
       flags addr addrlen (buf_index buf))) sockfd.
Definition async_sendto_provided (sockfd : Fd) (buf : buffer_ring) (flags addr addrlen : Z) : awaiter :=
  maybe_flag_fixed_fd
    (make_select_buffer_op_awaiter buf (prep_sendto (unwrap_fixed sockfd) 0 0 flags addr addrlen)) sockfd.
Definition async_sendto_bundled (sockfd : Fd) (buf : buffer_ring) (flags addr addrlen : Z) : awaiter :=
  maybe_flag_fixed_fd
    (make_bundle_select_buffer_op_awaiter buf (prep_sendto (unwrap_fixed sockfd) 0 0 flags addr addrlen)) sockfd.
Definition async_send_zc `{BufferLike T} (sockfd : Fd) (buf : T) (flags zc_flags : Z) : awaiter :=
  maybe_flag_fixed_fd
    (make_zero_copy_op_awaiter [Call io_uring_prep_send_zc
       [unwrap_fixed sockfd; buf_data buf; buf_size buf; flags; zc_flags]]) sockfd.
Definition async_send_zc_fixed `{BufferLike T} (sockfd : Fd) (buf : FixedBuffer T) (flags zc_flags : Z) : awaiter :=
  maybe_flag_fixed_fd
    (make_zero_copy_op_awaiter [Call io_uring_prep_send_zc_fixed
       [unwrap_fixed sockfd; buf_data (fb_value buf); buf_size (fb_value buf); flags; zc_flags; buf_index buf]]) sockfd.
Definition async_sendto_zc `{BufferLike T} (sockfd : Fd) (buf : T) (flags addr addrlen zc_flags : Z) : awaiter :=
  maybe_flag_fixed_fd
    (make_zero_copy_op_awaiter (prep_sendto_zc (unwrap_fixed sockfd) (buf_data buf) (buf_size buf)
       flags addr addrlen zc_flags)) sockfd.
Definition async_sendto_zc_fixed `{BufferLike T} (sockfd : Fd) (buf : FixedBuffer T) (flags addr addrlen zc_flags : Z) : awaiter :=
  maybe_flag_fixed_fd
    (make_zero_copy_op_awaiter (prep_sendto_zc_fixed (unwrap_fixed sockfd) (buf_data (fb_value buf))
       (buf_size (fb_value buf)) flags addr addrlen zc_flags (buf_index buf))) sockfd.
Definition async_recv `{BufferLike T} (sockfd : Fd) (buf : T) (flags : Z) : awaiter :=
  maybe_flag_fixed_fd
    (make_op_awaiter [Call io_uring_prep_recv [unwrap_fixed sockfd; buf_data buf; buf_size buf; flags]]) sockfd.
Definition async_recv_fixed `{BufferLike T} (sockfd : Fd) (buf : FixedBuffer T) (flags : Z) : awaiter :=
  maybe_flag_fixed_fd
    (make_op_awaiter (prep_recv_fixed (unwrap_fixed sockfd) (buf_data (fb_value buf)) (buf_size (fb_value buf))
       flags (buf_index buf))) sockfd.
Definition async_recv_provided (sockfd : Fd) (buf : buffer_ring) (flags : Z) : awaiter :=
  maybe_flag_fixed_fd
    (make_select_buffer_op_awaiter buf [Call io_uring_prep_recv [unwrap_fixed sockfd; 0; 0; flags]]) sockfd.
Definition async_recv_bundled (sockfd : Fd) (buf : buffer_ring) (flags : Z) : awaiter :=
  maybe_flag_fixed_fd
    (make_bundle_select_buffer_op_awaiter buf [Call io_uring_prep_recv [unwrap_fixed sockfd; 0; 0; flags]]) sockfd.
Definition async_recv_multishot (sockfd : Fd) (buf : buffer_ring) (flags : Z) : awaiter :=
  maybe_flag_fixed_fd
    (make_multishot_select_buffer_op_awaiter buf
       [Call io_uring_prep_recv_multishot [unwrap_fixed sockfd; 0; 0; flags]]) sockfd.
Definition async_recv_multishot_bundled (sockfd : Fd) (buf : buffer_ring) (flags : Z) : awaiter :=
  maybe_flag_fixed_fd
    (make_multishot_bundle_select_buffer_op_awaiter buf
       [Call io_uring_prep_recv_multishot [unwrap_fixed sockfd; 0; 0; flags]]) sockfd.
Definition async_recv_multishot_zcrx (sockfd : Z) (pool : nat) (zcrx_id : Z) : awaiter :=
  maybe_flag_fixed_fd
    (build_multishot_op_awaiter (prep_recv_zc_multishot sockfd zcrx_id) (SelectZcrx pool)) (PlainFd sockfd).
Definition async_openat2 (dfd path how : Z) : awaiter :=
  make_op_awaiter [Call io_uring_prep_openat2 [dfd; path; how]].
Definition async_openat2_direct (dfd path how file_index : Z) : awaiter :=
  make_op_awaiter [Call io_uring_prep_openat2_direct [dfd; path; how; file_index]].
Definition async_shutdown (fd : Fd) (how : Z) : awaiter :=
  maybe_flag_fixed_fd (make_op_awaiter [Call io_uring_prep_shutdown [unwrap_fixed fd; how]]) fd.
Definition async_unlinkat (dfd path flags : Z) : awaiter :=
  make_op_awaiter [Call io_uring_prep_unlinkat [dfd; path; flags]].
Definition async_unlink (path flags : Z) : awaiter := async_unlinkat AT_FDCWD path flags.
Definition async_renameat (olddfd oldpath newdfd newpath flags : Z) : awaiter :=
  make_op_awaiter [Call io_uring_prep_renameat [olddfd; oldpath; newdfd; newpath; flags]].
Definition async_rename (oldpath newpath : Z) : awaiter := async_renameat AT_FDCWD oldpath AT_FDCWD newpath 0.
Definition async_sync_file_range (fd : Fd) (len offset flags : Z) : awaiter :=
  maybe_flag_fixed_fd (make_op_awaiter [Call io_uring_prep_sync_file_range [unwrap_fixed fd; len; offset; flags]]) fd.
Definition async_mkdirat (dfd path mode : Z) : awaiter :=
  make_op_awaiter [Call io_uring_prep_mkdirat [dfd; path; mode]].
Definition async_mkdir (path mode : Z) : awaiter := async_mkdirat AT_FDCWD path mode.
Definition async_symlinkat (target newdirfd linkpath : Z) : awaiter :=
  make_op_awaiter [Call io_uring_prep_symlinkat [target; newdirfd; linkpath]].
Definition async_symlink (target linkpath : Z) : awaiter := async_symlinkat target AT_FDCWD linkpath.
Definition async_linkat (olddfd oldpath newdfd newpath flags : Z) : awaiter :=
  make_op_awaiter [Call io_uring_prep_linkat [olddfd; oldpath; newdfd; newpath; flags]].
Definition async_link (oldpath newpath flags : Z) : awaiter :=
  async_linkat AT_FDCWD oldpath AT_FDCWD newpath flags.
Definition async_getxattr (name value path len : Z) : awaiter :=
  make_op_awaiter [Call io_uring_prep_getxattr [name; value; path; len]].
Definition async_setxattr (name value path flags len : Z) : awaiter :=
  make_op_awaiter [Call io_uring_prep_setxattr [name; value; path; flags; len]].
Definition async_fgetxattr (fd name value len : Z) : awaiter :=
  make_op_awaiter [Call io_uring_prep_fgetxattr [fd; name; value; len]].
Definition async_fsetxattr (fd name value flags len : Z) : awaiter :=
  make_op_awaiter [Call io_uring_prep_fsetxattr [fd; name; value; flags; len]].
Definition async_socket (domain type protocol flags : Z) : awaiter :=
  make_op_awaiter [Call io_uring_prep_socket [domain; type; protocol; flags]].
Definition async_socket_direct (domain type protocol file_index flags : Z) : awaiter :=
  make_op_awaiter [Call io_uring_prep_socket_direct [domain; type; protocol; file_index; flags]].
Definition async_uring_cmd (cmd_op : Z) (fd : Fd) (cmd_func : entry → entry) (handler : cqe_handler) : awaiter :=
  maybe_flag_fixed_fd
    (build_op_awaiter false [Call io_uring_prep_uring_cmd [cmd_op; unwrap_fixed fd]; Fill cmd_func] handler) fd.
Definition async_uring_cmd_multishot (cmd_op : Z) (fd : Fd) (cmd_func : entry → entry) (handler : cqe_handler) : awaiter :=
  maybe_flag_fixed_fd
    (build_multishot_op_awaiter [Call io_uring_prep_uring_cmd [cmd_op; unwrap_fixed fd]; Fill cmd_func] handler) fd.
Definition async_uring_cmd128 (cmd_op : Z) (fd : Fd) (cmd_func : entry → entry) (handler : cqe_handler) : awaiter :=
  maybe_flag_fixed_fd
    (build_op_awaiter true [Call io_uring_prep_uring_cmd128 [cmd_op; unwrap_fixed fd]; Fill cmd_func] handler) fd.
Definition async_cmd_sock (cmd_op : Z) (fd : Fd) (level optname optval optlen : Z) : awaiter :=
  maybe_flag_fixed_fd (make_op_awaiter [Call io_uring_prep_cmd_sock [cmd_op; unwrap_fixed fd; level; optname; optval; optlen]]) fd.
Definition async_cmd_getsockname (fd : Fd) (sockaddr sockaddr_len peer : Z) : awaiter :=
  maybe_flag_fixed_fd (make_op_awaiter [Call io_uring_prep_cmd_getsockname [unwrap_fixed fd; sockaddr; sockaddr_len; peer]]) fd.
Definition async_waitid (idtype id infop options flags : Z) : awaiter :=
  make_op_awaiter [Call io_uring_prep_waitid [idtype; id; infop; options; flags]].
Definition async_futex_wake (futex val mask futex_flags flags : Z) : awaiter :=
  make_op_awaiter [Call io_uring_prep_futex_wake [futex; val; mask; futex_flags; flags]].
Definition async_futex_wait (futex val mask futex_flags flags : Z) : awaiter :=
  make_op_awaiter [Call io_uring_prep_futex_wait [futex; val; mask; futex_flags; flags]].
Definition async_futex_waitv (futex nr_futex flags : Z) : awaiter :=
  make_op_awaiter [Call io_uring_prep_futex_waitv [futex; nr_futex; flags]].
Definition async_fixed_fd_install (fixed_fd flags : Z) : awaiter :=
  make_op_awaiter [Call io_uring_prep_fixed_fd_install [fixed_fd; flags]].
Definition async_ftruncate (fd : Fd) (len : Z) : awaiter :=
  maybe_flag_fixed_fd (make_op_awaiter [Call io_uring_prep_ftruncate [unwrap_fixed fd; len]]) fd.
Definition async_cmd_discard (fd : Fd) (offset nbytes : Z) : awaiter :=
  maybe_flag_fixed_fd (make_op_awaiter [Call io_uring_prep_cmd_discard [unwrap_fixed fd; offset; nbytes]]) fd.
Definition async_bind (fd : Fd) (addr addrlen : Z) : awaiter :=
  maybe_flag_fixed_fd (make_op_awaiter [Call io_uring_prep_bind [unwrap_fixed fd; addr; addrlen]]) fd.
Definition async_listen (fd : Fd) (backlog : Z) : awaiter :=
  maybe_flag_fixed_fd (make_op_awaiter [Call io_uring_prep_listen [unwrap_fixed fd; backlog]]) fd.
Definition async_epoll_ctl (epfd fd op ev : Z) : awaiter :=
  make_op_awaiter [Call io_uring_prep_epoll_ctl [epfd; fd; op; ev]].
Definition async_epoll_wait (fd events maxevents flags : Z) : awaiter :=
  make_op_awaiter [Call io_uring_prep_epoll_wait [fd; events; maxevents; flags]].
Definition async_pipe (fds pipe_flags : Z) : awaiter :=
  make_op_awaiter [Call io_uring_prep_pipe [fds; pipe_flags]].
Definition async_pipe_direct (fds pipe_flags file_index : Z) : awaiter :=
  make_op_awaiter [Call io_uring_prep_pipe_direct [fds; pipe_flags; file_index]].

(** ** The meaning of a preparation *)

Class Liburing := { io_uring_prep : prep_fn → list Z → entry → entry }.

(** What [io_uring_get_sqe] returns. *)
Definition fresh_entry : entry := mkEntry 0 0 0 0 0 0.

Section prepare.
Context `{Liburing}.

Definition apply_write (e : entry) (w : write) : entry :=
  match w with
  | Call f args => io_uring_prep f args e
  | OrFlags v => mkEntry (e_opcode e) (Z.lor (e_flags e) v) (e_ioprio e) (e_buf e) (e_rw_flags e) (e_zcrx_ifq_idx e)
  | OrIoprio v => mkEntry (e_opcode e) (e_flags e) (Z.lor (e_ioprio e) v) (e_buf e) (e_rw_flags e) (e_zcrx_ifq_idx e)
  | SetBufGroup v | SetBufIndex v =>
      mkEntry (e_opcode e) (e_flags e) (e_ioprio e) (u16 v) (e_rw_flags e) (e_zcrx_ifq_idx e)
  | SetRwFlags v => mkEntry (e_opcode e) (e_flags e) (e_ioprio e) (e_buf e) v (e_zcrx_ifq_idx e)
  | SetZcrxIfqIdx v => mkEntry (e_opcode e) (e_flags e) (e_ioprio e) (e_buf e) (e_rw_flags e) v
  | Fill g => g e
  end.

Definition prepare (ws : list write) : entry := foldl apply_write fresh_entry ws.

(** [Ring::get_sqe128] has an entry to give only on such rings. *)
Definition supports_sqe128 (setup_sqe128 setup_sqe_mixed : bool) : bool := setup_sqe128 || setup_sqe_mixed.

(** The preparation function of an awaiter, on a ring with or without 128-byte
    entries: what [OpSenderOperationState] needs of it. *)
Definition prep_func (ring128 : bool) (o : op_awaiter) : option (Z * Z) :=
  if aw_sqe128 o && negb ring128 then None
  else let e := prepare (aw_prep o) in Some (e_opcode e, e_flags e).

(** The awaiter as a sender; [run] is what its handlers compute, [addr] is where
    the finish handle will be. *)
Fixpoint to_sender {V} (ring128 : bool) (run : cqe_handler → cqe → V) (addr : Z) (a : awaiter) : sender V :=
  match a with
  | OpAwaiter o => OpSender (mkOp addr (prep_func ring128 o) (run (aw_handler o)) (aw_kind o))
  | FlaggedAwaiter F a => flag F (to_sender ring128 run addr a)
  end.
End prepare.

(** The operation inside the flags. *)
Fixpoint aw_op (a : awaiter) : op_awaiter :=
  match a with OpAwaiter o => o | FlaggedAwaiter _ a => aw_op a end.
