(* ===== verification/AsyncOpsProps.v ===== *)
(** * Properties of the asynchronous operations

    - [LiburingLaws]: what is documented of the preparation functions of
      liburing; [sim_liburing] keeps them.
    - [issued a w]: [a] is the awaiter of an [async_*] call whose name and arguments
      ask for [w]: functions of liburing with their arguments, a fixed descriptor, a
      kind of completion, provided buffers, a registered buffer.
    - [async_operation_queues]: the entry such a call puts into the submission
      queue is the one asked for. *)

From stdpp Require Import base numbers list gmap.
From S2P Require Import Prelude WorkType Ring Runtime OpStates OpStatesProps Buffers AsyncOps.
Import Buffer (BufferLike, buf_data, buf_size).

(** ** What is documented of liburing *)

Definition flags_after (f : prep_fn) (flags : Z) : Z :=
  match f with
  | io_uring_prep_read_multishot => IOSQE_BUFFER_SELECT
  | io_uring_prep_fixed_fd_install => IOSQE_FIXED_FILE
  | _ => flags
  end.

Definition buf_after (f : prep_fn) (args : list Z) (buf : Z) : Z :=
  match f, args with
  | io_uring_prep_read_multishot, [_; _; _; g] => u16 g
  | (io_uring_prep_read_fixed | io_uring_prep_write_fixed), [_; _; _; _; i] => u16 i
  | (io_uring_prep_readv_fixed | io_uring_prep_writev_fixed), [_; _; _; _; _; i] => u16 i
  | io_uring_prep_sendmsg_zc_fixed, [_; _; _; i] => u16 i
  | io_uring_prep_send_zc_fixed, [_; _; _; _; _; i] => u16 i
  | _, _ => buf
  end.

Definition IORING_ACCEPT_MULTISHOT : Z := 1.

Definition ioprio_after (f : prep_fn) (args : list Z) (ioprio : Z) : Z :=
  match f, args with
  | (io_uring_prep_multishot_accept | io_uring_prep_multishot_accept_direct), _ =>
      Z.lor ioprio IORING_ACCEPT_MULTISHOT
  | (io_uring_prep_recvmsg_multishot | io_uring_prep_recv_multishot), _ => Z.lor ioprio IORING_RECV_MULTISHOT
  | io_uring_prep_send_zc, [_; _; _; _; zc_flags] => zc_flags
  | io_uring_prep_send_zc_fixed, [_; _; _; _; zc_flags; _] => Z.lor zc_flags IORING_RECVSEND_FIXED_BUF
  | io_uring_prep_sendmsg_zc_fixed, _ => Z.lor ioprio IORING_RECVSEND_FIXED_BUF
  | _, _ => ioprio
  end.

Class LiburingLaws `{Liburing} := {
  prep_flags f args e : e_flags (io_uring_prep f args e) = flags_after f (e_flags e);
  prep_buf f args e : e_buf (io_uring_prep f args e) = buf_after f args (e_buf e);
  prep_ioprio f args e : e_ioprio (io_uring_prep f args e) = ioprio_after f args (e_ioprio e)
}.

Definition sim_opcode (f : prep_fn) : Z :=
  match f with io_uring_prep_nop => 0 | io_uring_prep_read => 22 | io_uring_prep_recv => 27 | _ => 1 end.

#[export] Instance sim_liburing : Liburing := {|
  io_uring_prep f args e :=
    mkEntry (sim_opcode f) (flags_after f (e_flags e)) (ioprio_after f args (e_ioprio e))
      (buf_after f args (e_buf e)) (e_rw_flags e) (e_zcrx_ifq_idx e)
|}.
#[export] Instance sim_liburing_laws : LiburingLaws.
Proof. by split. Qed.

(** Which completions the kernel posts for an operation: one; any number of which
    all but the last carry [IORING_CQE_F_MORE]; or a result and a notification.
    A command of a driver ([uring_cmd]) may post either of the first two. *)
Definition posts (ws : list write) (k : handle_kind) : bool :=
  match ws with
  | Call f args :: _ =>
      match f, args, k with
      | (io_uring_prep_recvmsg_multishot | io_uring_prep_multishot_accept | io_uring_prep_multishot_accept_direct
         | io_uring_prep_read_multishot | io_uring_prep_recv_multishot | io_uring_prep_rw_recv_zc), _, MultiShot => true
      | (io_uring_prep_recvmsg_multishot | io_uring_prep_multishot_accept | io_uring_prep_multishot_accept_direct
         | io_uring_prep_read_multishot | io_uring_prep_recv_multishot | io_uring_prep_rw_recv_zc), _, _ => false
      | (io_uring_prep_sendmsg_zc | io_uring_prep_sendmsg_zc_fixed | io_uring_prep_send_zc
         | io_uring_prep_send_zc_fixed), _, ZeroCopy => true
      | (io_uring_prep_sendmsg_zc | io_uring_prep_sendmsg_zc_fixed | io_uring_prep_send_zc
         | io_uring_prep_send_zc_fixed), _, _ => false
      | io_uring_prep_timeout, [_; _; flags], MultiShot => has_flag flags IORING_TIMEOUT_MULTISHOT
      | io_uring_prep_timeout, [_; _; flags], OneShot => negb (has_flag flags IORING_TIMEOUT_MULTISHOT)
      | (io_uring_prep_uring_cmd | io_uring_prep_uring_cmd128), _, (OneShot | MultiShot) => true
      | _, _, OneShot => true
      | _, _, _ => false
      end
  | _ => false
  end.

(** ** What the arguments of a call ask for *)

(** [want_calls]: the functions of liburing, with their arguments, that prepare the
    entry; [want_fixed]: whether the descriptor the entry works on is marked as a
    registered file; [want_buffers]: a provided-buffer queue or pool, with whether
    its bundled variant was given; [want_index]: the index of a registered buffer,
    with whether a socket operation has to be marked as using it; [want_rw]: the
    flags of a read or write; [want_zcrx]: the queue of a zero-copy receive;
    [want_128]: whether the entry has 128 bytes. *)
Record wanted := mkWanted {
  want_calls : list (prep_fn * list Z);
  want_fixed : bool;
  want_kind : handle_kind;
  want_handler : cqe_handler;
  want_buffers : option (buffer_ring * bool);
  want_index : option (Z * bool);
  want_rw : option Z;
  want_zcrx : option Z;
  want_128 : bool
}.

Definition asks (calls : list (prep_fn * list Z)) (fixed : bool) : wanted :=
  mkWanted calls fixed OneShot Simple None None None None false.
Definition plain (f : prep_fn) (args : list Z) : wanted := asks [(f, args)] false.
Definition on (fd : Fd) (f : prep_fn) (args : list Z) : wanted := asks [(f, args)] (is_fixed_fd_v fd).

Definition of_kind (k : handle_kind) (w : wanted) : wanted :=
  mkWanted (want_calls w) (want_fixed w) k (want_handler w) (want_buffers w) (want_index w) (want_rw w) (want_zcrx w)
    (want_128 w).
Definition multishot : wanted → wanted := of_kind MultiShot.
Definition zero_copy : wanted → wanted := of_kind ZeroCopy.
Definition handled_by (h : cqe_handler) (w : wanted) : wanted :=
  mkWanted (want_calls w) (want_fixed w) (want_kind w) h (want_buffers w) (want_index w) (want_rw w) (want_zcrx w)
    (want_128 w).
Definition provided (br : buffer_ring) (bundled : bool) (w : wanted) : wanted :=
  mkWanted (want_calls w) (want_fixed w) (want_kind w) (SelectBuffer br) (Some (br, bundled)) (want_index w)
    (want_rw w) (want_zcrx w) (want_128 w).
Definition registered (i : Z) (socket : bool) (w : wanted) : wanted :=
  mkWanted (want_calls w) (want_fixed w) (want_kind w) (want_handler w) (want_buffers w) (Some (i, socket))
    (want_rw w) (want_zcrx w) (want_128 w).
Definition rw_flagged (flags : Z) (w : wanted) : wanted :=
  mkWanted (want_calls w) (want_fixed w) (want_kind w) (want_handler w) (want_buffers w) (want_index w) (Some flags)
    (want_zcrx w) (want_128 w).
Definition zero_copy_rx (pool : nat) (zcrx_id : Z) (w : wanted) : wanted :=
  mkWanted (want_calls w) (want_fixed w) (want_kind w) (SelectZcrx pool) (want_buffers w) (want_index w) (want_rw w)
    (Some zcrx_id) (want_128 w).
Definition with_sqe128 (w : wanted) : wanted :=
  mkWanted (want_calls w) (want_fixed w) (want_kind w) (want_handler w) (want_buffers w) (want_index w) (want_rw w)
    (want_zcrx w) true.

(** The operations and what each asks for: the function of liburing its comment
    refers to, with its arguments in that function's order (a fixed descriptor by
    its slot), and what the types of the arguments add.  A slot that is closed, that
    a cancellation looks for or that a splice reads from is not marked by the flag of
    the entry but by the function or by its flags. *)
Inductive issued : awaiter → wanted → Prop :=
  | issued_splice (fd_in : Fd) (off_in : Z) (fd_out : Fd) (off_out nbytes splice_flags : Z) :
      issued (async_splice fd_in off_in fd_out off_out nbytes splice_flags)
        (on fd_out io_uring_prep_splice [unwrap_fixed fd_in; off_in; unwrap_fixed fd_out; off_out; nbytes;
           if is_fixed_fd_v fd_in then Z.lor splice_flags SPLICE_F_FD_IN_FIXED else splice_flags])
  | issued_tee (fd_in fd_out : Fd) (nbytes splice_flags : Z) :
      issued (async_tee fd_in fd_out nbytes splice_flags)
        (on fd_out io_uring_prep_tee [unwrap_fixed fd_in; unwrap_fixed fd_out; nbytes;
           if is_fixed_fd_v fd_in then Z.lor splice_flags SPLICE_F_FD_IN_FIXED else splice_flags])
  | issued_readv (fd : Fd) (iovecs nr_vecs offset flags : Z) :
      issued (async_readv fd iovecs nr_vecs offset flags)
        (on fd io_uring_prep_readv2 [unwrap_fixed fd; iovecs; nr_vecs; offset; flags])
  | issued_readv_fixed (fd : Fd) (iovecs : FixedBuffer Z) (nr_vecs offset flags : Z) :
      issued (async_readv_fixed fd iovecs nr_vecs offset flags)
        (registered (buf_index iovecs) false (on fd io_uring_prep_readv_fixed [unwrap_fixed fd; fb_value iovecs;
           nr_vecs; offset; flags; buf_index iovecs]))
  | issued_writev (fd : Fd) (iovecs nr_vecs offset flags : Z) :
      issued (async_writev fd iovecs nr_vecs offset flags)
        (on fd io_uring_prep_writev2 [unwrap_fixed fd; iovecs; nr_vecs; offset; flags])
  | issued_writev_fixed (fd : Fd) (iovecs : FixedBuffer Z) (nr_vecs offset flags : Z) :
      issued (async_writev_fixed fd iovecs nr_vecs offset flags)
        (registered (buf_index iovecs) false (on fd io_uring_prep_writev_fixed [unwrap_fixed fd; fb_value iovecs;
           nr_vecs; offset; flags; buf_index iovecs]))
  | issued_recvmsg (fd : Fd) (msg flags : Z) :
      issued (async_recvmsg fd msg flags) (on fd io_uring_prep_recvmsg [unwrap_fixed fd; msg; flags])
  | issued_recvmsg_multishot (fd : Fd) (msg flags : Z) (buf : buffer_ring) :
      issued (async_recvmsg_multishot fd msg flags buf)
        (multishot (provided buf false (on fd io_uring_prep_recvmsg_multishot [unwrap_fixed fd; msg; flags])))
  | issued_sendmsg (fd : Fd) (msg flags : Z) :
      issued (async_sendmsg fd msg flags) (on fd io_uring_prep_sendmsg [unwrap_fixed fd; msg; flags])
  | issued_sendmsg_zc (fd : Fd) (msg flags : Z) :
      issued (async_sendmsg_zc fd msg flags)
        (zero_copy (on fd io_uring_prep_sendmsg_zc [unwrap_fixed fd; msg; flags]))
  | issued_sendmsg_zc_fixed (fd : Fd) (msg : FixedBuffer Z) (flags : Z) :
      issued (async_sendmsg_zc_fixed fd msg flags)
        (zero_copy (registered (buf_index msg) true (on fd io_uring_prep_sendmsg_zc_fixed [unwrap_fixed fd;
           fb_value msg; flags; buf_index msg])))
  | issued_fsync (fd : Fd) (fsync_flags : Z) :
      issued (async_fsync fd fsync_flags) (on fd io_uring_prep_fsync [unwrap_fixed fd; fsync_flags])
  | issued_nop : issued async_nop (plain io_uring_prep_nop [])
  | issued_nop128 : issued async_nop128 (with_sqe128 (plain io_uring_prep_nop128 []))
  | issued_timeout (ts count flags : Z) :
      has_flag flags IORING_TIMEOUT_MULTISHOT = false → issued (async_timeout ts count flags)
        (plain io_uring_prep_timeout [ts; count; flags])
  | issued_timeout_multishot (ts count flags : Z) :
      issued (async_timeout_multishot ts count flags)
        (multishot (plain io_uring_prep_timeout [ts; count; Z.lor flags IORING_TIMEOUT_MULTISHOT]))
  | issued_accept (fd : Fd) (addr addrlen flags : Z) :
      issued (async_accept fd addr addrlen flags)
        (on fd io_uring_prep_accept [unwrap_fixed fd; addr; addrlen; flags])
  | issued_accept_direct (fd : Fd) (addr addrlen flags file_index : Z) :
      issued (async_accept_direct fd addr addrlen flags file_index)
        (on fd io_uring_prep_accept_direct [unwrap_fixed fd; addr; addrlen; flags; file_index])
  | issued_multishot_accept (fd : Fd) (addr addrlen flags : Z) :
      issued (async_multishot_accept fd addr addrlen flags)
        (multishot (on fd io_uring_prep_multishot_accept [unwrap_fixed fd; addr; addrlen; flags]))
  | issued_multishot_accept_direct (fd : Fd) (addr addrlen flags : Z) :
      issued (async_multishot_accept_direct fd addr addrlen flags)
        (multishot (on fd io_uring_prep_multishot_accept_direct [unwrap_fixed fd; addr; addrlen; flags]))
  | issued_cancel_fd (fd : Fd) (flags : Z) :
      issued (async_cancel_fd fd flags)
        (plain io_uring_prep_cancel_fd [unwrap_fixed fd;
           if is_fixed_fd_v fd then Z.lor flags IORING_ASYNC_CANCEL_FD_FIXED else flags])
  | issued_link_timeout (ts flags : Z) :
      issued (async_link_timeout ts flags) (plain io_uring_prep_link_timeout [ts; flags])
  | issued_connect (fd : Fd) (addr addrlen : Z) :
      issued (async_connect fd addr addrlen) (on fd io_uring_prep_connect [unwrap_fixed fd; addr; addrlen])
  | issued_files_update (fds nr_fds offset : Z) :
      issued (async_files_update fds nr_fds offset) (plain io_uring_prep_files_update [fds; nr_fds; offset])
  | issued_fallocate (fd : Fd) (mode offset len : Z) :
      issued (async_fallocate fd mode offset len)
        (on fd io_uring_prep_fallocate [unwrap_fixed fd; mode; offset; len])
  | issued_openat (dfd path flags mode : Z) :
      issued (async_openat dfd path flags mode) (plain io_uring_prep_openat [dfd; path; flags; mode])
  | issued_openat_direct (dfd path flags mode file_index : Z) :
      issued (async_openat_direct dfd path flags mode file_index)
        (plain io_uring_prep_openat_direct [dfd; path; flags; mode; file_index])
  | issued_open (path flags mode : Z) :
      issued (async_open path flags mode) (plain io_uring_prep_openat [AT_FDCWD; path; flags; mode])
  | issued_open_direct (path flags mode file_index : Z) :
      issued (async_open_direct path flags mode file_index)
        (plain io_uring_prep_openat_direct [AT_FDCWD; path; flags; mode; file_index])
  | issued_close (fd : Z) : issued (async_close fd) (plain io_uring_prep_close [fd])
  | issued_close_fixed (value : Z) : issued (async_close_fixed value) (plain io_uring_prep_close_direct [value])
  | issued_read `{BufferLike T} (fd : Fd) (buf : T) (offset flags : Z) :
      issued (async_read fd buf offset flags)
        (rw_flagged flags (on fd io_uring_prep_read [unwrap_fixed fd; buf_data buf; u32 (buf_size buf); offset]))
  | issued_read_fixed `{BufferLike T} (fd : Fd) (buf : FixedBuffer T) (offset flags : Z) :
      issued (async_read_fixed fd buf offset flags)
        (rw_flagged flags (registered (buf_index buf) false (on fd io_uring_prep_read_fixed [unwrap_fixed fd;
           buf_data (fb_value buf); u32 (buf_size (fb_value buf)); offset; buf_index buf])))
  | issued_read_provided (fd : Fd) (buf : buffer_ring) (offset : Z) :
      issued (async_read_provided fd buf offset)
        (provided buf false (on fd io_uring_prep_read [unwrap_fixed fd; 0; 0; offset]))
  | issued_read_multishot (fd : Fd) (buf : buffer_ring) (offset : Z) :
      issued (async_read_multishot fd buf offset)
        (multishot (provided buf false (on fd io_uring_prep_read_multishot [unwrap_fixed fd; 0; offset;
           bgid buf])))
  | issued_write `{BufferLike T} (fd : Fd) (buf : T) (offset flags : Z) :
      issued (async_write fd buf offset flags)
        (rw_flagged flags (on fd io_uring_prep_write [unwrap_fixed fd; buf_data buf; u32 (buf_size buf); offset]))
  | issued_write_fixed `{BufferLike T} (fd : Fd) (buf : FixedBuffer T) (offset flags : Z) :
      issued (async_write_fixed fd buf offset flags)
        (rw_flagged flags (registered (buf_index buf) false (on fd io_uring_prep_write_fixed [unwrap_fixed fd;
           buf_data (fb_value buf); u32 (buf_size (fb_value buf)); offset; buf_index buf])))
  | issued_statx (dfd path flags mask statxbuf : Z) :
      issued (async_statx dfd path flags mask statxbuf)
        (plain io_uring_prep_statx [dfd; path; flags; mask; statxbuf])
  | issued_fadvise (fd : Fd) (offset len advice : Z) :
      issued (async_fadvise fd offset len advice)
        (on fd io_uring_prep_fadvise [unwrap_fixed fd; offset; len; advice])
  | issued_fadvise64 (fd : Fd) (offset len advice : Z) :
      issued (async_fadvise64 fd offset len advice)
        (on fd io_uring_prep_fadvise64 [unwrap_fixed fd; offset; len; advice])
  | issued_madvise (addr length advice : Z) :
      issued (async_madvise addr length advice) (plain io_uring_prep_madvise [addr; length; advice])
  | issued_madvise64 (addr length advice : Z) :
      issued (async_madvise64 addr length advice) (plain io_uring_prep_madvise64 [addr; length; advice])
  | issued_send `{BufferLike T} (sockfd : Fd) (buf : T) (flags : Z) :
      issued (async_send sockfd buf flags)
        (on sockfd io_uring_prep_send [unwrap_fixed sockfd; buf_data buf; buf_size buf; flags])
  | issued_send_fixed `{BufferLike T} (sockfd : Fd) (buf : FixedBuffer T) (flags : Z) :
      issued (async_send_fixed sockfd buf flags)
        (registered (buf_index buf) true (on sockfd io_uring_prep_send [unwrap_fixed sockfd; buf_data
           (fb_value buf); buf_size (fb_value buf); flags]))
  | issued_send_provided (sockfd : Fd) (buf : buffer_ring) (flags : Z) :
      issued (async_send_provided sockfd buf flags)
        (provided buf false (on sockfd io_uring_prep_send [unwrap_fixed sockfd; 0; 0; flags]))
  | issued_send_bundled (sockfd : Fd) (buf : buffer_ring) (flags : Z) :
      issued (async_send_bundled sockfd buf flags)
        (provided buf true (on sockfd io_uring_prep_send [unwrap_fixed sockfd; 0; 0; flags]))
  | issued_sendto `{BufferLike T} (sockfd : Fd) (buf : T) (flags addr addrlen : Z) :
      issued (async_sendto sockfd buf flags addr addrlen)
        (asks [(io_uring_prep_send, [unwrap_fixed sockfd; buf_data buf; buf_size buf; flags]);
           (io_uring_prep_send_set_addr, [addr; addrlen])] (is_fixed_fd_v sockfd))
  | issued_sendto_fixed `{BufferLike T} (sockfd : Fd) (buf : FixedBuffer T) (flags addr addrlen : Z) :
      issued (async_sendto_fixed sockfd buf flags addr addrlen)
        (registered (buf_index buf) true (asks [(io_uring_prep_send, [unwrap_fixed sockfd; buf_data
           (fb_value buf); buf_size (fb_value buf); flags]); (io_uring_prep_send_set_addr, [addr; addrlen])]
              (is_fixed_fd_v sockfd)))
  | issued_sendto_provided (sockfd : Fd) (buf : buffer_ring) (flags addr addrlen : Z) :
      issued (async_sendto_provided sockfd buf flags addr addrlen)
        (provided buf false (asks [(io_uring_prep_send, [unwrap_fixed sockfd; 0; 0; flags]);
           (io_uring_prep_send_set_addr, [addr; addrlen])] (is_fixed_fd_v sockfd)))
  | issued_sendto_bundled (sockfd : Fd) (buf : buffer_ring) (flags addr addrlen : Z) :
      issued (async_sendto_bundled sockfd buf flags addr addrlen)
        (provided buf true (asks [(io_uring_prep_send, [unwrap_fixed sockfd; 0; 0; flags]);
           (io_uring_prep_send_set_addr, [addr; addrlen])] (is_fixed_fd_v sockfd)))
  | issued_send_zc `{BufferLike T} (sockfd : Fd) (buf : T) (flags zc_flags : Z) :
      issued (async_send_zc sockfd buf flags zc_flags)
        (zero_copy (on sockfd io_uring_prep_send_zc [unwrap_fixed sockfd; buf_data buf; buf_size buf; flags;
           zc_flags]))
  | issued_send_zc_fixed `{BufferLike T} (sockfd : Fd) (buf : FixedBuffer T) (flags zc_flags : Z) :
      issued (async_send_zc_fixed sockfd buf flags zc_flags)
        (zero_copy (registered (buf_index buf) true (on sockfd io_uring_prep_send_zc_fixed [unwrap_fixed sockfd;
           buf_data (fb_value buf); buf_size (fb_value buf); flags; zc_flags; buf_index buf])))
  | issued_sendto_zc `{BufferLike T} (sockfd : Fd) (buf : T) (flags addr addrlen zc_flags : Z) :
      issued (async_sendto_zc sockfd buf flags addr addrlen zc_flags)
        (zero_copy (asks [(io_uring_prep_send_zc, [unwrap_fixed sockfd; buf_data buf; buf_size buf; flags;
           zc_flags]); (io_uring_prep_send_set_addr, [addr; addrlen])] (is_fixed_fd_v sockfd)))
  | issued_sendto_zc_fixed `{BufferLike T} (sockfd : Fd) (buf : FixedBuffer T) (flags addr addrlen zc_flags : Z) :
      issued (async_sendto_zc_fixed sockfd buf flags addr addrlen zc_flags)
        (zero_copy (registered (buf_index buf) true (asks [(io_uring_prep_send_zc, [unwrap_fixed sockfd;
           buf_data (fb_value buf); buf_size (fb_value buf); flags; zc_flags]); (io_uring_prep_send_set_addr,
              [addr; addrlen])] (is_fixed_fd_v sockfd))))
  | issued_recv `{BufferLike T} (sockfd : Fd) (buf : T) (flags : Z) :
      issued (async_recv sockfd buf flags)
        (on sockfd io_uring_prep_recv [unwrap_fixed sockfd; buf_data buf; buf_size buf; flags])
  | issued_recv_fixed `{BufferLike T} (sockfd : Fd) (buf : FixedBuffer T) (flags : Z) :
      issued (async_recv_fixed sockfd buf flags)
        (registered (buf_index buf) true (on sockfd io_uring_prep_recv [unwrap_fixed sockfd; buf_data
           (fb_value buf); buf_size (fb_value buf); flags]))
  | issued_recv_provided (sockfd : Fd) (buf : buffer_ring) (flags : Z) :
      issued (async_recv_provided sockfd buf flags)
        (provided buf false (on sockfd io_uring_prep_recv [unwrap_fixed sockfd; 0; 0; flags]))
  | issued_recv_bundled (sockfd : Fd) (buf : buffer_ring) (flags : Z) :
      issued (async_recv_bundled sockfd buf flags)
        (provided buf true (on sockfd io_uring_prep_recv [unwrap_fixed sockfd; 0; 0; flags]))
  | issued_recv_multishot (sockfd : Fd) (buf : buffer_ring) (flags : Z) :
      issued (async_recv_multishot sockfd buf flags)
        (multishot (provided buf false (on sockfd io_uring_prep_recv_multishot [unwrap_fixed sockfd; 0; 0;
           flags])))
  | issued_recv_multishot_bundled (sockfd : Fd) (buf : buffer_ring) (flags : Z) :
      issued (async_recv_multishot_bundled sockfd buf flags)
        (multishot (provided buf true (on sockfd io_uring_prep_recv_multishot [unwrap_fixed sockfd; 0; 0;
           flags])))
  | issued_recv_multishot_zcrx (sockfd : Z) (pool : nat) (zcrx_id : Z) :
      issued (async_recv_multishot_zcrx sockfd pool zcrx_id)
        (multishot (zero_copy_rx pool zcrx_id (plain io_uring_prep_rw_recv_zc [sockfd; 0; 0; 0])))
  | issued_openat2 (dfd path how : Z) :
      issued (async_openat2 dfd path how) (plain io_uring_prep_openat2 [dfd; path; how])
  | issued_openat2_direct (dfd path how file_index : Z) :
      issued (async_openat2_direct dfd path how file_index)
        (plain io_uring_prep_openat2_direct [dfd; path; how; file_index])
  | issued_shutdown (fd : Fd) (how : Z) :
      issued (async_shutdown fd how) (on fd io_uring_prep_shutdown [unwrap_fixed fd; how])
  | issued_unlinkat (dfd path flags : Z) :
      issued (async_unlinkat dfd path flags) (plain io_uring_prep_unlinkat [dfd; path; flags])
  | issued_unlink (path flags : Z) :
      issued (async_unlink path flags) (plain io_uring_prep_unlinkat [AT_FDCWD; path; flags])
  | issued_renameat (olddfd oldpath newdfd newpath flags : Z) :
      issued (async_renameat olddfd oldpath newdfd newpath flags)
        (plain io_uring_prep_renameat [olddfd; oldpath; newdfd; newpath; flags])
  | issued_rename (oldpath newpath : Z) :
      issued (async_rename oldpath newpath)
        (plain io_uring_prep_renameat [AT_FDCWD; oldpath; AT_FDCWD; newpath; 0])
  | issued_sync_file_range (fd : Fd) (len offset flags : Z) :
      issued (async_sync_file_range fd len offset flags)
        (on fd io_uring_prep_sync_file_range [unwrap_fixed fd; len; offset; flags])
  | issued_mkdirat (dfd path mode : Z) :
      issued (async_mkdirat dfd path mode) (plain io_uring_prep_mkdirat [dfd; path; mode])
  | issued_mkdir (path mode : Z) :
      issued (async_mkdir path mode) (plain io_uring_prep_mkdirat [AT_FDCWD; path; mode])
  | issued_symlinkat (target newdirfd linkpath : Z) :
      issued (async_symlinkat target newdirfd linkpath)
        (plain io_uring_prep_symlinkat [target; newdirfd; linkpath])
  | issued_symlink (target linkpath : Z) :
      issued (async_symlink target linkpath) (plain io_uring_prep_symlinkat [target; AT_FDCWD; linkpath])
  | issued_linkat (olddfd oldpath newdfd newpath flags : Z) :
      issued (async_linkat olddfd oldpath newdfd newpath flags)
        (plain io_uring_prep_linkat [olddfd; oldpath; newdfd; newpath; flags])
  | issued_link (oldpath newpath flags : Z) :
      issued (async_link oldpath newpath flags)
        (plain io_uring_prep_linkat [AT_FDCWD; oldpath; AT_FDCWD; newpath; flags])
  | issued_getxattr (name value path len : Z) :
      issued (async_getxattr name value path len) (plain io_uring_prep_getxattr [name; value; path; len])
  | issued_setxattr (name value path flags len : Z) :
      issued (async_setxattr name value path flags len)
        (plain io_uring_prep_setxattr [name; value; path; flags; len])
  | issued_fgetxattr (fd name value len : Z) :
      issued (async_fgetxattr fd name value len) (plain io_uring_prep_fgetxattr [fd; name; value; len])
  | issued_fsetxattr (fd name value flags len : Z) :
      issued (async_fsetxattr fd name value flags len)
        (plain io_uring_prep_fsetxattr [fd; name; value; flags; len])
  | issued_socket (domain type protocol flags : Z) :
      issued (async_socket domain type protocol flags)
        (plain io_uring_prep_socket [domain; type; protocol; flags])
  | issued_socket_direct (domain type protocol file_index flags : Z) :
      issued (async_socket_direct domain type protocol file_index flags)
        (plain io_uring_prep_socket_direct [domain; type; protocol; file_index; flags])
  | issued_uring_cmd (cmd_op : Z) (fd : Fd) (cmd_func : entry → entry) (handler : cqe_handler) :
      (∀ e, e_flags (cmd_func e) = e_flags e) → issued (async_uring_cmd cmd_op fd cmd_func handler)
        (handled_by handler (on fd io_uring_prep_uring_cmd [cmd_op; unwrap_fixed fd]))
  | issued_uring_cmd_multishot (cmd_op : Z) (fd : Fd) (cmd_func : entry → entry) (handler : cqe_handler) :
      (∀ e, e_flags (cmd_func e) = e_flags e) → issued (async_uring_cmd_multishot cmd_op fd cmd_func handler)
        (handled_by handler (multishot (on fd io_uring_prep_uring_cmd [cmd_op; unwrap_fixed fd])))
  | issued_uring_cmd128 (cmd_op : Z) (fd : Fd) (cmd_func : entry → entry) (handler : cqe_handler) :
      (∀ e, e_flags (cmd_func e) = e_flags e) → issued (async_uring_cmd128 cmd_op fd cmd_func handler)
        (with_sqe128 (handled_by handler (on fd io_uring_prep_uring_cmd128 [cmd_op; unwrap_fixed fd])))
  | issued_cmd_sock (cmd_op : Z) (fd : Fd) (level optname optval optlen : Z) :
      issued (async_cmd_sock cmd_op fd level optname optval optlen)
        (on fd io_uring_prep_cmd_sock [cmd_op; unwrap_fixed fd; level; optname; optval; optlen])
  | issued_cmd_getsockname (fd : Fd) (sockaddr sockaddr_len peer : Z) :
      issued (async_cmd_getsockname fd sockaddr sockaddr_len peer)
        (on fd io_uring_prep_cmd_getsockname [unwrap_fixed fd; sockaddr; sockaddr_len; peer])
  | issued_waitid (idtype id infop options flags : Z) :
      issued (async_waitid idtype id infop options flags)
        (plain io_uring_prep_waitid [idtype; id; infop; options; flags])
  | issued_futex_wake (futex val mask futex_flags flags : Z) :
      issued (async_futex_wake futex val mask futex_flags flags)
        (plain io_uring_prep_futex_wake [futex; val; mask; futex_flags; flags])
  | issued_futex_wait (futex val mask futex_flags flags : Z) :
      issued (async_futex_wait futex val mask futex_flags flags)
        (plain io_uring_prep_futex_wait [futex; val; mask; futex_flags; flags])
  | issued_futex_waitv (futex nr_futex flags : Z) :
      issued (async_futex_waitv futex nr_futex flags) (plain io_uring_prep_futex_waitv [futex; nr_futex; flags])
  | issued_fixed_fd_install (fixed_fd flags : Z) :
      issued (async_fixed_fd_install fixed_fd flags)
        (asks [(io_uring_prep_fixed_fd_install, [fixed_fd; flags])] true)
  | issued_ftruncate (fd : Fd) (len : Z) :
      issued (async_ftruncate fd len) (on fd io_uring_prep_ftruncate [unwrap_fixed fd; len])
  | issued_cmd_discard (fd : Fd) (offset nbytes : Z) :
      issued (async_cmd_discard fd offset nbytes)
        (on fd io_uring_prep_cmd_discard [unwrap_fixed fd; offset; nbytes])
  | issued_bind (fd : Fd) (addr addrlen : Z) :
      issued (async_bind fd addr addrlen) (on fd io_uring_prep_bind [unwrap_fixed fd; addr; addrlen])
  | issued_listen (fd : Fd) (backlog : Z) :
      issued (async_listen fd backlog) (on fd io_uring_prep_listen [unwrap_fixed fd; backlog])
  | issued_epoll_ctl (epfd fd op ev : Z) :
      issued (async_epoll_ctl epfd fd op ev) (plain io_uring_prep_epoll_ctl [epfd; fd; op; ev])
  | issued_epoll_wait (fd events maxevents flags : Z) :
      issued (async_epoll_wait fd events maxevents flags)
        (plain io_uring_prep_epoll_wait [fd; events; maxevents; flags])
  | issued_pipe (fds pipe_flags : Z) :
      issued (async_pipe fds pipe_flags) (plain io_uring_prep_pipe [fds; pipe_flags])
  | issued_pipe_direct (fds pipe_flags file_index : Z) :
      issued (async_pipe_direct fds pipe_flags file_index)
        (plain io_uring_prep_pipe_direct [fds; pipe_flags; file_index]).

(** ** The entry of an operation *)

(** The flags the wrappers of an awaiter add. *)
Fixpoint aw_flags (a : awaiter) : Z :=
  match a with OpAwaiter _ => 0 | FlaggedAwaiter F a => Z.lor F (aw_flags a) end.
Fixpoint aw_depth (a : awaiter) : nat :=
  match a with OpAwaiter _ => 1 | FlaggedAwaiter _ a => S (aw_depth a) end.

Section entries.
Context `{LiburingLaws}.

(** The calls of liburing among the writes of a preparation, in order. *)
Definition calls_of (ws : list write) : list (prep_fn * list Z) :=
  omap (λ w, match w with Call f args => Some (f, args) | _ => None end) ws.

(** The entry does what the arguments ask for. *)
Record entry_ok (a : awaiter) (w : wanted) : Prop := {
  ok_calls : calls_of (aw_prep (aw_op a)) = want_calls w;
  ok_fixed : has_flag (Z.lor (e_flags (prepare (aw_prep (aw_op a)))) (aw_flags a)) IOSQE_FIXED_FILE = want_fixed w;
  ok_select : has_flag (Z.lor (e_flags (prepare (aw_prep (aw_op a)))) (aw_flags a)) IOSQE_BUFFER_SELECT
              = bool_decide (is_Some (want_buffers w));
  ok_kind : aw_kind (aw_op a) = want_kind w;
  ok_handler : aw_handler (aw_op a) = want_handler w;
  ok_posts : posts (aw_prep (aw_op a)) (aw_kind (aw_op a)) = true;
  ok_buffers br bundled : want_buffers w = Some (br, bundled) →
    e_buf (prepare (aw_prep (aw_op a))) = u16 (bgid br) ∧
    has_flag (e_ioprio (prepare (aw_prep (aw_op a)))) IORING_RECVSEND_BUNDLE = bundled;
  ok_index i socket : want_index w = Some (i, socket) →
    e_buf (prepare (aw_prep (aw_op a))) = u16 i ∧
    (socket = true → has_flag (e_ioprio (prepare (aw_prep (aw_op a)))) IORING_RECVSEND_FIXED_BUF = true);
  ok_rw flags : want_rw w = Some flags → e_rw_flags (prepare (aw_prep (aw_op a))) = flags;
  ok_zcrx id : want_zcrx w = Some id → e_zcrx_ifq_idx (prepare (aw_prep (aw_op a))) = id;
  ok_sqe : aw_sqe128 (aw_op a) = want_128 w
}.

Lemma has_flag_lor flags F : F ≠ 0 → has_flag (Z.lor flags F) F = true.
Proof.
  intros HF. unfold has_flag. apply negb_true_iff, Z.eqb_neq.
  assert (Z.land (Z.lor flags F) F = F) as ->; [| done].
  apply Z.bits_inj'. intros n _. rewrite Z.land_spec, Z.lor_spec. by destruct (Z.testbit flags n), (Z.testbit F n).
Qed.

(** Compute the entry of a call and compare it with what is wanted. *)
Ltac entry_step :=
  cbn; repeat match goal with
  | Hf : ∀ e, e_flags (_ e) = e_flags e |- _ => progress rewrite Hf
  | Hm : has_flag _ _ = false |- _ => progress rewrite Hm
  | _ => progress rewrite ?prep_flags, ?prep_buf, ?prep_ioprio, ?has_flag_lor by done; cbn
  end; try (intros; simplify_eq); repeat split; try discriminate.

Lemma issued_ok a w : issued a w → entry_ok a w.
Proof. destruct 1; repeat match goal with fd : Fd |- _ => destruct fd end; (split; entry_step). Qed.
End entries.

(** ** Starting an operation *)

Section starting.
Context {U V : Type} `{UringLaws U} `{LiburingLaws}.
Implicit Types (env : OEnv U V) (run : cqe_handler → cqe → V).

(** The operation inside the flags, as a leaf of the operation states. *)
Definition leaf_op (ring128 : bool) run (addr : Z) (a : awaiter) : op V :=
  mkOp addr (prep_func ring128 (aw_op a)) (run (aw_handler (aw_op a))) (aw_kind (aw_op a)).

Fixpoint wrap_leaf (a : awaiter) (t : opstate V) : opstate V :=
  match a with OpAwaiter _ => t | FlaggedAwaiter F a => FlaggedOpState F (wrap_leaf a t) end.

(** Starting an awaiter starts its operation with the flags of its wrappers. *)
Lemma start_awaiter ring128 run addr fuel this tok a : ∀ flags env,
  start (aw_depth a) this fuel tok flags (connect tok (to_sender ring128 run addr a)) env
  = ('(st, r) ← leaf_start this tok (Z.lor flags (aw_flags a)) (leaf_op ring128 run addr a);
     mret (wrap_leaf a (OpState (leaf_op ring128 run addr a) st), r)) env.
Proof.
  induction a as [o | F a IH]; intros flags env; cbn [to_sender aw_depth connect start flag].
  - cbn [aw_flags wrap_leaf]. by rewrite Z.lor_0_r.
  - unfold mbind, st_bind at 1. rewrite IH. cbn [aw_flags wrap_leaf]. rewrite Z.lor_assoc.
    unfold mbind, st_bind. change (leaf_op ring128 run addr (FlaggedAwaiter F a)) with (leaf_op ring128 run addr a).
    by destruct (leaf_start _ _ _ _ env) as [[st r] | |].
Qed.

(** C7. Every asynchronous operation queues the entry its arguments ask for, by the table
    [issued] of all operations.  In a running runtime with room in the submission
    queue and below the threshold of submission (with 128-byte entries where needed),
    awaiting it takes one entry, prepared by its functions of liburing with its
    arguments in their places and carrying the address of its finish handle.  It is
    marked for a registered file exactly for a fixed descriptor (closing, cancelling
    by descriptor and the source of a splice name the slot in the call); it selects a
    buffer exactly when a queue or pool was given, names its group, is a bundle
    exactly in the bundled variant, and the handler takes the buffer from there; it
    names the index of a registered buffer, marked in socket operations, and the
    flags of a read or write; its finish handle is of the kind whose completions the
    kernel posts for it. *)
Theorem async_operation_queues ring128 run addr a w this fuel tok env r :
  issued a w → (want_128 w = true → ring128 = true) → aligned addr → tok ≠ Some true →
  runtimes (world env) !! this = Some r →
  0 < uring_sq_space_left (ring_ (rt_ring_ r)) → 0 ≤ maybe_submit_count_ (rt_ring_ r) →
  maybe_submit_count_ (rt_ring_ r) + 1 < Z.min (submit_batch_ (rt_ring_ r)) (2 ^ 64) →
  let o := aw_op a in
  let e := prepare (aw_prep o) in
  ∃ t env' r' slot u1 flags,
    start (aw_depth a) (Some this) fuel tok 0 (connect tok (to_sender ring128 run addr a)) env = Done (t, None) env' ∧
    runtimes (world env') !! this = Some r' ∧
    uring_get_sqe (ring_ (rt_ring_ r)) = Some (slot, u1) ∧
    ring_ (rt_ring_ r') = uring_prep slot (mkSqe (SqeOther (e_opcode e) flags) addr) u1 ∧
    calls_of (aw_prep o) = want_calls w ∧
    has_flag flags IOSQE_FIXED_FILE = want_fixed w ∧
    has_flag flags IOSQE_BUFFER_SELECT = bool_decide (is_Some (want_buffers w)) ∧
    (∀ br bundled, want_buffers w = Some (br, bundled) →
       e_buf e = u16 (bgid br) ∧ has_flag (e_ioprio e) IORING_RECVSEND_BUNDLE = bundled) ∧
    (∀ i socket, want_index w = Some (i, socket) →
       e_buf e = u16 i ∧ (socket = true → has_flag (e_ioprio e) IORING_RECVSEND_FIXED_BUF = true)) ∧
    (∀ rw, want_rw w = Some rw → e_rw_flags e = rw) ∧
    (∀ id, want_zcrx w = Some id → e_zcrx_ifq_idx e = id) ∧
    aw_handler o = want_handler w ∧ aw_kind o = want_kind w ∧ posts (aw_prep o) (aw_kind o) = true.
Proof.
  intros Hi H128 Ha Ht Er Hsp Hc Hb o e.
  destruct (issued_ok a w Hi) as [Hcalls Hfix Hsel Hk Hh Hp Hbuf Hidx Hrw Hzc Hsqe].
  assert (prep_func ring128 (aw_op a) = Some (e_opcode e, e_flags e)) as Epf.
  { unfold prep_func. rewrite Hsqe. destruct (want_128 w); [| done]. by rewrite H128. }
  destruct (leaf_start_queued this tok (aw_flags a) (leaf_op ring128 run addr a) env r 1)
    as (st & r' & slot & u1 & E & Eg & Er' & _); try done; try lia.
  { unfold space. lia. }
  exists (wrap_leaf a (OpState (leaf_op ring128 run addr a) st)), (mkOEnv (with_rt (world env) this r') (calls env)),
    r', slot, u1, (Z.lor (e_flags e) (aw_flags a)).
  split_and!; try done.
  - rewrite start_awaiter, Z.lor_0_l. by erewrite bind_done by exact E.
  - apply with_rt_lookup.
  - rewrite Er'. unfold prepared_sqe, op_sqe. cbn [prep_func_ handle_addr leaf_op]. by rewrite Epf.
Qed.

(** An operation with a 128-byte entry on a ring that has none completes at once with
    [-EINVAL] and queues nothing; on a ring with such entries its preparation
    succeeds. *)
Theorem sqe128_needs_ring run addr a setup128 mixed this tok env fuel :
  a = async_nop128 ∨ (∃ cmd_op fd g h, a = async_uring_cmd128 cmd_op fd g h) → tok ≠ Some true →
  let ring128 := supports_sqe128 setup128 mixed in
  if ring128 then is_Some (prep_func ring128 (aw_op a))
  else ∃ t, start (aw_depth a) (Some this) fuel tok 0 (connect tok (to_sender ring128 run addr a)) env
            = Done (t, Some (Leaf (run (aw_handler (aw_op a)) (mkCqe 0 (- EINVAL) 0)))) env.
Proof.
  intros Ha Ht ring128. assert (aw_sqe128 (aw_op a) = true ∧ aw_kind (aw_op a) = OneShot) as [E1 E2].
  { destruct Ha as [-> | (cmd_op & fd & g & h & ->)]; [done |]. by destruct fd. }
  destruct ring128 eqn:Er.
  - unfold prep_func. rewrite andb_false_r. eauto.
  - eexists. rewrite start_awaiter. unfold leaf_start. rewrite bool_decide_eq_false_2 by done.
    cbn [prep_func_ leaf_op]. unfold prep_func. rewrite E1. cbn [andb negb].
    unfold fail_, leaf_handle. cbn [handle_kind_ leaf_op]. rewrite E2. reflexivity.
Qed.
End starting.

(** ** Lengths *)

(** The number of bytes a prepared read or write asks for. *)
Definition rw_request (a : awaiter) : option (Z * Z) :=
  match aw_prep (aw_op a) with
  | Call (io_uring_prep_read | io_uring_prep_write) [_; buf; n; _] :: _ => Some (buf, n)
  | Call (io_uring_prep_read_fixed | io_uring_prep_write_fixed) [_; buf; n; _; _] :: _ => Some (buf, n)
  | _ => None
  end.

Lemma u32_le n : 0 ≤ n → 0 ≤ u32 n ≤ n.
Proof. intros. split; [apply wrap_range; lia | apply Z.mod_le; lia]. Qed.

(** C35. A read or write never runs past its buffer: with a plain or a registered buffer,
    it asks for the buffer's address and at most its size, and for all of it when
    that is below 4 GiB.  A buffer of exactly 4 GiB makes a request of 0 bytes. *)
Theorem read_write_within_buffer `{BufferLike T} fd (buf : T) i offset flags :
  0 ≤ buf_size buf →
  let reqs := rw_request <$> [async_read fd buf offset flags; async_write fd buf offset flags;
                              async_read_fixed fd (fixed_buffer i buf) offset flags;
                              async_write_fixed fd (fixed_buffer i buf) offset flags] in
  Forall (λ q, ∃ n, q = Some (buf_data buf, n) ∧ 0 ≤ n ≤ buf_size buf ∧ (buf_size buf < 2 ^ 32 → n = buf_size buf) ∧
                    (buf_size buf = 2 ^ 32 → n = 0)) reqs.
Proof.
  intros Hs reqs. assert (∀ q, q = Some (buf_data buf, u32 (buf_size buf)) → ∃ n, q = Some (buf_data buf, n) ∧
    0 ≤ n ≤ buf_size buf ∧ (buf_size buf < 2 ^ 32 → n = buf_size buf) ∧ (buf_size buf = 2 ^ 32 → n = 0)) as Hq.
  { intros q ->. exists (u32 (buf_size buf)). pose proof (u32_le _ Hs).
    split_and!; try lia; [done | intros; apply wrap_small; lia | by intros ->]. }
  unfold reqs. destruct fd; repeat constructor; by apply Hq.
Qed.

(** The bytes of a container of [count] elements of [sizeof] bytes. *)
Definition bytes (sizeof : Z) (a : Buffer.array_of) : Z := sizeof * Buffer.count a.

(** The buffer made of a container covers its elements exactly, whichever overload is
    used, and a buffer made of a buffer is the same bytes. *)
Theorem buffer_covers_container sizeof (a : Buffer.array_of) :
  0 ≤ bytes sizeof a < 2 ^ 64 →
  Forall (λ b, b = (Buffer.elems a, bytes sizeof a))
    ((λ b, (Buffer.data b, Buffer.size b)) <$>
      [Buffer.buffer_arr sizeof a; Buffer.buffer_array sizeof a; Buffer.buffer_vector sizeof a;
       Buffer.buffer_span sizeof a]) ∧
  Forall (λ b, b = (Buffer.elems a, bytes sizeof a))
    ((λ b, (Buffer.cdata b, Buffer.csize b)) <$>
      [Buffer.buffer_carr sizeof a; Buffer.buffer_carray sizeof a; Buffer.buffer_cvector sizeof a;
       Buffer.buffer_cspan sizeof a; Buffer.const_of_mutable (Buffer.buffer_arr sizeof a)]) ∧
  (sizeof = 1 → Forall (λ b, b = (Buffer.elems a, bytes sizeof a))
     [(Buffer.data (Buffer.buffer_string a), Buffer.size (Buffer.buffer_string a));
      (Buffer.cdata (Buffer.buffer_cstring a), Buffer.csize (Buffer.buffer_cstring a));
      (Buffer.cdata (Buffer.buffer_string_view a), Buffer.csize (Buffer.buffer_string_view a))]).
Proof.
  intros Hb. unfold bytes in *.
  assert (u64 (sizeof * Buffer.count a) = sizeof * Buffer.count a) as E1 by (by apply wrap_small).
  assert (u64 (Buffer.count a * sizeof) = sizeof * Buffer.count a) as E2 by (rewrite (Z.mul_comm (Buffer.count a)); done).
  split_and!; [| | intros ->]; repeat apply Forall_cons_2; try apply Forall_nil_2; simpl;
    rewrite ?E1, ?E2; try done; f_equal; destruct (Buffer.count a); lia.
Qed.

(** ** SCSI results *)

(** The fields as the driver packs them. *)
Definition pack_scsi (device driver host sense resid : Z) : Z :=
  device + driver * 2 ^ 8 + host * 2 ^ 16 + sense * 2 ^ 24 + resid * 2 ^ 32.

Lemma byte_at z k : 0 ≤ k → u8 (Z.land (Z.shiftr z k) 255) = (z / 2 ^ k) mod 2 ^ 8.
Proof.
  intros. change 255 with (2 ^ 8 - 1). rewrite land_mask by lia. rewrite Z.shiftr_div_pow2 by done.
  apply wrap_small, Z.mod_pos_bound. lia.
Qed.

(** The accessors of a SCSI result give back the packed fields. *)
Theorem scsi_result_roundtrip c device driver host sense resid :
  0 ≤ device < 2 ^ 8 → 0 ≤ driver < 2 ^ 8 → 0 ≤ host < 2 ^ 8 → 0 ≤ sense < 2 ^ 8 → 0 ≤ resid < 2 ^ 32 →
  let r := (CqeHandler.SCSIBsgPassthruCQEHandler
              (CqeHandler.mkBigCqe c (pack_scsi device driver host sense resid) 0)).2 in
  (CqeHandler.device_status r, CqeHandler.driver_status r, CqeHandler.host_status r, CqeHandler.sense_len r,
   CqeHandler.resid_len r) = (device, driver, host, sense, resid).
Proof.
  intros Hd Hr Hh Hs Hl r. unfold r, CqeHandler.SCSIBsgPassthruCQEHandler, CqeHandler.device_status,
    CqeHandler.driver_status, CqeHandler.host_status, CqeHandler.sense_len, CqeHandler.resid_len. cbn [snd CqeHandler.res2 CqeHandler.big0].
  rewrite <- (Z.shiftr_0_r (pack_scsi _ _ _ _ _)) at 1. rewrite !byte_at by lia.
  rewrite Z.shiftr_div_pow2 by lia. unfold pack_scsi, wrap.
  change (2 ^ 0) with 1. change (2 ^ 8) with 256 in *. change (2 ^ 16) with 65536 in *.
  change (2 ^ 24) with 16777216 in *. change (2 ^ 32) with 4294967296 in *.
  repeat f_equal; Z.to_euclidean_division_equations; lia.
Qed.

(** ** Concrete operations *)

Definition demo_rt : Runtime SimRing :=
  mkRuntime [] false true [] (mkRing (mkSimRing 3 [] [] 4 []) 64 0) 0 0 (Some 0%nat) 61 false false.
Definition demo_pool : buffer_ring := mkBufferRing 0 7.

(** A bundled receive on a fixed descriptor. *)
Lemma async_operation_queues_witness :
  let a := async_recv_bundled (FixedFd 3) demo_pool 0 in
  let e := prepare (aw_prep (aw_op a)) in
  ∃ t env' r' slot u1 flags,
    start 2 (Some 0%nat) 2 None 0 (connect None (to_sender false (λ _, cqe_res) 8 a)) (demo_env 64 0 [])
    = Done (t, None) env' ∧
    runtimes (world env') !! 0%nat = Some r' ∧
    uring_get_sqe (ring_ (rt_ring_ demo_rt)) = Some (slot, u1) ∧
    ring_ (rt_ring_ r') = uring_prep slot (mkSqe (SqeOther (e_opcode e) flags) 8) u1 ∧
    calls_of (aw_prep (aw_op a)) = [(io_uring_prep_recv, [3; 0; 0; 0])] ∧
    has_flag flags IOSQE_FIXED_FILE = true ∧ has_flag flags IOSQE_BUFFER_SELECT = true ∧
    aw_handler (aw_op a) = SelectBuffer demo_pool ∧ e_buf e = 7 ∧
    has_flag (e_ioprio e) IORING_RECVSEND_BUNDLE = true.
Proof.
  intros a e.
  destruct (async_operation_queues (U := SimRing) (V := Z) false (λ _, cqe_res) 8 a
              (provided demo_pool true (on (FixedFd 3) io_uring_prep_recv [3; 0; 0; 0])) 0%nat 2 None
              (demo_env 64 0 []) demo_rt)
    as (t & env' & r' & slot & u1 & flags & E & Er & Eg & Eu & Hc & Hf & Hs & Hb & _ & _ & _ & Hh & _); try done; try lia.
  - apply (issued_recv_bundled (FixedFd 3) demo_pool 0).
  - destruct (Hb demo_pool true eq_refl) as (H2 & H3). exists t, env', r', slot, u1, flags.
    split_and!; [exact E | exact Er | exact Eg | exact Eu | exact Hc | exact Hf | exact Hs | exact Hh | exact H2 | exact H3].
Defined.

Lemma sqe128_needs_ring_witness :
  ∃ t, start 1 (Some 0%nat) 2 None 0 (connect None (to_sender false (λ _, cqe_res) 8 async_nop128)) (demo_env 64 0 [])
       = Done (t, Some (Leaf (- EINVAL))) (demo_env 64 0 []).
Proof.
  apply (sqe128_needs_ring (U := SimRing) (λ _, cqe_res) 8 async_nop128 false false 0%nat None (demo_env 64 0 []) 2);
    [left; reflexivity | discriminate].
Defined.

Lemma read_write_within_buffer_witness :
  rw_request (async_read (PlainFd 3) (Buffer.buffer_ptr 4096 (2 ^ 32)) 0 0) = Some (4096, 0).
Proof.
  assert (0 ≤ buf_size (Buffer.buffer_ptr 4096 (2 ^ 32))) as Hs by (vm_compute; discriminate).
  pose proof (read_write_within_buffer (PlainFd 3) (Buffer.buffer_ptr 4096 (2 ^ 32)) 0 0 0 Hs) as Hr.
  apply Forall_cons_1 in Hr as [(n & E & _ & _ & Hz) _]. rewrite (Hz eq_refl) in E. exact E.
Defined.

Lemma buffer_covers_container_witness :
  Buffer.buffer_vector 8 (Buffer.mkArray 4096 10) = Buffer.mkMutable 4096 80.
Proof.
  destruct (buffer_covers_container 8 (Buffer.mkArray 4096 10)) as (Hm & _); [unfold bytes; simpl; lia |].
  apply Forall_cons_1 in Hm as [_ Hm]. apply Forall_cons_1 in Hm as [_ Hm]. apply Forall_cons_1 in Hm as [E _].
  exact (f_equal (λ p : Z * Z, Buffer.mkMutable p.1 p.2) E).
Defined.

Lemma scsi_result_roundtrip_witness :
  CqeHandler.sense_len (CqeHandler.mkScsi (pack_scsi 2 8 0 18 4096)) = 18.
Proof.
  pose proof (scsi_result_roundtrip (mkCqe 0 0 0) 2 8 0 18 4096 ltac:(lia) ltac:(lia) ltac:(lia) ltac:(lia) ltac:(lia)) as E.
  exact (f_equal (λ p : Z * Z * Z * Z * Z, p.1.2) E).
Defined.
