(* ===== verification/Zcrx.v ===== *)
(** * Zero-copy receive (include/condy/zcrx.hpp)

    - [Rq]: [ZeroCopyRxBufferPool] once it is registered: the buffers of a
      completion and the refill queue through which they go back to the kernel.
      The head of the queue is memory the kernel advances; the control call that
      asks it to empty the queue is a parameter.
    - [Setup]: construction and cleanup, over the mappings of the process; what
      [mmap] and the registration return are parameters. *)

From stdpp Require Import base numbers list gmap.
From S2P Require Import Prelude Utils Ring Buffers AsyncOps.
Import CqeHandler (big_cqe, mkBigCqe, base, big0).

Definition IORING_ZCRX_AREA_SHIFT : Z := 48.
Definition IORING_ZCRX_AREA_MASK : Z := Z.shiftl (2 ^ 16 - 1) IORING_ZCRX_AREA_SHIFT.

(** ** The refill queue *)

Module Rq.

(** [io_uring_zcrx_rqe] *)
Record rqe := mkRqe { rqe_off : Z; rqe_len : Z }.

(** [khead], [ktail] and [rqes] are the memory shared with the kernel; [nodev] is
    [flags_ & ZCRX_REG_NODEV]. *)
Record ZeroCopyRxBufferPool := mkZcrx {
  area_ptr_ : Z;
  area_token_ : Z;
  zcrx_id_ : Z;
  nodev : bool;
  khead : Z;
  ktail : Z;
  rqes : gmap Z rqe;
  rq_tail : Z;
  ring_entries : Z
}.

(** [io_uring_register_zcrx_ctrl] with [ZCRX_CTRL_FLUSH_RQ]: its result and the
    head of the queue afterwards. *)
Class ZcrxCtrl := { flush_rq : ZeroCopyRxBufferPool → Z * Z }.
(** It takes every entry of the queue. *)
Class ZcrxCtrlLaws `{ZcrxCtrl} := { flush_takes_all p : flush_rq p = (0, ktail p) }.

#[global] Instance sim_ctrl : ZcrxCtrl := {| flush_rq p := (0, ktail p) |}.
#[global] Instance sim_ctrl_laws : ZcrxCtrlLaws.
Proof. by split. Qed.

Section rq.
Context `{ZcrxCtrl}.
Abbreviation M := (ST ZeroCopyRxBufferPool).

Definition rq_nr_queued_ (p : ZeroCopyRxBufferPool) : Z := u32 (rq_tail p - khead p).

Definition set_khead (h : Z) (p : ZeroCopyRxBufferPool) : ZeroCopyRxBufferPool :=
  mkZcrx (area_ptr_ p) (area_token_ p) (zcrx_id_ p) (nodev p) h (ktail p) (rqes p) (rq_tail p) (ring_entries p).

Definition rq_enqueue_ (ptr size : Z) : M unit :=
  p ← get;
  assert_ (rq_nr_queued_ p <? ring_entries p);;
  let rq_mask := u32 (ring_entries p - 1) in
  let e := mkRqe (Z.lor (u64 (ptr - area_ptr_ p)) (area_token_ p)) (u32 size) in
  let tail := u32 (rq_tail p + 1) in
  put (mkZcrx (area_ptr_ p) (area_token_ p) (zcrx_id_ p) (nodev p) (khead p) tail
         (<[Z.land (rq_tail p) rq_mask := e]> (rqes p)) tail (ring_entries p)).

Definition flush_rq_ : M unit :=
  p ← get;
  assert_ ((flush_rq p).1 =? 0);;
  put (set_khead (flush_rq p).2 p).

Definition maybe_flush_rq_ : M unit :=
  p ← get;
  if (ring_entries p <=? rq_nr_queued_ p) || nodev p then flush_rq_ else mret tt.

Definition add_buffer_back (ptr size : Z) : M unit :=
  rq_enqueue_ ptr size;;
  maybe_flush_rq_.

(** The completion's offset is in [big_cqe]. *)
Definition handle_finish (p : ZeroCopyRxBufferPool) (c : big_cqe) : Pool.ManagedBuffer :=
  if cqe_res (base c) <? 0 then Pool.mkManaged 0 0 false
  else Pool.mkManaged (area_ptr_ p + Z.land (big0 c) (u64 (Z.lnot IORING_ZCRX_AREA_MASK))) (cqe_res (base c)) true.

(** [ManagedBuffer::reset] *)
Definition reset (b : Pool.ManagedBuffer) : M Pool.ManagedBuffer :=
  (if Pool.owned b then add_buffer_back (Pool.data_ b) (Pool.size_ b) else mret tt);;
  mret (Pool.mkManaged 0 0 false).
End rq.

(** *** The queue is a FIFO *)

(** The entry a buffer goes back as. *)
Definition entry_of (p : ZeroCopyRxBufferPool) (ptr size : Z) : rqe :=
  mkRqe (Z.lor (u64 (ptr - area_ptr_ p)) (area_token_ p)) (u32 size).

(** [sent] are the entries put into the queue so far, the first [taken] of which
    the kernel has taken; the others are in their slots. *)
Record rq_ok (p : ZeroCopyRxBufferPool) (k : Z) (sent : list rqe) (taken : nat) : Prop := {
  rq_k : 0 ≤ k ≤ 31;
  rq_entries : ring_entries p = 2 ^ k;
  rq_taken : (taken ≤ length sent)%nat;
  rq_room : Z.of_nat (length sent) - Z.of_nat taken < 2 ^ k;
  rq_head : khead p = u32 (Z.of_nat taken);
  rq_ktail : ktail p = u32 (Z.of_nat (length sent));
  rq_rtail : rq_tail p = ktail p;
  rq_slots j : (taken ≤ j)%nat → ∀ e, sent !! j = Some e → rqes p !! Z.land (Z.of_nat j) (2 ^ k - 1) = Some e
}.

(** What the kernel reads: the entries from [khead] on. *)
Definition kernel_view (p : ZeroCopyRxBufferPool) : list (option rqe) :=
  (λ i, rqes p !! Z.land (khead p + i) (ring_entries p - 1)) <$> seqZ 0 (u32 (ktail p - khead p)).

Section rq_props.
Context `{ZcrxCtrlLaws}.
Implicit Types p : ZeroCopyRxBufferPool.

Lemma pow_le_32 k : 0 ≤ k ≤ 31 → 0 < 2 ^ k ≤ 2 ^ 31.
Proof. intros. split; [apply Z.pow_pos_nonneg; lia | apply Z.pow_le_mono_r; lia]. Qed.

Lemma queued_eq p k sent taken :
  rq_ok p k sent taken → rq_nr_queued_ p = Z.of_nat (length sent) - Z.of_nat taken.
Proof.
  intros [Hk _ Ht Hr Hh Hkt Hrt _]. pose proof (pow_le_32 k Hk). unfold rq_nr_queued_.
  rewrite Hrt, Hkt, Hh, wrap_sub_l, wrap_sub_r. apply wrap_small. lia.
Qed.

Lemma land_u32 k a : 0 ≤ k ≤ 31 → Z.land (u32 a) (2 ^ k - 1) = Z.land a (2 ^ k - 1).
Proof. intros. rewrite !land_mask by lia. apply wrap_mod_pow2. lia. Qed.

Lemma land_u32_add k a b : 0 ≤ k ≤ 31 → Z.land (u32 a + b) (2 ^ k - 1) = Z.land (a + b) (2 ^ k - 1).
Proof. intros. rewrite !land_mask by lia. rewrite Zplus_mod, (wrap_mod_pow2 32 k) by lia. by rewrite <- Zplus_mod. Qed.

(** The state after the entry is written and before the kernel is asked to take
    entries: the queue may be full. *)
Lemma enqueue_ok p k sent taken ptr size :
  rq_ok p k sent taken →
  ∃ p', rq_enqueue_ ptr size p = Done tt p' ∧
    area_ptr_ p' = area_ptr_ p ∧ area_token_ p' = area_token_ p ∧ nodev p' = nodev p ∧
    ring_entries p' = 2 ^ k ∧ khead p' = khead p ∧ ktail p' = u32 (Z.of_nat (S (length sent))) ∧
    rq_tail p' = ktail p' ∧
    (∀ j, (taken ≤ j)%nat → ∀ e, (sent ++ [entry_of p ptr size]) !! j = Some e →
       rqes p' !! Z.land (Z.of_nat j) (2 ^ k - 1) = Some e).
Proof.
  intros Hp. pose proof (queued_eq _ _ _ _ Hp) as Hq. destruct Hp as [Hk He Ht Hr Hh Hkt Hrt Hs].
  pose proof (pow_le_32 k Hk). unfold rq_enqueue_. rewrite bind_get.
  rewrite bind_assert by (apply Z.ltb_lt; lia). eexists. split; [done |].
  assert (u32 (rq_tail p + 1) = u32 (Z.of_nat (S (length sent)))) as Et
    by (rewrite Hrt, Hkt, wrap_add_l; f_equal; lia).
  cbn [area_ptr_ area_token_ nodev ring_entries khead ktail rq_tail rqes]. split_and!; try done.
  intros j Hj e Hl. rewrite He, (wrap_small 32 (2 ^ k - 1)), Hrt, Hkt, land_u32 by lia.
  apply lookup_app_Some in Hl as [Hl | [Hl1 Hl2]].
  - pose proof (lookup_lt_Some _ _ _ Hl). rewrite lookup_insert_ne; [by apply Hs |].
    intros E. assert (Z.of_nat (length sent) - Z.of_nat taken = Z.of_nat j - Z.of_nat taken); [| lia].
    apply (slot_inj k (Z.of_nat taken)); try lia. rewrite !Z.add_sub_assoc, !Z.add_simpl_l. exact E.
  - apply list_lookup_singleton_Some in Hl2 as [Hl2 <-]. replace j with (length sent) by lia.
    apply lookup_insert_eq.
Qed.

(** A buffer goes back: the queue never overflows, because the kernel is asked to
    take the entries when the last place is used. *)
Lemma add_buffer_back_rq p k sent taken ptr size :
  rq_ok p k sent taken →
  ∃ p' taken', add_buffer_back ptr size p = Done tt p' ∧ rq_ok p' k (sent ++ [entry_of p ptr size]) taken' ∧
    (taken ≤ taken')%nat ∧ area_ptr_ p' = area_ptr_ p ∧ area_token_ p' = area_token_ p.
Proof.
  intros Hp. destruct (enqueue_ok p k sent taken ptr size Hp) as (p' & E & Ha & Htok & Hn & He & Hh & Hkt & Hrt & Hs).
  destruct Hp as [Hk _ Ht Hr Hh0 _ _ _]. pose proof (pow_le_32 k Hk).
  unfold add_buffer_back. erewrite bind_done by exact E. unfold maybe_flush_rq_. rewrite bind_get.
  assert (rq_nr_queued_ p' = Z.of_nat (S (length sent)) - Z.of_nat taken) as Hq.
  { unfold rq_nr_queued_. rewrite Hrt, Hkt, Hh, Hh0, wrap_sub_l, wrap_sub_r. apply wrap_small. lia. }
  destruct ((ring_entries p' <=? rq_nr_queued_ p') || nodev p') eqn:Ef.
  - exists (set_khead (ktail p') p'), (S (length sent)). split.
    + unfold flush_rq_. rewrite bind_get, flush_takes_all. done.
    + split_and!; try done; [| lia]. split; cbn [set_khead ring_entries khead ktail rq_tail rqes];
        rewrite ?length_app; simpl; try done; try lia; rewrite ?Hkt; try (f_equal; lia).
      intros j Hj e Hl. apply lookup_lt_Some in Hl. rewrite length_app in Hl. simpl in Hl. lia.
  - apply orb_false_iff in Ef as [Ef _]. apply Z.leb_gt in Ef. exists p', taken. split; [done |].
    split_and!; try done. split; rewrite ?length_app; simpl; try done; try lia; try congruence.
    rewrite Hkt. f_equal. lia.
Qed.

(** The kernel takes some of the entries. *)
Lemma kernel_takes p k sent taken n :
  rq_ok p k sent taken → (taken + n ≤ length sent)%nat →
  rq_ok (set_khead (u32 (Z.of_nat (taken + n))) p) k sent (taken + n).
Proof. intros [Hk He Ht Hr Hh Hkt Hrt Hs] Hn. split; try done; [simpl; lia |]. intros j Hj. apply Hs. lia. Qed.

Lemma kernel_view_ok p k sent taken : rq_ok p k sent taken → kernel_view p = Some <$> drop taken sent.
Proof.
  intros Hp. pose proof (queued_eq _ _ _ _ Hp) as Hq. destruct Hp as [Hk He Ht Hr Hh Hkt Hrt Hs].
  pose proof (pow_le_32 k Hk). unfold kernel_view. unfold rq_nr_queued_ in Hq. rewrite Hrt in Hq. rewrite Hq.
  apply list_eq. intros i. rewrite !list_lookup_fmap, lookup_drop.
  destruct (decide (i < length sent - taken)%nat) as [Hi | Hi].
  - rewrite lookup_seqZ_lt by lia. simpl. destruct (lookup_lt_is_Some_2 sent (taken + i)) as [e E]; [lia |].
    rewrite E. simpl. f_equal. rewrite Hh, He, land_u32_add by lia.
    replace (Z.of_nat taken + (0 + Z.of_nat i)) with (Z.of_nat (taken + i)) by lia. apply (Hs (taken + i)%nat); [lia | done].
  - rewrite lookup_seqZ_ge by lia. rewrite lookup_ge_None_2 by lia. done.
Qed.

(** A pool in use: buffers go back, and the kernel takes entries when it likes. *)
Inductive rq_run (p0 : ZeroCopyRxBufferPool) : ZeroCopyRxBufferPool → list rqe → Prop :=
  | rq_start : rq_run p0 p0 []
  | rq_back p sent ptr size p' :
      rq_run p0 p sent → add_buffer_back ptr size p = Done tt p' → rq_run p0 p' (sent ++ [entry_of p0 ptr size])
  | rq_kernel p sent n :
      rq_run p0 p sent → 0 ≤ n ≤ rq_nr_queued_ p → rq_run p0 (set_khead (u32 (khead p + n)) p) sent.

Lemma rq_run_ok p0 k p sent :
  rq_ok p0 k [] 0 → rq_run p0 p sent →
  ∃ taken, rq_ok p k sent taken ∧ area_ptr_ p = area_ptr_ p0 ∧ area_token_ p = area_token_ p0.
Proof.
  intros Hstart. induction 1 as [| p sent ptr size p' _ (taken & Hp & Ha & Ht) E | p sent n _ (taken & Hp & Ha & Ht) Hn].
  - by exists 0%nat.
  - destruct (add_buffer_back_rq p k sent taken ptr size Hp) as (p2 & taken' & E2 & Hp2 & _ & Ha2 & Ht2).
    rewrite E in E2. injection E2 as <-. exists taken'. rewrite Ha2, Ht2. split_and!; try done.
    unfold entry_of in *. by rewrite <- Ha, <- Ht.
  - rewrite (queued_eq _ _ _ _ Hp) in Hn. exists (taken + Z.to_nat n)%nat.
    pose proof (rq_taken _ _ _ _ Hp). pose proof (kernel_takes p k sent taken (Z.to_nat n) Hp ltac:(lia)) as Hk.
    replace (u32 (khead p + n)) with (u32 (Z.of_nat (taken + Z.to_nat n))); [done |].
    rewrite (rq_head _ _ _ _ Hp), wrap_add_l. f_equal. lia.
Qed.

(** The queue of a pool that has just been registered. *)
Record registered (p : ZeroCopyRxBufferPool) (k : Z) : Prop := {
  reg_k : 0 ≤ k ≤ 31;
  reg_entries : ring_entries p = 2 ^ k;
  reg_head : khead p = 0;
  reg_ktail : ktail p = 0;
  reg_tail : rq_tail p = 0
}.

Lemma registered_ok p k : registered p k → rq_ok p k [] 0.
Proof. intros [Hk He Hh Ht Hr]. pose proof (pow_le_32 k Hk). split; try done; simpl; try lia; congruence. Qed.

Lemma reset_run p0 k p sent b :
  registered p0 k → rq_run p0 p sent → Pool.owned b = true →
  ∃ p', reset b p = Done (Pool.mkManaged 0 0 false) p' ∧
    rq_run p0 p' (sent ++ [entry_of p0 (Pool.data_ b) (Pool.size_ b)]).
Proof.
  intros Hp0 Hrun Ho. destruct (rq_run_ok _ _ _ _ (registered_ok _ _ Hp0) Hrun) as (taken & Hp & _).
  destruct (add_buffer_back_rq p k sent taken (Pool.data_ b) (Pool.size_ b) Hp) as (p' & _ & E & _).
  exists p'. split; [unfold reset; rewrite Ho; by erewrite bind_done by exact E | by eapply rq_back].
Qed.

(** C15. The refill queue is a FIFO that never overflows: after any returns of buffers,
    with the kernel taking entries at any time, the entries the kernel still sees
    are the last ones put in, in order, with the buffers' offsets and lengths;
    there is always room for one more, and giving a buffer back succeeds. *)
Theorem refill_queue_fifo p0 k p sent :
  registered p0 k → rq_run p0 p sent →
  (∃ taken, kernel_view p = Some <$> drop taken sent) ∧ rq_nr_queued_ p < ring_entries p ∧
  ∀ ptr size, ∃ p', add_buffer_back ptr size p = Done tt p' ∧ rq_run p0 p' (sent ++ [entry_of p0 ptr size]).
Proof.
  intros Hp0 Hrun. destruct (rq_run_ok _ _ _ _ (registered_ok _ _ Hp0) Hrun) as (taken & Hp & _ & _). split_and!.
  - exists taken. by eapply kernel_view_ok.
  - rewrite (queued_eq _ _ _ _ Hp), (rq_entries _ _ _ _ Hp). apply (rq_room _ _ _ _ Hp).
  - intros ptr size. destruct (add_buffer_back_rq p k sent taken ptr size Hp) as (p' & _ & E & _). exists p'.
    split; [done |]. by eapply rq_back.
Qed.

Lemma land_token o token : 0 ≤ o < 2 ^ 48 → (2 ^ 48 | token) → Z.land o token = 0.
Proof.
  intros Ho [t ->]. rewrite <- (Z.mod_small o (2 ^ 48)), <- land_mask by lia.
  rewrite <- Z.land_assoc, (Z.land_comm (2 ^ 48 - 1)), land_mask, Z.mod_mul by lia. apply Z.land_0_r.
Qed.

(** Where a completion's buffer is: the offset without the token of its area. *)
Lemma finish_offset p c o :
  0 ≤ o < 2 ^ 48 → (2 ^ 48 | area_token_ p) → big0 c = o + area_token_ p → 0 ≤ cqe_res (base c) →
  handle_finish p c = Pool.mkManaged (area_ptr_ p + o) (cqe_res (base c)) true.
Proof.
  intros Ho [t Htok] Hb Hres. unfold handle_finish. rewrite (proj2 (Z.ltb_ge _ _)) by lia.
  change (u64 (Z.lnot IORING_ZCRX_AREA_MASK)) with (2 ^ 48 - 1). rewrite land_mask, Hb, Htok by lia.
  by rewrite Z.mod_add, Z.mod_small by lia.
Qed.

Lemma entry_of_offset p o size :
  0 ≤ o < 2 ^ 48 → (2 ^ 48 | area_token_ p) → entry_of p (area_ptr_ p + o) size = mkRqe (o + area_token_ p) (u32 size).
Proof.
  intros Ho Ht. unfold entry_of. rewrite Z.add_simpl_l, wrap_small by lia.
  by rewrite Z.add_nocarry_lxor, Z.lxor_lor by (by apply land_token).
Qed.

(** C33. A received buffer goes back as what it came as: for a completion whose offset
    carries the token of the area, the buffer lies at that offset of the area with
    the bytes received, and resetting it puts the same offset and length into the
    refill queue; a completion with an error has no buffer. *)
Theorem received_buffer_roundtrip p0 k p sent c o :
  registered p0 k → rq_run p0 p sent → (2 ^ 48 | area_token_ p0) → 0 ≤ o < 2 ^ 48 →
  cqe_res (base c) < 2 ^ 31 → big0 c = o + area_token_ p0 →
  if cqe_res (base c) <? 0 then handle_finish p c = Pool.mkManaged 0 0 false
  else handle_finish p c = Pool.mkManaged (area_ptr_ p0 + o) (cqe_res (base c)) true ∧
    ∃ p', reset (handle_finish p c) p = Done (Pool.mkManaged 0 0 false) p' ∧
      rq_run p0 p' (sent ++ [mkRqe (big0 c) (cqe_res (base c))]).
Proof.
  intros Hp0 Hrun Ht Ho Hres Hb. destruct (rq_run_ok _ _ _ _ (registered_ok _ _ Hp0) Hrun) as (taken & Hp & Ha & Htok).
  destruct (Z.ltb_spec (cqe_res (base c)) 0) as [Hneg | Hpos].
  - unfold handle_finish. by rewrite (proj2 (Z.ltb_lt _ _)).
  - rewrite (finish_offset p c o), Ha by (rewrite ?Htok; done). split; [done |].
    destruct (reset_run p0 k p sent (Pool.mkManaged (area_ptr_ p0 + o) (cqe_res (base c)) true) Hp0 Hrun eq_refl)
      as (p' & E & Hr). exists p'. split; [done |]. cbn [Pool.data_ Pool.size_] in Hr.
    by rewrite entry_of_offset, wrap_small, <- Hb in Hr by (done || lia).
Qed.

(** C38. The end of a stream gives back a buffer nobody received: its completion has
    result 0 and no offset, and yet [handle_finish] makes an owning buffer of it;
    resetting that puts the offset 0 of the area into the refill queue, exactly
    as giving back the buffer at offset 0 does, which may be in use. *)
Theorem end_of_stream_returns_offset_zero p0 k p sent user_data flags n :
  registered p0 k → rq_run p0 p sent → (2 ^ 48 | area_token_ p0) → 0 ≤ n < 2 ^ 31 →
  let last := mkBigCqe (mkCqe user_data 0 flags) 0 0 in
  let first := mkBigCqe (mkCqe user_data n flags) (area_token_ p0) 0 in
  Pool.owned (handle_finish p last) = true ∧ Pool.data_ (handle_finish p last) = Pool.data_ (handle_finish p first) ∧
  ∃ p', reset (handle_finish p last) p = Done (Pool.mkManaged 0 0 false) p' ∧
    rq_run p0 p' (sent ++ [mkRqe (area_token_ p0) 0]) ∧
    rqe_off (entry_of p0 (Pool.data_ (handle_finish p first)) n) = area_token_ p0.
Proof.
  intros Hp0 Hrun Ht Hn last first.
  destruct (rq_run_ok _ _ _ _ (registered_ok _ _ Hp0) Hrun) as (taken & Hp & Ha & Htok).
  assert (handle_finish p last = Pool.mkManaged (area_ptr_ p0 + 0) 0 true) as El
    by (unfold handle_finish; simpl; by rewrite Ha).
  assert (handle_finish p first = Pool.mkManaged (area_ptr_ p0 + 0) n true) as Ef
    by (rewrite (finish_offset p first 0), Ha by (rewrite ?Htok; simpl; done || lia); done).
  destruct (reset_run p0 k p sent (handle_finish p last) Hp0 Hrun) as (p' & E & Hr); [by rewrite El |].
  rewrite El, Ef in *. cbn [Pool.owned Pool.data_ Pool.size_] in *. rewrite !entry_of_offset in * by done.
  split_and!; [done | done |]. by exists p'.
Qed.
End rq_props.
End Rq.

(** ** Construction and cleanup *)

Module Setup.

(** [MAP_FAILED] *)
Definition MAP_FAILED : Z := 2 ^ 64 - 1.
Definition IORING_ZCRX_AREA_DMABUF : Z := 1.
Definition sizeof_rqe : Z := 16.

(** [io_uring_zcrx_area_reg] *)
Record area_reg := mkAreaReg {
  ar_addr : Z;
  ar_len : Z;
  ar_flags : Z;
  ar_dmabuf_fd : Z
}.

(** What a successful registration fills in. *)
Record ifq_result := mkIfqResult {
  if_entries : Z;
  if_zcrx_id : Z;
  if_token : Z
}.

(** The fields of the pool that hold resources, and the refill queue once it is
    mapped. *)
Record Obj := mkObj {
  area_size_ : Z;
  area_ptr_ : Z;
  ring_size_ : Z;
  ring_ptr : Z;
  queue : option Rq.ZeroCopyRxBufferPool
}.

(** The mappings of the process, address to size; the registrations made. *)
Record Proc := mkProc {
  mapped : gmap Z Z;
  registrations : list area_reg
}.

Record Ctx := mkCtx {
  proc : Proc;
  obj : Obj
}.

Section setup.
(** What the system answers: the addresses of the two mappings ([None]: failure,
    with its error number), the result of [io_uring_register_ifq], the page size. *)
Context (mmap_area mmap_ring : option Z) (errno : Z) (register_ifq : Z + ifq_result) (page_size : Z).
Abbreviation M := (ST Ctx).

Definition set_obj (f : Obj → Obj) : M unit := modify (λ c, mkCtx (proc c) (f (obj c))).

Definition mmap (answer : option Z) (size : Z) : M Z :=
  match answer with
  | Some a => modify (λ c, mkCtx (mkProc (<[a := size]> (mapped (proc c))) (registrations (proc c))) (obj c));; mret a
  | None => mret MAP_FAILED
  end.

(** [munmap] fails for an address that is not page aligned ([EINVAL]; a page has a
    multiple of 4096 bytes), and has nothing to do for pages that are not mapped. *)
Definition munmap (addr size : Z) : M Z := λ c,
  if bool_decide (mapped (proc c) !! addr = Some size) then
    Done 0 (mkCtx (mkProc (delete addr (mapped (proc c))) (registrations (proc c))) (obj c))
  else if addr mod 4096 =? 0 then Done 0 c else Done (-1) c.

Definition cleanup_ : M unit :=
  o ← gets obj;
  (if negb (area_ptr_ o =? 0) && (0 <? area_size_ o) then
     r ← munmap (area_ptr_ o) (area_size_ o); assert_ (r =? 0)
   else mret tt);;
  (if negb (ring_ptr o =? 0) then r ← munmap (ring_ptr o) (ring_size_ o); assert_ (r =? 0) else mret tt).

Definition get_refill_ring_size_ (rq_entries : Z) : M Z :=
  align_up 64 (u64 (rq_entries * sizeof_rqe + page_size)) page_size.

Definition register_ifq_ (nodev : bool) (rq_entries : Z) (reg : area_reg) : M unit :=
  let rq_entries := bit_ceil rq_entries in
  size ← get_refill_ring_size_ rq_entries;
  set_obj (λ o, mkObj (area_size_ o) (area_ptr_ o) size (ring_ptr o) (queue o));;
  match register_ifq with
  | inl r => throw (SystemError (- r))
  | inr res =>
      modify (λ c, mkCtx (mkProc (mapped (proc c)) (registrations (proc c) ++ [reg])) (obj c));;
      ptr ← mmap mmap_ring size;
      if ptr =? MAP_FAILED then throw (SystemError errno)
      else set_obj (λ o, mkObj (area_size_ o) (area_ptr_ o) (ring_size_ o) ptr
             (Some (Rq.mkZcrx (area_ptr_ o) (if_token res) (if_zcrx_id res) nodev 0 0 ∅ 0 (if_entries res))))
  end.

(** The guard of the constructors: an exception that leaves the body runs
    [cleanup_]. *)
Definition guarded (body : M unit) : M unit := λ c,
  match body c with
  | Thrown e c' =>
      match cleanup_ c' with
      | Done _ c'' => Thrown e c''
      | Thrown e' _ => Crashed Panic
      | Crashed x => Crashed x
      end
  | r => r
  end.

(** The constructor for a [ZeroCopyRxArea]. *)
Definition construct (nodev : bool) (rq_entries addr size : Z) : M unit :=
  guarded
    (if addr =? 0 then
       area_size ← align_up 64 size page_size;
       set_obj (λ o, mkObj area_size (area_ptr_ o) (ring_size_ o) (ring_ptr o) (queue o));;
       ptr ← mmap mmap_area area_size;
       set_obj (λ o, mkObj (area_size_ o) ptr (ring_size_ o) (ring_ptr o) (queue o));;
       if ptr =? MAP_FAILED then throw (SystemError errno)
       else register_ifq_ nodev rq_entries (mkAreaReg ptr area_size 0 0)
     else
       set_obj (λ o, mkObj 0 addr (ring_size_ o) (ring_ptr o) (queue o));;
       register_ifq_ nodev rq_entries (mkAreaReg addr size 0 0)).

(** The constructor for a [ZeroCopyRxDMABufArea]; [dmabuf_fd] is not used. *)
Definition construct_dmabuf (rq_entries dmabuf_fd offset size : Z) : M unit :=
  guarded
    (set_obj (λ o, mkObj 0 0 (ring_size_ o) (ring_ptr o) (queue o));;
     register_ifq_ false rq_entries (mkAreaReg offset size IORING_ZCRX_AREA_DMABUF 0)).
End setup.

(** *** Resources are balanced *)

Section setup_props.
Context (mmap_area mmap_ring : option Z) (errno : Z) (register_ifq : Z + ifq_result) (page_size : Z).
Context (m : gmap Z Z) (regs : list area_reg).
Implicit Types (rq_entries size : Z).

(** The answers are possible: a mapping is at a new address. *)
Record answers_ok : Prop := {
  ans_page : is_pow2 page_size;
  ans_page_le : page_size ≤ 2 ^ 30;
  ans_area a : mmap_area = Some a → m !! a = None ∧ a ≠ 0 ∧ a ≠ MAP_FAILED;
  ans_ring b : mmap_ring = Some b → m !! b = None ∧ b ≠ 0 ∧ b ≠ MAP_FAILED ∧ mmap_area ≠ Some b;
  ans_failed : m !! MAP_FAILED = None
}.

Definition new_ctx : Ctx := mkCtx (mkProc m regs) (mkObj 0 0 0 0 None).

Lemma refill_ring_size_ok rq_entries :
  answers_ok → 0 < rq_entries ≤ 2 ^ 31 →
  ∃ rs, (∀ c, get_refill_ring_size_ page_size (bit_ceil rq_entries) c = Done rs c) ∧ (page_size | rs) ∧
    bit_ceil rq_entries * sizeof_rqe + page_size ≤ rs.
Proof.
  intros [Hp Hle _ _ _] He. pose proof (is_pow2_pos _ Hp).
  assert (0 < bit_ceil rq_entries ≤ 2 ^ 31) as Hb.
  { split; [apply is_pow2_pos, bit_ceil_pow2 | apply bit_ceil_least; [lia | by exists 31 | lia]]. }
  unfold get_refill_ring_size_, sizeof_rqe. rewrite wrap_small by lia.
  destruct (align_up_ok (S := Ctx) 64 (bit_ceil rq_entries * 16 + page_size) page_size) as (rs & E & Hd & Hr); try done; try lia.
  exists rs. split_and!; [done | done | lia].
Qed.

Lemma cleanup_done pr o pr1 pr2 :
  (if negb (area_ptr_ o =? 0) && (0 <? area_size_ o) then
     mapped pr !! area_ptr_ o = Some (area_size_ o) ∧ pr1 = mkProc (delete (area_ptr_ o) (mapped pr)) (registrations pr)
   else pr1 = pr) →
  (if negb (ring_ptr o =? 0) then
     mapped pr1 !! ring_ptr o = Some (ring_size_ o) ∧ pr2 = mkProc (delete (ring_ptr o) (mapped pr1)) (registrations pr1)
   else pr2 = pr1) →
  cleanup_ (mkCtx pr o) = Done tt (mkCtx pr2 o).
Proof.
  intros H1 H2. unfold cleanup_. rewrite bind_gets. cbn [obj].
  erewrite bind_done; [| instantiate (1 := mkCtx pr1 o); instantiate (1 := tt)].
  - destruct (negb (ring_ptr o =? 0)).
    + destruct H2 as [E ->]. unfold mbind, st_bind, munmap. by rewrite bool_decide_eq_true_2.
    + by subst.
  - destruct (_ && _).
    + destruct H1 as [E ->]. unfold mbind, st_bind, munmap. by rewrite bool_decide_eq_true_2.
    + by subst.
Qed.

Lemma cleanup_fails pr o :
  area_ptr_ o mod 4096 ≠ 0 → 0 < area_size_ o → mapped pr !! area_ptr_ o ≠ Some (area_size_ o) →
  cleanup_ (mkCtx pr o) = Crashed AssertFailed.
Proof.
  intros Hp Hs Hm. unfold cleanup_. rewrite bind_gets. cbn [obj].
  rewrite (proj2 (Z.eqb_neq (area_ptr_ o) 0)), (proj2 (Z.ltb_lt 0 (area_size_ o))) by (done || by intros E; rewrite E in Hp).
  cbn [negb andb].
  assert (munmap (area_ptr_ o) (area_size_ o) (mkCtx pr o) = Done (-1) (mkCtx pr o)) as E
    by (unfold munmap; by rewrite bool_decide_eq_false_2, (proj2 (Z.eqb_neq _ 0))).
  unfold mbind, st_bind. by rewrite E.
Qed.

(** Registration from a state in which only the area, if any, is held. *)
Lemma register_branches nodev rq_entries reg asz aptr mm :
  answers_ok → 0 < rq_entries ≤ 2 ^ 31 →
  ∃ rs, (page_size | rs) ∧ bit_ceil rq_entries * sizeof_rqe + page_size ≤ rs ∧
  register_ifq_ mmap_ring errno register_ifq page_size nodev rq_entries reg (mkCtx (mkProc mm regs) (mkObj asz aptr 0 0 None))
  = match register_ifq with
    | inl r => Thrown (SystemError (- r)) (mkCtx (mkProc mm regs) (mkObj asz aptr rs 0 None))
    | inr res =>
        match mmap_ring with
        | None => Thrown (SystemError errno) (mkCtx (mkProc mm (regs ++ [reg])) (mkObj asz aptr rs 0 None))
        | Some b => Done tt (mkCtx (mkProc (<[b := rs]> mm) (regs ++ [reg]))
                      (mkObj asz aptr rs b
                         (Some (Rq.mkZcrx aptr (if_token res) (if_zcrx_id res) nodev 0 0 ∅ 0 (if_entries res)))))
        end
    end.
Proof.
  intros Ha He. destruct (refill_ring_size_ok rq_entries Ha He) as (rs & E & Hd & Hr). exists rs.
  split_and!; [done | done |]. unfold register_ifq_. erewrite bind_done by apply E. erewrite bind_done by done.
  destruct register_ifq as [r | res]; [done |]. erewrite bind_done by done.
  destruct mmap_ring as [b|] eqn:Eb; [| done]. erewrite bind_done by done.
  destruct (ans_ring Ha b Eb) as (_ & _ & Hf & _). by rewrite (proj2 (Z.eqb_neq _ _)).
Qed.

(** C34. Construction of a pool that maps its own area, on every answer of the system:
    when all calls succeed the area covers the size asked for in whole pages, it
    is what was registered, the refill queue is empty, and cleanup removes both
    mappings; when the registration or the mapping of the queue fails, the
    error is thrown and the area is unmapped again.  When the mapping of the
    area itself fails the program ends in a failed assertion instead of the
    exception, because the cleanup unmaps [MAP_FAILED]. *)
Theorem construct_behaviour nodev rq_entries size :
  answers_ok → 0 < rq_entries ≤ 2 ^ 31 → 0 < size ≤ 2 ^ 62 →
  let r := construct mmap_area mmap_ring errno register_ifq page_size nodev rq_entries 0 size new_ctx in
  match mmap_area, register_ifq, mmap_ring with
  | None, _, _ => r = Crashed AssertFailed
  | Some a, inl e, _ => ∃ c, r = Thrown (SystemError (- e)) c ∧ proc c = mkProc m regs
  | Some a, inr res, None => ∃ c, r = Thrown (SystemError errno) c ∧ mapped (proc c) = m
  | Some a, inr res, Some b =>
      ∃ c c' asz, r = Done tt c ∧ (page_size | asz) ∧ size ≤ asz < size + page_size ∧
        mapped (proc c) !! a = Some asz ∧ registrations (proc c) = regs ++ [mkAreaReg a asz 0 0] ∧
        queue (obj c) = Some (Rq.mkZcrx a (if_token res) (if_zcrx_id res) nodev 0 0 ∅ 0 (if_entries res)) ∧
        cleanup_ c = Done tt c' ∧ mapped (proc c') = m
  end.
Proof.
  intros Ha He Hs r. pose proof Ha as [Hp Hple Har Hrg Hf]. pose proof (is_pow2_pos _ Hp).
  destruct (align_up_ok (S := Ctx) 64 size page_size) as (asz & Ea & Hd & Hr); try done; try lia.
  unfold r, construct, guarded. rewrite Z.eqb_refl. erewrite bind_done by apply Ea. erewrite bind_done by done.
  destruct mmap_area as [a|] eqn:Eam.
  - destruct (Har a eq_refl) as (Hna & Ha0 & HaF). erewrite bind_done by done. erewrite bind_done by done.
    rewrite (proj2 (Z.eqb_neq _ _)) by done. cbn [proc obj mapped registrations area_size_ ring_size_ ring_ptr queue new_ctx].
    destruct (register_branches nodev rq_entries (mkAreaReg a asz 0 0) asz a (<[a := asz]> m) Ha He) as (rs & _ & _ & ->).
    assert (negb (a =? 0) && (0 <? asz) = true) as Eg.
    { rewrite (proj2 (Z.eqb_neq _ _)) by done. apply Z.ltb_lt. lia. }
    assert (∀ rg, cleanup_ (mkCtx (mkProc (<[a := asz]> m) rg) (mkObj asz a rs 0 None))
                  = Done tt (mkCtx (mkProc m rg) (mkObj asz a rs 0 None))) as Hclean.
    { intros rg. apply (cleanup_done _ _ (mkProc m rg)); [| done]. cbn [area_ptr_ area_size_]. rewrite Eg.
      cbn [mapped registrations]. rewrite lookup_insert_eq, delete_insert_id by done. done. }
    destruct register_ifq as [e | res]; [rewrite Hclean; eauto |].
    destruct mmap_ring as [b|] eqn:Eb; [| rewrite Hclean; eauto].
    destruct (Hrg b eq_refl) as (Hnb & Hb0 & _ & Hab). assert (a ≠ b) by congruence.
    eexists _, (mkCtx (mkProc m (regs ++ [mkAreaReg a asz 0 0])) _), asz. split_and!; try done; try lia.
    + cbn [proc mapped]. by rewrite lookup_insert_ne, lookup_insert_eq.
    + eapply (cleanup_done _ _ (mkProc (<[b := rs]> m) _)); cbn [area_ptr_ area_size_ ring_ptr ring_size_ mapped registrations].
      * rewrite Eg, lookup_insert_ne, lookup_insert_eq by done. split; [done |].
        by rewrite delete_insert_ne, delete_insert_id by done.
      * rewrite (proj2 (Z.eqb_neq b 0)) by done. cbn [negb]. rewrite lookup_insert_eq, delete_insert_id by done. done.
  - erewrite bind_done by done. erewrite bind_done by done. cbn [proc obj mapped registrations area_size_ ring_size_ ring_ptr queue new_ctx].
    rewrite Z.eqb_refl. cbn [throw]. rewrite cleanup_fails; [done | done | simpl; lia | simpl; by rewrite Hf].
Qed.

End setup_props.
End Setup.

(** ** Concrete pools *)

(** A queue of two entries; area 1 starts at address 4096. *)
Definition demo_zcrx : Rq.ZeroCopyRxBufferPool := Rq.mkZcrx 4096 (2 ^ 48) 7 false 0 0 ∅ 0 2.
Definition demo_back : Rq.ZeroCopyRxBufferPool :=
  Rq.mkZcrx 4096 (2 ^ 48) 7 false 0 1 {[0 := Rq.mkRqe (2 ^ 48 + 64) 10]} 1 2.

Lemma demo_registered : Rq.registered demo_zcrx 1.
Proof. by split. Qed.

Lemma demo_back_run : Rq.rq_run demo_zcrx demo_back [Rq.mkRqe (2 ^ 48 + 64) 10].
Proof. apply (Rq.rq_back demo_zcrx demo_zcrx [] (4096 + 64) 10 demo_back); [apply Rq.rq_start | reflexivity]. Qed.

(** A second buffer fills the queue, and the kernel is asked to empty it. *)
Lemma refill_queue_fifo_witness :
  Rq.rq_nr_queued_ demo_back < 2 ∧
  ∃ p', Rq.add_buffer_back 4096 5 demo_back = Done tt p' ∧ Rq.rq_nr_queued_ p' = 0.
Proof.
  destruct (Rq.refill_queue_fifo demo_zcrx 1 demo_back _ demo_registered demo_back_run) as (_ & Hq & Hb).
  split; [exact Hq |]. destruct (Hb 4096 5) as (p' & E & _). exists p'. split; [exact E |].
  vm_compute in E. injection E as <-. reflexivity.
Defined.

Lemma received_buffer_roundtrip_witness :
  let c := mkBigCqe (mkCqe 0 100 0) (512 + 2 ^ 48) 0 in
  Rq.handle_finish demo_back c = Pool.mkManaged (4096 + 512) 100 true ∧
  ∃ p', Rq.reset (Rq.handle_finish demo_back c) demo_back = Done (Pool.mkManaged 0 0 false) p'.
Proof.
  intros c.
  destruct (Rq.received_buffer_roundtrip demo_zcrx 1 demo_back _ c 512 demo_registered demo_back_run) as (E & p' & Er & _);
    [exists 1; reflexivity | lia | simpl; lia | reflexivity |].
  split; [exact E |]. exists p'. exact Er.
Defined.

Lemma end_of_stream_returns_offset_zero_witness :
  let last := mkBigCqe (mkCqe 0 0 0) 0 0 in
  Rq.handle_finish demo_zcrx last = Pool.mkManaged 4096 0 true ∧
  ∃ p', Rq.reset (Rq.handle_finish demo_zcrx last) demo_zcrx = Done (Pool.mkManaged 0 0 false) p' ∧
    Rq.rqes p' !! 0 = Some (Rq.mkRqe (2 ^ 48) 0).
Proof.
  intros last. split; [reflexivity |].
  destruct (Rq.end_of_stream_returns_offset_zero demo_zcrx 1 demo_zcrx [] 0 0 10 demo_registered (Rq.rq_start _))
    as (_ & _ & p' & E & _ & _); [exists 1; reflexivity | lia |].
  exists p'. split; [exact E |]. vm_compute in E. injection E as <-. reflexivity.
Defined.

(** All calls succeed; then the mapping of the area fails. *)
Lemma construct_behaviour_witness :
  (∃ c c', Setup.construct (Some 8192) (Some 65536) 12 (inr (Setup.mkIfqResult 4 7 (2 ^ 48))) 4096 false 4 0 5000
             (Setup.new_ctx ∅ []) = Done tt c ∧
     Setup.cleanup_ c = Done tt c' ∧ Setup.mapped (Setup.proc c') = ∅) ∧
  Setup.construct None (Some 65536) 12 (inr (Setup.mkIfqResult 4 7 (2 ^ 48))) 4096 false 4 0 5000
    (Setup.new_ctx ∅ []) = Crashed AssertFailed.
Proof.
  assert (is_pow2 4096) as Hp by (exists 12; split; [lia | reflexivity]).
  split.
  - destruct (Setup.construct_behaviour (Some 8192) (Some 65536) 12 (inr (Setup.mkIfqResult 4 7 (2 ^ 48))) 4096 ∅ []
                false 4 5000) as (c & c' & asz & E & _ & _ & _ & _ & _ & Ec & Em); [| lia | lia |].
    + split; [exact Hp | lia | intros a [= <-]; done | intros b [= <-]; done | done].
    + exists c, c'. split_and!; [exact E | exact Ec | exact Em].
  - apply (Setup.construct_behaviour None (Some 65536) 12 (inr (Setup.mkIfqResult 4 7 (2 ^ 48))) 4096 ∅ [] false 4 5000);
      [| lia | lia].
    split; [exact Hp | lia | intros a [=] | intros b [= <-]; done | done].
Defined.
