(* ===== verification/KernelQueue.v ===== *)
(** * A bounded queue on kernel futexes (examples/queue-kernel-futex.cpp)

    The producer-consumer program whose semaphores and mutex sleep on kernel futexes:
    each producer is a thread, each consumer a coroutine, and every access to shared
    memory and every call into the kernel is a step of its own, so that the steps of
    all of them interleave freely.  (The consumers share one thread in the program,
    which takes fewer interleavings; awaiting a futex operation does not block it.)
    The kernel's queues of sleepers are the class [KernelFutex]. *)

From stdpp Require Import base numbers list list_numbers sets relations.
From S2P Require Import Prelude.

Set Warnings "-register-all".

(** ** The kernel *)

(** The threads and operations that sleep on one futex word, by their number. *)
Class KernelFutex (K : Type) := {
  kf_new : K;
  kf_sleepers : K → list nat;
  kf_sleep : nat → K → K;
  kf_wake : nat → K → list nat * K
}.

(** Documented behaviour: a call that finds the expected value sleeps; waking wakes as
    many sleepers as asked for, or all of them. *)
Class KernelFutexLaws (K : Type) `{KernelFutex K} := {
  kf_new_sleepers : kf_sleepers kf_new = [];
  kf_sleep_sleepers t k : kf_sleepers (kf_sleep t k) ≡ₚ t :: kf_sleepers k;
  kf_wake_sleepers n k : (kf_wake n k).1 ++ kf_sleepers (kf_wake n k).2 ≡ₚ kf_sleepers k;
  kf_wake_length n k : length (kf_wake n k).1 = (n `min` length (kf_sleepers k))%nat
}.

(** Sleepers in the order in which they came. *)
#[export] Instance fifo_futex : KernelFutex (list nat) := {
  kf_new := [];
  kf_sleepers k := k;
  kf_sleep t k := k ++ [t];
  kf_wake n k := (take n k, drop n k)
}.
#[export] Instance fifo_futex_laws : KernelFutexLaws (list nat).
Proof.
  split; simpl; [done | intros t k; by rewrite Permutation_app_comm | intros n k; by rewrite take_drop | intros n k; apply length_take].
Qed.

(** ** [FutexSemaphore] *)

Record FutexSemaphore (K : Type) := mkSem {
  count_ : Z;
  waiters_ : K
}.
Arguments mkSem {K} count_ waiters_.
Arguments count_ {K} f.
Arguments waiters_ {K} f.

(** Where a call of [acquire] or [async_acquire] is: before the load, before the
    compare-and-exchange with the loaded count, before the call into the kernel,
    asleep. *)
Inductive acquire_pc :=
  | AcqLoad
  | AcqCas (c : Z)
  | AcqWait
  | AcqSleep.

(** Where a call of [release] or [async_release] is. *)
Inductive release_pc :=
  | RelAdd
  | RelWake.

Section semaphore.
Context {K : Type} `{KernelFutex K}.
Implicit Type s : FutexSemaphore K.

Definition semaphore_new (initial_count : Z) : FutexSemaphore K := mkSem (u32 initial_count) kf_new.

(** One step of [acquire] by [tid]: the next point, or [None] when it returns; no step
    for a sleeper. *)
Definition acquire_step (tid : nat) (pc : acquire_pc) s : option (option acquire_pc * FutexSemaphore K) :=
  match pc with
  | AcqLoad => Some (Some (if 0 <? count_ s then AcqCas (count_ s) else AcqWait), s)
  | AcqCas c =>
      if count_ s =? c then Some (None, mkSem (u32 (c - 1)) (waiters_ s))
      else Some (Some AcqLoad, s)
  | AcqWait =>
      if count_ s =? 0 then Some (Some AcqSleep, mkSem (count_ s) (kf_sleep tid (waiters_ s)))
      else Some (Some AcqLoad, s)
  | AcqSleep => None
  end.

(** One step of [release(n)]: the next point and the sleepers it wakes. *)
Definition release_step (n : nat) (pc : release_pc) s : option release_pc * list nat * FutexSemaphore K :=
  match pc with
  | RelAdd => (Some RelWake, [], mkSem (u32 (count_ s + Z.of_nat n)) (waiters_ s))
  | RelWake =>
      let '(woken, k) := kf_wake n (waiters_ s) in
      (None, woken, mkSem (count_ s) k)
  end.
End semaphore.

(** ** The program *)

Inductive semaphore_name := SMutex | SEmpty | SFull.
#[export] Instance semaphore_name_eq_dec : EqDecision semaphore_name.
Proof. solve_decision. Defined.

Inductive role :=
  | Producer
  | Consumer (id : Z).

(** The points of the loop bodies of [producer] and [async_consumer]. *)
Inductive phase :=
  | PhAcquire (pc : acquire_pc)
  | PhLock (pc : acquire_pc)
  | PhAccess
  | PhUnlock (pc : release_pc)
  | PhRelease (pc : release_pc)
  | PhPrint
  | PhDone.

(** A thread or coroutine with its loop counter, its bound, and [item]. *)
Record Actor := mkActor {
  role_ : role;
  loop_i : nat;
  loop_count : nat;
  phase_ : phase;
  item_ : Z
}.

(** [State], the threads, and what has been printed. *)
Record Program (K : Type) := mkProgram {
  queue : list Z;
  queue_mutex : FutexSemaphore K;
  sem_empty : FutexSemaphore K;
  sem_full : FutexSemaphore K;
  actors : list Actor;
  output : list (Z * Z)
}.
Arguments mkProgram {K} queue queue_mutex sem_empty sem_full actors output.
Arguments queue {K} p.
Arguments queue_mutex {K} p.
Arguments sem_empty {K} p.
Arguments sem_full {K} p.
Arguments actors {K} p.
Arguments output {K} p.

(** The semaphore that the loop of an actor takes from, and the one it gives to. *)
Definition takes (r : role) : semaphore_name := match r with Producer => SEmpty | Consumer _ => SFull end.
Definition gives (r : role) : semaphore_name := match r with Producer => SFull | Consumer _ => SEmpty end.

Definition at_phase (ph : phase) (a : Actor) : Actor := mkActor (role_ a) (loop_i a) (loop_count a) ph (item_ a).

(** The head of the loop: [i < count]. *)
Definition loop_head (r : role) (i count : nat) (item : Z) : Actor :=
  mkActor r i count (if bool_decide (i < count)%nat then PhAcquire AcqLoad else PhDone) item.
Definition next_iteration (a : Actor) : Actor := loop_head (role_ a) (S (loop_i a)) (loop_count a) (item_ a).

(** A sleeper whose call into the kernel returns goes back to the load. *)
Definition wake_actor (a : Actor) : Actor :=
  match phase_ a with
  | PhAcquire AcqSleep => at_phase (PhAcquire AcqLoad) a
  | PhLock AcqSleep => at_phase (PhLock AcqLoad) a
  | _ => a
  end.
Definition wake_all (woken : list nat) (l : list Actor) : list Actor := foldr (alter wake_actor) l woken.

Section program.
Context {K : Type} `{KernelFutex K}.
Implicit Type p : Program K.

Definition sem_of (x : semaphore_name) p : FutexSemaphore K :=
  match x with SMutex => queue_mutex p | SEmpty => sem_empty p | SFull => sem_full p end.
Definition put_sem (x : semaphore_name) (s : FutexSemaphore K) p : Program K :=
  match x with
  | SMutex => mkProgram (queue p) s (sem_empty p) (sem_full p) (actors p) (output p)
  | SEmpty => mkProgram (queue p) (queue_mutex p) s (sem_full p) (actors p) (output p)
  | SFull => mkProgram (queue p) (queue_mutex p) (sem_empty p) s (actors p) (output p)
  end.
Definition put_actors (l : list Actor) p : Program K :=
  mkProgram (queue p) (queue_mutex p) (sem_empty p) (sem_full p) l (output p).
Definition put_actor (tid : nat) (a : Actor) p : Program K := put_actors (<[tid := a]> (actors p)) p.

(** The actor [tid] inside [acquire] on [x]; [wait] is the point it is at, [next] the one
    after the call.  [false]: it sleeps. *)
Definition acquire_at (tid : nat) (x : semaphore_name) (pc : acquire_pc) (wait : acquire_pc → phase) (next : phase)
    (a : Actor) : ST (Program K) bool := λ p,
  match acquire_step tid pc (sem_of x p) with
  | None => Done false p
  | Some (pc', s) =>
      Done true (put_actor tid (at_phase (match pc' with Some pc' => wait pc' | None => next end) a) (put_sem x s p))
  end.

Definition release_at (tid : nat) (x : semaphore_name) (pc : release_pc) (wait : release_pc → phase) (next : Actor)
    (a : Actor) : ST (Program K) bool := λ p,
  let '(pc', woken, s) := release_step 1 pc (sem_of x p) in
  let p := put_actor tid (match pc' with Some pc' => at_phase (wait pc') a | None => next end) (put_sem x s p) in
  Done true (put_actors (wake_all woken (actors p)) p).

(** [queue.push(i)], and [item = queue.front(); queue.pop()]: undefined when the queue is
    empty. *)
Definition access (tid : nat) (a : Actor) : ST (Program K) bool := λ p,
  match role_ a with
  | Producer =>
      Done true (put_actor tid (at_phase (PhUnlock RelAdd) a)
                   (mkProgram (queue p ++ [s32 (Z.of_nat (loop_i a))]) (queue_mutex p) (sem_empty p) (sem_full p) (actors p) (output p)))
  | Consumer _ =>
      match queue p with
      | [] => Crashed BadAccess
      | item :: q =>
          Done true (put_actor tid (mkActor (role_ a) (loop_i a) (loop_count a) (PhUnlock RelAdd) item)
                       (mkProgram q (queue_mutex p) (sem_empty p) (sem_full p) (actors p) (output p)))
      end
  end.

(** One step of the actor [tid]; [false] when it has none. *)
Definition actor_step (tid : nat) : ST (Program K) bool := λ p,
  match actors p !! tid with
  | None => Done false p
  | Some a =>
      match phase_ a with
      | PhAcquire pc => acquire_at tid (takes (role_ a)) pc PhAcquire (PhLock AcqLoad) a p
      | PhLock pc => acquire_at tid SMutex pc PhLock PhAccess a p
      | PhAccess => access tid a p
      | PhUnlock pc => release_at tid SMutex pc PhUnlock (at_phase (PhRelease RelAdd) a) a p
      | PhRelease pc =>
          release_at tid (gives (role_ a)) pc PhRelease
            (match role_ a with Producer => next_iteration a | Consumer _ => at_phase PhPrint a end) a p
      | PhPrint =>
          let id := match role_ a with Consumer id => id | Producer => 0 end in
          let p := mkProgram (queue p) (queue_mutex p) (sem_empty p) (sem_full p) (actors p) (output p ++ [(id, item_ a)]) in
          Done true (put_actor tid (next_iteration a) p)
      | PhDone => Done false p
      end
  end.

(** [main]: [None] when it refuses its arguments. *)
Definition start_program (queue_size : Z) (num_producers num_consumers : nat) (items_per_producer : nat)
    : result unit (option (Program K)) :=
  let total_items := u64 (Z.of_nat num_producers * Z.of_nat items_per_producer) in
  if bool_decide (num_consumers = 0%nat) then Crashed BadAccess
  else if negb (total_items mod Z.of_nat num_consumers =? 0) then Done None tt
  else
    let items_per_consumer := Z.to_nat (total_items / Z.of_nat num_consumers) in
    Done (Some (mkProgram [] (semaphore_new 1) (semaphore_new queue_size) (semaphore_new 0)
      (replicate num_producers (loop_head Producer 0 items_per_producer 0) ++
       map (λ i, loop_head (Consumer (s32 (Z.of_nat i))) 0 items_per_consumer 0) (seq 0 num_consumers)) [])) tt.

Inductive program_step : Program K → Program K → Prop :=
  | actor_steps tid p p' : actor_step tid p = Done true p' → program_step p p'.
End program.

(** ** The invariant *)

(** *** What each actor contributes *)

(** It owns the mutex. *)
Definition holds_mutex (a : Actor) : nat :=
  match phase_ a with PhAccess | PhUnlock RelAdd => 1 | _ => 0 end.

(** It has taken from one semaphore and not yet given to the other. *)
Definition in_flight (a : Actor) : nat :=
  match phase_ a with PhLock _ | PhAccess | PhUnlock _ | PhRelease RelAdd => 1 | _ => 0 end.

(** An item of the queue that [full] does not count. *)
Definition uncounted (a : Actor) : nat :=
  match role_ a, phase_ a with
  | Producer, (PhUnlock _ | PhRelease RelAdd) => 1
  | Consumer _, (PhLock _ | PhAccess) => 1
  | _, _ => 0
  end.

(** The accesses to the queue it will still make. *)
Definition accesses_left (a : Actor) : nat :=
  match phase_ a with
  | PhAcquire _ | PhLock _ | PhAccess => loop_count a - loop_i a
  | PhUnlock _ | PhRelease _ | PhPrint => loop_count a - S (loop_i a)
  | PhDone => 0
  end.
Definition pushes_left (a : Actor) : nat := match role_ a with Producer => accesses_left a | Consumer _ => 0 end.
Definition pops_left (a : Actor) : nat := match role_ a with Producer => 0 | Consumer _ => accesses_left a end.

(** It has added to [x] and not yet woken a sleeper; it is trying to acquire [x]; it
    sleeps on [x]. *)
Definition waking (x : semaphore_name) (a : Actor) : nat :=
  match phase_ a with
  | PhUnlock RelWake => if decide (x = SMutex) then 1 else 0
  | PhRelease RelWake => if decide (x = gives (role_ a)) then 1 else 0
  | _ => 0
  end.
Definition asleep (x : semaphore_name) (a : Actor) : bool :=
  match phase_ a with
  | PhAcquire AcqSleep => bool_decide (x = takes (role_ a))
  | PhLock AcqSleep => bool_decide (x = SMutex)
  | _ => false
  end.
Definition trying (x : semaphore_name) (a : Actor) : nat :=
  match phase_ a with
  | PhAcquire AcqSleep | PhLock AcqSleep => 0
  | PhAcquire _ => if decide (x = takes (role_ a)) then 1 else 0
  | PhLock _ => if decide (x = SMutex) then 1 else 0
  | _ => 0
  end.

(** The items it has pushed, and the popped item it has not printed. *)
Definition pushed (a : Actor) : list Z :=
  match role_ a with
  | Producer => (λ i, s32 (Z.of_nat i)) <$> seq 0 (loop_count a - pushes_left a)
  | Consumer _ => []
  end.
Definition in_hand (a : Actor) : list Z :=
  match role_ a, phase_ a with Consumer _, (PhUnlock _ | PhRelease _ | PhPrint) => [item_ a] | _, _ => [] end.

Definition actor_ok (a : Actor) : Prop :=
  (phase_ a ≠ PhDone → (loop_i a < loop_count a)%nat) ∧ (role_ a = Producer → phase_ a ≠ PhPrint) ∧
  match phase_ a with PhAcquire (AcqCas c) | PhLock (AcqCas c) => 0 < c | _ => True end.

(** *** Waking *)

Lemma wake_actor_idem a : wake_actor (wake_actor a) = wake_actor a.
Proof. destruct a as [r i n [[] | [] | | | | |] z]; done. Qed.

Lemma wake_all_lookup woken l i :
  wake_all woken l !! i = (if decide (i ∈ woken) then wake_actor else id) <$> l !! i.
Proof.
  induction woken as [|t ws IH]; simpl; [by destruct (l !! i) |].
  destruct (decide (t = i)) as [-> | Hne].
  - rewrite list_lookup_alter_eq, IH. rewrite (decide_True (P := i ∈ i :: ws)) by left.
    destruct (l !! i) as [a|]; [| done]. simpl. destruct (decide (i ∈ ws)); [by rewrite wake_actor_idem | done].
  - rewrite list_lookup_alter_ne, IH by done. by rewrite (decide_ext (i ∈ ws) (i ∈ t :: ws)) by set_solver.
Qed.

Lemma wake_all_total (f : Actor → nat) woken l :
  (∀ a, f (wake_actor a) = f a) → total f (wake_all woken l) = total f l.
Proof. intros E. induction woken as [|t ws IH]; simpl; [done |]. by rewrite total_fmap. Qed.

Lemma asleep_wake x a : asleep x (wake_actor a) = false.
Proof. by destruct a as [r i n [[] | [] | | | | |] z]. Qed.

Lemma asleep_inj x y a : asleep x a = true → asleep y a = true → x = y.
Proof. unfold asleep. destruct (phase_ a) as [[] | [] | | | | |]; try done; intros ?%bool_decide_eq_true ?%bool_decide_eq_true; congruence. Qed.

Lemma trying_wake x a : trying x (wake_actor a) = (trying x a + if asleep x a then 1 else 0)%nat.
Proof.
  destruct a as [r i n [[] | [] | | | | |] z]; unfold trying, asleep; simpl; rewrite ?bool_decide_decide;
    repeat case_decide; done.
Qed.

(** Waking sleepers of [x] makes them try again. *)
Lemma wake_all_trying x woken l :
  NoDup woken → (∀ t, t ∈ woken → ∃ a, l !! t = Some a ∧ asleep x a = true) →
  total (trying x) (wake_all woken l) = (total (trying x) l + length woken)%nat.
Proof.
  induction woken as [|t ws IH]; simpl; intros Hnd Hs; [lia |]. apply NoDup_cons in Hnd as [Ht Hnd].
  destruct (Hs t) as (a & Ha & Hsl); [left |].
  assert (wake_all ws l !! t = Some a) as Hl by (rewrite wake_all_lookup, decide_False, Ha; done).
  rewrite (alter_lookup _ _ _ _ Hl). pose proof (total_update (trying x) _ _ _ (wake_actor a) Hl) as Hu.
  rewrite trying_wake, Hsl, IH in Hu; [lia | done | set_solver].
Qed.

Lemma wake_all_trying_ne x y woken l :
  y ≠ x → NoDup woken → (∀ t, t ∈ woken → ∃ a, l !! t = Some a ∧ asleep x a = true) →
  total (trying y) (wake_all woken l) = total (trying y) l.
Proof.
  intros Hne. induction woken as [|t ws IH]; simpl; intros Hnd Hs; [done |]. apply NoDup_cons in Hnd as [Ht Hnd].
  destruct (Hs t) as (a & Ha & Hsl); [left |].
  assert (wake_all ws l !! t = Some a) as Hl by (rewrite wake_all_lookup, decide_False, Ha; done).
  rewrite (alter_lookup _ _ _ _ Hl). pose proof (total_update (trying y) _ _ _ (wake_actor a) Hl) as Hu.
  rewrite trying_wake, IH in Hu; [| done | set_solver]. destruct (asleep y a) eqn:Hy; [| lia].
  destruct Hne. by eapply asleep_inj.
Qed.

(** *** The invariant of the program *)

Section invariant.
Context {K : Type} `{KernelFutexLaws K}.
Context (slots : Z).
Implicit Types (p : Program K) (a : Actor) (x y : semaphore_name).

Abbreviation count x p := (count_ (sem_of x p)).
Abbreviation sleepers x p := (kf_sleepers (waiters_ (sem_of x p))).

Record balanced p : Prop := {
  ba_mutex : count SMutex p + Z.of_nat (total holds_mutex (actors p)) = 1;
  ba_slots : count SEmpty p + count SFull p + Z.of_nat (total in_flight (actors p)) = slots;
  ba_queue : Z.of_nat (length (queue p)) = count SFull p + Z.of_nat (total uncounted (actors p));
  ba_work : (length (queue p) + total pushes_left (actors p) = total pops_left (actors p))%nat;
  ba_items z : total (λ a, occ z (pushed a)) (actors p)
    = (occ z (output p).*2 + total (λ a, occ z (in_hand a)) (actors p) + occ z (queue p))%nat;
  ba_count x : 0 ≤ count x p;
  ba_actor tid a : actors p !! tid = Some a → actor_ok a
}.

Record slept p : Prop := {
  sl_iff x tid : tid ∈ sleepers x p ↔ ∃ a, actors p !! tid = Some a ∧ asleep x a = true;
  sl_nodup x : NoDup (sleepers x p)
}.

(** No wake-up is lost: what a sleeper could take is on its way to it, or wanted by
    somebody awake. *)
Definition attended p : Prop :=
  ∀ x, sleepers x p ≠ [] → count x p ≤ Z.of_nat (total (waking x) (actors p) + total (trying x) (actors p)).

(** One actor goes from [a] to [a'], while [p] becomes [p']. *)
Record changed tid a a' p p' : Prop := {
  ch_lookup : actors p !! tid = Some a;
  ch_actors : actors p' = <[tid := a']> (actors p);
  ch_ok : actor_ok a';
  ch_mutex : count SMutex p' + Z.of_nat (holds_mutex a') = count SMutex p + Z.of_nat (holds_mutex a);
  ch_slots : count SEmpty p' + count SFull p' + Z.of_nat (in_flight a')
    = count SEmpty p + count SFull p + Z.of_nat (in_flight a);
  ch_queue : Z.of_nat (length (queue p')) - count SFull p' - Z.of_nat (uncounted a')
    = Z.of_nat (length (queue p)) - count SFull p - Z.of_nat (uncounted a);
  ch_work : (length (queue p') + pushes_left a' + pops_left a = length (queue p) + pushes_left a + pops_left a')%nat;
  ch_items z : (occ z (pushed a') + occ z (output p).*2 + occ z (in_hand a) + occ z (queue p)
    = occ z (pushed a) + occ z (output p').*2 + occ z (in_hand a') + occ z (queue p'))%nat;
  ch_count x : 0 ≤ count x p'
}.

Lemma changed_balanced tid a a' p p' : changed tid a a' p p' → balanced p → balanced p'.
Proof.
  intros [Hl Ha Hok Hm Hs Hq Hw Hi Hc] [Bm Bs Bq Bw Bi Bc Ba].
  pose proof (λ f, total_update f (actors p) tid a a' Hl) as Hu. rewrite <- Ha in Hu.
  split; [| | | | | done |].
  - specialize (Hu holds_mutex). lia.
  - specialize (Hu in_flight). lia.
  - specialize (Hu uncounted). lia.
  - pose proof (Hu pushes_left). pose proof (Hu pops_left). lia.
  - intros z. pose proof (Hu (λ a, occ z (pushed a))). pose proof (Hu (λ a, occ z (in_hand a))).
    specialize (Hi z). specialize (Bi z). simpl in *. lia.
  - intros t b. rewrite Ha. intros [(<- & <- & _) | [_ Hb]]%list_lookup_insert_Some; eauto.
Qed.

(** Neither before nor after the step the actor sleeps, and it wakes nobody. *)
Lemma awake_slept tid a a' p p' :
  actors p !! tid = Some a → actors p' = <[tid := a']> (actors p) →
  (∀ x, waiters_ (sem_of x p') = waiters_ (sem_of x p)) → (∀ x, asleep x a = false) → (∀ x, asleep x a' = false) →
  slept p → slept p'.
Proof.
  intros Hl Ha Hw Hs Hs' [Si Sn]. split; intros x; rewrite Hw; [| done]. intros t. rewrite Si, Ha. split.
  - intros (b & Hb & Hsl). exists b. split; [| done]. destruct (decide (t = tid)) as [-> | Hne].
    + simplify_eq. by rewrite Hs in Hsl.
    + by rewrite list_lookup_insert_ne.
  - intros (b & [(-> & -> & _) | [Hne Hb]]%list_lookup_insert_Some & Hsl); [by rewrite Hs' in Hsl | eauto].
Qed.

Lemma awake_attended tid a a' p p' :
  actors p !! tid = Some a → actors p' = <[tid := a']> (actors p) →
  (∀ x, waiters_ (sem_of x p') = waiters_ (sem_of x p)) →
  (∀ x, count x p' + Z.of_nat (waking x a + trying x a) ≤ count x p + Z.of_nat (waking x a' + trying x a')) →
  attended p → attended p'.
Proof.
  intros Hl Ha Hw Hc Ht x. rewrite Hw. intros Hne. specialize (Ht x Hne). specialize (Hc x).
  pose proof (total_update (waking x) (actors p) tid a a' Hl) as H1. pose proof (total_update (trying x) (actors p) tid a a' Hl) as H2.
  rewrite <- Ha in H1, H2. lia.
Qed.

Record invariant p : Prop := {
  in_balanced : balanced p;
  in_slept : slept p;
  in_attended : attended p
}.

Lemma sem_put_eq x s p : sem_of x (put_sem x s p) = s.
Proof. by destruct x. Qed.
Lemma sem_put_ne x y s p : x ≠ y → sem_of x (put_sem y s p) = sem_of x p.
Proof. by destruct x, y. Qed.
Lemma sem_put_actors x l p : sem_of x (put_actors l p) = sem_of x p.
Proof. by destruct x. Qed.
Lemma put_sem_rest x s p : queue (put_sem x s p) = queue p ∧ actors (put_sem x s p) = actors p ∧ output (put_sem x s p) = output p.
Proof. by destruct x. Qed.
Lemma count_put x y c k p : count y (put_sem x (mkSem c k) p) = if decide (x = y) then c else count y p.
Proof. case_decide; [subst; by rewrite sem_put_eq | by rewrite sem_put_ne by congruence]. Qed.

(** *** Every step keeps it *)

Context (Hslots : slots < 2 ^ 32).

Lemma mutex_bound p tid a : balanced p → actors p !! tid = Some a → count SMutex p + Z.of_nat (holds_mutex a) ≤ 1.
Proof. intros B Ha. pose proof (ba_mutex p B). pose proof (total_ge holds_mutex _ _ _ Ha). lia. Qed.

Lemma slots_bound p tid a :
  balanced p → actors p !! tid = Some a → count SEmpty p + count SFull p + Z.of_nat (in_flight a) ≤ slots.
Proof. intros B Ha. pose proof (ba_slots p B). pose proof (total_ge in_flight _ _ _ Ha). lia. Qed.

Lemma pushed_same a a' :
  role_ a' = role_ a → loop_count a' = loop_count a → pushes_left a' = pushes_left a → pushed a' = pushed a.
Proof. unfold pushed. by intros -> -> ->. Qed.

(** A step after which the actor is awake, as it was before, and which wakes nobody. *)
Lemma awake_step tid a a' p p' :
  invariant p → changed tid a a' p p' →
  (∀ x, waiters_ (sem_of x p') = waiters_ (sem_of x p)) → (∀ x, asleep x a = false) → (∀ x, asleep x a' = false) →
  (∀ x, count x p' + Z.of_nat (waking x a + trying x a) ≤ count x p + Z.of_nat (waking x a' + trying x a')) →
  invariant p'.
Proof.
  intros [B S A] Hch Hw Hs Hs' Hc. pose proof Hch as [Hl Ha _ _ _ _ _ _ _].
  split; [by eapply changed_balanced | by eapply awake_slept | by eapply awake_attended].
Qed.

(** Where [acquire] is called from. *)
Definition acquire_site (r : role) x (wait : acquire_pc → phase) (next : phase) : Prop :=
  (x = takes r ∧ wait = PhAcquire ∧ next = PhLock AcqLoad) ∨ (x = SMutex ∧ wait = PhLock ∧ next = PhAccess).

(** The steps of [acquire] that do not touch the semaphore. *)
Lemma acquire_moves tid a x wait next pc pc' p :
  invariant p → actors p !! tid = Some a → acquire_site (role_ a) x wait next → phase_ a = wait pc →
  pc ≠ AcqSleep → pc' ≠ AcqSleep → (∀ c, pc' = AcqCas c → 0 < c) →
  invariant (put_actor tid (at_phase (wait pc') a) p).
Proof.
  intros I Ha Hsite Hph Hn Hn' Hc. pose proof (ba_actor p (in_balanced p I) _ _ Ha) as (Hlt & Hpr & _).
  destruct a as [r i n ph z]. simpl in *. subst ph.
  assert ((i < n)%nat) as Hi by (apply Hlt; by destruct Hsite as [(-> & -> & ->) | (-> & -> & ->)]).
  eapply (awake_step tid (mkActor r i n (wait pc) z) (mkActor r i n (wait pc') z)); [done | split | done | | |];
    destruct Hsite as [(-> & -> & ->) | (-> & -> & ->)]; simpl; try done.
  all: try (intros y; apply (ba_count p (in_balanced p I))).
  all: try (intros y; by destruct r).
  all: try (by destruct r).
  all: try (intros y; destruct pc, pc'; simpl; unfold trying, waking; simpl; done || lia).
  all: split_and!; simpl; [done | done | destruct pc'; eauto].
Qed.

(** The successful compare-and-exchange. *)
Lemma acquire_takes tid a x wait next p :
  invariant p → actors p !! tid = Some a → acquire_site (role_ a) x wait next → phase_ a = wait (AcqCas (count x p)) →
  invariant (put_actor tid (at_phase next a) (put_sem x (mkSem (u32 (count x p - 1)) (waiters_ (sem_of x p))) p)).
Proof.
  intros I Ha Hsite Hph. pose proof (in_balanced p I) as B. pose proof (ba_actor p B _ _ Ha) as (Hlt & Hpr & Hpos).
  pose proof (mutex_bound p tid a B Ha) as Hm. pose proof (slots_bound p tid a B Ha) as Hs.
  pose proof (ba_count p B) as Hc. pose proof (Hc SMutex). pose proof (Hc SEmpty). pose proof (Hc SFull).
  destruct a as [r i n ph z]. simpl in *. subst ph.
  assert ((i < n)%nat) as Hi by (apply Hlt; by destruct Hsite as [(-> & -> & ->) | (-> & -> & ->)]).
  assert (0 < count x p) as Hx by (by destruct Hsite as [(-> & -> & ->) | (-> & -> & ->)]).
  assert (u32 (count x p - 1) = count x p - 1) as ->.
  { apply wrap_small. destruct x; simpl in *; lia. }
  eapply (awake_step tid (mkActor r i n (wait (AcqCas (count x p))) z) (mkActor r i n next z)); [done | split | | | |].
  all: destruct p as [q [m mk] [e ek] [f fk] l out]; destruct Hsite as [(-> & -> & ->) | (-> & -> & ->)]; destruct r; simpl in *; try done.
  all: try (intros []; simpl; unfold trying, waking; simpl; done || lia).
  all: try (unfold holds_mutex, in_flight, uncounted in *; simpl in *; lia).
Qed.

(** Falling asleep, when the count is zero. *)
Lemma acquire_sleeps tid a x wait next p :
  invariant p → actors p !! tid = Some a → acquire_site (role_ a) x wait next → phase_ a = wait AcqWait → count x p = 0 →
  invariant (put_actor tid (at_phase (wait AcqSleep) a) (put_sem x (mkSem (count x p) (kf_sleep tid (waiters_ (sem_of x p)))) p)).
Proof.
  intros [B [Si Sn] A] Ha Hsite Hph Hz. pose proof (ba_actor p B _ _ Ha) as (Hlt & Hpr & _).
  set (p' := put_actor _ _ _).
  assert (actors p' = <[tid := at_phase (wait AcqSleep) a]> (actors p)) as Hact by (by destruct x).
  assert (∀ y, count y p' = count y p) as Hcnt.
  { intros y. unfold p', put_actor. rewrite sem_put_actors, count_put. case_decide; congruence. }
  assert (∀ y, asleep y a = false) as Hna.
  { intros y. unfold asleep. rewrite Hph. by destruct Hsite as [(-> & -> & ->) | (-> & -> & ->)]. }
  assert (∀ y, asleep y (at_phase (wait AcqSleep) a) = bool_decide (y = x)) as Has.
  { intros y. by destruct Hsite as [(-> & -> & ->) | (-> & -> & ->)]. }
  assert (tid ∉ sleepers x p) as Hnt by (intros (b & Hb & Hs)%Si; simplify_eq; by rewrite Hna in Hs).
  assert (∀ y, sleepers y p' ≡ₚ (if decide (y = x) then [tid] else []) ++ sleepers y p) as Hsl.
  { intros y. unfold p', put_actor. rewrite sem_put_actors. case_decide; subst.
    - rewrite sem_put_eq. apply kf_sleep_sleepers.
    - by rewrite sem_put_ne. }
  split.
  - eapply (changed_balanced tid a (at_phase (wait AcqSleep) a) p); [| done].
    split; try done; rewrite ?Hcnt; [| | | | | | intros y; rewrite Hcnt; apply (ba_count p B)].
    all: destruct a as [r i n ph z]; simpl in *; subst ph.
    all: unfold p'; destruct x; destruct Hsite as [(Hx & -> & ->) | (Hx & -> & ->)]; destruct r; try done.
    all: split_and!; simpl; [intros _; by apply Hlt | done | done].
  - split.
    + intros y t. rewrite Hsl, elem_of_app, Si, Hact. split.
      * intros [Ht | (b & Hb & Hs)].
        -- case_decide; [| set_solver]. apply list_elem_of_singleton in Ht as ->. eexists.
           split; [apply list_lookup_insert_eq; by eapply lookup_lt_Some |]. rewrite Has. by apply bool_decide_eq_true.
        -- exists b. split; [| done]. rewrite list_lookup_insert_ne; [done |]. intros ->. simplify_eq. by rewrite Hna in Hs.
      * intros (b & [(<- & <- & _) | [Hne Hb]]%list_lookup_insert_Some & Hs); [| right; eauto].
        rewrite Has in Hs. apply bool_decide_eq_true in Hs as ->. left. rewrite decide_True by done. left.
    + intros y. rewrite Hsl. case_decide; [subst; simpl; apply NoDup_cons; split; [done | apply Sn] | apply Sn].
  - intros y Hy. rewrite Hcnt, Hact. destruct (decide (y = x)) as [-> | Hne]; [lia |].
    assert (sleepers y p ≠ []) as Hy'.
    { intros E. apply Hy. specialize (Hsl y). rewrite decide_False, E in Hsl by done. by apply Permutation_nil_r in Hsl. }
    specialize (A y Hy'). pose proof (total_update (waking y) _ _ _ (at_phase (wait AcqSleep) a) Ha) as H1.
    pose proof (total_update (trying y) _ _ _ (at_phase (wait AcqSleep) a) Ha) as H2.
    assert (trying y a = 0%nat ∧ waking y a = 0%nat) as [Z1 Z2].
    { unfold trying, waking. rewrite Hph. destruct Hsite as [(-> & -> & ->) | (-> & -> & ->)]; by rewrite ?decide_False. }
    lia.
Qed.

Lemma acquire_keeps tid a x pc wait next b p p' :
  invariant p → actors p !! tid = Some a → acquire_site (role_ a) x wait next → phase_ a = wait pc →
  acquire_at tid x pc wait next a p = Done b p' → invariant p'.
Proof.
  intros I Ha Hsite Hph. unfold acquire_at.
  assert (put_sem x (sem_of x p) p = p) as Hid by (destruct p, x; done).
  destruct pc as [| c | |]; cbn [acquire_step].
  - intros [= <- <-]. rewrite Hid. eapply (acquire_moves _ _ x _ next AcqLoad); try done; [by destruct (0 <? count x p) |].
    intros c. destruct (Z.ltb_spec 0 (count x p)); [by intros [= <-] | done].
  - destruct (Z.eqb_spec (count x p) c) as [<- | Hne]; intros [= <- <-].
    + by eapply acquire_takes.
    + rewrite Hid. by eapply (acquire_moves _ _ x _ next (AcqCas c)).
  - destruct (Z.eqb_spec (count x p) 0) as [Hz | Hne]; intros [= <- <-].
    + by eapply acquire_sleeps.
    + rewrite Hid. by eapply (acquire_moves _ _ x _ next AcqWait).
  - intros [= <- <-]. done.
Qed.

(** Where [release] is called from, and the actor after it. *)
Definition release_site a x (wait : release_pc → phase) a' : Prop :=
  (x = SMutex ∧ wait = PhUnlock ∧ a' = at_phase (PhRelease RelAdd) a) ∨
  (x = gives (role_ a) ∧ wait = PhRelease ∧
   a' = match role_ a with Producer => next_iteration a | Consumer _ => at_phase PhPrint a end).

Lemma release_adds tid a x wait a' p :
  invariant p → actors p !! tid = Some a → release_site a x wait a' → phase_ a = wait RelAdd →
  invariant (put_actor tid (at_phase (wait RelWake) a) (put_sem x (mkSem (u32 (count x p + 1)) (waiters_ (sem_of x p))) p)).
Proof.
  intros I Ha Hsite Hph. pose proof (in_balanced p I) as B. pose proof (ba_actor p B _ _ Ha) as (Hlt & Hpr & _).
  pose proof (mutex_bound p tid a B Ha) as Hm. pose proof (slots_bound p tid a B Ha) as Hs.
  pose proof (ba_count p B) as Hc. pose proof (Hc SMutex). pose proof (Hc SEmpty). pose proof (Hc SFull).
  destruct a as [r i n ph z]. simpl in *. subst ph.
  assert ((i < n)%nat) as Hi by (apply Hlt; by destruct Hsite as [(-> & -> & ->) | (-> & -> & ->)]).
  assert (u32 (count x p + 1) = count x p + 1) as ->.
  { apply wrap_small. destruct Hsite as [(-> & -> & ->) | (-> & -> & ->)]; [| destruct r];
      unfold holds_mutex, in_flight in *; simpl in *; lia. }
  eapply (awake_step tid (mkActor r i n (wait RelAdd) z) (mkActor r i n (wait RelWake) z)); [done | split | | | |].
  all: destruct p as [q [m mk] [e ek] [f fk] l out]; destruct Hsite as [(-> & -> & ->) | (-> & -> & ->)]; destruct r;
    simpl in *; try done.
  all: try (intros []; simpl; unfold trying, waking; simpl; done || lia).
  all: try (unfold holds_mutex, in_flight, uncounted in *; simpl in *; lia).
Qed.

Lemma actor_ok_wake a : actor_ok a → actor_ok (wake_actor a).
Proof. destruct a as [r i n [[] | [] | | | | |] z]; unfold actor_ok; simpl; naive_solver. Qed.

(** The sleepers [woken] of [x] go on. *)
Definition woken_up x woken (k : K) p : Program K :=
  put_actors (wake_all woken (actors p)) (put_sem x (mkSem (count x p) k) p).

Lemma woken_count x y woken k p : count y (woken_up x woken k p) = count y p.
Proof. unfold woken_up. rewrite sem_put_actors, count_put. case_decide; by subst. Qed.

Lemma woken_balanced x woken k p : balanced p → balanced (woken_up x woken k p).
Proof.
  intros [Bm Bs Bq Bw Bi Bc Ba]. destruct (put_sem_rest x (mkSem (count x p) k) p) as (E1 & E2 & E3).
  assert (∀ f, (∀ a, f (wake_actor a) = f a) → total f (actors (woken_up x woken k p)) = total f (actors p)) as Ht.
  { intros f Hf. by apply wake_all_total. }
  assert (queue (woken_up x woken k p) = queue p) as Hq by exact E1.
  assert (output (woken_up x woken k p) = output p) as Ho by exact E3.
  split; rewrite ?Hq, ?Ho, ?woken_count, ?Ht;
    try (intros b; by destruct b as [r i n [[] | [] | | | | |] z]); try done.
  - intros z. rewrite !Ht; [apply Bi | |]; intros b; by destruct b as [[] i n [[] | [] | | | | |] v].
  - intros y. rewrite woken_count. apply Bc.
  - intros t b Hb. simpl in Hb. rewrite wake_all_lookup in Hb. apply fmap_Some in Hb as (c & Hc & ->).
    case_decide; [apply actor_ok_wake |]; by eapply Ba.
Qed.

Lemma woken_slept x woken k p :
  slept p → woken ++ kf_sleepers k ≡ₚ sleepers x p → slept (woken_up x woken k p).
Proof.
  intros [Si Sn] Hp. pose proof (Sn x) as Hnd. rewrite <- Hp in Hnd. apply NoDup_app in Hnd as (Hnw & Hdis & Hnk).
  assert (∀ y, sleepers y (woken_up x woken k p) = if decide (y = x) then kf_sleepers k else sleepers y p) as Hs.
  { intros y. unfold woken_up. rewrite sem_put_actors. case_decide; [subst; by rewrite sem_put_eq | by rewrite sem_put_ne]. }
  assert (∀ t, t ∈ woken → ∃ b, actors p !! t = Some b ∧ asleep x b = true) as Hw.
  { intros t Ht. apply Si. rewrite <- Hp. set_solver. }
  split.
  - intros y t. rewrite Hs. change (actors (woken_up x woken k p)) with (wake_all woken (actors p)). rewrite wake_all_lookup.
    assert ((∃ b, ((if decide (t ∈ woken) then wake_actor else id) <$> actors p !! t) = Some b ∧ asleep y b = true) ↔
            ((t ∉ woken) ∧ (∃ b, actors p !! t = Some b ∧ asleep y b = true))) as ->.
    { destruct (decide (t ∈ woken)) as [Ht | Ht].
      - split; [| naive_solver]. intros (b & (c & _ & ->)%fmap_Some & Hb). by rewrite asleep_wake in Hb.
      - rewrite option_fmap_id. naive_solver. }
    rewrite <- Si. destruct (decide (y = x)) as [-> | Hne].
    + rewrite <- Hp, elem_of_app. split; [intros Ht; split; [by intros ?%Hdis | by right] | tauto].
    + split; [| tauto]. intros Ht. split; [| done]. intros Htw. apply Si in Ht as (b & Hb & Hby).
      destruct (Hw t Htw) as (c & Hc & Hcx). simplify_eq. by eapply Hne, asleep_inj.
  - intros y. rewrite Hs. case_decide; [done | apply Sn].
Qed.

(** [futex_wake] after the addition. *)
Lemma release_wakes tid a x wait a' p :
  invariant p → actors p !! tid = Some a → release_site a x wait a' → phase_ a = wait RelWake →
  let '(woken, k) := kf_wake 1 (waiters_ (sem_of x p)) in
  invariant (woken_up x woken k (put_actor tid a' p)).
Proof.
  intros [B Sl A] Ha Hsite Hph. pose proof (ba_actor p B _ _ Ha) as (Hlt & Hpr & _).
  pose proof (kf_wake_sleepers 1 (waiters_ (sem_of x p))) as Hp. pose proof (kf_wake_length 1 (waiters_ (sem_of x p))) as Hl.
  destruct (kf_wake 1 (waiters_ (sem_of x p))) as [woken k]. simpl in Hp, Hl.
  assert (changed tid a a' p (put_actor tid a' p) ∧ (∀ y, asleep y a = false) ∧ (∀ y, asleep y a' = false) ∧ waking x a = 1%nat ∧
    (∀ y, y ≠ x → waking y a = 0%nat) ∧ (∀ y, trying y a = 0%nat)) as (Hch & Hs & Hs' & Hwk & Hwn & Htr).
  { destruct a as [r i n ph z]. simpl in *. subst ph.
    assert ((i < n)%nat) as Hi by (apply Hlt; by destruct Hsite as [(-> & -> & ->) | (-> & -> & ->)]).
    destruct Hsite as [(-> & -> & ->) | (-> & -> & ->)]; destruct r; unfold next_iteration, loop_head in *; simpl in *;
      try (destruct (decide (S i < n)%nat); [rewrite bool_decide_eq_true_2 in * by done | rewrite bool_decide_eq_false_2 in * by done]).
    all: split_and!; [split | | | | |]; simpl; try done.
    all: try (intros y; apply (ba_count p B)).
    all: try (unfold pushes_left, pops_left, accesses_left; simpl; lia).
    all: try (intros y Hy; unfold waking; simpl; by rewrite decide_False).
    all: try (split_and!; simpl; naive_solver lia).
    all: intros y; rewrite (pushed_same (mkActor Producer i n (PhRelease RelWake) z)); simpl; try done.
    all: unfold pushes_left, accesses_left; simpl; lia. }
  set (p1 := put_actor tid a' p) in *. pose proof (changed_balanced _ _ _ _ _ Hch B) as B1.
  assert (slept p1) as S1 by (eapply (awake_slept tid a a' p); done).
  assert (woken ++ kf_sleepers k ≡ₚ sleepers x p1) as Hp1 by exact Hp.
  split; [by apply woken_balanced | by apply woken_slept |].
  intros y Hy. rewrite woken_count. change (actors (woken_up x woken k p1)) with (wake_all woken (actors p1)).
  assert (total (waking y) (wake_all woken (actors p1)) = total (waking y) (actors p1)) as ->.
  { apply wake_all_total. intros b. by destruct b as [r i n [[] | [] | | | | |] z]. }
  pose proof (total_update (waking y) _ _ _ a' Ha) as U1. pose proof (total_update (trying y) _ _ _ a' Ha) as U2.
  change (<[tid := a']> (actors p)) with (actors p1) in U1, U2. rewrite Htr in U2.
  assert (∀ t, t ∈ woken → ∃ b, actors p1 !! t = Some b ∧ asleep x b = true) as Hw.
  { intros t Ht. apply (sl_iff _ S1). rewrite <- Hp1. set_solver. }
  assert (NoDup woken) as Hnw.
  { pose proof (sl_nodup _ S1 x) as Hnd. rewrite <- Hp1 in Hnd. by apply NoDup_app in Hnd as (? & _). }
  unfold woken_up in Hy. rewrite sem_put_actors in Hy. change (count y p1) with (count y p).
  destruct (decide (y = x)) as [-> | Hne].
  - rewrite sem_put_eq in Hy. simpl in Hy. rewrite (wake_all_trying x woken (actors p1)) by done.
    assert (length woken = 1%nat ∧ sleepers x p ≠ []) as [Hlw Hne].
    { pose proof (Permutation_length Hp) as HL. rewrite length_app in HL. destruct (kf_sleepers k); [done |]. simpl in HL.
      destruct (sleepers x p); simpl in *; [lia | done]. }
    specialize (A x Hne). lia.
  - rewrite sem_put_ne in Hy by done. specialize (A y Hy).
    assert (total (trying y) (wake_all woken (actors p1)) = total (trying y) (actors p1)) as ->.
    { by eapply wake_all_trying_ne. }
    rewrite (Hwn y Hne) in U1. lia.
Qed.

Lemma access_keeps tid a p :
  invariant p → actors p !! tid = Some a → phase_ a = PhAccess →
  ∃ p', access tid a p = Done true p' ∧ invariant p'.
Proof.
  intros I Ha Hph. pose proof (in_balanced p I) as B. pose proof (ba_actor p B _ _ Ha) as (Hlt & _ & _).
  pose proof (ba_queue p B) as Hq. pose proof (total_ge uncounted _ _ _ Ha) as Hu. pose proof (ba_count p B SFull) as Hf.
  destruct a as [r i n ph z]. simpl in *. subst ph. unfold access. simpl. specialize (Hlt ltac:(done)). destruct r as [| id].
  - eexists. split; [done |]. eapply awake_step; [exact I | split; [exact Ha | reflexivity | ..] | ..]; simpl; try done.
    + rewrite length_app. unfold uncounted. simpl. lia.
    + rewrite length_app. unfold pushes_left, pops_left, accesses_left. simpl. lia.
    + intros y. unfold pushed, pushes_left, accesses_left. simpl. rewrite occ_app.
      replace (n - (n - i))%nat with i by lia. replace (n - (n - S i))%nat with (S i) by lia.
      rewrite seq_S, fmap_app, occ_app. simpl. lia.
    + intros y. apply (ba_count p B).
  - destruct (queue p) as [|item q] eqn:Eq; [unfold uncounted at 1 in Hu; simpl in *; lia |].
    eexists. split; [done |]. eapply awake_step; [exact I | split; [exact Ha | reflexivity | ..] | ..]; simpl; try done.
    + rewrite Eq. unfold uncounted. simpl. lia.
    + rewrite Eq. unfold pushes_left, pops_left, accesses_left. simpl. lia.
    + intros y. rewrite Eq. change (item :: q) with ([item] ++ q). rewrite occ_app. unfold in_hand. simpl. lia.
    + intros y. apply (ba_count p B).
Qed.

Lemma print_keeps tid a p id :
  invariant p → actors p !! tid = Some a → phase_ a = PhPrint → role_ a = Consumer id →
  invariant (put_actor tid (next_iteration a)
    (mkProgram (queue p) (queue_mutex p) (sem_empty p) (sem_full p) (actors p) (output p ++ [(id, item_ a)]))).
Proof.
  intros I Ha Hph Hr. pose proof (in_balanced p I) as B. pose proof (ba_actor p B _ _ Ha) as (Hlt & _ & _).
  destruct a as [r i n ph z]. simpl in *. subst ph r. specialize (Hlt ltac:(done)).
  unfold next_iteration, loop_head. simpl.
  destruct (decide (S i < n)%nat) as [Hi | Hi]; [rewrite bool_decide_eq_true_2 by done | rewrite bool_decide_eq_false_2 by done].
  all: eapply awake_step; [exact I | split; [exact Ha | reflexivity | ..] | ..]; simpl; try done.
  all: try (unfold pushes_left, pops_left, accesses_left; simpl; lia).
  all: try (intros y; apply (ba_count p B)).
  all: try (intros y; rewrite fmap_app, occ_app; unfold in_hand; simpl; lia).
  all: intros []; unfold waking, trying; simpl; lia.
Qed.

(** Each step of each actor. *)
Lemma actor_step_keeps tid p : invariant p → ∃ b p', actor_step tid p = Done b p' ∧ invariant p'.
Proof.
  intros I. unfold actor_step. destruct (actors p !! tid) as [a|] eqn:Ha; [| eauto].
  assert (∀ x pc wait a', release_site a x wait a' → phase_ a = wait pc →
    ∃ b p', release_at tid x pc wait a' a p = Done b p' ∧ invariant p') as Hrel.
  { intros x pc wait a' Hsite Hph. unfold release_at. destruct pc; simpl.
    - eexists _, _. split; [done |]. pose proof (release_adds _ _ _ _ _ _ I Ha Hsite Hph) as Hi. by destruct x.
    - pose proof (release_wakes _ _ _ _ _ _ I Ha Hsite Hph) as Hi. destruct (kf_wake 1 _) as [woken k].
      eexists _, _. split; [done |]. by destruct x. }
  assert (∀ x pc wait next, acquire_site (role_ a) x wait next → phase_ a = wait pc →
    ∃ b p', acquire_at tid x pc wait next a p = Done b p' ∧ invariant p') as Hacq.
  { intros x pc wait next Hsite Hph. destruct (acquire_at tid x pc wait next a p) as [b p' | |] eqn:E.
    - exists b, p'. split; [done |]. by eapply acquire_keeps.
    - unfold acquire_at in E. by destruct (acquire_step _ _ _) as [[]|].
    - unfold acquire_at in E. by destruct (acquire_step _ _ _) as [[]|]. }
  destruct (phase_ a) as [pc | pc | | pc | pc | |] eqn:Hph.
  - apply Hacq; [by left | done].
  - apply Hacq; [by right | done].
  - destruct (access_keeps _ _ _ I Ha Hph) as (p' & E & Hi). eauto.
  - apply Hrel; [by left | done].
  - apply Hrel; [by right | done].
  - pose proof (ba_actor p (in_balanced p I) _ _ Ha) as (_ & Hpr & _).
    destruct (role_ a) as [| id] eqn:Hr; [by destruct Hpr |].
    eexists _, _. split; [done |]. by apply print_keeps.
  - eauto.
Qed.

Lemma reachable_invariant p p' : invariant p → rtc program_step p p' → invariant p'.
Proof.
  intros I. induction 1 as [|p1 p2 p3 [tid q1 q2 E] _ IH]; [done |]. apply IH.
  destruct (actor_step_keeps tid q1 I) as (b & q & E' & Hi). assert (q = q2) as <- by congruence. done.
Qed.

(** An actor without a step has ended or sleeps. *)
Lemma stuck_actor tid a p :
  actors p !! tid = Some a → (∀ p', actor_step tid p ≠ Done true p') → invariant p →
  phase_ a = PhDone ∨ phase_ a = PhAcquire AcqSleep ∨ phase_ a = PhLock AcqSleep.
Proof.
  intros Ha Hst I. destruct (actor_step_keeps tid p I) as (b & p' & E & _). specialize (Hst p').
  destruct b; [done |]. unfold actor_step in E. rewrite Ha in E. unfold acquire_at, release_at in E.
  destruct (phase_ a) as [pc | pc | | pc | pc | |] eqn:Hph; try done; try (by destruct (release_step _ _ _) as [[]]); try by left.
  - destruct pc as [| c | |]; simpl in E; try done; [by destruct (_ =? _) .. | by right; left].
  - destruct pc as [| c | |]; simpl in E; try done; [by destruct (_ =? _) .. | by right; right].
  - destruct (access_keeps tid a p I Ha) as (p2 & E2 & _); [done |]. congruence.
Qed.

(** When no actor has a step, all have ended. *)
Lemma stuck_done p :
  0 < slots → invariant p → (∀ tid p', actor_step tid p ≠ Done true p') →
  ∀ tid a, actors p !! tid = Some a → phase_ a = PhDone.
Proof.
  intros Hpos I Hst. pose proof I as [[Bm Bs Bq Bw _ Bc Ba] [Si _] At].
  assert (∀ tid a, actors p !! tid = Some a → phase_ a = PhDone ∨ phase_ a = PhAcquire AcqSleep ∨ phase_ a = PhLock AcqSleep) as Hph.
  { intros tid a Ha. by eapply stuck_actor. }
  assert (∀ tid a x, actors p !! tid = Some a → asleep x a = true → count x p = 0) as Hzero.
  { intros tid a x Ha Has. assert (sleepers x p ≠ []) as Hne.
    { intros E. apply (not_elem_of_nil (A := nat) tid). rewrite <- E. apply Si. eauto. }
    specialize (At x Hne). rewrite !total_zero in At; [specialize (Bc x); lia | |]; intros j b Hb; unfold trying, waking;
      by destruct (Hph _ _ Hb) as [-> | [-> | ->]]. }
  assert (count SMutex p = 1) as Hm.
  { rewrite total_zero in Bm; [lia |]. intros j b Hb. unfold holds_mutex. by destruct (Hph _ _ Hb) as [-> | [-> | ->]]. }
  assert (∀ tid a, actors p !! tid = Some a → phase_ a = PhDone ∨ phase_ a = PhAcquire AcqSleep) as Hph'.
  { intros tid a Ha. destruct (Hph _ _ Ha) as [? | [? | Hl]]; [auto.. |].
    assert (count SMutex p = 0) by (apply (Hzero tid a SMutex Ha); unfold asleep; by rewrite Hl). lia. }
  assert (total in_flight (actors p) = 0%nat) as Hin.
  { apply total_zero. intros j b Hb. unfold in_flight. by destruct (Hph' _ _ Hb) as [-> | ->]. }
  assert (total uncounted (actors p) = 0%nat) as Hun.
  { apply total_zero. intros j b Hb. unfold uncounted. by destruct (role_ b), (Hph' _ _ Hb) as [-> | ->]. }
  rewrite Hin in Bs. rewrite Hun in Bq.
  assert (∀ r tid a, actors p !! tid = Some a → role_ a = r → count (takes r) p ≠ 0 → phase_ a = PhDone) as Hd.
  { intros r tid a Ha <- Hc. destruct (Hph' _ _ Ha) as [? | Hs]; [done |]. destruct Hc. apply (Hzero tid a _ Ha).
    unfold asleep. rewrite Hs. by apply bool_decide_eq_true. }
  pose proof (Bc SEmpty). pose proof (Bc SFull). intros tid a Ha.
  destruct (decide (count SFull p = 0)) as [Hf0 | Hf].
  - assert (total pushes_left (actors p) = 0%nat) as Hp0.
    { apply total_zero. intros j b Hb. unfold pushes_left, accesses_left. destruct (role_ b) eqn:Hr; [| done].
      by rewrite (Hd _ _ _ Hb Hr) by (simpl in *; lia). }
    pose proof (total_ge pops_left _ _ _ Ha) as Hge. destruct (role_ a) as [| id] eqn:Hr; [apply (Hd _ _ _ Ha Hr); simpl in *; lia |].
    destruct (Hph' _ _ Ha) as [? | Hs]; [done |]. exfalso. unfold pops_left at 1, accesses_left in Hge. rewrite Hr, Hs in Hge.
    destruct (Ba _ _ Ha) as (Hlt & _). rewrite Hs in Hlt. specialize (Hlt ltac:(done)). lia.
  - exfalso. assert (total pops_left (actors p) = 0%nat) as Hp0.
    { apply total_zero. intros j b Hb. unfold pops_left, accesses_left. destruct (role_ b) as [| id] eqn:Hr; [done |].
      by rewrite (Hd _ _ _ Hb Hr) by (simpl in *; lia). }
    simpl in *. lia.
Qed.

(** Two actors in the critical section are one. *)
Lemma one_holder p t1 t2 a1 a2 :
  balanced p → actors p !! t1 = Some a1 → actors p !! t2 = Some a2 →
  holds_mutex a1 = 1%nat → holds_mutex a2 = 1%nat → t1 = t2.
Proof.
  intros B H1 H2 E1 E2. destruct (decide (t1 = t2)) as [| Hne]; [done | exfalso].
  pose proof (total_update holds_mutex (actors p) t1 a1 (at_phase PhDone a1) H1) as Hu.
  assert (<[t1 := at_phase PhDone a1]> (actors p) !! t2 = Some a2) as H2' by (by rewrite list_lookup_insert_ne).
  pose proof (total_ge holds_mutex _ _ _ H2') as Hge. pose proof (ba_mutex p B). pose proof (ba_count p B SMutex).
  assert (holds_mutex (at_phase PhDone a1) = 0%nat) by done. lia.
Qed.

End invariant.

(** ** The program is safe and ends *)

Section runs.
Context {K : Type} `{KernelFutexLaws K}.
Implicit Type p : Program K.

(** What [main] checks, and the options with which it works. *)
Record options_ok (queue_size : Z) (np nc n : nat) : Prop := {
  opt_size : 0 < queue_size < 2 ^ 32;
  opt_total : Z.of_nat np * Z.of_nat n < 2 ^ 64
}.

Lemma start_invariant queue_size np nc n p :
  options_ok queue_size np nc n → start_program queue_size np nc n = Done (Some p) tt → invariant queue_size p.
Proof.
  intros [Hq Ht]. unfold start_program. rewrite (wrap_small 64) by lia.
  destruct (bool_decide (nc = 0%nat)) eqn:Hc; [done |]. bool_to_prop.
  destruct (_ =? 0) eqn:Hm; [| done]. bool_to_prop. intros [= <-]. cbv zeta.
  set (ic := Z.to_nat (Z.of_nat np * Z.of_nat n / Z.of_nat nc)).
  assert ((np * n = nc * ic)%nat) as Hic.
  { unfold ic. apply Z.div_exact in Hm; [| lia]. pose proof (Z.div_pos (Z.of_nat np * Z.of_nat n) (Z.of_nat nc)). nia. }
  assert (∀ f, (∀ r i m z, f (mkActor r i m (PhAcquire AcqLoad) z) = 0%nat ∧ f (mkActor r i m PhDone z) = 0%nat) →
    ∀ r m, f (loop_head r 0 m 0) = 0%nat) as Hhead.
  { intros f Hf r m. unfold loop_head. case_bool_decide; apply Hf. }
  split.
  - split; simpl; rewrite ?sum_list_with_app, ?total_replicate.
    + rewrite (total_map _ _ _ 0), Hhead; [rewrite !wrap_small; lia | done | intros x; by apply Hhead].
    + rewrite (total_map _ _ _ 0), Hhead; [rewrite !wrap_small; lia | done | intros x; by apply Hhead].
    + rewrite (total_map _ _ _ 0), Hhead; [rewrite wrap_small; lia | intros [] ? ? ?; done | intros x; apply Hhead; intros [] ? ? ?; done].
    + rewrite (total_map pushes_left _ _ 0), (total_map pops_left _ _ ic), length_seq;
        [| intros x; unfold loop_head; case_bool_decide; unfold pushes_left, pops_left, accesses_left; simpl; lia..].
      unfold loop_head. case_bool_decide; unfold pushes_left, pops_left, accesses_left; simpl; nia.
    + intros z. rewrite !sum_list_with_app, !total_replicate.
      rewrite (total_map (λ a, occ z (pushed a)) _ _ 0), (total_map (λ a, occ z (in_hand a)) _ _ 0);
        [| intros x; unfold loop_head; by case_bool_decide..].
      unfold loop_head. case_bool_decide; unfold pushed, pushes_left, accesses_left; simpl; [| replace n with 0%nat by lia; simpl; lia].
      rewrite Nat.sub_0_r, Nat.sub_diag. simpl. lia.
    + intros []; simpl; rewrite wrap_small; lia.
    + intros tid a Ha. assert (∃ r m, a = loop_head r 0 m 0) as (r & m & ->).
      { apply list_elem_of_lookup_2 in Ha. apply elem_of_app in Ha as [Ha | Ha].
        - apply elem_of_replicate in Ha as [-> _]. eauto.
        - apply list_elem_of_fmap in Ha as (x & -> & _). eauto. }
      unfold loop_head. by case_bool_decide; split_and!; simpl.
  - split; simpl.
    + intros x tid. split.
      * intros Hin. exfalso. destruct x; simpl in Hin; rewrite kf_new_sleepers in Hin; by apply not_elem_of_nil in Hin.
      * intros (a & Ha & Hs). exfalso. apply list_elem_of_lookup_2 in Ha. apply elem_of_app in Ha as [Ha | Ha].
        -- apply elem_of_replicate in Ha as [-> _]. unfold loop_head, asleep in Hs. by case_bool_decide.
        -- apply list_elem_of_fmap in Ha as (y & -> & _). unfold loop_head, asleep in Hs. by case_bool_decide.
    + intros []; simpl; rewrite kf_new_sleepers; constructor.
  - intros []; simpl; by rewrite kf_new_sleepers.
Qed.

(** What no step changes of an actor. *)
Definition fixed_part (a : Actor) : role * nat := (role_ a, loop_count a).

Lemma fixed_insert (l : list Actor) tid a a' : l !! tid = Some a → fixed_part a' = fixed_part a → fixed_part <$> <[tid := a']> l = fixed_part <$> l.
Proof. intros Ha E. rewrite list_fmap_insert, E. apply list_insert_id. by rewrite list_lookup_fmap, Ha. Qed.

Lemma fixed_wake woken l : fixed_part <$> wake_all woken l = fixed_part <$> l.
Proof.
  induction woken as [|t ws IH]; simpl; [done |]. rewrite <- IH.
  destruct (wake_all ws l !! t) as [a|] eqn:Ha.
  - rewrite (alter_lookup _ _ _ _ Ha). apply (fixed_insert _ _ a); [done |]. by destruct a as [r i n [[] | [] | | | | |] z].
  - apply list_eq. intros i. rewrite !list_lookup_fmap. destruct (decide (i = t)) as [-> | Hne].
    + by rewrite list_lookup_alter_eq, Ha.
    + by rewrite list_lookup_alter_ne.
Qed.

Lemma fixed_step tid p b p' : actor_step tid p = Done b p' → fixed_part <$> actors p' = fixed_part <$> actors p.
Proof.
  unfold actor_step. destruct (actors p !! tid) as [a|] eqn:Ha; [| by intros [= _ <-]].
  assert (∀ x s, actors (put_sem x s p) = actors p) as Hs by (by intros []).
  assert (∀ x pc w n, acquire_at tid x pc w n a p = Done b p' → fixed_part <$> actors p' = fixed_part <$> actors p) as Hacq.
  { intros x pc w n. unfold acquire_at. destruct (acquire_step tid pc (sem_of x p)) as [[pc' s]|]; intros [= _ <-]; [| done].
    simpl. rewrite Hs. by apply (fixed_insert _ _ a). }
  assert (∀ x pc w a', fixed_part a' = fixed_part a → release_at tid x pc w a' a p = Done b p' →
    fixed_part <$> actors p' = fixed_part <$> actors p) as Hrel.
  { intros x pc w a' Ha'. unfold release_at. destruct (release_step 1 pc (sem_of x p)) as [[pc' woken] s]. intros [= _ <-].
    simpl. rewrite fixed_wake, Hs. apply (fixed_insert _ _ a); [done |]. by destruct pc'. }
  destruct (phase_ a) as [pc | pc | | pc | pc | |]; [eauto | eauto | | | | | by intros [= _ <-]].
  - unfold access. destruct (role_ a) eqn:Hr; [| destruct (queue p); [done |]]; intros [= _ <-]; simpl;
      apply (fixed_insert _ _ a); try done. unfold fixed_part. simpl. by rewrite Hr.
  - by apply Hrel.
  - apply Hrel. destruct (role_ a) eqn:Hr; [| done]. unfold fixed_part, next_iteration. simpl. done.
  - intros [= _ <-]. simpl. by apply (fixed_insert _ _ a).
Qed.

Lemma fixed_steps p p' : rtc program_step p p' → fixed_part <$> actors p' = fixed_part <$> actors p.
Proof. induction 1 as [|p1 p2 p3 [tid q1 q2 E] _ IH]; [done |]. rewrite IH. by eapply fixed_step. Qed.

(** The search for an actor with a step. *)
Lemma can_go p : (∃ tid p', actor_step tid p = Done true p') ∨ (∀ tid p', actor_step tid p ≠ Done true p').
Proof.
  set (go := λ tid, match actor_step tid p with Done true _ => true | _ => false end).
  destruct (existsb go (seq 0 (length (actors p)))) eqn:E.
  - left. apply existsb_exists in E as (tid & _ & Hgo). unfold go in Hgo.
    destruct (actor_step tid p) as [[] p' | |] eqn:Es; try done. eauto.
  - right. intros tid p' Es. destruct (decide (tid < length (actors p))%nat) as [Hlt | Hge].
    + apply (Bool.eq_true_false_abs _) with (2 := E). apply existsb_exists. exists tid. split; [by apply in_seq; lia |].
      unfold go. by rewrite Es.
    + unfold actor_step in Es. by rewrite lookup_ge_None_2 in Es by lia.
Qed.

(** What the producers will make. *)
Lemma start_items queue_size np nc n p z :
  start_program queue_size np nc n = Done (Some p) tt →
  sum_list_with (λ s : role * nat, match s.1 with Producer => occ z ((λ i, s32 (Z.of_nat i)) <$> seq 0 s.2) | _ => 0%nat end)
    (fixed_part <$> actors p)
  = count_occ Z.eq_dec (concat (replicate np ((λ i, s32 (Z.of_nat i)) <$> seq 0 n))) z.
Proof.
  unfold start_program. destruct (bool_decide _); [done |]. destruct (negb _); [done |]. intros [= <-]. simpl.
  rewrite fmap_app, sum_list_with_app. set (f := λ s : role * nat, _).
  assert (∀ l, sum_list_with f (fixed_part <$> map (λ i, loop_head (Consumer (s32 (Z.of_nat i))) 0
    (Z.to_nat (u64 (Z.of_nat np * Z.of_nat n) / Z.of_nat nc)) 0) l) = 0%nat) as ->.
  { intros l. induction l as [|x l IH]; simpl; [done | exact IH]. }
  rewrite Nat.add_0_r, fmap_replicate. clear. induction np as [|np IH]; [done |]. cbn [replicate sum_list_with concat].
  by rewrite count_occ_app, IH.
Qed.

(** The queue of the example is safe.  Producers and consumers take turns in any order,
    each load, compare-and-exchange, addition and futex call being one step: the queue
    never holds more than [queue_size] items, an item is never taken from an empty
    queue, and at most one of them is between [lock] and [unlock]. *)
Theorem kernel_queue_safe queue_size np nc n p0 p :
  options_ok queue_size np nc n → start_program queue_size np nc n = Done (Some p0) tt → rtc program_step p0 p →
  (∀ tid, ∃ b p', actor_step tid p = Done b p') ∧
  Z.of_nat (length (queue p)) ≤ queue_size ∧
  (∀ t1 t2 a1 a2, actors p !! t1 = Some a1 → actors p !! t2 = Some a2 →
     holds_mutex a1 = 1%nat → holds_mutex a2 = 1%nat → t1 = t2).
Proof.
  intros Hopt Hst Hrtc. pose proof (start_invariant _ _ _ _ _ Hopt Hst) as I0. destruct Hopt as [Hq _].
  pose proof (reachable_invariant queue_size ltac:(lia) _ _ I0 Hrtc) as I. pose proof (in_balanced _ _ I) as B. split_and!.
  - intros tid. destruct (actor_step_keeps queue_size ltac:(lia) tid p I) as (b & p' & E & _). eauto.
  - pose proof (ba_queue _ _ B). pose proof (ba_slots _ _ B). pose proof (ba_count _ _ B SEmpty).
    assert (total uncounted (actors p) ≤ total in_flight (actors p))%nat; [| simpl in *; lia].
    apply total_le. intros ? [[] i m [[] | [] | | [] | [] | |] z]; unfold uncounted, in_flight; simpl; intros _; lia.
  - intros t1 t2 a1 a2. by eapply one_holder.
Qed.

(** C23. The example does not deadlock.  In every state that the program reaches some
    producer or consumer can go on, until all of them have ended: no wake-up is lost so
    that the others sleep for ever.  When they have ended the queue is empty and the
    consumers have printed exactly the items that the producers made. *)
Theorem kernel_queue_progress queue_size np nc n p0 p :
  options_ok queue_size np nc n → start_program queue_size np nc n = Done (Some p0) tt → rtc program_step p0 p →
  (∃ tid p', actor_step tid p = Done true p') ∨
  (Forall (λ a, phase_ a = PhDone) (actors p) ∧ queue p = [] ∧
   (output p).*2 ≡ₚ concat (replicate np ((λ i, s32 (Z.of_nat i)) <$> seq 0 n))).
Proof.
  intros Hopt Hst Hrtc. pose proof (start_invariant _ _ _ _ _ Hopt Hst) as I0. destruct Hopt as [Hq _].
  pose proof (reachable_invariant queue_size ltac:(lia) _ _ I0 Hrtc) as I.
  destruct (can_go p) as [(tid & p' & E) | Hstuck]; [left; eauto | right].
  pose proof (stuck_done queue_size ltac:(lia) p ltac:(lia) I Hstuck) as Hdone. pose proof (in_balanced _ _ I) as B.
  assert (queue p = []) as Hqueue.
  { apply length_zero_iff_nil. pose proof (ba_work _ _ B) as Hw. rewrite !total_zero in Hw; [lia | |]; intros j a Ha;
      unfold pops_left, pushes_left, accesses_left; rewrite (Hdone _ _ Ha); by destruct (role_ a). }
  split_and!; [| done |].
  - apply Forall_lookup. intros j a Ha. by eapply Hdone.
  - apply (Permutation_count_occ Z.eq_dec). intros z. pose proof (ba_items _ _ B z) as Hi. rewrite Hqueue in Hi.
    rewrite (total_zero (λ a, occ z (in_hand a))) in Hi.
    2: { intros j a Ha. unfold in_hand. rewrite (Hdone _ _ Ha). by destruct (role_ a). }
    fold (occ z (output p).*2). change (occ z []) with 0%nat in Hi. rewrite !Nat.add_0_r in Hi. rewrite <- Hi.
    assert (total (λ a, occ z (pushed a)) (actors p)
      = sum_list_with (λ s : role * nat, match s.1 with Producer => occ z ((λ i, s32 (Z.of_nat i)) <$> seq 0 s.2) | _ => 0%nat end)
          (fixed_part <$> actors p)) as ->.
    { clear -Hdone. induction (actors p) as [|a l IH]; simpl; [done |]. rewrite IH by (intros j; apply (Hdone (S j))).
      f_equal. specialize (Hdone 0%nat a eq_refl). unfold pushed, pushes_left, accesses_left. rewrite Hdone. simpl.
      destruct (role_ a); [by rewrite Nat.sub_0_r | done]. }
    rewrite (fixed_steps _ _ Hrtc). by eapply start_items.
Qed.
End runs.

(** ** A concrete run *)

(** The first actor that has a step takes it, [n] times. *)
Fixpoint run_first {K} `{KernelFutex K} (n : nat) (p : Program K) : Program K :=
  match n with
  | O => p
  | S n =>
      match List.find (λ tid, match actor_step tid p with Done true _ => true | _ => false end) (seq 0 (length (actors p))) with
      | Some tid => match actor_step tid p with Done _ p' => run_first n p' | _ => p end
      | None => p
      end
  end.

Lemma run_first_steps {K} `{KernelFutex K} n : ∀ p : Program K, rtc program_step p (run_first n p).
Proof.
  induction n as [|n IH]; intros p; simpl; [apply rtc_refl |].
  destruct (List.find _ _) as [tid|] eqn:E; [| apply rtc_refl]. apply find_some in E as [_ Hgo].
  destruct (actor_step tid p) as [[] p' | |] eqn:Es; [| done..]. eapply rtc_l; [by econstructor | apply IH].
Qed.

(** Two producers of three items each, three consumers, and room for one item. *)
Definition queue_demo : Program (list nat) :=
  match start_program 1 2 3 3 with Done (Some p) _ => p | _ => mkProgram [] (semaphore_new 1) (semaphore_new 1) (semaphore_new 0) [] [] end.

(** The consumers print in the order in which they pop. *)
Example queue_demo_runs :
  let p := run_first 400 queue_demo in
  queue p = [] ∧ output p = [(0, 0); (0, 1); (1, 0); (1, 2); (2, 1); (2, 2)] ∧ map phase_ (actors p) = replicate 5 PhDone.
Proof. vm_compute. split_and!; reflexivity. Qed.

Lemma queue_demo_options : options_ok 1 2 3 3.
Proof. split; lia. Qed.

Lemma kernel_queue_safe_witness :
  Z.of_nat (length (queue (run_first 40 queue_demo))) ≤ 1.
Proof.
  apply (kernel_queue_safe 1 2 3 3 queue_demo (run_first 40 queue_demo) queue_demo_options eq_refl (run_first_steps 40 _)).
Defined.

Lemma kernel_queue_progress_witness :
  let p := run_first 400 queue_demo in
  (∃ tid p', actor_step tid p = Done true p') ∨
  (Forall (λ a, phase_ a = PhDone) (actors p) ∧ queue p = [] ∧
   (output p).*2 ≡ₚ concat (replicate 2 ((λ i, s32 (Z.of_nat i)) <$> seq 0 3))).
Proof. exact (kernel_queue_progress 1 2 3 3 queue_demo _ queue_demo_options eq_refl (run_first_steps 400 _)). Defined.
