(* ===== verification/CondyQueue.v ===== *)
(** * A bounded queue on condy futexes (examples/queue-condy-futex.cpp)

    The producer-consumer program whose mutex and condition variables are built on
    [condy::Futex].  Producers are coroutines on one runtime and consumers on another;
    every access to an atomic, and every call of the futex that takes its lock, is a
    step of its own, and the steps of all coroutines interleave freely (the program,
    with two threads, takes fewer interleavings).  The program is written against the
    class [CondyFutex]; [Futex.v] implements it ([futex_handles]), and pairs of a value
    and a list of waiters are its specification ([futex_spec]).  A coroutine that a
    notification schedules goes on at some later step. *)

From stdpp Require Import base numbers list list_numbers gmap sets relations.
From S2P Require Import Prelude Intrusive Futex.
Import Double.

Set Warnings "-register-all".

(** ** The futex *)

(** An atomic of type [T] with its futex.  [fx_wait]: whether the coroutine is suspended;
    [fx_notify_one]: the coroutine that is scheduled. *)
Class CondyFutex (T F : Type) := {
  fx_new : T → F;
  fx_load : F → T;
  fx_store : T → F → F;
  fx_wait : nat → T → ST F bool;
  fx_notify_one : ST F (option nat)
}.

(** What a futex promises: it stands for the value of the atomic and the waiters in the
    order in which they came. *)
Class CondyFutexLaws (T F : Type) `{EqDecision T} `{CondyFutex T F} := {
  fx_rep : F → T * list nat → Prop;
  fx_new_rep v : fx_rep (fx_new v) (v, []);
  fx_load_rep f v ws : fx_rep f (v, ws) → fx_load f = v;
  fx_store_rep f v v' ws : fx_rep f (v, ws) → fx_rep (fx_store v' f) (v', ws);
  fx_wait_rep f v ws tid old :
    fx_rep f (v, ws) →
    ∃ f', fx_wait tid old f = Done (bool_decide (v = old)) f' ∧
      fx_rep f' (v, if bool_decide (v = old) then ws ++ [tid] else ws);
  fx_notify_rep f v ws :
    fx_rep f (v, ws) → ∃ f', fx_notify_one f = Done (head ws) f' ∧ fx_rep f' (v, tail ws)
}.

(** The specification as an implementation. *)
#[export] Instance futex_spec (T : Type) `{EqDecision T} : CondyFutex T (T * list nat) := {
  fx_new v := (v, []);
  fx_load f := f.1;
  fx_store v f := (v, f.2);
  fx_wait tid old f :=
    Done (bool_decide (f.1 = old)) (f.1, if bool_decide (f.1 = old) then f.2 ++ [tid] else f.2);
  fx_notify_one f := Done (head f.2) (f.1, tail f.2)
}.

(** The operations of futex.hpp: each wait makes a handle, whose number is its index in
    [waits]; [waits] are the coroutines that wait.  A scheduled handle is invoked at
    once, which completes the wait. *)
Record FutexHandles (T : Type) := mkHandles {
  fh_sys : FutexSys T;
  fh_waits : list nat
}.
Arguments mkHandles {T} fh_sys fh_waits.
Arguments fh_sys {T} f.
Arguments fh_waits {T} f.

Section handles.
Context {T : Type} `{EqDecision T}.

(** [co_await futex.wait(old)]: suspended unless the handle has completed.  (The runtime,
    which does not matter here, goes by the number of the coroutine.) *)
Definition handle_wait (tid : nat) (old : T) : ST (FutexHandles T) bool := λ f,
  let h := length (fh_waits f) in
  match wait_start h tid old StopImpossible (fh_sys f) with
  | Done _ s => Done (negb (bool_decide (h ∈ (received (fenv s)).*1))) (mkHandles s (fh_waits f ++ [tid]))
  | Thrown e s => Thrown e (mkHandles s (fh_waits f))
  | Crashed c => Crashed c
  end.

(** [notify_one] and the handle it has scheduled, if any. *)
Definition handle_notify_one : ST (FutexHandles T) (option nat) := λ f,
  match notify_one (fh_sys f) with
  | Done _ s =>
      match scheduled (fenv s) with
      | [] => Done None (mkHandles s (fh_waits f))
      | (_, h) :: _ =>
          match run_scheduled 0 s with
          | Done _ s => Done (fh_waits f !! h) (mkHandles s (fh_waits f))
          | Thrown e s => Thrown e (mkHandles s (fh_waits f))
          | Crashed c => Crashed c
          end
      end
  | Thrown e s => Thrown e (mkHandles s (fh_waits f))
  | Crashed c => Crashed c
  end.

Definition handle_store (v : T) (f : FutexHandles T) : FutexHandles T :=
  mkHandles (mkFutexSys v (links (fh_sys f)) (wait_awaiters_ (fh_sys f)) (draining (fh_sys f)) (fenv (fh_sys f))) (fh_waits f).

#[export] Instance futex_handles : CondyFutex T (FutexHandles T) := {
  fx_new v := mkHandles (futex_new v) [];
  fx_load f := futex_ (fh_sys f);
  fx_store := handle_store;
  fx_wait := handle_wait;
  fx_notify_one := handle_notify_one
}.

(** The waiting handles [xs] belong to the waiters [ws]. *)
Definition handles_rep (f : FutexHandles T) (a : T * list nat) : Prop :=
  ∃ xs, finv (fh_sys f) xs [] ∧ draining (fh_sys f) = None ∧ scheduled (fenv (fh_sys f)) = [] ∧
    futex_ (fh_sys f) = a.1 ∧ Forall2 (λ h tid, fh_waits f !! h = Some tid) xs a.2 ∧
    ∀ h, is_Some (handles (fenv (fh_sys f)) !! h) → (h < length (fh_waits f))%nat.

Lemma request_wait_env s h (old : T) r s' : request_wait_ h old s = Done r s' → fenv s' = fenv s.
Proof.
  unfold request_wait_, on_waiters. run_st. destruct (bool_decide _); [by intros [= _ <-] |].
  destruct (double_push_back _ _ _) as [l hp | |]; [by intros [= _ <-] | done..].
Qed.

(** A wait that cannot be cancelled schedules nothing. *)
Lemma wait_start_env s h rt (old : T) s' :
  wait_start h rt old StopImpossible s = Done tt s' →
  scheduled (fenv s') = scheduled (fenv s) ∧ ∀ k, is_Some (handles (fenv s') !! k) → k = h ∨ is_Some (handles (fenv s) !! k).
Proof.
  unfold wait_start. erewrite bind_done by done. unfold mbind at 1, st_bind at 1.
  destruct (request_wait_ h old _) as [r s1 | |] eqn:E; [| done..]. apply request_wait_env in E. simpl in E.
  destruct (negb _); unfold on_env; run_st; intros [= <-]; simpl; rewrite E; simpl; (split; [done |]);
    intros k [w Hw]; destruct (decide (k = h)) as [| Hne]; auto; rewrite lookup_insert_ne in Hw by done; right; by exists w.
Qed.

(** Invoking the only scheduled handle. *)
Lemma run_only_scheduled (s : FutexSys T) rt h s' :
  scheduled (fenv s) = [(rt, h)] → run_scheduled 0 s = Done tt s' →
  scheduled (fenv s') = [] ∧ ∀ k, is_Some (handles (fenv s') !! k) → is_Some (handles (fenv s) !! k).
Proof.
  intros Es. unfold run_scheduled. rewrite bind_get, Es. simpl. unfold wait_invoke, get_handle, on_env. run_st.
  destruct (handles (fenv s) !! h) as [w|] eqn:Ew; [| done]. intros [= <-]. simpl. rewrite Es. split; [done |].
  intros k [w' Hw]. destruct (decide (k = h)) as [-> | Hne]; [by exists w |]. rewrite lookup_insert_ne in Hw by done. by exists w'.
Qed.

Lemma handle_wait_rep f v ws tid old :
  handles_rep f (v, ws) →
  ∃ f', handle_wait tid old f = Done (bool_decide (v = old)) f' ∧
    handles_rep f' (v, if bool_decide (v = old) then ws ++ [tid] else ws).
Proof.
  intros (xs & Hi & Hd & Hs & Hv & Hw & Hh). simpl in *. unfold handle_wait. set (h := length (fh_waits f)).
  assert (handles (fenv (fh_sys f)) !! h = None) as Hn.
  { destruct (handles _ !! h) as [w|] eqn:E; [| done]. pose proof (Hh h (mk_is_Some _ _ E)). unfold h in *. lia. }
  destruct (wait_start_run _ xs [] h tid old StopImpossible Hi Hn) as (s & xs' & E & Hi' & Hv' & Hd' & Hne & Heq & _); [done |].
  destruct (wait_start_env _ _ _ _ _ E) as [Hs' Hh']. rewrite E. eexists. split; [f_equal |].
  - subst v. destruct (decide (futex_ (fh_sys f) = old)) as [Ev | Ev].
    + destruct (Heq Ev) as [-> Hr]; [done |].
      rewrite (bool_decide_eq_true_2 _ Ev), bool_decide_eq_false_2; [done |].
      pose proof (fl_nodup _ _ (fi_life _ _ _ Hi')) as Hnd. rewrite app_nil_r, Hs', Hs in Hnd. simpl in Hnd.
      apply NoDup_app in Hnd as (_ & Hdis & _). apply Hdis. set_solver.
    + destruct (Hne Ev) as [-> Hr].
      rewrite (bool_decide_eq_false_2 _ Ev), Hr, bool_decide_eq_true_2; [done |]. rewrite fmap_app. set_solver.
  - exists xs'. split_and!; simpl; [done | by rewrite Hd' | by rewrite Hs' | by rewrite Hv' | |].
    + assert (Forall2 (λ k t, (fh_waits f ++ [tid]) !! k = Some t) xs ws) as Hold.
      { eapply Forall2_impl; [exact Hw |]. intros k t Hk. simpl in Hk. by apply lookup_app_l_Some. }
      case_bool_decide as Ev; subst v; [destruct (Heq Ev) as [-> _] | destruct (Hne Ev) as [-> _]]; [done | | done].
      apply Forall2_app; [done |]. constructor; [| constructor]. unfold h. by rewrite list_lookup_middle.
    + intros k Hk. rewrite length_app. simpl. destruct (Hh' k Hk) as [-> | Ho]; [unfold h; lia |]. specialize (Hh k Ho). lia.
Qed.

Lemma handle_notify_rep f v ws :
  handles_rep f (v, ws) → ∃ f', handle_notify_one f = Done (head ws) f' ∧ handles_rep f' (v, tail ws).
Proof.
  intros (xs & Hi & Hd & Hs & Hv & Hw & Hh). simpl in *. pose proof (notify_one_run _ _ _ Hi) as Hn.
  unfold handle_notify_one. destruct Hw as [|h tid xs ws Hl Hw].
  - rewrite Hn, Hs. eexists. split; [done |]. exists []. by split_and!.
  - destruct Hn as (w & s1 & Ew & E & Hi1 & Hv1 & Ee). rewrite E.
    assert (scheduled (fenv s1) = [(runtime_ w, h)]) as Hs1 by (by rewrite Ee; simpl; rewrite Hs).
    destruct (run_scheduled_futex s1 xs [] 0 Hi1) as (s2 & E2 & Hi2 & Hv2 & Hd2).
    destruct (run_only_scheduled _ _ _ _ Hs1 E2) as [Hs2 Hh2]. rewrite Hs1, E2, Hl. eexists. split; [done |].
    exists xs. split_and!; simpl; [done | | done | by rewrite Hv2, Hv1 | done |].
    + rewrite Hd2. pose proof (fi_drain _ _ _ Hi1) as Hdr. clear -E Hd. unfold notify_one, on_waiters in E. run_st.
      cbv [mbind st_bind] in E. destruct (double_pop_front _ _) as [[o l] hp | |]; [| done..]. destruct o as [k|].
      * unfold set_result_schedule, get_handle, on_env in E. cbv [mbind st_bind get modify mret st_ret crashed] in E. simpl in E.
        destruct (handles (fenv (fh_sys f)) !! k); [| done]. by injection E as <-.
      * by injection E as <-.
    + intros k Hk. apply Hh. apply Hh2 in Hk. rewrite Ee in Hk. simpl in Hk. destruct Hk as [w' Hk].
      destruct (decide (k = h)) as [-> | Hne]; [by exists w |]. rewrite lookup_insert_ne in Hk by done. by exists w'.
Qed.

#[export] Instance futex_handles_laws : CondyFutexLaws T (FutexHandles T).
Proof.
  refine {| fx_rep := handles_rep |}; [| | | apply handle_wait_rep | apply handle_notify_rep].
  - intros v. exists []. split_and!; simpl; try done; [apply finv_new | by intros h [w Hw]].
  - by intros f v ws (xs & _ & _ & _ & Hv & _).
  - intros f v v' ws (xs & [Ha Hb Hc Hl] & Hd & Hs & Hv & Hw & Hh). exists xs. by split_and!.
Qed.
End handles.

#[export] Instance futex_spec_laws (T : Type) `{EqDecision T} : CondyFutexLaws T (T * list nat).
Proof. refine {| fx_rep f a := f = a |}; simpl; [done | by intros f v ws -> | by intros f v v' ws -> | |]; intros f v ws; [intros tid old |]; intros ->; eauto. Qed.

(** ** Mutex and condition variable

    [FutexMutex] is an atomic [bool] with its futex, [FutexConditionVariable] an atomic
    [uint32_t].  Where a call is: *)
Inductive lock_pc := LkCas | LkWait | LkSleep.
Inductive unlock_pc := UnStore | UnNotify.
Inductive notify_pc := NtAdd | NtNotify.

Section primitives.
Context {FB FZ : Type} `{CondyFutex bool FB} `{CondyFutex Z FZ}.

(** One step of [FutexMutex::lock] by [tid]: the next point, [Some None] when it returns,
    [None] for a suspended coroutine.  [weak]: the compare-and-exchange fails although
    the mutex is free. *)
Definition lock_step (tid : nat) (weak : bool) (pc : lock_pc) : ST FB (option (option lock_pc)) :=
  match pc with
  | LkCas =>
      m ← get;
      if fx_load m || weak then mret (Some (Some LkWait))
      else put (fx_store true m);; mret (Some None)
  | LkWait =>
      suspended ← fx_wait tid true;
      mret (Some (Some (if suspended : bool then LkSleep else LkCas)))
  | LkSleep => mret None
  end.

(** One step of [FutexMutex::unlock]: the next point and the coroutine it wakes. *)
Definition unlock_step (pc : unlock_pc) : ST FB (option unlock_pc * option nat) :=
  match pc with
  | UnStore => modify (fx_store false);; mret (Some UnNotify, None)
  | UnNotify => woken ← fx_notify_one; mret (None, woken)
  end.

(** One step of [FutexConditionVariable::notify_one]. *)
Definition notify_step (pc : notify_pc) : ST FZ (option notify_pc * option nat) :=
  match pc with
  | NtAdd => modify (λ c, fx_store (u32 (fx_load c + 1)) c);; mret (Some NtNotify, None)
  | NtNotify => woken ← fx_notify_one; mret (None, woken)
  end.
End primitives.

(** ** The program *)

Inductive cv_name := NotEmpty | NotFull.
#[export] Instance cv_name_eq_dec : EqDecision cv_name.
Proof. solve_decision. Defined.

Inductive role :=
  | Producer
  | Consumer (id : Z).

(** The points of [producer] with [enqueue], and of [consumer] with [dequeue]: from
    [PhLoad] to [PhCvSleep] the coroutine is in [FutexConditionVariable::wait], which
    ends by locking the mutex again; [gen] is its local variable. *)
Inductive phase :=
  | PhLock (pc : lock_pc)
  | PhTest
  | PhLoad
  | PhCvUnlock (gen : Z) (pc : unlock_pc)
  | PhCvTest (gen : Z)
  | PhCvWait (gen : Z)
  | PhCvSleep (gen : Z)
  | PhAccess
  | PhUnlock (pc : unlock_pc)
  | PhNotify (pc : notify_pc)
  | PhPrint
  | PhSwitch
  | PhDone.

(** A coroutine with its loop counter, its bound, and [item]. *)
Record Actor := mkActor {
  role_ : role;
  loop_i : nat;
  loop_count : nat;
  phase_ : phase;
  item_ : Z
}.

(** [Queue<int>], the coroutines, and what has been printed. *)
Record Program (FB FZ : Type) := mkProgram {
  queue_ : list Z;
  capacity_ : Z;
  queue_mutex_ : FB;
  not_empty_ : FZ;
  not_full_ : FZ;
  actors : list Actor;
  output : list (Z * Z)
}.
Arguments mkProgram {FB FZ} queue_ capacity_ queue_mutex_ not_empty_ not_full_ actors output.
Arguments queue_ {FB FZ} p.
Arguments capacity_ {FB FZ} p.
Arguments queue_mutex_ {FB FZ} p.
Arguments not_empty_ {FB FZ} p.
Arguments not_full_ {FB FZ} p.
Arguments actors {FB FZ} p.
Arguments output {FB FZ} p.

(** The condition variable that a coroutine waits on, and the one it notifies. *)
Definition waits_on (r : role) : cv_name := match r with Producer => NotFull | Consumer _ => NotEmpty end.
Definition notifies (r : role) : cv_name := match r with Producer => NotEmpty | Consumer _ => NotFull end.

Definition at_phase (ph : phase) (a : Actor) : Actor := mkActor (role_ a) (loop_i a) (loop_count a) ph (item_ a).

(** The head of the loop: [i < count]. *)
Definition loop_head (r : role) (i count : nat) (item : Z) : Actor :=
  mkActor r i count (if bool_decide (i < count)%nat then PhLock LkCas else PhDone) item.
Definition next_iteration (a : Actor) : Actor := loop_head (role_ a) (S (loop_i a)) (loop_count a) (item_ a).

(** A coroutine whose wait completes goes to the test of the loop around it. *)
Definition wake_actor (a : Actor) : Actor :=
  match phase_ a with
  | PhLock LkSleep => at_phase (PhLock LkCas) a
  | PhCvSleep gen => at_phase (PhCvTest gen) a
  | _ => a
  end.
Definition wake_one (woken : option nat) (l : list Actor) : list Actor :=
  match woken with Some tid => alter wake_actor tid l | None => l end.

Section program.
Context {FB FZ : Type} `{CondyFutex bool FB} `{CondyFutex Z FZ}.
Abbreviation Prog := (Program FB FZ).
Implicit Type p : Prog.

Definition put_mutex (m : FB) p : Prog :=
  mkProgram (queue_ p) (capacity_ p) m (not_empty_ p) (not_full_ p) (actors p) (output p).
Definition cv_of (x : cv_name) p : FZ := match x with NotEmpty => not_empty_ p | NotFull => not_full_ p end.
Definition put_cv (x : cv_name) (c : FZ) p : Prog :=
  match x with
  | NotEmpty => mkProgram (queue_ p) (capacity_ p) (queue_mutex_ p) c (not_full_ p) (actors p) (output p)
  | NotFull => mkProgram (queue_ p) (capacity_ p) (queue_mutex_ p) (not_empty_ p) c (actors p) (output p)
  end.
Definition put_actors (l : list Actor) p : Prog :=
  mkProgram (queue_ p) (capacity_ p) (queue_mutex_ p) (not_empty_ p) (not_full_ p) l (output p).
Definition put_queue (q : list Z) p : Prog :=
  mkProgram q (capacity_ p) (queue_mutex_ p) (not_empty_ p) (not_full_ p) (actors p) (output p).
Definition put_output (o : list (Z * Z)) p : Prog :=
  mkProgram (queue_ p) (capacity_ p) (queue_mutex_ p) (not_empty_ p) (not_full_ p) (actors p) o.

(** The coroutine [tid] goes on as [a]. *)
Definition goes_on (tid : nat) (a : Actor) : ST Prog bool :=
  modify (λ p, put_actors (<[tid := a]> (actors p)) p);;
  mret true.
Definition wake (woken : option nat) : ST Prog unit := modify (λ p, put_actors (wake_one woken (actors p)) p).

Definition on_mutex {A} (m : ST FB A) : ST Prog A := zoom queue_mutex_ put_mutex m.
Definition on_cv {A} (x : cv_name) (m : ST FZ A) : ST Prog A := zoom (cv_of x) (put_cv x) m.

(** The conditions of the loops of [enqueue] and [dequeue]. *)
Definition must_wait (r : role) p : bool :=
  match r with
  | Producer => capacity_ p <=? Z.of_nat (length (queue_ p))
  | Consumer _ => bool_decide (queue_ p = [])
  end.

(** [queue_.push(item)], and [item = queue_.front(); queue_.pop()]: undefined when the
    queue is empty. *)
Definition access (tid : nat) (a : Actor) : ST Prog bool :=
  p ← get;
  match role_ a with
  | Producer =>
      put (put_queue (queue_ p ++ [s32 (Z.of_nat (loop_i a))]) p);;
      goes_on tid (at_phase (PhUnlock UnStore) a)
  | Consumer _ =>
      match queue_ p with
      | [] => crashed BadAccess
      | item :: q =>
          put (put_queue q p);;
          goes_on tid (mkActor (role_ a) (loop_i a) (loop_count a) (PhUnlock UnStore) item)
      end
  end.

(** One step of [a], the coroutine [tid]; [false] when it has none. *)
Definition step_from (tid : nat) (weak : bool) (a : Actor) : ST Prog bool :=
  let x := waits_on (role_ a) in
  match phase_ a with
  | PhLock pc =>
      r ← on_mutex (lock_step tid weak pc);
      match r with
      | None => mret false
      | Some pc => goes_on tid (at_phase (match pc with Some pc => PhLock pc | None => PhTest end) a)
      end
  | PhTest =>
      p ← get;
      goes_on tid (at_phase (if must_wait (role_ a) p then PhLoad else PhAccess) a)
  | PhLoad =>
      p ← get;
      goes_on tid (at_phase (PhCvUnlock (fx_load (cv_of x p)) UnStore) a)
  | PhCvUnlock gen pc =>
      '(pc, woken) ← on_mutex (unlock_step pc);
      wake woken;;
      goes_on tid (at_phase (match pc with Some pc => PhCvUnlock gen pc | None => PhCvTest gen end) a)
  | PhCvTest gen =>
      p ← get;
      goes_on tid (at_phase (if fx_load (cv_of x p) =? gen then PhCvWait gen else PhLock LkCas) a)
  | PhCvWait gen =>
      suspended ← on_cv x (fx_wait tid gen);
      goes_on tid (at_phase (if suspended : bool then PhCvSleep gen else PhCvTest gen) a)
  | PhCvSleep _ => mret false
  | PhAccess => access tid a
  | PhUnlock pc =>
      '(pc, woken) ← on_mutex (unlock_step pc);
      wake woken;;
      goes_on tid (at_phase (match pc with Some pc => PhUnlock pc | None => PhNotify NtAdd end) a)
  | PhNotify pc =>
      '(pc, woken) ← on_cv (notifies (role_ a)) (notify_step pc);
      wake woken;;
      goes_on tid (at_phase
        (match pc with
         | Some pc => PhNotify pc
         | None => match role_ a with Producer => PhSwitch | Consumer _ => PhPrint end
         end) a)
  | PhPrint =>
      modify (λ p, put_output (output p ++ [(match role_ a with Consumer id => id | Producer => 0 end, item_ a)]) p);;
      goes_on tid (at_phase PhSwitch a)
  | PhSwitch => goes_on tid (next_iteration a)
  | PhDone => mret false
  end.

Definition actor_step (tid : nat) (weak : bool) : ST Prog bool :=
  p ← get;
  match actors p !! tid with Some a => step_from tid weak a | None => mret false end.

(** [main]: [None] when it refuses its arguments. *)
Definition start_program (queue_size : Z) (num_producers num_consumers items_per_producer : nat)
    : result unit (option Prog) :=
  let total_items := u64 (Z.of_nat num_producers * Z.of_nat items_per_producer) in
  if bool_decide (num_consumers = 0%nat) then Crashed BadAccess
  else if negb (total_items mod Z.of_nat num_consumers =? 0) then Done None tt
  else
    let items_per_consumer := Z.to_nat (total_items / Z.of_nat num_consumers) in
    Done (Some (mkProgram [] queue_size (fx_new false) (fx_new 0) (fx_new 0)
      (replicate num_producers (loop_head Producer 0 items_per_producer 0) ++
       map (λ i, loop_head (Consumer (s32 (Z.of_nat i))) 0 items_per_consumer 0) (seq 0 num_consumers)) [])) tt.

Inductive program_step : Prog → Prog → Prop :=
  | actor_steps tid weak p p' : actor_step tid weak p = Done true p' → program_step p p'.
End program.

(** ** Any futex that keeps its promises *)

Section simulation.
Context {FB FZ : Type} `{!CondyFutex bool FB} `{!CondyFutex Z FZ} `{!CondyFutexLaws bool FB} `{!CondyFutexLaws Z FZ}.
Abbreviation Spec := (Program (bool * list nat) (Z * list nat)).

(** [p] runs on an implementation of the futex, [q] on its specification. *)
Record simulates (p : Program FB FZ) (q : Spec) : Prop := {
  sim_queue : queue_ p = queue_ q;
  sim_capacity : capacity_ p = capacity_ q;
  sim_actors : actors p = actors q;
  sim_output : output p = output q;
  sim_mutex : fx_rep (queue_mutex_ p) (queue_mutex_ q);
  sim_empty : fx_rep (not_empty_ p) (not_empty_ q);
  sim_full : fx_rep (not_full_ p) (not_full_ q)
}.

(** The two computations take the same course. *)
Definition same_course {S1 S2 A} (R : S1 → S2 → Prop) (m1 : ST S1 A) (m2 : ST S2 A) : Prop :=
  ∀ s1 s2, R s1 s2 →
    match m2 s2 with
    | Done a s2' => ∃ s1', m1 s1 = Done a s1' ∧ R s1' s2'
    | Thrown e s2' => ∃ s1', m1 s1 = Thrown e s1' ∧ R s1' s2'
    | Crashed c => m1 s1 = Crashed c
    end.

Lemma course_ret {S1 S2 A} (R : S1 → S2 → Prop) (a : A) : same_course R (mret a) (mret a).
Proof. intros s1 s2 HR. by exists s1. Qed.

Lemma course_bind {S1 S2 A B} (R : S1 → S2 → Prop) (m1 : ST S1 A) (m2 : ST S2 A) (k1 : A → ST S1 B) (k2 : A → ST S2 B) :
  same_course R m1 m2 → (∀ a, same_course R (k1 a) (k2 a)) → same_course R (m1 ≫= k1) (m2 ≫= k2).
Proof.
  intros Hm Hk s1 s2 HR. specialize (Hm s1 s2 HR). unfold mbind, st_bind. destruct (m2 s2) as [a s2' | e s2' | c].
  - destruct Hm as (s1' & -> & HR'). by apply Hk.
  - destruct Hm as (s1' & -> & HR'). eauto.
  - by rewrite Hm.
Qed.

Lemma course_modify {S1 S2} (R : S1 → S2 → Prop) f1 f2 :
  (∀ s1 s2, R s1 s2 → R (f1 s1) (f2 s2)) → same_course R (modify f1) (modify f2).
Proof. intros Hf s1 s2 HR. exists (f1 s1). split; [done | by apply Hf]. Qed.

(** Reading the state first. *)
Lemma course_get {S1 S2 A} (R : S1 → S2 → Prop) (k1 : S1 → ST S1 A) (k2 : S2 → ST S2 A) :
  (∀ t1 t2, R t1 t2 → same_course R (k1 t1) (k2 t2)) → same_course R (get ≫= k1) (get ≫= k2).
Proof. intros Hk s1 s2 HR. exact (Hk s1 s2 HR s1 s2 HR). Qed.

Lemma course_zoom {S1 S2 V1 V2 A} (R : S1 → S2 → Prop) (Q : V1 → V2 → Prop) g1 g2 p1 p2 (m1 : ST V1 A) (m2 : ST V2 A) :
  (∀ s1 s2, R s1 s2 → Q (g1 s1) (g2 s2)) → (∀ s1 s2 v1 v2, R s1 s2 → Q v1 v2 → R (p1 v1 s1) (p2 v2 s2)) →
  same_course Q m1 m2 → same_course R (zoom g1 p1 m1) (zoom g2 p2 m2).
Proof.
  intros Hg Hp Hm s1 s2 HR. specialize (Hm _ _ (Hg _ _ HR)). unfold zoom. destruct (m2 (g2 s2)) as [a v | e v | c].
  - destruct Hm as (v1 & -> & Hv). eauto.
  - destruct Hm as (v1 & -> & Hv). eauto.
  - by rewrite Hm.
Qed.

(** The parts of the step. *)
Lemma lock_course tid weak pc : same_course (fx_rep (T := bool) (F := FB)) (lock_step tid weak pc) (lock_step tid weak pc).
Proof.
  destruct pc; simpl; [| | apply course_ret].
  - apply course_get. intros f [v ws] Hf. rewrite (fx_load_rep _ _ _ Hf). cbn [fx_load futex_spec fst].
    destruct (v || weak); [apply course_ret |]. intros f1 [v1 ws1] Hf1. eexists. split; [done |]. by eapply fx_store_rep.
  - apply course_bind; [| intros b; apply course_ret].
    intros f [v ws] Hf. destruct (fx_wait_rep f v ws tid true Hf) as (f' & E & Hf'). simpl. rewrite E. eauto.
Qed.

Lemma notify_course {T F} `{CondyFutexLaws T F} : same_course (fx_rep (T := T) (F := F)) fx_notify_one fx_notify_one.
Proof. intros f [v ws] Hf. destruct (fx_notify_rep f v ws Hf) as (f' & E & Hf'). simpl. rewrite E. eauto. Qed.

Lemma unlock_course pc : same_course (fx_rep (T := bool) (F := FB)) (unlock_step pc) (unlock_step pc).
Proof.
  destruct pc; simpl.
  - apply course_bind; [| intros; apply course_ret]. apply course_modify. intros f [v ws] Hf. by eapply fx_store_rep.
  - apply course_bind; [apply notify_course | intros; apply course_ret].
Qed.

Lemma notify_step_course pc : same_course (fx_rep (T := Z) (F := FZ)) (notify_step pc) (notify_step pc).
Proof.
  destruct pc; simpl.
  - apply course_bind; [| intros; apply course_ret]. apply course_modify. intros f [v ws] Hf.
    rewrite (fx_load_rep _ _ _ Hf). by eapply fx_store_rep.
  - apply course_bind; [apply notify_course | intros; apply course_ret].
Qed.

Lemma sim_cv x p q : simulates p q → fx_rep (cv_of x p) (cv_of x q).
Proof. intros []. by destruct x. Qed.

Lemma sim_load x p q : simulates p q → fx_load (cv_of x p) = fx_load (cv_of x q).
Proof. intros Hs. pose proof (sim_cv x p q Hs) as Hc. destruct (cv_of x q) as [v ws]. by apply fx_load_rep in Hc. Qed.

Lemma on_mutex_course {A} (m1 : ST FB A) m2 :
  same_course fx_rep m1 m2 → same_course simulates (on_mutex m1) (on_mutex m2).
Proof. apply course_zoom; [by intros ? ? [] | intros ? ? ? ? [] ?; by split]. Qed.

Lemma on_cv_course {A} x (m1 : ST FZ A) m2 :
  same_course fx_rep m1 m2 → same_course simulates (on_cv x m1) (on_cv x m2).
Proof. apply course_zoom; [intros; by apply sim_cv | intros ? ? ? ? [] ?; destruct x; by split]. Qed.

Lemma goes_on_course tid a : same_course simulates (goes_on tid a) (goes_on tid a).
Proof.
  apply course_bind; [| intros; apply course_ret]. apply course_modify. intros p q []. split; simpl; try done. by f_equal.
Qed.

Lemma wake_course woken : same_course simulates (wake woken) (wake woken).
Proof. apply course_modify. intros p q []. split; simpl; try done. by f_equal. Qed.

Lemma access_course tid a : same_course simulates (access tid a) (access tid a).
Proof.
  apply course_get. intros p q Hs. rewrite (sim_queue _ _ Hs).
  assert (∀ l a', same_course simulates (put (put_queue l p);; goes_on tid a') (put (put_queue l q);; goes_on tid a')) as Hput.
  { intros l a'. apply course_bind; [| intros; apply goes_on_course]. intros p1 q1 _. eexists. split; [done |].
    destruct Hs. by split. }
  destruct (role_ a); [apply Hput |]. destruct (queue_ q); [by intros ? ? _ | apply Hput].
Qed.

Lemma step_course tid weak a : same_course simulates (step_from tid weak a) (step_from tid weak a).
Proof.
  unfold step_from. destruct (phase_ a) as [pc | | | g pc | g | g | g | | pc | pc | | |].
  - apply course_bind; [apply on_mutex_course, lock_course |]. intros [r|]; [apply goes_on_course | apply course_ret].
  - apply course_get. intros p q Hs.
    assert (must_wait (role_ a) p = must_wait (role_ a) q) as -> by (unfold must_wait; destruct Hs as [-> -> _ _ _ _ _]; done).
    apply goes_on_course.
  - apply course_get. intros p q Hs. rewrite (sim_load _ _ _ Hs). apply goes_on_course.
  - apply course_bind; [apply on_mutex_course, unlock_course |]. intros [pc' woken].
    apply course_bind; [apply wake_course | intros; apply goes_on_course].
  - apply course_get. intros p q Hs. rewrite (sim_load _ _ _ Hs). apply goes_on_course.
  - apply course_bind; [apply on_cv_course | intros b; apply goes_on_course].
    intros f [v ws] Hf. destruct (fx_wait_rep f v ws tid g Hf) as (f' & E & Hf'). simpl. rewrite E. eauto.
  - apply course_ret.
  - apply access_course.
  - apply course_bind; [apply on_mutex_course, unlock_course |]. intros [pc' woken].
    apply course_bind; [apply wake_course | intros; apply goes_on_course].
  - apply course_bind; [apply on_cv_course, notify_step_course |]. intros [pc' woken].
    apply course_bind; [apply wake_course | intros; apply goes_on_course].
  - apply course_bind; [| intros; apply goes_on_course]. apply course_modify. intros p q []. split; simpl; try done. by f_equal.
  - apply goes_on_course.
  - apply course_ret.
Qed.

(** Each step of the program on an implementation is one of the program on the
    specification. *)
Lemma actor_course tid weak : same_course simulates (actor_step tid weak) (actor_step tid weak).
Proof.
  apply course_get. intros p q Hs. rewrite (sim_actors _ _ Hs).
  destruct (actors q !! tid); [apply step_course | apply course_ret].
Qed.

Lemma steps_simulate p q p' : simulates p q → rtc program_step p p' → ∃ q', rtc program_step q q' ∧ simulates p' q'.
Proof.
  intros Hs Hr. revert q Hs. induction Hr as [p|p1 p2 p3 [tid weak p4 p5 E] _ IH]; intros q Hs; [by exists q |].
  pose proof (actor_course tid weak p4 q Hs) as Hc. destruct (actor_step tid weak q) as [b q1 | e q1 | c] eqn:Eq.
  - destruct Hc as (p6 & E6 & Hs6). assert (b = true ∧ p6 = p5) as [-> ->] by (rewrite E in E6; by simplify_eq).
    destruct (IH q1 Hs6) as (q' & Hr & Hs'). exists q'. split; [| done]. eapply rtc_l; [by econstructor | done].
  - destruct Hc as (p6 & E6 & _). congruence.
  - congruence.
Qed.

Lemma start_simulates queue_size np nc n p :
  start_program queue_size np nc n = Done (Some p) tt →
  ∃ q : Spec, start_program queue_size np nc n = Done (Some q) tt ∧ simulates p q.
Proof.
  unfold start_program. destruct (bool_decide _); [done |]. destruct (negb _); [done |]. intros [= <-].
  eexists. split; [done |]. split; simpl; try done; apply fx_new_rep.
Qed.
End simulation.

(** ** The invariant *)

(** *** What each coroutine contributes *)

(** It owns the mutex. *)
Definition holds (a : Actor) : nat :=
  match phase_ a with PhTest | PhLoad | PhCvUnlock _ UnStore | PhAccess | PhUnlock UnStore => 1 | _ => 0 end.

(** It tries to lock the mutex; it has freed the mutex and not yet notified. *)
Definition trying (a : Actor) : nat := match phase_ a with PhLock LkCas | PhLock LkWait => 1 | _ => 0 end.
Definition freeing (a : Actor) : nat := match phase_ a with PhCvUnlock _ UnNotify | PhUnlock UnNotify => 1 | _ => 0 end.

(** The accesses to the queue it will still make. *)
Definition accesses_left (a : Actor) : nat :=
  match phase_ a with
  | PhUnlock _ | PhNotify _ | PhPrint | PhSwitch => loop_count a - S (loop_i a)
  | PhDone => 0
  | _ => loop_count a - loop_i a
  end.
Definition pushes_left (a : Actor) : nat := match role_ a with Producer => accesses_left a | Consumer _ => 0 end.
Definition pops_left (a : Actor) : nat := match role_ a with Producer => 0 | Consumer _ => accesses_left a end.

(** After an access that [x] is notified of: the generation is not yet changed, or it is
    changed and no waiter woken. *)
Definition unadded (x : cv_name) (a : Actor) : nat :=
  match phase_ a with
  | PhUnlock _ | PhNotify NtAdd => if decide (x = notifies (role_ a)) then 1 else 0
  | _ => 0
  end.
Definition unnotified (x : cv_name) (a : Actor) : nat :=
  match phase_ a with PhNotify NtNotify => if decide (x = notifies (role_ a)) then 1 else 0 | _ => 0 end.

(** The changes of the generation of [x] that it will make. *)
Definition adds_left (x : cv_name) (a : Actor) : nat :=
  (if decide (x = notifies (role_ a)) then accesses_left a else 0) + unadded x a.

(** The generation with which it waits on [x]. *)
Definition waits_with (x : cv_name) (a : Actor) : option Z :=
  if decide (x = waits_on (role_ a)) then
    match phase_ a with PhCvUnlock g _ | PhCvTest g | PhCvWait g | PhCvSleep g => Some g | _ => None end
  else None.

(** It will test the condition of [x] again: [v] is the generation now. *)
Definition awake (x : cv_name) (v : Z) (a : Actor) : nat :=
  if decide (x = waits_on (role_ a)) then
    match phase_ a with
    | PhLock _ | PhTest | PhAccess => 1
    | PhCvUnlock g _ | PhCvTest g | PhCvWait g => if g =? v then 0 else 1
    | _ => 0
    end
  else 0.

(** It is suspended on a condition variable, or on the mutex ([None]). *)
Definition asleep (y : option cv_name) (a : Actor) : bool :=
  match phase_ a with
  | PhLock LkSleep => bool_decide (y = None)
  | PhCvSleep _ => bool_decide (y = Some (waits_on (role_ a)))
  | _ => false
  end.

(** The items it has pushed, and the popped item it has not printed. *)
Definition pushed (a : Actor) : list Z :=
  match role_ a with
  | Producer => (λ i, s32 (Z.of_nat i)) <$> seq 0 (loop_count a - pushes_left a)
  | Consumer _ => []
  end.
Definition in_hand (a : Actor) : list Z :=
  match role_ a, phase_ a with Consumer _, (PhUnlock _ | PhNotify _ | PhPrint) => [item_ a] | _, _ => [] end.

(** What no step changes of it. *)
Definition fixed_part (a : Actor) : role * nat := (role_ a, loop_count a).

(** *** The invariant of the program on the specification of the futex *)

Section invariant.
Abbreviation Prog := (Program (bool * list nat) (Z * list nat)).
Context (size : Z) (fixed : list (role * nat)).
Implicit Types (p : Prog) (a : Actor) (x : cv_name) (y : option cv_name).

Abbreviation locked p := (queue_mutex_ p).1.
Abbreviation generation x p := (cv_of x p).1.
Definition waiting y p : list nat := match y with Some x => (cv_of x p).2 | None => (queue_mutex_ p).2 end.

(** What the waiters of [x] wait for: items, or room. *)
Definition resource x p : Z :=
  match x with
  | NotEmpty => Z.of_nat (length (queue_ p))
  | NotFull => capacity_ p - Z.of_nat (length (queue_ p))
  end.

Record actor_ok p a : Prop := {
  ok_loop : phase_ a ≠ PhDone → (loop_i a < loop_count a)%nat;
  ok_print : role_ a = Producer → phase_ a ≠ PhPrint;
  ok_sees : match phase_ a with
            | PhLoad => resource (waits_on (role_ a)) p ≤ 0
            | PhAccess => 0 < resource (waits_on (role_ a)) p
            | _ => True
            end;
  ok_gen x g : waits_with x a = Some g → g ≤ generation x p
}.

Record counted p : Prop := {
  co_size : capacity_ p = size;
  co_fixed : fixed_part <$> actors p = fixed;
  co_capacity : Z.of_nat (length (queue_ p)) ≤ capacity_ p;
  co_mutex : total holds (actors p) = Nat.b2n (locked p);
  co_work : (length (queue_ p) + total pushes_left (actors p) = total pops_left (actors p))%nat;
  co_items z : total (λ a, occ z (pushed a)) (actors p)
    = (occ z (output p).*2 + total (λ a, occ z (in_hand a)) (actors p) + occ z (queue_ p))%nat;
  co_gen x : 0 ≤ generation x p ∧ generation x p + Z.of_nat (total (adds_left x) (actors p)) < 2 ^ 32;
  co_actor tid a : actors p !! tid = Some a → actor_ok p a
}.

Record suspended p : Prop := {
  su_iff y tid : tid ∈ waiting y p ↔ ∃ a, actors p !! tid = Some a ∧ asleep y a = true;
  su_nodup y : NoDup (waiting y p)
}.

(** A waiter that has not missed a change of the generation: what it could take has been
    put there since its test, by somebody who will still change the generation. *)
Definition fresh_covered p : Prop :=
  ∀ x tid a, actors p !! tid = Some a → waits_with x a = Some (generation x p) →
    resource x p ≤ Z.of_nat (total (unadded x) (actors p)).

(** No wake-up is lost: what a suspended waiter could take is on its way to it, or wanted
    by somebody who is awake; and a free mutex is wanted by somebody awake too. *)
Definition attended x p : Prop :=
  waiting (Some x) p ≠ [] →
  resource x p ≤ Z.of_nat (total (unadded x) (actors p) + total (unnotified x) (actors p)
                           + total (awake x (generation x p)) (actors p)).
Definition mutex_attended p : Prop :=
  waiting None p ≠ [] → locked p = false → (0 < total trying (actors p) + total freeing (actors p))%nat.

Record invariant p : Prop := {
  in_counted : counted p;
  in_suspended : suspended p;
  in_fresh : fresh_covered p;
  in_attended x : attended x p;
  in_mutex : mutex_attended p
}.

(** *** One coroutine goes on *)

(** The coroutine [tid] goes from [a] to [a'], while [p] becomes [p'], and wakes nobody. *)
Record moves tid a a' p p' : Prop := {
  mv_lookup : actors p !! tid = Some a;
  mv_actors : actors p' = <[tid := a']> (actors p);
  mv_fixed : fixed_part a' = fixed_part a;
  mv_ok : actor_ok p' a';
  mv_queue : queue_ p' = queue_ p ∧ capacity_ p' = capacity_ p ∨
             holds a = 1%nat ∧ capacity_ p' = capacity_ p ∧ Z.of_nat (length (queue_ p')) ≤ capacity_ p';
  mv_mutex : (holds a' + Nat.b2n (locked p) = holds a + Nat.b2n (locked p'))%nat;
  mv_work : (length (queue_ p') + pushes_left a' + pops_left a = length (queue_ p) + pushes_left a + pops_left a')%nat;
  mv_items z : (occ z (pushed a') + occ z (output p).*2 + occ z (in_hand a) + occ z (queue_ p)
    = occ z (pushed a) + occ z (output p').*2 + occ z (in_hand a') + occ z (queue_ p'))%nat;
  mv_gen x : generation x p ≤ generation x p' ∧
    generation x p' + Z.of_nat (adds_left x a') ≤ generation x p + Z.of_nat (adds_left x a);
  mv_awake y : asleep y a = false;
  mv_waiting y : waiting y p' = waiting y p ++ (if asleep y a' then [tid] else []);
  mv_others x : generation x p < generation x p' ∨
    resource x p' + Z.of_nat (unadded x a) ≤ resource x p + Z.of_nat (unadded x a');
  mv_fresh x : waits_with x a' = Some (generation x p') →
    generation x p' = generation x p ∧ waits_with x a = waits_with x a' ∨ resource x p' ≤ 0;
  mv_attended x : asleep (Some x) a' = true ∧ waits_with x a' = Some (generation x p') ∨
    asleep (Some x) a' = false ∧
    (attended x p' ∨
     resource x p' + Z.of_nat (unadded x a + unnotified x a + awake x (generation x p) a)
     ≤ resource x p + Z.of_nat (unadded x a' + unnotified x a' + awake x (generation x p') a'));
  mv_wanted : mutex_attended p' ∨ (0 < trying a' + freeing a')%nat ∨
    locked p' = locked p ∧ asleep None a' = false ∧ (trying a + freeing a ≤ trying a' + freeing a')%nat
}.

(** Two coroutines with the mutex are one. *)
Lemma cq_one_holder p t1 t2 a1 a2 :
  counted p → actors p !! t1 = Some a1 → actors p !! t2 = Some a2 → holds a1 = 1%nat → holds a2 = 1%nat → t1 = t2.
Proof.
  intros C H1 H2 E1 E2. destruct (decide (t2 = t1)) as [| Hne]; [done | exfalso]. pose proof (co_mutex _ C) as Hc.
  pose proof (total_update holds _ _ _ (at_phase PhDone a1) H1) as Hu.
  assert (<[t1 := at_phase PhDone a1]> (actors p) !! t2 = Some a2) as H2' by (by rewrite list_lookup_insert_ne).
  pose proof (total_ge holds _ _ _ H2') as Hge. assert (holds (at_phase PhDone a1) = 0%nat) by done.
  destruct (locked p); simpl in *; lia.
Qed.

Lemma update_fixed (l : list Actor) tid a a' :
  l !! tid = Some a → fixed_part a' = fixed_part a → fixed_part <$> <[tid := a']> l = fixed_part <$> l.
Proof. intros Ha E. rewrite list_fmap_insert, E. apply list_insert_id. by rewrite list_lookup_fmap, Ha. Qed.

Section moves.
Context tid a a' p p' (Hm : moves tid a a' p p').

Lemma moves_total f : (total f (actors p') + f a = total f (actors p) + f a')%nat.
Proof. rewrite (mv_actors _ _ _ _ _ Hm). apply total_update, Hm. Qed.

Lemma moves_lookup t b : actors p' !! t = Some b → t = tid ∧ b = a' ∨ t ≠ tid ∧ actors p !! t = Some b.
Proof. rewrite (mv_actors _ _ _ _ _ Hm). intros [(<- & <- & _) | [? ?]]%list_lookup_insert_Some; auto. Qed.

Lemma moves_counted : counted p → counted p'.
Proof.
  intros C. pose proof C as [Cs Cf Cc Cm Cw Ci Cg Ca]. split.
  - destruct (mv_queue _ _ _ _ _ Hm) as [[_ ->] | (_ & -> & _)]; done.
  - rewrite (mv_actors _ _ _ _ _ Hm). rewrite <- Cf. eapply update_fixed; apply Hm.
  - destruct (mv_queue _ _ _ _ _ Hm) as [[-> ->] | (_ & _ & ?)]; done.
  - pose proof (moves_total holds). pose proof (mv_mutex _ _ _ _ _ Hm). lia.
  - pose proof (moves_total pushes_left). pose proof (moves_total pops_left). pose proof (mv_work _ _ _ _ _ Hm). lia.
  - intros z. pose proof (moves_total (λ a, occ z (pushed a))). pose proof (moves_total (λ a, occ z (in_hand a))).
    pose proof (mv_items _ _ _ _ _ Hm z). specialize (Ci z). simpl in *. lia.
  - intros x. pose proof (moves_total (adds_left x)). pose proof (mv_gen _ _ _ _ _ Hm x). specialize (Cg x). lia.
  - intros t b [[-> ->] | [Hne Hb]]%moves_lookup; [apply Hm |]. destruct (Ca t b Hb) as [O1 O2 O3 O4]. split; [done | done | |].
    + destruct (mv_queue _ _ _ _ _ Hm) as [[Hq Hc] | (Hh & _)].
      * unfold resource in *. by rewrite Hq, Hc.
      * assert (holds b ≠ 1%nat) as H0 by (intros Hb1; apply Hne; eapply (cq_one_holder p t tid b a); eauto; apply Hm).
        unfold holds in H0. by destruct (phase_ b).
    + intros x g Hg. specialize (O4 x g Hg). pose proof (mv_gen _ _ _ _ _ Hm x). lia.
Qed.

Lemma moves_suspended : suspended p → suspended p'.
Proof.
  intros [Si Sn]. pose proof (mv_lookup _ _ _ _ _ Hm) as Ha.
  assert (∀ y, tid ∉ waiting y p) as Hnt.
  { intros y (b & Hb & Hs)%Si. simplify_eq. by rewrite (mv_awake _ _ _ _ _ Hm) in Hs. }
  split.
  - intros y t. rewrite (mv_waiting _ _ _ _ _ Hm), elem_of_app, Si. split.
    + intros [(b & Hb & Hs) | Ht].
      * exists b. split; [| done]. rewrite (mv_actors _ _ _ _ _ Hm), list_lookup_insert_ne; [done |].
        intros <-. simplify_eq. by rewrite (mv_awake _ _ _ _ _ Hm) in Hs.
      * destruct (asleep y a') eqn:Hs; [| set_solver]. apply list_elem_of_singleton in Ht as ->. exists a'. split; [| done].
        rewrite (mv_actors _ _ _ _ _ Hm). apply list_lookup_insert_eq. by eapply lookup_lt_Some.
    + intros (b & [[-> ->] | [Hne Hb]]%moves_lookup & Hs); [right; rewrite Hs; left | left; eauto].
  - intros y. rewrite (mv_waiting _ _ _ _ _ Hm). destruct (asleep y a'); [| by rewrite app_nil_r].
    apply NoDup_snoc. auto.
Qed.

Lemma moves_fresh : counted p → fresh_covered p → fresh_covered p'.
Proof.
  intros C F x t b Hb Hw. pose proof (moves_total (unadded x)) as Hu.
  apply moves_lookup in Hb as [[-> ->] | [Hne Hb]].
  - destruct (mv_fresh _ _ _ _ _ Hm x Hw) as [[Hg Heq] | H0]; [| lia].
    rewrite Hg in Hw. rewrite <- Heq in Hw. specialize (F x tid a (mv_lookup _ _ _ _ _ Hm) Hw).
    destruct (mv_others _ _ _ _ _ Hm x); lia.
  - pose proof (ok_gen _ _ (co_actor _ C _ _ Hb) x _ Hw) as Hle.
    destruct (mv_others _ _ _ _ _ Hm x) as [Hlt | Hr]; [lia |].
    pose proof (mv_gen _ _ _ _ _ Hm x) as [Hmono _].
    assert (generation x p' = generation x p) as Hg by lia. rewrite Hg in Hw. specialize (F x t b Hb Hw). lia.
Qed.

(** The others are not less awake when the generation changes. *)
Lemma moves_others_awake x : counted p →
  (total (awake x (generation x p)) (actors p) + awake x (generation x p') a'
   ≤ total (awake x (generation x p')) (actors p') + awake x (generation x p) a)%nat.
Proof.
  intros C. pose proof (moves_total (awake x (generation x p'))) as Hu.
  destruct (Z.eq_dec (generation x p') (generation x p)) as [Hg | Hg].
  { rewrite Hg in *. lia. }
  assert (generation x p < generation x p') as Hlt by (pose proof (mv_gen _ _ _ _ _ Hm x); lia).
  assert (∀ t b, actors p !! t = Some b → (awake x (generation x p) b ≤ awake x (generation x p') b)%nat) as Hle.
  { intros t b Hb. pose proof (λ g, ok_gen _ _ (co_actor _ C _ _ Hb) x g) as Hgen. unfold waits_with in Hgen. unfold awake.
    case_decide; [| done].
    destruct (phase_ b) as [ | | | g ? | g | g | | | | | | |]; try done; specialize (Hgen g eq_refl); rewrite (proj2 (Z.eqb_neq g (generation x p'))) by lia;
      destruct (_ =? _); lia. }
  pose proof (mv_lookup _ _ _ _ _ Hm) as Ha.
  pose proof (total_update (awake x (generation x p)) (actors p) tid a (at_phase PhDone a) Ha) as U1.
  pose proof (total_update (awake x (generation x p')) (actors p) tid a (at_phase PhDone a) Ha) as U2.
  assert (∀ v, awake x v (at_phase PhDone a) = 0%nat) as Hz by (intros v; unfold awake; by case_decide).
  rewrite Hz in U1, U2.
  assert (total (awake x (generation x p)) (<[tid := at_phase PhDone a]> (actors p))
    ≤ total (awake x (generation x p')) (<[tid := at_phase PhDone a]> (actors p)))%nat as Hrest.
  { apply total_le. intros i b [(<- & <- & _) | [_ Hb]]%list_lookup_insert_Some; [by rewrite !Hz | by eapply Hle]. }
  lia.
Qed.

Lemma moves_attended x : invariant p → attended x p'.
Proof.
  intros [C S F A M] Hw. pose proof (moves_total (unadded x)). pose proof (moves_total (unnotified x)).
  pose proof (moves_others_awake x C) as Haw.
  destruct (mv_attended _ _ _ _ _ Hm x) as [[Hs Hf] | [Hs [Hz | Hr]]].
  - pose proof (moves_fresh C F) as F'.
    assert (actors p' !! tid = Some a') as Ha'.
    { rewrite (mv_actors _ _ _ _ _ Hm). apply list_lookup_insert_eq. eapply lookup_lt_Some, Hm. }
    specialize (F' x tid a' Ha' Hf). lia.
  - by apply Hz.
  - rewrite (mv_waiting _ _ _ _ _ Hm), Hs, app_nil_r in Hw. specialize (A x Hw). lia.
Qed.

Lemma moves_mutex : mutex_attended p → mutex_attended p'.
Proof.
  intros M Hw Hl. pose proof (moves_total trying). pose proof (moves_total freeing).
  assert (actors p' !! tid = Some a') as Ha'.
  { rewrite (mv_actors _ _ _ _ _ Hm). apply list_lookup_insert_eq. eapply lookup_lt_Some, Hm. }
  pose proof (total_ge trying _ _ _ Ha'). pose proof (total_ge freeing _ _ _ Ha').
  destruct (mv_wanted _ _ _ _ _ Hm) as [Hd | [? | (El & Es & Hle)]]; [by apply Hd | lia |].
  rewrite (mv_waiting _ _ _ _ _ Hm), Es, app_nil_r in Hw. rewrite El in Hl. specialize (M Hw Hl). lia.
Qed.

Lemma moves_invariant : invariant p → invariant p'.
Proof.
  intros I. pose proof I as [C S F A M]. split; [by apply moves_counted | by apply moves_suspended | by apply moves_fresh |
    intros x; by apply moves_attended | by apply moves_mutex].
Qed.
End moves.

(** A resource that is not there needs no attention. *)
Lemma nothing_attended x p : resource x p ≤ 0 → attended x p.
Proof. intros Hr _. lia. Qed.
Lemma locked_attended p : locked p = true → mutex_attended p.
Proof. intros Hl _. by rewrite Hl. Qed.

(** *** Waking *)

(** The first waiter of a futex goes on. *)
Definition pop_waiter y p : Prog :=
  put_actors (wake_one (head (waiting y p)) (actors p))
    (match y with
     | None => put_mutex (locked p, tail (waiting None p)) p
     | Some x => put_cv x (generation x p, tail (waiting (Some x) p)) p
     end).

Lemma pop_rest y p :
  queue_ (pop_waiter y p) = queue_ p ∧ capacity_ (pop_waiter y p) = capacity_ p ∧ output (pop_waiter y p) = output p ∧
  locked (pop_waiter y p) = locked p ∧ (∀ x, generation x (pop_waiter y p) = generation x p) ∧
  (∀ x, resource x (pop_waiter y p) = resource x p) ∧
  (∀ y', waiting y' (pop_waiter y p) = if decide (y' = y) then tail (waiting y p) else waiting y' p).
Proof.
  destruct y as [[]|]; simpl; split_and!; try done; try (by intros []).
  all: by intros [[]|].
Qed.

Lemma wake_asleep y a : asleep y (wake_actor a) = false.
Proof. by destruct a as [r i n [[] | | | | | | | | | | | |] z]. Qed.

Lemma asleep_one y y' a : asleep y a = true → asleep y' a = true → y = y'.
Proof. unfold asleep. destruct (phase_ a) as [[] | | | | | | | | | | | |]; try done; intros ?%bool_decide_eq_true ?%bool_decide_eq_true; congruence. Qed.

(** What waking changes. *)
Lemma wake_keeps_waits x a : waits_with x (wake_actor a) = waits_with x a.
Proof. by destruct a as [r i n [[] | | | | | | | | | | | |] z]. Qed.
Lemma wake_ok p p' a :
  (∀ x, generation x p' = generation x p) → (∀ x, resource x p' = resource x p) → actor_ok p a → actor_ok p' (wake_actor a).
Proof.
  intros Hg Hr [O1 O2 O3 O4]. destruct a as [r i n ph z]; split; simpl in *.
  - destruct ph as [[] | | | | | | | | | | | |]; simpl; intros Hn; apply O1; first [exact Hn | done].
  - destruct ph as [[] | | | | | | | | | | | |]; simpl; try done; exact O2.
  - destruct ph as [[] | | | | | | | | | | | |]; simpl in *; rewrite ?Hr; done.
  - intros x g Hw. rewrite wake_keeps_waits in Hw. rewrite Hg. eauto.
Qed.
Lemma wake_awake x v a : (awake x v a ≤ awake x v (wake_actor a))%nat.
Proof. destruct a as [r i n [[] | | | | | | | | | | | |] z]; unfold awake; simpl; case_decide; try done. destruct (_ =? _); lia. Qed.
Lemma wake_trying a : (trying a ≤ trying (wake_actor a))%nat.
Proof. destruct a as [r i n [[] | | | | | | | | | | | |] z]; unfold trying; simpl; lia. Qed.

Section pop.
Context y t ws a p (Hw : waiting y p = t :: ws) (Ha : actors p !! t = Some a) (Hs : asleep y a = true).
Abbreviation p' := (pop_waiter y p).

Lemma pop_actors : actors p' = <[t := wake_actor a]> (actors p).
Proof. unfold pop_waiter. rewrite Hw. simpl. by apply alter_lookup. Qed.

Lemma pop_total f : (total f (actors p') + f a = total f (actors p) + f (wake_actor a))%nat.
Proof. rewrite pop_actors. by apply total_update. Qed.

Lemma pop_same f : f (wake_actor a) = f a → total f (actors p') = total f (actors p).
Proof. intros E. pose proof (pop_total f). lia. Qed.

Lemma pop_lookup s b : actors p' !! s = Some b → s = t ∧ b = wake_actor a ∨ s ≠ t ∧ actors p !! s = Some b.
Proof. rewrite pop_actors. intros [(<- & <- & _) | [? ?]]%list_lookup_insert_Some; auto. Qed.

Lemma pop_counted : counted p → counted p'.
Proof.
  intros [Cs Cf Cc Cm Cw Ci Cg Ca]. destruct (pop_rest y p) as (E1 & E2 & E3 & E4 & E5 & E6 & _).
  split; rewrite ?E1, ?E2, ?E3, ?E4; [done | | done | | | | |].
  all: try rewrite (pop_same holds); try rewrite (pop_same pushes_left); try rewrite (pop_same pops_left); try done.
  all: try (by destruct a as [[] i n [[] | | | | | | | | | | | |] z]).
  - rewrite pop_actors, <- Cf. eapply update_fixed; [exact Ha |]. by destruct a as [r i n [[] | | | | | | | | | | | |] z].
  - intros z. rewrite !pop_same; [done | |]; by destruct a as [[] i n [[] | | | | | | | | | | | |] v].
  - intros x. rewrite E5, pop_same; [done |]. by destruct a as [[] i n [[] | | | | | | | | | | | |] v].
  - intros s b [[-> ->] | [_ Hb]]%pop_lookup; [by eapply (wake_ok p), Ca |].
    destruct (Ca _ _ Hb) as [O1 O2 O3 O4]. split; [done | done | | intros x g Hg; rewrite E5; eauto].
    destruct (phase_ b); by rewrite ?E6.
Qed.

Lemma pop_suspended : suspended p → suspended p'.
Proof.
  intros [Si Sn]. destruct (pop_rest y p) as (_ & _ & _ & _ & _ & _ & E). split.
  - intros y' s. rewrite E.
    assert ((∃ b, actors p' !! s = Some b ∧ asleep y' b = true) ↔ s ≠ t ∧ s ∈ waiting y' p) as ->.
    { rewrite Si. split.
      - intros (b & [[-> ->] | [Hne Hb]]%pop_lookup & Hs'); [by rewrite wake_asleep in Hs' | eauto].
      - intros (Hne & b & Hb & Hs'). exists b. by rewrite pop_actors, list_lookup_insert_ne. }
    case_decide as Hy; subst.
    + rewrite Hw. pose proof (Sn y) as Hnd. rewrite Hw in Hnd. apply NoDup_cons in Hnd as [Hnot _]. simpl. set_solver.
    + split; [| tauto]. intros Hin. split; [| done]. intros ->. apply Si in Hin as (b & Hb & Hs'). simplify_eq.
      apply Hy. by eapply asleep_one.
  - intros y'. rewrite E. case_decide; [| done]. pose proof (Sn y) as Hnd. rewrite Hw in Hnd |- *. by apply NoDup_cons in Hnd as [_ ?].
Qed.

Lemma pop_fresh : fresh_covered p → fresh_covered p'.
Proof.
  intros F x s b Hb Hf. destruct (pop_rest y p) as (_ & _ & _ & _ & E5 & E6 & _). rewrite E5 in Hf. rewrite E6.
  rewrite (pop_same (unadded x)) by (by destruct a as [[] i n [[] | | | | | | | | | | | |] v]).
  apply pop_lookup in Hb as [[-> ->] | [_ Hb]]; [rewrite wake_keeps_waits in Hf |]; eauto.
Qed.

Lemma pop_attended x : attended x p → attended x p'.
Proof.
  intros A Hne. destruct (pop_rest y p) as (_ & _ & _ & _ & E5 & E6 & E). rewrite E in Hne. rewrite E5, E6.
  assert (waiting (Some x) p ≠ []) as Hne' by (case_decide; [subst; by rewrite Hw | done]). specialize (A Hne').
  rewrite (pop_same (unadded x)), (pop_same (unnotified x)) by (by destruct a as [[] i n [[] | | | | | | | | | | | |] v]).
  pose proof (pop_total (awake x (generation x p))). pose proof (wake_awake x (generation x p) a). lia.
Qed.

Lemma pop_mutex : mutex_attended p → mutex_attended p'.
Proof.
  intros M Hne Hl. destruct (pop_rest y p) as (_ & _ & _ & E4 & _ & _ & E). rewrite E in Hne. rewrite E4 in Hl.
  assert (waiting None p ≠ []) as Hne' by (case_decide; [subst; by rewrite Hw | done]). specialize (M Hne' Hl).
  rewrite (pop_same freeing) by (by destruct a as [[] i n [[] | | | | | | | | | | | |] v]).
  pose proof (pop_total trying). pose proof (wake_trying a). lia.
Qed.
End pop.

(** Waking the first waiter keeps the invariant. *)
Lemma pop_invariant y p : invariant p → invariant (pop_waiter y p).
Proof.
  intros I. pose proof I as [C S F A M]. destruct (waiting y p) as [|t ws] eqn:Hw.
  - assert (pop_waiter y p = p) as ->; [| done]. unfold pop_waiter. rewrite Hw. simpl.
    destruct p as [q c [m mw] [e ew] [f fw] l o]. destruct y as [[]|]; simpl in *; by subst.
  - destruct (proj1 (su_iff _ S y t)) as (a & Ha & Hs); [rewrite Hw; left |].
    split; [by eapply pop_counted | by eapply pop_suspended | by eapply pop_fresh | intros x; by eapply pop_attended | by eapply pop_mutex].
Qed.

(** A coroutine that was awake is not changed. *)
Lemma pop_other y p tid a :
  suspended p → actors p !! tid = Some a → asleep y a = false → actors (pop_waiter y p) !! tid = Some a.
Proof.
  intros S Ha Hs. unfold pop_waiter. simpl. destruct (waiting y p) as [|t ws] eqn:Hw; [done |]. simpl.
  rewrite list_lookup_alter_ne; [done |]. intros ->. destruct (proj1 (su_iff _ S y tid)) as (b & Hb & Hb'); [rewrite Hw; left |].
  simplify_eq. congruence.
Qed.

(** After a notification of the mutex somebody tries to lock it, if anybody waits. *)
Lemma pop_mutex_trying p : suspended p → waiting None (pop_waiter None p) ≠ [] → (0 < total trying (actors (pop_waiter None p)))%nat.
Proof.
  intros S. destruct (pop_rest None p) as (_ & _ & _ & _ & _ & _ & ->). rewrite decide_True by done.
  destruct (waiting None p) as [|t ws] eqn:Hw; [done |]. intros _.
  destruct (proj1 (su_iff _ S None t)) as (a & Ha & Hs); [rewrite Hw; left |].
  assert (actors (pop_waiter None p) !! t = Some (wake_actor a)) as Ht.
  { rewrite (pop_actors None t ws a p Hw Ha). apply list_lookup_insert_eq. by eapply lookup_lt_Some. }
  pose proof (total_ge trying _ _ _ Ht) as Hge. assert (trying (wake_actor a) = 1%nat); [| lia].
  unfold asleep in Hs. destruct a as [r i n [[] | | | | | | | | | | | |] z]; done.
Qed.

(** After a notification of [x]: somebody more is awake, or nothing was missing. *)
Lemma pop_cv_awake x p :
  invariant p → waiting (Some x) (pop_waiter (Some x) p) ≠ [] →
  let p' := pop_waiter (Some x) p in
  resource x p' ≤ Z.of_nat (total (unadded x) (actors p')) ∨
  resource x p' < Z.of_nat (total (unadded x) (actors p') + total (unnotified x) (actors p')
                            + total (awake x (generation x p')) (actors p')).
Proof.
  intros [C S F A M] Hne. destruct (pop_rest (Some x) p) as (_ & _ & _ & _ & E5 & E6 & E). rewrite E in Hne.
  rewrite decide_True in Hne by done. destruct (waiting (Some x) p) as [|t ws] eqn:Hw; [done |]. cbv zeta. rewrite E5, E6.
  destruct (proj1 (su_iff _ S (Some x) t)) as (a & Ha & Hs); [rewrite Hw; left |].
  rewrite (pop_same (Some x) t ws a p Hw Ha (unadded x)), (pop_same (Some x) t ws a p Hw Ha (unnotified x))
    by (by destruct a as [[] i n [[] | | | | | | | | | | | |] v]).
  pose proof (pop_total (Some x) t ws a p Hw Ha (awake x (generation x p))) as Hu.
  unfold asleep in Hs. destruct (phase_ a) as [[] | | | | | | g | | | | | |] eqn:Hph; try done.
  apply bool_decide_eq_true in Hs. injection Hs as Hx.
  assert (waits_with x a = Some g) as Hg by (unfold waits_with; rewrite decide_True, Hph; done).
  destruct (Z.eq_dec g (generation x p)) as [-> | Hng]; [left; by eapply F |]. right.
  assert (attended x p) as Ax by done. specialize (Ax ltac:(by rewrite Hw)).
  assert (awake x (generation x p) a = 0%nat ∧ awake x (generation x p) (wake_actor a) = 1%nat) as [E1 E2]; [| lia].
  unfold wake_actor, awake. rewrite Hph. simpl. rewrite !decide_True by done. by rewrite (proj2 (Z.eqb_neq _ _)).
Qed.

(** *** Every step keeps it *)

(** The contributions of a coroutine whose role and phase are known. *)
Ltac contributions :=
  unfold holds, trying, freeing, pushes_left, pops_left, adds_left, unadded, unnotified, accesses_left, waits_with, awake,
    asleep, in_hand, pushed, resource in *; simpl in *.

Lemma cq_pushed_same a a' :
  role_ a' = role_ a → loop_count a' = loop_count a → pushes_left a' = pushes_left a → pushed a' = pushed a.
Proof. unfold pushed. by intros -> -> ->. Qed.

(** The cases of a [moves] after which only arithmetic is left. *)
Ltac ok_solve :=
  match goal with
  | |- actor_ok _ _ =>
      split; simpl; [done | done | first [done | contributions; lia] |
        match goal with
        | H : ∀ x g, waits_with x _ = Some g → _ |- _ => let x := fresh in let g := fresh in let E := fresh in
            intros x g E; first [specialize (H x g E); by destruct x | destruct x; contributions; simplify_eq; lia]
        end]
  end.
Ltac attended_solve :=
  match goal with
  | |- ∀ x, asleep (Some x) _ = true ∧ _ ∨ _ =>
      intros []; right; (split; [done |]);
      first [right; contributions; repeat (match goal with |- context [?g =? ?v] => destruct (Z.eqb_spec g v) end); lia |
             left; apply nothing_attended; contributions; lia]
  end.
Ltac moves_solve :=
  try ok_solve; try attended_solve;
  try done; try (split_and!; done); try lia;
  try (by intros [[]|]; simpl; rewrite ?app_nil_r);
  try (intros []; contributions; try simplify_option_eq; first [done | lia | naive_solver lia]);
  try (contributions; first [done | lia | naive_solver lia]).

Ltac one_move I Ha :=
  eexists _, _; split; [done |]; eapply moves_invariant; [| exact I]; split; [exact Ha | reflexivity | reflexivity | ..]; simpl; moves_solve.

Lemma lock_keeps tid a weak pc p :
  invariant p → actors p !! tid = Some a → phase_ a = PhLock pc →
  ∃ b p', step_from tid weak a p = Done b p' ∧ invariant p'.
Proof.
  intros I Ha Hph. pose proof (co_actor _ (in_counted _ I) _ _ Ha) as [Hi Hp Hs Hg].
  unfold step_from. rewrite Hph. destruct a as [r i n ph z]. simpl in *. subst ph. specialize (Hi ltac:(done)).
  unfold on_mutex, goes_on. destruct pc; simpl; run_st.
  - destruct (locked p) eqn:El; [| destruct weak]; simpl; one_move I Ha; [by rewrite El | left; by apply locked_attended].
  - case_bool_decide as El; one_move I Ha. left. by apply locked_attended.
  - eexists _, _. split; [done |]. by destruct p.
Qed.

Lemma test_keeps tid a weak p :
  invariant p → actors p !! tid = Some a → phase_ a = PhTest ∨ phase_ a = PhLoad →
  ∃ b p', step_from tid weak a p = Done b p' ∧ invariant p'.
Proof.
  intros I Ha Hph. pose proof (co_actor _ (in_counted _ I) _ _ Ha) as [Hi Hp Hs Hg].
  unfold step_from. destruct a as [r i n ph z]. simpl in *. destruct Hph as [-> | ->]; specialize (Hi ltac:(done)); run_st.
  - unfold must_wait. destruct r as [| id]; [destruct (Z.leb_spec (capacity_ p) (Z.of_nat (length (queue_ p)))) as [Hq | Hq] |
      case_bool_decide as Hq; [assert (length (queue_ p) = 0%nat) by (by rewrite Hq) |
        assert (length (queue_ p) ≠ 0%nat) by (by rewrite length_zero_iff_nil)]]; one_move I Ha.
  - destruct r as [| id]; one_move I Ha.
Qed.

Lemma unlock_store_keeps tid a weak p :
  invariant p → actors p !! tid = Some a → phase_ a = PhUnlock UnStore ∨ (∃ g, phase_ a = PhCvUnlock g UnStore) →
  ∃ b p', step_from tid weak a p = Done b p' ∧ invariant p'.
Proof.
  intros I Ha Hph. pose proof (co_actor _ (in_counted _ I) _ _ Ha) as [Hi Hp Hs Hg].
  pose proof (co_mutex _ (in_counted _ I)) as Hmx. pose proof (total_ge holds _ _ _ Ha) as Hh.
  unfold step_from. destruct a as [r i n ph z]. simpl in *. destruct Hph as [-> | [g ->]]; specialize (Hi ltac:(done)); run_st.
  all: unfold holds in Hh at 1; simpl in Hh; assert (locked p = true) as El by (destruct (locked p); simpl in *; [done | lia]).
  - one_move I Ha. by rewrite El.
  - one_move I Ha. by rewrite El.
Qed.

Lemma cv_keeps tid a weak g p :
  invariant p → actors p !! tid = Some a → phase_ a = PhCvTest g ∨ phase_ a = PhCvWait g ∨ phase_ a = PhCvSleep g →
  ∃ b p', step_from tid weak a p = Done b p' ∧ invariant p'.
Proof.
  intros I Ha Hph. pose proof (co_actor _ (in_counted _ I) _ _ Ha) as [Hi Hp Hs Hg].
  unfold step_from. destruct a as [r i n ph z]. simpl in *. destruct Hph as [-> | [-> | ->]]; specialize (Hi ltac:(done)); run_st.
  - destruct (Z.eqb_spec (generation (waits_on r) p) g) as [Eg | Eg]; destruct r as [| id]; one_move I Ha.
  - case_bool_decide as Eg; destruct r as [| id]; simpl in *; one_move I Ha.
  - eauto.
Qed.

Lemma cq_access_keeps tid a weak p :
  invariant p → actors p !! tid = Some a → phase_ a = PhAccess →
  ∃ b p', step_from tid weak a p = Done b p' ∧ invariant p'.
Proof.
  intros I Ha Hph. pose proof (co_actor _ (in_counted _ I) _ _ Ha) as [Hi Hp Hs Hg].
  unfold step_from. rewrite Hph. destruct a as [r i n ph z]. simpl in *. subst ph. specialize (Hi ltac:(done)).
  pose proof (co_capacity _ (in_counted _ I)) as Hc. unfold access. run_st. destruct r as [| id].
  - pose proof (length_app (queue_ p) [s32 (Z.of_nat i)]) as Hl. simpl in Hl. unfold resource in Hs. simpl in Hs. one_move I Ha.
    intros y. unfold pushed, pushes_left, accesses_left. simpl. rewrite occ_app.
    replace (n - (n - i))%nat with i by lia. replace (n - (n - S i))%nat with (S i) by lia.
    rewrite seq_S, fmap_app, occ_app. simpl. lia.
  - destruct (queue_ p) as [|item q] eqn:Eq; [unfold resource in Hs; rewrite Eq in Hs; simpl in Hs; lia |].
    assert (length (queue_ p) = S (length q)) as Hl by (by rewrite Eq). simpl in Hc. one_move I Ha.
    intros y. rewrite Eq. change (item :: q) with ([item] ++ q). rewrite occ_app. unfold in_hand. simpl. lia.
Qed.

Lemma rest_keeps tid a weak p :
  invariant p → actors p !! tid = Some a → phase_ a = PhNotify NtAdd ∨ phase_ a = PhPrint ∨ phase_ a = PhSwitch ∨ phase_ a = PhDone →
  ∃ b p', step_from tid weak a p = Done b p' ∧ invariant p'.
Proof.
  intros I Ha Hph. pose proof (co_actor _ (in_counted _ I) _ _ Ha) as [Hi Hp Hs Hg].
  unfold step_from. destruct a as [r i n ph z]. simpl in *.
  destruct Hph as [-> | [-> | [-> | ->]]]; [specialize (Hi ltac:(done)).. |]; run_st.
  - pose proof (co_gen _ (in_counted _ I) (notifies r)) as Hgen. pose proof (total_ge (adds_left (notifies r)) _ _ _ Ha) as Hadd.
    unfold adds_left at 1, unadded in Hadd. simpl in Hadd. rewrite !decide_True in Hadd by done.
    rewrite (wrap_small 32) by lia. destruct r as [| id]; simpl; one_move I Ha.
  - destruct r as [| id]; [by destruct Hp |]. one_move I Ha.
    intros y. rewrite fmap_app, occ_app. unfold in_hand. simpl. lia.
  - unfold next_iteration, loop_head. simpl. case_bool_decide as Hn; destruct r as [| id]; one_move I Ha.
    intros y. rewrite (cq_pushed_same (mkActor Producer i n PhSwitch z)); [done.. |]. contributions. lia.
  - eauto.
Qed.

(** The coroutine goes on after its notification has woken the first waiter. *)
Lemma mutex_notified tid a a' p :
  invariant p → actors p !! tid = Some a →
  phase_ a = PhUnlock UnNotify ∧ a' = at_phase (PhNotify NtAdd) a ∨
  (∃ g, phase_ a = PhCvUnlock g UnNotify ∧ a' = at_phase (PhCvTest g) a) →
  invariant (put_actors (<[tid := a']> (actors (pop_waiter None p))) (pop_waiter None p)).
Proof.
  intros I Ha Hph. pose proof (pop_invariant None p I) as I1.
  assert (actors (pop_waiter None p) !! tid = Some a) as Ha1.
  { apply pop_other; [apply I | done |]. unfold asleep. by destruct Hph as [[-> _] | (g & -> & _)]. }
  pose proof (pop_mutex_trying p (in_suspended _ I)) as Ht. revert I1 Ha1 Ht. generalize (pop_waiter None p). intros p1 I1 Ha1 Ht.
  pose proof (co_actor _ (in_counted _ I1) _ _ Ha1) as [Hi Hp Hs Hg].
  assert (mutex_attended (put_actors (<[tid := a']> (actors p1)) p1)) as Hm.
  { intros Hw _. specialize (Ht Hw). simpl. pose proof (total_update trying _ _ _ a' Ha1) as Hu.
    assert (trying a = 0%nat) by (unfold trying; by destruct Hph as [[-> _] | (g & -> & _)]). lia. }
  destruct a as [r i n ph z]. simpl in *.
  destruct Hph as [[-> ->] | (g & -> & ->)]; specialize (Hi ltac:(done)); eapply moves_invariant; [| exact I1 | | exact I1];
    (split; [exact Ha1 | reflexivity | reflexivity | ..]; simpl; try (by left); moves_solve).
Qed.

Lemma cv_notified tid a p :
  invariant p → actors p !! tid = Some a → phase_ a = PhNotify NtNotify →
  let p1 := pop_waiter (Some (notifies (role_ a))) p in
  invariant (put_actors (<[tid := at_phase (match role_ a with Producer => PhSwitch | Consumer _ => PhPrint end) a]> (actors p1)) p1).
Proof.
  intros I Ha Hph. cbv zeta. set (x := notifies (role_ a)). pose proof (pop_invariant (Some x) p I) as I1.
  assert (actors (pop_waiter (Some x) p) !! tid = Some a) as Ha1.
  { apply pop_other; [apply I | done |]. unfold asleep. by rewrite Hph. }
  pose proof (pop_cv_awake x p I) as Ht. cbv zeta in Ht. revert I1 Ha1 Ht. generalize (pop_waiter (Some x) p). intros p1 I1 Ha1 Ht.
  pose proof (co_actor _ (in_counted _ I1) _ _ Ha1) as [Hi Hp Hs Hg].
  set (a' := at_phase _ a). assert (attended x (put_actors (<[tid := a']> (actors p1)) p1)) as Hx.
  { intros Hw. assert (waiting (Some x) p1 ≠ []) as Hw' by (by destruct x). specialize (Ht Hw').
    pose proof (total_update (unadded x) _ _ _ a' Ha1) as U1. pose proof (total_update (unnotified x) _ _ _ a' Ha1) as U2.
    pose proof (total_update (awake x (generation x p1)) _ _ _ a' Ha1) as U3.
    assert (unadded x a = 0%nat ∧ unnotified x a = 1%nat ∧ awake x (generation x p1) a = 0%nat) as (E1 & E2 & E3).
    { unfold unadded, unnotified, awake. rewrite Hph. rewrite decide_True by done. by case_decide. }
    assert (generation x (put_actors (<[tid := a']> (actors p1)) p1) = generation x p1) as -> by (by destruct x).
    assert (resource x (put_actors (<[tid := a']> (actors p1)) p1) = resource x p1) as -> by done. simpl. lia. }
  subst a' x. destruct a as [r i n ph z]. simpl in *. subst ph. specialize (Hi ltac:(done)).
  destruct r as [| id]; eapply moves_invariant; [| exact I1 | | exact I1];
    (split; [exact Ha1 | reflexivity | reflexivity | ..]; simpl; moves_solve).
  all: intros []; right; (split; [done |]); first [left; exact Hx | right; contributions; lia].
Qed.

(** Each step of each coroutine. *)
Lemma cq_actor_step_keeps tid weak p : invariant p → ∃ b p', actor_step tid weak p = Done b p' ∧ invariant p'.
Proof.
  intros I. unfold actor_step. rewrite bind_get. destruct (actors p !! tid) as [a|] eqn:Ha; [| by eexists _, _].
  destruct (phase_ a) as [pc | | | g pc | g | g | g | | pc | pc | | |] eqn:Hph.
  - by eapply lock_keeps.
  - eapply test_keeps; eauto.
  - eapply test_keeps; eauto.
  - destruct pc; [eapply unlock_store_keeps; eauto |]. unfold step_from. rewrite Hph.
    eexists _, _. split; [reflexivity |]. apply (mutex_notified tid a (at_phase (PhCvTest g) a) p I Ha). right. eauto.
  - eapply cv_keeps; eauto.
  - eapply cv_keeps; eauto.
  - eapply cv_keeps; eauto.
  - by eapply cq_access_keeps.
  - destruct pc; [eapply unlock_store_keeps; eauto |]. unfold step_from. rewrite Hph.
    eexists _, _. split; [reflexivity |]. apply (mutex_notified tid a (at_phase (PhNotify NtAdd) a) p I Ha). by left.
  - destruct pc; [eapply rest_keeps; eauto |]. unfold step_from. rewrite Hph. pose proof (cv_notified tid a p I Ha Hph) as Hn.
    eexists _, _. split; [| exact Hn]. by destruct (role_ a).
  - eapply rest_keeps; eauto.
  - eapply rest_keeps; eauto.
  - eapply rest_keeps; eauto.
Qed.

Lemma cq_reachable_invariant p p' : invariant p → rtc program_step p p' → invariant p'.
Proof.
  intros I. induction 1 as [|p1 p2 p3 [tid weak q1 q2 E] _ IH]; [done |]. apply IH.
  destruct (cq_actor_step_keeps tid weak q1 I) as (b & q & E' & Hi). assert (q = q2) as <- by congruence. done.
Qed.

(** *** No deadlock *)

(** A coroutine without a step has ended or is suspended. *)
Lemma cq_stuck_actor tid a p :
  invariant p → actors p !! tid = Some a → (∀ p', actor_step tid false p ≠ Done true p') →
  phase_ a = PhDone ∨ phase_ a = PhLock LkSleep ∨ ∃ g, phase_ a = PhCvSleep g.
Proof.
  intros I Ha Hst. destruct (cq_actor_step_keeps tid false p I) as (b & p' & E & _). specialize (Hst p').
  destruct b; [done |]. unfold actor_step in E. rewrite bind_get, Ha in E. unfold step_from in E.
  destruct (phase_ a) as [[] | | | g [] | g | g | g | | [] | [] | | |] eqn:Hph; try (by left); try (by right; left); try (by right; right; eexists);
    exfalso; revert E; unfold goes_on, access, on_mutex, on_cv, wake; run_st; try done.
  - run_st. by destruct (locked p).
  - destruct (role_ a); [done |]. by destruct (queue_ p).
Qed.

(** When no coroutine has a step, all have ended. *)
Lemma cq_stuck_done p :
  0 < capacity_ p → invariant p → (∀ tid p', actor_step tid false p ≠ Done true p') →
  ∀ tid a, actors p !! tid = Some a → phase_ a = PhDone.
Proof.
  intros Hcap I Hst. pose proof I as [[_ _ Cc Cm Cw _ _ Ca] [Si _] _ At Mt].
  assert (∀ tid a, actors p !! tid = Some a → phase_ a = PhDone ∨ phase_ a = PhLock LkSleep ∨ ∃ g, phase_ a = PhCvSleep g) as Hph.
  { intros tid a Ha. by eapply cq_stuck_actor. }
  assert (∀ y tid a, actors p !! tid = Some a → asleep y a = true → waiting y p ≠ []) as Hne.
  { intros y tid a Ha Has E. apply (not_elem_of_nil (A := nat) tid). rewrite <- E. apply Si. eauto. }
  assert (locked p = false) as Hl.
  { rewrite total_zero in Cm; [by destruct (locked p) |]. intros j b Hb. unfold holds. by destruct (Hph _ _ Hb) as [-> | [-> | [g ->]]]. }
  assert (∀ tid a, actors p !! tid = Some a → phase_ a = PhDone ∨ ∃ g, phase_ a = PhCvSleep g) as Hph'.
  { intros tid a Ha. destruct (Hph _ _ Ha) as [? | [Hs | ?]]; [by left | exfalso | by right].
    assert (waiting None p ≠ []) as Hw by (apply (Hne None tid a Ha); unfold asleep; by rewrite Hs). specialize (Mt Hw Hl).
    rewrite !total_zero in Mt; [lia | |]; intros j b Hb; unfold trying, freeing; by destruct (Hph _ _ Hb) as [-> | [-> | [g ->]]]. }
  assert (∀ tid a, actors p !! tid = Some a → 0 < resource (waits_on (role_ a)) p → phase_ a = PhDone) as Hd.
  { intros tid a Ha Hr. destruct (Hph' _ _ Ha) as [? | [g Hs]]; [done | exfalso].
    specialize (At (waits_on (role_ a))). unfold attended in At. rewrite !total_zero in At.
    - assert (waiting (Some (waits_on (role_ a))) p ≠ []) as Hw; [| specialize (At Hw); simpl in At; lia].
      apply (Hne _ tid a Ha). unfold asleep. rewrite Hs. by apply bool_decide_eq_true.
    - intros j b Hb. unfold awake. case_decide; [| done]. by destruct (Hph' _ _ Hb) as [-> | [g' ->]].
    - intros j b Hb. unfold unnotified. by destruct (Hph' _ _ Hb) as [-> | [g' ->]].
    - intros j b Hb. unfold unadded. by destruct (Hph' _ _ Hb) as [-> | [g' ->]]. }
  assert (∀ r, 0 < resource (waits_on r) p → total (match r with Producer => pushes_left | Consumer _ => pops_left end) (actors p) = 0%nat) as Hz.
  { intros r Hr. apply total_zero. intros j b Hb. destruct r, (role_ b) eqn:Hrb; unfold pushes_left, pops_left, accesses_left; rewrite ?Hrb; try done.
    all: by rewrite (Hd _ _ Hb) by (rewrite Hrb; exact Hr). }
  intros tid a Ha. destruct (Hph' _ _ Ha) as [? | [g Hs]]; [done | exfalso].
  destruct (Ca _ _ Ha) as [Hi _ _ _]. rewrite Hs in Hi. specialize (Hi ltac:(done)).
  destruct (queue_ p) as [|z q] eqn:Eq.
  - specialize (Hz Producer). simpl in Hz. rewrite Eq in Hz. simpl in Hz. rewrite Hz in Cw by lia.
    destruct (role_ a) as [| id] eqn:Hr.
    + assert (phase_ a = PhDone); [| congruence]. apply (Hd _ _ Ha). rewrite Hr. simpl. rewrite Eq. simpl. lia.
    + pose proof (total_ge pops_left _ _ _ Ha) as Hge. unfold pops_left at 1, accesses_left in Hge. rewrite Hr, Hs in Hge. simpl in *. lia.
  - specialize (Hz (Consumer 0)). simpl in Hz. rewrite Eq in Hz. simpl in Hz. rewrite Hz in Cw by lia. simpl in Cw. lia.
Qed.

(** At the end the consumers have printed what was pushed. *)
Lemma done_output p z :
  counted p → (∀ tid a, actors p !! tid = Some a → phase_ a = PhDone) →
  queue_ p = [] ∧
  occ z (output p).*2
  = sum_list_with (λ s : role * nat, match s.1 with Producer => occ z ((λ i, s32 (Z.of_nat i)) <$> seq 0 s.2) | _ => 0%nat end) fixed.
Proof.
  intros [_ Cf _ _ Cw Ci _ _] Hd.
  assert (queue_ p = []) as Hq.
  { apply length_zero_iff_nil. rewrite !total_zero in Cw; [lia | |]; intros j a Ha; unfold pops_left, pushes_left, accesses_left;
      rewrite (Hd _ _ Ha); by destruct (role_ a). }
  split; [done |]. specialize (Ci z). rewrite Hq, (total_zero (λ a, occ z (in_hand a))) in Ci.
  2: { intros j a Ha. unfold in_hand. rewrite (Hd _ _ Ha). by destruct (role_ a). }
  change (occ z []) with 0%nat in Ci. rewrite !Nat.add_0_r in Ci. rewrite <- Ci, <- Cf. clear -Hd.
  induction (actors p) as [|a l IH]; simpl; [done |]. rewrite IH by (intros j; apply (Hd (S j))).
  f_equal. specialize (Hd 0%nat a eq_refl). unfold pushed, pushes_left, accesses_left. rewrite Hd. simpl.
  destruct (role_ a); [by rewrite Nat.sub_0_r | done].
Qed.
End invariant.

(** ** The program is safe and does not deadlock *)

(** The options with which it works: there is room in the queue, and the generations of
    the condition variables do not come round. *)
Record options_ok (queue_size : Z) (np n : nat) : Prop := {
  opt_size : 0 < queue_size;
  opt_total : Z.of_nat np * Z.of_nat n < 2 ^ 32
}.

Section start.
Abbreviation Spec := (Program (bool * list nat) (Z * list nat)).

Lemma cq_start_invariant queue_size np nc n (p : Spec) :
  options_ok queue_size np n → start_program queue_size np nc n = Done (Some p) tt →
  invariant queue_size (fixed_part <$> actors p) p.
Proof.
  intros [Hq Ht]. unfold start_program. rewrite (wrap_small 64) by lia.
  destruct (bool_decide (nc = 0%nat)) eqn:Hc; [done |]. bool_to_prop.
  destruct (_ =? 0) eqn:Hm; [| done]. bool_to_prop. intros [= <-]. cbv zeta.
  set (ic := Z.to_nat (Z.of_nat np * Z.of_nat n / Z.of_nat nc)).
  assert ((np * n = nc * ic)%nat) as Hic.
  { unfold ic. apply Z.div_exact in Hm; [| lia]. pose proof (Z.div_pos (Z.of_nat np * Z.of_nat n) (Z.of_nat nc)). nia. }
  assert (∀ r m, accesses_left (loop_head r 0 m 0) = m) as Hal.
  { intros r m. unfold loop_head. case_bool_decide; unfold accesses_left; simpl; lia. }
  assert (∀ f c, (∀ r m, f (loop_head r 0 m 0) = c r m) →
    ∀ l, total f (replicate np (loop_head Producer 0 n 0) ++ map (λ i, loop_head (Consumer (s32 (Z.of_nat i))) 0 ic 0) l)
      = (np * c Producer n + total (λ i, c (Consumer (s32 (Z.of_nat i))) ic) l)%nat) as Htot.
  { intros f c Hf l. rewrite sum_list_with_app, total_replicate, Hf. f_equal. induction l as [|i l IH]; simpl; [done |]. by rewrite Hf, IH. }
  assert (∀ f (c : nat) (l : list nat), (∀ i, f i = c) → total f l = (length l * c)%nat) as Hconst.
  { intros f c l E. induction l as [|i l IH]; simpl; [done |]. by rewrite E, IH. }
  assert (∀ tid a, (replicate np (loop_head Producer 0 n 0) ++ map (λ i, loop_head (Consumer (s32 (Z.of_nat i))) 0 ic 0) (seq 0 nc)) !! tid
    = Some a → ∃ r m, a = loop_head r 0 m 0) as Hin.
  { intros tid a Ha. apply list_elem_of_lookup_2, elem_of_app in Ha as [Ha | Ha].
    - apply elem_of_replicate in Ha as [-> _]. eauto.
    - apply list_elem_of_fmap in Ha as (i & -> & _). eauto. }
  assert (∀ r m, (∀ y, asleep y (loop_head r 0 m 0) = false) ∧ (∀ x, waits_with x (loop_head r 0 m 0) = None)) as Hhead.
  { intros r m. unfold loop_head, asleep, waits_with. case_bool_decide; split; try done; intros x; by case_decide. }
  split.
  - split; simpl; [done | done | lia | | | | |].
    + rewrite (Htot holds (λ _ _, 0%nat)), (Hconst _ 0%nat); [lia | done | intros r m; unfold loop_head; by case_bool_decide].
    + rewrite (Htot pushes_left (λ r m, match r with Producer => m | _ => 0%nat end)),
        (Htot pops_left (λ r m, match r with Producer => 0%nat | _ => m end)).
      2,3: intros [] m; unfold pushes_left, pops_left; simpl; by rewrite ?Hal.
      rewrite (Hconst _ 0%nat), (Hconst _ ic), length_seq by done. lia.
    + intros z. rewrite (Htot (λ a, occ z (pushed a)) (λ _ _, 0%nat)), (Htot (λ a, occ z (in_hand a)) (λ _ _, 0%nat)).
      * rewrite !(Hconst _ 0%nat) by done. change (occ z []) with 0%nat. lia.
      * intros [] m; [| unfold loop_head; by case_bool_decide]. unfold loop_head. by case_bool_decide.
      * intros [] m; [| done]. unfold pushed, pushes_left. rewrite Hal. simpl. by rewrite Nat.sub_diag.
    + intros x. rewrite (Htot (adds_left x) (λ r m, if decide (x = notifies r) then m else 0%nat)).
      * rewrite (Hconst _ (if decide (x = NotFull) then ic else 0%nat)) by done. rewrite length_seq. simpl.
        destruct x; simpl; rewrite ?decide_True, ?decide_False by done; nia.
      * intros r m. unfold adds_left. rewrite Hal. assert (unadded x (loop_head r 0 m 0) = 0%nat) as ->; [| simpl; case_decide; simpl; lia].
        unfold loop_head. by case_bool_decide.
    + intros tid a (r & m & ->)%Hin. split; try (unfold loop_head; by case_bool_decide).
      intros x g. by rewrite (proj2 (Hhead r m)).
  - split; [| intros [[]|]; constructor]. intros y tid. split.
    + destruct y as [[]|]; simpl; by intros ?%not_elem_of_nil.
    + intros (a & (r & m & ->)%Hin & Hs). by rewrite (proj1 (Hhead r m)) in Hs.
  - intros x tid a (r & m & ->)%Hin. by rewrite (proj2 (Hhead r m)).
  - by intros [] [].
  - by intros [].
Qed.

(** What the producers will make. *)
Lemma cq_start_items queue_size np nc n (p : Spec) z :
  start_program queue_size np nc n = Done (Some p) tt →
  sum_list_with (λ s : role * nat, match s.1 with Producer => occ z ((λ i, s32 (Z.of_nat i)) <$> seq 0 s.2) | _ => 0%nat end)
    (fixed_part <$> actors p)
  = count_occ Z.eq_dec (concat (replicate np ((λ i, s32 (Z.of_nat i)) <$> seq 0 n))) z.
Proof.
  unfold start_program. destruct (bool_decide _); [done |]. destruct (negb _); [done |]. intros [= <-]. simpl.
  rewrite fmap_app, sum_list_with_app. set (f := λ s : role * nat, _).
  assert (∀ l, sum_list_with f (fixed_part <$> map (λ i, loop_head (Consumer (s32 (Z.of_nat i))) 0
    (Z.to_nat (u64 (Z.of_nat np * Z.of_nat n) / Z.of_nat nc)) 0) l) = 0%nat) as ->.
  { intros l. induction l as [|x l IH]; simpl; [done | exact IH]. }
  rewrite Nat.add_0_r, fmap_replicate. clear. induction np as [|np IH]; [done |]. cbn [replicate sum_list_with concat].
  by rewrite count_occ_app, IH.
Qed.

(** The search for a coroutine with a step. *)
Lemma cq_can_go (p : Spec) :
  (∃ tid p', actor_step tid false p = Done true p') ∨ (∀ tid p', actor_step tid false p ≠ Done true p').
Proof.
  set (go := λ tid, match actor_step tid false p with Done true _ => true | _ => false end).
  destruct (existsb go (seq 0 (length (actors p)))) eqn:E.
  - left. apply existsb_exists in E as (tid & _ & Hgo). unfold go in Hgo.
    destruct (actor_step tid false p) as [[] p' | |] eqn:Es; try done. eauto.
  - right. intros tid p' Es. destruct (decide (tid < length (actors p))%nat) as [Hlt | Hge].
    + apply (Bool.eq_true_false_abs _) with (2 := E). apply existsb_exists. exists tid. split; [by apply in_seq; lia |].
      unfold go. by rewrite Es.
    + unfold actor_step in Es. rewrite bind_get in Es. by rewrite lookup_ge_None_2 in Es by lia.
Qed.
End start.

Section runs.
Context {FB FZ : Type} `{!CondyFutex bool FB} `{!CondyFutex Z FZ} `{!CondyFutexLaws bool FB} `{!CondyFutexLaws Z FZ}.

(** C22. The queue on condy futexes is correct, with every implementation of the futex that
    keeps its promises.  However the steps of producers and consumers interleave, and
    whenever the weak compare-and-exchange of the mutex fails: the queue never holds more
    than its capacity, no item is taken from an empty queue, and at most one coroutine
    owns the mutex; no wake-up of the mutex or of a condition variable is lost: some
    coroutine can go on until all have ended, and then the queue is empty and the
    consumers have printed exactly the items that the producers made.  The queue has room
    for an item, and there are fewer than 2^32 items, so that the generations of the
    condition variables do not come round ([options_ok]). *)
Theorem condy_queue_correct queue_size np nc n (p0 p : Program FB FZ) :
  options_ok queue_size np n → start_program queue_size np nc n = Done (Some p0) tt → rtc program_step p0 p →
  (∀ tid weak, ∃ b p', actor_step tid weak p = Done b p') ∧
  Z.of_nat (length (queue_ p)) ≤ queue_size ∧
  (∀ t1 t2 a1 a2, actors p !! t1 = Some a1 → actors p !! t2 = Some a2 → holds a1 = 1%nat → holds a2 = 1%nat → t1 = t2) ∧
  ((∃ tid p', actor_step tid false p = Done true p') ∨
   (Forall (λ a, phase_ a = PhDone) (actors p) ∧ queue_ p = [] ∧
    (output p).*2 ≡ₚ concat (replicate np ((λ i, s32 (Z.of_nat i)) <$> seq 0 n)))).
Proof.
  intros Hopt Hst Hrtc. destruct (start_simulates _ _ _ _ _ Hst) as (q0 & Hq0 & Hs0).
  destruct (steps_simulate _ _ _ Hs0 Hrtc) as (q & Hr & Hs). pose proof (cq_start_invariant _ _ _ _ _ Hopt Hq0) as I0.
  pose proof (cq_reachable_invariant _ _ _ _ I0 Hr) as I. pose proof (in_counted _ _ _ I) as C.
  rewrite (sim_queue _ _ Hs), (sim_actors _ _ Hs), (sim_output _ _ Hs). split_and!.
  - intros tid weak. pose proof (actor_course tid weak p q Hs) as Hc.
    destruct (cq_actor_step_keeps _ _ tid weak q I) as (b & q' & E & _). rewrite E in Hc. destruct Hc as (p' & Ep & _). eauto.
  - pose proof (co_capacity _ _ _ C). pose proof (co_size _ _ _ C). lia.
  - intros t1 t2 a1 a2. by eapply cq_one_holder.
  - destruct (cq_can_go q) as [(tid & q' & E) | Hstuck].
    + left. pose proof (actor_course tid false p q Hs) as Hc. rewrite E in Hc. destruct Hc as (p' & Ep & _). eauto.
    + right. assert (0 < capacity_ q) as Hcap by (rewrite (co_size _ _ _ C); apply Hopt).
      pose proof (cq_stuck_done _ _ q Hcap I Hstuck) as Hd. split_and!.
      * apply Forall_lookup. intros j a Ha. by eapply Hd.
      * by apply (done_output _ _ q 0 C Hd).
      * apply (Permutation_count_occ Z.eq_dec). intros z. fold (occ z (output q).*2).
        rewrite (proj2 (done_output _ _ q z C Hd)). by eapply cq_start_items.
Qed.
End runs.

(** ** A concrete run *)

(** The first coroutine that has a step takes it, [n] times. *)
Fixpoint run_first {FB FZ} `{CondyFutex bool FB} `{CondyFutex Z FZ} (n : nat) (p : Program FB FZ) : Program FB FZ :=
  match n with
  | O => p
  | S n =>
      match List.find (λ tid, match actor_step tid false p with Done true _ => true | _ => false end) (seq 0 (length (actors p))) with
      | Some tid => match actor_step tid false p with Done _ p' => run_first n p' | _ => p end
      | None => p
      end
  end.

Lemma run_first_reaches {FB FZ} `{CondyFutex bool FB} `{CondyFutex Z FZ} n : ∀ p : Program FB FZ, rtc program_step p (run_first n p).
Proof.
  induction n as [|n IH]; intros p; simpl; [apply rtc_refl |].
  destruct (List.find _ _) as [tid|] eqn:E; [| apply rtc_refl]. apply find_some in E as [_ Hgo].
  destruct (actor_step tid false p) as [[] p' | |] eqn:Es; [| done..]. eapply rtc_l; [by econstructor | apply IH].
Qed.

(** Two producers of three items each, three consumers, and room for one item, on the
    futex of futex.hpp. *)
Abbreviation Condy := (Program (FutexHandles bool) (FutexHandles Z)).
Definition condy_demo : Condy :=
  match start_program 1 2 3 3 with Done (Some p) _ => p | _ => mkProgram [] 1 (fx_new false) (fx_new 0) (fx_new 0) [] [] end.

Example condy_demo_runs :
  let p := run_first 400 condy_demo in
  queue_ p = [] ∧ (output p).*2 = [0; 1; 0; 2; 1; 2] ∧ map phase_ (actors p) = replicate 5 PhDone.
Proof. vm_compute. split_and!; reflexivity. Qed.

Lemma condy_demo_options : options_ok 1 2 3.
Proof. split; lia. Qed.

Lemma condy_queue_correct_witness :
  let p := run_first 400 condy_demo in
  Z.of_nat (length (queue_ p)) ≤ 1 ∧
  ((∃ tid p', actor_step tid false p = Done true p') ∨
   (Forall (λ a, phase_ a = PhDone) (actors p) ∧ queue_ p = [] ∧
    (output p).*2 ≡ₚ concat (replicate 2 ((λ i, s32 (Z.of_nat i)) <$> seq 0 3)))).
Proof.
  destruct (condy_queue_correct 1 2 3 3 condy_demo (run_first 400 condy_demo) condy_demo_options eq_refl (run_first_reaches 400 _))
    as (_ & Hlen & _ & Hprog).
  split; [exact Hlen | exact Hprog].
Defined.
