(* ===== verification/PrimeFs.v ===== *)
(** * The prime file system (examples/fuse-prime-fs.cpp)

    A FUSE server over io_uring: the tree of the integers below [number_], in which a
    prime is a file and a composite number a directory.  Requests and replies are
    records of the fields the server reads and writes; the layouts and constants of
    linux/fuse.h are written out below.  [std::from_chars] and [std::to_string] work on
    lists of bytes. *)

From Stdlib Require Import Znumtheory.
From stdpp Require Import base numbers list.
From S2P Require Import Prelude.

Set Warnings "-register-all".

(** ** Constants *)

Definition ENOENT : Z := 2.
Definition ENOTDIR : Z := 20.
Definition EISDIR : Z := 21.
Definition ENOSYS : Z := 38.
Definition EPROTO : Z := 71.
Definition EOPNOTSUPP : Z := 95.
Definition ENOTCONN : Z := 107.

(** linux/fuse.h *)
Definition FUSE_KERNEL_VERSION : Z := 7.
Definition FUSE_MIN_READ_BUFFER : Z := 8192.
Definition FUSE_LOOKUP : Z := 1.
Definition FUSE_GETATTR : Z := 3.
Definition FUSE_OPEN : Z := 14.
Definition FUSE_READ : Z := 15.
Definition FUSE_STATFS : Z := 17.
Definition FUSE_RELEASE : Z := 18.
Definition FUSE_FSYNC : Z := 20.
Definition FUSE_FLUSH : Z := 25.
Definition FUSE_INIT : Z := 26.
Definition FUSE_OPENDIR : Z := 27.
Definition FUSE_READDIR : Z := 28.
Definition FUSE_RELEASEDIR : Z := 29.
Definition FUSE_FSYNCDIR : Z := 30.
Definition FUSE_ACCESS : Z := 34.
Definition FUSE_DESTROY : Z := 38.
Definition FUSE_NAME_OFFSET : Z := 24.
Definition FUSE_REC_ALIGN (x : Z) : Z := (x + 7) / 8 * 8.
Definition sizeof_out_header : Z := 16.
Definition sizeof_entry_out : Z := 128.
Definition sizeof_attr_out : Z := 104.
Definition sizeof_open_out : Z := 16.
Definition sizeof_statfs_out : Z := 80.
Definition sizeof_init_req : Z := 104.
Definition sizeof_req_header : Z := 288.
Definition DT_DIR : Z := 4.
Definition DT_REG : Z := 8.

(** ** Numbers and their names *)

(** [std::to_string] of an unsigned number; a 64-bit number has at most 20 digits. *)
Fixpoint to_string_loop (fuel : nat) (n : Z) (acc : list Z) : list Z :=
  match fuel with
  | O => acc
  | S fuel =>
      let acc := (48 + n mod 10) :: acc in
      if n <? 10 then acc else to_string_loop fuel (n / 10) acc
  end.
Definition to_string (n : Z) : list Z := to_string_loop 20 n [].

Definition is_digit (c : Z) : bool := (48 <=? c) && (c <=? 57).

Fixpoint digits_value (v : Z) (ds : list Z) : Z :=
  match ds with
  | [] => v
  | d :: ds => digits_value (10 * v + (d - 48)) ds
  end.

(** The longest prefix of digits, and the rest. *)
Fixpoint span_digits (s : list Z) : list Z * list Z :=
  match s with
  | [] => ([], [])
  | c :: s' => if is_digit c then let '(ds, rest) := span_digits s' in (c :: ds, rest) else ([], s)
  end.

(** [std::from_chars] into a [uint64_t]: the number ([None] is an error code) and where
    it stopped. *)
Definition from_chars (s : list Z) : option Z * list Z :=
  match span_digits s with
  | ([], _) => (None, s)
  | (ds, rest) =>
      let v := digits_value 0 ds in
      (if v <? 2 ^ 64 then Some v else None, rest)
  end.

(** A C string: the bytes before the first zero. *)
Fixpoint c_string (s : list Z) : list Z :=
  match s with
  | [] => []
  | c :: s => if c =? 0 then [] else c :: c_string s
  end.

(** ** [FuseServer] *)

Definition ROOT_NODEID : Z := 1.

Record FuseServer := mkServer {
  number_ : Z;
  now_ : Z;
  uid_ : Z;
  gid_ : Z
}.

(** [for (uint64_t i = 2; i * i <= n; i++)]; [None] without enough fuel. *)
Fixpoint is_prime_loop (fuel : nat) (i n : Z) : option bool :=
  match fuel with
  | O => None
  | S fuel =>
      if u64 (i * i) <=? n then
        if n mod i =? 0 then Some false else is_prime_loop fuel (u64 (i + 1)) n
      else Some true
  end.

(** The root of [n] many turns are enough ([is_prime_decides]). *)
Definition is_prime_ (n : Z) : option bool :=
  if n <? 2 then Some false else is_prime_loop (Z.to_nat (Z.sqrt n)) 2 n.

Definition num_of_ (s : FuseServer) (nodeid : Z) : Z := if nodeid =? ROOT_NODEID then number_ s else nodeid.

Definition is_dir_ (s : FuseServer) (nodeid : Z) : option bool :=
  if nodeid =? ROOT_NODEID then Some true else negb <$> is_prime_ (num_of_ s nodeid).

Record fuse_attr := mkAttr {
  attr_ino : Z;
  attr_size : Z;
  attr_blocks : Z;
  attr_time : Z;
  attr_mode : Z;
  attr_nlink : Z;
  attr_uid : Z;
  attr_gid : Z;
  attr_blksize : Z
}.

(** [S_IFDIR | S_IRWXU | S_IRGRP | S_IXGRP | S_IROTH | S_IXOTH] and
    [S_IFREG | S_IRUSR | S_IRGRP | S_IROTH] *)
Definition DIR_MODE : Z := 0x41ed.
Definition FILE_MODE : Z := 0x8124.

Definition fill_attr_ (s : FuseServer) (ino : Z) (dir : bool) (size : Z) : fuse_attr :=
  mkAttr ino size (u64 (size + 511) / 512) (now_ s) (if dir then DIR_MODE else FILE_MODE) (if dir then 2 else 1)
    (uid_ s) (gid_ s) 4096.

(** The header of a request and the place of its reply. *)
Record Request := mkRequest {
  req_opcode : Z;
  req_nodeid : Z;
  req_unique : Z;
  req_offset : Z;
  req_size : Z;
  req_payload : list Z
}.

Record fuse_dirent := mkDirent {
  d_pos : Z;
  d_ino : Z;
  d_off : Z;
  d_type : Z;
  d_name : list Z
}.

Inductive reply_data :=
  | NoData
  | EntryOut (nodeid : Z) (attr : fuse_attr)
  | AttrOut (attr : fuse_attr)
  | OpenOut
  | StatfsOut
  | Content (bytes : list Z)
  | Dirents (entries : list fuse_dirent).

Record Reply := mkReply {
  out_error : Z;
  out_len : Z;
  out_unique : Z;
  payload_sz : Z;
  out_data : reply_data
}.

Definition reply_err (req : Request) (err : Z) : Reply := mkReply err sizeof_out_header (req_unique req) 0 NoData.

Section server.
Context (pagesize : Z) (s : FuseServer).

Definition MAX_WRITE : Z := 128 * 1024.
Definition MAX_PAGES : Z := 32.
Definition MAX_PAYLOAD_SZ : Z := Z.max FUSE_MIN_READ_BUFFER (Z.max MAX_WRITE (MAX_PAGES * pagesize)).

(** [None]: the assertion on the size fails. *)
Definition reply_ok (req : Request) (data : reply_data) (size : Z) : option Reply :=
  if size <=? MAX_PAYLOAD_SZ then Some (mkReply 0 (u32 (sizeof_out_header + size)) (req_unique req) (u32 size) data)
  else None.

Definition node_size (num : Z) (dir : bool) : Z := if dir then 4096 else Z.of_nat (length (to_string num)) + 1.

Definition do_lookup_ (req : Request) : option Reply :=
  let parent := req_nodeid req in
  let name := c_string (req_payload req) in
  d ← is_dir_ s parent;
  if negb d then Some (reply_err req (- ENOTDIR))
  else
    match from_chars name with
    | (Some num, []) =>
        if (num <=? 1) || (num_of_ s parent <=? num) then Some (reply_err req (- ENOENT))
        else
          dir ← is_dir_ s num;
          reply_ok req (EntryOut num (fill_attr_ s num dir (node_size num dir))) sizeof_entry_out
    | _ => Some (reply_err req (- ENOENT))
    end.

Definition do_getattr_ (req : Request) : option Reply :=
  let num := num_of_ s (req_nodeid req) in
  dir ← is_dir_ s (req_nodeid req);
  reply_ok req (AttrOut (fill_attr_ s (req_nodeid req) dir (node_size num dir))) sizeof_attr_out.

Definition do_open_ (req : Request) : option Reply := reply_ok req OpenOut sizeof_open_out.

Definition do_read_ (req : Request) : option Reply :=
  let num := num_of_ s (req_nodeid req) in
  dir ← is_dir_ s (req_nodeid req);
  if negb dir then
    let content := to_string num ++ [10] in
    let off := Z.min (req_offset req) (Z.of_nat (length content)) in
    let n := Z.min (req_size req) (Z.of_nat (length content) - off) in
    reply_ok req (Content (take (Z.to_nat n) (drop (Z.to_nat off) content))) n
  else Some (reply_err req (- EISDIR)).

(** The lambda [emit]: the entry and the bytes in use after it, or [None] when it does
    not fit. *)
Definition emit (max_reply used ino entry_off type : Z) (name : list Z) : option (fuse_dirent * Z) :=
  let reclen := FUSE_REC_ALIGN (FUSE_NAME_OFFSET + Z.of_nat (length name)) in
  if max_reply <? used + reclen then None else Some (mkDirent used ino entry_off type name, used + reclen).

(** [for (uint64_t i = ri->offset; i + 2 < num; i++)]: the entries and the bytes used. *)
Fixpoint readdir_loop (fuel : nat) (max_reply num i used : Z) : option (list fuse_dirent * Z) :=
  match fuel with
  | O => None
  | S fuel =>
      if u64 (i + 2) <? num then
        let n := u64 (i + 2) in
        dir ← is_dir_ s n;
        match emit max_reply used n (u64 (i + 1)) (if dir : bool then DT_DIR else DT_REG) (to_string n) with
        | None => Some ([], used)
        | Some (d, used) =>
            '(ds, used) ← readdir_loop fuel max_reply num (u64 (i + 1)) used;
            Some (d :: ds, used)
        end
      else Some ([], used)
  end.

(** An entry takes at least 32 bytes, so that [max_reply / 32 + 1] turns are enough. *)
Definition do_readdir_ (req : Request) : option Reply :=
  let max_reply := Z.min (req_size req) MAX_PAYLOAD_SZ in
  let num := num_of_ s (req_nodeid req) in
  dir ← is_dir_ s (req_nodeid req);
  if negb dir then Some (reply_err req (- ENOTDIR))
  else
    '(ds, used) ← readdir_loop (S (Z.to_nat (max_reply / 32))) max_reply num (req_offset req) 0;
    reply_ok req (Dirents ds) used.

Definition do_statfs_ (req : Request) : option Reply := reply_ok req StatfsOut sizeof_statfs_out.

(** [FuseServer::handle] *)
Definition handle (req : Request) : option Reply :=
  let op := req_opcode req in
  if op =? FUSE_LOOKUP then do_lookup_ req
  else if op =? FUSE_GETATTR then do_getattr_ req
  else if (op =? FUSE_OPEN) || (op =? FUSE_OPENDIR) then do_open_ req
  else if op =? FUSE_READ then do_read_ req
  else if op =? FUSE_READDIR then do_readdir_ req
  else if op =? FUSE_STATFS then do_statfs_ req
  else if (op =? FUSE_RELEASE) || (op =? FUSE_RELEASEDIR) || (op =? FUSE_FLUSH) || (op =? FUSE_FSYNC)
          || (op =? FUSE_FSYNCDIR) || (op =? FUSE_ACCESS) || (op =? FUSE_DESTROY) then Some (reply_err req 0)
  else Some (reply_err req (- ENOSYS)).
End server.

(** *** Setting up the connection *)

(** The request that the kernel sends first; [init_n] is what [read] returned. *)
Record FuseInitReq := mkInitReq {
  init_opcode : Z;
  init_unique : Z;
  init_major : Z;
  init_minor : Z
}.

Definition check_init_request (req : FuseInitReq) (n : Z) : Z :=
  if n <? sizeof_init_req then - EPROTO
  else if negb (init_opcode req =? FUSE_INIT) then - EPROTO
  else if negb (init_major req =? FUSE_KERNEL_VERSION) then - EPROTO
  else if init_minor req <? 42 then - EOPNOTSUPP
  else 0.

(** The negotiated minor version, given that of the header file, or the error that is
    sent back before the server exits. *)
Definition init_fuse (header_minor : Z) (req : FuseInitReq) (n : Z) : Z + Z :=
  let err := check_init_request req n in
  if negb (err =? 0) then inl err else inr (Z.min header_minor (init_minor req)).

(** *** One request after the other *)

(** How [io_loop] leaves: by [co_return], by [exit(1)], or not yet. *)
Inductive loop_end :=
  | LoopReturned
  | LoopExited
  | LoopWaiting.

(** The results of the register command and of the commit commands, each with what the
    kernel has then put into the headers: the commit id and the next request.  The
    commits: the id and the reply in the headers at that time. *)
Fixpoint io_loop (pagesize : Z) (s : FuseServer) (results : list (Z * (Z * Request)))
    : option (list (Z * Reply) * loop_end) :=
  match results with
  | [] => Some ([], LoopWaiting)
  | (r, (commit_id, req)) :: results =>
      if r =? - ENOTCONN then Some ([], LoopReturned)
      else if r <? 0 then Some ([], LoopExited)
      else
        reply ← handle pagesize s req;
        '(commits, e) ← io_loop pagesize s results;
        Some ((commit_id, reply) :: commits, e)
  end.

(** The places of the headers and payloads that queue [qid] gives to its [i]-th loop. *)
Definition header_place (queue_depth qid i : Z) : Z := (qid * queue_depth + i) * sizeof_req_header.
Definition payload_place (pagesize queue_depth qid i : Z) : Z :=
  qid * queue_depth * MAX_PAYLOAD_SZ pagesize + i * MAX_PAYLOAD_SZ pagesize.

(** ** Primes *)

(** Divisors up to the root decide. *)
Lemma prime_sqrt n : 1 < n → (∀ d, 2 ≤ d → d * d ≤ n → ¬ (d | n)) → prime n.
Proof.
  intros Hn Hd. apply prime_alt. split; [done |]. intros d Hdn [k Hk].
  assert (0 < k) by nia. destruct (Z.le_gt_cases (d * d) n) as [Hle | Hgt].
  - apply (Hd d); [lia | done | by exists k].
  - assert (k < d) by nia. assert (k ≠ 1) by (intros ->; lia). apply (Hd k); [lia | nia |]. exists d. lia.
Qed.

(** The numbers for which [i * i] does not wrap before the loop ends. *)
Definition small (n : Z) : Prop := 0 ≤ n < (2 ^ 32 - 1) * (2 ^ 32 - 1).

Lemma is_prime_loop_spec fuel : ∀ i n,
  small n → 2 ≤ n → 2 ≤ i → i ≤ Z.sqrt n + 1 → (Z.to_nat (Z.sqrt n + 2 - i) ≤ fuel)%nat →
  (∀ d, 2 ≤ d < i → ¬ (d | n)) →
  ∃ b, is_prime_loop fuel i n = Some b ∧ (b = true ↔ prime n).
Proof.
  induction fuel as [|fuel IH]; intros i n Hs Hn Hi Hsq Hf Hd; [lia |]. simpl.
  pose proof (Z.sqrt_spec n ltac:(lia)) as [Hsq1 Hsq2]. unfold small in Hs.
  assert (Z.sqrt n < 2 ^ 32 - 1) as Hr by nia.
  rewrite (wrap_small 64) by nia. destruct (Z.leb_spec (i * i) n) as [Hle | Hgt].
  - destruct (Z.eqb_spec (n mod i) 0) as [Hm | Hm].
    + exists false. split; [done |]. split; [done |]. intros Hp. exfalso.
      apply prime_alt in Hp as [_ Hp]. apply (Hp i); [nia |]. apply Z.mod_divide; [lia | done].
    + assert (i ≤ Z.sqrt n) by nia. rewrite (wrap_small 64) by nia. apply IH; try done; try lia.
      intros d Hdi. destruct (decide (d = i)) as [-> | Hne]; [| apply Hd; lia].
      intros Hdiv. apply Hm. apply Z.mod_divide; [lia | done].
  - exists true. split; [done |]. split; [| done]. intros _. apply prime_sqrt; [lia |].
    intros d H2 Hdd. apply Hd. nia.
Qed.

(** [is_prime_] decides primality. *)
Lemma is_prime_decides n : small n → ∃ b, is_prime_ n = Some b ∧ (b = true ↔ prime n).
Proof.
  intros Hs. unfold is_prime_. destruct (Z.ltb_spec n 2) as [Hlt | Hge].
  - exists false. split; [done |]. split; [done |]. intros []. lia.
  - pose proof (Z.sqrt_spec n ltac:(lia)) as [H1 H2]. apply is_prime_loop_spec; try done; [nia | | lia].
    replace (Z.sqrt n + 2 - 2) with (Z.sqrt n) by lia. done.
Qed.

Lemma is_dir_decides s nodeid :
  small nodeid →
  ∃ b, is_dir_ s nodeid = Some b ∧ (b = false ↔ nodeid ≠ ROOT_NODEID ∧ prime nodeid).
Proof.
  intros Hs. unfold is_dir_, num_of_. destruct (Z.eqb_spec nodeid ROOT_NODEID) as [-> | Hne].
  - exists true. naive_solver.
  - destruct (is_prime_decides nodeid Hs) as (b & -> & Hb). exists (negb b). split; [done |]. rewrite negb_false_iff. naive_solver.
Qed.

(** ** Names *)

Lemma to_string_S fuel n acc :
  to_string_loop (S fuel) n acc
  = if n <? 10 then (48 + n mod 10) :: acc else to_string_loop fuel (n / 10) ((48 + n mod 10) :: acc).
Proof. done. Qed.

Lemma to_string_value fuel : ∀ n acc,
  0 ≤ n < 10 ^ Z.of_nat (S fuel) → digits_value 0 (to_string_loop (S fuel) n acc) = digits_value n acc.
Proof.
  induction fuel as [|fuel IH]; intros n acc Hn; rewrite to_string_S.
  - destruct (Z.ltb_spec n 10) as [Hlt | Hge]; [| simpl in *; lia]. cbn [digits_value]. rewrite Z.mod_small by lia. f_equal. lia.
  - destruct (Z.ltb_spec n 10) as [Hlt | Hge].
    + cbn [digits_value]. rewrite Z.mod_small by lia. f_equal. lia.
    + rewrite IH.
      * cbn [digits_value]. f_equal. pose proof (Z.div_mod n 10 ltac:(lia)). lia.
      * rewrite Nat2Z.inj_succ, Z.pow_succ_r in Hn by lia. split; [apply Z.div_pos; lia | apply Z.div_lt_upper_bound; lia].
Qed.

Lemma to_string_digits fuel : ∀ n acc, 0 ≤ n → Forall (λ c, is_digit c = true) acc →
  Forall (λ c, is_digit c = true) (to_string_loop fuel n acc).
Proof.
  induction fuel as [|fuel IH]; intros n acc Hn Ha; simpl; [done |].
  assert (Forall (λ c, is_digit c = true) ((48 + n mod 10) :: acc)).
  { constructor; [| done]. unfold is_digit. pose proof (Z.mod_pos_bound n 10 ltac:(lia)).
    apply andb_true_iff. split; apply Z.leb_le; lia. }
  destruct (n <? 10); [done |]. apply IH; [apply Z.div_pos; lia | done].
Qed.

Lemma to_string_length fuel : ∀ n acc, (length (to_string_loop fuel n acc) ≤ fuel + length acc)%nat.
Proof.
  induction fuel as [|fuel IH]; intros n acc; simpl; [done |]. destruct (n <? 10); simpl; [lia |].
  specialize (IH (n / 10) ((48 + n mod 10) :: acc)). simpl in IH. lia.
Qed.

Lemma to_string_pos fuel : ∀ n acc, acc ≠ [] ∨ (0 < fuel)%nat → (0 < length (to_string_loop fuel n acc))%nat.
Proof.
  induction fuel as [|fuel IH]; intros n acc Ha; simpl; [destruct acc, Ha; simpl; (done || lia) |].
  destruct (n <? 10); simpl; [lia |]. apply IH. by left.
Qed.

Lemma span_all s : Forall (λ c, is_digit c = true) s → span_digits s = (s, []).
Proof. induction 1 as [|c s Hc _ IH]; simpl; [done |]. by rewrite Hc, IH. Qed.

Lemma c_string_digits s rest : Forall (λ c, is_digit c = true) s → c_string (s ++ 0 :: rest) = s.
Proof.
  induction 1 as [|c s Hc _ IH]; simpl; [done |]. unfold is_digit in Hc. bool_to_prop.
  destruct (Z.eqb_spec c 0); [lia |]. by rewrite IH.
Qed.

(** The name of a number parses as this number. *)
Lemma name_roundtrip n : 0 ≤ n < 2 ^ 64 → from_chars (to_string n) = (Some n, []).
Proof.
  intros Hn. assert (digits_value 0 (to_string n) = n) as Hv.
  { unfold to_string. rewrite to_string_value; [done |]. simpl. lia. }
  assert (Forall (λ c, is_digit c = true) (to_string n)) as Hd by (apply to_string_digits; [lia | constructor]).
  unfold from_chars. rewrite span_all by done. pose proof (to_string_pos 20 n [] ltac:(right; lia)) as Hp. fold (to_string n) in Hp.
  destruct (to_string n) as [|c l] eqn:E; [simpl in *; lia |]. rewrite Hv. by rewrite (proj2 (Z.ltb_lt _ _)) by lia.
Qed.

(** ** Directories *)

Section tree.
Context (pagesize : Z) (s : FuseServer).

Definition reclen (d : fuse_dirent) : Z := FUSE_REC_ALIGN (FUSE_NAME_OFFSET + Z.of_nat (length (d_name d))).

Lemma name_reclen ino off type n used : 0 ≤ n → 32 ≤ reclen (mkDirent used ino off type (to_string n)) ≤ 48.
Proof.
  intros Hn. unfold reclen, FUSE_REC_ALIGN, FUSE_NAME_OFFSET. simpl. unfold to_string.
  pose proof (to_string_length 20 n []) as H1. pose proof (to_string_pos 20 n [] ltac:(right; lia)) as H2.
  set (l := length (to_string_loop 20 n [])) in *. simpl in H1.
  pose proof (Z.div_mod (24 + Z.of_nat l + 7) 8 ltac:(lia)). pose proof (Z.mod_pos_bound (24 + Z.of_nat l + 7) 8 ltac:(lia)). lia.
Qed.

(** The entry at position [i] of a directory. *)
Record entry_at (i : Z) (d : fuse_dirent) : Prop := {
  en_ino : d_ino d = i + 2;
  en_off : d_off d = i + 1;
  en_name : d_name d = to_string (i + 2);
  en_type : d_type d = DT_REG ∧ prime (i + 2) ∨ d_type d = DT_DIR ∧ ¬ prime (i + 2)
}.

(** The entries from position [i] up to [j]. *)
Inductive listing : Z → list fuse_dirent → Z → Prop :=
  | listing_nil i : listing i [] i
  | listing_cons i d ds j : entry_at i d → listing (i + 1) ds j → listing i (d :: ds) j.

Lemma listing_app i ds j ds' k : listing i ds j → listing j ds' k → listing i (ds ++ ds') k.
Proof. induction 1; intros H'; [done |]. constructor; auto. Qed.

Lemma listing_length i ds j : listing i ds j → j = i + Z.of_nat (length ds).
Proof. induction 1; simpl in *; lia. Qed.

Lemma listing_inos i ds j : listing i ds j → d_ino <$> ds = seqZ (i + 2) (j - i).
Proof.
  intros Hl. rewrite (listing_length _ _ _ Hl). replace (i + Z.of_nat (length ds) - i) with (Z.of_nat (length ds)) by lia.
  induction Hl as [| i d ds j Hd Hl IH]; [done |]. rewrite fmap_cons, IH, (en_ino _ _ Hd).
  replace (Z.of_nat (length (d :: ds))) with (Z.succ (Z.of_nat (length ds))) by (simpl; lia).
  rewrite (seqZ_cons (i + 2)) by lia. f_equal. f_equal; lia.
Qed.

Lemma listing_last i ds j d : listing i ds j → last ds = Some d → d_off d = j.
Proof.
  intros Hl. induction Hl as [| i e ds j He Hl IH]; [done |]. destruct ds as [|e' ds]; [| exact IH].
  intros [= <-]. inversion Hl; subst. by apply en_off.
Qed.

Lemma listing_entry i ds j d : listing i ds j → d ∈ ds → ∃ k, i ≤ k < j ∧ entry_at k d.
Proof.
  intros Hl. induction Hl as [| i e ds j He Hl IH]; intros Hin; [by apply elem_of_nil in Hin |].
  pose proof (listing_length _ _ _ Hl). apply elem_of_cons in Hin as [-> | Hin]; [exists i; split; [lia | done] |].
  destruct (IH Hin) as (k & Hk & Hek). exists k. split; [lia | done].
Qed.

(** One call of the loop of [do_readdir_]: the entries that fit. *)
Lemma readdir_loop_spec fuel : ∀ max num i used,
  small num → 0 ≤ i → i + 2 < 2 ^ 64 → 0 ≤ used → (Z.to_nat ((max - used) / 32) < fuel)%nat →
  ∃ ds j used', readdir_loop s fuel max num i used = Some (ds, used') ∧ listing i ds j ∧
    used ≤ used' ∧ (ds = [] ∧ used' = used ∨ used' ≤ max ∧ j + 2 ≤ num) ∧
    Forall (λ d, 0 ≤ d_pos d ∧ d_pos d + reclen d ≤ used') ds ∧
    (ds = [] → num ≤ i + 2 ∨ max < used + 48).
Proof.
  induction fuel as [|fuel IH]; intros max num i used Hn Hi Hov Hu Hf; [lia |]. cbn [readdir_loop].
  rewrite (wrap_small 64 (i + 2)), (wrap_small 64 (i + 1)) by lia. destruct (Z.ltb_spec (i + 2) num) as [Hlt | Hge].
  - destruct (is_dir_decides s (i + 2)) as (dir & Ed & Hdir); [unfold small in *; lia |]. rewrite Ed. simpl.
    unfold emit. set (ty := if dir then DT_DIR else DT_REG). set (e := mkDirent used (i + 2) (i + 1) ty (to_string (i + 2))).
    change (FUSE_REC_ALIGN (FUSE_NAME_OFFSET + Z.of_nat (length (to_string (i + 2))))) with (reclen e).
    pose proof (name_reclen (i + 2) (i + 1) ty (i + 2) used ltac:(lia)) as Hrl. fold e in Hrl.
    assert (entry_at i e) as He.
    { split; [done.. |]. unfold e, ty. simpl. destruct dir.
      - right. split; [done |]. intros Hp. assert (true = false) by (apply Hdir; split; [unfold ROOT_NODEID; lia | done]). done.
      - left. split; [done |]. by apply Hdir. }
    destruct (Z.ltb_spec max (used + reclen e)) as [Hfull | Hfit].
    + exists [], i, used. split_and!; [done | constructor | lia | by left | constructor | intros _; right; lia].
    + destruct (IH max num (i + 1) (used + reclen e)) as (ds & j & used' & E & Hl & Hle & Hor & Hpos & Hnil).
      { done. } { lia. } { unfold small in *; lia. } { lia. }
      { assert ((max - (used + reclen e)) / 32 < (max - used) / 32); [| assert (1 ≤ (max - used) / 32) by (apply Z.div_le_lower_bound; lia); lia].
        apply Z.lt_le_trans with ((max - used - 32) / 32 + 1); [apply Z.lt_succ_r, Z.div_le_mono; lia |].
        replace (max - used - 32) with (max - used + (-1) * 32) by lia. rewrite Z.div_add by lia. lia. }
      rewrite E. exists (e :: ds), j, used'. split_and!; [done | by constructor | lia | | | done].
      * right. destruct Hor as [[-> ->] | Hor]; [| done]. inversion Hl; subst. lia.
      * constructor; [simpl; lia | done].
  - exists [], i, used. split_and!; [done | constructor | lia | by left | constructor | by left].
Qed.

Hypothesis Hpage : 0 < pagesize ≤ 2 ^ 20.
Hypothesis Hnumber : small (number_ s) ∧ 2 ≤ number_ s.

Lemma payload_bounds : 131072 ≤ MAX_PAYLOAD_SZ pagesize < 2 ^ 31.
Proof. unfold MAX_PAYLOAD_SZ, FUSE_MIN_READ_BUFFER, MAX_WRITE, MAX_PAGES. lia. Qed.

Lemma reply_ok_fits req data size :
  0 ≤ size ≤ MAX_PAYLOAD_SZ pagesize →
  reply_ok pagesize req data size = Some (mkReply 0 (sizeof_out_header + size) (req_unique req) size data).
Proof.
  intros Hs. pose proof payload_bounds. unfold reply_ok. rewrite (proj2 (Z.leb_le _ _)) by lia.
  rewrite !wrap_small; [done | | unfold sizeof_out_header]; lia.
Qed.

(** The node ids that the server hands out. *)
Definition node (nodeid : Z) : Prop := ROOT_NODEID ≤ nodeid < Z.max 2 (number_ s).

Lemma node_small nodeid : node nodeid → small nodeid ∧ small (num_of_ s nodeid) ∧ 2 ≤ num_of_ s nodeid.
Proof.
  unfold node, num_of_, ROOT_NODEID, small in *. destruct (Z.eqb_spec nodeid 1); lia.
Qed.

(** [do_readdir_] on a directory. *)
Lemma readdir_spec req :
  node (req_nodeid req) → is_dir_ s (req_nodeid req) = Some true → 0 ≤ req_offset req < 2 ^ 64 - 2 → 0 ≤ req_size req →
  let num := num_of_ s (req_nodeid req) in
  ∃ ds j used, do_readdir_ pagesize s req = Some (mkReply 0 (sizeof_out_header + used) (req_unique req) used (Dirents ds)) ∧
    listing (req_offset req) ds j ∧ 0 ≤ used ≤ Z.min (req_size req) (MAX_PAYLOAD_SZ pagesize) ∧
    Forall (λ d, 0 ≤ d_pos d ∧ d_pos d + reclen d ≤ used) ds ∧
    (ds ≠ [] → j + 2 ≤ num) ∧ (ds = [] → 48 ≤ req_size req → num ≤ req_offset req + 2).
Proof.
  intros Hnode Hdir Hoff Hsize num. destruct (node_small _ Hnode) as (_ & Hsm & _). pose proof payload_bounds as Hmax.
  unfold do_readdir_. rewrite Hdir. cbn [mbind option_bind negb].
  destruct (readdir_loop_spec (S (Z.to_nat (Z.min (req_size req) (MAX_PAYLOAD_SZ pagesize) / 32)))
    (Z.min (req_size req) (MAX_PAYLOAD_SZ pagesize)) num (req_offset req) 0)
    as (ds & j & used & E & Hl & Hle & Hor & Hpos & Hnil); [done | lia | lia | lia | rewrite Z.sub_0_r; lia |].
  fold num. rewrite E. assert (0 ≤ used ≤ Z.min (req_size req) (MAX_PAYLOAD_SZ pagesize)) as Hu by (destruct Hor as [[-> ->] | ?]; lia).
  cbn [mbind option_bind]. rewrite reply_ok_fits by lia. exists ds, j, used. split_and!; try done; try lia.
  - destruct Hor as [[-> _] | [_ ?]]; done.
  - intros Hn H48. destruct (Hnil Hn); lia.
Qed.

(** What a client sees that reads a directory to its end: it goes on at the offset of the
    last entry it got. *)
Fixpoint list_all (fuel : nat) (nodeid size off : Z) : option (list fuse_dirent) :=
  match fuel with
  | O => None
  | S fuel =>
      match do_readdir_ pagesize s (mkRequest FUSE_READDIR nodeid 0 off size []) with
      | Some (mkReply _ _ _ _ (Dirents ds)) =>
          match last ds with
          | None => Some []
          | Some d => rest ← list_all fuel nodeid size (d_off d); Some (ds ++ rest)
          end
      | _ => None
      end
  end.

Lemma list_all_spec nodeid size fuel : ∀ off,
  node nodeid → is_dir_ s nodeid = Some true → 48 ≤ size →
  0 ≤ off ≤ num_of_ s nodeid - 2 → (Z.to_nat (num_of_ s nodeid - 2 - off) < fuel)%nat →
  ∃ ds, list_all fuel nodeid size off = Some ds ∧ listing off ds (num_of_ s nodeid - 2).
Proof.
  induction fuel as [|fuel IH]; intros off Hnode Hdir Hsize Hoff Hf; [lia |]. cbn [list_all].
  destruct (node_small _ Hnode) as (_ & Hsm & _).
  destruct (readdir_spec (mkRequest FUSE_READDIR nodeid 0 off size []) Hnode Hdir) as (ds & j & used & -> & Hl & Hu & _ & Hne & Hnil).
  { simpl. unfold small in Hsm. lia. } { simpl. lia. }
  cbn [req_nodeid req_size req_offset] in *. destruct (last ds) as [d|] eqn:El.
  - rewrite (listing_last _ _ _ _ Hl El). assert (ds ≠ []) as Hds by (by intros ->). specialize (Hne Hds).
    pose proof (listing_length _ _ _ Hl). assert (0 < length ds)%nat by (destruct ds; simpl in *; [done | lia]).
    destruct (IH j) as (rest & -> & Hr); [done | done | lia | lia | lia |]. eexists. split; [done |]. by eapply listing_app.
  - apply last_None in El as ->. specialize (Hnil eq_refl Hsize). inversion Hl; subst.
    exists []. split; [done |]. replace (num_of_ s nodeid - 2) with j by lia. constructor.
Qed.

(** Looking up the name of a number below that of the directory. *)
Lemma lookup_spec nodeid unique n rest :
  node nodeid → is_dir_ s nodeid = Some true → 2 ≤ n < num_of_ s nodeid →
  ∃ attr, do_lookup_ pagesize s (mkRequest FUSE_LOOKUP nodeid unique 0 0 (to_string n ++ 0 :: rest))
    = Some (mkReply 0 (sizeof_out_header + sizeof_entry_out) unique sizeof_entry_out (EntryOut n attr)) ∧
    attr_ino attr = n ∧
    (attr_mode attr = FILE_MODE ∧ attr_size attr = Z.of_nat (length (to_string n ++ [10])) ∧ prime n ∨
     attr_mode attr = DIR_MODE ∧ ¬ prime n).
Proof.
  intros Hnode Hdir Hn. destruct (node_small _ Hnode) as (_ & Hsm & _). pose proof payload_bounds as Hmax.
  unfold do_lookup_. cbn [req_nodeid req_payload]. rewrite Hdir. cbn [mbind option_bind negb].
  rewrite c_string_digits by (apply to_string_digits; [lia | constructor]).
  rewrite name_roundtrip by (unfold small in Hsm; lia).
  rewrite (proj2 (Z.leb_gt n 1)), (proj2 (Z.leb_gt (num_of_ s nodeid) n)) by lia. cbn [orb].
  destruct (is_dir_decides s n) as (dir & -> & Hd); [unfold small in *; lia |]. cbn [mbind option_bind].
  rewrite reply_ok_fits by (unfold sizeof_entry_out; lia). eexists. split; [done |]. split; [done |].
  destruct dir; [right | left]; simpl.
  - split; [done |]. intros Hp. assert (true = false) by (apply Hd; split; [unfold ROOT_NODEID; lia | done]). done.
  - rewrite length_app. simpl. split_and!; [done | lia | by apply Hd].
Qed.
End tree.

(** C24. The tree is the one the example announces.  Reading a directory of the file system
    to its end, in as many pieces as a buffer of at least 48 bytes makes of it, lists the
    numbers from 2 up to its own, each once and in order; a number is listed as a file
    exactly when it is prime, and as a directory otherwise; and looking up a listed name
    finds the number with this name, with the same type.  For a number of the root from 2
    up to below (2^32 - 1)^2, where the counter of the loop of [is_prime_] does not wrap,
    and pages of at most 2^20 bytes. *)
Theorem prime_fs_directory pagesize s nodeid size :
  0 < pagesize ≤ 2 ^ 20 → small (number_ s) ∧ 2 ≤ number_ s →
  node s nodeid → is_dir_ s nodeid = Some true → 48 ≤ size →
  let num := num_of_ s nodeid in
  ∃ ds, list_all pagesize s (Z.to_nat num) nodeid size 0 = Some ds ∧ d_ino <$> ds = seqZ 2 (num - 2) ∧
    ∀ d, d ∈ ds →
      (d_type d = DT_REG ∧ prime (d_ino d) ∨ d_type d = DT_DIR ∧ ¬ prime (d_ino d)) ∧
      ∀ unique rest, ∃ attr,
        do_lookup_ pagesize s (mkRequest FUSE_LOOKUP nodeid unique 0 0 (d_name d ++ 0 :: rest))
        = Some (mkReply 0 (sizeof_out_header + sizeof_entry_out) unique sizeof_entry_out (EntryOut (d_ino d) attr)) ∧
        (attr_mode attr = FILE_MODE ∧ prime (d_ino d) ∨ attr_mode attr = DIR_MODE ∧ ¬ prime (d_ino d)).
Proof.
  intros Hpage Hnum Hnode Hdir Hsize num. destruct (node_small s Hnum _ Hnode) as (_ & Hsm & H2). fold num in Hsm, H2.
  destruct (list_all_spec pagesize s Hpage Hnum nodeid size (Z.to_nat num) 0 Hnode Hdir Hsize) as (ds & E & Hl);
    [fold num; lia.. |]. fold num in Hl. exists ds. split; [done |].
  split; [rewrite (listing_inos _ _ _ Hl); f_equal; lia |].
  intros d Hd. destruct (listing_entry _ _ _ _ Hl Hd) as (k & Hk & [Hino _ Hname Hty]). rewrite Hino, Hname.
  split; [done |]. intros unique rest.
  destruct (lookup_spec pagesize s Hpage Hnum nodeid unique (k + 2) rest Hnode Hdir) as (attr & Ea & _ & Hm); [fold num; lia |].
  exists attr. split; [done |]. naive_solver.
Qed.

(** ** Replies *)

Section serve.
Context (pagesize : Z) (s : FuseServer).
Hypothesis Hpage : 0 < pagesize ≤ 2 ^ 20.
Hypothesis Hnumber : small (number_ s) ∧ 2 ≤ number_ s.

(** A request as the kernel sends it: for a node it knows, with an offset that a
    directory gave. *)
Record request_ok (req : Request) : Prop := {
  ro_node : node s (req_nodeid req);
  ro_offset : 0 ≤ req_offset req < 2 ^ 64 - 2;
  ro_size : 0 ≤ req_size req
}.

(** A reply that answers [req] and fits. *)
Record reply_fits (req : Request) (r : Reply) : Prop := {
  rf_unique : out_unique r = req_unique req;
  rf_len : out_len r = sizeof_out_header + payload_sz r;
  rf_size : 0 ≤ payload_sz r ≤ MAX_PAYLOAD_SZ pagesize;
  rf_error : out_error r ≠ 0 → payload_sz r = 0;
  rf_limit : req_opcode req = FUSE_READ ∨ req_opcode req = FUSE_READDIR → payload_sz r ≤ req_size req;
  rf_data : match out_data r with
            | Content bytes => Z.of_nat (length bytes) = payload_sz r
            | Dirents ds => Forall (λ d, 0 ≤ d_pos d ∧ d_pos d + reclen d ≤ payload_sz r) ds
            | _ => True
            end
}.

Lemma reply_err_fits req err : request_ok req → reply_fits req (reply_err req err).
Proof.
  intros [_ _ Hs]. pose proof (payload_bounds pagesize Hpage). split; simpl; try done; lia.
Qed.

Lemma reply_struct_fits req data size :
  0 ≤ size ≤ 128 → req_opcode req ≠ FUSE_READ → req_opcode req ≠ FUSE_READDIR →
  match data with Content _ | Dirents _ => False | _ => True end →
  ∃ r, reply_ok pagesize req data size = Some r ∧ reply_fits req r.
Proof.
  intros Hs Hr Hd Hdata. pose proof (payload_bounds pagesize Hpage). rewrite (reply_ok_fits pagesize Hpage) by lia.
  eexists. split; [done |]. split; simpl; try done; [lia | tauto | by destruct data].
Qed.

Lemma read_fits req :
  request_ok req → req_opcode req = FUSE_READ → ∃ r, do_read_ pagesize s req = Some r ∧ reply_fits req r.
Proof.
  intros Hr Hop. pose proof Hr as [Hn Ho Hs]. destruct (node_small s Hnumber _ Hn) as (Hsm & Hsm' & _).
  pose proof (payload_bounds pagesize Hpage) as Hmax. unfold do_read_.
  destruct (is_dir_decides s _ Hsm) as (dir & -> & _). cbn [mbind option_bind].
  destruct dir; cbn [negb]; [eexists; split; [done | by apply reply_err_fits] |].
  pose proof (to_string_length 20 (num_of_ s (req_nodeid req)) []) as Hl. fold (to_string (num_of_ s (req_nodeid req))) in Hl.
  set (content := to_string (num_of_ s (req_nodeid req)) ++ [10]).
  assert (length content ≤ 21)%nat as Hc by (unfold content; rewrite length_app; simpl in *; lia).
  rewrite (reply_ok_fits pagesize Hpage) by lia. eexists. split; [done |]. split; simpl; try done; try lia.
  rewrite length_take, length_drop. lia.
Qed.

Lemma readdir_fits req :
  request_ok req → req_opcode req = FUSE_READDIR → ∃ r, do_readdir_ pagesize s req = Some r ∧ reply_fits req r.
Proof.
  intros Hr Hop. pose proof Hr as [Hn Ho Hs]. destruct (node_small s Hnumber _ Hn) as (Hsm & _).
  destruct (is_dir_decides s _ Hsm) as (dir & Ed & _). destruct dir.
  - destruct (readdir_spec pagesize s Hpage Hnumber req Hn Ed Ho Hs) as (ds & j & used & -> & _ & Hu & Hpos & _).
    eexists. split; [done |]. split; simpl; try done; lia.
  - unfold do_readdir_. rewrite Ed. simpl. eexists. split; [done | by apply reply_err_fits].
Qed.

Lemma lookup_fits req :
  request_ok req → req_opcode req = FUSE_LOOKUP → ∃ r, do_lookup_ pagesize s req = Some r ∧ reply_fits req r.
Proof.
  intros Hr Hop. pose proof Hr as [Hn Ho Hs]. destruct (node_small s Hnumber _ Hn) as (Hsm & Hsm' & _). unfold do_lookup_.
  destruct (is_dir_decides s _ Hsm) as (dir & -> & _). cbn [mbind option_bind].
  pose proof (reply_err_fits req) as Herr. destruct dir; cbn [negb]; [| eauto].
  destruct (from_chars _) as [[num|] [|c rest]]; eauto. destruct (_ || _) eqn:E; [eauto |].
  bool_to_prop. destruct (is_dir_decides s num) as (dir & -> & _); [unfold small in *; lia |]. cbn [mbind option_bind].
  apply reply_struct_fits; [unfold sizeof_entry_out; lia | by rewrite Hop.. | done].
Qed.

(** Every request gets a reply that fits. *)
Lemma handle_fits req : request_ok req → ∃ r, handle pagesize s req = Some r ∧ reply_fits req r.
Proof.
  intros Hr. pose proof Hr as [Hn Ho Hs]. destruct (node_small s Hnumber _ Hn) as (Hsm & _). unfold handle.
  pose proof (reply_err_fits req) as Herr.
  destruct (Z.eqb_spec (req_opcode req) FUSE_LOOKUP) as [|_]; [by apply lookup_fits |].
  destruct (Z.eqb_spec (req_opcode req) FUSE_GETATTR) as [Hop | _].
  { unfold do_getattr_. destruct (is_dir_decides s _ Hsm) as (dir & -> & _). cbn [mbind option_bind].
    apply reply_struct_fits; [unfold sizeof_attr_out; lia | by rewrite Hop.. | done]. }
  destruct (_ || _) eqn:Eo.
  { apply reply_struct_fits; [unfold sizeof_open_out; lia | | | done]; intros E; rewrite E in Eo; done. }
  destruct (Z.eqb_spec (req_opcode req) FUSE_READ) as [|_]; [by apply read_fits |].
  destruct (Z.eqb_spec (req_opcode req) FUSE_READDIR) as [|_]; [by apply readdir_fits |].
  destruct (Z.eqb_spec (req_opcode req) FUSE_STATFS) as [Hop | _].
  { apply reply_struct_fits; [unfold sizeof_statfs_out; lia | by rewrite Hop.. | done]. }
  match goal with |- context [if ?b then _ else _] => destruct b end; eexists; (split; [done | by apply reply_err_fits]).
Qed.

(** The results that bring a request. *)
Fixpoint fetched (results : list (Z * (Z * Request))) : list (Z * Request) :=
  match results with
  | [] => []
  | (r, x) :: results => if r <? 0 then [] else x :: fetched results
  end.

(** One commit for each request.  The loop of the server handles the requests that the
    kernel delivers one after the other: each gets one reply, committed under its own
    id, that carries its unique number; an error reply has no payload, and the payload
    of any other fits into the buffer and into the size asked for, every directory
    entry lying inside; the loop returns when the connection is gone and only an error
    of a command ends the server. *)
Theorem prime_fs_serves results :
  Forall (λ x, request_ok x.2.2) results →
  ∃ commits e, io_loop pagesize s results = Some (commits, e) ∧
    Forall2 (λ x c, c.1 = x.1 ∧ handle pagesize s x.2 = Some c.2 ∧ reply_fits x.2 c.2) (fetched results) commits ∧
    e = match drop (length commits) results with
        | [] => LoopWaiting
        | (r, _) :: _ => if r =? - ENOTCONN then LoopReturned else LoopExited
        end.
Proof.
  induction 1 as [|[r [id req]] results Hreq _ IH]; simpl; [by eexists _, _ |].
  destruct (Z.eqb_spec r (- ENOTCONN)) as [-> | Hne]; [by eexists _, _ |].
  destruct (Z.ltb_spec r 0) as [Hneg | Hpos].
  - eexists _, _. split_and!; [done | constructor | simpl]. by rewrite (proj2 (Z.eqb_neq _ _)).
  - destruct (handle_fits req Hreq) as (reply & Eh & Hf). destruct IH as (commits & e & E & Hall & He).
    rewrite Eh, E. eexists _, _. split_and!; [done | by constructor | done].
Qed.
End serve.

(** The loops of all queues have headers and payloads of their own, inside the two
    mappings. *)
Lemma places_disjoint pagesize queue_depth cpus q1 i1 q2 i2 :
  0 < pagesize ≤ 2 ^ 20 → 0 ≤ q1 < cpus → 0 ≤ q2 < cpus → 0 ≤ i1 < queue_depth → 0 ≤ i2 < queue_depth →
  (q1, i1) ≠ (q2, i2) →
  let size := MAX_PAYLOAD_SZ pagesize in
  let place := payload_place pagesize queue_depth in
  (place q1 i1 + size ≤ place q2 i2 ∨ place q2 i2 + size ≤ place q1 i1) ∧
  0 ≤ place q1 i1 ∧ place q1 i1 + size ≤ cpus * queue_depth * size.
Proof.
  intros Hp Hq1 Hq2 Hi1 Hi2 Hne size place. pose proof (payload_bounds pagesize Hp) as Hb.
  assert (∀ q i, place q i = (q * queue_depth + i) * size) as Hpl by (intros; unfold place, payload_place, size; lia).
  assert (∀ q i, 0 ≤ q < cpus → 0 ≤ i < queue_depth → 0 ≤ q * queue_depth + i < cpus * queue_depth) as Hr by (intros; nia).
  rewrite !Hpl. pose proof (Hr q1 i1 Hq1 Hi1). fold size in Hb. split.
  - assert (q1 * queue_depth + i1 ≠ q2 * queue_depth + i2) as Hd.
    { intros E. destruct (Z.lt_trichotomy q1 q2) as [|[-> |]]; [nia | | nia]. apply Hne. f_equal. lia. }
    destruct (Z.lt_gt_cases (q1 * queue_depth + i1) (q2 * queue_depth + i2)) as [[|]_]; [done | left | right]; nia.
  - nia.
Qed.

(** ** A concrete tree *)

Definition demo_server : FuseServer := mkServer 10 0 0 0.

(** The composite number 8 is a directory with the numbers 2 to 7, of which two entries
    fit into 64 bytes. *)
Lemma prime_fs_directory_witness :
  ∃ ds, list_all 4096 demo_server 8 8 64 0 = Some ds ∧ d_ino <$> ds = [2; 3; 4; 5; 6; 7].
Proof.
  destruct (prime_fs_directory 4096 demo_server 8 64) as (ds & E & Hino & _).
  - lia.
  - unfold small. simpl. lia.
  - unfold node, ROOT_NODEID. simpl. lia.
  - reflexivity.
  - lia.
  - exists ds. split; [exact E | exact Hino].
Defined.

Definition demo_results : list (Z * (Z * Request)) :=
  [(0, (11, mkRequest FUSE_LOOKUP 1 100 0 0 [55; 0])); (0, (12, mkRequest FUSE_READ 7 101 0 4096 []));
   (- ENOTCONN, (0, mkRequest 0 1 0 0 0 []))].

Lemma prime_fs_serves_witness :
  ∃ commits, io_loop 4096 demo_server demo_results = Some (commits, LoopReturned) ∧ length commits = 2%nat.
Proof.
  destruct (prime_fs_serves 4096 demo_server ltac:(lia) ltac:(unfold small; simpl; lia) demo_results)
    as (commits & e & E & Hall & He).
  - repeat constructor; unfold node, ROOT_NODEID; simpl; lia.
  - pose proof (Forall2_length _ _ _ Hall) as Hl. exists commits. rewrite <- Hl in He |- *. simpl in He. subst e.
    split; [exact E | done].
Defined.
