(* ===== verification/Servers.v ===== *)
(** * Servers and tools on condy (examples/echo-server.cpp, file-server.cpp,
    link-cp.cpp, ublk-loop.cpp)

    Coroutines that await one operation after the other.  [IO] runs them against a
    script: the results with which the kernel completes the operations, each with the
    bytes or numbers it leaves in memory; [trace] are the operations with their
    completions.  A coroutine returns, ends the program with [exit], or still waits for an
    operation when the script ends. *)

From Stdlib Require Import Ascii String.
From stdpp Require Import base numbers list.
From S2P Require Import Prelude PrimeFs.

Set Warnings "-register-all".

(** ** Operations *)

(** [UBLK_U_IO_FETCH_REQ] and [UBLK_U_IO_COMMIT_AND_FETCH_REQ] *)
Inductive ublk_cmd := FetchReq | CommitAndFetchReq.

Inductive io_op :=
  | Accept (fd : Z)
  | Recv (fd len : Z)
  | Send (fd : Z) (data : list Z)
  | Open (path : list Z)
  | Statx (fd : Z)
  | Pipe
  | Splice (fd_in fd_out len : Z)
  | Close (fd : Z)
  | ReadAt (fd place len off : Z)
  | WriteAt (fd place len off : Z)
  | Fsync (fd : Z)
  | IoCmd (cmd : ublk_cmd) (q_id tag result place : Z).

Record Io := mkIo {
  script : list (Z * list Z);
  trace : list (io_op * (Z * list Z))
}.

Inductive io_outcome (A : Type) :=
  | Returned (a : A)
  | Exited (code : Z)
  | Waiting.
Arguments Returned {A} a.
Arguments Exited {A} code.
Arguments Waiting {A}.

Definition IO (A : Type) : Type := Io → io_outcome A * Io.
#[export] Instance io_ret : MRet IO := λ A a s, (Returned a, s).
#[export] Instance io_bind : MBind IO := λ A B k m s,
  match m s with
  | (Returned a, s) => k a s
  | (Exited c, s) => (Exited c, s)
  | (Waiting, s) => (Waiting, s)
  end.

(** [co_await op]: the result and what the kernel wrote. *)
Definition await (op : io_op) : IO (Z * list Z) := λ s,
  match script s with
  | [] => (Waiting, s)
  | (r, data) :: rest => (Returned (r, data), mkIo rest (trace s ++ [(op, (r, data))]))
  end.
Definition exit_ {A} (code : Z) : IO A := λ s, (Exited code, s).

(** ** echo-server.cpp *)

Module Echo.
Definition MAX_MESSAGE_LEN : Z := 2048.

(** The turns of the loop are bounded by the results to come. *)
Fixpoint session_loop (fuel : nat) (client_fd : Z) : IO unit :=
  match fuel with
  | O => λ s, (Waiting, s)
  | S fuel =>
      '(n, buffer) ← await (Recv client_fd MAX_MESSAGE_LEN);
      if n <=? 0 then mret tt
      else
        '(r, _) ← await (Send client_fd (take (Z.to_nat n) buffer));
        if r <? 0 then mret tt else session_loop fuel client_fd
  end.

Definition session (fuel : nat) (client_fd : Z) : IO unit :=
  session_loop fuel client_fd;;
  _ ← await (Close client_fd);
  mret tt.

(** [co_main]: the descriptors for which sessions are spawned, and the result. *)
Fixpoint co_main (fuel : nat) (server_fd : Z) (spawned : list Z) : IO (list Z * Z) :=
  match fuel with
  | O => λ s, (Waiting, s)
  | S fuel =>
      '(client_fd, _) ← await (Accept server_fd);
      if client_fd <? 0 then mret (spawned, 1) else co_main fuel server_fd (spawned ++ [client_fd])
  end.
End Echo.

(** ** file-server.cpp *)

Module FileServer.
Definition CHUNK_SIZE : Z := 8192.

Definition crlf : list Z := [13; 10].
Definition space : Z := 32.
Definition slash : Z := 47.
Definition bytes (s : string) : list Z := map (λ c, Z.of_N (N_of_ascii c)) (list_ascii_of_string s).
Definition index_html : list Z := bytes "/index.html".

(** A reply without content. *)
Definition http_status (line : string) : list Z := bytes line ++ crlf ++ bytes "Content-Length: 0" ++ crlf ++ crlf.
Definition HTTP_400 : list Z := http_status "HTTP/1.1 400 Bad Request".
Definition HTTP_404 : list Z := http_status "HTTP/1.1 404 Not Found".
Definition HTTP_500 : list Z := http_status "HTTP/1.1 500 Internal Server Error".

(** [snprintf] with [HTTP_200_TEMPLATE]; ["%d"] of an [int]. *)
Definition format_d (n : Z) : list Z := if n <? 0 then 45 :: to_string (- n) else to_string n.
Definition http_200 (n : Z) : list Z :=
  bytes "HTTP/1.1 200 OK" ++ crlf ++ bytes "Content-Length: " ++ format_d n ++ crlf ++ crlf.

(** [request.find("\r\n")] and [line.find(' ')]: the text before the match and, for the
    space, the text after it. *)
Fixpoint before_crlf (s : list Z) : option (list Z) :=
  match s with
  | c :: (d :: _) as s' => if (c =? 13) && (d =? 10) then Some [] else cons c <$> before_crlf s'
  | _ => None
  end.
Fixpoint split_space (s : list Z) : option (list Z * list Z) :=
  match s with
  | [] => None
  | c :: s => if c =? space then Some ([], s) else '(a, b) ← split_space s; Some (c :: a, b)
  end.

Definition parse_request (request : list Z) : list Z :=
  match before_crlf request with
  | None => []
  | Some request_line =>
      match split_space request_line with
      | None => []
      | Some (_, rest) => match split_space rest with None => [] | Some (path, _) => path end
      end
  end.

(** The loop of [sendfile] never reaches the calls of [async_close] after it. *)
Fixpoint sendfile_loop (fuel : nat) (out_fd in_fd pipe_r pipe_w : Z) : IO unit :=
  match fuel with
  | O => λ s, (Waiting, s)
  | S fuel =>
      '(n, _) ← await (Splice in_fd pipe_w CHUNK_SIZE);
      if n =? 0 then mret tt
      else if n <? 0 then exit_ 1
      else
        '(n, _) ← await (Splice pipe_r out_fd CHUNK_SIZE);
        if n <? 0 then exit_ 1 else sendfile_loop fuel out_fd in_fd pipe_r pipe_w
  end.

Definition sendfile (fuel : nat) (out_fd in_fd : Z) : IO unit :=
  '(r, fds) ← await Pipe;
  if negb (r =? 0) then exit_ 1
  else sendfile_loop fuel out_fd in_fd (default 0 (fds !! 0%nat)) (default 0 (fds !! 1%nat)).

Section session.
Context (serve_directory : list Z).

Definition S_ISREG (mode : Z) : bool := Z.land mode 0xf000 =? 0x8000.

(** Send [reply] and close: the early returns of [session]. *)
Definition refuse (client_fd : Z) (reply : list Z) (file_fd : option Z) : IO unit :=
  _ ← await (Send client_fd reply);
  (match file_fd with Some fd => (_ ← await (Close fd); mret tt) | None => mret tt end : IO unit);;
  _ ← await (Close client_fd);
  mret tt.

Definition session (fuel : nat) (client_fd : Z) : IO unit :=
  '(n, buffer) ← await (Recv client_fd 1024);
  if n <? 0 then _ ← await (Close client_fd); mret tt
  else
    let path := parse_request (take (Z.to_nat n) buffer) in
    if bool_decide (path = []) then refuse client_fd HTTP_400 None
    else
      let path := if bool_decide (path = [slash]) then index_html else path in
      '(file_fd, _) ← await (Open (serve_directory ++ path));
      if file_fd <? 0 then refuse client_fd HTTP_404 None
      else
        '(r_stat, statx_buf) ← await (Statx file_fd);
        if r_stat <? 0 then refuse client_fd HTTP_500 (Some file_fd)
        else
          let stx_mode := default 0 (statx_buf !! 0%nat) in
          let stx_size := default 0 (statx_buf !! 1%nat) in
          if negb (S_ISREG stx_mode) then refuse client_fd HTTP_404 (Some file_fd)
          else
            _ ← await (Send client_fd (http_200 (s32 stx_size)));
            sendfile fuel client_fd file_fd;;
            _ ← await (Close file_fd);
            _ ← await (Close client_fd);
            mret tt.
End session.
End FileServer.

(** ** link-cp.cpp *)

Module LinkCp.
Section copy.
Context (chunk_size file_size : Z).

(** The head of the loop of [copy_file_task]: the offset and the length of the chunk it
    takes, and the shared offset after it. *)
Definition take_chunk (offset : Z) : option ((Z * Z) * Z) :=
  if offset <? file_size then Some ((offset, Z.min chunk_size (file_size - offset)), offset + chunk_size)
  else None.

(** The chunks that the tasks take, in the order in which their turns come: all tasks run
    on one thread and share [offset]. *)
Fixpoint chunks (fuel : nat) (offset : Z) : list (Z * Z) :=
  match fuel with
  | O => []
  | S fuel =>
      match take_chunk offset with
      | Some (c, offset) => c :: chunks fuel offset
      | None => []
      end
  end.

(** The operations for one chunk, linked, and the test of their results. *)
Definition copy_chunk (place : Z) (c : Z * Z) : IO unit :=
  '(r1, _) ← await (ReadAt 0 place c.2 c.1);
  '(r2, _) ← await (WriteAt 1 place c.2 c.1);
  if (r1 <? 0) || (r2 <? 0) then exit_ 1 else mret tt.
End copy.
End LinkCp.

(** ** ublk-loop.cpp *)

Module Ublk.
Definition SECTOR_SIZE : Z := 512.
Definition MAX_SECTORS : Z := 128.
Definition BUF_SIZE : Z := MAX_SECTORS * SECTOR_SIZE.
Definition UBLK_IO_RES_ABORT : Z := - 19.
Definition UBLK_IO_OP_READ : Z := 0.
Definition UBLK_IO_OP_WRITE : Z := 1.
Definition UBLK_IO_OP_FLUSH : Z := 2.

Section loop.
Context (backing_fd bufs_base queue_depth : Z).

Definition buf_place (q_id tag : Z) : Z := bufs_base + q_id * (queue_depth * BUF_SIZE) + tag * BUF_SIZE.

(** [ublksrv_io_desc]: [op_flags], [nr_sectors], [start_sector], as the kernel has written
    them when a command completes. *)
Record io_desc := mkDesc {
  op_flags : Z;
  nr_sectors : Z;
  start_sector : Z
}.
Definition desc_of (l : list Z) : io_desc := mkDesc (default 0 (l !! 0%nat)) (default 0 (l !! 1%nat)) (default 0 (l !! 2%nat)).
Definition ublksrv_get_op (d : io_desc) : Z := Z.land (op_flags d) 0xff.

(** The [switch]: the operation on the backing file and its result. *)
Definition perform (buf : Z) (d : io_desc) : IO Z :=
  let start := u64 (start_sector d * SECTOR_SIZE) in
  let size := u64 (nr_sectors d * SECTOR_SIZE) in
  let op := ublksrv_get_op d in
  if op =? UBLK_IO_OP_READ then '(r, _) ← await (ReadAt backing_fd buf size start); mret r
  else if op =? UBLK_IO_OP_WRITE then '(r, _) ← await (WriteAt backing_fd buf size start); mret r
  else if op =? UBLK_IO_OP_FLUSH then '(r, _) ← await (Fsync backing_fd); mret r
  else mret (- EINVAL).

Fixpoint serve (fuel : nat) (q_id tag : Z) (d : io_desc) : IO unit :=
  match fuel with
  | O => λ s, (Waiting, s)
  | S fuel =>
      r ← perform (buf_place q_id tag) d;
      '(r, next) ← await (IoCmd CommitAndFetchReq q_id tag (s32 r) (buf_place q_id tag));
      if r =? UBLK_IO_RES_ABORT then mret tt
      else if r <? 0 then exit_ 1
      else serve fuel q_id tag (desc_of next)
  end.

Definition io_loop (fuel : nat) (q_id tag : Z) : IO unit :=
  '(r, d) ← await (IoCmd FetchReq q_id tag 0 (buf_place q_id tag));
  if r =? UBLK_IO_RES_ABORT then mret tt
  else if r <? 0 then exit_ 1
  else serve fuel q_id tag (desc_of d).
End loop.
End Ublk.

(** ** Reasoning about coroutines *)

(** Whatever the script, [m] ends in a state that satisfies [Q]. *)
Definition wp {A} (m : IO A) (Q : io_outcome A → Io → Prop) (s : Io) : Prop := Q (m s).1 (m s).2.

Lemma wp_ret {A} (a : A) (Q : io_outcome A → Io → Prop) s : Q (Returned a) s → wp (mret a) Q s.
Proof. done. Qed.

Lemma wp_exit {A} c (Q : io_outcome A → Io → Prop) s : Q (Exited c) s → wp (exit_ c) Q s.
Proof. done. Qed.

Lemma wp_bind {A B} (m : IO A) (k : A → IO B) (Q : io_outcome B → Io → Prop) s :
  wp m (λ o s, match o with
               | Returned a => wp (k a) Q s
               | Exited c => Q (Exited c) s
               | Waiting => Q Waiting s
               end) s →
  wp (x ← m; k x) Q s.
Proof. unfold wp, mbind, io_bind. by destruct (m s) as [[] s']. Qed.

Lemma wp_mono {A} (m : IO A) (P Q : io_outcome A → Io → Prop) s : (∀ o s, P o s → Q o s) → wp m P s → wp m Q s.
Proof. intros HPQ. apply HPQ. Qed.

Lemma wp_await op (Q : io_outcome (Z * list Z) → Io → Prop) s :
  (script s = [] → Q Waiting s) →
  (∀ r data rest, script s = (r, data) :: rest → Q (Returned (r, data)) (mkIo rest (trace s ++ [(op, (r, data))]))) →
  wp (await op) Q s.
Proof. intros Hw Hr. unfold wp, await. destruct (script s) as [|[r data] rest]; [by apply Hw | by apply Hr]. Qed.

(** Run to the next operation. *)
Ltac wp_step :=
  lazymatch goal with
  | |- wp (mret _) _ _ => apply wp_ret
  | |- wp (exit_ _) _ _ => apply wp_exit
  | |- wp (mbind _ _) _ _ => apply wp_bind
  | |- wp (await _) _ _ =>
      let r := fresh "r" in let data := fresh "data" in let rest := fresh "rest" in let Hs := fresh "Hs" in
      apply wp_await; [intros Hs | intros r data rest Hs]
  end; cbn [script trace] in *.

(** The descriptors that a trace closes, in order, and those it makes: one for a file that
    has been opened, two for a pipe. *)
Definition made (x : io_op * (Z * list Z)) : list Z :=
  let '(op, (r, data)) := x in
  match op with
  | Open _ => if 0 <=? r then [r] else []
  | Pipe => if r =? 0 then [default 0 (data !! 0%nat); default 0 (data !! 1%nat)] else []
  | _ => []
  end.
Definition closes (t : list (io_op * (Z * list Z))) : list Z :=
  omap (λ x, match x.1 with Close fd => Some fd | _ => None end) t.
Definition opens (t : list (io_op * (Z * list Z))) : list Z := concat (map made t).

Lemma closes_app t t' : closes (t ++ t') = closes t ++ closes t'.
Proof. apply omap_app. Qed.
Lemma opens_app t t' : opens (t ++ t') = opens t ++ opens t'.
Proof. unfold opens. by rewrite map_app, concat_app. Qed.
Lemma opens_one x : opens [x] = made x.
Proof. apply app_nil_r. Qed.
Create Rewrite HintDb traces.
#[export] Hint Rewrite closes_app opens_app opens_one app_nil_r : traces.

(** An outcome after which [cs] have been closed and [os] opened since [s]; a coroutine
    waits only when the script has ended. *)
Definition after (s : Io) (os cs : list Z) {A} (o : io_outcome A) (s' : Io) : Prop :=
  match o with
  | Returned _ => closes (trace s') = closes (trace s) ++ cs ∧ opens (trace s') = opens (trace s) ++ os ∧
                  (length (script s') ≤ length (script s))%nat
  | Exited c => c = 1
  | Waiting => script s' = []
  end.

Ltac after_done :=
  unfold after in *; destruct_and?; subst; simpl in *; autorewrite with traces in *; simpl in *; autorewrite with traces in *;
  rewrite <- ?app_assoc in *; simpl in *; split_and?; (done || congruence || lia).

(** *** [sendfile] makes a pipe and closes nothing *)
Lemma sendfile_loop_wp fuel out_fd in_fd pr pw : ∀ s,
  (length (script s) < fuel)%nat → wp (FileServer.sendfile_loop fuel out_fd in_fd pr pw) (after s [] []) s.
Proof.
  induction fuel as [|fuel IH]; intros [sc tr] Hf; simpl in Hf; [lia |]. cbn [FileServer.sendfile_loop].
  wp_step. wp_step; [done |]. destruct (r =? 0); [wp_step; after_done |].
  destruct (r <? 0); [by wp_step |]. wp_step. wp_step; [done |]. destruct (r0 <? 0); [by wp_step |].
  eapply wp_mono; [| apply IH; subst; simpl in *; lia].
  intros o s' Ha. unfold after in *. destruct o; [after_done | done | done].
Qed.

Lemma sendfile_wp fuel out_fd in_fd s :
  (length (script s) < fuel)%nat →
  wp (FileServer.sendfile fuel out_fd in_fd) (λ o s', ∃ pr pw, after s [pr; pw] [] o s') s.
Proof.
  destruct s as [sc tr]. intros Hf. unfold FileServer.sendfile. wp_step. wp_step; [by exists 0, 0 |].
  destruct (Z.eqb_spec r 0) as [-> | Hr]; cbn [negb]; [| by wp_step; exists 0, 0].
  eapply wp_mono; [| apply sendfile_loop_wp; subst; simpl in *; lia].
  intros o s' Ha. exists (default 0 (data !! 0%nat)), (default 0 (data !! 1%nat)).
  unfold after in *. destruct o; [after_done | done | done].
Qed.

Lemma refuse_wp client_fd reply file_fd s :
  wp (FileServer.refuse client_fd reply file_fd) (after s [] (option_list file_fd ++ [client_fd])) s.
Proof.
  destruct s as [sc tr]. unfold FileServer.refuse. wp_step. wp_step; [done |]. destruct file_fd as [fd|].
  - do 3 wp_step; [done |]. do 3 wp_step; [done |]. wp_step. after_done.
  - do 2 wp_step. wp_step. wp_step; [done |]. wp_step. after_done.
Qed.

Section session.
Context (serve_directory : list Z).

(** How a session may end: when it returns, [file] is the file it has opened, if any, and
    [pipe] are the two descriptors of the pipe that was made to send it. *)
Definition session_ends (client_fd : Z) {A} (o : io_outcome A) (s : Io) : Prop :=
  match o with
  | Returned _ =>
      ∃ file pipe, opens (trace s) = file ++ pipe ∧ closes (trace s) = file ++ [client_fd] ∧
        (length file ≤ 1)%nat ∧ (pipe = [] ∨ length pipe = 2%nat ∧ length file = 1%nat)
  | Exited c => c = 1
  | Waiting => script s = []
  end.

Lemma refuse_ends client_fd reply file_fd s :
  closes (trace s) = [] → opens (trace s) = option_list file_fd →
  wp (FileServer.refuse client_fd reply file_fd) (session_ends client_fd) s.
Proof.
  intros Hc Ho. eapply wp_mono; [| apply refuse_wp]. intros [u | c |] s' Ha; simpl in *; [| done | done].
  destruct Ha as (-> & -> & _). exists (option_list file_fd), []. rewrite Hc, Ho, app_nil_r.
  split_and!; [done | done | destruct file_fd; simpl; lia | by left].
Qed.

(** C25. The descriptors of the sessions of the file server.  Whatever the client sends and
    however the operations complete: a session returns, ends the program with status 1, or
    waits for an operation that has not completed; when it returns it has closed the file
    it opened, if any, and then the connection, each exactly once, and nothing else.  So a
    session that has sent its file leaves two descriptors open, those of the pipe that
    [sendfile] made, and every other one leaves none. *)
Theorem file_session_descriptors fuel client_fd results :
  (length results < fuel)%nat →
  let '(o, s) := FileServer.session serve_directory fuel client_fd (mkIo results []) in
  session_ends client_fd o s.
Proof.
  intros Hf. set (m := FileServer.session _ _ _).
  assert (wp m (session_ends client_fd) (mkIo results [])) as Hm; [| unfold wp in Hm; by destruct (m _)].
  unfold m, FileServer.session. wp_step. wp_step; [done |].
  destruct (r <? 0).
  { do 2 wp_step; [done |]. wp_step. exists [], []. split_and!; [done | done | simpl; lia | by left]. }
  destruct (bool_decide _); [by apply refuse_ends |].
  wp_step. wp_step; [done |]. destruct (r0 <? 0) eqn:Efd; bool_to_prop.
  { apply refuse_ends; simpl; [done |]. unfold opens. simpl. by rewrite (proj2 (Z.leb_gt 0 r0)) by lia. }
  assert ((0 <=? r0) = true) as Hfd by (by apply Z.leb_le).
  wp_step. wp_step; [done |].
  destruct (r1 <? 0); [apply refuse_ends; [done | unfold opens; simpl; by rewrite Hfd] |].
  destruct (negb _); [apply refuse_ends; [done | unfold opens; simpl; by rewrite Hfd] |].
  wp_step. wp_step; [done |]. wp_step. eapply wp_mono; [| apply sendfile_wp; subst; simpl in *; lia].
  intros [u | c |] s' (pr & pw & Ha); simpl in Ha; [| done | done]. destruct Ha as (Hc & Ho & _).
  unfold opens at 2 in Ho. simpl in Ho. rewrite Hfd in Ho. simpl in *.
  wp_step. wp_step; [done |]. wp_step. wp_step; [done |]. wp_step. exists [r0], [pr; pw]. simpl.
  autorewrite with traces. rewrite Hc, Ho. simpl. split_and!; [done | done | lia | by right].
Qed.
End session.

(** *** Requests *)

Lemma split_space_app a b : FileServer.space ∉ a → FileServer.split_space (a ++ FileServer.space :: b) = Some (a, b).
Proof.
  induction a as [|c a IH]; intros Ha; simpl; [done |]. apply not_elem_of_cons in Ha as [Hc Ha].
  rewrite (proj2 (Z.eqb_neq _ _)) by done. by rewrite IH.
Qed.

Lemma before_crlf_app a b : 13 ∉ a → FileServer.before_crlf (a ++ FileServer.crlf ++ b) = Some a.
Proof.
  induction a as [|c a IH]; intros Ha; [done |]. apply not_elem_of_cons in Ha as [Hc Ha]. specialize (IH Ha).
  cbn [app]. destruct (a ++ FileServer.crlf ++ b) as [|d l] eqn:E; [by destruct a |].
  change (FileServer.before_crlf (c :: d :: l))
    with (if (c =? 13) && (d =? 10) then Some [] else cons c <$> FileServer.before_crlf (d :: l)).
  rewrite (proj2 (Z.eqb_neq c 13)) by done. cbn [andb]. by rewrite IH.
Qed.

(** The path of a request line. *)
Lemma parse_request_path meth path version rest :
  FileServer.space ∉ meth → FileServer.space ∉ path → 13 ∉ meth → 13 ∉ path → 13 ∉ version →
  FileServer.parse_request (meth ++ FileServer.space :: path ++ FileServer.space :: version ++ FileServer.crlf ++ rest) = path.
Proof.
  intros H1 H2 H3 H4 H5. unfold FileServer.parse_request.
  replace (meth ++ FileServer.space :: path ++ FileServer.space :: version ++ FileServer.crlf ++ rest)
    with ((meth ++ FileServer.space :: path ++ FileServer.space :: version) ++ FileServer.crlf ++ rest)
    by (by rewrite <- !app_assoc; simpl; rewrite <- app_assoc).
  rewrite before_crlf_app.
  - rewrite split_space_app by done. by rewrite split_space_app by done.
  - rewrite elem_of_app, elem_of_cons, elem_of_app, elem_of_cons. unfold FileServer.space. naive_solver.
Qed.

(** *** The echo server *)

Lemma echo_loop_wp fuel client_fd : ∀ s,
  (length (script s) < fuel)%nat → wp (Echo.session_loop fuel client_fd) (after s [] []) s.
Proof.
  induction fuel as [|fuel IH]; intros [sc tr] Hf; simpl in Hf; [lia |]. cbn [Echo.session_loop].
  wp_step. wp_step; [done |]. destruct (r <=? 0); [wp_step; after_done |].
  wp_step. wp_step; [done |]. destruct (r0 <? 0); [wp_step; after_done |].
  eapply wp_mono; [| apply IH; subst; simpl in *; lia].
  intros o s' Ha. unfold after in *. destruct o; [after_done | done | done].
Qed.

(** A session closes its connection once, and last. *)
Lemma echo_session_closes fuel client_fd results :
  (length results < fuel)%nat →
  wp (Echo.session fuel client_fd) (λ o s, match o with
    | Returned _ => ∃ t c, trace s = t ++ [(Close client_fd, c)] ∧ closes t = []
    | Exited _ => False
    | Waiting => script s = []
    end) (mkIo results []).
Proof.
  intros Hf. unfold Echo.session. wp_step.
  assert (∀ fuel s, wp (Echo.session_loop fuel client_fd) (λ o _, ∀ c, o ≠ Exited c) s) as Hne.
  { clear. induction fuel as [|fuel IH]; intros s; [done |]. cbn [Echo.session_loop]. wp_step. wp_step; [done |].
    destruct (r <=? 0); [by wp_step |]. wp_step. wp_step; [done |]. destruct (r0 <? 0); [by wp_step | apply IH]. }
  pose proof (echo_loop_wp fuel client_fd (mkIo results []) Hf) as Hw. specialize (Hne fuel (mkIo results [])).
  unfold wp in Hw, Hne |- * at 1. destruct (Echo.session_loop fuel client_fd _) as [[u | c |] s']; simpl in *; [| by destruct (Hne c) | done].
  wp_step. wp_step; [done |]. wp_step. exists (trace s'), (r, data). split; [done |]. by destruct Hw as [-> _].
Qed.

(** *** The copy *)

(** The chunks that the tasks of link-cp take cover the file: every byte is in exactly one
    of them. *)
Lemma chunks_cover chunk_size file_size fuel : ∀ offset,
  0 < chunk_size → 0 ≤ offset → (Z.to_nat (file_size - offset) ≤ fuel)%nat →
  concat ((λ c, seqZ c.1 c.2) <$> LinkCp.chunks chunk_size file_size fuel offset) = seqZ offset (file_size - offset).
Proof.
  induction fuel as [|fuel IH]; intros offset Hc Ho Hf; simpl; [by rewrite seqZ_nil by lia |].
  unfold LinkCp.take_chunk. destruct (Z.ltb_spec offset file_size) as [Hlt | Hge]; [| by rewrite seqZ_nil by lia].
  cbn [fmap list_fmap concat fst snd]. rewrite IH by lia. destruct (Z.le_gt_cases chunk_size (file_size - offset)) as [Hle | Hgt].
  - rewrite Z.min_l by lia. rewrite <- seqZ_app by lia. f_equal. lia.
  - rewrite Z.min_r by lia. rewrite (seqZ_nil (offset + chunk_size)) by lia. apply app_nil_r.
Qed.

(** With a chunk size of zero the offset stays where it is: as long as the operations
    succeed, the tasks take the empty chunk again and again. *)
Lemma zero_chunks_never_end file_size fuel :
  0 < file_size → LinkCp.chunks 0 file_size fuel 0 = replicate fuel (0, 0).
Proof.
  intros Hf. induction fuel as [|fuel IH]; [done |]. cbn [LinkCp.chunks]. unfold LinkCp.take_chunk.
  rewrite (proj2 (Z.ltb_lt _ _)) by done. rewrite Z.min_l by lia. cbn [replicate]. f_equal. exact IH.
Qed.

(** *** The block device *)

Section ublk.
Context (backing_fd bufs_base queue_depth : Z).
Abbreviation place := (Ublk.buf_place bufs_base queue_depth).

(** An operation on the backing file with the buffer of a tag, on whole sectors. *)
Definition backing (q_id tag : Z) (op : io_op) : Prop :=
  match op with
  | ReadAt fd p len off | WriteAt fd p len off =>
      fd = backing_fd ∧ p = place q_id tag ∧ ∃ n start, len = u64 (n * 512) ∧ off = u64 (start * 512)
  | Fsync fd => fd = backing_fd
  | _ => False
  end.

Abbreviation commit q_id tag res := (IoCmd CommitAndFetchReq q_id tag res (place q_id tag)).

(** Rounds: a request performed and committed with its result, or refused. *)
Inductive rounds (q_id tag : Z) : list (io_op * (Z * list Z)) → Prop :=
  | rounds_nil : rounds q_id tag []
  | rounds_pending op c : backing q_id tag op → rounds q_id tag [(op, c)]
  | rounds_done op r data c t :
      backing q_id tag op → rounds q_id tag t → rounds q_id tag ((op, (r, data)) :: (commit q_id tag (s32 r), c) :: t)
  | rounds_refused c t : rounds q_id tag t → rounds q_id tag ((commit q_id tag (- EINVAL), c) :: t).

Lemma perform_wp q_id tag d s :
  wp (Ublk.perform backing_fd (place q_id tag) d) (λ o s',
    match o with
    | Returned r => (∃ op data, backing q_id tag op ∧ trace s' = trace s ++ [(op, (r, data))] ∧ S (length (script s')) = length (script s)) ∨
                    r = - EINVAL ∧ s' = s
    | Exited _ => False
    | Waiting => s' = s ∧ script s = []
    end) s.
Proof.
  unfold Ublk.perform. cbv zeta.
  assert (∀ op, backing q_id tag op → wp ('(r, _) ← await op; mret r) (λ o s',
    match o with
    | Returned r => (∃ op data, backing q_id tag op ∧ trace s' = trace s ++ [(op, (r, data))] ∧ S (length (script s')) = length (script s)) ∨
                    r = - EINVAL ∧ s' = s
    | Exited _ => False
    | Waiting => s' = s ∧ script s = []
    end) s) as Hop.
  { intros op Hb. wp_step. wp_step; [done |]. wp_step. left. exists op, data. split_and!; [done | done |]. by rewrite Hs. }
  destruct (_ =? _); [apply Hop; simpl; split_and!; eauto |].
  destruct (_ =? _); [apply Hop; simpl; split_and!; eauto |].
  destruct (_ =? _); [by apply Hop |]. wp_step. by right.
Qed.

Lemma serve_wp q_id tag fuel : ∀ d s,
  (length (script s) < fuel)%nat →
  wp (Ublk.serve backing_fd bufs_base queue_depth fuel q_id tag d) (λ o s',
    (∃ t, trace s' = trace s ++ t ∧ rounds q_id tag t) ∧ (o = Waiting → script s' = [])) s.
Proof.
  induction fuel as [|fuel IH]; intros d s Hf; [lia |]. cbn [Ublk.serve]. wp_step.
  eapply wp_mono; [| apply perform_wp]. intros [r | c |] s1 Hp; [| done |].
  2: { destruct Hp as [-> Hp]. split; [| done]. exists []. by rewrite app_nil_r; split; [| constructor]. }
  wp_step.
  assert (∃ t1, trace s1 = trace s ++ t1 ∧ (length (script s1) ≤ length (script s))%nat ∧ rounds q_id tag t1 ∧
    (∀ c t, rounds q_id tag t → rounds q_id tag (t1 ++ (commit q_id tag (s32 r), c) :: t))) as (t1 & Ht1 & Hl1 & Hr1 & Happ).
  { destruct Hp as [(op & data & Hb & Ht & Hl) | [-> ->]].
    - exists [(op, (r, data))]. split_and!; [done | lia | by constructor |]. intros r' t Ht'. by apply rounds_done.
    - exists []. split_and!; [by rewrite app_nil_r | done | constructor |]. intros r' t Ht'. by apply rounds_refused. }
  wp_step; [by split; [eauto |] |].
  assert (rounds q_id tag (t1 ++ [(commit q_id tag (s32 r), (r0, data))])) as Hround by (apply Happ; constructor).
  destruct (r0 =? Ublk.UBLK_IO_RES_ABORT).
  { wp_step. split; [| done]. exists (t1 ++ [(commit q_id tag (s32 r), (r0, data))]). by rewrite Ht1, app_assoc. }
  destruct (r0 <? 0).
  { wp_step. split; [| done]. exists (t1 ++ [(commit q_id tag (s32 r), (r0, data))]). by rewrite Ht1, app_assoc. }
  eapply wp_mono; [| apply IH; rewrite Hs in Hl1; simpl in *; lia]. intros o s2 [(t & Ht & Hr) Hw]. split; [| done].
  exists (t1 ++ (commit q_id tag (s32 r), (r0, data)) :: t). split; [| by apply Happ].
  rewrite Ht. simpl. rewrite Ht1, <- !app_assoc. done.
Qed.

(** Each request that the block device gets is performed on the backing file, in the buffer
    of its tag, and committed with the result before the next one is looked at; the
    loop stops only when the kernel does not answer. *)
Lemma ublk_loop_rounds fuel q_id tag results :
  (length results < fuel)%nat →
  wp (Ublk.io_loop backing_fd bufs_base queue_depth fuel q_id tag) (λ o s,
    (trace s = [] ∨ ∃ c t, trace s = (IoCmd FetchReq q_id tag 0 (place q_id tag), c) :: t ∧ rounds q_id tag t) ∧
    (o = Waiting → script s = [])) (mkIo results []).
Proof.
  intros Hf. unfold Ublk.io_loop. wp_step. wp_step; [by split; [left |] |].
  destruct (r =? Ublk.UBLK_IO_RES_ABORT). { wp_step. split; [| done]. right. exists (r, data), []. split; [done | constructor]. }
  destruct (r <? 0). { wp_step. split; [| done]. right. exists (r, data), []. split; [done | constructor]. }
  eapply wp_mono; [| apply serve_wp; subst; simpl in *; lia]. intros o s [(t & Ht & Hr) Hw]. split; [| done].
  right. exists (r, data), t. by rewrite Ht.
Qed.

(** The buffers of different tags do not overlap, and a request of at most [MAX_SECTORS]
    sectors fits into one. *)
Lemma ublk_buffers q1 t1 q2 t2 n :
  0 ≤ q1 → 0 ≤ q2 → 0 ≤ t1 < queue_depth → 0 ≤ t2 < queue_depth → (q1, t1) ≠ (q2, t2) → 0 ≤ n ≤ Ublk.MAX_SECTORS →
  (place q1 t1 + u64 (n * Ublk.SECTOR_SIZE) ≤ place q2 t2 ∨ place q2 t2 + u64 (n * Ublk.SECTOR_SIZE) ≤ place q1 t1).
Proof.
  unfold Ublk.buf_place, Ublk.MAX_SECTORS, Ublk.SECTOR_SIZE. change Ublk.BUF_SIZE with 65536.
  intros Hq1 Hq2 Ht1 Ht2 Hne Hn. rewrite wrap_small by lia.
  assert (q1 * queue_depth + t1 ≠ q2 * queue_depth + t2) as Hd.
  { intros E. destruct (Z.lt_trichotomy q1 q2) as [|[-> |]]; [nia | | nia]. apply Hne. f_equal. lia. }
  destruct (Z.lt_trichotomy (q1 * queue_depth + t1) (q2 * queue_depth + t2)) as [|[|]]; [left | done | right]; lia.
Qed.
End ublk.

(** ** A concrete session *)

(** "GET / H\r\n" for a regular file of five bytes: receive, open, stat, send the header,
    pipe, two splices, end of file, close, close. *)
Definition demo_request : list Z := FileServer.bytes "GET / H" ++ FileServer.crlf.
Definition demo_session_results : list (Z * list Z) :=
  [(9, demo_request); (7, []); (0, [0x81a4; 5]); (40, []); (0, [8; 9]); (5, []); (5, []); (0, []); (0, []); (0, [])].
Definition demo_session : IO unit := FileServer.session [46] 11 4.

Example demo_session_runs :
  match demo_session (mkIo demo_session_results []) with
  | (Returned _, s) => closes (trace s) = [7; 4] ∧ opens (trace s) = [7; 8; 9] ∧
      trace s !! 1%nat = Some (Open (46 :: FileServer.index_html), (7, []))
  | _ => False
  end.
Proof. vm_compute. split_and!; reflexivity. Qed.

Lemma file_session_descriptors_witness :
  (length demo_session_results < 11)%nat ∧
  let '(o, s) := demo_session (mkIo demo_session_results []) in session_ends 4 o s.
Proof.
  assert (length demo_session_results < 11)%nat as Hl by (vm_compute; lia).
  split; [exact Hl |]. exact (file_session_descriptors [46] 11 4 demo_session_results Hl).
Defined.
